(* ===== verification/_CoqProject ===== *)
-Q . S2P
Prelude.v
Codec.v
DurableStore.v
Stores.v
Types.v
Prng.v
EventQueue.v
Simulator.v
Wal.v
KvStore.v
RaftLog.v
Rpc.v
RpcTypes.v
Env.v
Network.v
Node.v
Election.v
NodeVotes.v
NodeElection.v
Cluster.v
LogTree.v
NodeLog.v
Replication.v
NodeApply.v
NodeRecovery.v
NodeAppend.v
Findings.v
History.v
Checker.v
NetFrame.v
SimRun.v
Workload.v
WorkloadInv.v
SimEnv.v
SimFrame.v
FaultInjector.v
HarnessFrame.v
FaultFacts.v
Runner.v
RunnerInv.v
NodeCallbacks.v
EnvFrame.v
Text.v
Format.v
DispatchQueue.v
RealClock.v
TcpTransport.v
TcpFacts.v
Server.v
ServerFacts.v
ServerPromises.v
ServerProcess.v
ServerRun.v
Cli.v
CliFacts.v
HarnessFindings.v
HostEnv.v
HostFrame.v
Demo.v
DemoFacts.v
Bench.v
BenchFacts.v
Published.v
