(* ===== verification/Prelude.v ===== *)
(** * SimKV: a verification development

    SimKV is a replicated key-value store on Raft, written in C++, with a
    deterministic simulator that runs a whole cluster with injected faults, a
    checker that decides whether the recorded history of client operations is
    linearizable, and a server that runs the same Raft node over TCP.

    ** How the program is put together

    A [RaftNode] ([src/raft/node.cpp]) is written against three interfaces: a
    clock, a transport and a durable store.  In the simulation
    ([src/harness/runner.cpp]) the clock is the event queue of the simulator,
    the transport is the simulated network and the stores are in memory; the
    clients ([workload.cpp]) and the fault injector schedule their closures on
    the same queue, and the checker reads the history.  In the server
    ([src/server]) the clock is a timer thread, the transport is TCP, both post
    closures to one dispatch queue, and the stores are files.  The demo
    ([demo/demo.cpp]) and the recovery benchmark ([bench/bench_recovery.cpp])
    build a cluster on the simulator themselves and drive it from [main]; the
    throughput benchmark calls [run_once].

    ** Files

    The prelude: machine integers as [Z] with their wrap-around written out, a
    monad of state and exceptions, and the relations [keeps] and [returns] with
    their lemmas.  An access outside an object is the exception
    [undefined_behaviour], so that its absence is something to prove.

    Storage ([src/storage]).
    - [Codec]: [Encoder] and [Decoder] of [codec.hpp].
    - [DurableStore], [Stores]: the interface with its contract (a durable
      prefix and a volatile tail), [DurableStore] in memory, [FileDurableStore]
      over a record that stands for the POSIX calls; both refine the contract.
    - [Wal]: CRC-32c, command encoding, records, [append], [flush], [replay].
    - [KvStore]: the state machine.

    Raft ([src/raft]).
    - [Types], [RaftLog], [Rpc], [RpcTypes]: the entries, the log with its
      snapshot and its persistence, the ten messages with encoders and decoders
      and the types of what is decoded.
    - [Env]: [IClock], [ITransport] and the callbacks as type classes; [Node]:
      the class [RaftNode], one definition per method, over any instance.
    - [NodeVotes], [NodeElection], [NodeLog], [NodeApply], [NodeRecovery],
      [NodeAppend], [NodeCallbacks]: what the methods do to a node; [EnvFrame]:
      what no method of a node does to the world around it;
      [Election], [LogTree]: the abstract voting and the abstract tree of log
      entries.
    - [Cluster], [Replication]: a cluster of nodes as a step relation, with
      messages lost, duplicated, delayed and reordered, timers firing at any
      time, crashes and restarts; the invariants of elections and of logs.  An
      execution ends where an operation would apply a membership change, end
      the process with an exception, or where a term has reached its maximum:
      the theorems are about executions without these.
    - [Findings]: executions that show defects, evaluated.

    Simulation ([src/sim], [src/harness], [src/checker]).
    - [Prng] (doubles are binary64 of SpecFloat), [EventQueue], [Simulator],
      [Network]: the deterministic substrate.
    - [History], [Checker]: the recorded operations and the Wing-Gong checker.
    - [Workload], [WorkloadInv]: the closed-loop clients and their invariant.
    - [SimEnv]: the simulator and the network as the environment of a node;
      [NetFrame], [SimFrame], [HarnessFrame]: what each component leaves alone;
      [SimRun]: an invariant of the closures is one of [run_for].
    - [FaultInjector], [FaultFacts]: the faults and what they do.
    - [Runner], [RunnerInv]: [run_once], the composition of all of these, and
      the invariant of the world it runs.
    - [Text], [Format]: text as the C and C++ libraries read, parse and print it;
      [Cli], [CliFacts]: the command line tool and its verdict.

    Server ([src/server]).
    - [DispatchQueue], [RealClock]: the threads as sequences of critical
      sections, in any interleaving.
    - [TcpTransport], [TcpFacts]: the transport over a class that stands for
      the socket calls, which move pieces of any size and may fail at any
      time, for good or not.
    - [Server], [ServerFacts], [ServerPromises]: arguments, the client
      protocol, the closures of the requests and the promises they set.  The
      stream of a connection is opened for reading and writing on a socket;
      [Text] has what the GNU C library does there, for want of a standard.
    - [ServerProcess], [ServerRun]: the process that [main] builds, its node
      over the real clock and transport and its threads (main, timers, peers,
      listener, connections) as steps in any interleaving; what its clients
      see, and how it ends.
    - [HarnessFindings]: defects of the harness and the tools, evaluated.

    Programs on the simulator ([demo], [bench]).
    - [HostEnv], [HostFrame]: nodes on a simulated network whose callbacks
      reach the local variables of the program that built them, and what a run
      of the simulator leaves alone there.
    - [Demo], [DemoFacts]: the demonstration, with every line it prints.
    - [Bench], [BenchFacts]: the recovery and the throughput benchmark.
    - [Published]: the runs printed in the README.

    ** What the theorems show

    - Raft: one leader per term, terms and votes that survive crashes, equal
      logs up to a common entry, leaders that only append
      ([Cluster], [Replication]); what a restart recovers, what
      [apply_committed_entries], the commit rule, [handle_append_entries] and
      [drain_pending_reads] do ([NodeApply], [NodeRecovery], [NodeAppend]).
    - Storage: the stores refine a durable prefix with a volatile tail, the
      write-ahead log replays exactly the flushed commands and ignores a torn
      tail, every encoding reads back, no decoder reads outside its input, and
      every message decoded is in the domain of the encoders.
    - Simulation: the events due, and no cancelled one, fire in order and make
      up the trace hash, the network neither forges nor
      corrupts, draws are unbiased; the clients are sequential, a run ends at
      its deadline at the latest, injected faults do what they say; the checker
      accepts exactly the linearizable histories, up to its cap on crashed
      puts, and the tool's exit code is its verdict.
    - Server: messages survive TCP, up to a frame that a failure has cut off,
      closures are called in the order posted, timers fire on time and at most
      once, requests on the client port are served and answered in order if the
      client waits for each answer, and lost if it does not; for the process as a
      whole, however its threads interleave, no promise is set twice and every
      finished connection reads as a run of the sequential protocol; after a
      signal the process ends when [accept] returns and not before.
    - Tools: a recovery time of the benchmark is made of its own waits; the
      percentiles are percentiles.
    - Evaluations, which check the model against the program: the command line
      tool prints what the README says it prints ([Published]), the
      demonstration ends as it announces except that no snapshot is ever sent
      ([DemoFacts]).

    State Machine Safety is not among them: it does not hold.  [Findings] has an
    execution without injected bugs in which two replicas apply different
    commands at one index.  Log matching does not hold once snapshots are
    installed over a conflicting log; [Findings] has that execution too.

    ** Bounds

    A loop without a structural measure takes fuel, and running out of it is
    the exception [out_of_fuel], which is no event of the program.  Where the
    code terminates this is proved: [write_all] and [read_all] need as many
    rounds as bytes, [recv_loop] one more than frames, the checker's search
    the number of operations, the main loop of a run 1200 rounds.  The
    rejection loop of [Prng::range] has no bound, so the theorems about draws
    allow the fuel to run out.  Machine integers keep their width; hypotheses
    such as [time < 2^62] exclude wrap-around only where a run cannot reach it.

    The definitions are executable.  [Published] evaluates the two runs of the
    README (seed 42, 300 operations, fault rate 0.15; seed 13 with the commit
    bug, fault rate 0.2) down to the printed trace hashes, which are equal:
    the model draws the same random numbers and fires the same events in the
    same order as the program.  There [events] is the number of events of one
    round of 100 simulated milliseconds; 2000 are enough for these runs and for
    the demo, whose longest wait is 800 ms.  [Recovery.main] evaluates to
    the recovery table of the README: means of 722 and 692.5 ms, minima of 640
    and 660, maxima of 920 and 760.

    ** Not modelled

    - The Porcupine glue, a Go program around another checker.
    - Pauses between the lines of the demo, [setsockopt], a store that cannot
      be opened when the server starts or whose file fails while it runs (its
      stores are modelled in memory there), and [fdopen] or a [write] failing in
      a connection.  A socket call of the transport is taken to return.
      The wall clock and the contents of the data directory are parameters.
    - The overflow of a timer's delay in nanoseconds ([RealClock]), and the
      iterators of [slice] outside a log that is not well-formed ([RaftLog]).
    - Memory exhaustion, and the data races of C++ that mutexes exclude.
    - Log matching is stated for clusters that take no snapshots, and election
      safety for a fixed membership; the operations for both are modelled. *)

From stdpp Require Export base tactics list strings gmap sorting.
From Stdlib Require Export ZArith Lia.

#[export] Set Default Goal Selector "!".
Open Scope Z_scope.

(** ** Machine integers

    A [uintN_t] is a [Z] in [0, 2^N); the wrap-around of unsigned arithmetic
    is written out with these functions where the source can reach it. *)
Definition wrap8 (z : Z) : Z := Z.land z 0xFF.
Definition wrap32 (z : Z) : Z := Z.land z 0xFFFFFFFF.
Definition wrap64 (z : Z) : Z := Z.land z 0xFFFFFFFFFFFFFFFF.
Definition UINT64_MAX : Z := 2 ^ 64 - 1.

Definition is_u8 (z : Z) : Prop := 0 <= z < 2 ^ 8.
Definition is_u32 (z : Z) : Prop := 0 <= z < 2 ^ 32.
Definition is_u64 (z : Z) : Prop := 0 <= z < 2 ^ 64.

(** [std::vector<uint8_t>]: a list of bytes, each a [Z] in [0, 256). *)
Abbreviation bytes := (list Z).

(** ** Exceptions

    [assert_failed] is an [assert] that does not hold: it ends the process,
    no [catch] sees it.  [undefined_behaviour] marks an access outside an
    object, which C++ gives no meaning.  [out_of_fuel] is not an event of the program: it
    marks a bounded run of an unbounded loop that was cut short. *)
Inductive exn :=
| runtime_error (what : string)
| out_of_range (what : string)
| logic_error (what : string)
| assert_failed (what : string)
| undefined_behaviour
| out_of_fuel.

#[export] Instance exn_eq_dec : EqDecision exn.
Proof. solve_decision. Defined.

Definition catchable (e : exn) : bool :=
  match e with
  | runtime_error _ | out_of_range _ | logic_error _ => true
  | assert_failed _ | undefined_behaviour | out_of_fuel => false
  end.

Inductive result (A : Type) :=
| Ok (a : A)
| Throw (e : exn).
Arguments Ok {A} a.
Arguments Throw {A} e.

(** ** The state and exception monad

    A throwing computation keeps the state it reached: C++ does not undo
    the writes made before a [throw]. *)
Definition M (S A : Type) : Type := S → result A * S.

#[export] Instance M_ret S : MRet (M S) := λ A a s, (Ok a, s).
#[export] Instance M_bind S : MBind (M S) := λ A B f m s,
  match m s with
  | (Ok a, s') => f a s'
  | (Throw e, s') => (Throw e, s')
  end.

Definition get {S} : M S S := λ s, (Ok s, s).
Definition gets {S A} (f : S → A) : M S A := λ s, (Ok (f s), s).
Definition modify {S} (f : S → S) : M S unit := λ s, (Ok tt, f s).
Definition throw {S A} (e : exn) : M S A := λ s, (Throw e, s).
Definition when {S} (b : bool) (m : M S unit) : M S unit :=
  if b then m else mret tt.
Definition try_catch {S A} (m : M S A) (h : exn → M S A) : M S A := λ s,
  match m s with
  | (Ok a, s') => (Ok a, s')
  | (Throw e, s') => if catchable e then h e s' else (Throw e, s')
  end.

(** [for (x : l) body(x)] *)
Fixpoint for_each {S A} (l : list A) (body : A → M S unit) : M S unit :=
  match l with
  | [] => mret tt
  | x :: l' => body x;; for_each l' body
  end.

(** ** Record update: [x <| field := v |>] *)
Class Setter {R T} (proj : R → T) := set_field : (T → T) → R → R.
Arguments set_field {R T} proj {_} f x.

Declare Scope update_scope.
Delimit Scope update_scope with update.
Notation "x <| proj := v |>" := (set_field proj (λ _, v) x)
  (at level 1, left associativity) : update_scope.
Open Scope update_scope.

(** ** Bit and byte arithmetic *)

Lemma land_shiftl_disjoint (a b k : Z) :
  0 <= k → 0 <= a < 2 ^ k → Z.land a (Z.shiftl b k) = 0.
Proof.
  intros Hk Ha. apply Z.bits_inj'; intros n Hn. rewrite Z.land_spec, Z.bits_0.
  destruct (decide (n < k)).
  - rewrite (Z.shiftl_spec_low b k n) by lia. apply andb_false_r.
  - rewrite <-(Z.mod_small a (2 ^ k)) by done.
    by rewrite Z.mod_pow2_bits_high by lia.
Qed.

Lemma lor_shiftl_add (a b k : Z) :
  0 <= k → 0 <= a < 2 ^ k → Z.lor a (Z.shiftl b k) = a + b * 2 ^ k.
Proof.
  intros Hk Ha. pose proof (land_shiftl_disjoint a b k Hk Ha) as H.
  rewrite <-Z.lxor_lor, <-Z.add_nocarry_lxor by done.
  by rewrite Z.shiftl_mul_pow2.
Qed.

Lemma range_iff_land n z : 0 <= n → 0 <= z < 2 ^ n ↔ Z.land z (Z.ones n) = z.
Proof.
  intros Hn. rewrite Z.land_ones by done. split; [apply Z.mod_small|].
  intros <-. apply Z.mod_pos_bound, Z.pow_pos_nonneg; lia.
Qed.

Lemma land_lxor_distr a b c : Z.land (Z.lxor a b) c = Z.lxor (Z.land a c) (Z.land b c).
Proof.
  apply Z.bits_inj'; intros i _. rewrite !Z.lxor_spec, !Z.land_spec, Z.lxor_spec.
  by destruct (Z.testbit a i), (Z.testbit b i), (Z.testbit c i).
Qed.

Lemma lxor_range n a b :
  0 <= n → 0 <= a < 2 ^ n → 0 <= b < 2 ^ n → 0 <= Z.lxor a b < 2 ^ n.
Proof.
  intros Hn. rewrite !range_iff_land by done. intros Ha Hb.
  by rewrite land_lxor_distr, Ha, Hb.
Qed.

Lemma lor_range n a b :
  0 <= n → 0 <= a < 2 ^ n → 0 <= b < 2 ^ n → 0 <= Z.lor a b < 2 ^ n.
Proof.
  intros Hn. rewrite !range_iff_land by done. intros Ha Hb.
  by rewrite Z.land_lor_distr_l, Ha, Hb.
Qed.

Lemma land_range n a b : 0 <= n → 0 <= b < 2 ^ n → 0 <= Z.land a b < 2 ^ n.
Proof.
  intros Hn. rewrite !range_iff_land by done. intros Hb.
  by rewrite <-Z.land_assoc, Hb.
Qed.

Lemma shiftr_range n k a : 0 <= n → 0 <= k → 0 <= a < 2 ^ n → 0 <= Z.shiftr a k < 2 ^ n.
Proof.
  intros Hn Hk Ha. rewrite Z.shiftr_div_pow2 by done.
  assert (0 < 2 ^ k) by (apply Z.pow_pos_nonneg; lia).
  split; [apply Z.div_pos; lia|]. apply Z.div_lt_upper_bound; nia.
Qed.

(** Keeping the low bits is reduction modulo the power of two. *)
Lemma wrap8_mod z : wrap8 z = z mod 2 ^ 8.
Proof. apply (Z.land_ones z 8). lia. Qed.

Lemma wrap32_mod z : wrap32 z = z mod 2 ^ 32.
Proof. apply (Z.land_ones z 32). lia. Qed.

Lemma wrap64_mod z : wrap64 z = z mod 2 ^ 64.
Proof. apply (Z.land_ones z 64). lia. Qed.

Lemma wrap8_range z : is_u8 (wrap8 z).
Proof. rewrite wrap8_mod. apply Z.mod_pos_bound. lia. Qed.

Lemma wrap32_range z : is_u32 (wrap32 z).
Proof. rewrite wrap32_mod. apply Z.mod_pos_bound. lia. Qed.

Lemma wrap64_range z : is_u64 (wrap64 z).
Proof. rewrite wrap64_mod. apply Z.mod_pos_bound. lia. Qed.

Lemma wrap32_id z : is_u32 z → wrap32 z = z.
Proof. rewrite wrap32_mod. apply Z.mod_small. Qed.

Lemma wrap64_id z : is_u64 z → wrap64 z = z.
Proof. rewrite wrap64_mod. apply Z.mod_small. Qed.

Create HintDb words.
#[export] Hint Resolve wrap8_range wrap32_range wrap64_range : words.
Create Rewrite HintDb words_rw.
#[export] Hint Rewrite wrap32_id wrap64_id using (unfold is_u32, is_u64 in *; lia) : words_rw.

(** ** Lists *)
Lemma fold_left_cons {A B} (f : A → B → A) b l a :
  fold_left f (b :: l) a = fold_left f l (f a b).
Proof. done. Qed.

(** ** Reasoning about computations

    [keeps R m]: whatever its outcome, [m] relates its start and end states
    by [R].  [returns m]: [m] throws nothing. *)
Definition keeps {S A} (R : S → S → Prop) (m : M S A) : Prop := ∀ s, R s (m s).2.
Definition returns {S A} (m : M S A) : Prop := ∀ s, ∃ a, (m s).1 = Ok a.

Lemma bind_ok {S A B} (m : M S A) (f : A → M S B) s s' a :
  m s = (Ok a, s') → (m ≫= f) s = f a s'.
Proof. unfold mbind, M_bind. by intros ->. Qed.

Lemma bind_throw {S A B} (m : M S A) (f : A → M S B) s s' e :
  m s = (Throw e, s') → (m ≫= f) s = (Throw e, s').
Proof. unfold mbind, M_bind. by intros ->. Qed.

Lemma bind_assoc_at {S A B C} (m : M S A) (f : A → M S B) (g : B → M S C) s :
  ((m ≫= f) ≫= g) s = (m ≫= λ a, f a ≫= g) s.
Proof. unfold mbind, M_bind. by destruct (m s) as [[a|e] s1]. Qed.

(** A sequence that returned returned at its first step. *)
Lemma bind_Ok_inv {S A B} (m : M S A) (f : A → M S B) s b s' :
  (m ≫= f) s = (Ok b, s') → ∃ a s1, m s = (Ok a, s1) ∧ f a s1 = (Ok b, s').
Proof.
  unfold mbind, M_bind. destruct (m s) as [[a|e] s1]; [|done]. intros H. by exists a, s1.
Qed.

Section Keeps.
Context {S : Type} (R : S → S → Prop) `{!PreOrder R}.

Lemma keeps_ret {A} (a : A) : keeps R (mret a).
Proof. intros s. reflexivity. Qed.

Lemma keeps_gets {A} (f : S → A) : keeps R (gets f).
Proof. intros s. reflexivity. Qed.

Lemma keeps_throw {A} e : keeps R (throw e : M S A).
Proof. intros s. reflexivity. Qed.

Lemma keeps_bind {A B} (m : M S A) (f : A → M S B) :
  keeps R m → (∀ a, keeps R (f a)) → keeps R (m ≫= f).
Proof.
  intros Hm Hf s. unfold mbind, M_bind. specialize (Hm s).
  destruct (m s) as [[a|e] s']; simpl in *; [|done]. etrans; [done|apply Hf].
Qed.

(** A continuation that may use what its first part returned. *)
Lemma keeps_bind_at {A B} (m : M S A) (f : A → M S B) s :
  R s (m s).2 → (∀ a, m s = (Ok a, (m s).2) → R (m s).2 (f a (m s).2).2) → R s ((m ≫= f) s).2.
Proof.
  intros Hm Hf. unfold mbind, M_bind. destruct (m s) as [[a|e] s1]; [|done]. etrans; [done|]. by apply Hf.
Qed.

Lemma keeps_when b (m : M S unit) : keeps R m → keeps R (when b m).
Proof. intros Hm. destruct b; [done|apply keeps_ret]. Qed.

Lemma keeps_for_each {A} (l : list A) (body : A → M S unit) :
  (∀ a, keeps R (body a)) → keeps R (for_each l body).
Proof.
  intros Hb. induction l as [|a l IH]; simpl; [apply keeps_ret|]. by apply keeps_bind.
Qed.

Lemma keeps_try {A} (m : M S A) (h : exn → M S A) :
  keeps R m → (∀ e, keeps R (h e)) → keeps R (try_catch m h).
Proof.
  intros Hm Hh s. unfold try_catch. specialize (Hm s).
  destruct (m s) as [[a|e] s']; simpl in *; [done|].
  destruct (catchable e); [|done]. etrans; [done|apply Hh].
Qed.

End Keeps.

Section Returns.
Context {S : Type}.

Lemma returns_ret {A} (a : A) : returns (mret a : M S A).
Proof. intros s. by eexists. Qed.

Lemma returns_gets {A} (f : S → A) : returns (gets f).
Proof. intros s. by eexists. Qed.

Lemma returns_modify (f : S → S) : returns (modify f).
Proof. intros s. by eexists. Qed.

Lemma returns_bind {A B} (m : M S A) (f : A → M S B) :
  returns m → (∀ a, returns (f a)) → returns (m ≫= f).
Proof.
  intros Hm Hf s. unfold mbind, M_bind. destruct (Hm s) as [a Ha].
  destruct (m s) as [r s']; simpl in *. subst r. apply Hf.
Qed.

Lemma returns_when b (m : M S unit) : returns m → returns (when b m).
Proof. intros Hm. destruct b; [done|apply returns_ret]. Qed.

Lemma returns_for_each {A} (l : list A) (body : A → M S unit) :
  (∀ a, returns (body a)) → returns (for_each l body).
Proof.
  intros Hb. induction l as [|a l IH]; simpl; [apply returns_ret|]. by apply returns_bind.
Qed.

Lemma returns_inv {A} (m : M S A) s : returns m → ∃ a, m s = (Ok a, (m s).2).
Proof. intros Hm. destruct (Hm s) as [a Ha]. exists a. by destruct (m s); simpl in *; subst. Qed.

End Returns.

Create HintDb returns.
#[export] Hint Resolve returns_ret returns_gets returns_modify returns_when returns_for_each : returns.
#[export] Hint Extern 2 (returns (_ ≫= _)) => apply returns_bind; [|intros] : returns.
#[export] Hint Extern 2 (returns (if _ then _ else _)) => case_match : returns.
