(* ===== verification/Codec.v ===== *)
(** * The byte codec: [Encoder] and [Decoder] of [src/storage/codec.hpp]

    An [Encoder] is the byte buffer it has built; each of its methods is the
    list of bytes it pushes, so a sequence of calls is a concatenation.  A
    [Decoder] is the range [ptr_, end_): its methods are computations of the
    monad [M bytes] whose state is the remaining bytes. *)

From S2P Require Import Prelude.

(** ** Strings as byte sequences: [std::string] holds bytes. *)
Definition byte_of_ascii (a : Ascii.ascii) : Z := Z.of_N (Ascii.N_of_ascii a).
Definition ascii_of_byte (b : Z) : Ascii.ascii := Ascii.ascii_of_N (Z.to_N b).

Fixpoint bytes_of_string (s : string) : bytes :=
  match s with
  | EmptyString => []
  | String a s' => byte_of_ascii a :: bytes_of_string s'
  end.

Fixpoint string_of_bytes (l : bytes) : string :=
  match l with
  | [] => EmptyString
  | b :: l' => String (ascii_of_byte b) (string_of_bytes l')
  end.

(** [s.size()] and [buf.size()] *)
Definition str_size (s : string) : Z := Z.of_nat (String.length s).
Definition size_z {A} (l : list A) : Z := Z.of_nat (length l).

Module Enc.

Definition u8 (v : Z) : bytes := [wrap8 v].

Definition u32 (v : Z) : bytes :=
  [ wrap8 v; wrap8 (Z.shiftr v 8); wrap8 (Z.shiftr v 16); wrap8 (Z.shiftr v 24) ].

(** The loop of [u64]: [n] rounds of [push_back(v & 0xFF); v >>= 8]. *)
Fixpoint push_le (n : nat) (v : Z) : bytes :=
  match n with
  | O => []
  | S n' => Z.land v 0xFF :: push_le n' (Z.shiftr v 8)
  end.

Definition u64 (v : Z) : bytes := push_le 8 v.

Definition boolean (v : bool) : bytes := u8 (if v then 1 else 0).

Definition str (s : string) : bytes := u32 (wrap32 (str_size s)) ++ bytes_of_string s.

(** [for (uint8_t b : l) enc.u8(b)] *)
Definition raw (l : bytes) : bytes := concat (map u8 l).

End Enc.

Module Dec.

Definition underrun : exn := runtime_error "Decoder: buffer underrun".

Definition check (n : Z) : M bytes unit := λ s,
  if size_z s <? n then (Throw underrun, s) else (Ok tt, s).

(** [ptr_[i]]: a read at or past [end_] is undefined behaviour. *)
Definition peek (i : nat) : M bytes Z := λ s,
  match s !! i with
  | Some b => (Ok b, s)
  | None => (Throw undefined_behaviour, s)
  end.

(** The range [ptr_, ptr_ + n), then [ptr_ += n]. *)
Definition take_range (n : nat) : M bytes bytes := λ s,
  if (n <=? length s)%nat then (Ok (take n s), drop n s)
  else (Throw undefined_behaviour, s).

(** [ptr_ += n] *)
Definition advance (n : nat) : M bytes unit := take_range n;; mret tt.

Definition u8 : M bytes Z :=
  check 1;; v ← peek 0; advance 1;; mret v.

Definition u32 : M bytes Z :=
  check 4;;
  p0 ← peek 0; p1 ← peek 1; p2 ← peek 2; p3 ← peek 3;
  advance 4;;
  mret (Z.lor (Z.lor (Z.lor p0 (Z.shiftl p1 8)) (Z.shiftl p2 16)) (Z.shiftl p3 24)).

(** The loop of [u64]: [v |= ptr_[i] << (8 * i)] for the next bytes. *)
Fixpoint or_le (i : Z) (v : Z) (l : bytes) : Z :=
  match l with
  | [] => v
  | b :: l' => or_le (i + 1) (Z.lor v (Z.shiftl b (8 * i))) l'
  end.

Definition u64 : M bytes Z :=
  check 8;;
  l ← take_range 8;
  mret (or_le 0 0 l).

Definition boolean : M bytes bool :=
  b ← u8; mret (negb (b =? 0)).

Definition str : M bytes string :=
  len ← u32;
  check len;;
  l ← take_range (Z.to_nat len);
  mret (string_of_bytes l).

Definition empty : M bytes bool := gets (λ s, size_z s <=? 0).

Definition remaining : M bytes Z := gets size_z.

(** [slice(n)]: the bytes of the sub-decoder. *)
Definition slice (n : Z) : M bytes bytes :=
  check n;;
  take_range (Z.to_nat n).

(** [while (!sub.empty()) buf.push_back(sub.u8())] over a sub-decoder: one
    round per byte, so the length of the slice bounds the rounds. *)
Fixpoint drain (n : nat) (sub : bytes) : bytes :=
  match n with
  | O => []
  | S n' =>
      match sub with
      | [] => []
      | _ =>
          match u8 sub with
          | (Ok b, sub') => b :: drain n' sub'
          | (Throw _, _) => []
          end
      end
  end.

(** [for (uint32_t i = 0; i < n; ++i) v.push_back(f())] *)
Fixpoint repeat_read {A} (n : nat) (f : M bytes A) : M bytes (list A) :=
  match n with
  | O => mret []
  | S n' => x ← f; l ← repeat_read n' f; mret (x :: l)
  end.

End Dec.

(** ** Reading back what was written

    [reads d b a]: the decoder [d] consumes exactly the bytes [b], whatever
    follows them, and returns [a]. *)
Definition reads {A} (d : M bytes A) (b : bytes) (a : A) : Prop :=
  ∀ rest, d (b ++ rest) = (Ok a, rest).

Definition bytes_ok (l : bytes) : Prop := Forall is_u8 l.

Lemma reads_ret {A} (a : A) : reads (mret a) [] a.
Proof. done. Qed.

Lemma reads_bind {A B} (d : M bytes A) (f : A → M bytes B) b1 b2 a c :
  reads d b1 a → reads (f a) b2 c → reads (d ≫= f) (b1 ++ b2) c.
Proof.
  intros H1 H2 rest. rewrite <-app_assoc.
  by rewrite (bind_ok _ _ _ _ _ (H1 _)).
Qed.

Lemma reads_bind_last {A B} (d : M bytes A) (f : A → M bytes B) b a c :
  reads d b a → reads (f a) [] c → reads (d ≫= f) b c.
Proof. intros H1 H2. rewrite <-(app_nil_r b). by eapply reads_bind. Qed.

Lemma check_ok n s : n <= size_z s → Dec.check n s = (Ok tt, s).
Proof.
  intros H. unfold Dec.check. by destruct (Z.ltb_spec (size_z s) n); [lia|].
Qed.

Lemma check_throws n s : size_z s < n → Dec.check n s = (Throw Dec.underrun, s).
Proof.
  intros H. unfold Dec.check. by destruct (Z.ltb_spec (size_z s) n); [|lia].
Qed.

Lemma size_z_app {A} (l1 l2 : list A) : size_z (l1 ++ l2) = size_z l1 + size_z l2.
Proof. unfold size_z. rewrite length_app. lia. Qed.

Lemma size_z_nonneg {A} (l : list A) : 0 <= size_z l.
Proof. unfold size_z. lia. Qed.

Lemma reads_take_range l : reads (Dec.take_range (length l)) l l.
Proof.
  intros rest. unfold Dec.take_range. rewrite length_app.
  destruct (Nat.leb_spec (length l) (length l + length rest)); [|lia].
  by rewrite take_app_length, drop_app_length.
Qed.

(** A read that needs [n] bytes and finds them. *)
Ltac dec_step :=
  repeat match goal with
  | |- context [Dec.check ?n ≫= _] =>
      rewrite (bind_ok (Dec.check n) _ _ _ tt)
        by (apply check_ok; rewrite ?size_z_app; unfold size_z; simpl; lia)
  end.

Lemma reads_u8 v : is_u8 v → reads Dec.u8 (Enc.u8 v) v.
Proof.
  intros Hv rest. unfold Dec.u8, Enc.u8. dec_step.
  unfold Dec.advance, Dec.take_range, Dec.peek, mbind, M_bind, mret, M_ret; simpl.
  rewrite wrap8_mod. by rewrite (Z.mod_small v) by done.
Qed.

Lemma le4 v : is_u32 v →
  v = v mod 256 + (v / 256) mod 256 * 2 ^ 8 + (v / 65536) mod 256 * 2 ^ 16
      + (v / 16777216) mod 256 * 2 ^ 24.
Proof. unfold is_u32. intros. Z.to_euclidean_division_equations. lia. Qed.

Lemma reads_u32 v : is_u32 v → reads Dec.u32 (Enc.u32 v) v.
Proof.
  intros Hv rest. unfold Dec.u32, Enc.u32. dec_step.
  unfold Dec.advance, Dec.take_range, Dec.peek, mbind, M_bind, mret, M_ret; simpl.
  rewrite !wrap8_mod, !Z.shiftr_div_pow2 by lia.
  change (2 ^ 8) with 256. change (2 ^ 16) with 65536. change (2 ^ 24) with 16777216.
  pose proof (Z.mod_pos_bound v 256). pose proof (Z.mod_pos_bound (v / 256) 256).
  pose proof (Z.mod_pos_bound (v / 65536) 256).
  rewrite (lor_shiftl_add _ _ 8), (lor_shiftl_add _ _ 16), (lor_shiftl_add _ _ 24) by lia.
  do 2 f_equal. symmetry. by apply le4.
Qed.

Lemma length_push_le n v : length (Enc.push_le n v) = n.
Proof. revert v. induction n; intros; simpl; auto. Qed.

Lemma or_le_push_le n : ∀ i acc v,
  0 <= i → 0 <= acc < 2 ^ (8 * i) → 0 <= v →
  Dec.or_le i acc (Enc.push_le n v) = acc + v mod 2 ^ (8 * Z.of_nat n) * 2 ^ (8 * i).
Proof.
  induction n as [|n IH]; intros i acc v Hi Hacc Hv; cbn [Enc.push_le Dec.or_le].
  - change (2 ^ (8 * Z.of_nat 0)) with 1. rewrite Z.mod_1_r. lia.
  - change 255 with (Z.ones 8). rewrite Z.land_ones, Z.shiftr_div_pow2 by lia.
    pose proof (Z.mod_pos_bound v (2 ^ 8)) as Hb.
    rewrite lor_shiftl_add by lia.
    assert (Hpow : 2 ^ (8 * (i + 1)) = 2 ^ 8 * 2 ^ (8 * i))
      by (rewrite <-Z.pow_add_r by lia; f_equal; lia).
    assert (0 < 2 ^ (8 * i)) by (apply Z.pow_pos_nonneg; lia).
    rewrite IH; [|lia|rewrite Hpow; nia|apply Z.div_pos; lia].
    rewrite Hpow. replace (8 * Z.of_nat (S n)) with (8 + 8 * Z.of_nat n) by lia.
    rewrite Z.pow_add_r, Z.rem_mul_r by lia. nia.
Qed.

Lemma reads_u64 v : is_u64 v → reads Dec.u64 (Enc.u64 v) v.
Proof.
  intros Hv rest. unfold Dec.u64, Enc.u64.
  assert (Hlen := length_push_le 8 v). 
  rewrite (bind_ok (Dec.check 8) _ _ _ tt)
    by (apply check_ok; rewrite size_z_app; unfold size_z; rewrite Hlen; lia).
  pose proof (reads_take_range (Enc.push_le 8 v) rest) as Hr. rewrite Hlen in Hr.
  rewrite (bind_ok _ _ _ _ _ Hr).
  rewrite or_le_push_le by (unfold is_u64 in Hv; lia).
  rewrite Z.mod_small by done. unfold mret, M_ret. do 2 f_equal. lia.
Qed.

Lemma reads_boolean v : reads Dec.boolean (Enc.boolean v) v.
Proof.
  eapply reads_bind_last.
  - apply reads_u8. unfold is_u8. destruct v; lia.
  - by destruct v.
Qed.

Lemma string_of_bytes_of_string s : string_of_bytes (bytes_of_string s) = s.
Proof.
  induction s as [|a s IH]; simpl; [done|].
  unfold ascii_of_byte, byte_of_ascii.
  by rewrite N2Z.id, Ascii.ascii_N_embedding, IH.
Qed.

Lemma length_bytes_of_string s : length (bytes_of_string s) = String.length s.
Proof. induction s; simpl; auto. Qed.

Lemma bytes_of_string_ok s : bytes_ok (bytes_of_string s).
Proof.
  induction s as [|a s IH]; constructor; [|done].
  pose proof (Ascii.N_ascii_bounded a). unfold byte_of_ascii, is_u8. lia.
Qed.

(** A string that fits its 32-bit length prefix. *)
Definition str_fits (s : string) : Prop := is_u32 (str_size s).

Lemma reads_str s : str_fits s → reads Dec.str (Enc.str s) s.
Proof.
  intros Hs. unfold Dec.str, Enc.str. rewrite wrap32_id by done.
  eapply reads_bind; [by apply reads_u32|]. intros rest.
  rewrite (bind_ok (Dec.check _) _ _ _ tt)
    by (apply check_ok; rewrite size_z_app; unfold size_z, str_size;
        rewrite length_bytes_of_string; lia).
  unfold str_size. rewrite Nat2Z.id, <-length_bytes_of_string.
  rewrite (bind_ok _ _ _ _ _ (reads_take_range _ rest)).
  by rewrite string_of_bytes_of_string.
Qed.

Lemma enc_raw_id l : bytes_ok l → Enc.raw l = l.
Proof.
  induction 1 as [|b l Hb _ IH]; [done|]. unfold Enc.raw in *; simpl.
  rewrite IH. rewrite wrap8_mod. by rewrite Z.mod_small.
Qed.

Lemma reads_slice l : reads (Dec.slice (size_z l)) l l.
Proof.
  intros rest. unfold Dec.slice.
  rewrite (bind_ok (Dec.check _) _ _ _ tt)
    by (apply check_ok; rewrite size_z_app; pose proof (size_z_nonneg rest); lia).
  unfold size_z. rewrite Nat2Z.id. apply reads_take_range.
Qed.

Lemma drain_all l : Dec.drain (length l) l = l.
Proof.
  induction l as [|b l IH]; [done|]. cbn [length Dec.drain].
  assert (Dec.u8 (b :: l) = (Ok b, l)) as ->; [|by rewrite IH].
  unfold Dec.u8. by rewrite (bind_ok (Dec.check 1) _ _ _ tt)
    by (apply check_ok; unfold size_z; simpl; lia).
Qed.

Lemma reads_repeat {A} (d : M bytes A) (enc : A → bytes) (l : list A) :
  Forall (λ a, reads d (enc a) a) l →
  reads (Dec.repeat_read (length l) d) (concat (map enc l)) l.
Proof.
  induction 1 as [|a l Ha _ IH]; [apply reads_ret|]. simpl.
  eapply reads_bind; [done|].
  eapply reads_bind_last; [done|]. apply reads_ret.
Qed.

Lemma reads_raw l : bytes_ok l → reads (Dec.repeat_read (length l) Dec.u8) (Enc.raw l) l.
Proof.
  intros H. apply reads_repeat. eapply Forall_impl; [done|]. apply reads_u8.
Qed.

(** ** Every encoder emits bytes *)
(** Integers are written modulo the width of their field. *)
Lemma push_le_mod n : ∀ v, Enc.push_le n (v mod 2 ^ (8 * Z.of_nat n)) = Enc.push_le n v.
Proof.
  induction n as [|n IH]; intros v; [done|]. cbn [Enc.push_le]. f_equal.
  - apply Z.bits_inj'; intros i Hi. rewrite !Z.land_spec. change 255 with (Z.ones 8).
    destruct (decide (i < 8)).
    + by rewrite Z.mod_pow2_bits_low by lia.
    + rewrite (Z.ones_spec_high 8 i) by lia. by rewrite !andb_false_r.
  - rewrite <-(IH (Z.shiftr v 8)), <-(IH (Z.shiftr _ 8)). f_equal.
    apply Z.bits_inj'; intros i Hi. destruct (decide (i < 8 * Z.of_nat n)).
    + rewrite !(Z.mod_pow2_bits_low _ (8 * Z.of_nat n)), !Z.shiftr_spec by lia.
      by rewrite Z.mod_pow2_bits_low by lia.
    + by rewrite !Z.mod_pow2_bits_high by lia.
Qed.

Lemma enc_u64_wrap v : Enc.u64 (wrap64 v) = Enc.u64 v.
Proof. rewrite wrap64_mod. apply (push_le_mod 8). Qed.

Lemma wrap8_byte v i : 0 <= i <= 24 → wrap8 (Z.shiftr (wrap32 v) i) = wrap8 (Z.shiftr v i).
Proof.
  intros Hi. rewrite !wrap8_mod, wrap32_mod. apply Z.bits_inj'; intros k Hk. destruct (decide (k < 8)).
  - rewrite !(Z.mod_pow2_bits_low _ 8), !Z.shiftr_spec by lia. by rewrite Z.mod_pow2_bits_low by lia.
  - by rewrite !Z.mod_pow2_bits_high by lia.
Qed.

Lemma enc_u32_wrap v : Enc.u32 (wrap32 v) = Enc.u32 v.
Proof.
  unfold Enc.u32. pose proof (wrap8_byte v 0 ltac:(lia)) as H0. rewrite !Z.shiftr_0_r in H0.
  by rewrite H0, !wrap8_byte by lia.
Qed.

Lemma enc_u8_ok v : bytes_ok (Enc.u8 v).
Proof. repeat constructor; apply wrap8_range. Qed.

Lemma enc_u32_ok v : bytes_ok (Enc.u32 v).
Proof. repeat constructor; apply wrap8_range. Qed.

Lemma push_le_ok n v : bytes_ok (Enc.push_le n v).
Proof.
  revert v. induction n as [|n IH]; intros v; simpl; constructor; [|apply IH].
  apply wrap8_range.
Qed.

Lemma enc_u64_ok v : bytes_ok (Enc.u64 v).
Proof. apply push_le_ok. Qed.

Lemma enc_boolean_ok v : bytes_ok (Enc.boolean v).
Proof. apply enc_u8_ok. Qed.

Lemma enc_str_ok s : bytes_ok (Enc.str s).
Proof. apply Forall_app. split; [apply enc_u32_ok|apply bytes_of_string_ok]. Qed.

Lemma enc_raw_ok l : bytes_ok (Enc.raw l).
Proof. unfold Enc.raw. induction l; simpl; [constructor|]. by constructor; [apply wrap8_range|]. Qed.

Lemma bytes_ok_app l1 l2 : bytes_ok l1 → bytes_ok l2 → bytes_ok (l1 ++ l2).
Proof. intros. by apply Forall_app. Qed.

Lemma bytes_ok_concat {A} (f : A → bytes) l :
  (∀ a, bytes_ok (f a)) → bytes_ok (concat (map f l)).
Proof. intros Hf. induction l; simpl; [constructor|]. by apply bytes_ok_app. Qed.

Lemma bytes_ok_nil : bytes_ok [].
Proof. constructor. Qed.

Create HintDb codec.
#[export] Hint Resolve reads_ret reads_u8 reads_u32 reads_u64 reads_boolean reads_str
  reads_raw : codec.
#[export] Hint Resolve enc_u8_ok enc_u32_ok enc_u64_ok enc_boolean_ok enc_str_ok
  enc_raw_ok bytes_ok_app bytes_ok_concat bytes_ok_nil : codec.

(** Splits a record codec into its fields: the encoded side is a right-nested
    concatenation, the decoder a sequence of binds. *)
Ltac reads_fields :=
  repeat first
    [ apply reads_ret
    | eapply reads_bind; [solve [eauto with codec] |]
    | eapply reads_bind_last; [solve [eauto with codec] |] ].

(** ** Short input *)
Lemma dec_u8_short : Dec.u8 [] = (Throw Dec.underrun, []).
Proof. done. Qed.

Lemma dec_u64_short s : size_z s < 8 → Dec.u64 s = (Throw Dec.underrun, s).
Proof. intros H. unfold Dec.u64. by rewrite (bind_throw _ _ _ _ _ (check_throws _ _ H)). Qed.

Lemma dec_u32_short s : size_z s < 4 → Dec.u32 s = (Throw Dec.underrun, s).
Proof. intros H. unfold Dec.u32. by rewrite (bind_throw _ _ _ _ _ (check_throws _ _ H)). Qed.

Arguments Enc.u8 : simpl never.
Arguments Enc.u32 : simpl never.
Arguments Enc.u64 : simpl never.
Arguments Enc.boolean : simpl never.
Arguments Enc.str : simpl never.
Arguments Enc.raw : simpl never.
Arguments Dec.u8 : simpl never.
Arguments Dec.u32 : simpl never.
Arguments Dec.u64 : simpl never.
Arguments Dec.boolean : simpl never.
Arguments Dec.str : simpl never.
Arguments Dec.slice : simpl never.

(** ** Memory safety

    [dec_safe d]: on every input, [d] never reads outside the buffer, and what
    it leaves is a suffix of the input. *)
Definition dec_safe {A} (d : M bytes A) : Prop :=
  ∀ s, (d s).1 ≠ Throw undefined_behaviour ∧ (d s).2 `suffix_of` s.

Lemma safe_ret {A} (a : A) : dec_safe (mret a).
Proof. by intros s. Qed.

Lemma safe_throw {A} e : e ≠ undefined_behaviour → dec_safe (throw e : M bytes A).
Proof. intros He s. split; [|done]. simpl. congruence. Qed.

Lemma safe_bind {A B} (d : M bytes A) (f : A → M bytes B) :
  dec_safe d → (∀ a, dec_safe (f a)) → dec_safe (d ≫= f).
Proof.
  intros Hd Hf s. destruct (Hd s) as [H1 H2]. unfold mbind, M_bind.
  destruct (d s) as [[a|e] s']; simpl in *; [|by split; [congruence|]].
  destruct (Hf a s') as [H3 H4]. split; [done|]. by etrans.
Qed.

(** A checked read: behind [check n] at least [n] bytes are left. *)
Lemma safe_check {B} n (f : M bytes B) :
  (∀ s, n <= size_z s → (f s).1 ≠ Throw undefined_behaviour ∧ (f s).2 `suffix_of` s) →
  dec_safe (Dec.check n;; f).
Proof.
  intros Hf s. unfold mbind, M_bind, Dec.check.
  destruct (Z.ltb_spec (size_z s) n); [done|]. by apply Hf.
Qed.

Lemma take_range_ok n s : (n <= length s)%nat → Dec.take_range n s = (Ok (take n s), drop n s).
Proof. intros Hn. unfold Dec.take_range. by destruct (Nat.leb_spec n (length s)); [|lia]. Qed.

Lemma drop_suffix {A} n (s : list A) : drop n s `suffix_of` s.
Proof. exists (take n s). by rewrite take_drop. Qed.

Lemma peek_ok i s : (i < length s)%nat → ∃ b, Dec.peek i s = (Ok b, s).
Proof.
  intros Hi. destruct (lookup_lt_is_Some_2 s i Hi) as [b Hb]. exists b.
  unfold Dec.peek. by rewrite Hb.
Qed.

Lemma advance_ok n s : (n <= length s)%nat → Dec.advance n s = (Ok tt, drop n s).
Proof. intros Hn. unfold Dec.advance. by rewrite (bind_ok _ _ _ _ _ (take_range_ok n s Hn)). Qed.

Ltac safe_peek i :=
  match goal with |- context [(Dec.peek i ≫= _) ?s] =>
    let b := fresh "b" in let Hb := fresh "Hb" in
    destruct (peek_ok i s) as [b Hb]; [unfold size_z in *; lia|];
    rewrite (bind_ok _ _ _ _ _ Hb); clear Hb
  end.

Lemma safe_u8 : dec_safe Dec.u8.
Proof.
  apply safe_check. intros s Hs. safe_peek 0%nat.
  rewrite (bind_ok _ _ _ _ _ (advance_ok 1 s ltac:(unfold size_z in *; lia))).
  split; [done|apply drop_suffix].
Qed.

Lemma safe_u32 : dec_safe Dec.u32.
Proof.
  apply safe_check. intros s Hs. safe_peek 0%nat. safe_peek 1%nat. safe_peek 2%nat. safe_peek 3%nat.
  rewrite (bind_ok _ _ _ _ _ (advance_ok 4 s ltac:(unfold size_z in *; lia))).
  split; [done|apply drop_suffix].
Qed.

Lemma safe_range {B} n (f : bytes → M bytes B) :
  (∀ l, dec_safe (f l)) → dec_safe (Dec.check n;; l ← Dec.take_range (Z.to_nat n); f l).
Proof.
  intros Hf. apply safe_check. intros s Hs.
  rewrite (bind_ok _ _ _ _ _ (take_range_ok (Z.to_nat n) s ltac:(unfold size_z in *; lia))).
  destruct (Hf (take (Z.to_nat n) s) (drop (Z.to_nat n) s)) as [H1 H2].
  split; [done|]. etrans; [done|apply drop_suffix].
Qed.

Lemma safe_u64 : dec_safe Dec.u64.
Proof. apply (safe_range 8). intros l. apply safe_ret. Qed.

Lemma safe_boolean : dec_safe Dec.boolean.
Proof. apply safe_bind; [apply safe_u8|]. intros b. apply safe_ret. Qed.

Lemma safe_str : dec_safe Dec.str.
Proof.
  apply safe_bind; [apply safe_u32|]. intros n. apply safe_range. intros l. apply safe_ret.
Qed.

Lemma safe_slice n : dec_safe (Dec.slice n).
Proof.
  apply safe_check. intros s Hs. rewrite take_range_ok by (unfold size_z in *; lia).
  split; [done|apply drop_suffix].
Qed.

Lemma safe_repeat {A} n (d : M bytes A) : dec_safe d → dec_safe (Dec.repeat_read n d).
Proof.
  intros Hd. induction n as [|n IH]; [apply safe_ret|]. simpl.
  apply safe_bind; [done|]. intros a. apply safe_bind; [done|]. intros l. apply safe_ret.
Qed.

Create HintDb safe.
#[export] Hint Resolve safe_ret safe_u8 safe_u32 safe_u64 safe_boolean safe_str safe_slice
  safe_repeat : safe.
#[export] Hint Extern 2 (dec_safe (_ ≫= _)) => apply safe_bind; [|intros] : safe.
#[export] Hint Extern 2 (dec_safe (throw _)) => apply safe_throw; discriminate : safe.

(** ** Ranges

    [gives d P]: a value decoded from genuine bytes satisfies [P]. *)
Definition gives {A} (d : M bytes A) (P : A → Prop) : Prop :=
  ∀ b a b', bytes_ok b → d b = (Ok a, b') → P a.

Lemma bytes_ok_suffix l l' : l' `suffix_of` l → bytes_ok l → bytes_ok l'.
Proof. intros [k ->]. unfold bytes_ok. by rewrite Forall_app; intros []. Qed.

Lemma gives_bind {A B} (d : M bytes A) (f : A → M bytes B) P Q :
  dec_safe d → gives d P → (∀ a, P a → gives (f a) Q) → gives (d ≫= f) Q.
Proof.
  intros Hs Hd Hf b q b' Hb. unfold mbind, M_bind. specialize (Hs b) as [_ Hs].
  destruct (d b) as [[a|e] b1] eqn:Hdb; [|done]. intros Hq. simpl in Hs.
  eapply (Hf a); [by eapply Hd|by eapply bytes_ok_suffix|done].
Qed.

(** Where the value read does not matter. *)
Lemma gives_skip {A B} (d : M bytes A) (f : A → M bytes B) Q :
  dec_safe d → (∀ a, gives (f a) Q) → gives (d ≫= f) Q.
Proof. intros Hs Hf. apply (gives_bind d f (λ _, True)); [done|by intros ? ? ?|auto]. Qed.

Lemma gives_ret {A} (a : A) (P : A → Prop) : P a → gives (mret a) P.
Proof. intros Ha b a' b' _ [= <- _]. done. Qed.

Lemma or_le_range l i v :
  0 <= i → 0 <= v < 2 ^ (8 * i) → bytes_ok l → 0 <= Dec.or_le i v l < 2 ^ (8 * (i + size_z l)).
Proof.
  revert i v. induction l as [|b l IH]; intros i v Hi Hv Hl.
  - simpl. by rewrite Z.add_0_r.
  - apply Forall_cons in Hl as [Hb Hl].
    replace (i + size_z (b :: l)) with ((i + 1) + size_z l) by (unfold size_z; simpl; lia).
    simpl. apply IH; [lia| |done]. replace (8 * (i + 1)) with (8 * i + 8) by lia.
    rewrite lor_shiftl_add by (done || lia). rewrite Z.pow_add_r by lia. unfold is_u8 in Hb. nia.
Qed.

Lemma gives_u64 : gives Dec.u64 is_u64.
Proof.
  intros b a b' Hb. unfold Dec.u64, mbind, M_bind, Dec.check.
  destruct (Z.ltb_spec (size_z b) 8); [done|]. unfold size_z in *.
  rewrite take_range_ok by lia. intros [= <- _].
  pose proof (or_le_range (take 8 b) 0 0) as K. unfold size_z in K.
  rewrite length_take, Nat.min_l in K by lia. apply K; [lia..|by apply Forall_take].
Qed.

Lemma u32_range p0 p1 p2 p3 :
  is_u8 p0 → is_u8 p1 → is_u8 p2 → is_u8 p3 →
  is_u32 (Z.lor (Z.lor (Z.lor p0 (Z.shiftl p1 8)) (Z.shiftl p2 16)) (Z.shiftl p3 24)).
Proof.
  intros. pose proof (or_le_range [p0; p1; p2; p3] 0 0) as K. simpl in K.
  unfold is_u32. rewrite !Z.shiftl_0_r in K. apply K; [lia..|]. do 4 (apply Forall_cons_2; [done|]); apply Forall_nil_2.
Qed.

Lemma gives_u32 : gives Dec.u32 is_u32.
Proof.
  intros b a b' Hb. unfold Dec.u32, mbind, M_bind, Dec.check.
  destruct (Z.ltb_spec (size_z b) 4); [done|]. unfold size_z in *.
  destruct b as [|p0 [|p1 [|p2 [|p3 b]]]]; try (simpl in *; lia).
  repeat (apply Forall_cons in Hb as [? Hb]). intros [= <- _]. by apply u32_range.
Qed.
