(* ===== verification/DurableStore.v ===== *)
(** * Persistence substrate: [IDurableStore], [DurableStore], [FileDurableStore]

    Models [src/storage/idurable_store.hpp], [durable_store.hpp/.cpp] and
    [file_durable_store.hpp/.cpp].  The C++ interface is the class
    [IDurableStore]; what its clients rely on is [DurableStoreLaws]: an
    abstraction to a durable prefix and a tail that a power loss drops. *)

From S2P Require Import Prelude Codec.

(** ** The interface *)
Class IDurableStore (D : Type) := {
  append : bytes → D → D;
  flush : D → D;
  crash : D → D;
  read_durable : D → bytes;
  read_all : D → bytes;
  truncate_to : nat → D → D;
  durable_size : D → nat;
  total_size : D → nat;
}.

(** ** The contract: a durable prefix and a volatile tail *)
Record disk := Disk { durable : bytes; volatile : bytes }.

Module Spec.

Definition append (b : bytes) (d : disk) : disk := Disk (durable d) (volatile d ++ b).
Definition flush (d : disk) : disk := Disk (durable d ++ volatile d) [].
Definition crash (d : disk) : disk := Disk (durable d) [].
Definition truncate_to (n : nat) (d : disk) : disk :=
  Disk (take n (durable d)) (take (n - length (durable d)) (volatile d)).

End Spec.

(** What a store promises to [RaftLog] and [RaftNode]: on valid states each
    operation is the abstract one, and the views read the abstract parts. *)
Class DurableStoreLaws (D : Type) `{IDurableStore D} := {
  store_inv : D → Prop;
  disk_of : D → disk;
  append_inv b d : store_inv d → store_inv (append b d);
  flush_inv d : store_inv d → store_inv (flush d);
  crash_inv d : store_inv d → store_inv (crash d);
  truncate_inv n d : store_inv d → store_inv (truncate_to n d);
  append_spec b d : store_inv d → disk_of (append b d) = Spec.append b (disk_of d);
  flush_spec d : store_inv d → disk_of (flush d) = Spec.flush (disk_of d);
  crash_spec d : store_inv d → disk_of (crash d) = Spec.crash (disk_of d);
  truncate_spec n d :
    store_inv d → disk_of (truncate_to n d) = Spec.truncate_to n (disk_of d);
  read_durable_spec d : store_inv d → read_durable d = durable (disk_of d);
  read_all_spec d : store_inv d → read_all d = durable (disk_of d) ++ volatile (disk_of d);
  durable_size_spec d : store_inv d → durable_size d = length (durable (disk_of d));
  total_size_spec d :
    store_inv d →
    total_size d = (length (durable (disk_of d)) + length (volatile (disk_of d)))%nat;
}.

(** ** [DurableStore]: the simulated store *)
Record DurableStore := mkDurableStore { data_ : bytes; flushed_end_ : nat }.

Definition empty_store : DurableStore := mkDurableStore [] 0.

Module Mem.

Definition append (b : bytes) (s : DurableStore) : DurableStore :=
  mkDurableStore (data_ s ++ b) (flushed_end_ s).

Definition flush (s : DurableStore) : DurableStore :=
  mkDurableStore (data_ s) (length (data_ s)).

(** [data_.resize(flushed_end_)]: [resize] pads with zeros when it grows. *)
Definition crash (s : DurableStore) : DurableStore :=
  mkDurableStore (resize (flushed_end_ s) 0 (data_ s)) (flushed_end_ s).

Definition read_durable (s : DurableStore) : bytes := take (flushed_end_ s) (data_ s).
Definition read_all (s : DurableStore) : bytes := data_ s.

Definition truncate_to (offset : nat) (s : DurableStore) : DurableStore :=
  let flushed := if (offset <=? flushed_end_ s)%nat then offset else flushed_end_ s in
  let data := if (offset <=? length (data_ s))%nat then resize offset 0 (data_ s)
              else data_ s in
  mkDurableStore data flushed.

Definition durable_size (s : DurableStore) : nat := flushed_end_ s.
Definition total_size (s : DurableStore) : nat := length (data_ s).

End Mem.

#[export] Instance DurableStore_ops : IDurableStore DurableStore := {|
  append := Mem.append;
  flush := Mem.flush;
  crash := Mem.crash;
  read_durable := Mem.read_durable;
  read_all := Mem.read_all;
  truncate_to := Mem.truncate_to;
  durable_size := Mem.durable_size;
  total_size := Mem.total_size;
|}.

Definition mem_inv (s : DurableStore) : Prop := (flushed_end_ s <= length (data_ s))%nat.
Definition mem_disk (s : DurableStore) : disk :=
  Disk (take (flushed_end_ s) (data_ s)) (drop (flushed_end_ s) (data_ s)).

Lemma resize_shrink {A} n (x : A) l : (n <= length l)%nat → resize n x l = take n l.
Proof. intros. by rewrite resize_le. Qed.

Lemma mem_truncate_data n s :
  data_ (Mem.truncate_to n s) = take n (data_ s).
Proof.
  simpl. destruct (Nat.leb_spec n (length (data_ s))).
  - by apply resize_shrink.
  - by rewrite take_ge by lia.
Qed.

Lemma mem_truncate_flushed n s :
  flushed_end_ (Mem.truncate_to n s) = Nat.min n (flushed_end_ s).
Proof. simpl. destruct (Nat.leb_spec n (flushed_end_ s)); lia. Qed.

Lemma mem_truncate_spec n s :
  mem_inv s → mem_disk (Mem.truncate_to n s) = Spec.truncate_to n (mem_disk s).
Proof.
  intros Hinv. unfold mem_disk, Spec.truncate_to, mem_inv in *.
  rewrite mem_truncate_data, mem_truncate_flushed; simpl.
  rewrite length_take, !take_take, take_drop_commute. f_equal.
  - f_equal. lia.
  - destruct (decide (n <= flushed_end_ s)%nat).
    + rewrite !drop_ge; [done| |]; rewrite length_take; lia.
    + do 2 f_equal; lia.
Qed.

(** [DurableStore] keeps the contract of its interface. *)
#[export] Instance DurableStore_laws : DurableStoreLaws DurableStore.
Proof.
  refine {| store_inv := mem_inv; disk_of := mem_disk |}; unfold mem_inv;
    cbn -[Mem.truncate_to].
  - intros b d H. rewrite length_app. lia.
  - done.
  - intros d H. rewrite length_resize. lia.
  - intros n d H. rewrite mem_truncate_data, mem_truncate_flushed, length_take. lia.
  - intros b d H. unfold mem_disk, Spec.append; simpl.
    by rewrite take_app_le, drop_app_le by done.
  - intros d H. unfold mem_disk, Spec.flush; simpl.
    by rewrite take_drop, firstn_all, drop_all.
  - intros d H. unfold mem_disk, Spec.crash; simpl.
    rewrite resize_shrink by done. rewrite take_take, Nat.min_id.
    rewrite drop_ge; [done|]. rewrite length_take. lia.
  - intros n d H. by apply mem_truncate_spec.
  - done.
  - intros d H. unfold mem_disk; simpl. by rewrite take_drop.
  - intros d H. unfold Mem.durable_size. rewrite length_take. lia.
  - intros d H. unfold Mem.total_size. rewrite length_take, length_drop. lia.
Defined.

(** ** [FileDurableStore]: a file written with [pwrite] and [fsync]

    The operating system is not part of the repository: an open file is an
    abstract [F] with its system calls as parameters, each with the result
    code the source tests.  [content] is what a read of the file returns,
    [stable] what is left of it after a power loss. *)
Record posix (F : Type) := mkPosix {
  content : F → bytes;
  stable : F → bytes;
  os_open : string → option F;
  os_fstat_size : F → option nat;
  os_pread : nat → F → Z * bytes;
  os_pwrite : bytes → nat → F → Z * F;
  os_fsync : F → Z * F;
  os_ftruncate : nat → F → Z * F;
}.
Arguments content {F} _ _.
Arguments stable {F} _ _.
Arguments os_open {F} _ _.
Arguments os_fstat_size {F} _ _.
Arguments os_pread {F} _ _ _.
Arguments os_pwrite {F} _ _ _ _.
Arguments os_fsync {F} _ _.
Arguments os_ftruncate {F} _ _ _.

(** The bytes [b] written at offset [off]; a gap reads as zeros. *)
Definition splice (off : nat) (b l : bytes) : bytes :=
  resize off 0 l ++ b ++ drop (off + length b) l.

(** The documented behaviour of the calls when they report success. *)
Class PosixLaws {F} (os : posix F) := {
  pwrite_writes b off f n f' :
    os_pwrite os b off f = (n, f') → n = size_z b →
    content os f' = splice off b (content os f);
  fsync_stabilises f r f' :
    os_fsync os f = (r, f') → 0 <= r →
    content os f' = content os f ∧ stable os f' = content os f;
  ftruncate_resizes n f r f' :
    os_ftruncate os n f = (r, f') → 0 <= r → content os f' = resize n 0 (content os f);
  fstat_reports f n : os_fstat_size os f = Some n → n = length (content os f);
  pread_reads n f k l :
    os_pread os n f = (k, l) → k = Z.of_nat n → l = take n (content os f);
}.

(** [synced_] is the member [flushed_end_]. *)
Record FileDurableStore (F : Type) := mkFile { fd_ : F; buffer_ : bytes; synced_ : nat }.
Arguments mkFile {F} _ _ _.
Arguments fd_ {F} _.
Arguments buffer_ {F} _.
Arguments synced_ {F} _.

Module File.
Section File.
Context {F : Type} (os : posix F).

Definition datasync : M (FileDurableStore F) Z := λ s,
  let '(r, f) := os_fsync os (fd_ s) in (Ok r, mkFile f (buffer_ s) (synced_ s)).

(** The constructor: opens the file and mirrors its content. *)
Definition open (path : string) : result (FileDurableStore F) :=
  match os_open os path with
  | None => Throw (runtime_error ("FileDurableStore: cannot open " +:+ path))
  | Some f =>
      match os_fstat_size os f with
      | None => Throw (runtime_error "FileDurableStore: fstat failed")
      | Some file_size =>
          if (0 <? file_size)%nat then
            let '(n, l) := os_pread os file_size f in
            if (n <? 0) || negb (n =? Z.of_nat file_size) then
              Throw (runtime_error "FileDurableStore: pread failed")
            else Ok (mkFile f l file_size)
          else Ok (mkFile f [] file_size)
      end
  end.

Definition append (b : bytes) : M (FileDurableStore F) unit :=
  modify (λ s, mkFile (fd_ s) (buffer_ s ++ b) (synced_ s)).

Definition flush : M (FileDurableStore F) unit := λ s,
  if (length (buffer_ s) <=? synced_ s)%nat then (Ok tt, s)
  else
    let to_write := drop (synced_ s) (buffer_ s) in
    let '(n, f1) := os_pwrite os to_write (synced_ s) (fd_ s) in
    let s1 := mkFile f1 (buffer_ s) (synced_ s) in
    if (n <? 0) || negb (n =? size_z to_write) then
      (Throw (runtime_error "FileDurableStore: pwrite failed"), s1)
    else
      (r ← datasync;
       if r <? 0 then throw (runtime_error "FileDurableStore: fdatasync failed")
       else modify (λ s2, mkFile (fd_ s2) (buffer_ s2) (length (buffer_ s2)))) s1.

Definition crash : M (FileDurableStore F) unit :=
  throw (assert_failed "crash() called on FileDurableStore").

Definition read_durable (s : FileDurableStore F) : bytes := take (synced_ s) (buffer_ s).
Definition read_all (s : FileDurableStore F) : bytes := buffer_ s.

Definition truncate_to (offset : nat) : M (FileDurableStore F) unit := λ s,
  if (length (buffer_ s) <? offset)%nat then (Ok tt, s)
  else
    let s1 := mkFile (fd_ s) (resize offset 0 (buffer_ s)) (synced_ s) in
    if (offset <? synced_ s)%nat then
      let '(r, f) := os_ftruncate os offset (fd_ s) in
      let s2 := mkFile f (buffer_ s1) (synced_ s1) in
      if r <? 0 then (Throw (runtime_error "FileDurableStore: ftruncate failed"), s2)
      else
        (r' ← datasync;
         if r' <? 0 then throw (runtime_error "FileDurableStore: fdatasync failed")
         else modify (λ s3, mkFile (fd_ s3) (buffer_ s3) offset)) s2
    else (Ok tt, s1).

(** The mirror agrees with the file and the synced prefix is stable. *)
Definition inv (s : FileDurableStore F) : Prop :=
  (synced_ s <= length (buffer_ s))%nat ∧
  content os (fd_ s) = take (synced_ s) (buffer_ s) ∧
  stable os (fd_ s) = content os (fd_ s).

Definition disk_of (s : FileDurableStore F) : disk :=
  Disk (stable os (fd_ s)) (drop (synced_ s) (buffer_ s)).

End File.
End File.

Section FileFacts.
Context {F : Type} (os : posix F) `{!PosixLaws os}.
Implicit Types s : FileDurableStore F.

Lemma splice_end (b l : bytes) : splice (length l) b l = l ++ b.
Proof.
  unfold splice. rewrite resize_all, drop_ge by lia. by rewrite app_nil_r.
Qed.

Lemma file_append_refines b s s' :
  File.inv os s → File.append b s = (Ok tt, s') →
  File.inv os s' ∧ File.disk_of os s' = Spec.append b (File.disk_of os s).
Proof.
  intros (Hle & Hc & Hs) [= <-]. unfold File.inv, File.disk_of, Spec.append; simpl.
  rewrite length_app, take_app_le, drop_app_le by done. by split_and!; [lia|..].
Qed.

Lemma file_flush_refines s s' :
  File.inv os s → File.flush os s = (Ok tt, s') →
  File.inv os s' ∧ File.disk_of os s' = Spec.flush (File.disk_of os s).
Proof.
  intros (Hle & Hc & Hs). unfold File.flush.
  destruct (Nat.leb_spec (length (buffer_ s)) (synced_ s)) as [Hge|Hlt].
  { intros [= <-]. unfold File.inv, File.disk_of, Spec.flush; simpl.
    by rewrite drop_ge, app_nil_r by lia. }
  destruct (os_pwrite os _ _ _) as [n f1] eqn:Hw; simpl.
  destruct ((n <? 0) || negb (n =? size_z _)) eqn:Hn; [discriminate|].
  apply orb_false_iff in Hn as [_ Hn%negb_false_iff%Z.eqb_eq].
  pose proof (pwrite_writes _ _ _ _ _ Hw Hn) as Hc1.
  unfold File.datasync, mbind, M_bind; simpl.
  destruct (os_fsync os f1) as [r f2] eqn:Hf; simpl.
  destruct (Z.ltb_spec r 0); [discriminate|]. intros [= <-].
  destruct (fsync_stabilises _ _ _ Hf) as [Hc2 Hs2]; [done|].
  assert (content os f1 = buffer_ s) as Hc3.
  { rewrite Hc1, Hc. rewrite <-(length_take_le (buffer_ s) (synced_ s)) at 1 by done.
    by rewrite splice_end, take_drop. }
  unfold File.inv, File.disk_of, Spec.flush; simpl.
  rewrite firstn_all, drop_all, Hs2, Hc2, Hc3, Hs, Hc. by rewrite take_drop.
Qed.

Lemma file_truncate_refines n s s' :
  File.inv os s → File.truncate_to os n s = (Ok tt, s') →
  File.inv os s' ∧ File.disk_of os s' = Spec.truncate_to n (File.disk_of os s).
Proof.
  intros (Hle & Hc & Hs). unfold File.truncate_to, File.disk_of, Spec.truncate_to, File.inv.
  rewrite Hs, Hc; simpl. rewrite length_take, Nat.min_l, take_take by done.
  destruct (Nat.ltb_spec (length (buffer_ s)) n) as [Hlt|Hge].
  { intros [= <-]. split; [done|]. rewrite Hs, Hc, Nat.min_r by lia.
    by rewrite (take_ge (drop _ _)) by (rewrite length_drop; lia). }
  rewrite resize_shrink by done.
  destruct (Nat.ltb_spec n (synced_ s)) as [Hn|Hn]; simpl.
  - destruct (os_ftruncate os n (fd_ s)) as [r f1] eqn:Ht; simpl.
    destruct (Z.ltb_spec r 0); [discriminate|].
    pose proof (ftruncate_resizes _ _ _ _ Ht) as Hc1.
    unfold File.datasync, mbind, M_bind; simpl.
    destruct (os_fsync os f1) as [r' f2] eqn:Hf; simpl.
    destruct (Z.ltb_spec r' 0); [discriminate|]. intros [= <-]; simpl.
    destruct (fsync_stabilises _ _ _ Hf) as [Hc2 Hs2]; [done|].
    assert (content os f1 = take n (buffer_ s)) as Hc3.
    { rewrite Hc1, Hc by done. rewrite resize_shrink, take_take by (rewrite length_take; lia).
      f_equal. lia. }
    rewrite Hs2, Hc2, Hc3, length_take, take_take, Nat.min_id.
    rewrite (drop_ge (take n _)) by (rewrite length_take; lia).
    rewrite (Nat.min_l n (synced_ s)), (proj2 (Nat.sub_0_le n (synced_ s))) by lia.
    by split_and!; [lia|..].
  - intros [= <-]; simpl. rewrite Hs, Hc, length_take, take_take, take_drop_commute.
    rewrite (Nat.min_r n (synced_ s)) by lia. replace (synced_ s + (n - synced_ s))%nat with n by lia.
    by split_and!; [lia|f_equal; lia|..].
Qed.

Lemma file_open_refines path s :
  File.open os path = Ok s → stable os (fd_ s) = content os (fd_ s) →
  File.inv os s ∧ File.disk_of os s = Disk (content os (fd_ s)) [].
Proof.
  unfold File.open. destruct (os_open os path) as [f|]; [|discriminate].
  destruct (os_fstat_size os f) as [k|] eqn:Hk; [|discriminate].
  pose proof (fstat_reports _ _ Hk) as ->.
  unfold File.inv, File.disk_of.
  destruct (Nat.ltb_spec 0 (length (content os f))).
  - destruct (os_pread os _ f) as [n l] eqn:Hr.
    destruct ((n <? 0) || _) eqn:Hn; [discriminate|]. intros [= <-] Hst; simpl in *.
    apply orb_false_iff in Hn as [_ Hn%negb_false_iff%Z.eqb_eq].
    rewrite (pread_reads _ _ _ _ Hr Hn), firstn_all, drop_all, firstn_all.
    by rewrite Hst.
  - intros [= <-] Hst; simpl in *. rewrite Hst.
    destruct (content os f); [done|simpl in *; lia].
Qed.

End FileFacts.
