(* ===== verification/Stores.v ===== *)
(** * The stores keep their contract over whole runs

    Any sequence of operations on a store gives the bytes that the abstract
    disk of [DurableStore] gives: for the simulated store including crashes,
    for the file store as long as the system calls succeed, with what is left
    after a power loss read from the file itself. *)

From S2P Require Import Prelude Codec DurableStore.

Inductive store_op :=
| OpAppend (b : bytes)
| OpFlush
| OpTruncate (n : nat).

(** An operation, or a crash. *)
Inductive store_event :=
| StoreOp (o : store_op)
| StoreCrash.

Definition spec_op (o : store_op) : disk → disk :=
  match o with
  | OpAppend b => Spec.append b
  | OpFlush => Spec.flush
  | OpTruncate n => Spec.truncate_to n
  end.

Definition spec_event (x : store_event) : disk → disk :=
  match x with StoreOp o => spec_op o | StoreCrash => Spec.crash end.

Definition run_spec (xs : list store_event) (d : disk) : disk := foldl (λ d x, spec_event x d) d xs.
Definition run_spec_ops (os : list store_op) (d : disk) : disk := foldl (λ d o, spec_op o d) d os.

(** What the views of a store must return on an abstract disk. *)
Record views := mkViews {
  v_durable : bytes;
  v_all : bytes;
  v_durable_size : nat;
  v_total_size : nat;
}.

Definition spec_views (d : disk) : views :=
  mkViews (durable d) (durable d ++ volatile d) (length (durable d))
    (length (durable d) + length (volatile d)).

(** ** Any store of the interface *)
Section Interface.
Context {D : Type} `{DurableStoreLaws D}.

Definition event (x : store_event) : D → D :=
  match x with
  | StoreOp (OpAppend b) => append b
  | StoreOp OpFlush => flush
  | StoreOp (OpTruncate n) => truncate_to n
  | StoreCrash => crash
  end.

Definition run_store (xs : list store_event) (d : D) : D := foldl (λ d x, event x d) d xs.

Definition views_of (d : D) : views :=
  mkViews (read_durable d) (read_all d) (durable_size d) (total_size d).

Lemma event_spec x d :
  store_inv d → store_inv (event x d) ∧ disk_of (event x d) = spec_event x (disk_of d).
Proof.
  intros Hd. destruct x as [[b| |n]|]; simpl.
  - split; [by apply append_inv|by apply append_spec].
  - split; [by apply flush_inv|by apply flush_spec].
  - split; [by apply truncate_inv|by apply truncate_spec].
  - split; [by apply crash_inv|by apply crash_spec].
Qed.

Lemma run_store_spec xs d :
  store_inv d → store_inv (run_store xs d) ∧ disk_of (run_store xs d) = run_spec xs (disk_of d).
Proof.
  revert d. induction xs as [|x xs IH]; intros d Hd; [done|].
  destruct (event_spec x d Hd) as [Hi He]. unfold run_store, run_spec in *. simpl.
  rewrite <-He. by apply IH.
Qed.

Lemma views_spec d : store_inv d → views_of d = spec_views (disk_of d).
Proof.
  intros Hd. unfold views_of, spec_views.
  by rewrite read_durable_spec, read_all_spec, durable_size_spec, total_size_spec.
Qed.
End Interface.

(** C18: the simulated store.  After any sequence of appends, flushes,
    truncations and crashes a [DurableStore] shows, through all of its views,
    what a durable prefix with a volatile tail shows: a crash loses exactly
    the bytes appended since the last flush. *)
Theorem mem_store_refines (xs : list store_event) :
  views_of (run_store xs empty_store) = spec_views (run_spec xs (Disk [] [])).
Proof.
  destruct (run_store_spec xs empty_store) as [Hi He]; [apply Nat.le_refl|].
  by rewrite views_spec, He.
Qed.

(** ** The file store *)
Section FileRuns.
Context {F : Type} (os : posix F).

Definition file_op (o : store_op) : M (FileDurableStore F) unit :=
  match o with
  | OpAppend b => File.append b
  | OpFlush => File.flush os
  | OpTruncate n => File.truncate_to os n
  end.

Definition run_file (l : list store_op) : M (FileDurableStore F) unit := for_each l file_op.

Definition file_views (s : FileDurableStore F) : views :=
  mkViews (File.read_durable s) (File.read_all s) (synced_ s) (length (buffer_ s)).

(** Every call succeeds. *)
Definition reliable : Prop :=
  (∀ b off f, (os_pwrite os b off f).1 = size_z b) ∧
  (∀ f, 0 <= (os_fsync os f).1) ∧ (∀ n f, 0 <= (os_ftruncate os n f).1).

Context `{!PosixLaws os}.

Lemma file_op_spec o s s' :
  File.inv os s → file_op o s = (Ok tt, s') →
  File.inv os s' ∧ File.disk_of os s' = spec_op o (File.disk_of os s).
Proof.
  destruct o; simpl;
    [apply file_append_refines|apply file_flush_refines; done|apply file_truncate_refines; done].
Qed.

Lemma run_file_spec l s s' :
  File.inv os s → run_file l s = (Ok tt, s') →
  File.inv os s' ∧ File.disk_of os s' = run_spec_ops l (File.disk_of os s).
Proof.
  unfold run_file, run_spec_ops. revert s. induction l as [|o l IH]; intros s Hi Hr.
  { by injection Hr as <-. }
  cbn [for_each] in Hr. destruct (file_op o s) as [[[]|x] s1] eqn:Ho.
  - rewrite (bind_ok _ _ _ _ _ Ho) in Hr. destruct (file_op_spec o s s1 Hi Ho) as [Hi1 He].
    simpl. rewrite <-He. by apply IH.
  - unfold mbind, M_bind in Hr. by rewrite Ho in Hr.
Qed.

Lemma file_views_spec s : File.inv os s → file_views s = spec_views (File.disk_of os s).
Proof.
  intros (Hle & Hc & Hs). unfold file_views, spec_views, File.disk_of, File.read_durable, File.read_all.
  cbn [durable volatile]. rewrite Hs, Hc, take_drop. f_equal; rewrite length_take, ?length_drop; lia.
Qed.

Lemma datasync_returns s : reliable → ∃ r f, 0 <= r ∧ File.datasync os s = (Ok r, mkFile f (buffer_ s) (synced_ s)).
Proof.
  intros (_ & Hf & _). unfold File.datasync. specialize (Hf (fd_ s)).
  destruct (os_fsync os (fd_ s)) as [r f]. by exists r, f.
Qed.

Lemma file_op_returns o s : reliable → ∃ s', file_op o s = (Ok tt, s').
Proof.
  intros R. pose proof R as (Hw & _ & Ht). destruct o as [b| |n]; cbn [file_op].
  - by eexists.
  - unfold File.flush. case_match; [by eexists|].
    specialize (Hw (drop (synced_ s) (buffer_ s)) (synced_ s) (fd_ s)).
    destruct (os_pwrite os _ _ _) as [k f1]. simpl in Hw. subst k.
    rewrite (proj2 (Z.ltb_ge _ _)), Z.eqb_refl by (unfold size_z; lia). cbn [orb negb].
    destruct (datasync_returns (mkFile f1 (buffer_ s) (synced_ s)) R) as (r & f & Hr & Hd).
    rewrite (bind_ok _ _ _ _ _ Hd), (proj2 (Z.ltb_ge _ _)) by lia. by eexists.
  - unfold File.truncate_to. case_match; [by eexists|]. case_match; [|by eexists].
    specialize (Ht n (fd_ s)). destruct (os_ftruncate os n (fd_ s)) as [r f1]. simpl in Ht.
    rewrite (proj2 (Z.ltb_ge _ _)) by lia.
    match goal with |- context [mkFile f1 ?b ?k] => destruct (datasync_returns (mkFile f1 b k) R)
      as (r' & f & Hr & Hd) end.
    rewrite (bind_ok _ _ _ _ _ Hd), (proj2 (Z.ltb_ge _ _)) by lia. by eexists.
Qed.

Lemma run_file_returns l s : reliable → ∃ s', run_file l s = (Ok tt, s').
Proof.
  intros R. unfold run_file. revert s. induction l as [|o l IH]; intros s; [by eexists|].
  destruct (file_op_returns o s R) as [s1 H1]. cbn [for_each]. rewrite (bind_ok _ _ _ _ _ H1). apply IH.
Qed.

(** C19: the file store.  A store opened on a file whose content is stable
    behaves, as long as no system call fails, like the abstract disk that
    starts with the content of the file: every view agrees, and what is left
    in the file after a power loss is exactly the durable part, the bytes up
    to the last flush.  If every call succeeds the operations return. *)
Theorem file_store_refines (path : string) (s : FileDurableStore F) (l : list store_op)
    (Hopen : File.open os path = Ok s) (Hstable : stable os (fd_ s) = content os (fd_ s)) :
  let d := run_spec_ops l (Disk (content os (fd_ s)) []) in
  (∀ s', run_file l s = (Ok tt, s') → file_views s' = spec_views d ∧ stable os (fd_ s') = durable d) ∧
  (reliable → ∃ s', run_file l s = (Ok tt, s')).
Proof.
  destruct (file_open_refines os path s Hopen Hstable) as [Hi He]. rewrite <-He.
  split; [|apply run_file_returns]. intros s' Hr. destruct (run_file_spec l s s' Hi Hr) as [Hi' <-].
  by rewrite file_views_spec.
Qed.
End FileRuns.

(** A file in memory: its content and what is stable of it. *)
Definition demo_posix : posix (bytes * bytes) := {|
  content := fst;
  stable := snd;
  os_open _ := Some ([7], [7]);
  os_fstat_size f := Some (length f.1);
  os_pread n f := (Z.of_nat n, take n f.1);
  os_pwrite b off f := (size_z b, (splice off b f.1, f.2));
  os_fsync f := (0, (f.1, f.1));
  os_ftruncate n f := (0, (resize n 0 f.1, f.2));
|}.

#[global] Instance demo_posix_laws : PosixLaws demo_posix.
Proof.
  split; simpl.
  - by intros b off [c t] n f' [= <- <-] _.
  - by intros [c t] r f' [= <- <-] _.
  - by intros n [c t] r f' [= <- <-] _.
  - by intros [c t] n [= <-].
  - by intros n [c t] k l [= <- <-] _.
Qed.

Lemma file_store_refines_witness :
  ∃ s', run_file demo_posix [OpAppend [1; 2]; OpFlush; OpAppend [3]; OpTruncate 2; OpAppend [4; 5]]
          (mkFile ([7], [7]) [7] 1) = (Ok tt, s') ∧
        file_views s' = mkViews [7; 1] [7; 1; 4; 5] 2 4 ∧ stable demo_posix (fd_ s') = [7; 1].
Proof.
  destruct (file_store_refines demo_posix "log" (mkFile ([7], [7]) [7] 1)
    [OpAppend [1; 2]; OpFlush; OpAppend [3]; OpTruncate 2; OpAppend [4; 5]] eq_refl eq_refl) as [H1 H2].
  destruct H2 as [s' Hr].
  - split_and!; [done|done|]. intros n f. simpl. lia.
  - exists s'. split; [exact Hr|]. exact (H1 s' Hr).
Defined.
