(* ===== verification/Types.v ===== *)
(** * Shared types: [src/raft/types.hpp], [src/sim/time.hpp] and the id types *)

From S2P Require Import Prelude.

Abbreviation Term := Z.
Abbreviation Index := Z.
Abbreviation NodeId := Z.
Abbreviation SimTime := Z.
Abbreviation EventId := Z.

Definition kUsec : SimTime := 1.
Definition kMsec : SimTime := 1000.
Definition kSec : SimTime := 1000000.

(** The state-machine command of a log entry: [std::variant] of the [Cmd*]. *)
Inductive Command :=
| CmdPut (key value : string)
| CmdDelete (key : string)
| CmdCas (key expected value : string)
| CmdGet (key : string)
| CmdAddServer (id : NodeId)
| CmdRemoveServer (id : NodeId).

#[export] Instance Command_eq_dec : EqDecision Command.
Proof. solve_decision. Defined.

(** [holds_alternative<CmdAddServer>(cmd) || holds_alternative<CmdRemoveServer>(cmd)] *)
Definition is_config (c : Command) : bool :=
  match c with
  | CmdAddServer _ | CmdRemoveServer _ => true
  | _ => false
  end.

Record CmdResult := mkCmdResult { res_ok : bool; res_value : string; res_error : string }.

#[export] Instance CmdResult_eq_dec : EqDecision CmdResult.
Proof. solve_decision. Defined.

Inductive Role := Follower | Candidate | Leader.

#[export] Instance Role_eq_dec : EqDecision Role.
Proof. solve_decision. Defined.

Record LogEntry := mkLogEntry { e_term : Term; e_index : Index; e_cmd : Command }.

#[export] Instance LogEntry_eq_dec : EqDecision LogEntry.
Proof. solve_decision. Defined.
