(* ===== verification/Prng.v ===== *)
(** * The random number generator: [src/sim/prng.hpp/.cpp]

    SplitMix64 seeding, xoshiro256**, Lemire's bounded range, Bernoulli trials
    and Fisher-Yates shuffling, on 64-bit words with their wrap-around.
    [double] is the binary64 format of [SpecFloat]. *)

From Corelib Require Import SpecFloat.
From S2P Require Import Prelude Types.

(** ** Doubles *)
Abbreviation double := spec_float.
Definition dprec : Z := 53.
Definition demax : Z := 1024.
Definition dmul : double → double → double := SFmul dprec demax.
Definition dbl_zero : double := S754_zero false.
Definition dbl_one : double := S754_finite false (2 ^ 52) (-52).

(** [static_cast<double>(z)] of an unsigned integer. *)
Definition double_of_u64 (z : Z) : double := binary_normalize dprec demax z 0 false.

(** [static_cast<uint64_t>(d)] of a non-negative double below 2^64:
    truncation. *)
Definition u64_of_double (d : double) : Z :=
  match d with
  | S754_finite false m e => Z.shiftl (Zpos m) e
  | _ => 0
  end.

Record Prng := mkPrng { s0 : Z; s1 : Z; s2 : Z; s3 : Z }.

(** [splitmix64(state)]: the output and the advanced state. *)
Definition splitmix64 (state : Z) : Z * Z :=
  let state := wrap64 (state + 0x9e3779b97f4a7c15) in
  let z := state in
  let z := wrap64 (Z.lxor z (Z.shiftr z 30) * 0xbf58476d1ce4e5b9) in
  let z := wrap64 (Z.lxor z (Z.shiftr z 27) * 0x94d049bb133111eb) in
  (Z.lxor z (Z.shiftr z 31), state).

Definition rotl64 (x k : Z) : Z := Z.lor (wrap64 (Z.shiftl x k)) (Z.shiftr x (64 - k)).

(** [Prng(seed)] *)
Definition make_prng (seed : Z) : Prng :=
  let '(w0, seed) := splitmix64 seed in
  let '(w1, seed) := splitmix64 seed in
  let '(w2, seed) := splitmix64 seed in
  let '(w3, _) := splitmix64 seed in
  mkPrng w0 w1 w2 w3.

Module Rng.

Definition next_u64 : M Prng Z := λ g,
  let result := wrap64 (rotl64 (wrap64 (s1 g * 5)) 7 * 9) in
  let t := wrap64 (Z.shiftl (s1 g) 17) in
  let x2 := Z.lxor (s2 g) (s0 g) in
  let x3 := Z.lxor (s3 g) (s1 g) in
  let x1 := Z.lxor (s1 g) x2 in
  let x0 := Z.lxor (s0 g) x3 in
  let x2 := Z.lxor x2 t in
  let x3 := rotl64 x3 45 in
  (Ok result, mkPrng x0 x1 x2 x3).

(** [static_cast<uint64_t>(m)] and [m >> 64] of the 128-bit product. *)
Definition low (x n : Z) : Z := wrap64 (x * n).
Definition high (x n : Z) : Z := Z.shiftr (x * n) 64.

(** [(-n) % n] *)
Definition threshold (n : Z) : Z := wrap64 (- n) mod n.

(** [while (l < t)]: draws again until a draw is accepted. *)
Fixpoint reject (fuel : nat) (n t x : Z) : M Prng Z :=
  if negb (low x n <? t) then mret x
  else
    match fuel with
    | O => throw out_of_fuel
    | S fuel' => x' ← next_u64; reject fuel' n t x'
    end.

Definition range (fuel : nat) (lo hi : Z) : M Prng Z :=
  if negb (lo <? hi) then throw (assert_failed "hi > lo")
  else
    let n := wrap64 (hi - lo) in
    x ← next_u64;
    x ← (if low x n <? n then reject fuel n (threshold n) x else mret x);
    mret (wrap64 (wrap64 (high x n) + lo)).

(** [scale]: [UINT64_MAX] as a double, which is 2^64. *)
Definition scale : double := double_of_u64 UINT64_MAX.

Definition bernoulli (p : double) : M Prng bool :=
  if SFleb p dbl_zero then mret false
  else if SFleb dbl_one p then mret true
  else
    let threshold := u64_of_double (dmul p scale) in
    x ← next_u64;
    mret (x <? threshold).

(** [1.0 / (1ULL << 53)] *)
Definition ulp53 : double := SFdiv dprec demax dbl_one (double_of_u64 (2 ^ 53)).

Definition unit_ : M Prng double :=
  x ← next_u64;
  mret (dmul (double_of_u64 (Z.shiftr x 11)) ulp53).

(** [std::swap(v[j], v[i])] *)
Definition swap {T} (j i : nat) (v : list T) : M Prng (list T) :=
  match v !! j, v !! i with
  | Some a, Some b => mret (<[i := a]> (<[j := b]> v))
  | _, _ => throw undefined_behaviour
  end.

(** [for (i = v.size(); i > 1; --i)], [i] rounds left. *)
Fixpoint shuffle_loop {T} (fuel : nat) (i : nat) (v : list T) : M Prng (list T) :=
  match i with
  | O | S O => mret v
  | S i' =>
      j ← range fuel 0 (Z.of_nat i);
      v' ← swap (Z.to_nat j) i' v;
      shuffle_loop fuel i' v'
  end.

Definition shuffle {T} (fuel : nat) (v : list T) : M Prng (list T) :=
  shuffle_loop fuel (length v) v.

End Rng.

(** ** Words stay words *)

Definition prng_ok (g : Prng) : Prop :=
  is_u64 (s0 g) ∧ is_u64 (s1 g) ∧ is_u64 (s2 g) ∧ is_u64 (s3 g).

Lemma u64_lxor a b : is_u64 a → is_u64 b → is_u64 (Z.lxor a b).
Proof. apply lxor_range. lia. Qed.

Lemma u64_shiftr a k : 0 <= k → is_u64 a → is_u64 (Z.shiftr a k).
Proof. intros. by apply shiftr_range. Qed.

Lemma u64_rotl x k : 0 <= k <= 64 → is_u64 x → is_u64 (rotl64 x k).
Proof.
  intros. apply lor_range; [lia|apply wrap64_range|]. apply shiftr_range; [lia..|done].
Qed.

Lemma splitmix64_ok state : is_u64 (splitmix64 state).1.
Proof.
  apply u64_lxor; [apply wrap64_range|]. apply u64_shiftr; [lia|apply wrap64_range].
Qed.

Lemma make_prng_ok seed : prng_ok (make_prng seed).
Proof.
  unfold make_prng.
  repeat match goal with |- context [splitmix64 ?x] =>
    let H := fresh in pose proof (splitmix64_ok x) as H; destruct (splitmix64 x); simpl in H end.
  done.
Qed.

Lemma next_u64_ok g :
  prng_ok g → ∃ x g', Rng.next_u64 g = (Ok x, g') ∧ is_u64 x ∧ prng_ok g'.
Proof.
  intros (H0 & H1 & H2 & H3). do 2 eexists. split; [reflexivity|]. split; [apply wrap64_range|].
  refine (conj _ (conj _ (conj _ _))); simpl;
    auto using u64_lxor, wrap64_range, u64_rotl with lia.
Qed.

(** ** Lemire's range *)

(** The draws [range] accepts. *)
Definition accepted (n x : Z) : Prop := Rng.threshold n <= Rng.low x n.

Lemma threshold_spec n : 0 < n < 2 ^ 64 → Rng.threshold n = 2 ^ 64 mod n.
Proof.
  intros Hn. unfold Rng.threshold. rewrite wrap64_mod.
  assert ((- n) mod 2 ^ 64 = 2 ^ 64 + (-1) * n) as ->
    by (symmetry; apply (Z.mod_unique _ _ (-1)); lia).
  by rewrite Z_mod_plus_full.
Qed.

Lemma threshold_lt n : 0 < n < 2 ^ 64 → 0 <= Rng.threshold n < n.
Proof. intros Hn. rewrite threshold_spec by done. apply Z.mod_pos_bound. lia. Qed.

Lemma high_low x n : 0 <= x → 0 <= n → x * n = Rng.high x n * 2 ^ 64 + Rng.low x n.
Proof.
  intros. unfold Rng.high, Rng.low. rewrite wrap64_mod, Z.shiftr_div_pow2 by lia.
  pose proof (Z.div_mod (x * n) (2 ^ 64)). lia.
Qed.

Lemma high_range x n : is_u64 x → 0 < n < 2 ^ 64 → 0 <= Rng.high x n < n.
Proof.
  intros Hx Hn. unfold is_u64 in *. unfold Rng.high. rewrite Z.shiftr_div_pow2 by lia.
  split; [apply Z.div_pos; nia|]. apply Z.div_lt_upper_bound; nia.
Qed.

(** The values [x] that give [v] are the [2^64 / n] multiples of [n] between
    [v * 2^64 + t] and [(v + 1) * 2^64]. *)
Lemma lemire_bucket n v :
  0 < n < 2 ^ 64 → 0 <= v < n →
  let q := 2 ^ 64 / n in
  ∃ x0, 0 <= x0 ∧ x0 + q <= 2 ^ 64 ∧
    ∀ x, is_u64 x → (accepted n x ∧ Rng.high x n = v) ↔ x0 <= x < x0 + q.
Proof.
  intros Hn Hv q. pose proof (threshold_spec n Hn) as Ht. pose proof (threshold_lt n Hn) as Ht'.
  set (t := Rng.threshold n) in *. set (W := 2 ^ 64) in *.
  assert (W = n * q + t) as HW by (unfold q; rewrite Ht; apply Z.div_mod; lia).
  set (x0 := (v * W + t + n - 1) / n).
  pose proof (Z.div_mod (v * W + t + n - 1) n ltac:(lia)) as Hdm. fold x0 in Hdm.
  pose proof (Z.mod_pos_bound (v * W + t + n - 1) n ltac:(lia)) as Hmb.
  set (r := (v * W + t + n - 1) mod n) in *.
  assert (0 <= q) by (unfold q; apply Z.div_pos; lia).
  assert (0 <= x0) by (unfold x0; apply Z.div_pos; nia).
  exists x0. split; [done|]. split.
  { assert (n * (x0 + q) <= n * W + (n - 1 - r)) by nia. nia. }
  intros x Hx. unfold accepted, is_u64 in *. fold t.
  pose proof (high_low x n ltac:(lia) ltac:(lia)) as Hhl. fold W in Hhl, Hx.
  assert (0 <= Rng.low x n < W) as Hlow by apply wrap64_range.
  split.
  - intros [Hacc <-]. nia.
  - intros Hx0. assert (v * W + t <= x * n) by nia. assert (x * n < (v + 1) * W) by nia.
    assert (Rng.high x n = v) by nia. split; [nia|done].
Qed.

(** The [k]-th next draw and the generator after it. *)
Fixpoint draw (k : nat) (g : Prng) : Z * Prng :=
  match Rng.next_u64 g with
  | (Ok x, g') => match k with O => (x, g') | S k' => draw k' g' end
  | (Throw _, g') => (0, g')
  end.

(** [reject] starting from the draw [x] returns the first accepted one. *)
Lemma reject_spec fuel n x g :
  0 < n < 2 ^ 64 → is_u64 x → prng_ok g →
  (accepted n x ∧ Rng.reject fuel n (Rng.threshold n) x g = (Ok x, g)) ∨
  (¬ accepted n x ∧
   ((∃ k x' g', (k < fuel)%nat ∧ draw k g = (x', g') ∧ is_u64 x' ∧ prng_ok g' ∧ accepted n x' ∧
       (∀ j, (j < k)%nat → ¬ accepted n (draw j g).1) ∧
       Rng.reject fuel n (Rng.threshold n) x g = (Ok x', g')) ∨
    ((∀ j, (j < fuel)%nat → ¬ accepted n (draw j g).1) ∧
       ∃ g', prng_ok g' ∧ Rng.reject fuel n (Rng.threshold n) x g = (Throw out_of_fuel, g')))).
Proof.
  intros Hn. revert x g. induction fuel as [|fuel IH]; intros x g Hx Hg; cbn [Rng.reject];
    unfold accepted at 1 2; destruct (Z.ltb_spec (Rng.low x n) (Rng.threshold n)) as [Hlt|Hge];
    cbn [negb]; try (by left); right; (split; [unfold accepted; lia|]).
  - right. split; [lia|]. by exists g.
  - destruct (next_u64_ok g Hg) as (x1 & g1 & Hnext & Hx1 & Hg1).
    unfold mbind, M_bind. rewrite Hnext.
    assert (draw 0 g = (x1, g1)) as D0 by (cbn [draw]; by rewrite Hnext).
    assert (∀ j, draw (S j) g = draw j g1) as DS by (intros j; cbn [draw]; by rewrite Hnext).
    destruct (IH x1 g1 Hx1 Hg1) as [[Hacc Hr]|[Hrej [(k & x' & g' & Hk & Hd & Hx' & Hg' & Ha & Hj & Hr)
      |[Hj (g' & Hg' & Hr)]]]].
    + left. exists 0%nat, x1, g1. split_and!; try done; lia.
    + left. exists (S k), x', g'. rewrite DS. split_and!; try done; [lia|].
      intros [|j] Hlt'; [by rewrite D0|rewrite DS; apply Hj; lia].
    + right. split; [|by exists g'].
      intros [|j] Hlt'; [by rewrite D0|rewrite DS; apply Hj; lia].
Qed.

Definition range_ok (fuel : nat) (lo hi : Z) (g : Prng) : Prop :=
  let n := hi - lo in
  (∃ k x g', (k <= fuel)%nat ∧ draw k g = (x, g') ∧ prng_ok g' ∧ is_u64 x ∧ accepted n x ∧
     (∀ j, (j < k)%nat → ¬ accepted n (draw j g).1) ∧
     Rng.range fuel lo hi g = (Ok (lo + Rng.high x n), g') ∧ lo <= lo + Rng.high x n < hi) ∨
  ((∀ j, (j <= fuel)%nat → ¬ accepted n (draw j g).1) ∧
     ∃ g', prng_ok g' ∧ Rng.range fuel lo hi g = (Throw out_of_fuel, g')).

Lemma range_spec fuel lo hi g :
  prng_ok g → is_u64 lo → is_u64 hi → lo < hi → range_ok fuel lo hi g.
Proof.
  intros Hg Hlo Hhi Hlt. assert (0 < hi - lo < 2 ^ 64) as Hn by (unfold is_u64 in *; lia).
  unfold range_ok, Rng.range. destruct (Z.ltb_spec lo hi); [|lia]. cbn [negb].
  rewrite wrap64_id by (unfold is_u64; lia). assert (Hhn : hi = lo + (hi - lo)) by lia.
  set (n := hi - lo) in *. cbv zeta.
  destruct (next_u64_ok g Hg) as (x1 & g1 & Hnext & Hx1 & Hg1).
  assert (draw 0 g = (x1, g1)) as D0 by (cbn [draw]; by rewrite Hnext).
  assert (∀ j, draw (S j) g = draw j g1) as DS by (intros j; cbn [draw]; by rewrite Hnext).
  assert (∀ x, is_u64 x → wrap64 (wrap64 (Rng.high x n) + lo) = lo + Rng.high x n ∧
                          lo <= lo + Rng.high x n < hi) as Hval.
  { intros x Hx. pose proof (high_range x n Hx Hn). unfold is_u64 in *.
    split; [|lia].
    rewrite (wrap64_id (Rng.high x n)), wrap64_id by (unfold is_u64; lia). lia. }
  unfold mbind, M_bind. rewrite Hnext.
  destruct (Z.ltb_spec (Rng.low x1 n) n) as [Hl|Hl].
  - destruct (reject_spec fuel n x1 g1 Hn Hx1 Hg1) as
      [[Hacc Hr]|[Hrej [(k & x' & g' & Hk & Hd & Hx' & Hg' & Ha & Hj & Hr)|[Hj (g' & Hg' & Hr)]]]];
      rewrite Hr; unfold mret, M_ret; cbv beta iota.
    + left. exists 0%nat, x1, g1. destruct (Hval x1 Hx1) as [-> ?].
      split_and!; try done; lia.
    + left. exists (S k), x', g'. rewrite DS. destruct (Hval x' Hx') as [-> ?].
      split_and!; try done; try lia. intros [|j] ?; [by rewrite D0|rewrite DS; apply Hj; lia].
    + right. split; [|by exists g']. intros [|j] ?; [by rewrite D0|rewrite DS; apply Hj; lia].
  - unfold mret, M_ret; cbv beta iota.
    left. exists 0%nat, x1, g1. destruct (Hval x1 Hx1) as [-> ?].
    pose proof (threshold_lt n Hn). split_and!; try done; unfold accepted; lia.
Qed.

(** ** Properties *)

(** C40: [range(lo, hi)] is unbiased.  Its result is [lo + high(x)] for the
    first draw [x] that is accepted, it lies in [lo, hi), and it runs out of
    the given rounds only if every one of the [fuel + 1] draws was rejected;
    among the 2^64 possible draws, every value of the interval is given by
    exactly [2^64 / (hi - lo)] of them, which form one block. *)
Theorem range_unbiased (fuel : nat) (lo hi : Z) (g : Prng)
    (Hg : prng_ok g) (Hlo : is_u64 lo) (Hhi : is_u64 hi) (Hlt : lo < hi) :
  range_ok fuel lo hi g ∧
  ∀ v, lo <= v < hi →
    ∃ x0, 0 <= x0 ∧ x0 + 2 ^ 64 / (hi - lo) <= 2 ^ 64 ∧
      ∀ x, is_u64 x →
        (accepted (hi - lo) x ∧ lo + Rng.high x (hi - lo) = v) ↔
        x0 <= x < x0 + 2 ^ 64 / (hi - lo).
Proof.
  split; [by apply range_spec|]. intros v Hv. unfold is_u64 in *.
  destruct (lemire_bucket (hi - lo) (v - lo)) as (x0 & H0 & H1 & H2); [lia..|].
  exists x0. split_and!; [done..|]. intros x Hx. rewrite <-(H2 x Hx). intuition lia.
Qed.

Lemma range_unbiased_witness :
  range_ok 3 150000 300001 (make_prng 42) ∧
  (Rng.range 3 150000 300001 (make_prng 42)).1 = Ok 162579.
Proof.
  split; [|vm_compute; reflexivity].
  apply (range_unbiased 3 150000 300001 (make_prng 42) (make_prng_ok 42)); unfold is_u64; lia.
Defined.

Lemma swap_permutes {T} (j i : nat) (v : list T) g :
  (j < length v)%nat → (i < length v)%nat → ∃ v', Rng.swap j i v g = (Ok v', g) ∧ v' ≡ₚ v.
Proof.
  intros [a Ha]%lookup_lt_is_Some_2 [b Hb]%lookup_lt_is_Some_2. unfold Rng.swap. rewrite Ha, Hb.
  eexists. split; [done|]. by apply Permutation_insert_swap.
Qed.

Lemma shuffle_loop_SS {T} fuel i (v : list T) :
  Rng.shuffle_loop fuel (S (S i)) v =
    (j ← Rng.range fuel 0 (Z.of_nat (S (S i)));
     v' ← Rng.swap (Z.to_nat j) (S i) v; Rng.shuffle_loop fuel (S i) v').
Proof. done. Qed.

Lemma shuffle_loop_permutes {T} fuel i (v : list T) g :
  prng_ok g → Z.of_nat (length v) < 2 ^ 64 → (i <= length v)%nat →
  ∃ g', prng_ok g' ∧
    ((∃ v', Rng.shuffle_loop fuel i v g = (Ok v', g') ∧ v' ≡ₚ v) ∨
     Rng.shuffle_loop fuel i v g = (Throw out_of_fuel, g')).
Proof.
  revert v g. induction i as [|i IH]; intros v g Hg Hlen Hi; [exists g; eauto|].
  destruct i as [|i]; [exists g; eauto|]. rewrite shuffle_loop_SS. set (i1 := S i) in *.
  destruct (range_spec fuel 0 (Z.of_nat (S i1)) g Hg) as
    [(k & x & g' & _ & _ & Hg' & _ & _ & _ & Hr & Hv)|(_ & g' & Hg' & Hr)];
    [unfold is_u64; lia..| |].
  - rewrite (bind_ok _ _ _ _ _ Hr). set (j := 0 + _) in *.
    destruct (swap_permutes (Z.to_nat j) i1 v g') as (v' & Hs & Hp); [lia..|].
    rewrite (bind_ok _ _ _ _ _ Hs).
    assert (length v' = length v) as Hl by (by apply Permutation_length).
    destruct (IH v' g' Hg') as (g2 & Hg2 & [(v2 & E2 & P2)|E2]); [lia..| |]; exists g2;
      (split; [done|]); [left|by right].
    exists v2. split; [done|]. by rewrite P2.
  - exists g'. split; [done|]. right. by rewrite (bind_throw _ _ _ _ _ Hr).
Qed.

(** [shuffle] permutes.  It neither loses, repeats nor invents an element
    and never touches an index outside the vector; it fails to return only if
    one of its draws is rejected [fuel] times in a row. *)
Theorem shuffle_permutes {T} (fuel : nat) (v : list T) (g : Prng)
    (Hg : prng_ok g) (Hlen : Z.of_nat (length v) < 2 ^ 64) :
  ∃ g', prng_ok g' ∧
    ((∃ v', Rng.shuffle fuel v g = (Ok v', g') ∧ v' ≡ₚ v) ∨
     Rng.shuffle fuel v g = (Throw out_of_fuel, g')).
Proof. by apply shuffle_loop_permutes. Qed.

Lemma shuffle_permutes_witness :
  (∃ g', prng_ok g' ∧ ((∃ v', Rng.shuffle 3 [1; 2; 3; 4; 5] (make_prng 42) = (Ok v', g') ∧
                              v' ≡ₚ [1; 2; 3; 4; 5]) ∨
                       Rng.shuffle 3 [1; 2; 3; 4; 5] (make_prng 42) = (Throw out_of_fuel, g'))) ∧
  (Rng.shuffle 3 [1; 2; 3; 4; 5] (make_prng 42)).1 = Ok [5; 4; 3; 2; 1].
Proof.
  split; [|vm_compute; reflexivity].
  apply (shuffle_permutes 3 [1; 2; 3; 4; 5] (make_prng 42) (make_prng_ok 42)). simpl. lia.
Defined.
