(* ===== verification/EventQueue.v ===== *)
(** * The event queue: [src/sim/event_queue.hpp/.cpp]

    [std::priority_queue] is a list of which [top] is a least element by
    [(time, seq)]; cancellation is the lazy one of the source, a set of
    sequence numbers consulted by [pop_min].  [A] is the type of the actions
    ([std::function<void()>] in the source). *)

From S2P Require Import Prelude Types.

Record Event (A : Type) := mkEvent {
  ev_time : SimTime;
  ev_seq : Z;
  ev_action : A;
  ev_cancelled : bool;
}.
Arguments mkEvent {A} _ _ _ _.
Arguments ev_time {A} _.
Arguments ev_seq {A} _.
Arguments ev_action {A} _.
Arguments ev_cancelled {A} _.

Record EventQueue (A : Type) := mkQueue { heap_ : list (Event A); cancelled_ : gset Z }.
Arguments mkQueue {A} _ _.
Arguments heap_ {A} _.
Arguments cancelled_ {A} _.

Module Queue.
Section Queue.
Context {A : Type}.

(** [Cmp]: [a] comes after [b]. *)
Definition cmp (a b : Event A) : bool :=
  if negb (ev_time a =? ev_time b) then ev_time b <? ev_time a else ev_seq b <? ev_seq a.

(** [heap_.top()] with what [heap_.pop()] leaves. *)
Fixpoint extract (e : Event A) (rest : list (Event A)) : Event A * list (Event A) :=
  match rest with
  | [] => (e, [])
  | x :: rest' =>
      if cmp e x then let '(m, l) := extract x rest' in (m, e :: l)
      else let '(m, l) := extract e rest' in (m, x :: l)
  end.

Definition push (time : SimTime) (seq : Z) (action : A) : M (EventQueue A) EventId := λ q,
  (Ok seq, mkQueue (mkEvent time seq action false :: heap_ q) (cancelled_ q)).

Definition cancel (id : EventId) : M (EventQueue A) unit :=
  modify (λ q, mkQueue (heap_ q) ({[id]} ∪ cancelled_ q)).

Definition empty (q : EventQueue A) : bool :=
  match heap_ q with [] => true | _ => false end.

Definition pop_min : M (EventQueue A) (Event A) := λ q,
  match heap_ q with
  | [] => (Throw (logic_error "pop_min on empty EventQueue"), q)
  | x :: rest =>
      let '(e, heap) := extract x rest in
      if bool_decide (ev_seq e ∈ cancelled_ q)
      then (Ok (mkEvent (ev_time e) (ev_seq e) (ev_action e) true),
            mkQueue heap (cancelled_ q ∖ {[ev_seq e]}))
      else (Ok e, mkQueue heap (cancelled_ q))
  end.

(** [heap_.top().time]: undefined on an empty queue. *)
Definition peek_time : M (EventQueue A) SimTime := λ q,
  match heap_ q with
  | [] => (Throw undefined_behaviour, q)
  | x :: rest => (Ok (ev_time (extract x rest).1), q)
  end.

End Queue.
End Queue.

Definition empty_queue {A} : EventQueue A := mkQueue [] ∅.

(** ** Order *)

Definition evkey : Type := SimTime * Z.
Definition ev_key {A} (e : Event A) : evkey := (ev_time e, ev_seq e).

Definition evkey_lt (a b : evkey) : Prop := a.1 < b.1 ∨ (a.1 = b.1 ∧ a.2 < b.2).
Definition evkey_le (a b : evkey) : Prop := evkey_lt a b ∨ a = b.

#[export] Instance evkey_lt_trans : Transitive evkey_lt.
Proof. intros a b c. unfold evkey_lt. lia. Qed.

Lemma evkey_le_trans a b c : evkey_le a b → evkey_le b c → evkey_le a c.
Proof. intros [?| ->] [?| ->]; unfold evkey_le; auto. left. by etrans. Qed.

Lemma evkey_lt_le_trans a b c : evkey_lt a b → evkey_le b c → evkey_lt a c.
Proof. intros ? [?|<-]; [by etrans|done]. Qed.

Lemma evkey_lt_irrefl a : ¬ evkey_lt a a.
Proof. unfold evkey_lt. lia. Qed.

Section Facts.
Context {A : Type}.
Implicit Types (e x : Event A) (q : EventQueue A).

Lemma cmp_true a b : Queue.cmp (A:=A) a b = true ↔ evkey_lt (ev_key b) (ev_key a).
Proof.
  unfold Queue.cmp, evkey_lt, ev_key; simpl. destruct (Z.eqb_spec (ev_time a) (ev_time b)); simpl; lia.
Qed.

Lemma cmp_false a b : Queue.cmp (A:=A) a b = false → evkey_le (ev_key a) (ev_key b).
Proof.
  unfold Queue.cmp, evkey_le, evkey_lt, ev_key; simpl.
  destruct (Z.eqb_spec (ev_time a) (ev_time b)); simpl; intros.
  - destruct (decide (ev_seq a = ev_seq b)); [right; congruence|lia].
  - lia.
Qed.

Lemma extract_perm e rest :
  (Queue.extract e rest).1 :: (Queue.extract e rest).2 ≡ₚ e :: rest.
Proof.
  revert e. induction rest as [|x rest IH]; intros e; [done|]. simpl.
  destruct (Queue.cmp e x).
  - specialize (IH x). destruct (Queue.extract x rest) as [m l]; simpl in *.
    by rewrite Permutation_swap, IH.
  - specialize (IH e). destruct (Queue.extract e rest) as [m l]; simpl in *.
    rewrite Permutation_swap, IH. apply Permutation_swap.
Qed.

Lemma extract_min e rest :
  Forall (λ x, evkey_le (ev_key (Queue.extract e rest).1) (ev_key x)) (e :: rest).
Proof.
  revert e. induction rest as [|x rest IH]; intros e; simpl.
  - constructor; [by right|constructor].
  - destruct (Queue.cmp e x) eqn:Hc.
    + apply cmp_true in Hc. specialize (IH x). destruct (Queue.extract x rest) as [m l]; simpl in *.
      apply Forall_cons in IH as [Hx IH]. constructor; [|by constructor].
      eapply evkey_le_trans; [done|by left].
    + apply cmp_false in Hc. specialize (IH e). destruct (Queue.extract e rest) as [m l]; simpl in *.
      apply Forall_cons in IH as [He IH]. constructor; [done|]. constructor; [|done].
      by eapply evkey_le_trans.
Qed.

(** What [pop_min] does: an event of the queue with the least key leaves it,
    flagged if its sequence number was cancelled. *)
Lemma pop_min_spec q :
  heap_ q ≠ [] →
  ∃ e q', Queue.pop_min q =
      (Ok (mkEvent (ev_time e) (ev_seq e) (ev_action e)
             (bool_decide (ev_seq e ∈ cancelled_ q) || ev_cancelled e)), q') ∧
    e :: heap_ q' ≡ₚ heap_ q ∧ Forall (λ x, evkey_le (ev_key e) (ev_key x)) (heap_ q) ∧
    cancelled_ q' = cancelled_ q ∖ {[ev_seq e]}.
Proof.
  intros Hne. unfold Queue.pop_min. destruct (heap_ q) as [|x rest] eqn:Hh; [done|].
  pose proof (extract_perm x rest) as Hp. pose proof (extract_min x rest) as Hm.
  destruct (Queue.extract x rest) as [e heap]; simpl in *. exists e.
  case_bool_decide as Hc.
  - eexists. split; [reflexivity|]. done.
  - exists (mkQueue heap (cancelled_ q)). split; [by destruct e|]. split_and!; [done..|].
    simpl. set_solver.
Qed.

Lemma peek_time_spec q :
  heap_ q ≠ [] →
  ∃ t e, Queue.peek_time q = (Ok t, q) ∧ e ∈ heap_ q ∧ ev_time e = t ∧
         Forall (λ x, t <= ev_time x) (heap_ q).
Proof.
  intros Hne. unfold Queue.peek_time. destruct (heap_ q) as [|x rest] eqn:Hh; [done|].
  pose proof (extract_perm x rest) as Hp. pose proof (extract_min x rest) as Hm.
  exists (ev_time (Queue.extract x rest).1), (Queue.extract x rest).1. split_and!; [done| |done|].
  - rewrite <-Hp. apply list_elem_of_here.
  - eapply Forall_impl; [done|]. intros y [[?|[? ?]]|[= ? ?]]; simpl in *; lia.
Qed.

End Facts.

(** ** Properties *)

(** [pop_min] on a queue that is not empty removes exactly one event, one
    with the least [(time, seq)] of the queue, keeps all others, and flags it
    as cancelled exactly if its id was cancelled, consuming that mark. *)
Theorem pop_min_least {A} (q : EventQueue A) (Hne : heap_ q ≠ [])
    (Hlive : Forall (λ x, ev_cancelled x = false) (heap_ q)) :
  ∃ e e' q', Queue.pop_min q = (Ok e', q') ∧ e :: heap_ q' ≡ₚ heap_ q ∧
    ev_key e' = ev_key e ∧ ev_action e' = ev_action e ∧
    ev_cancelled e' = bool_decide (ev_seq e ∈ cancelled_ q) ∧
    Forall (λ x, evkey_le (ev_key e) (ev_key x)) (heap_ q) ∧
    cancelled_ q' = cancelled_ q ∖ {[ev_seq e]}.
Proof.
  destruct (pop_min_spec q Hne) as (e & q' & Hp & Hperm & Hmin & Hc).
  eexists e, _, q'. split; [exact Hp|]. simpl. split_and!; [done..| |done|done].
  rewrite Forall_forall in Hlive. rewrite (Hlive e), orb_false_r; [done|].
  rewrite <-Hperm. apply list_elem_of_here.
Qed.

Lemma pop_min_least_witness :
  let q := mkQueue [mkEvent 30 0 1 false; mkEvent 20 1 2 false; mkEvent 20 2 3 false] {[1]} in
  (∃ e e' q', Queue.pop_min q = (Ok e', q') ∧ e :: heap_ q' ≡ₚ heap_ q ∧
    ev_key e' = ev_key e ∧ ev_action e' = ev_action e ∧
    ev_cancelled e' = bool_decide (ev_seq e ∈ cancelled_ q) ∧
    Forall (λ x, evkey_le (ev_key e) (ev_key x)) (heap_ q) ∧
    cancelled_ q' = cancelled_ q ∖ {[ev_seq e]}) ∧
  (Queue.pop_min q).1 = Ok (mkEvent 20 1 2 true).
Proof.
  intros q. split; [|vm_compute; reflexivity].
  apply (pop_min_least q); [done|]. by repeat (apply Forall_cons_2; [done|]); apply Forall_nil_2.
Defined.
