(* ===== verification/Simulator.v ===== *)
(** * The simulation engine: [src/sim/simulator.hpp/.cpp]

    One logical clock, one generator, one event queue and the FNV-1a
    fingerprint of what has fired.  An action is a value of type [A]; running
    it is the business of the world [W] the simulator is part of, so
    [process_one] and the loops are written over a world that holds a
    simulator and knows how to [perform] an action. *)

From S2P Require Import Prelude Types Prng EventQueue.

Definition kFnvOffset : Z := 14695981039346656037.
Definition kFnvPrime : Z := 1099511628211.

Record Simulator (A : Type) := mkSim {
  clock_ : SimTime;
  next_seq_ : Z;
  trace_hash_ : Z;
  prng_ : Prng;
  queue_ : EventQueue A;
}.
Arguments mkSim {A} _ _ _ _ _.
Arguments clock_ {A} _.
Arguments next_seq_ {A} _.
Arguments trace_hash_ {A} _.
Arguments prng_ {A} _.
Arguments queue_ {A} _.

Definition make_simulator {A} (seed : Z) : Simulator A :=
  mkSim 0 0 kFnvOffset (make_prng seed) empty_queue.

(** [fold] of [process_one]: [n] bytes of [v] into the hash. *)
Fixpoint fnv_bytes (n : nat) (v h : Z) : Z :=
  match n with
  | O => h
  | S n' => fnv_bytes n' (Z.shiftr v 8) (wrap64 (kFnvPrime * Z.lxor h (Z.land v 0xFF)))
  end.

Definition fold_hash (v h : Z) : Z := fnv_bytes 8 v h.

Module Sim.
Section Sim.
Context {A : Type}.

Definition now (s : Simulator A) : SimTime := clock_ s.

Definition on_prng {B} (m : M Prng B) : M (Simulator A) B := λ s,
  let '(r, g) := m (prng_ s) in
  (r, mkSim (clock_ s) (next_seq_ s) (trace_hash_ s) g (queue_ s)).

Definition on_queue {B} (m : M (EventQueue A) B) : M (Simulator A) B := λ s,
  let '(r, q) := m (queue_ s) in
  (r, mkSim (clock_ s) (next_seq_ s) (trace_hash_ s) (prng_ s) q).

Definition schedule_at (when : SimTime) (action : A) : M (Simulator A) EventId :=
  seq ← gets next_seq_;
  modify (λ s, mkSim (clock_ s) (wrap64 (seq + 1)) (trace_hash_ s) (prng_ s) (queue_ s));;
  on_queue (Queue.push when seq action).

Definition schedule (delay : SimTime) (action : A) : M (Simulator A) EventId :=
  now ← gets clock_; schedule_at (wrap64 (now + delay)) action.

Definition cancel (id : EventId) : M (Simulator A) unit := on_queue (Queue.cancel id).

Definition random_range (fuel : nat) (lo hi : Z) : M (Simulator A) Z := on_prng (Rng.range fuel lo hi).

Definition set_clock (t : SimTime) : M (Simulator A) unit :=
  modify (λ s, mkSim t (next_seq_ s) (trace_hash_ s) (prng_ s) (queue_ s)).

Definition set_hash (f : Z → Z) : M (Simulator A) unit :=
  modify (λ s, mkSim (clock_ s) (next_seq_ s) (f (trace_hash_ s)) (prng_ s) (queue_ s)).

(** [process_one] up to [e.action()]: the action to run, if any. *)
Definition take_one : M (Simulator A) (option A) :=
  e ← on_queue Queue.pop_min;
  set_clock (ev_time e);;
  if (ev_cancelled e : bool) then mret None
  else
    set_hash (fold_hash (ev_time e));;
    set_hash (fold_hash (ev_seq e));;
    mret (Some (ev_action e)).

Context {W : Type} (sim : W → Simulator A) (set_sim : Simulator A → W → W)
  (perform : A → M W unit).

Definition on_sim {B} (m : M (Simulator A) B) : M W B := λ w,
  let '(r, s) := m (sim w) in (r, set_sim s w).

Definition process_one : M W unit :=
  a ← on_sim take_one;
  match (a : option A) with Some a => perform a | None => mret tt end.

(** [while (!queue_.empty()) process_one()] *)
Fixpoint run_until_idle (fuel : nat) : M W unit :=
  q ← gets (λ w, queue_ (sim w));
  if Queue.empty q then mret tt
  else
    match fuel with
    | O => throw out_of_fuel
    | S fuel' => process_one;; run_until_idle fuel'
    end.

Fixpoint run_loop (fuel : nat) (deadline : SimTime) : M W unit :=
  q ← gets (λ w, queue_ (sim w));
  if Queue.empty q then mret tt
  else
    t ← on_sim (on_queue Queue.peek_time);
    if negb (t <=? deadline) then mret tt
    else
      match fuel with
      | O => throw out_of_fuel
      | S fuel' => process_one;; run_loop fuel' deadline
      end.

Definition run_for (fuel : nat) (duration : SimTime) : M W unit :=
  now ← gets (λ w, clock_ (sim w));
  let deadline := wrap64 (now + duration) in
  run_loop fuel deadline;;
  on_sim (set_clock deadline).

End Sim.
End Sim.

(** ** Time and order

    [after k s]: everything queued comes after the event with key [k], which
    fired last; sequence numbers are fresh. *)
Section Order.
Context {A : Type}.
Implicit Types (s : Simulator A).

Record after (k : evkey) s : Prop := {
  af_clock : k.1 <= clock_ s;
  af_seq : k.2 < next_seq_ s;
  af_events : ∀ e, e ∈ heap_ (queue_ s) →
    evkey_lt k (ev_key e) ∧ clock_ s <= ev_time e ∧ ev_seq e < next_seq_ s;
  af_distinct : NoDup (ev_seq <$> heap_ (queue_ s));
}.

(** The simulator as an action may leave it: events were added, none in the
    past. *)
Record extended s s' : Prop := {
  ex_clock : clock_ s' = clock_ s;
  ex_hash : trace_hash_ s' = trace_hash_ s;
  ex_seq : next_seq_ s <= next_seq_ s';
  ex_events : ∃ new, heap_ (queue_ s') = new ++ heap_ (queue_ s) ∧
    (∀ e, e ∈ new → clock_ s <= ev_time e ∧ next_seq_ s <= ev_seq e < next_seq_ s') ∧
    NoDup (ev_seq <$> new);
}.

#[global] Instance extended_preorder : PreOrder extended.
Proof.
  split.
  - intros s. split; [done..|]. exists []. split_and!; [done|set_solver|constructor].
  - intros s1 s2 s3 [C1 H1 S1 (n1 & E1 & F1 & D1)] [C2 H2 S2 (n2 & E2 & F2 & D2)].
    split; [congruence..|lia|]. exists (n2 ++ n1).
    rewrite E2, E1, app_assoc. split_and!; [done| |].
    + intros e [He|He]%elem_of_app; [destruct (F2 e He)|destruct (F1 e He)]; lia.
    + rewrite fmap_app. apply NoDup_app. split_and!; [done| |done].
      intros q (e & -> & He)%list_elem_of_fmap (e' & Hq & He')%list_elem_of_fmap.
      destruct (F2 e He), (F1 e' He'). lia.
Qed.

Lemma schedule_eq delay a s :
  Sim.schedule delay a s =
    (Ok (next_seq_ s),
     mkSim (clock_ s) (wrap64 (next_seq_ s + 1)) (trace_hash_ s) (prng_ s)
       (mkQueue (mkEvent (wrap64 (clock_ s + delay)) (next_seq_ s) a false :: heap_ (queue_ s))
          (cancelled_ (queue_ s)))).
Proof. done. Qed.

Lemma schedule_extended delay a s :
  clock_ s + delay < 2 ^ 64 → 0 <= clock_ s → 0 <= delay → 0 <= next_seq_ s < UINT64_MAX →
  extended s (Sim.schedule delay a s).2.
Proof.
  intros Hc Hc0 Hd Hs. unfold Sim.schedule, Sim.schedule_at, mbind, M_bind, gets, modify. simpl.
  unfold UINT64_MAX in Hs. rewrite !wrap64_id by (unfold is_u64; lia).
  split; simpl; [done..|lia|]. eexists [_]. split_and!; [done| |].
  - intros e ->%list_elem_of_singleton. simpl. lia.
  - apply NoDup_singleton.
Qed.

Lemma cancel_extended id s : extended s (Sim.cancel id s).2.
Proof. split; simpl; [done..|]. exists []. split_and!; [done|set_solver|constructor]. Qed.

Lemma random_extended fuel lo hi s : extended s (Sim.random_range fuel lo hi s).2.
Proof.
  unfold Sim.random_range, Sim.on_prng. destruct (Rng.range fuel lo hi (prng_ s)).
  split; simpl; [done..|]. exists []. split_and!; [done|set_solver|constructor].
Qed.

Lemma after_extended k s s' : after k s → extended s s' → after k s'.
Proof.
  intros [Hc Hq He Hd] [Ec Eh Es (new & En & Ef & Dn)]. split; [lia..| |].
  - rewrite En, Ec. intros e [Hin|Hin]%elem_of_app.
    + destruct (Ef e Hin). split_and!; [|lia..].
      unfold evkey_lt, ev_key; simpl. lia.
    + destruct (He e Hin) as (? & ? & ?). split_and!; [done|done|lia].
  - rewrite En, fmap_app. apply NoDup_app. split_and!; [done| |done].
    intros q (e & -> & Hin)%list_elem_of_fmap (e' & Hq' & Hin')%list_elem_of_fmap.
    destruct (Ef e Hin), (He e' Hin') as (_ & _ & ?). lia.
Qed.

(** [pops s e q]: [e] has the least key of the events queued in [s], and [q] is
    the queue without it. *)
Record pops s (e : Event A) (q : EventQueue A) : Prop := {
  po_heap : e :: heap_ q ≡ₚ heap_ (queue_ s);
  po_least : Forall (λ x, evkey_le (ev_key e) (ev_key x)) (heap_ (queue_ s));
  po_cancelled : cancelled_ q = cancelled_ (queue_ s) ∖ {[ev_seq e]};
}.

(** Was the event cancelled before its time came? *)
Definition dropped s (e : Event A) : bool :=
  bool_decide (ev_seq e ∈ cancelled_ (queue_ s)) || ev_cancelled e.

(** The simulator when the event's turn has come: the clock at its time, and
    its key in the fingerprint unless it was cancelled. *)
Definition popped s (e : Event A) (q : EventQueue A) : Simulator A :=
  mkSim (ev_time e) (next_seq_ s)
    (if dropped s e then trace_hash_ s
     else fold_hash (ev_seq e) (fold_hash (ev_time e) (trace_hash_ s)))
    (prng_ s) q.

(** Taking the next event. *)
Lemma take_one_spec s :
  heap_ (queue_ s) ≠ [] →
  ∃ e q, pops s e q ∧
    Sim.take_one s = (Ok (if dropped s e then None else Some (ev_action e)), popped s e q).
Proof.
  intros Hne. destruct (pop_min_spec (queue_ s) Hne) as (e & q & Hp & Hperm & Hmin & Hcan).
  exists e, q. split; [done|]. unfold Sim.take_one, Sim.on_queue, mbind, M_bind. rewrite Hp. simpl.
  unfold popped. fold (dropped s e). by destruct (dropped s e).
Qed.

Lemma pops_in s e q : pops s e q → e ∈ heap_ (queue_ s).
Proof. intros [<- _ _]. apply list_elem_of_here. Qed.

Lemma after_popped k s e q :
  after k s → pops s e q →
  evkey_lt k (ev_key e) ∧ clock_ s <= ev_time e ∧ after (ev_key e) (popped s e q).
Proof.
  intros [Hc Hq He Hd] Hpop. destruct (He e (pops_in _ _ _ Hpop)) as (Hk & Hclk & Hseq).
  destruct Hpop as [Hperm Hmin _]. split_and!; [done..|]. split; simpl; [lia..| |].
  - intros x Hx. assert (x ∈ heap_ (queue_ s)) as Hx' by (rewrite <-Hperm; by apply list_elem_of_further).
    rewrite Forall_forall in Hmin. destruct (Hmin x Hx') as [Hlt|Heq].
    + split_and!; [done| |apply (He x Hx')]. destruct Hlt as [?|[? ?]]; simpl in *; lia.
    + exfalso. rewrite <-Hperm in Hd. simpl in Hd. apply NoDup_cons in Hd as [Hni _].
      apply Hni, list_elem_of_fmap. exists x. split; [|done]. by injection Heq.
  - rewrite <-Hperm in Hd. simpl in Hd. by apply NoDup_cons in Hd as [_ ?].
Qed.

End Order.

(** ** Running a world

    A world promises that its actions go through the simulator's interface:
    they schedule, cancel and draw, and put nothing in the past.  An action
    schedules at most [sw_burst] events, each at most [sw_delay] ahead; with
    that much room below 2^64 neither the clock nor the sequence numbers wrap
    around. *)
Class SimWorld (W A : Type) := {
  sw_sim : W → Simulator A;
  sw_set : Simulator A → W → W;
  sw_perform : A → M W unit;
  sw_burst : Z;
  sw_delay : SimTime;
  sw_lens s w : sw_sim (sw_set s w) = s;
  sw_same w : sw_set (sw_sim w) w = w;
  sw_extends a w :
    0 <= clock_ (sw_sim w) → clock_ (sw_sim w) + sw_delay < 2 ^ 64 →
    0 <= next_seq_ (sw_sim w) → next_seq_ (sw_sim w) + sw_burst < 2 ^ 64 →
    extended (sw_sim w) (sw_sim (sw_perform a w).2) ∧
    next_seq_ (sw_sim (sw_perform a w).2) <= next_seq_ (sw_sim w) + sw_burst;
  sw_burst_pos : 0 <= sw_burst;
}.

(** The fingerprint of a list of fired events. *)
Definition hash_events (ks : list evkey) (h : Z) : Z :=
  fold_left (λ h k, fold_hash k.2 (fold_hash k.1 h)) ks h.

Section Run.
Context `{SimWorld W A}.
#[local] Opaque fold_hash.

Local Abbreviation process := (Sim.process_one sw_sim sw_set sw_perform).
Local Abbreviation loop := (Sim.run_loop sw_sim sw_set sw_perform).

(** A turn of the loop, as the source means it: the queued event of least key
    leaves the queue and the clock goes to its time.  If it was cancelled
    nothing else happens; otherwise its key enters the fingerprint and its
    action runs, on the world as it is then. *)
Inductive turn (w : W) (e : Event A) : result unit → W → Prop :=
| turn_dropped q :
    pops (sw_sim w) e q → dropped (sw_sim w) e = true →
    turn w e (Ok tt) (sw_set (popped (sw_sim w) e q) w)
| turn_fired q r w' :
    pops (sw_sim w) e q → dropped (sw_sim w) e = false →
    sw_perform (ev_action e) (sw_set (popped (sw_sim w) e q) w) = (r, w') →
    turn w e r w'.

(** The turns up to the deadline [d], each event with whether it fired.  The
    last action may throw; [turns_cut] is a run that the bound on the number of
    turns stops while an event is due. *)
Inductive turns (d : SimTime) : W → list (evkey * bool) → result unit → W → Prop :=
| turns_done w :
    (∀ e, e ∈ heap_ (queue_ (sw_sim w)) → d < ev_time e) → turns d w [] (Ok tt) w
| turns_cut w e :
    e ∈ heap_ (queue_ (sw_sim w)) → ev_time e <= d → turns d w [] (Throw out_of_fuel) w
| turns_thrown w e x w' :
    ev_time e <= d → turn w e (Throw x) w' → turns d w [(ev_key e, true)] (Throw x) w'
| turns_next w e w1 ks r w' :
    ev_time e <= d → turn w e (Ok tt) w1 → turns d w1 ks r w' →
    turns d w ((ev_key e, negb (dropped (sw_sim w) e)) :: ks) r w'.

(** The keys of the events that fired. *)
Definition live (ks : list (evkey * bool)) : list evkey := (filter (λ x, x.2 = true) ks).*1.

(** Order and fingerprint of the turns between two worlds: the events in
    strictly increasing order of [(time, seq)], after [k], none before the
    clock or after [d]; the hash is that of those that fired. *)
Record fired (k : evkey) (d : SimTime) (w w' : W) (ks : list (evkey * bool)) : Prop := {
  fi_sorted : StronglySorted evkey_lt (k :: ks.*1);
  fi_time : Forall (λ x, clock_ (sw_sim w) <= x.1 <= d) ks.*1;
  fi_hash : trace_hash_ (sw_sim w') = hash_events (live ks) (trace_hash_ (sw_sim w));
  fi_clock : clock_ (sw_sim w) <= clock_ (sw_sim w') <= Z.max d (clock_ (sw_sim w));
}.

Lemma sorted_pair k x : evkey_lt k x → StronglySorted evkey_lt [k; x].
Proof. intros Hk. apply SSorted_cons; [by repeat constructor|by apply Forall_singleton]. Qed.

Lemma sorted_weaken k k' ks :
  evkey_lt k k' → StronglySorted evkey_lt (k' :: ks) → StronglySorted evkey_lt (k :: ks).
Proof.
  intros Hk Hs. apply StronglySorted_inv in Hs as [Hs Hf]. constructor; [done|].
  eapply Forall_impl; [done|]. intros x Hx. by etrans.
Qed.

(** The clock, the deadline [d] and the sequence numbers have room for [n]
    more actions. *)
Definition room (n : Z) (d : SimTime) (w : W) : Prop :=
  0 <= clock_ (sw_sim w) ∧ d + sw_delay < 2 ^ 64 ∧
  0 <= next_seq_ (sw_sim w) ∧ next_seq_ (sw_sim w) + n * sw_burst < 2 ^ 64.

(** A turn keeps the order and the fingerprint. *)
Lemma turn_spec n k d w e r w' :
  0 <= n → room (n + 1) d w → after k (sw_sim w) → ev_time e <= d → turn w e r w' →
  evkey_lt k (ev_key e) ∧ after (ev_key e) (sw_sim w') ∧ room n d w' ∧
  fired k d w w' [(ev_key e, negb (dropped (sw_sim w) e))].
Proof.
  intros Hn (R1 & R2 & R3 & R4) Ha Hd Ht. pose proof sw_burst_pos as Hbp.
  destruct Ht as [q Hpop Hdr|q r w' Hpop Hdr Hp];
    destruct (after_popped k _ e q Ha Hpop) as (Hk & Hclk & Ha').
  - unfold room. rewrite sw_lens, Hdr. cbn [popped clock_ next_seq_]. split_and!; [done..|lia|lia|lia|nia|].
    split; [by apply sorted_pair|apply Forall_singleton; simpl; lia| |rewrite sw_lens; simpl; lia].
    rewrite sw_lens. unfold popped. by rewrite Hdr.
  - pose proof (sw_extends (ev_action e) (sw_set (popped (sw_sim w) e q) w)) as Hx.
    rewrite sw_lens, Hp in Hx. cbn [popped clock_ next_seq_ snd] in Hx. destruct Hx as [Hx Hb]; [nia..|].
    pose proof (after_extended _ _ _ Ha' Hx). destruct Hx as [Xc Xh Xs _]. cbn [popped clock_ next_seq_] in Xc, Xs.
    rewrite Hdr. unfold room. rewrite Xc. split_and!; [done..|lia|lia|lia|nia|].
    split; [by apply sorted_pair|apply Forall_singleton; simpl; lia| |lia].
    rewrite Xh. unfold popped. by rewrite Hdr.
Qed.

(** [process_one] makes a turn. *)
Lemma process_spec w :
  heap_ (queue_ (sw_sim w)) ≠ [] → ∃ e, turn w e (process w).1 (process w).2.
Proof.
  intros Hne. destruct (take_one_spec _ Hne) as (e & q & Hpop & Ht). exists e.
  unfold Sim.process_one, Sim.on_sim, mbind, M_bind. rewrite Ht.
  destruct (dropped (sw_sim w) e) eqn:Hdr; [by apply turn_dropped|].
  eapply turn_fired; [done..|]. apply surjective_pairing.
Qed.

Lemma empty_spec (q : EventQueue A) : Queue.empty q = true ↔ heap_ q = [].
Proof. unfold Queue.empty. by destruct (heap_ q). Qed.

Lemma live_app ks ks' : live (ks ++ ks') = live ks ++ live ks'.
Proof. unfold live. by rewrite filter_app, fmap_app. Qed.

Lemma hash_events_app ks ks' h : hash_events (ks ++ ks') h = hash_events ks' (hash_events ks h).
Proof. apply fold_left_app. Qed.

Lemma fired_trans k k' b d w1 w2 w3 ks :
  fired k d w1 w2 [(k', b)] → fired k' d w2 w3 ks → fired k d w1 w3 ((k', b) :: ks).
Proof.
  intros [S1 T1 H1 C1] [S2 T2 H2 C2]. apply StronglySorted_inv in S1 as [_ Hk].
  apply Forall_cons in Hk as [Hk _], T1 as [T1 _]. cbn [fst] in Hk, T1. split.
  - cbn [fmap list_fmap fst]. constructor; [done|]. apply StronglySorted_inv in S2 as [_ Hf].
    apply Forall_cons. split; [done|]. eapply Forall_impl; [exact Hf|]. intros x Hx. by etrans.
  - apply Forall_cons. split; [done|]. eapply Forall_impl; [exact T2|]. simpl. lia.
  - rewrite H2, H1, <-hash_events_app. f_equal. change ((k', b) :: ks) with ([(k', b)] ++ ks).
    by rewrite live_app.
  - lia.
Qed.

Lemma fired_nil k d w w' :
  trace_hash_ (sw_sim w') = trace_hash_ (sw_sim w) → clock_ (sw_sim w') = clock_ (sw_sim w) →
  fired k d w w' [].
Proof. intros Hh Hc. split; [repeat constructor|constructor|done|lia]. Qed.

Lemma turns_fired d w ks r w' :
  turns d w ks r w' → ∀ n k, Z.of_nat (length ks) <= n → room n d w → after k (sw_sim w) →
  fired k d w w' ks ∧ ∃ k', after k' (sw_sim w').
Proof.
  induction 1 as [w Hw|w e He Hd|w e x w' Hd Ht|w e w1 ks r w' Hd Ht _ IH]; intros n k Hn Hroom Ha;
    [by split; [apply fired_nil|exists k]..| |].
  - destruct (turn_spec (n - 1) k d w e (Throw x) w') as (Hk & Ha' & _ & F); [simpl in Hn; lia| |done..|].
    { by replace (n - 1 + 1) with n by lia. }
    split; [|by exists (ev_key e)]. replace true with (negb (dropped (sw_sim w) e)); [done|].
    inversion Ht as [|? ? ? ? Hdr]; subst. by rewrite Hdr.
  - cbn [length] in Hn. destruct (turn_spec (n - 1) k d w e (Ok tt) w1) as (Hk & Ha' & Hr & F); [lia| |done..|].
    { by replace (n - 1 + 1) with n by lia. }
    destruct (IH (n - 1) (ev_key e)) as [F' Hk']; [lia|done..|]. split; [by eapply fired_trans|done].
Qed.

Lemma loop_idle fuel d w : heap_ (queue_ (sw_sim w)) = [] → loop fuel d w = (Ok tt, w).
Proof. intros Hh. destruct fuel; cbn; unfold gets, mbind, M_bind; by apply empty_spec in Hh as ->. Qed.

(** One test of the loop's condition on a queue that is not empty. *)
Lemma loop_busy fuel d w :
  heap_ (queue_ (sw_sim w)) ≠ [] →
  ∃ e, e ∈ heap_ (queue_ (sw_sim w)) ∧
    Forall (λ x, ev_time e <= ev_time x) (heap_ (queue_ (sw_sim w))) ∧
    loop fuel d w =
      if negb (ev_time e <=? d) then (Ok tt, w)
      else match fuel with
           | O => (Throw out_of_fuel, w)
           | S fuel' => (process;; loop fuel' d) w
           end.
Proof.
  intros Hne. destruct (peek_time_spec _ Hne) as (t & e & Hp & Hin & <- & Hmin).
  assert (Queue.empty (queue_ (sw_sim w)) = false) as Hemp.
  { destruct (Queue.empty _) eqn:Hb; [|done]. by apply empty_spec in Hb. }
  exists e. split_and!; [done..|].
  assert (sw_set (mkSim (clock_ (sw_sim w)) (next_seq_ (sw_sim w)) (trace_hash_ (sw_sim w))
            (prng_ (sw_sim w)) (queue_ (sw_sim w))) w = w) as Hs.
  { rewrite <-(sw_same w) at 7. by destruct (sw_sim w). }
  destruct fuel; cbn [Sim.run_loop]; unfold mbind at 1, M_bind at 1, gets; rewrite Hemp;
    unfold mbind at 1, M_bind at 1, Sim.on_sim, Sim.on_queue; rewrite Hp, Hs;
    by destruct (negb (ev_time e <=? d)).
Qed.

(** The loop makes turns until none is due. *)
Lemma loop_turns fuel d w :
  ∃ ks, turns d w ks (loop fuel d w).1 (loop fuel d w).2 ∧ (length ks <= fuel)%nat.
Proof.
  revert w. induction fuel as [|fuel IH]; intros w;
    (destruct (decide (heap_ (queue_ (sw_sim w)) = [])) as [Hh|Hne];
     [exists []; rewrite loop_idle by done; cbn [fst snd]; split; [apply turns_done; rewrite Hh; set_solver|simpl; lia]|]);
    match goal with |- context [loop ?f d w] =>
      destruct (loop_busy f d w Hne) as (e & Hin & Hmin & ->) end;
    destruct (Z.leb_spec (ev_time e) d) as [Hle|Hgt]; cbn [negb fst snd].
  2, 4: exists []; split; [|simpl; lia]; apply turns_done; intros x Hx; rewrite Forall_forall in Hmin;
    specialize (Hmin x Hx); lia.
  - exists []. split; [by eapply turns_cut|done].
  - destruct (process_spec w Hne) as (e' & Ht).
    assert (ev_time e' <= d) as Hd.
    { assert (∃ q, pops (sw_sim w) e' q) as (q & [_ Hl _]) by (destruct Ht; by eexists).
      rewrite Forall_forall in Hl. destruct (Hl e Hin) as [[?|[? ?]]|[= ? ?]]; simpl in *; lia. }
    unfold mbind, M_bind. destruct (process w) as [[[]|x] w1]; cbn [fst snd] in *.
    + destruct (IH w1) as (ks & Hks & Hlen). eexists (_ :: ks). split; [by eapply turns_next|simpl; lia].
    + exists [(ev_key e', true)]. split; [by apply turns_thrown|simpl; lia].
Qed.

(** What [run_for] does: the turns, then the clock to the deadline. *)
Lemma run_for_spec fuel duration w :
  let d := clock_ (sw_sim w) + duration in
  is_u64 d →
  ∃ ks r w1, turns d w ks r w1 ∧ (length ks <= fuel)%nat ∧
    Sim.run_for sw_sim sw_set sw_perform fuel duration w =
      (r, match r with
          | Ok _ => sw_set (mkSim d (next_seq_ (sw_sim w1)) (trace_hash_ (sw_sim w1))
                              (prng_ (sw_sim w1)) (queue_ (sw_sim w1))) w1
          | Throw _ => w1
          end).
Proof.
  intros d Hd. unfold Sim.run_for, gets. unfold mbind at 1, M_bind at 1. rewrite wrap64_id by done. fold d.
  destruct (loop_turns fuel d w) as (ks & Hks & Hlen). exists ks, (loop fuel d w).1, (loop fuel d w).2.
  split_and!; [done..|]. unfold mbind, M_bind. by destruct (loop fuel d w) as [[[]|x] w1].
Qed.

Lemma turns_left d w ks w' :
  turns d w ks (Ok tt) w' → ∀ e, e ∈ heap_ (queue_ (sw_sim w')) → d < ev_time e.
Proof. intros Ht. remember (Ok tt) as r eqn:Hr. induction Ht; [done|discriminate Hr|discriminate Hr|by apply IHHt]. Qed.

End Run.

(** ** Properties *)

(** C38: the simulation runs in order.  From a state in which everything queued
    lies after the event [k], [run_for(duration)] makes turns: each takes the
    queued event of least [(time, seq)] out, moves the clock to its time, and,
    unless the event was cancelled, folds its key into the FNV-1a fingerprint
    and runs its action.  The events taken are in strictly increasing order,
    none before the clock or after the deadline; the fingerprint is that of
    exactly the events whose actions ran.  When it returns, no event up to the
    deadline is left and the clock is at the deadline. *)
Theorem run_for_in_order {W A} `{SimWorld W A} (fuel : nat) (duration : SimTime) (k : evkey) (w : W)
    (Hafter : after k (sw_sim w)) (Hdur : 0 <= duration) (Hdel : 0 <= sw_delay)
    (Hroom : room (Z.of_nat fuel) (clock_ (sw_sim w) + duration) w) :
  let d := clock_ (sw_sim w) + duration in
  ∃ ks r w1 w',
    Sim.run_for sw_sim sw_set sw_perform fuel duration w = (r, w') ∧
    turns d w ks r w1 ∧ fired k d w w1 ks ∧ trace_hash_ (sw_sim w') = trace_hash_ (sw_sim w1) ∧
    (r = Ok tt → clock_ (sw_sim w') = d ∧ queue_ (sw_sim w') = queue_ (sw_sim w1) ∧
      ∀ e, e ∈ heap_ (queue_ (sw_sim w')) → d < ev_time e).
Proof.
  intros d. pose proof Hroom as (Hc & Hlt & _ & _).
  destruct (run_for_spec fuel duration w) as (ks & r & w1 & Ht & Hlen & E); [unfold is_u64; lia|].
  destruct (turns_fired _ _ _ _ _ Ht (Z.of_nat fuel) k) as [F _]; [lia|done..|].
  eexists ks, r, w1, _. split_and!; [exact E|done|done|by destruct r; rewrite ?sw_lens|].
  intros ->. rewrite sw_lens. split_and!; [done..|]. by eapply turns_left.
Qed.

(** A world of one periodic timer, like a leader's heartbeat. *)
Definition tick (period : Z) : M (Simulator Z) unit := Sim.schedule 50000 period;; mret tt.

Lemma tick_extends a (w : Simulator Z) :
  0 <= clock_ w → clock_ w + 50000 < 2 ^ 64 → 0 <= next_seq_ w → next_seq_ w + 1 < 2 ^ 64 →
  extended w (tick a w).2 ∧ next_seq_ (tick a w).2 <= next_seq_ w + 1.
Proof.
  intros H1 H2 H3 H4. split.
  - apply (schedule_extended 50000 a w); unfold UINT64_MAX; lia.
  - unfold tick, Sim.schedule, Sim.schedule_at, mbind, M_bind, gets, modify; simpl.
    rewrite wrap64_id; unfold is_u64; lia.
Qed.

#[local] Instance ticker : SimWorld (Simulator Z) Z := {|
  sw_sim w := w;
  sw_set s _ := s;
  sw_perform := tick;
  sw_burst := 1;
  sw_delay := 50000;
  sw_lens s w := eq_refl;
  sw_same w := eq_refl;
  sw_extends := tick_extends;
  sw_burst_pos := ltac:(done);
|}.

(** The event of sequence number 1 is scheduled and cancelled: it is taken at
    its time and does not fire. *)
Definition ticking : Simulator Z :=
  ((Sim.schedule 50000 7;; i ← Sim.schedule 60000 8; Sim.cancel i) (make_simulator 1)).2.

Lemma run_for_in_order_witness :
  (let d := clock_ (sw_sim ticking) + 160000 in
   ∃ ks r w1 w',
    Sim.run_for sw_sim sw_set sw_perform 10 160000 ticking = (r, w') ∧
    turns d ticking ks r w1 ∧ fired (0, -1) d ticking w1 ks ∧
    trace_hash_ (sw_sim w') = trace_hash_ (sw_sim w1) ∧
    (r = Ok tt → clock_ (sw_sim w') = d ∧ queue_ (sw_sim w') = queue_ (sw_sim w1) ∧
      ∀ e, e ∈ heap_ (queue_ (sw_sim w')) → d < ev_time e)) ∧
  (Sim.run_for sw_sim sw_set sw_perform 10 160000 ticking).1 = Ok tt ∧
  trace_hash_ (Sim.run_for sw_sim sw_set sw_perform 10 160000 ticking).2 =
    hash_events [(50000, 0); (100000, 2); (150000, 3)] kFnvOffset.
Proof.
  split; [|split; vm_compute; reflexivity].
  assert (after (0, -1) (sw_sim ticking)) as Ha.
  { assert (heap_ (queue_ ticking) = [mkEvent 60000 1 8 false; mkEvent 50000 0 7 false]) as Hh by reflexivity.
    split; [by vm_compute..| |].
    - cbn [sw_sim ticker]. rewrite Hh. intros e [->| ->%list_elem_of_singleton]%elem_of_cons;
        (split_and!; [left|..]; by vm_compute).
    - apply (bool_decide_eq_true_1 _). vm_compute. reflexivity. }
  assert (room (W := Simulator Z) (A := Z) (Z.of_nat 10) (clock_ (sw_sim ticking) + 160000) ticking)
    as Hr by (split_and!; by vm_compute).
  exact (run_for_in_order (A := Z) 10 160000 (0, -1) ticking Ha ltac:(done) ltac:(done) Hr).
Defined.
