(* ===== verification/Wal.v ===== *)
(** * The write-ahead log: [src/storage/wal.hpp/.cpp]

    Command serialisation, CRC-32C, record framing and replay. *)

From S2P Require Import Prelude Codec DurableStore Types.

(** ** CRC-32C *)

(** [crc = (crc >> 1) ^ (0x82F63B78U & -(crc & 1))], with the unsigned
    negation of 0 or 1. *)
Definition crc_step (crc : Z) : Z :=
  Z.lxor (Z.shiftr crc 1) (Z.land 0x82F63B78 (wrap32 (- Z.land crc 1))).

Definition crc_byte (crc b : Z) : Z := Nat.iter 8 crc_step (Z.lxor crc b).

Definition crc32c (l : bytes) : Z :=
  Z.lxor (fold_left crc_byte l 0xFFFFFFFF) 0xFFFFFFFF.

(** ** Commands *)

(** [enum class CmdTag : uint8_t] *)
Definition tag_Put : Z := 1.
Definition tag_Delete : Z := 2.
Definition tag_Cas : Z := 3.
Definition tag_Get : Z := 4.
Definition tag_AddServer : Z := 5.
Definition tag_RemoveServer : Z := 6.

Definition encode_command (cmd : Command) : bytes :=
  match cmd with
  | CmdPut key value => Enc.u8 tag_Put ++ Enc.str key ++ Enc.str value
  | CmdDelete key => Enc.u8 tag_Delete ++ Enc.str key
  | CmdCas key expected value =>
      Enc.u8 tag_Cas ++ Enc.str key ++ Enc.str expected ++ Enc.str value
  | CmdGet key => Enc.u8 tag_Get ++ Enc.str key
  | CmdAddServer id => Enc.u8 tag_AddServer ++ Enc.u32 id
  | CmdRemoveServer id => Enc.u8 tag_RemoveServer ++ Enc.u32 id
  end.

Definition unknown_tag : exn := runtime_error "WAL: unknown command tag".

Definition decode_command : M bytes Command :=
  tag ← Dec.u8;
  if tag =? tag_Put then
    key ← Dec.str; val ← Dec.str; mret (CmdPut key val)
  else if tag =? tag_Delete then
    key ← Dec.str; mret (CmdDelete key)
  else if tag =? tag_Cas then
    key ← Dec.str; exp ← Dec.str; val ← Dec.str; mret (CmdCas key exp val)
  else if tag =? tag_Get then
    key ← Dec.str; mret (CmdGet key)
  else if tag =? tag_AddServer then
    id ← Dec.u32; mret (CmdAddServer id)
  else if tag =? tag_RemoveServer then
    id ← Dec.u32; mret (CmdRemoveServer id)
  else throw unknown_tag.

(** ** [Wal] over a [DurableStore] *)
Module Wal.

(** The record of one command: [length:u32][payload][crc32:u32]. *)
Definition frame (cmd : Command) : bytes :=
  let payload := encode_command cmd in
  Enc.u32 (wrap32 (size_z payload)) ++ payload ++ Enc.u32 (crc32c payload).

Definition append (cmd : Command) (store : DurableStore) : DurableStore :=
  let payload := encode_command cmd in
  let len := wrap32 (size_z payload) in
  let crc := crc32c payload in
  let store := Mem.append (Enc.u32 len) store in
  let store := Mem.append payload store in
  Mem.append (Enc.u32 crc) store.

Definition flush (store : DurableStore) : DurableStore := Mem.flush store.

(** The loop of [replay] over the bytes in [p, end).  Every round consumes
    at least the 4-byte length field, so the number of bytes bounds it. *)
Fixpoint replay_loop (fuel : nat) (p : bytes) : list Command :=
  match fuel with
  | O => []
  | S fuel' =>
      if size_z p <=? 0 then []
      else if size_z p <? 4 then []
      else
        match Dec.u32 (take 4 p) with
        | (Throw _, _) => []
        | (Ok len, _) =>
            let p := drop 4 p in
            if size_z p <? len + 4 then []
            else
              let payload := take (Z.to_nat len) p in
              let p := drop (Z.to_nat len) p in
              match Dec.u32 (take 4 p) with
              | (Throw _, _) => []
              | (Ok stored_crc, _) =>
                  let p := drop 4 p in
                  if negb (crc32c payload =? stored_crc) then []
                  else
                    match decode_command payload with
                    | (Ok cmd, _) => cmd :: replay_loop fuel' p
                    | (Throw _, _) => []
                    end
              end
        end
  end.

Definition replay (store : DurableStore) : list Command :=
  let p := Mem.read_durable store in replay_loop (length p) p.

End Wal.

(** ** Round trip of commands *)

(** The strings and ids of a command fit their fields. *)
Definition cmd_fits (cmd : Command) : Prop :=
  match cmd with
  | CmdPut k v => str_fits k ∧ str_fits v
  | CmdDelete k | CmdGet k => str_fits k
  | CmdCas k e v => str_fits k ∧ str_fits e ∧ str_fits v
  | CmdAddServer i | CmdRemoveServer i => is_u32 i
  end.

Lemma is_u8_const v : (0 <=? v) && (v <? 256) = true → is_u8 v.
Proof. unfold is_u8. intros [?%Z.leb_le ?%Z.ltb_lt]%andb_true_iff. lia. Qed.

Lemma reads_tag t : (0 <=? t) && (t <? 256) = true → reads Dec.u8 (Enc.u8 t) t.
Proof. intros. by apply reads_u8, is_u8_const. Qed.

#[export] Hint Extern 1 (reads Dec.u8 (Enc.u8 _) _) => apply reads_tag; reflexivity : codec.

Lemma reads_command cmd : cmd_fits cmd → reads decode_command (encode_command cmd) cmd.
Proof.
  destruct cmd; cbn [encode_command cmd_fits]; intros; destruct_and?;
    unfold decode_command;
    (eapply reads_bind; [solve [eauto with codec]|]); cbn -[app Enc.str Enc.u32];
    reads_fields.
Qed.

Lemma encode_command_ok cmd : bytes_ok (encode_command cmd).
Proof. destruct cmd; cbn [encode_command]; auto 10 with codec. Qed.
#[export] Hint Resolve reads_command encode_command_ok : codec.

Lemma safe_decode_command : dec_safe decode_command.
Proof.
  unfold decode_command. apply safe_bind; [apply safe_u8|]. intros tag.
  repeat case_match; eauto 10 with safe.
Qed.
#[export] Hint Resolve safe_decode_command : safe.

(** ** Replay *)

Lemma crc_step_range crc : is_u32 crc → is_u32 (crc_step crc).
Proof.
  intros Hc. apply lxor_range; [lia| |].
  - apply shiftr_range; [lia..|done].
  - apply land_range; [lia|]. apply wrap32_range.
Qed.

Lemma crc_iter_range n crc : is_u32 crc → is_u32 (Nat.iter n crc_step crc).
Proof. intros Hc. induction n as [|n IH]; [done|]. by apply crc_step_range. Qed.

Lemma crc_byte_range crc b : is_u32 crc → is_u8 b → is_u32 (crc_byte crc b).
Proof.
  intros Hc Hb. apply crc_iter_range, lxor_range; [done..|].
  unfold is_u8 in Hb. split; [lia|]. apply Z.lt_trans with (2 ^ 8); [lia|done].
Qed.

Lemma crc_fold_range l crc : bytes_ok l → is_u32 crc → is_u32 (fold_left crc_byte l crc).
Proof.
  intros Hl. revert crc. induction Hl as [|b l Hb _ IH]; intros crc Hc; [done|].
  rewrite fold_left_cons. by apply IH, crc_byte_range.
Qed.

Lemma crc32c_range l : bytes_ok l → is_u32 (crc32c l).
Proof. intros Hl. apply lxor_range; [lia| |lia]. by apply crc_fold_range. Qed.

Lemma wal_append_data cmd s :
  Wal.append cmd s = Mem.append (Wal.frame cmd) s.
Proof.
  unfold Wal.append, Wal.frame, Mem.append; cbn [data_ flushed_end_]. by rewrite <-!app_assoc.
Qed.

(** A command whose record fits: its strings and its payload length. *)
Definition record_fits (cmd : Command) : Prop :=
  cmd_fits cmd ∧ is_u32 (size_z (encode_command cmd)).

(** The fields of an entry fit the widths of the encoding. *)
Definition entry_fits (e : LogEntry) : Prop :=
  is_u64 (e_term e) ∧ is_u64 (e_index e) ∧ record_fits (e_cmd e).

Lemma dec_u32_enc v : is_u32 v → Dec.u32 (Enc.u32 v) = (Ok v, []).
Proof. intros Hv. rewrite <-(app_nil_r (Enc.u32 v)). by apply reads_u32. Qed.

Lemma length_enc_u32 v : length (Enc.u32 v) = 4%nat.
Proof. done. Qed.

(** One record at the front: replay takes it and goes on behind it. *)
Lemma replay_loop_frame fuel cmd rest :
  record_fits cmd →
  Wal.replay_loop (S fuel) (Wal.frame cmd ++ rest) = cmd :: Wal.replay_loop fuel rest.
Proof.
  intros [Hc Hp]. cbn [Wal.replay_loop]. unfold Wal.frame.
  set (payload := encode_command cmd) in *. rewrite wrap32_id by done.
  rewrite <-!app_assoc.
  assert (Hsz : size_z (Enc.u32 (size_z payload) ++ payload ++ Enc.u32 (crc32c payload) ++ rest)
                = 8 + size_z payload + size_z rest)
    by (rewrite !size_z_app; unfold size_z; rewrite !length_enc_u32; lia).
  pose proof (size_z_nonneg payload). pose proof (size_z_nonneg rest).
  destruct (Z.leb_spec (size_z (Enc.u32 (size_z payload) ++ payload ++ Enc.u32 (crc32c payload) ++ rest)) 0); [lia|].
  destruct (Z.ltb_spec (size_z (Enc.u32 (size_z payload) ++ payload ++ Enc.u32 (crc32c payload) ++ rest)) 4); [lia|].
  rewrite (take_app_length' (Enc.u32 _)), (drop_app_length' (Enc.u32 _)) by done.
  rewrite dec_u32_enc by done.
  assert (Z.to_nat (size_z payload) = length payload) as -> by (unfold size_z; lia).
  rewrite (take_app_length payload), (drop_app_length payload).
  rewrite (take_app_length' (Enc.u32 _)), (drop_app_length' (Enc.u32 _)) by done.
  rewrite dec_u32_enc by apply crc32c_range, encode_command_ok.
  rewrite !size_z_app. replace (size_z (Enc.u32 (crc32c payload))) with 4 by done.
  destruct (Z.ltb_spec (size_z payload + (4 + size_z rest)) (size_z payload + 4)); [lia|].
  rewrite Z.eqb_refl; simpl.
  pose proof (reads_command cmd Hc []) as Hr. rewrite app_nil_r in Hr.
  unfold payload. by rewrite Hr.
Qed.

Definition frames (cmds : list Command) : bytes := concat (map Wal.frame cmds).

Lemma length_frame_pos cmd : (0 < length (Wal.frame cmd))%nat.
Proof. unfold Wal.frame. rewrite length_app, length_enc_u32. lia. Qed.

Lemma length_frames cmds : (length cmds <= length (frames cmds))%nat.
Proof.
  induction cmds as [|c cmds IH]; [done|]. unfold frames in *; cbn [map concat length].
  rewrite length_app. pose proof (length_frame_pos c). lia.
Qed.

Lemma replay_loop_frames cmds rest fuel :
  Forall record_fits cmds → (length cmds <= fuel)%nat →
  Wal.replay_loop fuel (frames cmds ++ rest) =
  cmds ++ Wal.replay_loop (fuel - length cmds) rest.
Proof.
  intros Hc. revert fuel. induction Hc as [|c cmds Hc _ IH]; intros fuel Hf.
  - by rewrite Nat.sub_0_r.
  - destruct fuel as [|fuel]; [simpl in Hf; lia|].
    unfold frames; cbn [map concat]. rewrite <-app_assoc.
    rewrite replay_loop_frame by done. rewrite IH by (simpl in Hf; lia). done.
Qed.

Lemma replay_loop_nil fuel : Wal.replay_loop fuel [] = [].
Proof. by destruct fuel. Qed.

Lemma prefix_take {A} (l t : list A) : t `prefix_of` l → t = take (length t) l.
Proof. intros [k ->]. by rewrite take_app_length. Qed.

(** A torn record at the end is not replayed. *)
Lemma replay_loop_torn fuel cmd t :
  record_fits cmd → t `prefix_of` Wal.frame cmd → t ≠ Wal.frame cmd →
  Wal.replay_loop fuel t = [].
Proof.
  intros [_ Hp] Ht Hne. destruct fuel as [|fuel]; [done|]. cbn [Wal.replay_loop].
  destruct (Z.leb_spec (size_z t) 0); [done|].
  destruct (Z.ltb_spec (size_z t) 4); [done|].
  pose proof (prefix_length _ _ Ht) as Hlen.
  assert (length t ≠ length (Wal.frame cmd)) as Hl.
  { intros Heq. apply Hne. rewrite (prefix_take _ _ Ht), Heq. apply firstn_all. }
  assert (take 4 t = Enc.u32 (wrap32 (size_z (encode_command cmd)))) as ->.
  { rewrite (prefix_take _ _ Ht), take_take, Nat.min_l by (unfold size_z in *; lia).
    unfold Wal.frame. by rewrite (take_app_length' (Enc.u32 _)). }
  rewrite wrap32_id, dec_u32_enc by done.
  destruct (Z.ltb_spec (size_z (drop 4 t)) (size_z (encode_command cmd) + 4)); [done|].
  exfalso. unfold Wal.frame in *. unfold size_z in *.
  rewrite !length_app, !length_enc_u32 in *. rewrite length_drop in *. lia.
Qed.

(** ** [Wal] refines a list of durable and a list of pending commands *)
Inductive wal_op :=
| WAppend (cmd : Command)
| WFlush
| WCrash.

Definition wal_run (op : wal_op) (s : DurableStore) : DurableStore :=
  match op with
  | WAppend cmd => Wal.append cmd s
  | WFlush => Wal.flush s
  | WCrash => Mem.crash s
  end.

Record wal_spec := WalSpec { ws_durable : list Command; ws_pending : list Command }.

Definition wal_spec_run (op : wal_op) (w : wal_spec) : wal_spec :=
  match op with
  | WAppend cmd => WalSpec (ws_durable w) (ws_pending w ++ [cmd])
  | WFlush => WalSpec (ws_durable w ++ ws_pending w) []
  | WCrash => WalSpec (ws_durable w) []
  end.

Definition op_fits (op : wal_op) : Prop :=
  match op with WAppend cmd => record_fits cmd | _ => True end.

Definition wal_repr (w : wal_spec) (s : DurableStore) : Prop :=
  Forall record_fits (ws_durable w) ∧
  Forall record_fits (ws_pending w) ∧
  data_ s = frames (ws_durable w) ++ frames (ws_pending w) ∧
  flushed_end_ s = length (frames (ws_durable w)).

Lemma frames_app c1 c2 : frames (c1 ++ c2) = frames c1 ++ frames c2.
Proof. unfold frames. by rewrite map_app, concat_app. Qed.

Lemma wal_step_repr op w s :
  op_fits op → wal_repr w s → wal_repr (wal_spec_run op w) (wal_run op s).
Proof.
  intros Hop (Hd & Hp & Hdata & Hend). destruct op; cbn [wal_run wal_spec_run].
  - rewrite wal_append_data. split_and!; cbn [ws_durable ws_pending]; [done| |..].
    + apply Forall_app. by split; [|constructor].
    + rewrite frames_app. unfold Mem.append, frames at 3; cbn [data_ map concat].
      by rewrite Hdata, app_nil_r, app_assoc.
    + done.
  - split_and!; unfold Wal.flush, Mem.flush; cbn [data_ flushed_end_ ws_durable ws_pending];
      [by apply Forall_app|constructor| |].
    + change (frames []) with (@nil Z). by rewrite Hdata, frames_app, app_nil_r.
    + by rewrite Hdata, frames_app.
  - split_and!; unfold Mem.crash; cbn [data_ flushed_end_ ws_durable ws_pending];
      [done|constructor| |done].
    change (frames []) with (@nil Z). by rewrite Hend, Hdata, resize_app_le, resize_all, app_nil_r by done.
Qed.

Lemma replay_repr w s : wal_repr w s → Wal.replay s = ws_durable w.
Proof.
  intros (Hd & _ & Hdata & Hend). unfold Wal.replay, Mem.read_durable.
  rewrite Hend, Hdata, take_app_length.
  rewrite <-(app_nil_r (frames _)) at 2. rewrite replay_loop_frames by (done || apply length_frames).
  by rewrite replay_loop_nil, app_nil_r.
Qed.

Lemma wal_run_repr ops w s :
  Forall op_fits ops → wal_repr w s →
  wal_repr (fold_left (flip wal_spec_run) ops w) (fold_left (flip wal_run) ops s).
Proof.
  intros Hops. revert w s. induction Hops as [|op ops Hop _ IH]; intros w s Hr; [done|].
  rewrite !fold_left_cons. by apply IH, wal_step_repr.
Qed.

Lemma wal_repr_empty : wal_repr (WalSpec [] []) empty_store.
Proof. by repeat constructor. Qed.

(** ** Properties *)

(** C16: the write-ahead log refines its contract.  After any sequence of
    appends, flushes and power losses on an empty store, [replay] returns
    exactly the commands that were flushed, in order. *)
Theorem wal_replay_refines (ops : list wal_op) (Hfits : Forall op_fits ops) :
  Wal.replay (fold_left (flip wal_run) ops empty_store) =
  ws_durable (fold_left (flip wal_spec_run) ops (WalSpec [] [])).
Proof. apply replay_repr, wal_run_repr; [done|apply wal_repr_empty]. Qed.

(** C17: a record cut off at any byte is ignored by [replay], and all records
    before it are returned. *)
Theorem wal_torn_tail_ignored (cmds : list Command) (cmd : Command) (t : bytes)
    (Hcmds : Forall record_fits cmds) (Hcmd : record_fits cmd)
    (Ht : t `prefix_of` Wal.frame cmd) (Hne : t ≠ Wal.frame cmd) :
  Wal.replay (mkDurableStore (frames cmds ++ t) (length (frames cmds ++ t))) = cmds.
Proof.
  unfold Wal.replay, Mem.read_durable; cbn [data_ flushed_end_]. rewrite firstn_all.
  rewrite replay_loop_frames by (done || (rewrite length_app; pose proof (length_frames cmds); lia)).
  by rewrite (replay_loop_torn _ cmd), app_nil_r.
Qed.

(** [decode_command] inverts [encode_command] and consumes exactly the
    encoded bytes, for every command whose fields fit their width. *)
Theorem command_roundtrip (cmd : Command) (rest : bytes) (Hfits : cmd_fits cmd) :
  decode_command (encode_command cmd ++ rest) = (Ok cmd, rest).
Proof. by apply reads_command. Qed.

(** ** Witnesses *)
Ltac fits_compute :=
  repeat first [ constructor | split ]; vm_compute; first [ reflexivity | discriminate | idtac ].

Lemma wal_replay_refines_witness :
  Wal.replay (fold_left (flip wal_run)
    [WAppend (CmdPut "k" "v"); WFlush; WAppend (CmdGet "k"); WCrash; WAppend (CmdDelete "k"); WFlush]
    empty_store) = [CmdPut "k" "v"; CmdDelete "k"].
Proof. rewrite wal_replay_refines; [reflexivity|fits_compute]. Defined.

Lemma wal_torn_tail_ignored_witness :
  Wal.replay (mkDurableStore (frames [CmdPut "k" "v"] ++ take 7 (Wal.frame (CmdGet "k")))
    (length (frames [CmdPut "k" "v"] ++ take 7 (Wal.frame (CmdGet "k"))))) = [CmdPut "k" "v"].
Proof.
  apply (wal_torn_tail_ignored [CmdPut "k" "v"] (CmdGet "k")); [fits_compute..| |discriminate].
  by exists (drop 7 (Wal.frame (CmdGet "k"))).
Defined.

Lemma command_roundtrip_witness :
  decode_command (encode_command (CmdCas "k" "a" "b") ++ [7]) = (Ok (CmdCas "k" "a" "b"), [7]).
Proof. apply (command_roundtrip (CmdCas "k" "a" "b") [7]). fits_compute. Defined.
