(* ===== verification/KvStore.v ===== *)
(** * The key-value state machine: [src/storage/kv_store.hpp/.cpp]

    [std::map<std::string, std::string>] is a [gmap string string]; where the
    source iterates over it (the snapshot of [RaftNode::take_snapshot]) the
    iteration order is the byte-wise order of the keys ([kv_iter]). *)

From S2P Require Import Prelude Types.

Record KvStore := mkKvStore { kv_data : gmap string string }.

Definition empty_kv : KvStore := mkKvStore ∅.

Module Kv.

Definition get (key : string) (kv : KvStore) : option string := kv_data kv !! key.

(** [it != data_.end() ? it->second : ""] *)
Definition value_or_empty (o : option string) : string := default ""%string o.

Definition apply (cmd : Command) (kv : KvStore) : CmdResult * KvStore :=
  match cmd with
  | CmdPut key value =>
      (mkCmdResult true "" "", mkKvStore (<[key := value]> (kv_data kv)))
  | CmdDelete key =>
      (mkCmdResult true "" "", mkKvStore (delete key (kv_data kv)))
  | CmdCas key expected value =>
      let current := value_or_empty (kv_data kv !! key) in
      if negb (String.eqb current expected) then (mkCmdResult false current "cas_mismatch", kv)
      else (mkCmdResult true value "", mkKvStore (<[key := value]> (kv_data kv)))
  | CmdGet key =>
      (mkCmdResult true (value_or_empty (kv_data kv !! key)) "", kv)
  | CmdAddServer _ | CmdRemoveServer _ =>
      (mkCmdResult true "" "", kv)
  end.

Definition load (snapshot : gmap string string) (kv : KvStore) : KvStore := mkKvStore snapshot.

End Kv.

(** [operator<] on the keys: [std::string] compares its bytes, as
    [String.le] does. *)
Definition key_le (a b : string * string) : Prop := (String.le a.1 b.1).
#[export] Instance key_le_dec : RelDecision key_le.
Proof. intros a b. unfold key_le. apply _. Defined.

(** [for (const auto& [k, v] : kv_.data())] *)
Definition kv_iter (kv : KvStore) : list (string * string) :=
  merge_sort key_le (map_to_list (kv_data kv)).

(** [kv_map[k] = v] for the pairs of a list, in order. *)
Definition map_of_pairs (l : list (string * string)) : gmap string string :=
  fold_left (λ m p, <[p.1 := p.2]> m) l ∅.

(** A sequence of commands applied in log order, with the results. *)
Fixpoint apply_all (cmds : list Command) (kv : KvStore) : list CmdResult * KvStore :=
  match cmds with
  | [] => ([], kv)
  | c :: cmds' =>
      let '(r, kv1) := Kv.apply c kv in
      let '(rs, kv2) := apply_all cmds' kv1 in (r :: rs, kv2)
  end.

(** The key a data command touches. *)
Definition cmd_key (c : Command) : option string :=
  match c with
  | CmdPut k _ | CmdDelete k | CmdCas k _ _ | CmdGet k => Some k
  | CmdAddServer _ | CmdRemoveServer _ => None
  end.

Definition on_key (k : string) (c : Command) : bool := bool_decide (cmd_key c = Some k).

(** ** Iteration order and rebuilding *)

#[export] Instance key_le_total : Total key_le.
Proof. intros a b. unfold key_le. apply (total String.le). Qed.

#[export] Instance key_le_trans : Transitive key_le.
Proof. intros a b c. unfold key_le. apply transitivity. Qed.

Lemma map_of_pairs_insert l (m : gmap string string) :
  NoDup l.*1 → (∀ k, k ∈ l.*1 → m !! k = None) →
  fold_left (λ m p, <[p.1 := p.2]> m) l m = list_to_map l ∪ m.
Proof.
  revert m. induction l as [|[k v] l IH]; intros m Hnd Hm.
  - simpl. by rewrite (left_id_L ∅ (∪)).
  - rewrite fold_left_cons. cbn [fmap list_fmap fst snd] in *. apply NoDup_cons in Hnd as [Hk Hnd].
    rewrite IH; [|done|].
    + rewrite list_to_map_cons.
      rewrite <-insert_union_r by (by apply not_elem_of_list_to_map). by rewrite insert_union_l.
    + intros k' Hk'. rewrite lookup_insert_ne by (intros ->; done). apply Hm. by right.
Qed.

(** Rebuilding the map from its own iteration gives the map back. *)
Lemma map_of_kv_iter kv : map_of_pairs (kv_iter kv) = kv_data kv.
Proof.
  unfold map_of_pairs. pose proof (merge_sort_Permutation key_le (map_to_list (kv_data kv))) as Hp.
  assert (NoDup (kv_iter kv).*1) as Hnd.
  { unfold kv_iter. rewrite Hp. apply NoDup_fst_map_to_list. }
  rewrite map_of_pairs_insert; [|done|intros; apply lookup_empty].
  rewrite (right_id_L ∅ (∪)).
  rewrite <-(list_to_map_to_list (kv_data kv)).
  by apply list_to_map_proper.
Qed.

Lemma kv_iter_sorted kv : StronglySorted key_le (kv_iter kv).
Proof. apply (StronglySorted_merge_sort key_le). Qed.

(** ** Keys are independent *)

Lemma apply_other_key k c kv :
  on_key k c = false → kv_data (Kv.apply c kv).2 !! k = kv_data kv !! k.
Proof.
  unfold on_key. intros Hk%bool_decide_eq_false.
  destruct c; simpl in *; try done.
  - by rewrite lookup_insert_ne by congruence.
  - by rewrite lookup_delete_ne by congruence.
  - destruct (negb _); simpl; [done|]. by rewrite lookup_insert_ne by congruence.
Qed.

(** A command on [k] sees and writes only the value of [k]. *)
Lemma apply_on_key k c kv1 kv2 :
  on_key k c = true → kv_data kv1 !! k = kv_data kv2 !! k →
  (Kv.apply c kv1).1 = (Kv.apply c kv2).1 ∧
  kv_data (Kv.apply c kv1).2 !! k = kv_data (Kv.apply c kv2).2 !! k.
Proof.
  unfold on_key. intros Hk%bool_decide_eq_true H.
  destruct c; simpl in *; simplify_eq; rewrite ?H; split; try done.
  - by rewrite !lookup_insert_eq.
  - by rewrite !lookup_delete_eq.
  - by destruct (negb _).
  - destruct (negb _); simpl; [done|]. by rewrite !lookup_insert_eq.
Qed.

(** The results at the positions of a command list that touch [k]. *)
Fixpoint results_on (k : string) (cmds : list Command) (rs : list CmdResult) : list CmdResult :=
  match cmds, rs with
  | c :: cmds', r :: rs' =>
      if on_key k c then r :: results_on k cmds' rs' else results_on k cmds' rs'
  | _, _ => []
  end.

Lemma apply_all_cons c cmds kv :
  apply_all (c :: cmds) kv =
  ((Kv.apply c kv).1 :: (apply_all cmds (Kv.apply c kv).2).1,
   (apply_all cmds (Kv.apply c kv).2).2).
Proof.
  cbn [apply_all]. destruct (Kv.apply c kv) as [r kv1]; simpl.
  by destruct (apply_all cmds kv1).
Qed.

(** C25: keys are independent state machines, the assumption behind the
    per-key decomposition of the linearizability checker: running a whole
    command log gives key [k] the same results and the same final value as
    running only the commands on [k], from any two stores that agree on [k]. *)
Theorem kv_key_independence (k : string) (cmds : list Command) (kv1 kv2 : KvStore)
    (Hk : kv_data kv1 !! k = kv_data kv2 !! k) :
  results_on k cmds (apply_all cmds kv1).1 = (apply_all (filter (on_key k) cmds) kv2).1 ∧
  kv_data (apply_all cmds kv1).2 !! k = kv_data (apply_all (filter (on_key k) cmds) kv2).2 !! k.
Proof.
  revert kv1 kv2 Hk. induction cmds as [|c cmds IH]; intros kv1 kv2 Hk; [done|].
  rewrite filter_cons, apply_all_cons. cbn [results_on fst snd].
  destruct (on_key k c) eqn:Hc.
  - destruct (apply_on_key k c kv1 kv2 Hc Hk) as [Hr Hs].
    rewrite decide_True by done. rewrite apply_all_cons; cbn [fst snd].
    destruct (IH _ _ Hs) as [-> ->]. by rewrite Hr.
  - rewrite decide_False by auto. apply IH. by rewrite apply_other_key.
Qed.

Lemma kv_key_independence_witness :
  kv_data (apply_all [CmdPut "a" "1"; CmdPut "b" "2"; CmdCas "a" "1" "3"] empty_kv).2 !! "a" =
  kv_data (apply_all (filter (on_key "a") [CmdPut "a" "1"; CmdPut "b" "2"; CmdCas "a" "1" "3"])
             (mkKvStore {["b" := "9"]})).2 !! "a".
Proof.
  apply (kv_key_independence "a" [CmdPut "a" "1"; CmdPut "b" "2"; CmdCas "a" "1" "3"]).
  reflexivity.
Defined.
