(* ===== verification/RaftLog.v ===== *)
(** * The in-memory Raft log: [RaftLog] of [src/raft/log.hpp/.cpp]

    Indices are absolute and 1-based; [base_index_] is the last index covered
    by the snapshot.  The arithmetic on [Index] ([uint64_t]) wraps. *)

From S2P Require Import Prelude Codec DurableStore Types Wal.

Record RaftLog := mkRaftLog {
  entries_ : list LogEntry;
  base_index_ : Index;
  base_term_ : Term;
}.

Definition empty_log : RaftLog := mkRaftLog [] 0 0.

Module Log.

Definition last_index (l : RaftLog) : Index := wrap64 (base_index_ l + size_z (entries_ l)).

Definition last_term (l : RaftLog) : Term :=
  match last (entries_ l) with
  | None => base_term_ l
  | Some e => e_term e
  end.

Definition base_index (l : RaftLog) : Index := base_index_ l.
Definition base_term (l : RaftLog) : Term := base_term_ l.
Definition size (l : RaftLog) : Z := size_z (entries_ l).

(** [entries_[i - base_index_ - 1]], the position of absolute index [i]. *)
Definition pos (l : RaftLog) (i : Index) : nat := Z.to_nat (wrap64 (i - base_index_ l - 1)).

Definition append (entry : LogEntry) (l : RaftLog) : result RaftLog :=
  if e_index entry =? wrap64 (last_index l + 1)
  then Ok (mkRaftLog (entries_ l ++ [entry]) (base_index_ l) (base_term_ l))
  else Throw (assert_failed "entry.index == last_index() + 1").

Definition truncate_from (from : Index) (l : RaftLog) : RaftLog :=
  if from <=? base_index_ l then l
  else if last_index l <? from then l
  else mkRaftLog (take (pos l from) (entries_ l)) (base_index_ l) (base_term_ l).

Definition set_snapshot (last_included_index : Index) (last_included_term : Term)
    (l : RaftLog) : RaftLog :=
  if last_included_index <=? base_index_ l then l
  else
    let entries :=
      if last_index l <=? last_included_index then []
      else drop (Z.to_nat (wrap64 (last_included_index - base_index_ l))) (entries_ l) in
    mkRaftLog entries last_included_index last_included_term.

Definition out_of_range_at : exn :=
  out_of_range "RaftLog::at: index out of range or compacted".

Definition at_ (i : Index) (l : RaftLog) : result LogEntry :=
  if (i <=? base_index_ l) || (last_index l <? i) then Throw out_of_range_at
  else match entries_ l !! pos l i with
       | Some e => Ok e
       | None => Throw undefined_behaviour
       end.

Definition term_at (i : Index) (l : RaftLog) : result Term :=
  if i =? base_index_ l then Ok (base_term_ l)
  else match at_ i l with
       | Ok e => Ok (e_term e)
       | Throw e => Throw e
       end.

Definition contains (index : Index) (term : Term) (l : RaftLog) : result bool :=
  if index =? 0 then Ok true
  else if index =? base_index_ l then Ok (term =? base_term_ l)
  else if index <? base_index_ l then Ok false
  else if last_index l <? index then Ok false
  else match entries_ l !! pos l index with
       | Some e => Ok (e_term e =? term)
       | None => Throw undefined_behaviour
       end.

(** Iterators outside the vector would be undefined; here they are clamped.
    On a log whose last index does not wrap around ([log_wf]) both are inside. *)
Definition slice (lo hi : Index) (l : RaftLog) : list LogEntry :=
  if hi <=? lo then []
  else
    let start := Z.max (wrap64 (lo + 1)) (wrap64 (base_index_ l + 1)) in
    let end_ := Z.min hi (last_index l) in
    if end_ <? start then []
    else
      let first := pos l start in
      let beyond := Z.to_nat (wrap64 (end_ - base_index_ l)) in
      take (beyond - first) (drop first (entries_ l)).

(** The reverse scan of [last_index_for_term]. *)
Fixpoint scan_term (term : Term) (rev_entries : list LogEntry) : option Index :=
  match rev_entries with
  | [] => None
  | e :: rest => if e_term e =? term then Some (e_index e) else scan_term term rest
  end.

Definition last_index_for_term (term : Term) (l : RaftLog) : Index :=
  match scan_term term (rev (entries_ l)) with
  | Some i => i
  | None =>
      if (0 <? base_index_ l) && (base_term_ l =? term) then base_index_ l else 0
  end.

Definition encode_entry (e : LogEntry) : bytes :=
  let cmd := encode_command (e_cmd e) in
  Enc.u64 (e_term e) ++ Enc.u64 (e_index e) ++ Enc.u32 (wrap32 (size_z cmd)) ++ Enc.raw cmd.

Definition decode_entry : M bytes LogEntry :=
  term ← Dec.u64;
  index ← Dec.u64;
  cmd_len ← Dec.u32;
  sub ← Dec.slice cmd_len;
  let cmd_buf := Dec.drain (length sub) sub in
  match decode_command cmd_buf with
  | (Ok cmd, _) => mret (mkLogEntry term index cmd)
  | (Throw e, _) => throw e
  end.

Definition encode (l : RaftLog) : bytes :=
  Enc.u64 (base_index_ l) ++ Enc.u64 (base_term_ l) ++
  Enc.u32 (wrap32 (size_z (entries_ l))) ++ concat (map encode_entry (entries_ l)).

Definition save_to {D} `{IDurableStore D} (l : RaftLog) (store : D) : D :=
  flush (DurableStore.append (encode l) store).

(** The entry loop of [load_from]: each decoded entry is pushed at once, so
    a decoding error leaves the entries read before it. *)
Fixpoint load_entries (count : nat) (dec : bytes) (l : RaftLog) : result unit * RaftLog :=
  match count with
  | O => (Ok tt, l)
  | S count' =>
      match decode_entry dec with
      | (Ok e, dec') =>
          load_entries count' dec'
            (mkRaftLog (entries_ l ++ [e]) (base_index_ l) (base_term_ l))
      | (Throw e, _) => (Throw e, l)
      end
  end.

Definition load_from {D} `{IDurableStore D} (store : D) : M RaftLog unit := λ l,
  let l := mkRaftLog [] (base_index_ l) (base_term_ l) in
  match read_durable store with
  | [] => (Ok tt, l)
  | data =>
      match Dec.u64 data with
      | (Throw e, _) => (Throw e, l)
      | (Ok bi, data) =>
          let l := mkRaftLog (entries_ l) bi (base_term_ l) in
          match Dec.u64 data with
          | (Throw e, _) => (Throw e, l)
          | (Ok bt, data) =>
              let l := mkRaftLog (entries_ l) (base_index_ l) bt in
              match Dec.u32 data with
              | (Throw e, _) => (Throw e, l)
              | (Ok count, data) => load_entries (Z.to_nat count) data l
              end
          end
      end
  end.

End Log.

(** ** Well-formed logs *)

(** Entry [k] of the vector holds absolute index [base_index_ + k + 1], and
    the last index is representable. *)
Record log_wf (l : RaftLog) : Prop := {
  wf_base : 0 <= base_index_ l;
  wf_room : base_index_ l + size_z (entries_ l) <= UINT64_MAX;
  wf_index k e : entries_ l !! k = Some e → e_index e = base_index_ l + Z.of_nat k + 1;
}.

(** The abstract view: absolute index to entry. *)
Definition entry_at (l : RaftLog) (i : Index) : option LogEntry :=
  if decide (base_index_ l < i) then entries_ l !! Z.to_nat (i - base_index_ l - 1) else None.

(** Unfolds the sizes that [lia] has to see. *)
Ltac log_unfold :=
  unfold UINT64_MAX, is_u64, size_z in *.

Lemma last_index_wf l : log_wf l → Log.last_index l = base_index_ l + size_z (entries_ l).
Proof.
  intros [Hb Hr _]. unfold Log.last_index. apply wrap64_id. log_unfold. lia.
Qed.

Lemma pos_wf l i :
  log_wf l → base_index_ l < i <= UINT64_MAX →
  Log.pos l i = Z.to_nat (i - base_index_ l - 1).
Proof.
  intros [Hb Hr _] Hi. unfold Log.pos. rewrite wrap64_id; [done|]. log_unfold. lia.
Qed.

Lemma entry_at_Some l i e :
  log_wf l → entry_at l i = Some e →
  base_index_ l < i <= Log.last_index l ∧ e_index e = i.
Proof.
  intros Hwf. rewrite last_index_wf by done. unfold entry_at. case_decide; [|done].
  intros He. pose proof (lookup_lt_Some _ _ _ He). pose proof (wf_index _ Hwf _ _ He).
  log_unfold. lia.
Qed.

Lemma entry_at_is_Some l i :
  log_wf l → base_index_ l < i <= Log.last_index l → is_Some (entry_at l i).
Proof.
  intros Hwf. rewrite last_index_wf by done. intros Hi. unfold entry_at.
  rewrite decide_True by lia. apply lookup_lt_is_Some. log_unfold. lia.
Qed.

Lemma entry_at_None l i :
  log_wf l → ¬ (base_index_ l < i <= Log.last_index l) → entry_at l i = None.
Proof.
  intros Hwf Hi. apply eq_None_not_Some. intros [e He].
  by apply Hi, (entry_at_Some _ _ e).
Qed.

Lemma at_entry_at l i e : log_wf l → Log.at_ i l = Ok e ↔ entry_at l i = Some e.
Proof.
  intros Hwf. pose proof (last_index_wf l Hwf) as Hl. pose proof (wf_room _ Hwf).
  unfold Log.at_. destruct (Z.leb_spec i (base_index_ l)); simpl.
  { split; [done|]. intros He%entry_at_Some; [lia|done]. }
  destruct (Z.ltb_spec (Log.last_index l) i); simpl.
  { split; [done|]. intros He%entry_at_Some; [lia|done]. }
  rewrite pos_wf by (done || lia). unfold entry_at. rewrite decide_True by lia.
  destruct (entries_ l !! _); naive_solver.
Qed.

Lemma at_throws l i :
  log_wf l → ¬ (base_index_ l < i <= Log.last_index l) → Log.at_ i l = Throw Log.out_of_range_at.
Proof.
  intros Hwf Hi. unfold Log.at_. destruct (Z.leb_spec i (base_index_ l)); [done|].
  destruct (Z.ltb_spec (Log.last_index l) i); [done|]. lia.
Qed.

Lemma at_ok l i : log_wf l → base_index_ l < i <= Log.last_index l →
  ∃ e, Log.at_ i l = Ok e ∧ entry_at l i = Some e.
Proof.
  intros Hwf Hi. destruct (entry_at_is_Some l i Hwf Hi) as [e He].
  exists e. by rewrite at_entry_at.
Qed.

(** The term the log vouches for at index [i]: the snapshot boundary or an entry. *)
Definition known_term (l : RaftLog) (i : Index) : option Term :=
  if decide (i = base_index_ l) then Some (base_term_ l) else e_term <$> entry_at l i.

Lemma contains_spec l i t :
  log_wf l → 0 <= i →
  Log.contains i t l = Ok (bool_decide (i = 0 ∨ known_term l i = Some t)).
Proof.
  intros Hwf H0. pose proof (last_index_wf l Hwf) as Hl. pose proof (wf_room _ Hwf) as Hr.
  unfold Log.contains, known_term. destruct (Z.eqb_spec i 0).
  { by rewrite bool_decide_eq_true_2 by auto. }
  destruct (Z.eqb_spec i (base_index_ l)).
  { f_equal. rewrite decide_True by done. destruct (Z.eqb_spec t (base_term_ l)); symmetry;
      [apply bool_decide_eq_true_2|apply bool_decide_eq_false_2]; naive_solver. }
  rewrite decide_False by done.
  destruct (Z.ltb_spec i (base_index_ l)).
  { f_equal. symmetry. apply bool_decide_eq_false_2.
    rewrite entry_at_None by (done || lia). naive_solver. }
  destruct (Z.ltb_spec (Log.last_index l) i).
  { f_equal. symmetry. apply bool_decide_eq_false_2.
    rewrite entry_at_None by (done || lia). naive_solver. }
  destruct (at_ok l i Hwf) as (e & Hat & He); [lia|].
  rewrite pos_wf, He by (done || lia). unfold entry_at in He. rewrite decide_True in He by lia.
  rewrite He. f_equal. destruct (Z.eqb_spec (e_term e) t); symmetry;
    [apply bool_decide_eq_true_2|apply bool_decide_eq_false_2]; naive_solver.
Qed.

(** ** Each operation on the abstract view *)

Lemma append_ok e l l' :
  log_wf l → Log.append e l = Ok l' → e_index e ≠ 0 →
  log_wf l' ∧ base_index_ l' = base_index_ l ∧ base_term_ l' = base_term_ l ∧
  Log.last_index l' = Log.last_index l + 1 ∧ e_index e = Log.last_index l + 1 ∧
  ∀ i, entry_at l' i = if decide (i = Log.last_index l + 1) then Some e else entry_at l i.
Proof.
  intros Hwf. pose proof (last_index_wf l Hwf) as Hl. destruct Hwf as [Hb Hr Hi].
  unfold Log.append. destruct (Z.eqb_spec (e_index e) (wrap64 (Log.last_index l + 1))) as [He|];
    [|done]. intros [= <-] Hne.
  assert (Hroom : Log.last_index l < UINT64_MAX).
  { rewrite Hl in *. destruct (decide (base_index_ l + size_z (entries_ l) = UINT64_MAX)) as [Hm|].
    - rewrite Hm in He. by vm_compute in He.
    - lia. }
  rewrite wrap64_id in He by (log_unfold; lia).
  assert (log_wf (mkRaftLog (entries_ l ++ [e]) (base_index_ l) (base_term_ l))) as Hwf'.
  { split; simpl; [done| |].
    - rewrite size_z_app. log_unfold. simpl. lia.
    - intros k e' [Hk|[Hk Hk']]%lookup_app_Some; [by apply Hi|].
      apply list_lookup_singleton_Some in Hk' as [? <-]. log_unfold. lia. }
  split_and!; [done..| |done|].
  - rewrite (last_index_wf _ Hwf'), Hl; simpl. rewrite size_z_app. log_unfold. simpl. lia.
  - intros i. unfold entry_at; simpl. rewrite Hl. case_decide.
    + destruct (decide (i = _)) as [->|Hni].
      * rewrite lookup_app_r by (log_unfold; lia).
        by replace (Z.to_nat _ - length (entries_ l))%nat with 0%nat by (log_unfold; lia).
      * destruct (decide (i <= base_index_ l + size_z (entries_ l))).
        -- rewrite lookup_app_l by (log_unfold; lia). done.
        -- rewrite !lookup_ge_None_2; [done|log_unfold; lia|rewrite length_app; log_unfold; simpl; lia].
    + rewrite decide_False; [done|]. pose proof (size_z_nonneg (entries_ l)). lia.
Qed.

Lemma append_accepts e l :
  log_wf l → e_index e = Log.last_index l + 1 → Log.last_index l < UINT64_MAX →
  ∃ l', Log.append e l = Ok l'.
Proof.
  intros Hwf He Hr. unfold Log.append. pose proof (last_index_wf l Hwf).
  pose proof (wf_base _ Hwf). rewrite wrap64_id by (log_unfold; lia).
  rewrite <-He, Z.eqb_refl. eauto.
Qed.

Lemma truncate_ok from l :
  log_wf l →
  log_wf (Log.truncate_from from l) ∧
  base_index_ (Log.truncate_from from l) = base_index_ l ∧
  base_term_ (Log.truncate_from from l) = base_term_ l ∧
  ∀ i, entry_at (Log.truncate_from from l) i =
       if decide (base_index_ l < from ∧ from <= i) then None else entry_at l i.
Proof.
  intros Hwf. pose proof (last_index_wf l Hwf) as Hl. pose proof Hwf as [Hb Hr Hi].
  unfold Log.truncate_from. destruct (Z.leb_spec from (base_index_ l)).
  { split_and!; [done..|]. intros i. by rewrite decide_False by lia. }
  destruct (Z.ltb_spec (Log.last_index l) from).
  { split_and!; [done..|]. intros i. case_decide; [|done]. apply entry_at_None; [done|lia]. }
  rewrite pos_wf by (done || lia). split_and!; [|done..|].
  - split; simpl; [done| |].
    + log_unfold. rewrite length_take. lia.
    + intros k e [Hk _]%lookup_take_Some. by apply Hi.
  - intros i. unfold entry_at; simpl. repeat case_decide; try (done || lia).
    + apply lookup_take_None. right. lia.
    + rewrite lookup_take_lt; [done|lia].
Qed.

Lemma truncate_last_index from l :
  log_wf l → base_index_ l < from <= Log.last_index l →
  Log.last_index (Log.truncate_from from l) = from - 1.
Proof.
  intros Hwf Hf. pose proof (last_index_wf l Hwf) as Hl.
  destruct (truncate_ok from l Hwf) as (Hwf' & Hbase & _ & _).
  rewrite (last_index_wf _ Hwf'), Hbase. unfold Log.truncate_from.
  destruct (Z.leb_spec from (base_index_ l)); [lia|].
  destruct (Z.ltb_spec (Log.last_index l) from); [lia|].
  pose proof (wf_room _ Hwf). rewrite pos_wf by (done || lia). simpl.
  log_unfold. rewrite length_take. lia.
Qed.

Lemma set_snapshot_ok i t l :
  log_wf l → i <= UINT64_MAX →
  log_wf (Log.set_snapshot i t l) ∧
  base_index_ (Log.set_snapshot i t l) = Z.max i (base_index_ l) ∧
  Log.last_index (Log.set_snapshot i t l) = Z.max i (Log.last_index l) ∧
  ∀ j, entry_at (Log.set_snapshot i t l) j = if decide (j <= i) then None else entry_at l j.
Proof.
  intros Hwf Hmax. pose proof (last_index_wf l Hwf) as Hl. pose proof Hwf as [Hb Hr Hi].
  pose proof (size_z_nonneg (entries_ l)).
  unfold Log.set_snapshot. destruct (Z.leb_spec i (base_index_ l)).
  { split_and!; [done|lia..|]. intros j. case_decide; [|done]. apply entry_at_None; [done|lia]. }
  destruct (Z.leb_spec (Log.last_index l) i).
  - assert (log_wf (mkRaftLog [] i t)) as Hwf'.
    { split; simpl; [lia|unfold size_z; simpl; lia|done]. }
    split_and!; [done|simpl; lia| |].
    + rewrite (last_index_wf _ Hwf'). unfold size_z; simpl. lia.
    + intros j. rewrite (entry_at_None _ j Hwf').
      * case_decide; [done|]. symmetry. apply entry_at_None; [done|lia].
      * rewrite (last_index_wf _ Hwf'). unfold size_z; simpl. lia.
  - rewrite wrap64_id by (log_unfold; lia).
    assert (log_wf (mkRaftLog (drop (Z.to_nat (i - base_index_ l)) (entries_ l)) i t)) as Hwf'.
    { split; simpl; [lia| |].
      - log_unfold. rewrite length_drop. lia.
      - intros k e He. rewrite lookup_drop in He. apply Hi in He. lia. }
    split_and!; [done|simpl; lia| |].
    + rewrite (last_index_wf _ Hwf'), Hl; simpl. log_unfold. rewrite length_drop. lia.
    + intros j. unfold entry_at; simpl. repeat case_decide; try (done || lia).
      rewrite lookup_drop. f_equal. lia.
Qed.

(** [slice(lo, hi)] is the entries with index in [(lo, hi]]. *)
Lemma slice_lookup lo hi l k :
  log_wf l → 0 <= lo < UINT64_MAX → 0 <= hi →
  Log.slice lo hi l !! k =
  (let i := Z.max lo (base_index_ l) + 1 + Z.of_nat k in
   if decide (i <= hi) then entry_at l i else None).
Proof.
  intros Hwf Hlo Hhi. pose proof (last_index_wf l Hwf) as Hl. pose proof Hwf as [Hb Hr Hi].
  pose proof (size_z_nonneg (entries_ l)). cbv zeta. unfold Log.slice.
  destruct (Z.leb_spec hi lo).
  { rewrite decide_False by lia. done. }
  rewrite (wrap64_id (lo + 1)) by (log_unfold; lia).
  destruct (decide (base_index_ l = UINT64_MAX)) as [Hbm|].
  { assert (Log.last_index l = UINT64_MAX) as Hlm by lia.
    assert (entries_ l = []) as Hnil by (apply length_zero_iff_nil; log_unfold; lia).
    rewrite Hnil. rewrite drop_nil, take_nil. unfold entry_at. rewrite Hnil.
    destruct (_ <? _); repeat case_decide; done. }
  rewrite (wrap64_id (base_index_ l + 1)) by (log_unfold; lia).
  destruct (Z.ltb_spec (Z.min hi (Log.last_index l)) (Z.max (lo + 1) (base_index_ l + 1))).
  { rewrite lookup_nil. case_decide; [|done]. symmetry. apply entry_at_None; [done|lia]. }
  rewrite pos_wf by (done || lia). rewrite wrap64_id by (log_unfold; lia).
  destruct (decide (Z.max lo (base_index_ l) + 1 + Z.of_nat k <= Z.min hi (Log.last_index l))).
  - rewrite decide_True by lia. unfold entry_at. rewrite decide_True by lia.
    rewrite lookup_take_lt by lia. rewrite lookup_drop. f_equal. lia.
  - rewrite (proj2 (lookup_take_None _ _ _)) by (right; lia).
    case_decide; [|done]. symmetry. apply entry_at_None; [done|lia].
Qed.

Lemma scan_term_app t l1 l2 :
  Log.scan_term t (l1 ++ l2) =
  match Log.scan_term t l1 with Some i => Some i | None => Log.scan_term t l2 end.
Proof. induction l1 as [|e l1 IH]; simpl; [done|]. by destruct (e_term e =? t). Qed.

Lemma scan_term_rev t es :
  match Log.scan_term t (rev es) with
  | Some i => ∃ k e, es !! k = Some e ∧ e_term e = t ∧ e_index e = i ∧
                ∀ k' e', es !! k' = Some e' → e_term e' = t → (k' <= k)%nat
  | None => ∀ k e, es !! k = Some e → e_term e ≠ t
  end.
Proof.
  induction es as [|e es IH]; simpl; [done|]. rewrite scan_term_app.
  destruct (Log.scan_term t (rev es)) as [i|].
  - destruct IH as (k & e0 & Hk & Ht & Hi & Hmax). exists (S k), e0. split_and!; [done..|].
    intros [|k'] e' He' Ht'; [lia|]. pose proof (Hmax k' e' He' Ht'). lia.
  - simpl. destruct (Z.eqb_spec (e_term e) t) as [He|He].
    + exists 0%nat, e. split_and!; [done..|]. intros [|k'] e' He' Ht'; [lia|].
      by destruct (IH k' e' He').
    + intros [|k] e' He'; simpl in He'; [by simplify_eq|]. by apply (IH k).
Qed.

(** ** Persistence *)

Definition log_fits (l : RaftLog) : Prop :=
  is_u64 (base_index_ l) ∧ is_u64 (base_term_ l) ∧
  is_u32 (size_z (entries_ l)) ∧ Forall entry_fits (entries_ l).

Lemma reads_entry e : entry_fits e → reads Log.decode_entry (Log.encode_entry e) e.
Proof.
  intros (Ht & Hi & Hc & Hs). unfold Log.decode_entry, Log.encode_entry.
  rewrite wrap32_id by done.
  eapply reads_bind; [by apply reads_u64|].
  eapply reads_bind; [by apply reads_u64|].
  eapply reads_bind; [by apply reads_u32|].
  rewrite enc_raw_id by apply encode_command_ok.
  eapply reads_bind_last; [apply reads_slice|].
  cbv zeta. rewrite drain_all.
  pose proof (reads_command _ Hc []) as Hr. rewrite app_nil_r in Hr. rewrite Hr.
  destruct e; apply reads_ret.
Qed.

Lemma load_entries_app es rest l :
  Forall entry_fits es →
  Log.load_entries (length es) (concat (map Log.encode_entry es) ++ rest) l =
  (Ok tt, mkRaftLog (entries_ l ++ es) (base_index_ l) (base_term_ l)).
Proof.
  intros Hes. revert l. induction Hes as [|e es He _ IH]; intros l.
  - rewrite app_nil_r. by destruct l.
  - cbn [length Log.load_entries map concat]. rewrite <-app_assoc.
    rewrite (reads_entry e He), IH; simpl. by rewrite <-app_assoc.
Qed.

Lemma length_enc_u64 v : length (Enc.u64 v) = 8%nat.
Proof. apply length_push_le. Qed.

Lemma load_from_encoded {D} `{IDurableStore D} (store : D) l l0 :
  log_fits l → read_durable store = Log.encode l →
  Log.load_from store l0 = (Ok tt, l).
Proof.
  intros (Hb & Ht & Hn & Hes) Hd. unfold Log.load_from. rewrite Hd.
  destruct (Log.encode l) as [|b bs] eqn:He.
  { apply (f_equal length) in He. unfold Log.encode in He.
    rewrite length_app, length_enc_u64 in He. simpl in He. lia. }
  rewrite <-He. unfold Log.encode. rewrite wrap32_id by done.
  rewrite (reads_u64 _ Hb), (reads_u64 _ Ht), (reads_u32 _ Hn).
  unfold size_z. rewrite Nat2Z.id.
  rewrite <-(app_nil_r (concat _)), load_entries_app by done. by destruct l.
Qed.
