(* ===== verification/Rpc.v ===== *)
(** * RPC messages: [src/raft/rpc.hpp/.cpp]

    One record per message with its [encode] and [decode].  A decoder skips
    the tag byte, as in the source; the dispatch on the tag is in
    [RaftNode::on_message]. *)

From S2P Require Import Prelude Codec Types Wal.

(** [enum class MsgType : uint8_t] *)
Definition mt_RequestVote : Z := 1.
Definition mt_RequestVoteReply : Z := 2.
Definition mt_AppendEntries : Z := 3.
Definition mt_AppendEntriesReply : Z := 4.
Definition mt_ClientRequest : Z := 5.
Definition mt_ClientReply : Z := 6.
Definition mt_InstallSnapshot : Z := 7.
Definition mt_InstallSnapshotReply : Z := 8.
Definition mt_ReadIndexRequest : Z := 9.
Definition mt_ReadIndexReply : Z := 10.

Definition peek_msg_type (payload : bytes) : result Z :=
  match payload with
  | [] => Throw (runtime_error "empty message")
  | b :: _ => Ok b
  end.

Definition encode_log_entry (e : LogEntry) : bytes :=
  let cmd_bytes := encode_command (e_cmd e) in
  Enc.u64 (e_term e) ++ Enc.u64 (e_index e) ++
  Enc.u32 (wrap32 (size_z cmd_bytes)) ++ Enc.raw cmd_bytes.

(** [decode_command] on a buffer of its own: bytes behind the command are
    ignored. *)
Definition decode_command_buf (buf : bytes) : M bytes Command :=
  match decode_command buf with
  | (Ok cmd, _) => mret cmd
  | (Throw e, _) => throw e
  end.

Definition decode_log_entry : M bytes LogEntry :=
  term ← Dec.u64;
  index ← Dec.u64;
  cmd_len ← Dec.u32;
  sub ← Dec.slice cmd_len;
  cmd ← decode_command_buf (Dec.drain (length sub) sub);
  mret (mkLogEntry term index cmd).

Record RequestVote := mkRequestVote {
  rv_term : Term;
  rv_candidate_id : NodeId;
  rv_last_log_index : Index;
  rv_last_log_term : Term;
}.

Record RequestVoteReply := mkRequestVoteReply {
  rvr_term : Term;
  rvr_vote_granted : bool;
}.

Record AppendEntries := mkAppendEntries {
  ae_term : Term;
  ae_leader_id : NodeId;
  ae_prev_log_index : Index;
  ae_prev_log_term : Term;
  ae_entries : list LogEntry;
  ae_leader_commit : Index;
}.

Record AppendEntriesReply := mkAppendEntriesReply {
  aer_term : Term;
  aer_success : bool;
  aer_conflict_index : Index;
  aer_conflict_term : Term;
}.

Record ClientRequest := mkClientRequest {
  cr_client_id : Z;
  cr_request_id : Z;
  cr_cmd : Command;
}.

Record ClientReply := mkClientReply {
  crp_client_id : Z;
  crp_request_id : Z;
  crp_success : bool;
  crp_result : CmdResult;
  crp_leader_hint : NodeId;
}.

Record InstallSnapshot := mkInstallSnapshot {
  is_term : Term;
  is_leader_id : NodeId;
  is_last_included_index : Index;
  is_last_included_term : Term;
  is_data : bytes;
}.

Record InstallSnapshotReply := mkInstallSnapshotReply {
  isr_term : Term;
  isr_last_included_index : Index;
}.

Record ReadIndexRequest := mkReadIndexRequest {
  rir_term : Term;
  rir_leader_id : NodeId;
  rir_round : Z;
}.

Record ReadIndexReply := mkReadIndexReply {
  rip_term : Term;
  rip_round : Z;
}.

#[export] Instance ClientRequest_eq_dec : EqDecision ClientRequest.
Proof. solve_decision. Defined.

Module Encode.

Definition RequestVote (m : RequestVote) : bytes :=
  Enc.u8 mt_RequestVote ++ Enc.u64 (rv_term m) ++ Enc.u32 (rv_candidate_id m) ++
  Enc.u64 (rv_last_log_index m) ++ Enc.u64 (rv_last_log_term m).

Definition RequestVoteReply (m : RequestVoteReply) : bytes :=
  Enc.u8 mt_RequestVoteReply ++ Enc.u64 (rvr_term m) ++ Enc.boolean (rvr_vote_granted m).

Definition AppendEntries (m : AppendEntries) : bytes :=
  Enc.u8 mt_AppendEntries ++ Enc.u64 (ae_term m) ++ Enc.u32 (ae_leader_id m) ++
  Enc.u64 (ae_prev_log_index m) ++ Enc.u64 (ae_prev_log_term m) ++
  Enc.u64 (ae_leader_commit m) ++ Enc.u32 (wrap32 (size_z (ae_entries m))) ++
  concat (map encode_log_entry (ae_entries m)).

Definition AppendEntriesReply (m : AppendEntriesReply) : bytes :=
  Enc.u8 mt_AppendEntriesReply ++ Enc.u64 (aer_term m) ++ Enc.boolean (aer_success m) ++
  Enc.u64 (aer_conflict_index m) ++ Enc.u64 (aer_conflict_term m).

Definition ClientRequest (m : ClientRequest) : bytes :=
  let cmd_bytes := encode_command (cr_cmd m) in
  Enc.u8 mt_ClientRequest ++ Enc.u64 (cr_client_id m) ++ Enc.u64 (cr_request_id m) ++
  Enc.u32 (wrap32 (size_z cmd_bytes)) ++ Enc.raw cmd_bytes.

Definition InstallSnapshot (m : InstallSnapshot) : bytes :=
  Enc.u8 mt_InstallSnapshot ++ Enc.u64 (is_term m) ++ Enc.u32 (is_leader_id m) ++
  Enc.u64 (is_last_included_index m) ++ Enc.u64 (is_last_included_term m) ++
  Enc.u32 (wrap32 (size_z (is_data m))) ++ Enc.raw (is_data m).

Definition InstallSnapshotReply (m : InstallSnapshotReply) : bytes :=
  Enc.u8 mt_InstallSnapshotReply ++ Enc.u64 (isr_term m) ++
  Enc.u64 (isr_last_included_index m).

Definition ReadIndexRequest (m : ReadIndexRequest) : bytes :=
  Enc.u8 mt_ReadIndexRequest ++ Enc.u64 (rir_term m) ++ Enc.u32 (rir_leader_id m) ++
  Enc.u64 (rir_round m).

Definition ReadIndexReply (m : ReadIndexReply) : bytes :=
  Enc.u8 mt_ReadIndexReply ++ Enc.u64 (rip_term m) ++ Enc.u64 (rip_round m).

Definition ClientReply (m : ClientReply) : bytes :=
  Enc.u8 mt_ClientReply ++ Enc.u64 (crp_client_id m) ++ Enc.u64 (crp_request_id m) ++
  Enc.boolean (crp_success m) ++ Enc.boolean (res_ok (crp_result m)) ++
  Enc.str (res_value (crp_result m)) ++ Enc.str (res_error (crp_result m)) ++
  Enc.u32 (crp_leader_hint m).

End Encode.

Module Decode.

Definition RequestVote : M bytes RequestVote :=
  _ ← Dec.u8;
  term ← Dec.u64; candidate_id ← Dec.u32; last_log_index ← Dec.u64; last_log_term ← Dec.u64;
  mret (mkRequestVote term candidate_id last_log_index last_log_term).

Definition RequestVoteReply : M bytes RequestVoteReply :=
  _ ← Dec.u8;
  term ← Dec.u64; vote_granted ← Dec.boolean;
  mret (mkRequestVoteReply term vote_granted).

Definition AppendEntries : M bytes AppendEntries :=
  _ ← Dec.u8;
  term ← Dec.u64; leader_id ← Dec.u32; prev_log_index ← Dec.u64; prev_log_term ← Dec.u64;
  leader_commit ← Dec.u64; count ← Dec.u32;
  entries ← Dec.repeat_read (Z.to_nat count) decode_log_entry;
  mret (mkAppendEntries term leader_id prev_log_index prev_log_term entries leader_commit).

Definition AppendEntriesReply : M bytes AppendEntriesReply :=
  _ ← Dec.u8;
  term ← Dec.u64; success ← Dec.boolean; conflict_index ← Dec.u64; conflict_term ← Dec.u64;
  mret (mkAppendEntriesReply term success conflict_index conflict_term).

Definition ClientRequest : M bytes ClientRequest :=
  _ ← Dec.u8;
  client_id ← Dec.u64; request_id ← Dec.u64; len ← Dec.u32;
  sub ← Dec.slice len;
  cmd ← decode_command_buf (Dec.drain (length sub) sub);
  mret (mkClientRequest client_id request_id cmd).

Definition InstallSnapshot : M bytes InstallSnapshot :=
  _ ← Dec.u8;
  term ← Dec.u64; leader_id ← Dec.u32; last_included_index ← Dec.u64;
  last_included_term ← Dec.u64; len ← Dec.u32;
  data ← Dec.repeat_read (Z.to_nat len) Dec.u8;
  mret (mkInstallSnapshot term leader_id last_included_index last_included_term data).

Definition InstallSnapshotReply : M bytes InstallSnapshotReply :=
  _ ← Dec.u8;
  term ← Dec.u64; last_included_index ← Dec.u64;
  mret (mkInstallSnapshotReply term last_included_index).

Definition ReadIndexRequest : M bytes ReadIndexRequest :=
  _ ← Dec.u8;
  term ← Dec.u64; leader_id ← Dec.u32; round ← Dec.u64;
  mret (mkReadIndexRequest term leader_id round).

Definition ReadIndexReply : M bytes ReadIndexReply :=
  _ ← Dec.u8;
  term ← Dec.u64; round ← Dec.u64;
  mret (mkReadIndexReply term round).

Definition ClientReply : M bytes ClientReply :=
  _ ← Dec.u8;
  client_id ← Dec.u64; request_id ← Dec.u64; success ← Dec.boolean; ok ← Dec.boolean;
  value ← Dec.str; error ← Dec.str; leader_hint ← Dec.u32;
  mret (mkClientReply client_id request_id success (mkCmdResult ok value error) leader_hint).

End Decode.

(** ** Round trips *)

Lemma reads_command_buf cmd :
  record_fits cmd → reads (decode_command_buf (encode_command cmd)) [] cmd.
Proof.
  intros [Hc _]. unfold decode_command_buf.
  pose proof (reads_command _ Hc []) as Hr. rewrite app_nil_r in Hr. rewrite Hr. apply reads_ret.
Qed.

(** The length-prefixed command shared by log entries and client requests. *)
Lemma reads_sized_command {B} cmd (f : Command → M bytes B) c :
  record_fits cmd → reads (f cmd) [] c →
  reads (len ← Dec.u32; sub ← Dec.slice len;
         cmd ← decode_command_buf (Dec.drain (length sub) sub); f cmd)
    (Enc.u32 (wrap32 (size_z (encode_command cmd))) ++ Enc.raw (encode_command cmd)) c.
Proof.
  intros Hc Hf. rewrite wrap32_id by apply Hc. eapply reads_bind; [by apply reads_u32, Hc|].
  rewrite enc_raw_id by apply encode_command_ok.
  eapply reads_bind_last; [apply reads_slice|]. rewrite drain_all.
  eapply reads_bind_last; [by apply reads_command_buf|]. done.
Qed.

Lemma reads_log_entry e : entry_fits e → reads decode_log_entry (encode_log_entry e) e.
Proof.
  intros (Ht & Hi & Hc). unfold decode_log_entry, encode_log_entry.
  do 2 (eapply reads_bind; [by apply reads_u64|]).
  apply reads_sized_command; [done|]. destruct e. apply reads_ret.
Qed.

(** The messages as one type, with the dispatch on the tag byte. *)
Inductive rpc :=
| RpcRequestVote (m : RequestVote)
| RpcRequestVoteReply (m : RequestVoteReply)
| RpcAppendEntries (m : AppendEntries)
| RpcAppendEntriesReply (m : AppendEntriesReply)
| RpcClientRequest (m : ClientRequest)
| RpcClientReply (m : ClientReply)
| RpcInstallSnapshot (m : InstallSnapshot)
| RpcInstallSnapshotReply (m : InstallSnapshotReply)
| RpcReadIndexRequest (m : ReadIndexRequest)
| RpcReadIndexReply (m : ReadIndexReply).

Definition encode_rpc (r : rpc) : bytes :=
  match r with
  | RpcRequestVote m => Encode.RequestVote m
  | RpcRequestVoteReply m => Encode.RequestVoteReply m
  | RpcAppendEntries m => Encode.AppendEntries m
  | RpcAppendEntriesReply m => Encode.AppendEntriesReply m
  | RpcClientRequest m => Encode.ClientRequest m
  | RpcClientReply m => Encode.ClientReply m
  | RpcInstallSnapshot m => Encode.InstallSnapshot m
  | RpcInstallSnapshotReply m => Encode.InstallSnapshotReply m
  | RpcReadIndexRequest m => Encode.ReadIndexRequest m
  | RpcReadIndexReply m => Encode.ReadIndexReply m
  end.

(** The decoder of the message type [tag], as the receivers choose it. *)
Definition decode_tagged (tag : Z) : M bytes (option rpc) :=
  if tag =? mt_RequestVote then m ← Decode.RequestVote; mret (Some (RpcRequestVote m))
  else if tag =? mt_RequestVoteReply then
    m ← Decode.RequestVoteReply; mret (Some (RpcRequestVoteReply m))
  else if tag =? mt_AppendEntries then
    m ← Decode.AppendEntries; mret (Some (RpcAppendEntries m))
  else if tag =? mt_AppendEntriesReply then
    m ← Decode.AppendEntriesReply; mret (Some (RpcAppendEntriesReply m))
  else if tag =? mt_ClientRequest then
    m ← Decode.ClientRequest; mret (Some (RpcClientRequest m))
  else if tag =? mt_ClientReply then
    m ← Decode.ClientReply; mret (Some (RpcClientReply m))
  else if tag =? mt_InstallSnapshot then
    m ← Decode.InstallSnapshot; mret (Some (RpcInstallSnapshot m))
  else if tag =? mt_InstallSnapshotReply then
    m ← Decode.InstallSnapshotReply; mret (Some (RpcInstallSnapshotReply m))
  else if tag =? mt_ReadIndexRequest then
    m ← Decode.ReadIndexRequest; mret (Some (RpcReadIndexRequest m))
  else if tag =? mt_ReadIndexReply then
    m ← Decode.ReadIndexReply; mret (Some (RpcReadIndexReply m))
  else mret None.

Definition decode_rpc (payload : bytes) : result (option rpc) :=
  match peek_msg_type payload with
  | Ok tag => (decode_tagged tag payload).1
  | Throw e => Throw e
  end.

(** The fields of a message fit the widths they are sent in. *)
Definition rpc_fits (r : rpc) : Prop :=
  match r with
  | RpcRequestVote m =>
      is_u64 (rv_term m) ∧ is_u32 (rv_candidate_id m) ∧
      is_u64 (rv_last_log_index m) ∧ is_u64 (rv_last_log_term m)
  | RpcRequestVoteReply m => is_u64 (rvr_term m)
  | RpcAppendEntries m =>
      is_u64 (ae_term m) ∧ is_u32 (ae_leader_id m) ∧ is_u64 (ae_prev_log_index m) ∧
      is_u64 (ae_prev_log_term m) ∧ is_u64 (ae_leader_commit m) ∧
      is_u32 (size_z (ae_entries m)) ∧ Forall entry_fits (ae_entries m)
  | RpcAppendEntriesReply m =>
      is_u64 (aer_term m) ∧ is_u64 (aer_conflict_index m) ∧ is_u64 (aer_conflict_term m)
  | RpcClientRequest m =>
      is_u64 (cr_client_id m) ∧ is_u64 (cr_request_id m) ∧ record_fits (cr_cmd m)
  | RpcClientReply m =>
      is_u64 (crp_client_id m) ∧ is_u64 (crp_request_id m) ∧
      str_fits (res_value (crp_result m)) ∧ str_fits (res_error (crp_result m)) ∧
      is_u32 (crp_leader_hint m)
  | RpcInstallSnapshot m =>
      is_u64 (is_term m) ∧ is_u32 (is_leader_id m) ∧ is_u64 (is_last_included_index m) ∧
      is_u64 (is_last_included_term m) ∧ is_u32 (size_z (is_data m)) ∧ bytes_ok (is_data m)
  | RpcInstallSnapshotReply m => is_u64 (isr_term m) ∧ is_u64 (isr_last_included_index m)
  | RpcReadIndexRequest m =>
      is_u64 (rir_term m) ∧ is_u32 (rir_leader_id m) ∧ is_u64 (rir_round m)
  | RpcReadIndexReply m => is_u64 (rip_term m) ∧ is_u64 (rip_round m)
  end.

Lemma reads_RequestVote m :
  rpc_fits (RpcRequestVote m) → reads Decode.RequestVote (Encode.RequestVote m) m.
Proof.
  simpl. intros. destruct_and!. unfold Decode.RequestVote, Encode.RequestVote.
  destruct m; reads_fields.
Qed.

Lemma reads_RequestVoteReply m :
  rpc_fits (RpcRequestVoteReply m) → reads Decode.RequestVoteReply (Encode.RequestVoteReply m) m.
Proof. simpl. intros. unfold Decode.RequestVoteReply, Encode.RequestVoteReply. destruct m; reads_fields. Qed.

Lemma reads_log_entries l :
  Forall entry_fits l →
  reads (Dec.repeat_read (length l) decode_log_entry) (concat (map encode_log_entry l)) l.
Proof. intros Hl. apply reads_repeat. eapply Forall_impl; [done|]. apply reads_log_entry. Qed.

Lemma reads_AppendEntries m :
  rpc_fits (RpcAppendEntries m) → reads Decode.AppendEntries (Encode.AppendEntries m) m.
Proof.
  simpl. intros. destruct_and!. unfold Decode.AppendEntries, Encode.AppendEntries.
  rewrite wrap32_id by done. do 7 (eapply reads_bind; [solve [eauto with codec]|]).
  unfold size_z. rewrite Nat2Z.id. eapply reads_bind_last; [by apply reads_log_entries|].
  destruct m; apply reads_ret.
Qed.

Lemma reads_AppendEntriesReply m :
  rpc_fits (RpcAppendEntriesReply m) →
  reads Decode.AppendEntriesReply (Encode.AppendEntriesReply m) m.
Proof.
  simpl. intros. destruct_and!. unfold Decode.AppendEntriesReply, Encode.AppendEntriesReply.
  destruct m; reads_fields.
Qed.

Lemma reads_ClientRequest m :
  rpc_fits (RpcClientRequest m) → reads Decode.ClientRequest (Encode.ClientRequest m) m.
Proof.
  simpl. intros. destruct_and!. unfold Decode.ClientRequest, Encode.ClientRequest.
  do 3 (eapply reads_bind; [solve [eauto with codec]|]).
  apply reads_sized_command; [done|]. destruct m; apply reads_ret.
Qed.

Lemma reads_ClientReply m :
  rpc_fits (RpcClientReply m) → reads Decode.ClientReply (Encode.ClientReply m) m.
Proof.
  simpl. intros. destruct_and!. unfold Decode.ClientReply, Encode.ClientReply.
  destruct m as [? ? ? [] ?]; reads_fields.
Qed.

Lemma reads_InstallSnapshot m :
  rpc_fits (RpcInstallSnapshot m) → reads Decode.InstallSnapshot (Encode.InstallSnapshot m) m.
Proof.
  simpl. intros. destruct_and!. unfold Decode.InstallSnapshot, Encode.InstallSnapshot.
  rewrite wrap32_id by done. do 6 (eapply reads_bind; [solve [eauto with codec]|]).
  unfold size_z. rewrite Nat2Z.id. eapply reads_bind_last; [by apply reads_raw|].
  destruct m; apply reads_ret.
Qed.

Lemma reads_InstallSnapshotReply m :
  rpc_fits (RpcInstallSnapshotReply m) →
  reads Decode.InstallSnapshotReply (Encode.InstallSnapshotReply m) m.
Proof.
  simpl. intros. destruct_and!. unfold Decode.InstallSnapshotReply, Encode.InstallSnapshotReply.
  destruct m; reads_fields.
Qed.

Lemma reads_ReadIndexRequest m :
  rpc_fits (RpcReadIndexRequest m) → reads Decode.ReadIndexRequest (Encode.ReadIndexRequest m) m.
Proof.
  simpl. intros. destruct_and!. unfold Decode.ReadIndexRequest, Encode.ReadIndexRequest.
  destruct m; reads_fields.
Qed.

Lemma reads_ReadIndexReply m :
  rpc_fits (RpcReadIndexReply m) → reads Decode.ReadIndexReply (Encode.ReadIndexReply m) m.
Proof.
  simpl. intros. destruct_and!. unfold Decode.ReadIndexReply, Encode.ReadIndexReply.
  destruct m; reads_fields.
Qed.

#[export] Hint Resolve reads_RequestVote reads_RequestVoteReply reads_AppendEntries
  reads_AppendEntriesReply reads_ClientRequest reads_ClientReply reads_InstallSnapshot
  reads_InstallSnapshotReply reads_ReadIndexRequest reads_ReadIndexReply : codec.

(** The first byte of an encoded message is its tag. *)
Definition rpc_tag (r : rpc) : Z :=
  match r with
  | RpcRequestVote _ => mt_RequestVote
  | RpcRequestVoteReply _ => mt_RequestVoteReply
  | RpcAppendEntries _ => mt_AppendEntries
  | RpcAppendEntriesReply _ => mt_AppendEntriesReply
  | RpcClientRequest _ => mt_ClientRequest
  | RpcClientReply _ => mt_ClientReply
  | RpcInstallSnapshot _ => mt_InstallSnapshot
  | RpcInstallSnapshotReply _ => mt_InstallSnapshotReply
  | RpcReadIndexRequest _ => mt_ReadIndexRequest
  | RpcReadIndexReply _ => mt_ReadIndexReply
  end.

Lemma encode_rpc_tag r : ∃ rest, encode_rpc r = rpc_tag r :: rest.
Proof. destruct r; eexists; reflexivity. Qed.

Lemma reads_tagged r : rpc_fits r → reads (decode_tagged (rpc_tag r)) (encode_rpc r) (Some r).
Proof.
  intros Hf. destruct r; cbn -[reads encode_rpc rpc_fits Decode.RequestVote];
    (eapply reads_bind_last; [eauto with codec|apply reads_ret]).
Qed.

(** Every encoder emits bytes. *)
Lemma encode_log_entry_ok e : bytes_ok (encode_log_entry e).
Proof. unfold encode_log_entry. auto 10 with codec. Qed.
#[export] Hint Resolve encode_log_entry_ok : codec.

Lemma encode_rpc_ok r : bytes_ok (encode_rpc r).
Proof.
  destruct r; cbn [encode_rpc];
    unfold Encode.RequestVote, Encode.RequestVoteReply, Encode.AppendEntries,
      Encode.AppendEntriesReply, Encode.ClientRequest, Encode.ClientReply,
      Encode.InstallSnapshot, Encode.InstallSnapshotReply, Encode.ReadIndexRequest,
      Encode.ReadIndexReply; auto 20 with codec.
Qed.

Lemma decode_encoded r : rpc_fits r → decode_rpc (encode_rpc r) = Ok (Some r).
Proof.
  intros Hfits. unfold decode_rpc. destruct (encode_rpc_tag r) as [rest Hr]. rewrite Hr at 1; simpl.
  pose proof (reads_tagged r Hfits []) as Ht. rewrite app_nil_r in Ht. by rewrite Ht.
Qed.

(** ** Properties *)

(** C20: every RPC survives the wire.  Dispatching on the tag byte and
    decoding what [encode] wrote gives the message back, for all ten message
    types, whenever the fields fit the widths they are sent in. *)
Theorem rpc_roundtrip (r : rpc) (Hfits : rpc_fits r) : decode_rpc (encode_rpc r) = Ok (Some r).
Proof. by apply decode_encoded. Qed.

Lemma safe_command_buf b : dec_safe (decode_command_buf b).
Proof.
  unfold decode_command_buf. destruct (safe_decode_command b) as [H _].
  destruct (decode_command b) as [[c|e] s]; simpl in *; [apply safe_ret|].
  apply safe_throw. congruence.
Qed.
#[export] Hint Resolve safe_command_buf : safe.

Lemma safe_log_entry : dec_safe decode_log_entry.
Proof. unfold decode_log_entry. eauto 20 with safe. Qed.
#[export] Hint Resolve safe_log_entry : safe.

Lemma safe_tagged tag : dec_safe (decode_tagged tag).
Proof.
  unfold decode_tagged, Decode.RequestVote, Decode.RequestVoteReply, Decode.AppendEntries,
    Decode.AppendEntriesReply, Decode.ClientRequest, Decode.ClientReply, Decode.InstallSnapshot,
    Decode.InstallSnapshotReply, Decode.ReadIndexRequest, Decode.ReadIndexReply.
  repeat case_match; eauto 30 with safe.
Qed.

(** C22: decoding is memory safe.  Whatever bytes arrive, no message decoder
    reads outside the received buffer: a short or lying message ends in an
    exception ([buffer underrun] or [unknown command tag]) instead. *)
Theorem rpc_decode_safe (payload : bytes) :
  decode_rpc payload ≠ Throw undefined_behaviour.
Proof.
  unfold decode_rpc. destruct payload as [|b payload]; [discriminate|].
  apply (safe_tagged b (b :: payload)).
Qed.

(** ** Witnesses *)
Lemma rpc_roundtrip_witness :
  decode_rpc (encode_rpc (RpcAppendEntries
    (mkAppendEntries 3 1 4 2 [mkLogEntry 3 5 (CmdPut "k" "v"); mkLogEntry 3 6 (CmdAddServer 4)] 4)))
  = Ok (Some (RpcAppendEntries
    (mkAppendEntries 3 1 4 2 [mkLogEntry 3 5 (CmdPut "k" "v"); mkLogEntry 3 6 (CmdAddServer 4)] 4))).
Proof. apply rpc_roundtrip. fits_compute. Defined.
