(* ===== verification/RpcTypes.v ===== *)
(** * Well-typed messages: what the decoders of [src/raft/rpc.cpp] return

    The wire format carries unsigned integers of fixed widths, and the decoders
    build messages out of them.  This file types the decoders: whatever bytes
    arrive, a message that is decoded has every field within its width, every
    string, snapshot, command and entry list within its 32-bit length field,
    nested commands included, so that encoding it again loses nothing. *)

From S2P Require Import Prelude Codec Types Wal Rpc.

(** ** Decoders and the bytes they spend

    [spends d P]: a value [a] decoded by [d] from genuine bytes, with [n] of
    them consumed, satisfies [P a n]. *)
Definition spends {A} (d : M bytes A) (P : A → Z → Prop) : Prop :=
  ∀ b a b', bytes_ok b → d b = (Ok a, b') → bytes_ok b' ∧ P a (size_z b - size_z b').

Lemma spends_ret {A} (a : A) (P : A → Z → Prop) : P a 0 → spends (mret a) P.
Proof. intros Ha b a' b' Hb [= <- <-]. by rewrite Z.sub_diag. Qed.

Lemma spends_throw {A} e (P : A → Z → Prop) : spends (throw e) P.
Proof. by intros b a b' _ [=]. Qed.

Lemma spends_bind {A B} (d : M bytes A) (f : A → M bytes B) P (Q : B → Z → Prop) :
  spends d P → (∀ a n, P a n → spends (f a) (λ x m, Q x (n + m))) → spends (d ≫= f) Q.
Proof.
  intros Hd Hf b x b' Hb Hx. apply bind_Ok_inv in Hx as (a & b1 & Ha & Hx).
  destruct (Hd _ _ _ Hb Ha) as [Hb1 Hp]. destruct (Hf _ _ Hp _ _ _ Hb1 Hx) as [Hb' Hq].
  split; [done|]. by replace (size_z b - size_z b')
    with ((size_z b - size_z b1) + (size_z b1 - size_z b')) by lia.
Qed.

Lemma spends_weaken {A} (d : M bytes A) (P Q : A → Z → Prop) :
  spends d P → (∀ a n, P a n → Q a n) → spends d Q.
Proof. intros Hd HPQ b a b' Hb Ha. destruct (Hd _ _ _ Hb Ha). auto. Qed.

(** A range check followed by the read of that range. *)
Lemma spends_range n :
  spends (Dec.check n;; Dec.take_range (Z.to_nat n))
    (λ l m, bytes_ok l ∧ size_z l = m ∧ m = Z.max 0 n).
Proof.
  intros b l b' Hb Hl. apply bind_Ok_inv in Hl as ([] & b1 & Hc & Hl).
  unfold Dec.check in Hc. destruct (Z.ltb_spec (size_z b) n); [done|]. injection Hc as <-.
  unfold Dec.take_range in Hl. destruct (Nat.leb_spec (Z.to_nat n) (length b)); [|done].
  injection Hl as <- <-. unfold size_z, bytes_ok in *. rewrite length_take, length_drop.
  split_and!; [by apply Forall_drop|by apply Forall_take|lia..].
Qed.

Lemma spends_of_gives {A} (d : M bytes A) (P : A → Prop) n :
  gives d P → dec_safe d → (∀ b a b', d b = (Ok a, b') → size_z b - size_z b' = n) →
  spends d (λ a m, P a ∧ m = n).
Proof.
  intros Hg Hs Hn b a b' Hb Ha. specialize (Hs b) as [_ Hs]. rewrite Ha in Hs.
  split; [by eapply bytes_ok_suffix|]. split; [by eapply Hg|by eapply Hn].
Qed.

Lemma spends_u8 : spends Dec.u8 (λ v n, is_u8 v ∧ n = 1).
Proof.
  intros b a b' Hb. unfold Dec.u8, mbind, M_bind, Dec.check.
  destruct (Z.ltb_spec (size_z b) 1); [done|]. unfold size_z in *.
  destruct b as [|v b]; [simpl in *; lia|]. apply Forall_cons in Hb as [Hv Hb].
  intros [= <- <-]. simpl. rewrite drop_0. split_and!; [done..|lia].
Qed.

Lemma u32_length b a b' : Dec.u32 b = (Ok a, b') → size_z b - size_z b' = 4.
Proof.
  unfold Dec.u32, mbind, M_bind, Dec.check.
  destruct (Z.ltb_spec (size_z b) 4); [done|]. unfold size_z in *.
  destruct b as [|p0 [|p1 [|p2 [|p3 b]]]]; try (simpl in *; lia).
  intros [= _ <-]. simpl. rewrite drop_0. lia.
Qed.

Lemma u64_length b a b' : Dec.u64 b = (Ok a, b') → size_z b - size_z b' = 8.
Proof.
  unfold Dec.u64. intros Ha. apply bind_Ok_inv in Ha as ([] & b1 & Hc & Ha).
  unfold Dec.check in Hc. destruct (Z.ltb_spec (size_z b) 8); [done|]. injection Hc as <-.
  apply bind_Ok_inv in Ha as (l & b1 & Hl & [= _ <-]). unfold Dec.take_range in Hl.
  destruct (Nat.leb_spec 8 (length b)); [|done]. injection Hl as _ <-.
  unfold size_z in *. rewrite length_drop. lia.
Qed.

Lemma spends_u32 : spends Dec.u32 (λ v n, is_u32 v ∧ n = 4).
Proof. apply (spends_of_gives _ _ _ gives_u32 safe_u32 u32_length). Qed.

Lemma spends_u64 : spends Dec.u64 (λ v n, is_u64 v ∧ n = 8).
Proof. apply (spends_of_gives _ _ _ gives_u64 safe_u64 u64_length). Qed.

Lemma spends_boolean : spends Dec.boolean (λ _ n, n = 1).
Proof.
  eapply spends_bind; [apply spends_u8|]. intros b n [_ ->]. by apply spends_ret.
Qed.

Lemma length_string_of_bytes l : String.length (string_of_bytes l) = length l.
Proof. induction l as [|b l IH]; simpl; congruence. Qed.

Lemma spends_str : spends Dec.str (λ s n, str_fits s ∧ n = 4 + str_size s).
Proof.
  eapply spends_bind; [apply spends_u32|]. intros len n [Hlen ->].
  assert (0 <= len < 2 ^ 32) as Hr by apply Hlen.
  intros b s b' Hb Hs. apply bind_Ok_inv in Hs as ([] & b1 & Hc & Hs).
  apply bind_Ok_inv in Hs as (l & b2 & Hl & [= <- <-]).
  destruct (spends_range len b l b2 Hb) as (Hb2 & _ & Hz & Hm).
  { by rewrite (bind_ok (Dec.check len) _ _ _ _ Hc). }
  rewrite <-Hz in Hm. unfold str_fits, str_size. rewrite length_string_of_bytes. fold (size_z l).
  rewrite Z.max_r in Hm by lia. split_and!; [done|by rewrite Hm|by rewrite <-Hz].
Qed.

Lemma spends_slice n :
  0 <= n → spends (Dec.slice n) (λ l m, bytes_ok l ∧ size_z l = n ∧ m = n).
Proof.
  intros Hn. eapply spends_weaken; [apply spends_range|]. cbv beta.
  intros l m (Hl & Hz & Hm). rewrite Z.max_r in Hm by done. split_and!; [done|lia|done].
Qed.

Lemma spends_repeat {A} k (d : M bytes A) (P : A → Prop) :
  spends d (λ a _, P a) → spends (Dec.repeat_read k d) (λ l _, length l = k ∧ Forall P l).
Proof.
  intros Hd. induction k as [|k IH]; [by apply spends_ret|].
  eapply spends_bind; [done|]. intros a n Ha. eapply spends_bind; [done|].
  intros l m [Hl HP]. apply spends_ret. split; [by rewrite <-Hl|by constructor].
Qed.

Create HintDb spends.
#[export] Hint Resolve spends_u8 spends_u32 spends_u64 spends_boolean spends_str : spends.

(** One field of a message after the other. *)
Ltac spends_field := eapply spends_bind; [solve [eauto with spends]|cbv beta; intros ? ? ?].

(** ** Commands *)

Lemma length_enc_str s : size_z (Enc.str s) = 4 + str_size s.
Proof.
  unfold Enc.str. rewrite size_z_app. unfold size_z, str_size.
  rewrite length_bytes_of_string. simpl. lia.
Qed.

Lemma spends_command : spends decode_command (λ c n, cmd_fits c ∧ n = size_z (encode_command c)).
Proof.
  unfold decode_command. spends_field.
  repeat case_match; repeat spends_field; try apply spends_throw;
    apply spends_ret; destruct_and!; cbn [encode_command cmd_fits]; rewrite ?size_z_app, ?length_enc_str;
    unfold size_z; simpl; (split; [done|lia]).
Qed.

(** A command sent with its length: the bytes of the command fit the length
    field, so the command fits a log record. *)
Lemma spends_sized_command {B} (f : Command → M bytes B) (Q : B → Z → Prop) :
  (∀ cmd n, record_fits cmd → spends (f cmd) (λ x m, Q x (n + m))) →
  spends (len ← Dec.u32; sub ← Dec.slice len;
          cmd ← decode_command_buf (Dec.drain (length sub) sub); f cmd) Q.
Proof.
  intros Hf. eapply spends_bind; [apply spends_u32|]. intros len n [Hlen ->].
  assert (0 <= len < 2 ^ 32) as Hr by apply Hlen.
  eapply spends_bind; [apply spends_slice, Hr|]. intros sub n (Hsub & Hz & ->). rewrite drain_all.
  eapply spends_bind with (P := λ cmd m, record_fits cmd ∧ m = 0); cbv beta.
  - unfold decode_command_buf. destruct (decode_command sub) as [[cmd|e] rest] eqn:Hd;
      [|apply spends_throw].
    destruct (spends_command _ _ _ Hsub Hd) as (_ & Hc & Hn). apply spends_ret.
    split; [|done]. split; [done|]. unfold is_u32. pose proof (size_z_nonneg rest).
    pose proof (size_z_nonneg (encode_command cmd)). lia.
  - intros cmd m [Hc ->]. eapply spends_weaken; [by apply (Hf cmd (4 + (len + 0)))|]. cbv beta.
    intros x m. by rewrite <-!Z.add_assoc.
Qed.

Lemma spends_log_entry : spends decode_log_entry (λ e _, entry_fits e).
Proof.
  unfold decode_log_entry. do 2 spends_field. apply spends_sized_command.
  intros cmd m Hc. apply spends_ret. destruct_and!. done.
Qed.
#[export] Hint Resolve spends_log_entry : spends.

(** ** Messages *)

(** The fields of a message read one by one fit. *)
Ltac spends_message :=
  spends_field; repeat spends_field; apply spends_ret; destruct_and?; simpl; auto 10.

Lemma spends_AppendEntries : spends Decode.AppendEntries (λ m _, rpc_fits (RpcAppendEntries m)).
Proof.
  unfold Decode.AppendEntries. do 7 spends_field.
  eapply spends_bind; [apply spends_repeat, spends_log_entry|]. intros es k [Hlen Hes].
  apply spends_ret. destruct_and!. simpl.
  assert (size_z es = a5) as -> by (unfold size_z, is_u32 in *; lia). auto 10.
Qed.

Lemma spends_ClientRequest : spends Decode.ClientRequest (λ m _, rpc_fits (RpcClientRequest m)).
Proof.
  unfold Decode.ClientRequest. do 3 spends_field. apply spends_sized_command.
  intros cmd m Hc. apply spends_ret. destruct_and!. done.
Qed.

Lemma spends_InstallSnapshot :
  spends Decode.InstallSnapshot (λ m _, rpc_fits (RpcInstallSnapshot m)).
Proof.
  unfold Decode.InstallSnapshot. do 6 spends_field.
  eapply spends_bind.
  { apply spends_repeat. eapply spends_weaken; [apply spends_u8|]. by intros v m [Hv _]. }
  intros l k [Hlen Hl]. apply spends_ret. destruct_and!. simpl.
  assert (size_z l = a4) as -> by (unfold size_z, is_u32 in *; lia). auto 10.
Qed.

Lemma spends_tagged tag : spends (decode_tagged tag) (λ o _, ∀ r, o = Some r → rpc_fits r).
Proof.
  assert (∀ {A} (d : M bytes A) (P : A → Prop) (f : A → rpc),
    spends d (λ m _, P m) → (∀ m, P m → rpc_fits (f m)) →
    spends (m ← d; mret (Some (f m))) (λ o _, ∀ r, o = Some r → rpc_fits r)) as Hlift.
  { intros A d P f Hd Hf. eapply spends_bind; [done|]. intros m n Hm. apply spends_ret.
    intros r [= <-]. by apply Hf. }
  unfold decode_tagged.
  repeat case_match; try (by apply spends_ret; intros ? [=]);
    (eapply Hlift; [|by intros m Hm; exact Hm]); cbv beta;
    first [ apply spends_AppendEntries | apply spends_ClientRequest
          | apply spends_InstallSnapshot | spends_message ].
Qed.

(** ** Properties *)

(** C21: what is received is well typed.  Whatever bytes arrive, a message that
    the dispatch on its tag decodes has every field within the width it is
    declared with: terms, indices and request numbers are 64-bit, node ids
    32-bit, strings, snapshots, entry lists and nested commands fit their
    32-bit length fields.  So such a message is in the domain of the encoders:
    sending it on and decoding it again gives the same message, also when the
    received bytes were not what an encoder writes (a boolean byte other than 0
    and 1, bytes behind a nested command, bytes behind the message). *)
Theorem rpc_typed (payload : bytes) (r : rpc) (Hb : bytes_ok payload)
    (Hd : decode_rpc payload = Ok (Some r)) :
  rpc_fits r ∧ bytes_ok (encode_rpc r) ∧ decode_rpc (encode_rpc r) = Ok (Some r).
Proof.
  assert (rpc_fits r) as Hr.
  { unfold decode_rpc in Hd. destruct (peek_msg_type payload) as [tag|e]; [|done].
    destruct (decode_tagged tag payload) as [[o|e] rest] eqn:Ho; [|done].
    simpl in Hd. injection Hd as ->. by destruct (spends_tagged _ _ _ _ Hb Ho) as [_ H]; apply H. }
  split_and!; [done|apply encode_rpc_ok|by apply decode_encoded].
Qed.

(** ** Witnesses *)

(** A vote reply whose boolean byte is 7, with two bytes behind it. *)
Lemma rpc_typed_witness :
  rpc_fits (RpcRequestVoteReply (mkRequestVoteReply 5 true)) ∧
  bytes_ok (encode_rpc (RpcRequestVoteReply (mkRequestVoteReply 5 true))) ∧
  decode_rpc (encode_rpc (RpcRequestVoteReply (mkRequestVoteReply 5 true)))
    = Ok (Some (RpcRequestVoteReply (mkRequestVoteReply 5 true))).
Proof.
  apply (rpc_typed [2; 5; 0; 0; 0; 0; 0; 0; 0; 7; 9; 9]).
  - unfold bytes_ok, is_u8. repeat constructor; lia.
  - vm_compute; reflexivity.
Defined.
