(* ===== verification/Env.v ===== *)
(** * The environment of a node: [IClock], [ITransport] and the callbacks

    The interfaces a [RaftNode] is written against ([IClock] of
    [src/sim/simulator.hpp], [ITransport] of [src/sim/network.hpp]) are
    classes over the type [E] of the environment's state.  A C++ closure is a
    value of a first-order type: [timer] for the callbacks given to
    [schedule], [handler] for the delivery callbacks of [set_handler], and a
    token for a callback supplied by a client of the node. *)

From S2P Require Import Prelude Types Rpc.

(** [struct Message] *)
Record Message := mkMessage { msg_from : NodeId; msg_to : NodeId; msg_payload : bytes }.

#[export] Instance Message_eq_dec : EqDecision Message.
Proof. solve_decision. Defined.

(** The closures a node passes to [IClock::schedule]. *)
Inductive timer :=
| TElection (node : NodeId) (gen : Z)
| THeartbeat (node : NodeId)
| TReadTimeout (node : NodeId) (round : Z).

#[export] Instance timer_eq_dec : EqDecision timer.
Proof. solve_decision. Defined.

(** The delivery callbacks: a node's [on_message], a client's [on_reply]. *)
Inductive handler :=
| HNode (node : NodeId)
| HClient (client : nat).

#[export] Instance handler_eq_dec : EqDecision handler.
Proof. solve_decision. Defined.

Class IClock (E A : Type) := {
  schedule : SimTime → A → M E EventId;
  cancel : EventId → M E unit;
  random_range : Z → Z → M E Z;
}.

Class ITransport (E H : Type) := {
  net_send : NodeId → NodeId → bytes → M E unit;
  set_handler : NodeId → H → M E unit;
  remove_handler : NodeId → M E unit;
}.

(** The callbacks a node invokes: [ClientCallback], [ReadCallback] and
    [StateChangeCallback], each named by a token.  A [ReadCallback] may ask
    the node for its [leader_id()], which it gets as an argument. *)
Class ICallbacks (E : Type) := {
  client_done : Z → CmdResult → M E unit;
  read_done : Z → option NodeId → bool → option string → M E unit;
  state_changed : NodeId → Role → Term → M E unit;
}.

Class NodeEnv (E : Type) := {
  env_clock :: IClock E timer;
  env_net :: ITransport E handler;
  env_callbacks :: ICallbacks E;
}.

(** ** The tracing environment

    Records every effect in order and serves random numbers from a supplied
    list: what a node does, seen from outside. *)
Inductive effect :=
| ESend (m : Message)
| ESchedule (delay : SimTime) (t : timer) (id : EventId)
| ECancel (id : EventId)
| ESetHandler (id : NodeId) (h : handler)
| ERemoveHandler (id : NodeId)
| EClientDone (token : Z) (r : CmdResult)
| EReadDone (token : Z) (ok : bool) (value : option string)
| EStateChanged (id : NodeId) (r : Role) (t : Term).

#[export] Instance effect_eq_dec : EqDecision effect.
Proof. solve_decision. Defined.

Record trace_env := mkTrace {
  tr_effects : list effect;
  tr_next_id : EventId;
  tr_random : list Z;
}.

Definition emit (e : effect) : M trace_env unit :=
  modify (λ s, mkTrace (tr_effects s ++ [e]) (tr_next_id s) (tr_random s)).

#[export] Instance trace_NodeEnv : NodeEnv trace_env := {|
  env_clock := {|
    schedule delay t := λ s,
      (Ok (tr_next_id s),
       mkTrace (tr_effects s ++ [ESchedule delay t (tr_next_id s)]) (tr_next_id s + 1) (tr_random s));
    cancel id := emit (ECancel id);
    random_range lo hi := λ s,
      match tr_random s with
      | [] => (Ok lo, s)
      | x :: xs => (Ok x, mkTrace (tr_effects s) (tr_next_id s) xs)
      end
  |};
  env_net := {|
    net_send from to payload := emit (ESend (mkMessage from to payload));
    set_handler id h := emit (ESetHandler id h);
    remove_handler id := emit (ERemoveHandler id)
  |};
  env_callbacks := {|
    client_done tok r := emit (EClientDone tok r);
    read_done tok _ ok v := emit (EReadDone tok ok v);
    state_changed id r t := emit (EStateChanged id r t)
  |};
|}.

(** The messages among the effects. *)
Definition sent_messages (es : list effect) : list Message :=
  omap (λ e, match e with ESend m => Some m | _ => None end) es.

(** ** What a node's client theorems need of its environment

    The calls return, and the only one that puts a message on the network is
    [net_send], which puts exactly the given one. *)
Class EnvLaws (E : Type) `{NodeEnv E} := {
  sent : E → list Message;
  net_send_sent from to p e :
    ∃ e', net_send from to p e = (Ok tt, e') ∧ sent e' = sent e ++ [mkMessage from to p];
  schedule_sent d (t : timer) e : ∃ i e', schedule d t e = (Ok i, e') ∧ sent e' = sent e;
  cancel_sent i e : ∃ e', cancel (A := timer) i e = (Ok tt, e') ∧ sent e' = sent e;
  random_sent lo hi e :
    ∃ x e', random_range (A := timer) lo hi e = (Ok x, e') ∧ sent e' = sent e;
  set_handler_sent i (h : handler) e :
    ∃ e', set_handler i h e = (Ok tt, e') ∧ sent e' = sent e;
  remove_handler_sent i e :
    ∃ e', remove_handler (H := handler) i e = (Ok tt, e') ∧ sent e' = sent e;
  client_done_sent t r e : ∃ e', client_done t r e = (Ok tt, e') ∧ sent e' = sent e;
  read_done_sent t l b v e : ∃ e', read_done t l b v e = (Ok tt, e') ∧ sent e' = sent e;
  state_changed_sent i r t e : ∃ e', state_changed i r t e = (Ok tt, e') ∧ sent e' = sent e;
}.

Lemma sent_messages_app es1 es2 :
  sent_messages (es1 ++ es2) = sent_messages es1 ++ sent_messages es2.
Proof. apply omap_app. Qed.

(** The tracing environment is such an environment. *)
#[export] Instance trace_laws : EnvLaws trace_env.
Proof.
  refine {| sent := λ e, sent_messages (tr_effects e) |}; intros;
    try (eexists; split; [reflexivity|]; simpl; rewrite sent_messages_app; simpl;
         rewrite ?app_nil_r; done).
  - do 2 eexists; split; [reflexivity|]. simpl. rewrite sent_messages_app. apply app_nil_r.
  - simpl. destruct (tr_random e); do 2 eexists; by split.
Defined.
