(* ===== verification/Network.v ===== *)
(** * The simulated network: [src/sim/network.hpp/.cpp]

    The network keeps the delivery callbacks and the partition; sending draws
    from the simulator's generator and schedules deliveries on its queue, so
    the operations run on both.  [deliver h m] is the closure that calls the
    callback [h] with the message [m]. *)

From Corelib Require Import SpecFloat.
From S2P Require Import Prelude Types Rpc Env Prng EventQueue Simulator.

Record NetworkConfig := mkNetworkConfig {
  min_latency : SimTime;
  max_latency : SimTime;
  drop_prob : double;
  dup_prob : double;
}.

Definition default_network : NetworkConfig :=
  mkNetworkConfig (1 * kMsec) (20 * kMsec) dbl_zero dbl_zero.

Record Network (H : Type) := mkNetwork {
  ncfg_ : NetworkConfig;
  handlers_ : gmap NodeId H;
  partition_group_ : gmap NodeId Z;
  partitioned_ : bool;
}.
Arguments mkNetwork {H} _ _ _ _.
Arguments ncfg_ {H} _.
Arguments handlers_ {H} _.
Arguments partition_group_ {H} _.
Arguments partitioned_ {H} _.

Definition make_network {H} (cfg : NetworkConfig) : Network H := mkNetwork cfg ∅ ∅ false.

(** The network with the simulator it refers to. *)
Record netsim (H A : Type) := mkNetsim { ns_net : Network H; ns_sim : Simulator A }.
Arguments mkNetsim {H A} _ _.
Arguments ns_net {H A} _.
Arguments ns_sim {H A} _.

Module Net.
Section Net.
Context {H A : Type} (deliver : H → Message → A) (fuel : nat).
Local Abbreviation MNet := (M (netsim H A)).

Definition on_sim {B} (m : M (Simulator A) B) : MNet B := λ s,
  let '(r, x) := m (ns_sim s) in (r, mkNetsim (ns_net s) x).

Definition upd_net (f : Network H → Network H) : MNet unit :=
  modify (λ s, mkNetsim (f (ns_net s)) (ns_sim s)).

Definition set_handler (id : NodeId) (on_deliver : H) : MNet unit :=
  upd_net (λ n, mkNetwork (ncfg_ n) (<[id := on_deliver]> (handlers_ n)) (partition_group_ n)
                  (partitioned_ n)).

Definition remove_handler (id : NodeId) : MNet unit :=
  upd_net (λ n, mkNetwork (ncfg_ n) (delete id (handlers_ n)) (partition_group_ n)
                  (partitioned_ n)).

(** [partitioned(from, to)] *)
Definition partitioned (n : Network H) (from to : NodeId) : bool :=
  if negb (partitioned_ n) then false
  else
    match partition_group_ n !! from, partition_group_ n !! to with
    | Some gf, Some gt => negb (gf =? gt)
    | _, _ => true
    end.

(** The latency of one delivery. *)
Definition latency : MNet SimTime :=
  cfg ← gets (λ s, ncfg_ (ns_net s));
  on_sim (Sim.random_range fuel (min_latency cfg) (wrap64 (max_latency cfg + 1))).

(** [send_copy]: one delivery to the callback registered now. *)
Definition send_copy (from to : NodeId) (payload : bytes) : MNet unit :=
  h ← gets (λ s, handlers_ (ns_net s) !! to);
  match (h : option H) with
  | None => mret tt
  | Some fn =>
      lat ← latency;
      on_sim (Sim.schedule lat (deliver fn (mkMessage from to payload)));; mret tt
  end.

(** [deliver_once], with the sender [NodeId(-1)]. *)
Definition deliver_once (to : NodeId) (payload : bytes) : MNet unit :=
  send_copy (wrap32 (-1)) to payload.

Definition bernoulli (p : double) : MNet bool := on_sim (Sim.on_prng (Rng.bernoulli p)).

Definition send (from to : NodeId) (payload : bytes) : MNet unit :=
  n ← gets ns_net;
  if partitioned n from to then mret tt
  else
    dropped ← bernoulli (drop_prob (ncfg_ n));
    if (dropped : bool) then mret tt
    else
      send_copy from to payload;;
      dup ← bernoulli (dup_prob (ncfg_ n));
      when dup (send_copy from to payload).

(** [for (id : groups[g]) partition_group_[id] = g], [g] counting up. *)
Fixpoint assign_groups (g : Z) (groups : list (list NodeId)) (m : gmap NodeId Z) : gmap NodeId Z :=
  match groups with
  | [] => m
  | ids :: rest => assign_groups (g + 1) rest (fold_left (λ m id, <[id := g]> m) ids m)
  end.

Definition partition (groups : list (list NodeId)) : MNet unit :=
  upd_net (λ n, mkNetwork (ncfg_ n) (handlers_ n) (assign_groups 0 groups ∅) true).

Definition heal : MNet unit :=
  upd_net (λ n, mkNetwork (ncfg_ n) (handlers_ n) ∅ false).

Definition set_drop_prob (p : double) : MNet unit :=
  upd_net (λ n, let c := ncfg_ n in
    mkNetwork (mkNetworkConfig (min_latency c) (max_latency c) p (dup_prob c)) (handlers_ n)
      (partition_group_ n) (partitioned_ n)).

Definition set_dup_prob (p : double) : MNet unit :=
  upd_net (λ n, let c := ncfg_ n in
    mkNetwork (mkNetworkConfig (min_latency c) (max_latency c) (drop_prob c) p) (handlers_ n)
      (partition_group_ n) (partitioned_ n)).

Definition set_latency (mn mx : SimTime) : MNet unit :=
  upd_net (λ n, let c := ncfg_ n in
    mkNetwork (mkNetworkConfig mn mx (drop_prob c) (dup_prob c)) (handlers_ n)
      (partition_group_ n) (partitioned_ n)).

End Net.
End Net.

(** ** What a send adds *)

Section NetFacts.
Context {H A : Type} (deliver : H → Message → A) (fuel : nat).
Implicit Types (s : netsim H A).

(** The network is unchanged; at most [n] deliveries of [m] to [fn] were
    added, each with a latency of the configured range. *)
Record added (n : nat) (m : Message) s s' : Prop := {
  ad_net : ns_net s' = ns_net s;
  ad_clock : clock_ (ns_sim s') = clock_ (ns_sim s);
  ad_prng : prng_ok (prng_ (ns_sim s')) ;
  ad_cancelled : cancelled_ (queue_ (ns_sim s')) = cancelled_ (queue_ (ns_sim s));
  ad_events : ∃ new, heap_ (queue_ (ns_sim s')) = new ++ heap_ (queue_ (ns_sim s)) ∧
    (length new <= n)%nat ∧
    Forall (λ e, ∃ fn, handlers_ (ns_net s) !! msg_to m = Some fn ∧ ev_action e = deliver fn m ∧
      ev_cancelled e = false ∧
      clock_ (ns_sim s) + min_latency (ncfg_ (ns_net s)) <= ev_time e <=
      clock_ (ns_sim s) + max_latency (ncfg_ (ns_net s))) new;
}.

Lemma added_refl m s : prng_ok (prng_ (ns_sim s)) → added 0 m s s.
Proof. intros Hg. split; [done..|]. exists []. split_and!; [done|simpl; lia|constructor]. Qed.

Lemma added_trans n1 n2 m s1 s2 s3 :
  added n1 m s1 s2 → added n2 m s2 s3 → added (n1 + n2) m s1 s3.
Proof.
  intros [A1 B1 C1 D1 (l1 & E1 & L1 & F1)] [A2 B2 C2 D2 (l2 & E2 & L2 & F2)].
  split; [congruence..|done|congruence|]. exists (l2 ++ l1). rewrite E2, E1, app_assoc.
  rewrite length_app. split_and!; [done|lia|]. apply Forall_app. split; [|done].
  by rewrite A1, B1 in F2.
Qed.

Lemma added_weaken n n' m s s' : (n <= n')%nat → added n m s s' → added n' m s s'.
Proof. intros Hn [A1 B1 C1 D1 (l & E & L & F)]. split; [done..|]. exists l. split_and!; [done|lia|done]. Qed.

(** Drawing leaves everything but the generator alone. *)
Lemma bernoulli_added p m s :
  prng_ok (prng_ (ns_sim s)) →
  ∃ b s', Net.bernoulli p s = (Ok b, s') ∧ added 0 m s s'.
Proof.
  intros Hg. unfold Net.bernoulli, Net.on_sim, Sim.on_prng, Rng.bernoulli.
  assert (added 0 m s (mkNetsim (ns_net s) (mkSim (clock_ (ns_sim s)) (next_seq_ (ns_sim s))
    (trace_hash_ (ns_sim s)) (prng_ (ns_sim s)) (queue_ (ns_sim s))))) as Hid
    by (destruct s as [n []]; by apply added_refl).
  destruct (SFleb p dbl_zero); [by do 2 eexists|]. destruct (SFleb dbl_one p); [by do 2 eexists|].
  destruct (next_u64_ok _ Hg) as (x & g' & Hn & _ & Hg').
  rewrite (bind_ok _ _ _ _ _ Hn). unfold mret, M_ret. do 2 eexists. split; [done|].
  split; [done..|]. exists []. split_and!; [done|simpl; lia|constructor].
Qed.

Definition latencies_ok (cfg : NetworkConfig) : Prop :=
  0 <= min_latency cfg <= max_latency cfg ∧ max_latency cfg + 1 < 2 ^ 64.

Lemma send_copy_added from to p s :
  prng_ok (prng_ (ns_sim s)) → latencies_ok (ncfg_ (ns_net s)) → 0 <= clock_ (ns_sim s) →
  clock_ (ns_sim s) + max_latency (ncfg_ (ns_net s)) < 2 ^ 64 →
  ∃ r s', Net.send_copy deliver fuel from to p s = (r, s') ∧ added 1 (mkMessage from to p) s s' ∧
          (r = Ok tt ∨ r = Throw out_of_fuel).
Proof.
  intros Hg ([Hl0 Hl1] & Hl2) Hc Hlt. unfold Net.send_copy, gets. unfold mbind at 1, M_bind at 1.
  destruct (handlers_ (ns_net s) !! to) as [fn|] eqn:Hfn.
  2: { do 2 eexists. split; [done|]. split; [by apply (added_weaken 0); [lia|apply added_refl]|by left]. }
  unfold Net.latency, Net.on_sim, Sim.random_range, Sim.on_prng, gets.
  set (cfg := ncfg_ (ns_net s)) in *.
  destruct (range_spec fuel (min_latency cfg) (wrap64 (max_latency cfg + 1)) (prng_ (ns_sim s)) Hg)
    as [(k & x & g' & _ & _ & Hg' & _ & _ & _ & Hr & Hv)|(_ & g' & Hg' & Hr)];
    [rewrite ?wrap64_id; unfold is_u64; lia..| |].
  - set (lat := min_latency cfg + _) in *. rewrite wrap64_id in Hv by (unfold is_u64; lia).
    unfold cfg in *. unfold mbind, M_bind. rewrite Hr. cbn [clock_]. rewrite schedule_eq. cbn.
    rewrite (wrap64_id (clock_ (ns_sim s) + lat)) by (unfold is_u64; lia).
    do 2 eexists. split; [done|]. split; [|by left].
    split; [done..|]. eexists [_]. split_and!; [done|simpl; lia|].
    apply Forall_singleton. exists fn. simpl. split_and!; [done|done|done|lia|lia].
  - unfold cfg in *. unfold mbind, M_bind. rewrite Hr. cbn. do 2 eexists. split; [done|]. split; [|by right].
    split; [done..|]. exists []. split_and!; [done|simpl; lia|constructor].
Qed.

Lemma send_added from to p s :
  prng_ok (prng_ (ns_sim s)) → latencies_ok (ncfg_ (ns_net s)) → 0 <= clock_ (ns_sim s) →
  clock_ (ns_sim s) + max_latency (ncfg_ (ns_net s)) < 2 ^ 64 →
  ∃ r s', Net.send deliver fuel from to p s = (r, s') ∧ added 2 (mkMessage from to p) s s' ∧
          (r = Ok tt ∨ r = Throw out_of_fuel) ∧
          (Net.partitioned (ns_net s) from to = true → s' = s ∧ r = Ok tt).
Proof.
  intros Hg Hl Hc Hlt. set (m := mkMessage from to p). unfold Net.send, gets.
  unfold mbind at 1, M_bind at 1.
  destruct (Net.partitioned (ns_net s) from to) eqn:Hpart.
  { do 2 eexists. split; [done|]. split_and!; [|by left|done].
    by apply (added_weaken 0); [lia|apply added_refl]. }
  destruct (bernoulli_added (drop_prob (ncfg_ (ns_net s))) m s Hg) as (b & s1 & E1 & A1).
  rewrite (bind_ok _ _ _ _ _ E1). destruct b.
  { do 2 eexists. split; [done|]. split_and!; [by eapply added_weaken; [|done]; lia|by left|done]. }
  pose proof A1 as [N1 C1 G1 _ _]. rewrite <-N1 in Hl, Hlt. rewrite <-C1 in Hc, Hlt.
  destruct (send_copy_added from to p s1 G1 Hl Hc Hlt) as (r2 & s2 & E2 & A2 & Hr2).
  pose proof (added_trans _ _ _ _ _ _ A1 A2) as A12. simpl in A12. unfold mbind at 1, M_bind at 1.
  rewrite E2. destruct Hr2 as [->| ->].
  2: { do 2 eexists. split; [done|]. split_and!; [by eapply added_weaken; [|done]; lia|by right|done]. }
  destruct (bernoulli_added (dup_prob (ncfg_ (ns_net s))) m s2) as (b & s3 & E3 & A3); [apply A2|].
  rewrite (bind_ok _ _ _ _ _ E3).
  pose proof (added_trans _ _ _ _ _ _ A12 A3) as A13. simpl in A13. destruct b; cbn [when].
  - pose proof A13 as [N3 C3 G3 _ _]. rewrite N1, <-N3 in Hl, Hlt. rewrite C1, <-C3 in Hc, Hlt.
    destruct (send_copy_added from to p s3 G3 Hl Hc Hlt) as (r4 & s4 & E4 & A4 & Hr4).
    do 2 eexists. split; [done|]. split_and!; [|done|done].
    apply (added_trans _ _ _ _ _ _ A13 A4).
  - do 2 eexists. split; [done|]. split_and!; [by eapply added_weaken; [|done]; lia|by left|done].
Qed.


(** ** Partitions *)

Lemma insert_all_lookup (g : Z) ids (m : gmap NodeId Z) k :
  fold_left (λ m id, <[id := g]> m) ids m !! k = if decide (k ∈ ids) then Some g else m !! k.
Proof.
  revert m. induction ids as [|x ids IH]; intros m; cbn [fold_left]; [by rewrite decide_False by apply not_elem_of_nil|].
  rewrite IH. destruct (decide (k ∈ ids)), (decide (k ∈ x :: ids)); try set_solver.
  - assert (k = x) as -> by set_solver. apply lookup_insert_eq.
  - apply lookup_insert_ne. set_solver.
Qed.

Lemma assign_groups_other g groups (m : gmap NodeId Z) k :
  (∀ ids, ids ∈ groups → k ∉ ids) → Net.assign_groups g groups m !! k = m !! k.
Proof.
  revert g m. induction groups as [|ids rest IH]; intros g m Hk; simpl; [done|].
  rewrite IH by set_solver. rewrite insert_all_lookup, decide_False; set_solver.
Qed.

Lemma assign_groups_lookup g groups (m : gmap NodeId Z) i ids k :
  NoDup (concat groups) → groups !! i = Some ids → k ∈ ids →
  Net.assign_groups g groups m !! k = Some (g + Z.of_nat i).
Proof.
  revert g m i. induction groups as [|ids0 rest IH]; intros g m i Hnd Hi Hk; [done|].
  simpl in *. apply NoDup_app in Hnd as (Hn0 & Hdisj & Hnr). destruct i as [|i]; simpl in *.
  - injection Hi as ->. rewrite assign_groups_other.
    + rewrite insert_all_lookup, decide_True by done. f_equal. lia.
    + intros ids' Hids' Hk'. apply (Hdisj k Hk). apply list_elem_of_In, in_concat.
      exists ids'. by rewrite <-!list_elem_of_In.
  - rewrite (IH _ _ i) by done. f_equal. lia.
Qed.

Lemma can_talk groups (n : Network H) a b :
  NoDup (concat groups) →
  Net.partitioned (mkNetwork (ncfg_ n) (handlers_ n) (Net.assign_groups 0 groups ∅) true) a b = false ↔
  ∃ ids, ids ∈ groups ∧ a ∈ ids ∧ b ∈ ids.
Proof.
  intros Hnd. unfold Net.partitioned. cbn [partitioned_ negb partition_group_].
  assert (∀ k, (∃ i ids, groups !! i = Some ids ∧ k ∈ ids ∧
                  Net.assign_groups 0 groups ∅ !! k = Some (Z.of_nat i)) ∨
               ((∀ ids, ids ∈ groups → k ∉ ids) ∧ Net.assign_groups 0 groups ∅ !! k = None)) as Hcase.
  { intros k. destruct (decide (Exists (λ ids, k ∈ ids) groups)) as [Hex|Hex].
    - left. apply Exists_exists in Hex as (ids & Hin & Hk).
      apply list_elem_of_lookup_1 in Hin as [i Hi]. exists i, ids.
      rewrite (assign_groups_lookup 0 groups ∅ i ids k) by done. done.
    - right. assert (∀ ids, ids ∈ groups → k ∉ ids) as Hno.
      { intros ids Hin Hk. apply Hex, Exists_exists. eauto. }
      split; [done|]. by rewrite assign_groups_other, lookup_empty. }
  destruct (Hcase a) as [(i & ids & Hi & Ha & ->)|[Hno ->]]; [|naive_solver].
  destruct (Hcase b) as [(j & ids' & Hj & Hb & ->)|[Hno ->]]; [|naive_solver].
  rewrite negb_false_iff, Z.eqb_eq. split.
  - intros Heq. assert (i = j) as -> by lia. exists ids. split; [by eapply list_elem_of_lookup_2|].
    naive_solver.
  - intros (ids0 & Hin & Ha0 & Hb0). apply list_elem_of_lookup_1 in Hin as [l Hl].
    pose proof (assign_groups_lookup 0 groups ∅ l ids0 a Hnd Hl Ha0) as E1.
    pose proof (assign_groups_lookup 0 groups ∅ l ids0 b Hnd Hl Hb0) as E2.
    rewrite (assign_groups_lookup 0 groups ∅ i ids a) in E1 by done.
    rewrite (assign_groups_lookup 0 groups ∅ j ids' b) in E2 by done. naive_solver lia.
Qed.

End NetFacts.

(** ** Properties *)

(** C39: the network neither forges nor corrupts.  Whatever the drop and
    duplication probabilities, [send(from, to, payload)] leaves the network as
    it is and adds at most two deliveries to the queue, each of exactly this
    message to the callback registered for [to] at that moment, with a latency
    within the configured bounds; across a partition it adds none. *)
Theorem send_integrity {H A} (deliver : H → Message → A) (fuel : nat) (from to : NodeId) (p : bytes)
    (s : netsim H A) (Hg : prng_ok (prng_ (ns_sim s))) (Hl : latencies_ok (ncfg_ (ns_net s)))
    (Hc : 0 <= clock_ (ns_sim s))
    (Hlt : clock_ (ns_sim s) + max_latency (ncfg_ (ns_net s)) < 2 ^ 64) :
  ∃ r s', Net.send deliver fuel from to p s = (r, s') ∧
    added deliver 2 (mkMessage from to p) s s' ∧
    (r = Ok tt ∨ r = Throw out_of_fuel) ∧
    (Net.partitioned (ns_net s) from to = true → s' = s ∧ r = Ok tt).
Proof. by apply send_added. Qed.

(** Partitions separate.  After [partition(groups)] with disjoint groups
    two nodes can exchange messages exactly if some group lists both; nodes in
    no group reach nobody.  After [heal()] everyone reaches everyone. *)
Theorem partition_separates {H A} (groups : list (list NodeId)) (s : netsim H A) (a b : NodeId)
    (Hdisj : NoDup (concat groups)) :
  (Net.partitioned (ns_net (Net.partition groups s).2) a b = false ↔
   ∃ ids, ids ∈ groups ∧ a ∈ ids ∧ b ∈ ids) ∧
  Net.partitioned (ns_net (Net.heal s).2) a b = false.
Proof. split; [by apply can_talk|done]. Qed.

(** A network of three registered nodes that duplicates every message. *)
Definition demo_net : netsim nat (nat * Message) :=
  mkNetsim (mkNetwork (mkNetworkConfig 1000 20000 dbl_zero dbl_one)
              (<[1 := 1%nat]> (<[2 := 2%nat]> (<[3 := 3%nat]> ∅))) ∅ false)
           (make_simulator 7).

Lemma send_integrity_witness :
  (∃ r s', Net.send pair 4 1 2 [9] demo_net = (r, s') ∧
    added pair 2 (mkMessage 1 2 [9]) demo_net s' ∧ (r = Ok tt ∨ r = Throw out_of_fuel) ∧
    (Net.partitioned (ns_net demo_net) 1 2 = true → s' = demo_net ∧ r = Ok tt)) ∧
  (ev_action <$> heap_ (queue_ (ns_sim (Net.send pair 4 1 2 [9] demo_net).2))) =
    [(2%nat, mkMessage 1 2 [9]); (2%nat, mkMessage 1 2 [9])].
Proof.
  split; [|vm_compute; reflexivity].
  apply (send_integrity pair 4 1 2 [9] demo_net); [apply make_prng_ok|by split|done|done].
Defined.

Lemma partition_separates_witness :
  ((Net.partitioned (ns_net (Net.partition [[1; 2]; [3]] demo_net).2) 1 2 = false ↔
    ∃ ids, ids ∈ [[1; 2]; [3]] ∧ 1 ∈ ids ∧ 2 ∈ ids) ∧
   Net.partitioned (ns_net (Net.heal demo_net).2) 1 2 = false) ∧
  Net.partitioned (ns_net (Net.partition [[1; 2]; [3]] demo_net).2) 1 3 = true.
Proof.
  split; [|vm_compute; reflexivity].
  apply (partition_separates [[1; 2]; [3]] demo_net 1 2).
  apply (bool_decide_unpack _). vm_compute. done.
Defined.
