(* ===== verification/Node.v ===== *)
(** * The Raft node: [RaftNode] of [src/raft/node.hpp/.cpp]

    The state is the record [RaftNode] with the fields of the class; every
    method is a computation of the monad over the node and its environment
    ([nstate E]), in the order of the source's statements.  The stores are the
    in-memory [DurableStore]s the constructor makes by default. *)

From S2P Require Import Prelude Codec DurableStore Types Wal KvStore RaftLog Rpc Env.

(** [struct RaftConfig] with its defaults. *)
Record RaftConfig := mkRaftConfig {
  election_timeout_lo : SimTime;
  heartbeat_interval : SimTime;
  client_timeout : SimTime;
  max_entries_per_ae : Z;
  snapshot_threshold : Z;
  read_timeout : SimTime;
  bug_commit_prior_term : bool;
  bug_skip_vote_uptodate : bool;
}.

Definition default_config : RaftConfig :=
  mkRaftConfig (150 * kMsec) (50 * kMsec) (500 * kMsec) 64 0 (2000 * kMsec) false false.

(** A [ClientCallback]: one supplied from outside, or the closure of
    [handle_client_request] that sends the reply to [from]. *)
Inductive ClientCallback :=
| CbToken (token : Z)
| CbReply (from : NodeId) (cr : ClientRequest).

(** [struct PendingRead]; [pr_cb] is the token of the [ReadCallback]. *)
Record PendingRead := mkPendingRead {
  pr_round : Z;
  pr_read_index : Index;
  pr_key : string;
  pr_cb : Z;
  pr_acks : Z;
  pr_timeout_id : EventId;
}.

Record RaftNode := mkRaftNode {
  id_ : NodeId;
  peers_ : list NodeId;
  cfg_ : RaftConfig;
  running_ : bool;
  current_term_ : Term;
  voted_for_ : option NodeId;
  log_ : RaftLog;
  meta_store_ : DurableStore;
  log_store_ : DurableStore;
  snapshot_store_ : DurableStore;
  snap_last_index_ : Index;
  snap_last_term_ : Term;
  snap_data_ : bytes;
  role_ : Role;
  commit_index_ : Index;
  last_applied_ : Index;
  leader_id_ : option NodeId;
  kv_ : KvStore;
  votes_received_ : gset NodeId;
  next_index_ : gmap NodeId Index;
  match_index_ : gmap NodeId Index;
  pending_clients_ : gmap Index (ClientCallback * NodeId);
  pending_reads_ : list PendingRead;
  next_read_round_ : Z;
  election_timeout_id_ : EventId;
  election_scheduled_ : bool;
  election_generation_ : Z;
  heartbeat_id_ : EventId;
  heartbeat_scheduled_ : bool;
  state_change_cb_ : bool;
  election_term_ : Term;
  vote_count_ : Z;
  config_change_pending_ : bool;
}.

(** Field updates. *)
#[export] Instance set_id_ : Setter id_ := λ f n,
  mkRaftNode
    (f (id_ n)) (peers_ n) (cfg_ n) (running_ n) (current_term_ n) (voted_for_ n) (log_ n)
    (meta_store_ n) (log_store_ n) (snapshot_store_ n) (snap_last_index_ n) (snap_last_term_ n)
    (snap_data_ n) (role_ n) (commit_index_ n) (last_applied_ n) (leader_id_ n) (kv_ n)
    (votes_received_ n) (next_index_ n) (match_index_ n) (pending_clients_ n) (pending_reads_ n)
    (next_read_round_ n) (election_timeout_id_ n) (election_scheduled_ n) (election_generation_
    n) (heartbeat_id_ n) (heartbeat_scheduled_ n) (state_change_cb_ n) (election_term_ n)
    (vote_count_ n) (config_change_pending_ n).
#[export] Instance set_peers_ : Setter peers_ := λ f n,
  mkRaftNode
    (id_ n) (f (peers_ n)) (cfg_ n) (running_ n) (current_term_ n) (voted_for_ n) (log_ n)
    (meta_store_ n) (log_store_ n) (snapshot_store_ n) (snap_last_index_ n) (snap_last_term_ n)
    (snap_data_ n) (role_ n) (commit_index_ n) (last_applied_ n) (leader_id_ n) (kv_ n)
    (votes_received_ n) (next_index_ n) (match_index_ n) (pending_clients_ n) (pending_reads_ n)
    (next_read_round_ n) (election_timeout_id_ n) (election_scheduled_ n) (election_generation_
    n) (heartbeat_id_ n) (heartbeat_scheduled_ n) (state_change_cb_ n) (election_term_ n)
    (vote_count_ n) (config_change_pending_ n).
#[export] Instance set_cfg_ : Setter cfg_ := λ f n,
  mkRaftNode
    (id_ n) (peers_ n) (f (cfg_ n)) (running_ n) (current_term_ n) (voted_for_ n) (log_ n)
    (meta_store_ n) (log_store_ n) (snapshot_store_ n) (snap_last_index_ n) (snap_last_term_ n)
    (snap_data_ n) (role_ n) (commit_index_ n) (last_applied_ n) (leader_id_ n) (kv_ n)
    (votes_received_ n) (next_index_ n) (match_index_ n) (pending_clients_ n) (pending_reads_ n)
    (next_read_round_ n) (election_timeout_id_ n) (election_scheduled_ n) (election_generation_
    n) (heartbeat_id_ n) (heartbeat_scheduled_ n) (state_change_cb_ n) (election_term_ n)
    (vote_count_ n) (config_change_pending_ n).
#[export] Instance set_running_ : Setter running_ := λ f n,
  mkRaftNode
    (id_ n) (peers_ n) (cfg_ n) (f (running_ n)) (current_term_ n) (voted_for_ n) (log_ n)
    (meta_store_ n) (log_store_ n) (snapshot_store_ n) (snap_last_index_ n) (snap_last_term_ n)
    (snap_data_ n) (role_ n) (commit_index_ n) (last_applied_ n) (leader_id_ n) (kv_ n)
    (votes_received_ n) (next_index_ n) (match_index_ n) (pending_clients_ n) (pending_reads_ n)
    (next_read_round_ n) (election_timeout_id_ n) (election_scheduled_ n) (election_generation_
    n) (heartbeat_id_ n) (heartbeat_scheduled_ n) (state_change_cb_ n) (election_term_ n)
    (vote_count_ n) (config_change_pending_ n).
#[export] Instance set_current_term_ : Setter current_term_ := λ f n,
  mkRaftNode
    (id_ n) (peers_ n) (cfg_ n) (running_ n) (f (current_term_ n)) (voted_for_ n) (log_ n)
    (meta_store_ n) (log_store_ n) (snapshot_store_ n) (snap_last_index_ n) (snap_last_term_ n)
    (snap_data_ n) (role_ n) (commit_index_ n) (last_applied_ n) (leader_id_ n) (kv_ n)
    (votes_received_ n) (next_index_ n) (match_index_ n) (pending_clients_ n) (pending_reads_ n)
    (next_read_round_ n) (election_timeout_id_ n) (election_scheduled_ n) (election_generation_
    n) (heartbeat_id_ n) (heartbeat_scheduled_ n) (state_change_cb_ n) (election_term_ n)
    (vote_count_ n) (config_change_pending_ n).
#[export] Instance set_voted_for_ : Setter voted_for_ := λ f n,
  mkRaftNode
    (id_ n) (peers_ n) (cfg_ n) (running_ n) (current_term_ n) (f (voted_for_ n)) (log_ n)
    (meta_store_ n) (log_store_ n) (snapshot_store_ n) (snap_last_index_ n) (snap_last_term_ n)
    (snap_data_ n) (role_ n) (commit_index_ n) (last_applied_ n) (leader_id_ n) (kv_ n)
    (votes_received_ n) (next_index_ n) (match_index_ n) (pending_clients_ n) (pending_reads_ n)
    (next_read_round_ n) (election_timeout_id_ n) (election_scheduled_ n) (election_generation_
    n) (heartbeat_id_ n) (heartbeat_scheduled_ n) (state_change_cb_ n) (election_term_ n)
    (vote_count_ n) (config_change_pending_ n).
#[export] Instance set_log_ : Setter log_ := λ f n,
  mkRaftNode
    (id_ n) (peers_ n) (cfg_ n) (running_ n) (current_term_ n) (voted_for_ n) (f (log_ n))
    (meta_store_ n) (log_store_ n) (snapshot_store_ n) (snap_last_index_ n) (snap_last_term_ n)
    (snap_data_ n) (role_ n) (commit_index_ n) (last_applied_ n) (leader_id_ n) (kv_ n)
    (votes_received_ n) (next_index_ n) (match_index_ n) (pending_clients_ n) (pending_reads_ n)
    (next_read_round_ n) (election_timeout_id_ n) (election_scheduled_ n) (election_generation_
    n) (heartbeat_id_ n) (heartbeat_scheduled_ n) (state_change_cb_ n) (election_term_ n)
    (vote_count_ n) (config_change_pending_ n).
#[export] Instance set_meta_store_ : Setter meta_store_ := λ f n,
  mkRaftNode
    (id_ n) (peers_ n) (cfg_ n) (running_ n) (current_term_ n) (voted_for_ n) (log_ n) (f
    (meta_store_ n)) (log_store_ n) (snapshot_store_ n) (snap_last_index_ n) (snap_last_term_ n)
    (snap_data_ n) (role_ n) (commit_index_ n) (last_applied_ n) (leader_id_ n) (kv_ n)
    (votes_received_ n) (next_index_ n) (match_index_ n) (pending_clients_ n) (pending_reads_ n)
    (next_read_round_ n) (election_timeout_id_ n) (election_scheduled_ n) (election_generation_
    n) (heartbeat_id_ n) (heartbeat_scheduled_ n) (state_change_cb_ n) (election_term_ n)
    (vote_count_ n) (config_change_pending_ n).
#[export] Instance set_log_store_ : Setter log_store_ := λ f n,
  mkRaftNode
    (id_ n) (peers_ n) (cfg_ n) (running_ n) (current_term_ n) (voted_for_ n) (log_ n)
    (meta_store_ n) (f (log_store_ n)) (snapshot_store_ n) (snap_last_index_ n) (snap_last_term_
    n) (snap_data_ n) (role_ n) (commit_index_ n) (last_applied_ n) (leader_id_ n) (kv_ n)
    (votes_received_ n) (next_index_ n) (match_index_ n) (pending_clients_ n) (pending_reads_ n)
    (next_read_round_ n) (election_timeout_id_ n) (election_scheduled_ n) (election_generation_
    n) (heartbeat_id_ n) (heartbeat_scheduled_ n) (state_change_cb_ n) (election_term_ n)
    (vote_count_ n) (config_change_pending_ n).
#[export] Instance set_snapshot_store_ : Setter snapshot_store_ := λ f n,
  mkRaftNode
    (id_ n) (peers_ n) (cfg_ n) (running_ n) (current_term_ n) (voted_for_ n) (log_ n)
    (meta_store_ n) (log_store_ n) (f (snapshot_store_ n)) (snap_last_index_ n) (snap_last_term_
    n) (snap_data_ n) (role_ n) (commit_index_ n) (last_applied_ n) (leader_id_ n) (kv_ n)
    (votes_received_ n) (next_index_ n) (match_index_ n) (pending_clients_ n) (pending_reads_ n)
    (next_read_round_ n) (election_timeout_id_ n) (election_scheduled_ n) (election_generation_
    n) (heartbeat_id_ n) (heartbeat_scheduled_ n) (state_change_cb_ n) (election_term_ n)
    (vote_count_ n) (config_change_pending_ n).
#[export] Instance set_snap_last_index_ : Setter snap_last_index_ := λ f n,
  mkRaftNode
    (id_ n) (peers_ n) (cfg_ n) (running_ n) (current_term_ n) (voted_for_ n) (log_ n)
    (meta_store_ n) (log_store_ n) (snapshot_store_ n) (f (snap_last_index_ n)) (snap_last_term_
    n) (snap_data_ n) (role_ n) (commit_index_ n) (last_applied_ n) (leader_id_ n) (kv_ n)
    (votes_received_ n) (next_index_ n) (match_index_ n) (pending_clients_ n) (pending_reads_ n)
    (next_read_round_ n) (election_timeout_id_ n) (election_scheduled_ n) (election_generation_
    n) (heartbeat_id_ n) (heartbeat_scheduled_ n) (state_change_cb_ n) (election_term_ n)
    (vote_count_ n) (config_change_pending_ n).
#[export] Instance set_snap_last_term_ : Setter snap_last_term_ := λ f n,
  mkRaftNode
    (id_ n) (peers_ n) (cfg_ n) (running_ n) (current_term_ n) (voted_for_ n) (log_ n)
    (meta_store_ n) (log_store_ n) (snapshot_store_ n) (snap_last_index_ n) (f (snap_last_term_
    n)) (snap_data_ n) (role_ n) (commit_index_ n) (last_applied_ n) (leader_id_ n) (kv_ n)
    (votes_received_ n) (next_index_ n) (match_index_ n) (pending_clients_ n) (pending_reads_ n)
    (next_read_round_ n) (election_timeout_id_ n) (election_scheduled_ n) (election_generation_
    n) (heartbeat_id_ n) (heartbeat_scheduled_ n) (state_change_cb_ n) (election_term_ n)
    (vote_count_ n) (config_change_pending_ n).
#[export] Instance set_snap_data_ : Setter snap_data_ := λ f n,
  mkRaftNode
    (id_ n) (peers_ n) (cfg_ n) (running_ n) (current_term_ n) (voted_for_ n) (log_ n)
    (meta_store_ n) (log_store_ n) (snapshot_store_ n) (snap_last_index_ n) (snap_last_term_ n)
    (f (snap_data_ n)) (role_ n) (commit_index_ n) (last_applied_ n) (leader_id_ n) (kv_ n)
    (votes_received_ n) (next_index_ n) (match_index_ n) (pending_clients_ n) (pending_reads_ n)
    (next_read_round_ n) (election_timeout_id_ n) (election_scheduled_ n) (election_generation_
    n) (heartbeat_id_ n) (heartbeat_scheduled_ n) (state_change_cb_ n) (election_term_ n)
    (vote_count_ n) (config_change_pending_ n).
#[export] Instance set_role_ : Setter role_ := λ f n,
  mkRaftNode
    (id_ n) (peers_ n) (cfg_ n) (running_ n) (current_term_ n) (voted_for_ n) (log_ n)
    (meta_store_ n) (log_store_ n) (snapshot_store_ n) (snap_last_index_ n) (snap_last_term_ n)
    (snap_data_ n) (f (role_ n)) (commit_index_ n) (last_applied_ n) (leader_id_ n) (kv_ n)
    (votes_received_ n) (next_index_ n) (match_index_ n) (pending_clients_ n) (pending_reads_ n)
    (next_read_round_ n) (election_timeout_id_ n) (election_scheduled_ n) (election_generation_
    n) (heartbeat_id_ n) (heartbeat_scheduled_ n) (state_change_cb_ n) (election_term_ n)
    (vote_count_ n) (config_change_pending_ n).
#[export] Instance set_commit_index_ : Setter commit_index_ := λ f n,
  mkRaftNode
    (id_ n) (peers_ n) (cfg_ n) (running_ n) (current_term_ n) (voted_for_ n) (log_ n)
    (meta_store_ n) (log_store_ n) (snapshot_store_ n) (snap_last_index_ n) (snap_last_term_ n)
    (snap_data_ n) (role_ n) (f (commit_index_ n)) (last_applied_ n) (leader_id_ n) (kv_ n)
    (votes_received_ n) (next_index_ n) (match_index_ n) (pending_clients_ n) (pending_reads_ n)
    (next_read_round_ n) (election_timeout_id_ n) (election_scheduled_ n) (election_generation_
    n) (heartbeat_id_ n) (heartbeat_scheduled_ n) (state_change_cb_ n) (election_term_ n)
    (vote_count_ n) (config_change_pending_ n).
#[export] Instance set_last_applied_ : Setter last_applied_ := λ f n,
  mkRaftNode
    (id_ n) (peers_ n) (cfg_ n) (running_ n) (current_term_ n) (voted_for_ n) (log_ n)
    (meta_store_ n) (log_store_ n) (snapshot_store_ n) (snap_last_index_ n) (snap_last_term_ n)
    (snap_data_ n) (role_ n) (commit_index_ n) (f (last_applied_ n)) (leader_id_ n) (kv_ n)
    (votes_received_ n) (next_index_ n) (match_index_ n) (pending_clients_ n) (pending_reads_ n)
    (next_read_round_ n) (election_timeout_id_ n) (election_scheduled_ n) (election_generation_
    n) (heartbeat_id_ n) (heartbeat_scheduled_ n) (state_change_cb_ n) (election_term_ n)
    (vote_count_ n) (config_change_pending_ n).
#[export] Instance set_leader_id_ : Setter leader_id_ := λ f n,
  mkRaftNode
    (id_ n) (peers_ n) (cfg_ n) (running_ n) (current_term_ n) (voted_for_ n) (log_ n)
    (meta_store_ n) (log_store_ n) (snapshot_store_ n) (snap_last_index_ n) (snap_last_term_ n)
    (snap_data_ n) (role_ n) (commit_index_ n) (last_applied_ n) (f (leader_id_ n)) (kv_ n)
    (votes_received_ n) (next_index_ n) (match_index_ n) (pending_clients_ n) (pending_reads_ n)
    (next_read_round_ n) (election_timeout_id_ n) (election_scheduled_ n) (election_generation_
    n) (heartbeat_id_ n) (heartbeat_scheduled_ n) (state_change_cb_ n) (election_term_ n)
    (vote_count_ n) (config_change_pending_ n).
#[export] Instance set_kv_ : Setter kv_ := λ f n,
  mkRaftNode
    (id_ n) (peers_ n) (cfg_ n) (running_ n) (current_term_ n) (voted_for_ n) (log_ n)
    (meta_store_ n) (log_store_ n) (snapshot_store_ n) (snap_last_index_ n) (snap_last_term_ n)
    (snap_data_ n) (role_ n) (commit_index_ n) (last_applied_ n) (leader_id_ n) (f (kv_ n))
    (votes_received_ n) (next_index_ n) (match_index_ n) (pending_clients_ n) (pending_reads_ n)
    (next_read_round_ n) (election_timeout_id_ n) (election_scheduled_ n) (election_generation_
    n) (heartbeat_id_ n) (heartbeat_scheduled_ n) (state_change_cb_ n) (election_term_ n)
    (vote_count_ n) (config_change_pending_ n).
#[export] Instance set_votes_received_ : Setter votes_received_ := λ f n,
  mkRaftNode
    (id_ n) (peers_ n) (cfg_ n) (running_ n) (current_term_ n) (voted_for_ n) (log_ n)
    (meta_store_ n) (log_store_ n) (snapshot_store_ n) (snap_last_index_ n) (snap_last_term_ n)
    (snap_data_ n) (role_ n) (commit_index_ n) (last_applied_ n) (leader_id_ n) (kv_ n) (f
    (votes_received_ n)) (next_index_ n) (match_index_ n) (pending_clients_ n) (pending_reads_
    n) (next_read_round_ n) (election_timeout_id_ n) (election_scheduled_ n)
    (election_generation_ n) (heartbeat_id_ n) (heartbeat_scheduled_ n) (state_change_cb_ n)
    (election_term_ n) (vote_count_ n) (config_change_pending_ n).
#[export] Instance set_next_index_ : Setter next_index_ := λ f n,
  mkRaftNode
    (id_ n) (peers_ n) (cfg_ n) (running_ n) (current_term_ n) (voted_for_ n) (log_ n)
    (meta_store_ n) (log_store_ n) (snapshot_store_ n) (snap_last_index_ n) (snap_last_term_ n)
    (snap_data_ n) (role_ n) (commit_index_ n) (last_applied_ n) (leader_id_ n) (kv_ n)
    (votes_received_ n) (f (next_index_ n)) (match_index_ n) (pending_clients_ n)
    (pending_reads_ n) (next_read_round_ n) (election_timeout_id_ n) (election_scheduled_ n)
    (election_generation_ n) (heartbeat_id_ n) (heartbeat_scheduled_ n) (state_change_cb_ n)
    (election_term_ n) (vote_count_ n) (config_change_pending_ n).
#[export] Instance set_match_index_ : Setter match_index_ := λ f n,
  mkRaftNode
    (id_ n) (peers_ n) (cfg_ n) (running_ n) (current_term_ n) (voted_for_ n) (log_ n)
    (meta_store_ n) (log_store_ n) (snapshot_store_ n) (snap_last_index_ n) (snap_last_term_ n)
    (snap_data_ n) (role_ n) (commit_index_ n) (last_applied_ n) (leader_id_ n) (kv_ n)
    (votes_received_ n) (next_index_ n) (f (match_index_ n)) (pending_clients_ n)
    (pending_reads_ n) (next_read_round_ n) (election_timeout_id_ n) (election_scheduled_ n)
    (election_generation_ n) (heartbeat_id_ n) (heartbeat_scheduled_ n) (state_change_cb_ n)
    (election_term_ n) (vote_count_ n) (config_change_pending_ n).
#[export] Instance set_pending_clients_ : Setter pending_clients_ := λ f n,
  mkRaftNode
    (id_ n) (peers_ n) (cfg_ n) (running_ n) (current_term_ n) (voted_for_ n) (log_ n)
    (meta_store_ n) (log_store_ n) (snapshot_store_ n) (snap_last_index_ n) (snap_last_term_ n)
    (snap_data_ n) (role_ n) (commit_index_ n) (last_applied_ n) (leader_id_ n) (kv_ n)
    (votes_received_ n) (next_index_ n) (match_index_ n) (f (pending_clients_ n))
    (pending_reads_ n) (next_read_round_ n) (election_timeout_id_ n) (election_scheduled_ n)
    (election_generation_ n) (heartbeat_id_ n) (heartbeat_scheduled_ n) (state_change_cb_ n)
    (election_term_ n) (vote_count_ n) (config_change_pending_ n).
#[export] Instance set_pending_reads_ : Setter pending_reads_ := λ f n,
  mkRaftNode
    (id_ n) (peers_ n) (cfg_ n) (running_ n) (current_term_ n) (voted_for_ n) (log_ n)
    (meta_store_ n) (log_store_ n) (snapshot_store_ n) (snap_last_index_ n) (snap_last_term_ n)
    (snap_data_ n) (role_ n) (commit_index_ n) (last_applied_ n) (leader_id_ n) (kv_ n)
    (votes_received_ n) (next_index_ n) (match_index_ n) (pending_clients_ n) (f (pending_reads_
    n)) (next_read_round_ n) (election_timeout_id_ n) (election_scheduled_ n)
    (election_generation_ n) (heartbeat_id_ n) (heartbeat_scheduled_ n) (state_change_cb_ n)
    (election_term_ n) (vote_count_ n) (config_change_pending_ n).
#[export] Instance set_next_read_round_ : Setter next_read_round_ := λ f n,
  mkRaftNode
    (id_ n) (peers_ n) (cfg_ n) (running_ n) (current_term_ n) (voted_for_ n) (log_ n)
    (meta_store_ n) (log_store_ n) (snapshot_store_ n) (snap_last_index_ n) (snap_last_term_ n)
    (snap_data_ n) (role_ n) (commit_index_ n) (last_applied_ n) (leader_id_ n) (kv_ n)
    (votes_received_ n) (next_index_ n) (match_index_ n) (pending_clients_ n) (pending_reads_ n)
    (f (next_read_round_ n)) (election_timeout_id_ n) (election_scheduled_ n)
    (election_generation_ n) (heartbeat_id_ n) (heartbeat_scheduled_ n) (state_change_cb_ n)
    (election_term_ n) (vote_count_ n) (config_change_pending_ n).
#[export] Instance set_election_timeout_id_ : Setter election_timeout_id_ := λ f n,
  mkRaftNode
    (id_ n) (peers_ n) (cfg_ n) (running_ n) (current_term_ n) (voted_for_ n) (log_ n)
    (meta_store_ n) (log_store_ n) (snapshot_store_ n) (snap_last_index_ n) (snap_last_term_ n)
    (snap_data_ n) (role_ n) (commit_index_ n) (last_applied_ n) (leader_id_ n) (kv_ n)
    (votes_received_ n) (next_index_ n) (match_index_ n) (pending_clients_ n) (pending_reads_ n)
    (next_read_round_ n) (f (election_timeout_id_ n)) (election_scheduled_ n)
    (election_generation_ n) (heartbeat_id_ n) (heartbeat_scheduled_ n) (state_change_cb_ n)
    (election_term_ n) (vote_count_ n) (config_change_pending_ n).
#[export] Instance set_election_scheduled_ : Setter election_scheduled_ := λ f n,
  mkRaftNode
    (id_ n) (peers_ n) (cfg_ n) (running_ n) (current_term_ n) (voted_for_ n) (log_ n)
    (meta_store_ n) (log_store_ n) (snapshot_store_ n) (snap_last_index_ n) (snap_last_term_ n)
    (snap_data_ n) (role_ n) (commit_index_ n) (last_applied_ n) (leader_id_ n) (kv_ n)
    (votes_received_ n) (next_index_ n) (match_index_ n) (pending_clients_ n) (pending_reads_ n)
    (next_read_round_ n) (election_timeout_id_ n) (f (election_scheduled_ n))
    (election_generation_ n) (heartbeat_id_ n) (heartbeat_scheduled_ n) (state_change_cb_ n)
    (election_term_ n) (vote_count_ n) (config_change_pending_ n).
#[export] Instance set_election_generation_ : Setter election_generation_ := λ f n,
  mkRaftNode
    (id_ n) (peers_ n) (cfg_ n) (running_ n) (current_term_ n) (voted_for_ n) (log_ n)
    (meta_store_ n) (log_store_ n) (snapshot_store_ n) (snap_last_index_ n) (snap_last_term_ n)
    (snap_data_ n) (role_ n) (commit_index_ n) (last_applied_ n) (leader_id_ n) (kv_ n)
    (votes_received_ n) (next_index_ n) (match_index_ n) (pending_clients_ n) (pending_reads_ n)
    (next_read_round_ n) (election_timeout_id_ n) (election_scheduled_ n) (f
    (election_generation_ n)) (heartbeat_id_ n) (heartbeat_scheduled_ n) (state_change_cb_ n)
    (election_term_ n) (vote_count_ n) (config_change_pending_ n).
#[export] Instance set_heartbeat_id_ : Setter heartbeat_id_ := λ f n,
  mkRaftNode
    (id_ n) (peers_ n) (cfg_ n) (running_ n) (current_term_ n) (voted_for_ n) (log_ n)
    (meta_store_ n) (log_store_ n) (snapshot_store_ n) (snap_last_index_ n) (snap_last_term_ n)
    (snap_data_ n) (role_ n) (commit_index_ n) (last_applied_ n) (leader_id_ n) (kv_ n)
    (votes_received_ n) (next_index_ n) (match_index_ n) (pending_clients_ n) (pending_reads_ n)
    (next_read_round_ n) (election_timeout_id_ n) (election_scheduled_ n) (election_generation_
    n) (f (heartbeat_id_ n)) (heartbeat_scheduled_ n) (state_change_cb_ n) (election_term_ n)
    (vote_count_ n) (config_change_pending_ n).
#[export] Instance set_heartbeat_scheduled_ : Setter heartbeat_scheduled_ := λ f n,
  mkRaftNode
    (id_ n) (peers_ n) (cfg_ n) (running_ n) (current_term_ n) (voted_for_ n) (log_ n)
    (meta_store_ n) (log_store_ n) (snapshot_store_ n) (snap_last_index_ n) (snap_last_term_ n)
    (snap_data_ n) (role_ n) (commit_index_ n) (last_applied_ n) (leader_id_ n) (kv_ n)
    (votes_received_ n) (next_index_ n) (match_index_ n) (pending_clients_ n) (pending_reads_ n)
    (next_read_round_ n) (election_timeout_id_ n) (election_scheduled_ n) (election_generation_
    n) (heartbeat_id_ n) (f (heartbeat_scheduled_ n)) (state_change_cb_ n) (election_term_ n)
    (vote_count_ n) (config_change_pending_ n).
#[export] Instance set_state_change_cb_ : Setter state_change_cb_ := λ f n,
  mkRaftNode
    (id_ n) (peers_ n) (cfg_ n) (running_ n) (current_term_ n) (voted_for_ n) (log_ n)
    (meta_store_ n) (log_store_ n) (snapshot_store_ n) (snap_last_index_ n) (snap_last_term_ n)
    (snap_data_ n) (role_ n) (commit_index_ n) (last_applied_ n) (leader_id_ n) (kv_ n)
    (votes_received_ n) (next_index_ n) (match_index_ n) (pending_clients_ n) (pending_reads_ n)
    (next_read_round_ n) (election_timeout_id_ n) (election_scheduled_ n) (election_generation_
    n) (heartbeat_id_ n) (heartbeat_scheduled_ n) (f (state_change_cb_ n)) (election_term_ n)
    (vote_count_ n) (config_change_pending_ n).
#[export] Instance set_election_term_ : Setter election_term_ := λ f n,
  mkRaftNode
    (id_ n) (peers_ n) (cfg_ n) (running_ n) (current_term_ n) (voted_for_ n) (log_ n)
    (meta_store_ n) (log_store_ n) (snapshot_store_ n) (snap_last_index_ n) (snap_last_term_ n)
    (snap_data_ n) (role_ n) (commit_index_ n) (last_applied_ n) (leader_id_ n) (kv_ n)
    (votes_received_ n) (next_index_ n) (match_index_ n) (pending_clients_ n) (pending_reads_ n)
    (next_read_round_ n) (election_timeout_id_ n) (election_scheduled_ n) (election_generation_
    n) (heartbeat_id_ n) (heartbeat_scheduled_ n) (state_change_cb_ n) (f (election_term_ n))
    (vote_count_ n) (config_change_pending_ n).
#[export] Instance set_vote_count_ : Setter vote_count_ := λ f n,
  mkRaftNode
    (id_ n) (peers_ n) (cfg_ n) (running_ n) (current_term_ n) (voted_for_ n) (log_ n)
    (meta_store_ n) (log_store_ n) (snapshot_store_ n) (snap_last_index_ n) (snap_last_term_ n)
    (snap_data_ n) (role_ n) (commit_index_ n) (last_applied_ n) (leader_id_ n) (kv_ n)
    (votes_received_ n) (next_index_ n) (match_index_ n) (pending_clients_ n) (pending_reads_ n)
    (next_read_round_ n) (election_timeout_id_ n) (election_scheduled_ n) (election_generation_
    n) (heartbeat_id_ n) (heartbeat_scheduled_ n) (state_change_cb_ n) (election_term_ n) (f
    (vote_count_ n)) (config_change_pending_ n).
#[export] Instance set_config_change_pending_ : Setter config_change_pending_ := λ f n,
  mkRaftNode
    (id_ n) (peers_ n) (cfg_ n) (running_ n) (current_term_ n) (voted_for_ n) (log_ n)
    (meta_store_ n) (log_store_ n) (snapshot_store_ n) (snap_last_index_ n) (snap_last_term_ n)
    (snap_data_ n) (role_ n) (commit_index_ n) (last_applied_ n) (leader_id_ n) (kv_ n)
    (votes_received_ n) (next_index_ n) (match_index_ n) (pending_clients_ n) (pending_reads_ n)
    (next_read_round_ n) (election_timeout_id_ n) (election_scheduled_ n) (election_generation_
    n) (heartbeat_id_ n) (heartbeat_scheduled_ n) (state_change_cb_ n) (election_term_ n)
    (vote_count_ n) (f (config_change_pending_ n)).

(** The constructor: sorted peers, default (in-memory) stores. *)
Definition make_node (id : NodeId) (peers : list NodeId) (cfg : RaftConfig) : RaftNode :=
  mkRaftNode id (merge_sort Z.le peers) cfg false
    0 None empty_log empty_store empty_store empty_store
    0 0 [] Follower 0 0 None empty_kv ∅ ∅ ∅ ∅ [] 1
    0 false 0 0 false false 0 0 false.

(** ** The node and its environment *)
Record nstate (E : Type) := mkN { nd : RaftNode; env : E }.
Arguments mkN {E} _ _.
Arguments nd {E} _.
Arguments env {E} _.

(** [node.field] as a read, [node.field = v] as a write. *)
Definition rd {E A} (f : RaftNode → A) : M (nstate E) A := gets (λ s, f (nd s)).
Definition upd {E} (f : RaftNode → RaftNode) : M (nstate E) unit :=
  modify (λ s, mkN (f (nd s)) (env s)).
Notation "proj ::= v" := (upd (set_field proj (λ _, v)))
  (at level 60, right associativity) : update_scope.

(** A call into the environment. *)
Definition liftE {E A} (m : M E A) : M (nstate E) A := λ s,
  let '(r, e) := m (env s) in (r, mkN (nd s) e).

(** A pure computation that may throw. *)
Definition lift_result {S A} (r : result A) : M S A := λ s, (r, s).

(** A [Decoder] over a buffer of its own. *)
Definition run_decoder {S A} (d : M bytes A) (buf : bytes) : M S A := λ s, ((d buf).1, s).

(** [m[k]] of a [std::map]: inserts 0 when the key is absent, then reads. *)
Definition touch (k : NodeId) (m : gmap NodeId Index) : gmap NodeId Index :=
  match m !! k with Some _ => m | None => <[k := 0]> m end.
Definition map_at (m : gmap NodeId Index) (k : NodeId) : Index := default 0 (m !! k).

Module Node.
Section Node.
Context {E : Type} `{NodeEnv E}.
Local Abbreviation MN := (M (nstate E)).

(** [*this] *)
Definition this : MN RaftNode := rd (λ n, n).

(** [(peers_.size() + 1) / 2 + 1] *)
Definition quorum (n : RaftNode) : Z := (size_z (peers_ n) + 1) / 2 + 1.

Definition send (to : NodeId) (msg : bytes) : MN unit :=
  id ← rd id_; liftE (net_send id to msg).

Definition next_index_at (peer : NodeId) : MN Index :=
  upd (λ n, n <| next_index_ := touch peer (next_index_ n) |>);;
  rd (λ n, map_at (next_index_ n) peer).

Definition match_index_at (peer : NodeId) : MN Index :=
  upd (λ n, n <| match_index_ := touch peer (match_index_ n) |>);;
  rd (λ n, map_at (match_index_ n) peer).

Definition set_next_index (peer : NodeId) (i : Index) : MN unit :=
  upd (λ n, n <| next_index_ := <[peer := i]> (next_index_ n) |>).

Definition set_match_index (peer : NodeId) (i : Index) : MN unit :=
  upd (λ n, n <| match_index_ := <[peer := i]> (match_index_ n) |>).

(** ** Persistence *)

Definition encode_meta (n : RaftNode) : bytes :=
  Enc.u64 (current_term_ n) ++
  Enc.boolean (bool_decide (is_Some (voted_for_ n))) ++
  match voted_for_ n with Some v => Enc.u32 v | None => [] end.

Definition persist : MN unit :=
  upd (λ n, n <| meta_store_ := truncate_to 0 (meta_store_ n) |>);;
  bytes ← rd encode_meta;
  upd (λ n, n <| meta_store_ := append bytes (meta_store_ n) |>);;
  upd (λ n, n <| meta_store_ := flush (meta_store_ n) |>);;
  upd (λ n, n <| log_store_ := truncate_to 0 (log_store_ n) |>);;
  upd (λ n, n <| log_store_ := Log.save_to (log_ n) (log_store_ n) |>).

(** ** Timers *)

Definition cancel_election_timeout : MN unit :=
  b ← rd election_scheduled_;
  when b (
    tid ← rd election_timeout_id_;
    liftE (cancel tid);;
    election_scheduled_ ::= false;;
    upd (λ n, n <| election_generation_ := wrap64 (election_generation_ n + 1) |>)).

Definition schedule_election_timeout : MN unit :=
  b ← rd election_scheduled_;
  if (b : bool) then mret tt
  else
    upd (λ n, n <| election_generation_ := wrap64 (election_generation_ n + 1) |>);;
    gen ← rd election_generation_;
    lo ← rd (λ n, election_timeout_lo (cfg_ n));
    delay ← liftE (random_range lo (wrap64 (2 * lo + 1)));
    election_scheduled_ ::= true;;
    id ← rd id_;
    tid ← liftE (schedule delay (TElection id gen));
    election_timeout_id_ ::= tid.

Definition cancel_heartbeat : MN unit :=
  b ← rd heartbeat_scheduled_;
  when b (
    tid ← rd heartbeat_id_;
    liftE (cancel tid);;
    heartbeat_scheduled_ ::= false).

Definition schedule_heartbeat : MN unit :=
  b ← rd heartbeat_scheduled_;
  if (b : bool) then mret tt
  else
    heartbeat_scheduled_ ::= true;;
    id ← rd id_;
    delay ← rd (λ n, heartbeat_interval (cfg_ n));
    tid ← liftE (schedule delay (THeartbeat id));
    heartbeat_id_ ::= tid.

Definition notify_state_change : MN unit :=
  b ← rd state_change_cb_;
  when b (
    id ← rd id_; r ← rd role_; t ← rd current_term_;
    liftE (state_changed id r t)).

(** ** Client and read callbacks *)

Definition invoke_client (cb : ClientCallback) (res : CmdResult) : MN unit :=
  match cb with
  | CbToken token => liftE (client_done token res)
  | CbReply from cr =>
      id ← rd id_;
      send from (Encode.ClientReply
        (mkClientReply (cr_client_id cr) (cr_request_id cr) true res id))
  end.

(** [cb(ok, value)] of a read *)
Definition invoke_read (cb : Z) (ok : bool) (value : option string) : MN unit :=
  l ← rd leader_id_; liftE (read_done cb l ok value).

Definition cancel_pending_reads : MN unit :=
  l ← rd pending_reads_;
  for_each l (λ pr,
    liftE (cancel (pr_timeout_id pr));;
    invoke_read (pr_cb pr) false None);;
  pending_reads_ ::= [].

(** The loop of [drain_pending_reads]: [kept] is the prefix before the
    iterator, [todo] starts at it. *)
Fixpoint drain_loop (kept todo : list PendingRead) : MN unit :=
  match todo with
  | [] => mret tt
  | pr :: rest =>
      q ← rd quorum;
      la ← rd last_applied_;
      if (q <=? pr_acks pr) && (pr_read_index pr <=? la) then
        liftE (cancel (pr_timeout_id pr));;
        v ← rd (λ n, Kv.get (pr_key pr) (kv_ n));
        invoke_read (pr_cb pr) true v;;
        pending_reads_ ::= kept ++ rest;;
        drain_loop kept rest
      else drain_loop (kept ++ [pr]) rest
  end.

Definition drain_pending_reads : MN unit :=
  l ← rd pending_reads_; drain_loop [] l.

(** ** Role transitions *)

Definition become_follower (new_term : Term) (new_leader : option NodeId) : MN unit :=
  cur ← rd current_term_;
  let term_changed := cur <? new_term in
  when term_changed (
    current_term_ ::= new_term;;
    voted_for_ ::= None;;
    persist);;
  r ← rd role_;
  when (negb (bool_decide (r = Follower)) || term_changed) (
    cancel_pending_reads;;
    role_ ::= Follower;;
    cancel_heartbeat;;
    notify_state_change);;
  leader_id_ ::= new_leader;;
  votes_received_ ::= ∅;;
  vote_count_ ::= 0;;
  cancel_election_timeout;;
  schedule_election_timeout.

(** ** Replication *)

Definition send_install_snapshot (peer : NodeId) : MN unit :=
  n ← this;
  if snap_last_index_ n =? 0 then mret tt
  else send peer (Encode.InstallSnapshot
    (mkInstallSnapshot (current_term_ n) (id_ n) (snap_last_index_ n) (snap_last_term_ n)
       (snap_data_ n))).

Definition prev_term_of (prev_index : Index) : MN Term :=
  if 0 <? prev_index then
    log ← rd log_;
    t ← lift_result (Log.term_at prev_index log);
    c ← lift_result (Log.contains prev_index t log);
    if (c : bool) then lift_result (Log.term_at prev_index log) else mret 0
  else mret 0.

Definition replicate_to (peer : NodeId) : MN unit :=
  r ← rd role_;
  if negb (bool_decide (r = Leader)) then mret tt
  else
    ni ← next_index_at peer;
    snap ← rd snap_last_index_;
    if ni <=? snap then send_install_snapshot peer
    else
      ni ← next_index_at peer;
      let prev_index := wrap64 (ni - 1) in
      prev_term ← prev_term_of prev_index;
      n ← this;
      let entries := Log.slice prev_index
        (Z.min (wrap64 (prev_index + max_entries_per_ae (cfg_ n))) (Log.last_index (log_ n)))
        (log_ n) in
      match last entries with
      | Some e => set_next_index peer (wrap64 (e_index e + 1))
      | None => mret tt
      end;;
      send peer (Encode.AppendEntries
        (mkAppendEntries (current_term_ n) (id_ n) prev_index prev_term entries (commit_index_ n))).

Definition replicate_all : MN unit :=
  l ← rd peers_; for_each l replicate_to.

Definition become_leader : MN unit :=
  r ← rd role_;
  if bool_decide (r = Leader) then mret tt
  else
    role_ ::= Leader;;
    id ← rd id_;
    leader_id_ ::= Some id;;
    votes_received_ ::= ∅;;
    vote_count_ ::= 0;;
    cancel_election_timeout;;
    next_index_ ::= ∅;;
    match_index_ ::= ∅;;
    peers ← rd peers_;
    last ← rd (λ n, Log.last_index (log_ n));
    for_each peers (λ peer,
      set_next_index peer (wrap64 (last + 1));;
      set_match_index peer 0);;
    set_match_index id last;;
    set_next_index id (wrap64 (last + 1));;
    notify_state_change;;
    schedule_heartbeat;;
    replicate_all.

Definition become_candidate : MN unit :=
  run ← rd running_;
  if negb run then mret tt
  else
    upd (λ n, n <| current_term_ := wrap64 (current_term_ n + 1) |>);;
    role_ ::= Candidate;;
    id ← rd id_;
    voted_for_ ::= Some id;;
    votes_received_ ::= ∅;;
    vote_count_ ::= 1;;
    term ← rd current_term_;
    election_term_ ::= term;;
    leader_id_ ::= None;;
    persist;;
    notify_state_change;;
    n ← this;
    let rv := mkRequestVote (current_term_ n) (id_ n) (Log.last_index (log_ n))
                (Log.last_term (log_ n)) in
    for_each (peers_ n) (λ peer, send peer (Encode.RequestVote rv));;
    cancel_election_timeout;;
    schedule_election_timeout;;
    vc ← rd vote_count_;
    q ← rd quorum;
    when (q <=? vc) become_leader.

(** ** Snapshotting *)

(** The key-value state as [take_snapshot] writes it. *)
Definition encode_kv (kv : KvStore) : bytes :=
  Enc.u32 (wrap32 (size_z (kv_iter kv))) ++
  concat (map (λ p, Enc.str p.1 ++ Enc.str p.2) (kv_iter kv)).

(** The reader of that format, as in [load_snapshot], [crash] and
    [handle_install_snapshot]. *)
Definition decode_pair : M bytes (string * string) :=
  k ← Dec.str; v ← Dec.str; mret (k, v).

Definition decode_kv : M bytes (gmap string string) :=
  count ← Dec.u32;
  l ← Dec.repeat_read (Z.to_nat count) decode_pair;
  mret (map_of_pairs l).

Definition save_snapshot : MN unit :=
  n ← this;
  let bytes := Enc.u64 (snap_last_index_ n) ++ Enc.u64 (snap_last_term_ n) ++
    Enc.u32 (wrap32 (size_z (snap_data_ n))) ++ Enc.raw (snap_data_ n) in
  upd (λ n, n <| snapshot_store_ := truncate_to 0 (snapshot_store_ n) |>);;
  upd (λ n, n <| snapshot_store_ := append bytes (snapshot_store_ n) |>);;
  upd (λ n, n <| snapshot_store_ := flush (snapshot_store_ n) |>).

Definition take_snapshot : MN unit :=
  n ← this;
  if last_applied_ n <=? snap_last_index_ n then mret tt
  else
    snap_term ← lift_result (Log.term_at (last_applied_ n) (log_ n));
    snap_data_ ::= encode_kv (kv_ n);;
    snap_last_index_ ::= last_applied_ n;;
    snap_last_term_ ::= snap_term;;
    upd (λ n, n <| log_ := Log.set_snapshot (snap_last_index_ n) (snap_last_term_ n) (log_ n) |>);;
    save_snapshot;;
    persist.

(** [for (i < data_len) snap_data_[i] = dec.u8()] on the resized buffer: the
    bytes before a decoding error stay written. *)
Fixpoint fill_snap_data (i n : nat) (dec : bytes) : MN bytes :=
  match n with
  | O => mret dec
  | S n' =>
      match Dec.u8 dec with
      | (Ok b, dec') =>
          upd (λ nd, nd <| snap_data_ := <[i := b]> (snap_data_ nd) |>);;
          fill_snap_data (S i) n' dec'
      | (Throw e, _) => throw e
      end
  end.

Definition load_snapshot : MN unit :=
  sz ← rd (λ n, durable_size (snapshot_store_ n));
  if (sz =? 0)%nat then mret tt
  else
    raw ← rd (λ n, read_durable (snapshot_store_ n));
    match Dec.u64 raw with
    | (Throw e, _) => throw e
    | (Ok i, raw) =>
        snap_last_index_ ::= i;;
        match Dec.u64 raw with
        | (Throw e, _) => throw e
        | (Ok t, raw) =>
            snap_last_term_ ::= t;;
            match Dec.u32 raw with
            | (Throw e, _) => throw e
            | (Ok data_len, raw) =>
                upd (λ n, n <| snap_data_ := resize (Z.to_nat data_len) 0 (snap_data_ n) |>);;
                fill_snap_data 0 (Z.to_nat data_len) raw;;
                kv_ ::= empty_kv;;
                data ← rd snap_data_;
                kv_map ← run_decoder decode_kv data;
                upd (λ n, n <| kv_ := Kv.load kv_map (kv_ n) |>);;
                commit_index_ ::= i;;
                last_applied_ ::= i;;
                upd (λ n, n <| log_ := Log.set_snapshot (snap_last_index_ n)
                                          (snap_last_term_ n) (log_ n) |>)
            end
        end
    end.

(** ** Membership *)

Definition apply_membership_change (cmd : Command) : MN unit :=
  match cmd with
  | CmdAddServer new_id =>
      n ← this;
      when (negb (bool_decide (new_id ∈ peers_ n)) && negb (new_id =? id_ n)) (
        upd (λ n, n <| peers_ := merge_sort Z.le (peers_ n ++ [new_id]) |>);;
        r ← rd role_;
        when (bool_decide (r = Leader)) (
          last ← rd (λ n, Log.last_index (log_ n));
          set_next_index new_id (wrap64 (last + 1));;
          set_match_index new_id 0;;
          replicate_to new_id))
  | CmdRemoveServer rem_id =>
      upd (λ n, n <| peers_ := filter (λ p, p ≠ rem_id) (peers_ n) |>);;
      upd (λ n, n <| next_index_ := delete rem_id (next_index_ n) |>);;
      upd (λ n, n <| match_index_ := delete rem_id (match_index_ n) |>);;
      n ← this;
      when ((rem_id =? id_ n) && bool_decide (role_ n = Leader)) (
        become_follower (current_term_ n) None)
  | _ => mret tt
  end.

(** ** Commit and apply *)

(** One entry of the apply loop, [last_applied_] already advanced to [i]. *)
Definition apply_one (i : Index) : MN unit :=
  log ← rd log_;
  entry ← lift_result (Log.at_ i log);
  kv ← rd kv_;
  let '(result, kv') := Kv.apply (e_cmd entry) kv in
  kv_ ::= kv';;
  when (is_config (e_cmd entry)) (
    apply_membership_change (e_cmd entry);;
    config_change_pending_ ::= false);;
  pending ← rd (λ n, pending_clients_ n !! i);
  match (pending : option (ClientCallback * NodeId)) with
  | Some (cb, _) =>
      invoke_client cb result;;
      upd (λ n, n <| pending_clients_ := delete i (pending_clients_ n) |>)
  | None => mret tt
  end.

(** [while (last_applied_ < commit_index_)]: every round advances
    [last_applied_] by one and leaves [commit_index_] alone, so their distance
    bounds the rounds ([apply_committed_no_fuel]). *)
Fixpoint apply_loop (fuel : nat) : MN unit :=
  match fuel with
  | O => throw out_of_fuel
  | S fuel' =>
      n ← this;
      if negb (last_applied_ n <? commit_index_ n) then mret tt
      else
        let i := wrap64 (last_applied_ n + 1) in
        last_applied_ ::= i;;
        if i <=? Log.base_index (log_ n) then apply_loop fuel'
        else apply_one i;; apply_loop fuel'
  end.

Definition apply_committed_entries : MN unit :=
  n ← this;
  apply_loop (S (Z.to_nat (commit_index_ n - last_applied_ n)));;
  drain_pending_reads;;
  n ← this;
  when ((0 <? snapshot_threshold (cfg_ n)) &&
        (snapshot_threshold (cfg_ n) <? Log.size (log_ n)))
    take_snapshot.

(** The number of servers whose [match_index_] reaches [n]. *)
Definition match_count (m : gmap NodeId Index) (n : Index) : Z :=
  size_z (filter (λ p : NodeId * Index, n <= p.2) (map_to_list m)).

(** The entry at [n] has a term other than the current one. *)
Definition skip_prior_term (n : Index) : MN bool :=
  bug ← rd (λ x, bug_commit_prior_term (cfg_ x));
  if (bug : bool) then mret false
  else
    log ← rd log_;
    e ← lift_result (Log.at_ n log);
    t ← rd current_term_;
    mret (negb (e_term e =? t)).

(** [for (n = log_.last_index(); n > commit_index_; --n)] *)
Fixpoint advance_loop (fuel : nat) (n : Index) : MN unit :=
  match fuel with
  | O => throw out_of_fuel
  | S fuel' =>
      x ← this;
      if n <=? commit_index_ x then mret tt
      else if n <=? Log.base_index (log_ x) then mret tt
      else
        skip ← skip_prior_term n;
        if (skip : bool) then advance_loop fuel' (wrap64 (n - 1))
        else
          m ← rd match_index_;
          q ← rd quorum;
          if q <=? match_count m n then
            commit_index_ ::= n;;
            apply_committed_entries
          else advance_loop fuel' (wrap64 (n - 1))
  end.

Definition maybe_advance_commit_index : MN unit :=
  x ← this;
  let n := Log.last_index (log_ x) in
  advance_loop (S (Z.to_nat (n - commit_index_ x))) n.

(** ** RequestVote *)

Definition is_log_up_to_date (last_idx : Index) (last_term : Term) (n : RaftNode) : bool :=
  if negb (last_term =? Log.last_term (log_ n)) then Log.last_term (log_ n) <? last_term
  else Log.last_index (log_ n) <=? last_idx.

Definition handle_request_vote (from : NodeId) (rv : RequestVote) : MN unit :=
  cur ← rd current_term_;
  when (cur <? rv_term rv) (become_follower (rv_term rv) None);;
  n ← this;
  let can_vote := bool_decide (voted_for_ n = None ∨ voted_for_ n = Some (rv_candidate_id rv)) in
  let up_to_date := bug_skip_vote_uptodate (cfg_ n)
    || is_log_up_to_date (rv_last_log_index rv) (rv_last_log_term rv) n in
  let grant := (current_term_ n <=? rv_term rv) && can_vote && up_to_date in
  when grant (
    voted_for_ ::= Some (rv_candidate_id rv);;
    persist;;
    cancel_election_timeout;;
    schedule_election_timeout);;
  cur ← rd current_term_;
  send from (Encode.RequestVoteReply (mkRequestVoteReply cur grant)).

Definition handle_request_vote_reply (from : NodeId) (rvr : RequestVoteReply) : MN unit :=
  n ← this;
  if negb (bool_decide (role_ n = Candidate)) then mret tt
  else if current_term_ n <? rvr_term rvr then become_follower (rvr_term rvr) None
  else if (rvr_term rvr <? current_term_ n) || negb (rvr_term rvr =? election_term_ n) then mret tt
  else when (rvr_vote_granted rvr) (
    upd (λ n, n <| votes_received_ := {[from]} ∪ votes_received_ n |>);;
    upd (λ n, n <| vote_count_ := wrap32 (wrap32 (Z.of_nat (size (votes_received_ n))) + 1) |>);;
    vc ← rd vote_count_;
    q ← rd quorum;
    when (q <=? vc) become_leader).

(** ** AppendEntries *)

(** The conflict fields of a rejected AppendEntries. *)
Definition conflict_of (ae : AppendEntries) (log : RaftLog) : result (Index * Term) :=
  if Log.last_index log <? ae_prev_log_index ae then
    Ok (wrap64 (Log.last_index log + 1), 0)
  else if Log.base_index log <? ae_prev_log_index ae then
    match Log.at_ (ae_prev_log_index ae) log with
    | Ok e =>
        let ci := Log.last_index_for_term (e_term e) log in
        Ok (if ci =? 0 then 1 else ci, e_term e)
    | Throw x => Throw x
    end
  else Ok (wrap64 (Log.base_index log + 1), 0).

(** One round of the entry loop. *)
Definition accept_entry (entry : LogEntry) (log : RaftLog) : result RaftLog :=
  if e_index entry <=? Log.last_index log then
    if e_index entry <=? Log.base_index log then Ok log
    else
      match Log.at_ (e_index entry) log with
      | Ok e =>
          if negb (e_term e =? e_term entry)
          then Log.append entry (Log.truncate_from (e_index entry) log)
          else Ok log
      | Throw x => Throw x
      end
  else Log.append entry log.

(** [log_.truncate_from] is done when a following [append] fails its
    assertion, which ends the process: the intermediate log is not observed. *)
Definition accept_entry_n (entry : LogEntry) : MN unit :=
  log ← rd log_;
  log' ← lift_result (accept_entry entry log);
  log_ ::= log'.

Definition handle_append_entries (from : NodeId) (ae : AppendEntries) : MN unit :=
  old_term ← rd current_term_;
  if ae_term ae <? old_term then
    send from (Encode.AppendEntriesReply (mkAppendEntriesReply old_term false 0 0))
  else
    (if old_term <? ae_term ae then become_follower (ae_term ae) (Some from)
     else become_follower old_term (Some from));;
    log ← rd log_;
    c ← lift_result (Log.contains (ae_prev_log_index ae) (ae_prev_log_term ae) log);
    if negb c then
      cf ← lift_result (conflict_of ae log);
      send from (Encode.AppendEntriesReply (mkAppendEntriesReply old_term false cf.1 cf.2))
    else
      for_each (ae_entries ae) accept_entry_n;;
      persist;;
      n ← this;
      when (commit_index_ n <? ae_leader_commit ae) (
        commit_index_ ::= Z.min (ae_leader_commit ae) (Log.last_index (log_ n));;
        apply_committed_entries);;
      cur ← rd current_term_;
      send from (Encode.AppendEntriesReply (mkAppendEntriesReply cur true 0 0)).

Definition handle_append_entries_reply (from : NodeId) (aer : AppendEntriesReply) : MN unit :=
  n ← this;
  if negb (bool_decide (role_ n = Leader)) then mret tt
  else if current_term_ n <? aer_term aer then become_follower (aer_term aer) None
  else if aer_term aer <? current_term_ n then mret tt
  else if (aer_success aer : bool) then
    ni ← next_index_at from;
    let new_match := wrap64 (ni - 1) in
    mi ← match_index_at from;
    set_match_index from (Z.max mi new_match);;
    mi ← match_index_at from;
    set_next_index from (wrap64 (mi + 1));;
    maybe_advance_commit_index
  else
    (if aer_conflict_term aer =? 0 then set_next_index from (aer_conflict_index aer)
     else
       last_in_term ← rd (λ n, Log.last_index_for_term (aer_conflict_term aer) (log_ n));
       set_next_index from (if 0 <? last_in_term then wrap64 (last_in_term + 1)
                            else aer_conflict_index aer));;
    ni ← next_index_at from;
    when (ni <? 1) (set_next_index from 1);;
    replicate_to from.

(** ** InstallSnapshot *)

Definition handle_install_snapshot (from : NodeId) (snap : InstallSnapshot) : MN unit :=
  cur ← rd current_term_;
  if is_term snap <? cur then mret tt
  else
    (if cur <? is_term snap then become_follower (is_term snap) (Some from)
     else become_follower cur (Some from));;
    n ← this;
    if is_last_included_index snap <=? snap_last_index_ n then
      send from (Encode.InstallSnapshotReply
        (mkInstallSnapshotReply (current_term_ n) (snap_last_index_ n)))
    else
      snap_last_index_ ::= is_last_included_index snap;;
      snap_last_term_ ::= is_last_included_term snap;;
      snap_data_ ::= is_data snap;;
      kv_ ::= empty_kv;;
      kv_map ← run_decoder decode_kv (is_data snap);
      upd (λ n, n <| kv_ := Kv.load kv_map (kv_ n) |>);;
      upd (λ n, n <| log_ := Log.set_snapshot (snap_last_index_ n) (snap_last_term_ n) (log_ n) |>);;
      upd (λ n, n <| commit_index_ := Z.max (commit_index_ n) (snap_last_index_ n) |>);;
      upd (λ n, n <| last_applied_ := Z.max (last_applied_ n) (snap_last_index_ n) |>);;
      save_snapshot;;
      persist;;
      n ← this;
      send from (Encode.InstallSnapshotReply
        (mkInstallSnapshotReply (current_term_ n) (snap_last_index_ n))).

Definition handle_install_snapshot_reply (from : NodeId) (isr : InstallSnapshotReply) : MN unit :=
  n ← this;
  if negb (bool_decide (role_ n = Leader)) then mret tt
  else if current_term_ n <? isr_term isr then become_follower (isr_term isr) None
  else
    mi ← match_index_at from;
    set_match_index from (Z.max mi (isr_last_included_index isr));;
    mi ← match_index_at from;
    set_next_index from (wrap64 (mi + 1));;
    maybe_advance_commit_index.

(** ** Read-index *)

Definition handle_read_index_request (from : NodeId) (req : ReadIndexRequest) : MN unit :=
  cur ← rd current_term_;
  if rir_term req <? cur then mret tt
  else
    (if cur <? rir_term req then become_follower (rir_term req) (Some from)
     else become_follower cur (Some from));;
    cur ← rd current_term_;
    send from (Encode.ReadIndexReply (mkReadIndexReply cur (rir_round req))).

(** [++pr.acks] for the first pending read of the round. *)
Fixpoint ack_round (round : Z) (l : list PendingRead) : list PendingRead :=
  match l with
  | [] => []
  | pr :: rest =>
      if pr_round pr =? round then
        mkPendingRead (pr_round pr) (pr_read_index pr) (pr_key pr) (pr_cb pr)
          (wrap64 (pr_acks pr + 1)) (pr_timeout_id pr) :: rest
      else pr :: ack_round round rest
  end.

Definition handle_read_index_reply (from : NodeId) (rep : ReadIndexReply) : MN unit :=
  n ← this;
  if current_term_ n <? rip_term rep then become_follower (rip_term rep) None
  else if negb (bool_decide (role_ n = Leader)) || negb (rip_term rep =? current_term_ n)
  then mret tt
  else
    upd (λ n, n <| pending_reads_ := ack_round (rip_round rep) (pending_reads_ n) |>);;
    drain_pending_reads.

(** ** Client interface *)

Definition submit (client_id request_id : Z) (cmd : Command) (cb : ClientCallback) : MN bool :=
  n ← this;
  if negb (running_ n) || negb (bool_decide (role_ n = Leader)) then mret false
  else if is_config cmd && config_change_pending_ n then mret false
  else
    when (is_config cmd) (config_change_pending_ ::= true);;
    let new_index := wrap64 (Log.last_index (log_ n) + 1) in
    log' ← lift_result (Log.append (mkLogEntry (current_term_ n) new_index cmd) (log_ n));
    log_ ::= log';;
    persist;;
    set_match_index (id_ n) new_index;;
    set_next_index (id_ n) (wrap64 (new_index + 1));;
    upd (λ n, n <| pending_clients_ :=
                     <[new_index := (cb, wrap32 client_id)]> (pending_clients_ n) |>);;
    replicate_all;;
    maybe_advance_commit_index;;
    mret true.

Definition local_get (key : string) (n : RaftNode) : option string := Kv.get key (kv_ n).

(** [pending_reads_.back().timeout_id = id] *)
Definition set_last_timeout (tid : EventId) (l : list PendingRead) : list PendingRead :=
  match rev l with
  | [] => []
  | pr :: rest =>
      rev rest ++ [mkPendingRead (pr_round pr) (pr_read_index pr) (pr_key pr) (pr_cb pr)
                     (pr_acks pr) tid]
  end.

Definition read_index (key : string) (cb : Z) : MN bool :=
  n ← this;
  if negb (running_ n) || negb (bool_decide (role_ n = Leader)) then mret false
  else if bool_decide (peers_ n = []) then
    invoke_read cb true (Kv.get key (kv_ n));; mret true
  else
    let round := next_read_round_ n in
    next_read_round_ ::= wrap64 (round + 1);;
    upd (λ n, n <| pending_reads_ := pending_reads_ n ++
                     [mkPendingRead round (commit_index_ n) key cb 1 0] |>);;
    tid ← liftE (schedule (read_timeout (cfg_ n)) (TReadTimeout (id_ n) round));
    upd (λ n, n <| pending_reads_ := set_last_timeout tid (pending_reads_ n) |>);;
    let req := mkReadIndexRequest (current_term_ n) (id_ n) round in
    for_each (peers_ n) (λ peer, send peer (Encode.ReadIndexRequest req));;
    mret true.

Definition handle_client_request (from : NodeId) (cr : ClientRequest) : MN unit :=
  n ← this;
  if negb (bool_decide (role_ n = Leader)) then
    send from (Encode.ClientReply
      (mkClientReply (cr_client_id cr) (cr_request_id cr) false
         (mkCmdResult false "" "not_leader") (default 0 (leader_id_ n))))
  else
    submit (cr_client_id cr) (cr_request_id cr) (cr_cmd cr) (CbReply from cr);; mret tt.

(** ** Timer callbacks *)

Definition on_election_timeout : MN unit :=
  r ← rd role_;
  if bool_decide (r = Leader) then mret tt else become_candidate.

Definition on_heartbeat : MN unit :=
  r ← rd role_;
  if negb (bool_decide (r = Leader)) then mret tt
  else replicate_all;; schedule_heartbeat.

(** The read-timeout closure: the first pending read of the round is
    cancelled and erased. *)
Fixpoint timeout_loop (round : Z) (before after : list PendingRead) : MN unit :=
  match after with
  | [] => mret tt
  | pr :: rest =>
      if pr_round pr =? round then
        invoke_read (pr_cb pr) false None;;
        pending_reads_ ::= before ++ rest
      else timeout_loop round (before ++ [pr]) rest
  end.

(** The closures passed to [IClock::schedule]. *)
Definition on_timer (t : timer) : MN unit :=
  match t with
  | TElection _ gen =>
      n ← this;
      if negb (gen =? election_generation_ n) then mret tt
      else
        election_scheduled_ ::= false;;
        if negb (running_ n) then mret tt else on_election_timeout
  | THeartbeat _ =>
      heartbeat_scheduled_ ::= false;;
      run ← rd running_;
      if negb run then mret tt else on_heartbeat
  | TReadTimeout _ round =>
      l ← rd pending_reads_; timeout_loop round [] l
  end.

(** ** Message dispatch *)

Definition dispatch (from : NodeId) (type : Z) (payload : bytes) : MN unit :=
  if type =? mt_RequestVote then
    m ← run_decoder Decode.RequestVote payload; handle_request_vote from m
  else if type =? mt_RequestVoteReply then
    m ← run_decoder Decode.RequestVoteReply payload; handle_request_vote_reply from m
  else if type =? mt_AppendEntries then
    m ← run_decoder Decode.AppendEntries payload; handle_append_entries from m
  else if type =? mt_AppendEntriesReply then
    m ← run_decoder Decode.AppendEntriesReply payload; handle_append_entries_reply from m
  else if type =? mt_ClientRequest then
    m ← run_decoder Decode.ClientRequest payload; handle_client_request from m
  else if type =? mt_InstallSnapshot then
    m ← run_decoder Decode.InstallSnapshot payload; handle_install_snapshot from m
  else if type =? mt_InstallSnapshotReply then
    m ← run_decoder Decode.InstallSnapshotReply payload; handle_install_snapshot_reply from m
  else if type =? mt_ReadIndexRequest then
    m ← run_decoder Decode.ReadIndexRequest payload; handle_read_index_request from m
  else if type =? mt_ReadIndexReply then
    m ← run_decoder Decode.ReadIndexReply payload; handle_read_index_reply from m
  else mret tt.

Definition on_message (msg : Message) : MN unit :=
  run ← rd running_;
  if negb run then mret tt
  else
    match msg_payload msg with
    | [] => mret tt
    | type :: _ =>
        try_catch (dispatch (msg_from msg) type (msg_payload msg)) (λ _, mret tt)
    end.

(** ** Lifecycle *)

(** The meta store as [start] reads it. *)
Definition load_meta : MN unit :=
  sz ← rd (λ n, durable_size (meta_store_ n));
  if (sz =? 0)%nat then mret tt
  else
    data ← rd (λ n, read_durable (meta_store_ n));
    match Dec.u64 data with
    | (Throw e, _) => throw e
    | (Ok t, data) =>
        current_term_ ::= t;;
        match Dec.boolean data with
        | (Throw e, _) => throw e
        | (Ok has_voted, data) =>
            when has_voted (
              v ← run_decoder Dec.u32 data;
              voted_for_ ::= Some v)
        end
    end.

Definition load_log : MN unit :=
  sz ← rd (λ n, durable_size (log_store_ n));
  if (sz =? 0)%nat then mret tt
  else λ s,
    let '(r, log') := Log.load_from (log_store_ (nd s)) (log_ (nd s)) in
    (r, mkN ((nd s) <| log_ := log' |>) (env s)).

Definition start : MN unit :=
  running_ ::= true;;
  id ← rd id_;
  liftE (set_handler id (HNode id));;
  load_snapshot;;
  load_meta;;
  load_log;;
  apply_committed_entries;;
  schedule_election_timeout.

Definition index_le (a b : Index * (ClientCallback * NodeId)) : Prop := a.1 <= b.1.
#[export] Instance index_le_dec : RelDecision index_le.
Proof. intros a b. unfold index_le. apply _. Defined.

Definition crash : MN unit :=
  running_ ::= false;;
  id ← rd id_;
  liftE (remove_handler id);;
  election_scheduled_ ::= false;;
  heartbeat_scheduled_ ::= false;;
  upd (λ n, n <| meta_store_ := DurableStore.crash (meta_store_ n) |>);;
  upd (λ n, n <| log_store_ := DurableStore.crash (log_store_ n) |>);;
  upd (λ n, n <| snapshot_store_ := DurableStore.crash (snapshot_store_ n) |>);;
  role_ ::= Follower;;
  upd (λ n, n <| commit_index_ := snap_last_index_ n |>);;
  upd (λ n, n <| last_applied_ := snap_last_index_ n |>);;
  leader_id_ ::= None;;
  votes_received_ ::= ∅;;
  next_index_ ::= ∅;;
  match_index_ ::= ∅;;
  vote_count_ ::= 0;;
  election_term_ ::= 0;;
  config_change_pending_ ::= false;;
  kv_ ::= empty_kv;;
  data ← rd snap_data_;
  when (negb (bool_decide (data = []))) (
    kv_map ← run_decoder decode_kv data;
    upd (λ n, n <| kv_ := Kv.load kv_map (kv_ n) |>));;
  pending ← rd (λ n, merge_sort index_le (map_to_list (pending_clients_ n)));
  for_each pending (λ p, invoke_client p.2.1 (mkCmdResult false "" "node_crashed"));;
  pending_clients_ ::= ∅;;
  reads ← rd pending_reads_;
  for_each reads (λ pr, liftE (cancel (pr_timeout_id pr)));;
  pending_reads_ ::= [].

Definition restart : MN unit :=
  current_term_ ::= 0;;
  voted_for_ ::= None;;
  log_ ::= empty_log;;
  kv_ ::= empty_kv;;
  start.

End Node.
End Node.
