(* ===== verification/Election.v ===== *)
(** * Leader election: the voting protocol a cluster promises

    The abstract protocol behind [RequestVote]: a member has a term, at most
    one vote in it, and a role; it may move to a higher term, stand for
    election, vote if it has not, count a vote cast for it, and lead on a
    majority.  [av_cast] and [av_elected] record every vote ever cast and
    every leader ever elected.  [election_unique]: no term has two leaders. *)

From S2P Require Import Prelude Types.

Inductive arole :=
| AFollower
| ACandidate (votes : gset NodeId)
| ALeader.

Record anode := mkA { a_term : Term; a_vote : option NodeId; a_role : arole }.

Record voting := mkVoting {
  av_node : gmap NodeId anode;
  av_cast : gset (NodeId * Term * NodeId);
  av_elected : gset (Term * NodeId);
}.

Section Voting.
Context (members : gset NodeId).

Definition majority (q : gset NodeId) : Prop := q ⊆ members ∧ (size members < 2 * size q)%nat.

(** One step of member [i]. *)
Inductive vstep (i : NodeId) : voting → voting → Prop :=
| VFollow m cast el a :
    m !! i = Some a →
    vstep i (mkVoting m cast el) (mkVoting (<[i := mkA (a_term a) (a_vote a) AFollower]> m) cast el)
| VBump m cast el a t :
    m !! i = Some a → a_term a < t →
    vstep i (mkVoting m cast el) (mkVoting (<[i := mkA t None AFollower]> m) cast el)
| VStand m cast el a :
    m !! i = Some a →
    vstep i (mkVoting m cast el)
      (mkVoting (<[i := mkA (a_term a + 1) (Some i) (ACandidate ∅)]> m)
         ({[(i, a_term a + 1, i)]} ∪ cast) el)
| VGrant m cast el a c :
    m !! i = Some a → (a_vote a = None ∨ a_vote a = Some c) →
    vstep i (mkVoting m cast el)
      (mkVoting (<[i := mkA (a_term a) (Some c) (a_role a)]> m) ({[(i, a_term a, c)]} ∪ cast) el)
| VCount m cast el a votes v :
    m !! i = Some a → a_role a = ACandidate votes → v ∈ members → (v, a_term a, i) ∈ cast →
    vstep i (mkVoting m cast el)
      (mkVoting (<[i := mkA (a_term a) (a_vote a) (ACandidate ({[v]} ∪ votes))]> m) cast el)
| VLead m cast el a votes :
    m !! i = Some a → a_role a = ACandidate votes → majority ({[i]} ∪ votes) →
    vstep i (mkVoting m cast el)
      (mkVoting (<[i := mkA (a_term a) (a_vote a) ALeader]> m) cast ({[(a_term a, i)]} ∪ el)).

Definition vsteps (i : NodeId) : voting → voting → Prop := rtc (vstep i).

(** What is true of one member. *)
Definition member_ok (cast : gset (NodeId * Term * NodeId)) (el : gset (Term * NodeId))
    (i : NodeId) (a : anode) : Prop :=
  (∀ t c, (i, t, c) ∈ cast → t <= a_term a ∧ (t = a_term a → a_vote a = Some c)) ∧
  match a_role a with
  | AFollower => True
  | ACandidate votes =>
      (i, a_term a, i) ∈ cast ∧ votes ⊆ members ∧ ∀ v, v ∈ votes → (v, a_term a, i) ∈ cast
  | ALeader => (a_term a, i) ∈ el
  end.

Record voting_inv (v : voting) : Prop := {
  vi_member : ∀ i a, av_node v !! i = Some a → member_ok (av_cast v) (av_elected v) i a;
  vi_known : ∀ i t c, (i, t, c) ∈ av_cast v → is_Some (av_node v !! i);
  vi_once : ∀ i t c c', (i, t, c) ∈ av_cast v → (i, t, c') ∈ av_cast v → c = c';
  vi_elected : ∀ t c, (t, c) ∈ av_elected v →
    ∃ q, majority q ∧ ∀ i, i ∈ q → (i, t, c) ∈ av_cast v;
}.

Lemma elem_of_union_singleton {A} `{Countable A} (x y : A) (X : gset A) :
  x ∈ {[y]} ∪ X ↔ x = y ∨ x ∈ X.
Proof. set_solver. Qed.

Lemma voting_inv_init (m : gmap NodeId anode) :
  (∀ i a, m !! i = Some a → a_role a = AFollower) → voting_inv (mkVoting m ∅ ∅).
Proof.
  intros Hm. split; simpl; [|set_solver..]. intros i a Ha. split; [set_solver|].
  by rewrite (Hm i a Ha).
Qed.

(** More votes of others and more elected leaders do not disturb a member. *)
Lemma member_ok_mono cast cast' el el' i a :
  cast ⊆ cast' → el ⊆ el' → (∀ t c, (i, t, c) ∈ cast' → (i, t, c) ∈ cast) →
  member_ok cast el i a → member_ok cast' el' i a.
Proof.
  intros Hc He Hi [H1 H2]. split; [naive_solver|]. destruct (a_role a); [done|set_solver..].
Qed.

(** A step that changes member [i] and casts at most votes of [i]. *)
Lemma voting_inv_update v i a' cast' el' :
  voting_inv v → is_Some (av_node v !! i) →
  av_cast v ⊆ cast' → av_elected v ⊆ el' →
  (∀ j t c, (j, t, c) ∈ cast' → (j, t, c) ∈ av_cast v ∨ j = i) →
  member_ok cast' el' i a' →
  (∀ t c c', (i, t, c) ∈ cast' → (i, t, c') ∈ cast' → c = c') →
  (∀ t c, (t, c) ∈ el' → ∃ q, majority q ∧ ∀ j, j ∈ q → (j, t, c) ∈ cast') →
  voting_inv (mkVoting (<[i := a']> (av_node v)) cast' el').
Proof.
  intros [Hm Hk Ho He] Hi Hc Hel Hnew Ha' Honce' Hel'. split; simpl; [..|done].
  - intros j a. destruct (decide (j = i)) as [->|].
    + rewrite lookup_insert_eq. naive_solver.
    + rewrite lookup_insert_ne by done. intros Ha.
      apply (member_ok_mono (av_cast v) cast' (av_elected v) el'); naive_solver.
  - intros j t c Hj. destruct (decide (j = i)) as [->|].
    + rewrite lookup_insert_eq. eauto.
    + rewrite lookup_insert_ne by done. destruct (Hnew _ _ _ Hj); naive_solver.
  - intros j t c c' H1 H2. destruct (decide (j = i)) as [->|]; [eauto|].
    destruct (Hnew _ _ _ H1), (Hnew _ _ _ H2); naive_solver.
Qed.

(** Member [i] changes, no vote is cast. *)
Lemma voting_inv_quiet m cast el i a a' :
  voting_inv (mkVoting m cast el) → m !! i = Some a → member_ok cast el i a' →
  voting_inv (mkVoting (<[i := a']> m) cast el).
Proof.
  intros Hv Ha Ha'. pose proof Hv as [_ _ Ho He].
  apply (voting_inv_update (mkVoting m cast el)); simpl; eauto.
Qed.

(** Member [i] casts its vote of its new term [t]. *)
Lemma voting_inv_cast m cast el i a t c r :
  voting_inv (mkVoting m cast el) → m !! i = Some a → a_term a <= t →
  (t = a_term a → a_vote a = None ∨ a_vote a = Some c) →
  member_ok ({[(i, t, c)]} ∪ cast) el i (mkA t (Some c) r) →
  voting_inv (mkVoting (<[i := mkA t (Some c) r]> m) ({[(i, t, c)]} ∪ cast) el).
Proof.
  intros Hv Ha Ht Hc Ha'. pose proof Hv as [Hm _ Ho He]. simpl in *.
  destruct (Hm i a Ha) as [Hcast _].
  assert (∀ c', (i, t, c') ∈ cast → c' = c) as Hold.
  { intros c' Hin. destruct (Hcast _ _ Hin) as [Hle Heq].
    assert (t = a_term a) as Hta by lia. specialize (Hc Hta). specialize (Heq Hta). naive_solver. }
  apply (voting_inv_update (mkVoting m cast el)); simpl; try done.
  - set_solver.
  - intros j t' c' [[= -> -> ->]|?]%elem_of_union_singleton; auto.
  - intros t' c1 c2 [E1|H1]%elem_of_union_singleton [E2|H2]%elem_of_union_singleton;
      simplify_eq; eauto. symmetry. eauto.
  - intros t' c' Hin. destruct (He t' c' Hin) as (q & Hq & Hall). exists q. split; [done|].
    intros j Hj. apply elem_of_union_r. eauto.
Qed.

(** A vote in [t], at or after the member's term, leaves the rest of
    [member_ok]'s first half. *)
Lemma cast_ok m cast el i a t c :
  voting_inv (mkVoting m cast el) → m !! i = Some a → a_term a <= t →
  (t = a_term a → a_vote a = None ∨ a_vote a = Some c) →
  ∀ t' c', (i, t', c') ∈ {[(i, t, c)]} ∪ cast → t' <= t ∧ (t' = t → Some c = Some c').
Proof.
  intros [Hm _ _ _] Ha Ht Hc t' c' [[= -> ->]|Hin]%elem_of_union_singleton; [done|].
  simpl in *. destruct (Hm i a Ha) as [Hcast _]. destruct (Hcast _ _ Hin) as [Hle Heq].
  split; [lia|]. intros ->. assert (t = a_term a) as Hta by lia. naive_solver.
Qed.

Lemma vstep_inv i v v' : vstep i v v' → voting_inv v → voting_inv v'.
Proof.
  intros Hs Hv. destruct Hs as [m cast el a Ha|m cast el a t Ha Ht|m cast el a Ha|m cast el a c Ha Hc
                 |m cast el a votes w Ha Hr Hw Hin|m cast el a votes Ha Hr Hq];
    destruct (vi_member _ Hv i a Ha) as [Hcast Hrole]; simpl in Hcast, Hrole.
  - by apply (voting_inv_quiet _ _ _ _ _ _ Hv Ha).
  - apply (voting_inv_quiet _ _ _ _ _ _ Hv Ha). split; simpl; [|done].
    intros t' c Hin. destruct (Hcast _ _ Hin). split; [lia|]. intros ->. lia.
  - apply (voting_inv_cast _ _ _ _ _ _ _ _ Hv Ha); [lia|intros; exfalso; lia|].
    split; [apply (cast_ok m cast el i a); simpl; [done|done|lia|intros; exfalso; lia]|]. simpl. set_solver.
  - apply (voting_inv_cast _ _ _ _ _ _ _ _ Hv Ha); [done..|].
    split; [by apply (cast_ok m cast el i a)|]. simpl. destruct (a_role a); [done| |done].
    destruct Hrole as (? & ? & ?). split_and!; [set_solver..|]. set_solver.
  - apply (voting_inv_quiet _ _ _ _ _ _ Hv Ha). split; [done|]. simpl. rewrite Hr in Hrole.
    destruct Hrole as (? & ? & Hv'). split_and!; [done|set_solver|].
    intros v' [->|?]%elem_of_union_singleton; auto.
  - rewrite Hr in Hrole. destruct Hrole as (Hself & _ & Hvotes).
    apply (voting_inv_update (mkVoting m cast el)); simpl; try done.
    + set_solver.
    + auto.
    + split; simpl; [done|set_solver].
    + apply (vi_once _ Hv).
    + intros t c [[= -> ->]|Hin]%elem_of_union_singleton; [|by apply (vi_elected _ Hv)].
      exists ({[i]} ∪ votes). split; [done|].
      intros j [->|?]%elem_of_union_singleton; auto.
Qed.

Lemma vsteps_inv i v v' : vsteps i v v' → voting_inv v → voting_inv v'.
Proof. induction 1; eauto using vstep_inv. Qed.

(** Two majorities of the same membership share a member. *)
Lemma majority_meet q1 q2 : majority q1 → majority q2 → ∃ i, i ∈ q1 ∧ i ∈ q2.
Proof.
  intros [S1 M1] [S2 M2]. destruct (decide (q1 ∩ q2 = ∅)) as [Hd|Hd].
  - assert (size (q1 ∪ q2) = size q1 + size q2)%nat as Hu by (apply size_union; set_solver).
    assert (size (q1 ∪ q2) <= size members)%nat by (apply subseteq_size; set_solver). lia.
  - apply set_choose_L in Hd as [i Hi]. exists i. set_solver.
Qed.

Lemma election_unique v t c1 c2 :
  voting_inv v → (t, c1) ∈ av_elected v → (t, c2) ∈ av_elected v → c1 = c2.
Proof.
  intros [_ _ Ho He] H1 H2. destruct (He _ _ H1) as (q1 & M1 & V1), (He _ _ H2) as (q2 & M2 & V2).
  destruct (majority_meet q1 q2 M1 M2) as (i & I1 & I2). eauto.
Qed.

(** ** Leaders are elected once

    A member leads only in terms it has reached, and a candidate has not led
    in its term: whoever becomes the leader of a term is its first leader. *)
Definition elected_inv (v : voting) : Prop :=
  ∀ i a, av_node v !! i = Some a →
    (∀ t, (t, i) ∈ av_elected v → t <= a_term a) ∧
    (∀ votes, a_role a = ACandidate votes → (a_term a, i) ∉ av_elected v).

Lemma elected_inv_init (m : gmap NodeId anode) : elected_inv (mkVoting m ∅ ∅).
Proof. intros i a _. split; set_solver. Qed.

(** Member [i] changes and no one is elected. *)
Lemma elected_inv_quiet m cast cast' el i a a' :
  elected_inv (mkVoting m cast el) → m !! i = Some a → a_term a <= a_term a' →
  (∀ votes, a_role a' = ACandidate votes → (a_term a', i) ∉ el) →
  elected_inv (mkVoting (<[i := a']> m) cast' el).
Proof.
  intros Hv Ha Ht Hr j b. simpl. destruct (decide (j = i)) as [->|Hj].
  - rewrite lookup_insert_eq. intros [= <-]. destruct (Hv i a Ha) as [H1 _].
    split; [|done]. intros t Hin. specialize (H1 t Hin). lia.
  - rewrite lookup_insert_ne by done. apply Hv.
Qed.

Lemma vstep_elected i v v' : vstep i v v' → elected_inv v → elected_inv v'.
Proof.
  intros Hs Hv. destruct Hs as [m cast el a Ha|m cast el a t Ha Ht|m cast el a Ha|m cast el a c Ha Hc
                 |m cast el a votes w Ha Hr Hw Hin|m cast el a votes Ha Hr Hq];
    destruct (Hv i a Ha) as [H1 H2]; simpl in H1, H2.
  1-5: apply (elected_inv_quiet _ _ _ _ _ _ _ Hv Ha); simpl; [lia|]; try done.
  - intros _ _ Hin. specialize (H1 _ Hin). lia.
  - intros _ _. by apply (H2 votes).
  - intros j b. simpl. destruct (decide (j = i)) as [->|Hj].
    + rewrite lookup_insert_eq. intros [= <-]. split; simpl; [|done].
      intros t [[= ->]|Hin]%elem_of_union_singleton; [lia|auto].
    + rewrite lookup_insert_ne by done. intros Hb. destruct (Hv j b Hb) as [K1 K2]. simpl in *.
      split; [|set_solver]. intros t [[= -> ->]|Hin]%elem_of_union_singleton; auto. done.
Qed.

Lemma vsteps_elected i v v' : vsteps i v v' → elected_inv v → elected_inv v'.
Proof. induction 1; eauto using vstep_elected. Qed.

(** A follower does not lead again in its term. *)
Lemma follower_stays i v v' a :
  vsteps i v v' → av_node v !! i = Some a → a_role a = AFollower →
  ∃ a', av_node v' !! i = Some a' ∧
    (a_term a < a_term a' ∨ (a_term a' = a_term a ∧ a_role a' = AFollower)).
Proof.
  intros Hs Ha Hr. assert (∃ b, av_node v !! i = Some b ∧
    (a_term a < a_term b ∨ (a_term b = a_term a ∧ a_role b = AFollower))) as Hb by eauto.
  clear Ha Hr. induction Hs as [v|v1 v2 v3 Hs _ IH]; [done|]. apply IH. clear IH.
  destruct Hb as (b & Hb & Hor). destruct Hs; simpl in *; rewrite lookup_insert_eq; simplify_eq;
    (eexists; split; [done|]); simpl; (destruct Hor as [?|[? Hf]]; [left; lia|]);
    first [left; lia | right; split; [lia|congruence] | congruence].
Qed.

Lemma vsteps_term i v v' a :
  vsteps i v v' → av_node v !! i = Some a → ∃ a', av_node v' !! i = Some a' ∧ a_term a <= a_term a'.
Proof.
  intros Hs. revert a. induction Hs as [v|v1 v2 v3 Hs _ IH]; intros a Ha; [by exists a|].
  assert (∃ b, av_node v2 !! i = Some b ∧ a_term a <= a_term b) as (b & Hb & Hle).
  { destruct Hs; simpl in *; rewrite lookup_insert_eq; simplify_eq; (eexists; split; [done|]); simpl; lia. }
  destruct (IH b Hb) as (a' & Ha' & ?). exists a'. split; [done|lia].
Qed.

(** The leader of a term after some steps led it before, or the term had no
    leader before. *)
Lemma new_leader i v v' a a' :
  vsteps i v v' → voting_inv v → elected_inv v →
  av_node v !! i = Some a → av_node v' !! i = Some a' → a_role a' = ALeader →
  (a_role a = ALeader ∧ a_term a = a_term a') ∨ ∀ c, (a_term a', c) ∉ av_elected v.
Proof.
  intros Hs Hv He Ha Ha' Hlead.
  destruct (decide (set_Exists (λ x, x.1 = a_term a') (av_elected v))) as [([t c] & Hin & Ht)|Hno].
  2: { right. intros c Hin. apply Hno. by exists (a_term a', c). }
  simpl in Ht. subst t. left. pose proof (vsteps_inv i v v' Hs Hv) as Hv'.
  destruct (vi_member _ Hv' i a' Ha') as [_ Hrole']. rewrite Hlead in Hrole'.
  destruct (vsteps_term i v v' a Hs Ha) as (b & Hb & Hle). rewrite Ha' in Hb. injection Hb as <-.
  assert (av_elected v ⊆ av_elected v') as Hsub.
  { clear -Hs. induction Hs as [|v1 v2 v3 Hs _ IH]; [done|]. etrans; [|exact IH]. destruct Hs; set_solver. }
  assert (c = i) as -> by (eapply (election_unique v'); eauto).
  destruct (He i a Ha) as [H1 H2]. specialize (H1 _ Hin). assert (a_term a = a_term a') as Heq by lia.
  destruct (a_role a) as [|votes|] eqn:Hr; [|by destruct (H2 votes eq_refl); rewrite Heq|done].
  destruct (follower_stays i v v' a Hs Ha Hr) as (b & Hb & [?|[_ Hf]]);
    rewrite Ha' in Hb; injection Hb as <-; [lia|congruence].
Qed.

End Voting.
