(* ===== verification/NodeVotes.v ===== *)
(** * Terms and votes of a node

    What every operation of [RaftNode] does to the fields that carry votes:
    [current_term_], [voted_for_], the meta store, [role_] and
    [votes_received_], and which election messages it sends.  Proved for any
    environment that satisfies [EnvLaws]. *)

From S2P Require Import Prelude Codec DurableStore Types Wal KvStore RaftLog Rpc Env Node.

(** The bytes [b] written by [truncate_to(0); append(b); flush()]. *)
Definition stored (b : bytes) : DurableStore := mkDurableStore b (length b).

Definition meta_bytes (t : Term) (v : option NodeId) : bytes :=
  Enc.u64 t ++ Enc.boolean (bool_decide (is_Some v)) ++
  match v with Some c => Enc.u32 c | None => [] end.

(** The meta store holds the node's term and vote; before the first
    [persist] it is empty and they have their initial values. *)
Definition meta_holds (t : Term) (v : option NodeId) (st : DurableStore) : Prop :=
  is_u64 t ∧ (∀ c, v = Some c → is_u32 c) ∧
  (st = stored (meta_bytes t v) ∨ (st = empty_store ∧ t = 0 ∧ v = None)).

Definition meta_ok (n : RaftNode) : Prop :=
  meta_holds (current_term_ n) (voted_for_ n) (meta_store_ n).

(** RequestVote and RequestVoteReply payloads. *)
Definition election_payload (p : bytes) : bool :=
  match p with
  | [] => false
  | b :: _ => (b =? mt_RequestVote) || (b =? mt_RequestVoteReply)
  end.

(** A message that carries no vote and no request for one. *)
Definition quiet_msg (i : NodeId) (m : Message) : Prop :=
  msg_from m = i ∧ election_payload (msg_payload m) = false ∧ bytes_ok (msg_payload m).

Lemma store_rewrite (b : bytes) (st : DurableStore) :
  flush (append b (truncate_to 0 st)) = stored b.
Proof.
  unfold flush, append, truncate_to; cbn -[Mem.truncate_to].
  unfold Mem.flush, Mem.append. cbn [data_ flushed_end_].
  by rewrite mem_truncate_data.
Qed.

Lemma bind_rd {E A B} (f : RaftNode → A) (k : A → M (nstate E) B) s :
  (rd f ≫= k) s = k (f (nd s)) s.
Proof. done. Qed.

Lemma bind_upd {E B} (f : RaftNode → RaftNode) (k : unit → M (nstate E) B) s :
  (upd f ≫= k) s = k tt (mkN (f (nd s)) (env s)).
Proof. done. Qed.

Section Votes.
Context {E : Type} `{EnvLaws E}.
Implicit Types (s : nstate E) (n : RaftNode).

(** The operation leaves term and vote alone, may at most step down, keeps
    the meta store in step, and sends no election message. *)
Record calm s s' : Prop := {
  calm_id : id_ (nd s') = id_ (nd s);
  calm_term : current_term_ (nd s') = current_term_ (nd s);
  calm_vote : voted_for_ (nd s') = voted_for_ (nd s);
  calm_role : role_ (nd s') = Follower ∨
    (role_ (nd s') = role_ (nd s) ∧
     (role_ (nd s') = Candidate → votes_received_ (nd s') = votes_received_ (nd s) ∧
                                  election_term_ (nd s') = election_term_ (nd s)));
  calm_meta : meta_ok (nd s) → meta_ok (nd s');
  calm_msgs : ∃ ms, sent (env s') = sent (env s) ++ ms ∧ Forall (quiet_msg (id_ (nd s))) ms;
}.

#[global] Instance calm_preorder : PreOrder calm.
Proof.
  split.
  - intros s. split; auto. exists []. by rewrite app_nil_r.
  - intros s1 s2 s3 [] []. split; try congruence; auto.
    + destruct calm_role0, calm_role1; naive_solver congruence.
    + destruct calm_msgs0 as (m1 & E1 & H1), calm_msgs1 as (m2 & E2 & H2).
      exists (m1 ++ m2). rewrite E2, E1, app_assoc. split; [done|]. apply Forall_app.
      split; [done|]. by rewrite calm_id0 in H2.
Qed.

(** The fields [calm] speaks of. *)
Definition vote_fields n :=
  (id_ n, current_term_ n, voted_for_ n, election_term_ n, role_ n, votes_received_ n,
   meta_store_ n).

Lemma calm_of_fields s s' :
  vote_fields (nd s') = vote_fields (nd s) → sent (env s') = sent (env s) → calm s s'.
Proof.
  intros Hv Hs. unfold vote_fields in Hv. simplify_eq/=. split; try congruence; auto.
  - unfold meta_ok. congruence.
  - exists []. by rewrite app_nil_r.
Qed.

Lemma calm_upd (f : RaftNode → RaftNode) :
  (∀ n, vote_fields (f n) = vote_fields n) → keeps calm (upd f).
Proof. intros Hf s. by apply calm_of_fields; simpl. Qed.

Lemma calm_rd {A} (f : RaftNode → A) : keeps calm (rd f).
Proof. apply keeps_gets, _. Qed.

Lemma calm_result {A} (r : result A) : keeps calm (lift_result r).
Proof. intros s. done. Qed.

Lemma calm_decoder {A} (d : M bytes A) b : keeps calm (run_decoder d b).
Proof. intros s. done. Qed.

Lemma calm_env {A} (m : M E A) :
  (∀ e, ∃ a e', m e = (Ok a, e') ∧ sent e' = sent e) → keeps calm (liftE m).
Proof.
  intros Hm s. unfold liftE. destruct (Hm (env s)) as (a & e' & -> & He).
  by apply calm_of_fields.
Qed.

Lemma calm_send to p :
  election_payload p = false → bytes_ok p → keeps calm (Node.send to p).
Proof.
  intros Hp Hb s. unfold Node.send, mbind, M_bind, rd, gets, liftE.
  destruct (net_send_sent (id_ (nd s)) to p (env s)) as (e' & -> & He).
  split; try done; auto. exists [mkMessage (id_ (nd s)) to p]. split; [done|].
  by repeat constructor.
Qed.

(** The payloads a node sends besides votes and vote requests. *)
Lemma calm_send_rpc to r :
  election_payload (encode_rpc r) = false → keeps calm (Node.send to (encode_rpc r)).
Proof. intros Hr. apply calm_send; [done|apply encode_rpc_ok]. Qed.

Lemma calm_send_ae to m : keeps calm (Node.send to (Encode.AppendEntries m)).
Proof. by apply (calm_send_rpc to (RpcAppendEntries m)). Qed.
Lemma calm_send_aer to m : keeps calm (Node.send to (Encode.AppendEntriesReply m)).
Proof. by apply (calm_send_rpc to (RpcAppendEntriesReply m)). Qed.
Lemma calm_send_crp to m : keeps calm (Node.send to (Encode.ClientReply m)).
Proof. by apply (calm_send_rpc to (RpcClientReply m)). Qed.
Lemma calm_send_is to m : keeps calm (Node.send to (Encode.InstallSnapshot m)).
Proof. by apply (calm_send_rpc to (RpcInstallSnapshot m)). Qed.
Lemma calm_send_isr to m : keeps calm (Node.send to (Encode.InstallSnapshotReply m)).
Proof. by apply (calm_send_rpc to (RpcInstallSnapshotReply m)). Qed.
Lemma calm_send_rir to m : keeps calm (Node.send to (Encode.ReadIndexRequest m)).
Proof. by apply (calm_send_rpc to (RpcReadIndexRequest m)). Qed.
Lemma calm_send_rip to m : keeps calm (Node.send to (Encode.ReadIndexReply m)).
Proof. by apply (calm_send_rpc to (RpcReadIndexReply m)). Qed.

Lemma calm_cancel i : keeps calm (liftE (cancel (A := timer) i)).
Proof. apply calm_env. intros e. destruct (cancel_sent i e) as (e' & ? & ?). eauto. Qed.
Lemma calm_schedule d (t : timer) : keeps calm (liftE (schedule d t)).
Proof. apply calm_env. intros e. apply schedule_sent. Qed.
Lemma calm_random lo hi : keeps calm (liftE (random_range (A := timer) lo hi)).
Proof. apply calm_env. intros e. apply random_sent. Qed.
Lemma calm_client_done t r : keeps calm (liftE (client_done t r)).
Proof. apply calm_env. intros e. destruct (client_done_sent t r e) as (e' & ? & ?). eauto. Qed.
Lemma calm_read_done t l b v : keeps calm (liftE (read_done t l b v)).
Proof. apply calm_env. intros e. destruct (read_done_sent t l b v e) as (e' & ? & ?). eauto. Qed.
Lemma calm_state_changed i r t : keeps calm (liftE (state_changed i r t)).
Proof. apply calm_env. intros e. destruct (state_changed_sent i r t e) as (e' & ? & ?). eauto. Qed.
Lemma calm_set_handler i (h : handler) : keeps calm (liftE (set_handler i h)).
Proof. apply calm_env. intros e. destruct (set_handler_sent i h e) as (e' & ? & ?). eauto. Qed.
Lemma calm_remove_handler i : keeps calm (liftE (remove_handler (H := handler) i)).
Proof. apply calm_env. intros e. destruct (remove_handler_sent i e) as (e' & ? & ?). eauto. Qed.

End Votes.

Create HintDb calm.
Create HintDb mild.
#[export] Hint Resolve calm_rd calm_result calm_decoder calm_send_ae calm_send_aer calm_send_crp
  calm_send_is calm_send_isr calm_send_rir calm_send_rip calm_cancel calm_schedule calm_random
  calm_client_done calm_read_done calm_state_changed calm_set_handler calm_remove_handler : calm.

(** Walks through a computation, splitting binds, conditionals and loops;
    [base] closes the calls that are left. *)
Ltac keeps_step base :=
  lazymatch goal with
  | |- keeps _ (mbind _ _) => apply keeps_bind; [apply _| |intros]
  | |- keeps _ (mret _) => apply keeps_ret, _
  | |- keeps _ (throw _) => apply keeps_throw, _
  | |- keeps _ (when _ _) => apply keeps_when; [apply _|]
  | |- keeps _ (for_each _ _) => apply keeps_for_each; [apply _|intros]
  | |- keeps _ (match ?x with _ => _ end) => destruct x
  | |- keeps _ (let _ := _ in _) => cbv zeta
  | |- keeps _ _ => base
  end.
Ltac calm_base := first [solve [eauto with calm nocore] | apply calm_upd; intros; reflexivity].
Ltac calm_auto := repeat keeps_step calm_base.

Section Calm.
Context {E : Type} `{EnvLaws E}.

Lemma calm_persist : keeps calm Node.persist.
Proof.
  intros s. unfold Node.persist, mbind, M_bind, rd, upd, gets, modify; simpl.
  split; try done; auto.
  - intros (Ht & Hv & _). split_and!; [done..|]. left. apply store_rewrite.
  - exists []. by rewrite app_nil_r.
Qed.
Hint Resolve calm_persist : calm.

Lemma calm_cancel_election : keeps calm Node.cancel_election_timeout.
Proof. unfold Node.cancel_election_timeout. calm_auto. Qed.
Lemma calm_schedule_election : keeps calm Node.schedule_election_timeout.
Proof. unfold Node.schedule_election_timeout. calm_auto. Qed.
Lemma calm_cancel_heartbeat : keeps calm Node.cancel_heartbeat.
Proof. unfold Node.cancel_heartbeat. calm_auto. Qed.
Lemma calm_schedule_heartbeat : keeps calm Node.schedule_heartbeat.
Proof. unfold Node.schedule_heartbeat. calm_auto. Qed.
Lemma calm_notify : keeps calm Node.notify_state_change.
Proof. unfold Node.notify_state_change. calm_auto. Qed.
Lemma calm_invoke cb r : keeps calm (Node.invoke_client cb r).
Proof. unfold Node.invoke_client. calm_auto. Qed.
Lemma calm_invoke_read t b v : keeps calm (Node.invoke_read t b v).
Proof. unfold Node.invoke_read. calm_auto. Qed.
Hint Resolve calm_invoke_read : calm.
Lemma calm_cancel_reads : keeps calm Node.cancel_pending_reads.
Proof. unfold Node.cancel_pending_reads. calm_auto. Qed.
Hint Resolve calm_cancel_election calm_schedule_election calm_cancel_heartbeat
  calm_schedule_heartbeat calm_notify calm_invoke calm_cancel_reads : calm.

Lemma calm_this : keeps calm Node.this.
Proof. apply calm_rd. Qed.
Lemma calm_next_index_at p : keeps calm (Node.next_index_at p).
Proof. unfold Node.next_index_at. calm_auto. Qed.
Lemma calm_match_index_at p : keeps calm (Node.match_index_at p).
Proof. unfold Node.match_index_at. calm_auto. Qed.
Lemma calm_set_next_index p i : keeps calm (Node.set_next_index p i).
Proof. unfold Node.set_next_index. calm_auto. Qed.
Lemma calm_set_match_index p i : keeps calm (Node.set_match_index p i).
Proof. unfold Node.set_match_index. calm_auto. Qed.
Hint Resolve calm_this calm_next_index_at calm_match_index_at calm_set_next_index
  calm_set_match_index : calm.

Lemma calm_drain kept todo : keeps calm (Node.drain_loop kept todo).
Proof. revert kept. induction todo; intros; simpl; calm_auto. Qed.
Lemma calm_drain_reads : keeps calm Node.drain_pending_reads.
Proof. unfold Node.drain_pending_reads. apply (keeps_bind calm); [apply calm_rd|]. intros. apply calm_drain. Qed.
Lemma calm_send_snapshot p : keeps calm (Node.send_install_snapshot p).
Proof. unfold Node.send_install_snapshot. calm_auto. Qed.
Lemma calm_prev_term i : keeps calm (Node.prev_term_of i).
Proof. unfold Node.prev_term_of. calm_auto. Qed.
Hint Resolve calm_drain_reads calm_send_snapshot calm_prev_term : calm.
Lemma calm_replicate_to p : keeps calm (Node.replicate_to p).
Proof. unfold Node.replicate_to. calm_auto. Qed.
Hint Resolve calm_replicate_to : calm.
Lemma calm_replicate_all : keeps calm Node.replicate_all.
Proof. unfold Node.replicate_all. calm_auto. Qed.
Lemma calm_save_snapshot : keeps calm Node.save_snapshot.
Proof. unfold Node.save_snapshot. calm_auto. Qed.
Hint Resolve calm_replicate_all calm_save_snapshot : calm.
Lemma calm_take_snapshot : keeps calm Node.take_snapshot.
Proof. unfold Node.take_snapshot. calm_auto. Qed.
Hint Resolve calm_take_snapshot : calm.

(** What [persist] leaves behind. *)
Definition persisted (n : RaftNode) : RaftNode :=
  n <| meta_store_ := stored (Node.encode_meta n) |>
    <| log_store_ := stored (Log.encode (log_ n)) |>.

Lemma persist_eq (s : nstate E) : Node.persist s = (Ok tt, mkN (persisted (nd s)) (env s)).
Proof.
  destruct s as [[] e]. unfold Node.persist, mbind, M_bind, rd, upd, gets, modify.
  unfold persisted, Log.save_to.
  cbn -[truncate_to append flush Log.encode Node.encode_meta].
  by rewrite !store_rewrite.
Qed.

(** The term update of [become_follower]. *)
Definition bump_term (t : Term) (n : RaftNode) : RaftNode :=
  if current_term_ n <? t
  then persisted (n <| current_term_ := t |> <| voted_for_ := None |>) else n.

(** As [calm], for a node that is not a candidate: its vote tally may go. *)
Definition settled (s s' : nstate E) : Prop := role_ (nd s) ≠ Candidate → calm s s'.

#[global] Instance settled_preorder : PreOrder settled.
Proof.
  split; [by intros s Hs|]. intros s1 s2 s3 H12 H23 Hs. specialize (H12 Hs).
  etrans; [done|]. apply H23. destruct H12 as [_ _ _ [->|[-> _]] _ _]; done.
Qed.

Lemma calm_settled {A} (m : M (nstate E) A) : keeps calm m → keeps settled m.
Proof. intros Hm s Hs. apply Hm. Qed.

Lemma settled_upd (f : RaftNode → RaftNode) :
  (∀ n, (id_ (f n), current_term_ (f n), voted_for_ (f n), role_ (f n), meta_store_ (f n)) =
        (id_ n, current_term_ n, voted_for_ n, role_ n, meta_store_ n)) → keeps settled (upd f).
Proof.
  intros Hf s Hs. specialize (Hf (nd s)). simplify_eq/=. split; simpl; try congruence.
  - right. split; congruence.
  - unfold meta_ok. congruence.
  - exists []. by rewrite app_nil_r.
Qed.

Lemma returns_env {A} (m : M E A) :
  (∀ e, ∃ a e', m e = (Ok a, e') ∧ sent e' = sent e) → returns (liftE m).
Proof. intros Hm s. unfold liftE. destruct (Hm (env s)) as (a & e' & -> & _). by exists a. Qed.

Lemma returns_cancel i : returns (liftE (cancel (A := timer) i)).
Proof. apply returns_env. intros e. destruct (cancel_sent i e) as (e' & ? & ?). eauto. Qed.
Lemma returns_schedule d (t : timer) : returns (liftE (schedule d t)).
Proof. apply returns_env. intros e. apply schedule_sent. Qed.
Lemma returns_random lo hi : returns (liftE (random_range (A := timer) lo hi)).
Proof. apply returns_env. intros e. apply random_sent. Qed.
Lemma returns_read_done t l b v : returns (liftE (read_done t l b v)).
Proof. apply returns_env. intros e. destruct (read_done_sent t l b v e) as (e' & ? & ?). eauto. Qed.
Lemma returns_state_changed i r t : returns (liftE (state_changed i r t)).
Proof. apply returns_env. intros e. destruct (state_changed_sent i r t e) as (e' & ? & ?). eauto. Qed.
Lemma returns_rd {A} (f : RaftNode → A) : returns (rd f : M (nstate E) A).
Proof. apply returns_gets. Qed.
Lemma returns_upd f : returns (upd f : M (nstate E) unit).
Proof. apply returns_modify. Qed.
Hint Resolve returns_cancel returns_schedule returns_random returns_read_done
  returns_state_changed returns_rd returns_upd : returns.

Lemma returns_invoke_read t b v : returns (Node.invoke_read t b v).
Proof. unfold Node.invoke_read. eauto 10 with returns. Qed.
Hint Resolve returns_invoke_read : returns.
Lemma returns_cancel_reads : returns Node.cancel_pending_reads.
Proof. unfold Node.cancel_pending_reads. eauto 10 with returns. Qed.
Lemma returns_cancel_heartbeat : returns Node.cancel_heartbeat.
Proof. unfold Node.cancel_heartbeat. eauto 10 with returns. Qed.
Lemma returns_notify : returns Node.notify_state_change.
Proof. unfold Node.notify_state_change. eauto 10 with returns. Qed.
Lemma returns_cancel_election : returns Node.cancel_election_timeout.
Proof. unfold Node.cancel_election_timeout. eauto 10 with returns. Qed.
Lemma returns_schedule_election : returns Node.schedule_election_timeout.
Proof. unfold Node.schedule_election_timeout. eauto 20 with returns. Qed.
Hint Resolve returns_cancel_reads returns_cancel_heartbeat returns_notify
  returns_cancel_election returns_schedule_election : returns.

(** [become_follower] in pieces. *)
Definition step_down : M (nstate E) unit :=
  Node.cancel_pending_reads;;
  role_ ::= Follower;;
  Node.cancel_heartbeat;;
  Node.notify_state_change.

Definition settle_follower (l : option NodeId) : M (nstate E) unit :=
  leader_id_ ::= l;;
  votes_received_ ::= ∅;;
  vote_count_ ::= 0;;
  Node.cancel_election_timeout;;
  Node.schedule_election_timeout.

Lemma calm_role_follower : keeps calm (role_ ::= Follower : M (nstate E) unit).
Proof.
  intros s. split; try done; simpl; auto. exists []. by rewrite app_nil_r.
Qed.

Lemma step_down_spec s :
  ∃ s', step_down s = (Ok tt, s') ∧ calm s s' ∧ role_ (nd s') = Follower.
Proof.
  unfold step_down. destruct (returns_inv _ s returns_cancel_reads) as [[] H1].
  rewrite (bind_ok _ _ _ _ _ H1). pose proof (calm_cancel_reads s) as C1.
  set (s1 := (Node.cancel_pending_reads s).2) in *.
  rewrite (bind_ok _ _ s1 (mkN ((nd s1) <| role_ := Follower |>) (env s1)) tt eq_refl).
  pose proof (calm_role_follower s1) as C2. set (s2 := mkN _ _) in *.
  assert (returns (Node.cancel_heartbeat;; Node.notify_state_change : M (nstate E) unit)) as Hr
    by eauto with returns.
  destruct (returns_inv _ s2 Hr) as [[] H3].
  assert (keeps calm (Node.cancel_heartbeat;; Node.notify_state_change : M (nstate E) unit)) as Hk
    by calm_auto.
  rewrite H3. eexists. split; [done|]. specialize (Hk s2). split.
  - etrans; [exact C1|]. etrans; [exact C2|]. exact Hk.
  - destruct Hk as [_ _ _ [?|[-> _]] _ _]; done.
Qed.

Lemma settle_follower_spec l s :
  role_ (nd s) = Follower →
  ∃ s', settle_follower l s = (Ok tt, s') ∧ calm s s' ∧ role_ (nd s') = Follower.
Proof.
  intros Hs. assert (returns (settle_follower l)) as Hr by (unfold settle_follower; eauto 10 with returns).
  destruct (returns_inv _ s Hr) as [[] He]. eexists. split; [exact He|].
  assert (keeps settled (settle_follower l)) as Hk.
  { unfold settle_follower.
    repeat (apply keeps_bind; [apply _|apply settled_upd; reflexivity|intros _]).
    apply calm_settled. calm_auto. }
  assert (calm s (settle_follower l s).2) as HC by (apply Hk; congruence).
  split; [done|]. destruct HC as [_ _ _ [->|[-> _]] _ _]; done.
Qed.

Lemma follower_tail_spec (tc : bool) l s :
  ∃ s', (r ← rd role_;
         when (negb (bool_decide (r = Follower)) || tc) step_down;; settle_follower l) s
        = (Ok tt, s') ∧ calm s s' ∧ role_ (nd s') = Follower.
Proof.
  rewrite (bind_ok (rd role_) _ s s (role_ (nd s)) eq_refl).
  destruct (negb (bool_decide (role_ (nd s) = Follower)) || tc) eqn:Hb; cbn [when].
  - destruct (step_down_spec s) as (s1 & E1 & C1 & R1). rewrite (bind_ok _ _ _ _ _ E1).
    destruct (settle_follower_spec l s1 R1) as (s2 & E2 & C2 & R2).
    exists s2. split; [done|]. split; [by etrans|done].
  - apply orb_false_iff in Hb as [Hb%negb_false_iff%bool_decide_eq_true _].
    rewrite (bind_ok (mret tt) _ s s tt eq_refl). by apply settle_follower_spec.
Qed.

Lemma become_follower_spec t l s :
  ∃ s', Node.become_follower t l s = (Ok tt, s') ∧
        calm (mkN (bump_term t (nd s)) (env s)) s' ∧ role_ (nd s') = Follower.
Proof.
  unfold Node.become_follower. rewrite (bind_ok (rd current_term_) _ s s (current_term_ (nd s)) eq_refl).
  cbv zeta. unfold bump_term. destruct (current_term_ (nd s) <? t); cbn [when].
  - set (n1 := (nd s) <| current_term_ := t |> <| voted_for_ := None |>).
    rewrite (bind_ok _ _ s (mkN (persisted n1) (env s)) tt (persist_eq (mkN n1 (env s)))).
    apply (follower_tail_spec true l).
  - rewrite (bind_ok (mret tt) _ s s tt eq_refl). destruct s as [n e].
    apply (follower_tail_spec false l).
Qed.

(** The term went up; the node is a follower that has not voted. *)
Record bump (s s' : nstate E) : Prop := {
  bump_id : id_ (nd s') = id_ (nd s);
  bump_up : current_term_ (nd s) < current_term_ (nd s');
  bump_vote : voted_for_ (nd s') = None;
  bump_role : role_ (nd s') = Follower;
  bump_meta : meta_ok (nd s') ;
  bump_msgs : ∃ ms, sent (env s') = sent (env s) ++ ms ∧ Forall (quiet_msg (id_ (nd s))) ms;
}.

(** What every operation does that neither grants a vote nor stands for
    election. *)
Definition mild (s s' : nstate E) : Prop := calm s s' ∨ bump s s'.

Lemma msgs_trans (i : NodeId) (e1 e2 e3 : E) :
  (∃ ms, sent e2 = sent e1 ++ ms ∧ Forall (quiet_msg i) ms) →
  (∃ ms, sent e3 = sent e2 ++ ms ∧ Forall (quiet_msg i) ms) →
  ∃ ms, sent e3 = sent e1 ++ ms ∧ Forall (quiet_msg i) ms.
Proof.
  intros (m1 & E1 & H1) (m2 & E2 & H2). exists (m1 ++ m2).
  rewrite E2, E1, app_assoc. split; [done|by apply Forall_app].
Qed.

#[global] Instance mild_preorder : PreOrder mild.
Proof.
  split; [intros s; by left|]. intros s1 s2 s3 [C1|B1] [C2|B2].
  - left. by etrans.
  - right. destruct C1, B2. split; try congruence.
    rewrite calm_id0 in *. eauto using msgs_trans.
  - right. destruct B1, C2. split; try congruence; auto.
    + naive_solver congruence.
    + rewrite bump_id0 in *. eauto using msgs_trans.
  - right. destruct B1, B2. split; try congruence; try lia.
    rewrite bump_id0 in *. eauto using msgs_trans.
Qed.

Lemma calm_mild {A} (m : M (nstate E) A) : keeps calm m → keeps mild m.
Proof. intros Hm s. left. apply Hm. Qed.

Lemma persisted_meta n :
  is_u64 (current_term_ n) → (∀ c, voted_for_ n = Some c → is_u32 c) → meta_ok (persisted n).
Proof. intros Ht Hv. split_and!; [done..|]. by left. Qed.

Lemma mild_become_follower_at t l s :
  is_u64 t ∨ t <= current_term_ (nd s) → mild s (Node.become_follower t l s).2.
Proof.
  intros Hu. destruct (become_follower_spec t l s) as (s' & -> & C & R). simpl.
  unfold bump_term in C. destruct (Z.ltb_spec (current_term_ (nd s)) t) as [Ht|Ht].
  - right. destruct C as [? Cterm Cvote ? Cmeta ?]. split; try done.
    + by rewrite Cterm.
    + apply Cmeta, persisted_meta; [destruct Hu; [done|lia]|done].
  - left. by destruct s.
Qed.

Lemma mild_become_follower t l : is_u64 t → keeps mild (Node.become_follower t l).
Proof. intros Ht s. apply mild_become_follower_at. by left. Qed.

(** A continuation run on what was just read of the state. *)
Lemma mild_bind_rd {A B} (f : RaftNode → A) (k : A → M (nstate E) B) :
  (∀ s, mild s (k (f (nd s)) s).2) → keeps mild (rd f ≫= k).
Proof. intros Hk s. apply Hk. Qed.

Lemma mild_at_bind {A B} (m : M (nstate E) A) (k : A → M (nstate E) B) s :
  mild s (m s).2 → (∀ a, keeps mild (k a)) → mild s ((m ≫= k) s).2.
Proof.
  intros Hm Hk. unfold mbind, M_bind. destruct (m s) as [[a|e] s']; simpl in *; [|done].
  etrans; [done|apply Hk].
Qed.

(** [become_follower] of the term read from the node or of a newer one. *)
Lemma mild_follow t l s :
  is_u64 t → mild s ((if current_term_ (nd s) <? t then Node.become_follower t l
                      else Node.become_follower (current_term_ (nd s)) l) s).2.
Proof.
  intros Ht. destruct (_ <? _); apply mild_become_follower_at; [by left|right; lia].
Qed.

(** ** Operations that neither vote nor stand for election *)

Ltac mild_base :=
  first [ solve [eauto with mild nocore]
        | apply calm_mild; calm_base ].
Ltac mild_auto := repeat keeps_step mild_base.

Hint Resolve mild_become_follower : mild.

Lemma mild_membership cmd : keeps mild (Node.apply_membership_change cmd).
Proof.
  unfold Node.apply_membership_change. destruct cmd; try solve [mild_auto].
  do 3 (apply (keeps_bind mild); [apply calm_mild; calm_base|intros _]).
  apply mild_bind_rd. intros s. destruct (_ && _); [|reflexivity].
  apply mild_become_follower_at. right. done.
Qed.
Hint Resolve mild_membership : mild.
Lemma mild_apply_one i : keeps mild (Node.apply_one i).
Proof. unfold Node.apply_one. mild_auto. Qed.
Hint Resolve mild_apply_one : mild.
Lemma mild_apply_loop fuel : keeps mild (Node.apply_loop fuel).
Proof. induction fuel; simpl; mild_auto. Qed.
Hint Resolve mild_apply_loop : mild.
Lemma mild_apply_committed : keeps mild Node.apply_committed_entries.
Proof. unfold Node.apply_committed_entries. mild_auto. Qed.
Hint Resolve mild_apply_committed : mild.
Lemma calm_skip_prior i : keeps calm (Node.skip_prior_term i).
Proof. unfold Node.skip_prior_term. calm_auto. Qed.
Hint Resolve calm_skip_prior : calm.
Lemma mild_advance_loop fuel i : keeps mild (Node.advance_loop fuel i).
Proof. revert i. induction fuel; intros; simpl; mild_auto. Qed.
Hint Resolve mild_advance_loop : mild.
Lemma mild_maybe_advance : keeps mild Node.maybe_advance_commit_index.
Proof. unfold Node.maybe_advance_commit_index. mild_auto. Qed.
Hint Resolve mild_maybe_advance : mild.

Lemma mild_append_entries from ae :
  is_u64 (ae_term ae) → keeps mild (Node.handle_append_entries from ae).
Proof.
  intros Ht. unfold Node.handle_append_entries, Node.accept_entry_n.
  apply mild_bind_rd. intros s. destruct (_ <? _).
  { apply calm_mild. calm_auto. }
  apply mild_at_bind; [by apply mild_follow|intros _; mild_auto].
Qed.
Lemma mild_append_entries_reply from aer :
  is_u64 (aer_term aer) → keeps mild (Node.handle_append_entries_reply from aer).
Proof. intros. unfold Node.handle_append_entries_reply. mild_auto. Qed.
Lemma mild_install_snapshot from sn :
  is_u64 (is_term sn) → keeps mild (Node.handle_install_snapshot from sn).
Proof.
  intros Ht. unfold Node.handle_install_snapshot. apply mild_bind_rd. intros s.
  destruct (_ <? _); [reflexivity|].
  apply mild_at_bind; [by apply mild_follow|intros _; mild_auto].
Qed.
Lemma mild_install_snapshot_reply from r :
  is_u64 (isr_term r) → keeps mild (Node.handle_install_snapshot_reply from r).
Proof. intros. unfold Node.handle_install_snapshot_reply. mild_auto. Qed.
Lemma mild_read_index_request from r :
  is_u64 (rir_term r) → keeps mild (Node.handle_read_index_request from r).
Proof.
  intros Ht. unfold Node.handle_read_index_request. apply mild_bind_rd. intros s.
  destruct (_ <? _); [reflexivity|].
  apply mild_at_bind; [by apply mild_follow|intros _; mild_auto].
Qed.
Lemma mild_read_index_reply from r :
  is_u64 (rip_term r) → keeps mild (Node.handle_read_index_reply from r).
Proof. intros. unfold Node.handle_read_index_reply. mild_auto. Qed.
Lemma mild_submit c r cmd cb : keeps mild (Node.submit c r cmd cb).
Proof. unfold Node.submit. mild_auto. Qed.
Hint Resolve mild_submit : mild.
Lemma mild_client_request from cr : keeps mild (Node.handle_client_request from cr).
Proof. unfold Node.handle_client_request. mild_auto. Qed.
Lemma calm_read_index key cb : keeps calm (Node.read_index key cb).
Proof. unfold Node.read_index. calm_auto. Qed.
Lemma calm_on_heartbeat : keeps calm Node.on_heartbeat.
Proof. unfold Node.on_heartbeat. calm_auto. Qed.
Lemma calm_timeout_loop round before after : keeps calm (Node.timeout_loop round before after).
Proof. revert before. induction after; intros; simpl; calm_auto. Qed.

(** ** Crash and start *)

Lemma meta_crash t v st : meta_holds t v st → meta_holds t v (DurableStore.crash st).
Proof.
  intros (Ht & Hv & Hst). split_and!; [done..|]. destruct Hst as [->|(-> & -> & ->)]; [|by right].
  left. unfold stored, DurableStore.crash. simpl. unfold Mem.crash. simpl.
  by rewrite resize_all_alt by done.
Qed.

Lemma calm_crash_meta :
  keeps calm (upd (λ n, n <| meta_store_ := DurableStore.crash (meta_store_ n) |>)
              : M (nstate E) unit).
Proof.
  intros s. split; try done; simpl; auto.
  - by apply meta_crash.
  - exists []. by rewrite app_nil_r.
Qed.

Ltac settled_base := first [apply calm_settled; calm_base | apply settled_upd; intros; reflexivity].
Ltac settled_auto := repeat keeps_step settled_base.

(** A computation that first makes the node a follower and then never makes
    it a candidate. *)
Lemma calm_follower_then {A} (m : M (nstate E) A) :
  keeps settled m → keeps calm (role_ ::= Follower;; m).
Proof.
  intros Hm s. unfold mbind, M_bind. simpl. etrans; [apply (calm_role_follower s)|].
  by apply Hm.
Qed.

Lemma calm_crash : keeps calm Node.crash.
Proof.
  unfold Node.crash.
  do 5 (apply (keeps_bind calm); [calm_base|intros]).
  apply (keeps_bind calm); [apply calm_crash_meta|intros _].
  do 2 (apply (keeps_bind calm); [calm_base|intros]).
  apply calm_follower_then. settled_auto.
Qed.

(** Reading back what [persist] wrote. *)
Lemma stored_read b : read_durable (stored b) = b.
Proof. apply take_ge. simpl. done. Qed.

Lemma meta_bytes_size t v : (length (meta_bytes t v) =? 0)%nat = false.
Proof. done. Qed.

Lemma load_meta_stored t v (s : nstate E) :
  is_u64 t → (∀ c, v = Some c → is_u32 c) → meta_store_ (nd s) = stored (meta_bytes t v) →
  voted_for_ (nd s) = None ∨ voted_for_ (nd s) = v →
  Node.load_meta s =
    (Ok tt, mkN ((nd s) <| current_term_ := t |> <| voted_for_ := v |>) (env s)).
Proof.
  intros Ht Hv Hst Hvote. unfold Node.load_meta.
  rewrite bind_rd, Hst.
  change (durable_size (stored (meta_bytes t v))) with (length (meta_bytes t v)).
  rewrite meta_bytes_size. cbv beta iota.
  rewrite bind_rd, Hst, stored_read.
  unfold meta_bytes. rewrite (reads_u64 t Ht).
  cbv beta iota. rewrite bind_upd.
  rewrite (reads_boolean (bool_decide (is_Some v)) _).
  destruct s as [[] e], v as [c|]; cbv beta iota.
  - rewrite bool_decide_true by done. cbn [when]. unfold run_decoder, mbind, M_bind.
    by rewrite <-(app_nil_r (Enc.u32 c)), (reads_u32 c (Hv c eq_refl)).
  - simpl in Hvote. rewrite bool_decide_false by (by intros [? [=]]). cbn [when].
    destruct Hvote as [->| ->]; reflexivity.
Qed.

Lemma load_meta_empty (s : nstate E) :
  meta_store_ (nd s) = empty_store → Node.load_meta s = (Ok tt, s).
Proof.
  intros Hst. unfold Node.load_meta.
  by rewrite bind_rd, Hst.
Qed.

Lemma calm_load_log : keeps calm Node.load_log.
Proof.
  unfold Node.load_log. apply (keeps_bind calm); [calm_base|intros sz].
  destruct (_ =? _)%nat; [apply (keeps_ret calm)|].
  intros s. destruct (Log.load_from _ _). by apply calm_of_fields.
Qed.
Hint Resolve calm_load_log calm_crash : calm.

(** Neither the fields that carry votes nor the network change. *)
Definition steady (s s' : nstate E) : Prop :=
  vote_fields (nd s') = vote_fields (nd s) ∧ sent (env s') = sent (env s).

#[global] Instance steady_preorder : PreOrder steady.
Proof. split; [by intros s|]. intros s1 s2 s3 [] []. split; congruence. Qed.

Lemma steady_upd (f : RaftNode → RaftNode) :
  (∀ n, vote_fields (f n) = vote_fields n) → keeps steady (upd f).
Proof. intros Hf s. by split; simpl. Qed.
Lemma steady_rd {A} (f : RaftNode → A) : keeps steady (rd f).
Proof. by intros s. Qed.
Lemma steady_decoder {A} (d : M bytes A) b : keeps steady (run_decoder d b).
Proof. by intros s. Qed.
Lemma steady_set_handler i (h : handler) : keeps steady (liftE (set_handler i h)).
Proof.
  intros s. unfold liftE. destruct (set_handler_sent i h (env s)) as (e' & -> & He). by split.
Qed.
Ltac steady_base :=
  first [apply steady_rd | apply steady_decoder | apply steady_set_handler
        | apply steady_upd; intros; reflexivity].
Ltac steady_auto := repeat keeps_step steady_base.

Lemma steady_fill i k dec : keeps steady (Node.fill_snap_data i k dec : M (nstate E) bytes).
Proof. revert i dec. induction k; intros; simpl; [|destruct (Dec.u8 dec) as [[] ]]; steady_auto. auto. Qed.
Lemma steady_load_snapshot : keeps steady Node.load_snapshot.
Proof. unfold Node.load_snapshot. steady_auto. apply steady_fill. Qed.

(** A computation known to return. *)
Lemma bind_inv {S A B} (m : M S A) (k : A → M S B) s s' b :
  (m ≫= k) s = (Ok b, s') → ∃ a s1, m s = (Ok a, s1) ∧ k a s1 = (Ok b, s').
Proof. unfold mbind, M_bind. destruct (m s) as [[a|e] s1]; [eauto|intros [=]]. Qed.

Definition restored (t : Term) (v : option NodeId) (n : RaftNode) : RaftNode :=
  n <| current_term_ := t |> <| voted_for_ := v |>.

Lemma load_meta_spec t v (s s' : nstate E) :
  meta_holds t v (meta_store_ (nd s)) → voted_for_ (nd s) = None ∨ voted_for_ (nd s) = v →
  (meta_store_ (nd s) = empty_store → current_term_ (nd s) = t ∧ voted_for_ (nd s) = v) →
  Node.load_meta s = (Ok tt, s') →
  vote_fields (nd s') = vote_fields (restored t v (nd s)) ∧ env s' = env s.
Proof.
  intros (Ht & Hv & Hst) Hvote Hempty. destruct Hst as [Hst|(Hst & -> & ->)].
  - rewrite (load_meta_stored t v) by done. intros [= <-]. done.
  - rewrite load_meta_empty by done. intros [= <-]. specialize (Hempty Hst) as [Hc Hn].
    split; [|done]. destruct s as [[] ?]; simpl in *. by subst.
Qed.

(** After [start] the node has the term and vote of its meta store. *)
Lemma start_spec t v (s s' : nstate E) :
  meta_holds t v (meta_store_ (nd s)) → voted_for_ (nd s) = None ∨ voted_for_ (nd s) = v →
  (meta_store_ (nd s) = empty_store → current_term_ (nd s) = t ∧ voted_for_ (nd s) = v) →
  Node.start s = (Ok tt, s') →
  ∃ s2, vote_fields (nd s2) = vote_fields (restored t v (nd s)) ∧ sent (env s2) = sent (env s) ∧
        mild s2 s'.
Proof.
  intros Hm Hv He. unfold Node.start. rewrite bind_upd, bind_rd. set (s0 := mkN _ _).
  intros (u & sa & Ha & (u' & sb & Hb & (u'' & sc & Hc & Hd)%bind_inv)%bind_inv)%bind_inv.
  assert (steady s sb) as [Hvf Hs].
  { transitivity s0; [done|]. transitivity sa.
    - pose proof (steady_set_handler (id_ (nd s0)) (HNode (id_ (nd s0))) s0) as K. by rewrite Ha in K.
    - pose proof (steady_load_snapshot sa) as K. by rewrite Hb in K. }
  destruct u''. exists sc. unfold vote_fields in Hvf. injection Hvf as Hid Hcur Hvt Het Hrole Hvr Hms.
  apply (load_meta_spec t v) in Hc as [Hc Hec]; [|congruence..|].
  - split_and!; [|congruence|].
    + rewrite Hc. unfold vote_fields, restored. destruct s as [[] ?], sb as [[] ?]; simpl in *.
      by subst.
    + assert (keeps mild (Node.load_log;; Node.apply_committed_entries;; Node.schedule_election_timeout
        : M (nstate E) unit)) as K by mild_auto. specialize (K sc). by rewrite Hd in K.
  - rewrite Hms, Hcur, Hvt. done.
Qed.

Lemma start_mild (s s' : nstate E) : meta_ok (nd s) → Node.start s = (Ok tt, s') → mild s s'.
Proof.
  intros Hm Hs. destruct (start_spec _ _ s s' Hm (or_intror eq_refl) (λ _, conj eq_refl eq_refl) Hs)
    as (s2 & Hf & He & K).
  transitivity s2; [|done]. left. apply calm_of_fields; [|done]. rewrite Hf. by destruct s as [[] ?].
Qed.

(** [restart] forgets the term and the vote in memory and finds them in the
    meta store again. *)
Lemma restart_mild (s s' : nstate E) : meta_ok (nd s) → Node.restart s = (Ok tt, s') → mild s s'.
Proof.
  intros Hm. unfold Node.restart. rewrite !bind_upd. intros Hs.
  apply (start_spec (current_term_ (nd s)) (voted_for_ (nd s))) in Hs as (s2 & Hf & He & K).
  - transitivity s2; [|done]. left. apply calm_of_fields; [|done]. rewrite Hf. by destruct s as [[] ?].
  - done.
  - by left.
  - intros Hst. change (meta_store_ (nd s) = empty_store) in Hst.
    destruct Hm as (_ & _ & [Hm|(_ & -> & ->)]); [|done]. rewrite Hst in Hm. done.
Qed.
End Calm.

#[export] Hint Resolve calm_persist calm_cancel_election calm_schedule_election calm_cancel_heartbeat
  calm_schedule_heartbeat calm_notify calm_invoke calm_invoke_read calm_cancel_reads calm_this calm_next_index_at
  calm_match_index_at calm_set_next_index calm_set_match_index calm_drain_reads calm_send_snapshot
  calm_prev_term calm_replicate_to calm_replicate_all calm_save_snapshot calm_take_snapshot
  calm_read_index calm_on_heartbeat calm_timeout_loop calm_crash : calm.
#[export] Hint Resolve mild_become_follower mild_apply_committed mild_maybe_advance
  mild_append_entries mild_append_entries_reply mild_install_snapshot mild_install_snapshot_reply
  mild_read_index_request mild_read_index_reply mild_submit mild_client_request : mild.
