(* ===== verification/NodeElection.v ===== *)
(** * Elections of a node refine the voting protocol

    Each operation of [RaftNode] that votes, stands for election or counts
    votes is a sequence of steps of the abstract protocol of [Election], taken
    by the node; every other operation is a step to a higher term, a step
    down, or nothing.  [simv v s s'] is that simulation for one run of an
    operation, together with what holds of the messages it sends. *)

From S2P Require Import Prelude Codec DurableStore Types Wal KvStore RaftLog Rpc Env Node.
From S2P Require Import Election NodeVotes.

(** ** Ranges of decoded terms *)

Ltac gives_rest :=
  repeat (apply gives_skip; [auto 10 with safe|intros]); apply gives_ret; simpl; auto.
Ltac gives_term :=
  apply gives_skip; [apply safe_u8|intros _];
  apply (gives_bind _ _ is_u64 _ safe_u64 gives_u64); intros; gives_rest.

Lemma gives_rv :
  gives Decode.RequestVote (λ m, is_u64 (rv_term m) ∧ is_u32 (rv_candidate_id m)).
Proof.
  apply gives_skip; [apply safe_u8|intros _].
  apply (gives_bind _ _ is_u64 _ safe_u64 gives_u64); intros.
  apply (gives_bind _ _ is_u32 _ safe_u32 gives_u32); intros. gives_rest.
Qed.
Lemma gives_rvr : gives Decode.RequestVoteReply (λ m, is_u64 (rvr_term m)).
Proof. gives_term. Qed.
Lemma gives_ae : gives Decode.AppendEntries (λ m, is_u64 (ae_term m)).
Proof. gives_term. Qed.
Lemma gives_aer : gives Decode.AppendEntriesReply (λ m, is_u64 (aer_term m)).
Proof. gives_term. Qed.
Lemma gives_is : gives Decode.InstallSnapshot (λ m, is_u64 (is_term m)).
Proof. gives_term. Qed.
Lemma gives_isr : gives Decode.InstallSnapshotReply (λ m, is_u64 (isr_term m)).
Proof. gives_term. Qed.
Lemma gives_rir : gives Decode.ReadIndexRequest (λ m, is_u64 (rir_term m)).
Proof. gives_term. Qed.
Lemma gives_rip : gives Decode.ReadIndexReply (λ m, is_u64 (rip_term m)).
Proof. gives_term. Qed.

(** ** The simulation *)

(** The member the protocol sees. *)
Definition absrole (n : RaftNode) : arole :=
  match role_ n with
  | Follower => AFollower
  | Candidate => ACandidate (votes_received_ n)
  | Leader => ALeader
  end.
Definition absn (n : RaftNode) : anode := mkA (current_term_ n) (voted_for_ n) (absrole n).

Section Sim.
Context {E : Type} `{EnvLaws E} (members : gset NodeId).
Implicit Types (s : nstate E) (v : voting).

(** A RequestVote asks for its sender, and a granted vote was cast for the
    receiver of the reply. *)
Record msg_ok (cast : gset (NodeId * Term * NodeId)) (m : Message) : Prop := {
  mo_bytes : bytes_ok (msg_payload m);
  mo_rv rv : head (msg_payload m) = Some mt_RequestVote →
    (Decode.RequestVote (msg_payload m)).1 = Ok rv →
    rv_candidate_id rv = msg_from m ∧ msg_from m ≠ msg_to m;
  mo_rvr rvr : head (msg_payload m) = Some mt_RequestVoteReply →
    (Decode.RequestVoteReply (msg_payload m)).1 = Ok rvr → rvr_vote_granted rvr = true →
    (msg_from m, rvr_term rvr, msg_to m) ∈ cast ∧ msg_from m ∈ members ∧ msg_from m ≠ msg_to m;
}.

(** What links a node to its member of the protocol. *)
Record ninv (i : NodeId) (v : voting) (n : RaftNode) : Prop := {
  ni_abs : av_node v !! i = Some (absn n);
  ni_id : id_ n = i;
  ni_meta : meta_ok n;
  ni_cand : role_ n = Candidate →
    election_term_ n = current_term_ n ∧ votes_received_ n ⊆ members ∖ {[i]};
  ni_cast : ∀ c, voted_for_ n = Some c → (i, current_term_ n, c) ∈ av_cast v;
}.

Definition simv (i : NodeId) (v : voting) (s s' : nstate E) : Prop :=
  ninv i v (nd s) →
  ∃ v' ms, vsteps members i v v' ∧ ninv i v' (nd s') ∧
           sent (env s') = sent (env s) ++ ms ∧ Forall (msg_ok (av_cast v')) ms.

Lemma msg_ok_mono cast cast' m : cast ⊆ cast' → msg_ok cast m → msg_ok cast' m.
Proof. intros Hc [H1 H2 H3]. split; [done..|]. intros rvr Ht Hd Hg. destruct (H3 rvr Ht Hd Hg). set_solver. Qed.

Lemma vsteps_frame i v v' :
  vsteps members i v v' →
  (∀ j, j ≠ i → av_node v' !! j = av_node v !! j) ∧
  av_cast v ⊆ av_cast v' ∧ av_elected v ⊆ av_elected v'.
Proof.
  induction 1 as [v|v1 v2 v3 Hs _ (I1 & I2 & I3)]; [done|].
  assert ((∀ j, j ≠ i → av_node v2 !! j = av_node v1 !! j) ∧
          av_cast v1 ⊆ av_cast v2 ∧ av_elected v1 ⊆ av_elected v2) as (J1 & J2 & J3).
  { destruct Hs; simpl; (split; [by intros; rewrite lookup_insert_ne|]);
      split; try done; apply union_subseteq_r. }
  split_and!; [|by etrans..]. intros j Hj. by rewrite I1, J1.
Qed.

Lemma simv_trans i v s1 s2 s3 :
  simv i v s1 s2 → (∀ v', av_cast v ⊆ av_cast v' → simv i v' s2 s3) → simv i v s1 s3.
Proof.
  intros S12 S23 N1. destruct (S12 N1) as (v2 & ms2 & V2 & N2 & E2 & M2).
  pose proof (vsteps_frame _ _ _ V2) as (_ & C2 & _).
  destruct (S23 v2 C2 N2) as (v3 & ms3 & V3 & N3 & E3 & M3).
  pose proof (vsteps_frame _ _ _ V3) as (_ & C3 & _).
  exists v3, (ms2 ++ ms3). split_and!; [by etrans|done|by rewrite E3, E2, app_assoc|].
  apply Forall_app. split; [|done]. eapply Forall_impl; [done|]. intros m. by apply msg_ok_mono.
Qed.

(** Steps of the protocol that leave the network alone. *)
Lemma simv_quiet i v v' s s' :
  sent (env s') = sent (env s) → vsteps members i v v' → ninv i v' (nd s') → simv i v s s'.
Proof. intros He Hv Hn _. exists v', []. by rewrite app_nil_r. Qed.

Lemma quiet_msg_ok i cast m : quiet_msg i m → msg_ok cast m.
Proof.
  intros (_ & Hp & Hb). destruct m as [f t p]; simpl in *.
  destruct p as [|b p]; split; simpl; try done.
  all: intros ? [= ->]; done.
Qed.

Lemma calm_sim i v s s' : calm s s' → simv i v s s'.
Proof.
  intros [Cid Cterm Cvote Crole Cmeta (ms & Cs & Cm)] [Nabs Nid Nmeta Ncand Ncast].
  assert (Forall (msg_ok (av_cast v)) ms) as Hms
    by (eapply Forall_impl; [exact Cm|]; intros m; apply quiet_msg_ok).
  destruct (decide (role_ (nd s') = Follower)) as [Hf|Hf].
  - destruct v as [m cast el]. simpl in *.
    exists (mkVoting (<[i := mkA (current_term_ (nd s)) (voted_for_ (nd s)) AFollower]> m) cast el), ms.
    split_and!; [by apply rtc_once, (VFollow _ _ _ _ _ (absn (nd s)))| |done..].
    split; simpl; [|congruence|auto|congruence|by rewrite Cterm, Cvote].
    rewrite lookup_insert_eq. unfold absn, absrole. by rewrite Hf, Cterm, Cvote.
  - destruct Crole as [?|[Hr Hc]]; [done|]. exists v, ms.
    split_and!; [by apply rtc_refl| |done..]. split; [|congruence|auto| |by rewrite Cterm, Cvote].
    + rewrite Nabs. unfold absn, absrole. rewrite Cterm, Cvote, Hr.
      destruct (role_ (nd s)) eqn:Hrole; try done. rewrite Hr in Hc. by destruct (Hc eq_refl) as [-> _].
    + intros Hcand. destruct (Hc Hcand) as [-> ->]. rewrite Cterm. apply Ncand. congruence.
Qed.

Lemma bump_sim i v s s' : bump s s' → simv i v s s'.
Proof.
  intros [Bid Bup Bvote Brole Bmeta (ms & Bs & Bm)] [Nabs Nid Nmeta Ncand Ncast].
  destruct v as [m cast el]. simpl in *.
  exists (mkVoting (<[i := mkA (current_term_ (nd s')) None AFollower]> m) cast el), ms.
  split_and!; [by apply rtc_once, (VBump _ _ _ _ _ (absn (nd s)))| |done|].
  - split; simpl; [|congruence|done|congruence|congruence].
    rewrite lookup_insert_eq. unfold absn, absrole. by rewrite Brole, Bvote.
  - eapply Forall_impl; [exact Bm|]. intros m'. apply quiet_msg_ok.
Qed.

Lemma mild_sim i v s s' : mild s s' → simv i v s s'.
Proof. intros [?|?]; [by apply calm_sim|by apply bump_sim]. Qed.


(** ** Sending election messages *)

Lemma send_sim i v s to p :
  (ninv i v (nd s) → msg_ok (av_cast v) (mkMessage i to p)) → simv i v s (Node.send to p s).2.
Proof.
  intros Hm N. pose proof (ni_id _ _ _ N) as Hid.
  unfold Node.send. rewrite bind_rd. unfold liftE.
  destruct (net_send_sent (id_ (nd s)) to p (env s)) as (e' & -> & He). simpl.
  exists v, [mkMessage i to p]. rewrite He, Hid. split_and!; [by apply rtc_refl|done..|].
  apply Forall_singleton. auto.
Qed.

Lemma rv_msg_ok cast i to rv :
  is_u64 (rv_term rv) → is_u32 i → rv_candidate_id rv = i → i ≠ to →
  msg_ok cast (mkMessage i to (Encode.RequestVote rv)).
Proof.
  intros Ht Hi Hc Hto. split; cbn [msg_payload msg_from msg_to]; [apply (encode_rpc_ok (RpcRequestVote rv))| |done].
  intros rv' _ Hd. split; [|done].
  unfold Decode.RequestVote, Encode.RequestVote in Hd.
  rewrite (bind_ok _ _ _ _ _ (reads_u8 mt_RequestVote ltac:(done) _)) in Hd.
  rewrite (bind_ok _ _ _ _ _ (reads_u64 _ Ht _)) in Hd.
  rewrite (bind_ok _ _ _ _ _ (reads_u32 (rv_candidate_id rv) ltac:(by rewrite Hc) _)) in Hd.
  revert Hd. unfold mbind, M_bind. destruct (Dec.u64 _) as [[] ?]; [|done].
  destruct (Dec.u64 _) as [[] ?]; [|done]. intros [= <-]. done.
Qed.

Lemma rvr_msg_ok cast i to t g :
  is_u64 t → (g = true → (i, t, to) ∈ cast ∧ i ∈ members ∧ i ≠ to) →
  msg_ok cast (mkMessage i to (Encode.RequestVoteReply (mkRequestVoteReply t g))).
Proof.
  intros Ht Hg. split; cbn [msg_payload msg_from msg_to]; [apply (encode_rpc_ok (RpcRequestVoteReply _))|done|].
  intros rvr _ Hd Hgr. pose proof (reads_RequestVoteReply (mkRequestVoteReply t g) Ht []) as Hr.
  rewrite app_nil_r in Hr. rewrite Hr in Hd. injection Hd as <-. auto.
Qed.

(** ** RequestVote *)

Lemma grant_sim i v s c :
  is_u32 c → (voted_for_ (nd s) = None ∨ voted_for_ (nd s) = Some c) →
  simv i v s (mkN (persisted ((nd s) <| voted_for_ := Some c |>)) (env s)).
Proof.
  intros Hc Hv N. pose proof N as [Nabs Nid Nmeta Ncand Ncast]. destruct v as [m cast el].
  revert N. apply (simv_quiet i _ (mkVoting (<[i := mkA (current_term_ (nd s)) (Some c) (absrole (nd s))]> m)
     ({[(i, current_term_ (nd s), c)]} ∪ cast) el)); [done| |].
  - by apply rtc_once, (VGrant _ _ _ _ _ (absn (nd s))).
  - split; simpl; [by rewrite lookup_insert_eq|done| |done|].
    + apply persisted_meta; [apply Nmeta|]. by intros c' [= <-].
    + intros c' [= <-]. set_solver.
Qed.

(** The node after the first test of [handle_request_vote]. *)
Lemma catch_up_spec t (s : nstate E) :
  is_u64 t →
  ∃ s1, (when (current_term_ (nd s) <? t) (Node.become_follower t None)) s = (Ok tt, s1) ∧
        mild s s1 ∧ t <= current_term_ (nd s1).
Proof.
  intros Ht. destruct (Z.ltb_spec (current_term_ (nd s)) t) as [Hlt|Hge]; cbn [when].
  - pose proof (mild_become_follower t None Ht s) as K.
    destruct (become_follower_spec t None s) as (s1 & E1 & C & _). rewrite E1 in *.
    exists s1. split_and!; [done..|]. destruct C as [_ Ct _ _ _ _]. rewrite Ct. simpl.
    unfold bump_term. destruct (Z.ltb_spec (current_term_ (nd s)) t); [simpl|]; lia.
  - exists s. split_and!; [done|reflexivity|lia].
Qed.

Lemma reset_timer_spec (s : nstate E) :
  ∃ s', (Node.cancel_election_timeout;; Node.schedule_election_timeout) s = (Ok tt, s') ∧ calm s s'.
Proof.
  assert (returns (Node.cancel_election_timeout;; Node.schedule_election_timeout : M (nstate E) unit)) as Hr.
  { apply returns_bind; [apply returns_cancel_election|intros; apply returns_schedule_election]. }
  assert (keeps calm (Node.cancel_election_timeout;; Node.schedule_election_timeout : M (nstate E) unit)) as Hk
    by calm_auto.
  destruct (returns_inv _ s Hr) as [[] He]. rewrite He. eauto.
Qed.

(** Recording a vote: in memory, on disk, and the election timer anew. *)
Lemma record_vote_spec c (s : nstate E) :
  ∃ s', (voted_for_ ::= Some c;; Node.persist;; Node.cancel_election_timeout;;
         Node.schedule_election_timeout) s = (Ok tt, s') ∧
        calm (mkN (persisted ((nd s) <| voted_for_ := Some c |>)) (env s)) s' ∧
        voted_for_ (nd s') = Some c.
Proof.
  rewrite bind_upd, (bind_ok _ _ _ _ _ (persist_eq _)). cbn [nd env].
  destruct (reset_timer_spec (mkN (persisted ((nd s) <| voted_for_ := Some c |>)) (env s)))
    as (s' & E' & C). exists s'. split_and!; [done..|]. by destruct C as [_ _ -> _ _ _].
Qed.

Lemma request_vote_sim i v s from rv :
  is_u64 (rv_term rv) → is_u32 from → rv_candidate_id rv = from → from ≠ i → i ∈ members →
  simv i v s (Node.handle_request_vote from rv s).2.
Proof.
  intros Ht Hc Hf Hne Hi. unfold Node.handle_request_vote. rewrite bind_rd.
  destruct (catch_up_spec (rv_term rv) s Ht) as (s1 & E1 & M1 & L1).
  rewrite (bind_ok _ _ _ _ _ E1). unfold Node.this. rewrite bind_rd. cbv zeta. rewrite Hf.
  eapply simv_trans; [by apply mild_sim|]. intros v1 _. clear E1 M1 v.
  destruct (_ && _ && _) eqn:Hg; cbn [when].
  - apply andb_true_iff in Hg as [[Hle Hcan]%andb_true_iff _].
    apply bool_decide_eq_true in Hcan. apply Z.leb_le in Hle.
    destruct (record_vote_spec from s1) as (s3 & E3 & C3 & V3). rewrite (bind_ok _ _ _ _ _ E3).
    eapply simv_trans; [by apply (grant_sim i v1 s1 from)|]. intros v2 _.
    eapply simv_trans; [by apply calm_sim|]. intros v3 _. rewrite bind_rd.
    apply send_sim. intros N. apply rvr_msg_ok; [apply (ni_meta _ _ _ N)|].
    intros _. split_and!; [by apply (ni_cast _ _ _ N)|done|done].
  - rewrite (bind_ok (mret tt) _ s1 s1 tt eq_refl), bind_rd.
    apply send_sim. intros N. apply rvr_msg_ok; [apply (ni_meta _ _ _ N)|done].
Qed.

(** ** Winning an election *)

Lemma quorum_majority i n votes :
  size_z (peers_ n) + 1 = Z.of_nat (size members) → i ∈ members → votes ⊆ members ∖ {[i]} →
  Node.quorum n <= Z.of_nat (size votes) + 1 → majority members ({[i]} ∪ votes).
Proof.
  intros Hp Hi Hv Hq. split; [set_solver|]. unfold Node.quorum in Hq.
  rewrite size_union, size_singleton by set_solver.
  pose proof (Z.div_mod (size_z (peers_ n) + 1) 2 ltac:(lia)).
  pose proof (Z.mod_pos_bound (size_z (peers_ n) + 1) 2 ltac:(lia)). lia.
Qed.

Lemma lead_sim i v s :
  role_ (nd s) = Candidate → majority members ({[i]} ∪ votes_received_ (nd s)) →
  simv i v s (mkN ((nd s) <| role_ := Leader |>) (env s)).
Proof.
  intros Hr Hm N. pose proof N as [Nabs Nid Nmeta Ncand Ncast]. destruct v as [m cast el].
  revert N. apply (simv_quiet i _ (mkVoting (<[i := mkA (current_term_ (nd s)) (voted_for_ (nd s)) ALeader]> m)
     cast ({[(current_term_ (nd s), i)]} ∪ el))); [done| |].
  - apply rtc_once, (VLead _ _ _ _ _ (absn (nd s)) (votes_received_ (nd s))); [done| |done].
    unfold absn, absrole. by rewrite Hr.
  - split; simpl; [by rewrite lookup_insert_eq|done..].
Qed.

Ltac settled_base := first [apply calm_settled; calm_base | apply settled_upd; intros; reflexivity].
Ltac settled_auto := repeat keeps_step settled_base.

Lemma become_leader_sim i v s :
  role_ (nd s) = Candidate → majority members ({[i]} ∪ votes_received_ (nd s)) →
  simv i v s (Node.become_leader s).2.
Proof.
  intros Hr Hm. unfold Node.become_leader. rewrite bind_rd, Hr. cbn [bool_decide].
  rewrite bool_decide_false by done. rewrite bind_upd.
  eapply simv_trans; [by apply lead_sim|]. intros v' _. apply calm_sim.
  match goal with |- calm _ (?m ?s').2 => enough (keeps settled m) as K by (by apply K) end.
  settled_auto.
Qed.

Lemma count_sim i v s from :
  role_ (nd s) = Candidate → from ∈ members → from ≠ i →
  (from, current_term_ (nd s), i) ∈ av_cast v →
  simv i v s (mkN ((nd s) <| votes_received_ := {[from]} ∪ votes_received_ (nd s) |>) (env s)).
Proof.
  intros Hr Hf Hne Hin N. pose proof N as [Nabs Nid Nmeta Ncand Ncast]. destruct v as [m cast el].
  destruct (Ncand Hr) as [Hterm Hsub]. revert N.
  apply (simv_quiet i _ (mkVoting (<[i := mkA (current_term_ (nd s)) (voted_for_ (nd s))
     (ACandidate ({[from]} ∪ votes_received_ (nd s)))]> m) cast el)); [done| |].
  - apply rtc_once, (VCount _ _ _ _ _ (absn (nd s))); try done. unfold absn, absrole. by rewrite Hr.
  - split; simpl; [|done|done| |done].
    + rewrite lookup_insert_eq. unfold absn, absrole. simpl. by rewrite Hr.
    + intros _. split; [done|set_solver].
Qed.

Lemma vote_count_le n :
  wrap32 (wrap32 (Z.of_nat n) + 1) <= Z.of_nat n + 1.
Proof.
  rewrite !wrap32_mod. etrans; [apply Z.mod_le; [|lia]|].
  - pose proof (Z.mod_pos_bound (Z.of_nat n) (2 ^ 32) ltac:(lia)). lia.
  - pose proof (Z.mod_le (Z.of_nat n) (2 ^ 32) ltac:(lia) ltac:(lia)). lia.
Qed.

Lemma vote_reply_sim i v s from rvr :
  size_z (peers_ (nd s)) + 1 = Z.of_nat (size members) → i ∈ members → is_u64 (rvr_term rvr) →
  (rvr_vote_granted rvr = true → (from, rvr_term rvr, i) ∈ av_cast v ∧ from ∈ members ∧ from ≠ i) →
  simv i v s (Node.handle_request_vote_reply from rvr s).2.
Proof.
  intros Hp Hi Ht Hg. unfold Node.handle_request_vote_reply, Node.this. rewrite bind_rd.
  destruct (bool_decide_reflect (role_ (nd s) = Candidate)) as [Hr|Hr]; cbn [negb];
    [|by apply calm_sim].
  destruct (Z.ltb_spec (current_term_ (nd s)) (rvr_term rvr)) as [Hlt|Hge].
  { by apply mild_sim, mild_become_follower. }
  destruct (_ || _) eqn:Hstale; [by apply calm_sim|].
  apply orb_false_iff in Hstale as [Hle%Z.ltb_ge _].
  destruct (rvr_vote_granted rvr) eqn:Hgr; cbn [when]; [|by apply calm_sim].
  assert (rvr_term rvr = current_term_ (nd s)) as Heq by lia.
  destruct (Hg eq_refl) as (Hcast & Hfrom & Hne). rewrite Heq in Hcast.
  rewrite bind_upd. eapply simv_trans; [by apply (count_sim i v s from)|]. intros v1 _.
  set (s1 := mkN _ _). rewrite bind_upd. set (s2 := mkN _ (env s1)). rewrite bind_rd, bind_rd.
  assert (calm s1 s2) as C by (by apply calm_of_fields).
  eapply simv_trans; [by apply calm_sim|]. intros v2 _ N.
  destruct (ni_cand _ _ _ N Hr) as [_ Hsub]. revert N.
  destruct (Z.leb_spec (Node.quorum (nd s2)) (vote_count_ (nd s2))) as [Hq|Hq]; cbn [when];
    [|by apply calm_sim].
  apply become_leader_sim; [done|]. apply (quorum_majority i (nd s2)); [done..|].
  etrans; [exact Hq|apply vote_count_le].
Qed.

(** ** Standing for election *)

(** A view [f] of the node is unchanged. *)
Definition same {A} (f : RaftNode → A) (s s' : nstate E) : Prop := f (nd s') = f (nd s).

#[global] Instance same_preorder {A} (f : RaftNode → A) : PreOrder (same f).
Proof. split; [by intros s|]. intros s1 s2 s3 H1 H2. unfold same in *. congruence. Qed.

Lemma same_env {A B} (f : RaftNode → A) (m : M E B) : keeps (same f) (liftE m).
Proof. intros s. unfold liftE. by destruct (m (env s)). Qed.
Lemma same_upd {A} (f : RaftNode → A) g : (∀ n, f (g n) = f n) → keeps (same f) (upd g).
Proof. intros Hg s. apply Hg. Qed.
Lemma same_rd {A B} (f : RaftNode → A) (g : RaftNode → B) : keeps (same f) (rd g).
Proof. by intros s. Qed.
Ltac same_base := first [apply same_env | apply same_rd | apply same_upd; intros; reflexivity].
Ltac same_auto := repeat keeps_step same_base.

(** What decides an immediate election. *)
Definition tally (n : RaftNode) := (role_ n, votes_received_ n, vote_count_ n, peers_ n).

Lemma same_notify : keeps (same tally) Node.notify_state_change.
Proof. unfold Node.notify_state_change. same_auto. Qed.
Lemma same_send to p : keeps (same tally) (Node.send to p).
Proof. unfold Node.send. same_auto. Qed.
Lemma same_timer :
  keeps (same tally) (Node.cancel_election_timeout;; Node.schedule_election_timeout : M (nstate E) unit).
Proof. unfold Node.cancel_election_timeout, Node.schedule_election_timeout. same_auto. Qed.

(** The node as [become_candidate] has written it to disk. *)
Definition standing (n : RaftNode) : RaftNode :=
  persisted
    (n <| current_term_ := wrap64 (current_term_ n + 1) |> <| role_ := Candidate |>
       <| voted_for_ := Some (id_ n) |> <| votes_received_ := ∅ |> <| vote_count_ := 1 |>
       <| election_term_ := wrap64 (current_term_ n + 1) |> <| leader_id_ := None |>).

Lemma stand_sim i v s :
  is_u32 i → current_term_ (nd s) < UINT64_MAX →
  simv i v s (mkN (standing (nd s)) (env s)).
Proof.
  intros Hi Hlt N. pose proof N as [Nabs Nid Nmeta Ncand Ncast]. destruct v as [m cast el].
  assert (wrap64 (current_term_ (nd s) + 1) = current_term_ (nd s) + 1) as Hw.
  { apply wrap64_id. destruct Nmeta as [[? _] _]. unfold is_u64, UINT64_MAX in *. lia. }
  revert N. apply (simv_quiet i _ (mkVoting (<[i := mkA (current_term_ (nd s) + 1) (Some i)
     (ACandidate ∅)]> m) ({[(i, current_term_ (nd s) + 1, i)]} ∪ cast) el)); [done| |].
  - by apply rtc_once, (VStand _ _ _ _ _ (absn (nd s))).
  - unfold standing. rewrite Nid, Hw. split; simpl; [by rewrite lookup_insert_eq|done| | |].
    + apply persisted_meta; simpl; [rewrite <-Hw; apply wrap64_range|]. by intros c [= <-].
    + intros _. split; [done|set_solver].
    + intros c [= <-]. set_solver.
Qed.

Lemma for_each_sim {A} i v (l : list A) body (s : nstate E) :
  (∀ a v' s', a ∈ l → simv i v' s' (body a s').2) → simv i v s (for_each l body s).2.
Proof.
  revert v s. induction l as [|a l IH]; intros v s Hb; cbn [for_each]; [by apply calm_sim|].
  unfold mbind, M_bind. pose proof (Hb a v s (list_elem_of_here _ _)) as Ha.
  destruct (body a s) as [[u|e] s1]; [|done]. eapply simv_trans; [done|]. intros v' _.
  apply IH. intros. apply Hb. by apply list_elem_of_further.
Qed.

Lemma bind_sim {A B} i v (m : M (nstate E) A) (k : A → M (nstate E) B) s :
  simv i v s (m s).2 →
  (∀ v' a, m s = (Ok a, (m s).2) → simv i v' (m s).2 (k a (m s).2).2) →
  simv i v s ((m ≫= k) s).2.
Proof.
  intros Hm Hk. unfold mbind, M_bind. destruct (m s) as [[a|e] s1]; [|done].
  eapply simv_trans; [done|]. intros v' _. by apply Hk.
Qed.

Lemma become_candidate_sim i v s :
  size_z (peers_ (nd s)) + 1 = Z.of_nat (size members) → i ∈ members → is_u32 i →
  (∀ p, p ∈ peers_ (nd s) → p ≠ i) → current_term_ (nd s) < UINT64_MAX →
  simv i v s (Node.become_candidate s).2.
Proof.
  intros Hp Hi Hu Hpeers Hlt. unfold Node.become_candidate. rewrite bind_rd.
  destruct (negb (running_ (nd s))); [by apply calm_sim|].
  do 2 rewrite bind_upd. rewrite bind_rd. do 3 rewrite bind_upd. rewrite bind_rd.
  do 2 rewrite bind_upd. rewrite (bind_ok _ _ _ _ _ (persist_eq _)). cbn [env].
  match goal with |- context [mkN (persisted ?n) (env s)] =>
    change (persisted n) with (standing (nd s)) end.
  eapply simv_trans; [by apply stand_sim|]. intros v1 _. clear v.
  assert (tally (standing (nd s)) = (Candidate, ∅, 1, peers_ (nd s))) as HT by done.
  set (s0 := mkN (standing (nd s)) (env s)).
  apply bind_sim; [apply calm_sim, calm_notify|]. intros v2 _ _.
  pose proof (same_notify s0) as T1. set (s1 := (Node.notify_state_change s0).2) in *.
  unfold Node.this. rewrite bind_rd. cbv zeta. intros N1.
  pose proof (ni_id _ _ _ N1) as Hid. pose proof (proj1 (ni_meta _ _ _ N1)) as Hterm. revert N1.
  unfold same in T1. change (tally (nd s0)) with (tally (standing (nd s))) in T1.
  rewrite HT in T1. injection T1 as R1 V1 C1 P1.
  apply bind_sim.
  { apply for_each_sim. intros p v' s' Hin. rewrite P1 in Hin. apply send_sim. intros _.
    apply rv_msg_ok; simpl; [done..|]. apply not_eq_sym. auto. }
  intros v3 _ _. assert (keeps (same tally) (for_each (peers_ (nd s1)) (λ peer, Node.send peer
    (Encode.RequestVote (mkRequestVote (current_term_ (nd s1)) (id_ (nd s1))
      (Log.last_index (log_ (nd s1))) (Log.last_term (log_ (nd s1)))))))) as K2.
  { apply keeps_for_each; [apply _|]. intros p. apply same_send. }
  specialize (K2 s1). set (s2 := (for_each _ _ s1).2) in *.
  destruct (reset_timer_spec s2) as (s3 & E3 & C3). pose proof (same_timer s2) as K3.
  rewrite E3 in K3. unfold same, tally in K2, K3. simpl in K3.
  assert (∀ k : unit → M (nstate E) unit,
    (Node.cancel_election_timeout;; Node.schedule_election_timeout ≫= k) s2 = k tt s3) as Hbind.
  { intros k. revert E3. unfold mbind, M_bind. destruct (Node.cancel_election_timeout s2) as [[] ?]; [|done].
    by intros ->. }
  rewrite Hbind. eapply simv_trans; [by apply calm_sim|]. intros v4 _. rewrite bind_rd, bind_rd.
  rewrite K2, R1, V1, C1, P1 in K3. injection K3 as R3 V3 C3' P3.
  destruct (Z.leb_spec (Node.quorum (nd s3)) (vote_count_ (nd s3))) as [Hq|Hq]; cbn [when];
    [|by apply calm_sim].
  apply become_leader_sim; [done|]. rewrite V3.
  apply (quorum_majority i (nd s3)); [by rewrite P3|done|set_solver|].
  rewrite size_empty. rewrite C3' in Hq. lia.
Qed.

(** ** Every entry point *)

(** The membership a node was configured with. *)
Definition configured (i : NodeId) (n : RaftNode) : Prop :=
  i ∈ members ∧ is_u32 i ∧ size_z (peers_ n) + 1 = Z.of_nat (size members) ∧
  ∀ p, p ∈ peers_ n → p ≠ i.

Lemma decoder_sim {A} i v (s : nstate E) (d : M bytes A) p (k : A → M (nstate E) unit) :
  (∀ a, (d p).1 = Ok a → simv i v s (k a s).2) → simv i v s ((run_decoder d p ≫= k) s).2.
Proof.
  intros Hk. unfold mbind, M_bind, run_decoder. destruct (d p).1 as [a|e]; [by apply Hk|by apply calm_sim].
Qed.

Lemma decoded {A} (d : M bytes A) (P : A → Prop) p a :
  gives d P → bytes_ok p → (d p).1 = Ok a → P a.
Proof. intros Hd Hp Ha. destruct (d p) as [r p'] eqn:Heq. simpl in Ha. subst r. by eapply Hd. Qed.

Lemma dispatch_sim i v (s : nstate E) m type rest :
  configured i (nd s) → msg_ok (av_cast v) m → msg_to m = i → msg_payload m = type :: rest →
  simv i v s (Node.dispatch (msg_from m) type (msg_payload m) s).2.
Proof.
  intros (Hi & Hu & Hp & Hpeers) [Hb Hrv Hrvr] Hto Hpl. unfold Node.dispatch.
  assert (head (msg_payload m) = Some type) as Hhead by (by rewrite Hpl).
  repeat match goal with |- context [if type =? ?t then _ else _] =>
    destruct (Z.eqb_spec type t) as [->|_] end.
  all: try (apply decoder_sim; intros a Ha).
  all: try (by apply calm_sim).
  1: { destruct (decoded _ _ _ _ gives_rv Hb Ha) as [Ht Hc].
       destruct (Hrv a Hhead Ha) as [Hcand Hne]. rewrite Hto in Hne.
       apply request_vote_sim; congruence || done. }
  1: { apply vote_reply_sim; [done..|apply (decoded _ _ _ _ gives_rvr Hb Ha)|].
       intros Hg. rewrite <-Hto. by apply Hrvr. }
  all: apply mild_sim.
  - by apply mild_append_entries, (decoded _ _ _ _ gives_ae Hb).
  - by apply mild_append_entries_reply, (decoded _ _ _ _ gives_aer Hb).
  - apply mild_client_request.
  - by apply mild_install_snapshot, (decoded _ _ _ _ gives_is Hb).
  - by apply mild_install_snapshot_reply, (decoded _ _ _ _ gives_isr Hb).
  - by apply mild_read_index_request, (decoded _ _ _ _ gives_rir Hb).
  - by apply mild_read_index_reply, (decoded _ _ _ _ gives_rip Hb).
Qed.

Lemma try_catch_state {S A} (m : M S A) (h : exn → A) (s : S) :
  (try_catch m (λ e, mret (h e)) s).2 = (m s).2.
Proof. unfold try_catch. destruct (m s) as [[a|e] s']; [done|]. by destruct (catchable e). Qed.

Lemma on_message_sim i v (s : nstate E) m :
  configured i (nd s) → msg_ok (av_cast v) m → msg_to m = i →
  simv i v s (Node.on_message m s).2.
Proof.
  intros Hcfg Hm Hto. unfold Node.on_message. rewrite bind_rd.
  destruct (negb (running_ (nd s))); [by apply calm_sim|].
  destruct (msg_payload m) as [|type rest] eqn:Hpl; [by apply calm_sim|].
  rewrite (try_catch_state _ (λ _, tt)), <-Hpl. by eapply dispatch_sim.
Qed.

Lemma on_timer_sim i v (s : nstate E) t :
  configured i (nd s) → current_term_ (nd s) < UINT64_MAX → simv i v s (Node.on_timer t s).2.
Proof.
  intros (Hi & Hu & Hp & Hpeers) Hlt. destruct t as [j gen|j|j round]; unfold Node.on_timer.
  - unfold Node.this. rewrite bind_rd. destruct (negb (_ =? _)); [by apply calm_sim|].
    rewrite bind_upd. set (s1 := mkN _ _). assert (calm s s1) as C by (by apply calm_of_fields).
    eapply simv_trans; [by apply calm_sim|]. intros v1 _.
    destruct (negb _); [by apply calm_sim|]. unfold Node.on_election_timeout. rewrite bind_rd.
    destruct (bool_decide _); [by apply calm_sim|]. by apply become_candidate_sim.
  - apply calm_sim. match goal with |- calm _ (?m _).2 => enough (keeps calm m) as K by apply K end.
    calm_auto.
  - rewrite bind_rd. apply calm_sim, calm_timeout_loop.
Qed.

End Sim.
