(* ===== verification/Cluster.v ===== *)
(** * A cluster of nodes over an unreliable network

    The nodes of [src/raft/node.cpp] run together.  The network keeps every
    message ever sent: a delivery picks any of them, so messages may be lost,
    duplicated, delayed and reordered, under partitions or not.  A timer may
    fire at any time with any generation.  Nodes crash and restart.  Anyone may
    put a message on the network that is neither a RequestVote nor a
    RequestVoteReply.  Each operation runs to completion on one node, as
    under the simulator's event loop and the server's dispatch thread. *)

From S2P Require Import Prelude Codec DurableStore Types Wal KvStore RaftLog Rpc Env Node.
From S2P Require Import Election NodeVotes NodeElection.

Record cluster := mkCluster {
  cl_nodes : gmap NodeId RaftNode;
  cl_net : list Message;
}.

(** What happens at a node. *)
Inductive event :=
| Deliver (m : Message)
| Fire (t : timer)
| Submit (client_id request_id : Z) (cmd : Command) (token : Z)
| Read (key : string) (token : Z)
| Crash
| Restart
| Start.

Definition node_event (ev : event) : M (nstate trace_env) unit :=
  match ev with
  | Deliver m => Node.on_message m
  | Fire t => Node.on_timer t
  | Submit client_id request_id cmd token =>
      Node.submit client_id request_id cmd (CbToken token);; mret tt
  | Read key token => Node.read_index key token;; mret tt
  | Crash => Node.crash
  | Restart => Node.restart
  | Start => Node.start
  end.

(** A message is delivered to its addressee. *)
Definition deliverable (c : cluster) (i : NodeId) (ev : event) : bool :=
  match ev with
  | Deliver m => bool_decide (m ∈ cl_net c) && (msg_to m =? i)
  | _ => true
  end.

Inductive action :=
| At (i : NodeId) (ev : event) (ids : EventId) (random : list Z)
| Inject (m : Message).

Definition is_byte_list (p : bytes) : bool := forallb (λ b, (0 <=? b) && (b <? 256)) p.

(** One action.  There is no successor when the operation ends the process
    with an uncaught exception, when it applies a membership change, or when
    the node's term has reached [UINT64_MAX]. *)
Definition act (a : action) (c : cluster) : option cluster :=
  match a with
  | Inject m =>
      if is_byte_list (msg_payload m) && negb (election_payload (msg_payload m))
      then Some (mkCluster (cl_nodes c) (cl_net c ++ [m])) else None
  | At i ev ids random =>
      n ← cl_nodes c !! i;
      if negb (deliverable c i ev && (current_term_ n <? UINT64_MAX)) then None
      else
        match node_event ev (mkN n (mkTrace [] ids random)) with
        | (Ok _, s) =>
            if bool_decide (peers_ (nd s) = peers_ n)
            then Some (mkCluster (<[i := nd s]> (cl_nodes c))
                         (cl_net c ++ sent_messages (tr_effects (env s))))
            else None
        | (Throw _, _) => None
        end
  end.

Fixpoint run_cluster (l : list action) (c : cluster) : option cluster :=
  match l with
  | [] => Some c
  | a :: l' => c' ← act a c; run_cluster l' c'
  end.

(** A fresh cluster: every node has all the others as its peers. *)
Definition init_cluster (ids : list NodeId) (cfg : RaftConfig) : cluster :=
  mkCluster
    (list_to_map ((λ i, (i, make_node i (filter (λ p, p ≠ i) ids) cfg)) <$> ids)) [].

Definition leads (c : cluster) (i : NodeId) (t : Term) : Prop :=
  ∃ n, cl_nodes c !! i = Some n ∧ role_ n = Leader ∧ current_term_ n = t.

(** ** The cluster refines the voting protocol *)

Section Refine.
Context (members : gset NodeId).

Record cinv (c : cluster) (v : voting) : Prop := {
  ci_voting : voting_inv members v;
  ci_node : ∀ i n, cl_nodes c !! i = Some n → ninv members i v n ∧ configured members i n;
  ci_net : Forall (msg_ok members (av_cast v)) (cl_net c);
}.

Lemma is_byte_list_ok p : is_byte_list p = true → bytes_ok p.
Proof.
  unfold is_byte_list. rewrite forallb_forall. intros Hp. apply Forall_forall. intros b Hb.
  apply list_elem_of_In in Hb. specialize (Hp b Hb).
  apply andb_true_iff in Hp as [?%Z.leb_le ?%Z.ltb_lt]. unfold is_u8. lia.
Qed.

(** Every event a node handles is a run of the protocol. *)
Lemma mild_submit_event c r cmd t : keeps mild (node_event (Submit c r cmd t)).
Proof. apply (keeps_bind mild); [apply mild_submit|intros; apply (keeps_ret mild)]. Qed.
Lemma calm_read_event k t : keeps calm (node_event (Read k t)).
Proof. apply (keeps_bind calm); [apply calm_read_index|intros; apply (keeps_ret calm)]. Qed.
Lemma calm_crash_event : keeps calm (node_event Crash).
Proof. apply calm_crash. Qed.
Lemma deliver_event m : node_event (Deliver m) = Node.on_message m.
Proof. done. Qed.
Lemma fire_event t : node_event (Fire t) = Node.on_timer t.
Proof. done. Qed.
Lemma restart_event : node_event Restart = Node.restart.
Proof. done. Qed.
Lemma start_event : node_event Start = Node.start.
Proof. done. Qed.

Lemma keeps_at {S A} (R : S → S → Prop) (m : M S A) s r s' : keeps R m → m s = (r, s') → R s s'.
Proof. intros Hm Hs. specialize (Hm s). by rewrite Hs in Hm. Qed.

Lemma node_event_sim i v ev s s' :
  ninv members i v (nd s) → configured members i (nd s) → current_term_ (nd s) < UINT64_MAX →
  (∀ m, ev = Deliver m → msg_ok members (av_cast v) m ∧ msg_to m = i) →
  node_event ev s = (Ok tt, s') → simv members i v s s'.
Proof.
  intros N C Hlt Hm Hrun. pose proof (ni_meta _ _ _ _ N) as Hmeta.
  destruct ev as [m|t|cid rid cmd tok|key tok| | |].
  - rewrite deliver_event in Hrun. destruct (Hm m eq_refl) as [Hok Hto].
    pose proof (on_message_sim members i v s m C Hok Hto) as K. by rewrite Hrun in K.
  - rewrite fire_event in Hrun.
    pose proof (on_timer_sim members i v s t C Hlt) as K. by rewrite Hrun in K.
  - eapply mild_sim, keeps_at; [apply mild_submit_event|exact Hrun].
  - eapply calm_sim, keeps_at; [apply calm_read_event|exact Hrun].
  - eapply calm_sim, keeps_at; [apply calm_crash_event|exact Hrun].
  - rewrite restart_event in Hrun. by apply mild_sim, restart_mild.
  - rewrite start_event in Hrun. by apply mild_sim, start_mild.
Qed.

Lemma ninv_other i j v v' n :
  vsteps members i v v' → j ≠ i → ninv members j v n → ninv members j v' n.
Proof.
  intros V Hj [? ? ? ? ?]. destruct (vsteps_frame members _ _ _ V) as (Hn & Hc & _).
  split; auto. by rewrite Hn.
Qed.

Lemma act_sim a c c' v :
  cinv c v → act a c = Some c' →
  ∃ v', cinv c' v' ∧ ∃ i, vsteps members i v v'.
Proof.
  intros [Hv Hn Hnet]. destruct a as [i ev ids rnd|m]; simpl.
  - intros (n & Hi & Hact)%bind_Some. destruct (Hn i n Hi) as [N C].
    destruct (deliverable c i ev && (current_term_ n <? UINT64_MAX)) eqn:Hd; [|done].
    apply andb_true_iff in Hd as [Hd Hlt%Z.ltb_lt]. simpl in Hact.
    destruct (node_event ev _) as [[[]|e] s] eqn:Hrun; [|done].
    case_bool_decide as Hp; [|done]. injection Hact as <-.
    destruct (node_event_sim i v ev (mkN n (mkTrace [] ids rnd)) s N C Hlt) with (2 := Hrun) as (v' & ms & V & N' & Es & Ms).
    { intros m ->. simpl in Hd. apply andb_true_iff in Hd as [Hin%bool_decide_eq_true Hto%Z.eqb_eq].
      split; [|done]. rewrite Forall_forall in Hnet. auto. }
    { done. }
    exists v'. split; [|by exists i]. destruct (vsteps_frame members _ _ _ V) as (_ & Hc & _).
    split; simpl.
    + by eapply vsteps_inv.
    + intros j n'. destruct (decide (j = i)) as [->|Hj].
      * rewrite lookup_insert_eq. intros [= <-]. split; [done|].
        unfold configured in *. by rewrite Hp.
      * rewrite lookup_insert_ne by done. intros Hj'. destruct (Hn j n' Hj').
        split; [by eapply ninv_other|done].
    + apply Forall_app. split.
      * eapply Forall_impl; [done|]. intros m. by apply msg_ok_mono.
      * simpl in Es. by rewrite Es.
  - destruct (is_byte_list _ && _) eqn:Hok; [|done]. intros [= <-].
    apply andb_true_iff in Hok as [Hb%is_byte_list_ok Hq%negb_true_iff].
    exists v. split; [|exists 0; apply rtc_refl]. split; simpl; [done..|].
    apply Forall_app. split; [done|]. apply Forall_singleton.
    by apply (quiet_msg_ok members (msg_from m)).
Qed.

(** What only grows along a run of the protocol. *)
Definition grows (v v' : voting) : Prop :=
  av_cast v ⊆ av_cast v' ∧ av_elected v ⊆ av_elected v' ∧
  ∀ j a, av_node v !! j = Some a → ∃ a', av_node v' !! j = Some a' ∧ a_term a <= a_term a'.

#[global] Instance grows_preorder : PreOrder grows.
Proof.
  split.
  - intros v. split_and!; [done..|]. intros j a Ha. by exists a.
  - intros v1 v2 v3 (A1 & B1 & C1) (A2 & B2 & C2). split_and!; [by etrans..|].
    intros j a Ha. destruct (C1 j a Ha) as (a2 & Ha2 & ?), (C2 j a2 Ha2) as (a3 & ? & ?).
    exists a3. split; [done|lia].
Qed.

Lemma vsteps_grow i v v' : vsteps members i v v' → grows v v'.
Proof.
  induction 1 as [v|v1 v2 v3 Hs _ IH]; [done|]. etrans; [|done].
  destruct (vsteps_frame members i v1 v2 (rtc_once _ _ Hs)) as (Ho & Hc & He).
  split_and!; [done..|]. intros j a Ha. destruct (decide (j = i)) as [->|Hj].
  - destruct Hs; simpl in *; rewrite lookup_insert_eq; eexists; (split; [done|]);
      simplify_eq; simpl; lia.
  - exists a. split; [by rewrite Ho|done].
Qed.

Lemma run_sim l c c' v :
  cinv c v → run_cluster l c = Some c' → ∃ v', cinv c' v' ∧ grows v v'.
Proof.
  revert c v. induction l as [|a l IH]; intros c v Hc; simpl.
  - intros [= <-]. by exists v.
  - intros (c1 & Ha & Hl)%bind_Some. destruct (act_sim a c c1 v Hc Ha) as (v1 & Hc1 & i & V).
    destruct (IH c1 v1 Hc1 Hl) as (v' & Hc' & G). exists v'. split; [done|].
    etrans; [by eapply vsteps_grow|done].
Qed.

Lemma leads_elected c v i t : cinv c v → leads c i t → (t, i) ∈ av_elected v.
Proof.
  intros [Hv Hn _] (n & Hi & Hr & <-). destruct (Hn i n Hi) as [N _].
  destruct (vi_member _ _ Hv i _ (ni_abs _ _ _ _ N)) as [_ Hrole].
  unfold absn, absrole in Hrole. by rewrite Hr in Hrole.
Qed.
End Refine.

(** ** The initial cluster *)

Lemma init_lookup ids cfg i n :
  cl_nodes (init_cluster ids cfg) !! i = Some n →
  i ∈ ids ∧ n = make_node i (filter (λ p, p ≠ i) ids) cfg.
Proof.
  intros Hi%elem_of_list_to_map_2. apply list_elem_of_fmap in Hi as (j & [= -> ->] & Hj). done.
Qed.

Lemma filter_ne_absent (l : list NodeId) i : i ∉ l → filter (λ p, p ≠ i) l = l.
Proof.
  induction l as [|x l IH]; [done|]. intros [Hx Hl]%not_elem_of_cons.
  rewrite filter_cons, decide_True by congruence. f_equal. auto.
Qed.

Lemma length_filter_ne (ids : list NodeId) i :
  NoDup ids → i ∈ ids → S (length (filter (λ p, p ≠ i) ids)) = length ids.
Proof.
  induction 1 as [|x l Hx Hl IH]; [by intros ?%elem_of_nil|].
  intros [->|Hi]%elem_of_cons; rewrite filter_cons.
  - rewrite decide_False by auto. simpl. f_equal.
    by rewrite filter_ne_absent.
  - rewrite decide_True by congruence. simpl. f_equal. auto.
Qed.

Lemma init_cinv ids cfg :
  NoDup ids → Forall is_u32 ids →
  cinv (list_to_set ids) (init_cluster ids cfg)
    (mkVoting (absn <$> cl_nodes (init_cluster ids cfg)) ∅ ∅).
Proof.
  intros Hnd Hu. split.
  - apply voting_inv_init. intros i a. rewrite lookup_fmap. intros Ha.
    apply fmap_Some in Ha as (n & Hn & ->). by apply init_lookup in Hn as [_ ->].
  - intros i n Hn. pose proof (init_lookup _ _ _ _ Hn) as [Hi ->]. split.
    + split; [by cbn [av_node]; rewrite lookup_fmap, Hn|done| |done|done]. split_and!; [done|done|by right].
    + split_and!; [by apply elem_of_list_to_set|by rewrite Forall_forall in Hu; apply Hu| |].
      * unfold make_node, size_z. cbn [peers_]. rewrite merge_sort_Permutation, size_list_to_set by done.
        pose proof (length_filter_ne ids i Hnd Hi). lia.
      * intros p. unfold make_node. cbn [peers_]. rewrite merge_sort_Permutation, list_elem_of_filter.
        naive_solver.
  - constructor.
Qed.

(** ** Properties *)

(** C1: election safety.  In a cluster whose membership does not change, no
    two nodes ever lead in the same term: if node [a] leads in term [t] at
    some point of an execution and node [b] leads in term [t] at that point or
    any later one, then [a = b].  Messages may be lost, duplicated and
    reordered, nodes may crash and restart at any time. *)
Theorem election_safety (ids : list NodeId) (cfg : RaftConfig) (tr1 tr2 : list action)
    (c1 c2 : cluster) (a b : NodeId) (t : Term)
    (Hids : NoDup ids) (Hu32 : Forall is_u32 ids)
    (Hrun1 : run_cluster tr1 (init_cluster ids cfg) = Some c1)
    (Hrun2 : run_cluster tr2 c1 = Some c2)
    (Ha : leads c1 a t) (Hb : leads c2 b t) :
  a = b.
Proof.
  destruct (run_sim _ _ _ _ _ (init_cinv ids cfg Hids Hu32) Hrun1) as (v1 & I1 & _).
  destruct (run_sim _ _ _ _ _ I1 Hrun2) as (v2 & I2 & _ & Hel & _).
  apply (election_unique (list_to_set ids) v2 t); [apply I2| |].
  - apply Hel. by apply (leads_elected _ _ _ _ _ I1).
  - by apply (leads_elected _ _ _ _ _ I2).
Qed.

(** C2: terms and votes survive crashes.  Along every execution with fixed
    membership, in which no exception ends a process, a node's
    [current_term_] never decreases, and a vote it has given in a term is the
    only one it ever gives in that term, across [crash] and [restart]
    included: the vote is on disk before it is sent. *)
Theorem term_and_vote_durable (ids : list NodeId) (cfg : RaftConfig) (tr1 tr2 : list action)
    (c1 c2 : cluster) (i : NodeId) (n1 n2 : RaftNode)
    (Hids : NoDup ids) (Hu32 : Forall is_u32 ids)
    (Hrun1 : run_cluster tr1 (init_cluster ids cfg) = Some c1)
    (Hrun2 : run_cluster tr2 c1 = Some c2)
    (H1 : cl_nodes c1 !! i = Some n1) (H2 : cl_nodes c2 !! i = Some n2) :
  current_term_ n1 <= current_term_ n2 ∧
  (current_term_ n2 = current_term_ n1 →
   ∀ c, voted_for_ n1 = Some c → voted_for_ n2 = Some c).
Proof.
  destruct (run_sim _ _ _ _ _ (init_cinv ids cfg Hids Hu32) Hrun1) as (v1 & I1 & _).
  destruct (run_sim _ _ _ _ _ I1 Hrun2) as (v2 & I2 & Hc & _ & Hgrow).
  destruct (ci_node _ _ _ I1 i n1 H1) as [N1 _], (ci_node _ _ _ I2 i n2 H2) as [N2 _].
  destruct (Hgrow i _ (ni_abs _ _ _ _ N1)) as (a2 & Ha2 & Hle).
  rewrite (ni_abs _ _ _ _ N2) in Ha2. injection Ha2 as <-. split; [done|].
  intros Heq c Hv. pose proof (Hc _ (ni_cast _ _ _ _ N1 c Hv)) as Hin.
  destruct (vi_member _ _ (ci_voting _ _ _ I2) i _ (ni_abs _ _ _ _ N2)) as [Hcast _].
  by apply (Hcast (current_term_ n1) c Hin).
Qed.

(** A run of three nodes in which node 1 is elected in term 1, node 2 crashes
    and restarts, and node 1 sends a heartbeat. *)
Definition demo_election : list action :=
  let rv := mkMessage 1 2 (Encode.RequestVote (mkRequestVote 1 1 0 0)) in
  let rvr := mkMessage 2 1 (Encode.RequestVoteReply (mkRequestVoteReply 1 true)) in
  [ At 1 Start 0 [151000]; At 2 Start 0 [200000]; At 3 Start 0 [250000];
    At 1 (Fire (TElection 1 1)) 1 [160000]; At 2 (Deliver rv) 1 [210000];
    At 1 (Deliver rvr) 2 [] ].
Definition demo_crash : list action :=
  [ At 2 Crash 2 []; At 2 Restart 3 [220000]; At 1 (Fire (THeartbeat 1)) 3 [] ].

Lemma demo_nodup : NoDup [1; 2; 3].
Proof. apply (bool_decide_unpack _). vm_compute. done. Qed.
Lemma demo_u32 : Forall is_u32 [1; 2; 3].
Proof. repeat (apply Forall_cons_2; [done|]). by apply Forall_nil_2. Qed.

Lemma election_safety_witness :
  ∃ c1 c2, run_cluster demo_election (init_cluster [1; 2; 3] default_config) = Some c1 ∧
           run_cluster demo_crash c1 = Some c2 ∧ leads c1 1 1 ∧ leads c2 1 1 ∧ (1 = 1 :> NodeId).
Proof.
  assert (∃ c1 c2, run_cluster demo_election (init_cluster [1; 2; 3] default_config) = Some c1 ∧
           run_cluster demo_crash c1 = Some c2 ∧ leads c1 1 1 ∧ leads c2 1 1)
    as (c1 & c2 & H1 & H2 & H3 & H4).
  { eexists _, _. split_and!; [vm_compute; reflexivity|vm_compute; reflexivity| |];
      (eexists; split_and!; [vm_compute; reflexivity|reflexivity|reflexivity]). }
  assert (Hs := election_safety [1; 2; 3] default_config demo_election demo_crash c1 c2 1 1 1
    demo_nodup demo_u32 H1 H2 H3 H4).
  exists c1, c2. split_and!; [exact H1|exact H2|exact H3|exact H4|exact Hs].
Defined.

Lemma term_and_vote_durable_witness :
  ∃ c1 c2 n1 n2, run_cluster demo_election (init_cluster [1; 2; 3] default_config) = Some c1 ∧
    run_cluster demo_crash c1 = Some c2 ∧ cl_nodes c1 !! 2 = Some n1 ∧ cl_nodes c2 !! 2 = Some n2 ∧
    voted_for_ n1 = Some 1 ∧ current_term_ n1 <= current_term_ n2 ∧ voted_for_ n2 = Some 1.
Proof.
  assert (∃ c1 c2 n1 n2,
    run_cluster demo_election (init_cluster [1; 2; 3] default_config) = Some c1 ∧
    run_cluster demo_crash c1 = Some c2 ∧ cl_nodes c1 !! 2 = Some n1 ∧ cl_nodes c2 !! 2 = Some n2 ∧
    voted_for_ n1 = Some 1 ∧ current_term_ n2 = current_term_ n1)
    as (c1 & c2 & n1 & n2 & H1 & H2 & H3 & H4 & H5 & H6).
  { eexists _, _, _, _. split_and!; [vm_compute; reflexivity..| |]; reflexivity. }
  exists c1, c2, n1, n2.
  destruct (term_and_vote_durable [1; 2; 3] default_config demo_election demo_crash c1 c2 2 n1 n2)
    as [K1 K2]; [exact demo_nodup|exact demo_u32|done..|].
  split_and!; auto.
Defined.
