(* ===== verification/LogTree.v ===== *)
(** * The tree of log entries

    Every entry a leader ever created, keyed by term and index, with its
    command and the term of the entry before it.  A log whose entries all lie
    in one such tree, each after the one the tree says, is a path of the tree:
    two logs that agree on the term at an index agree on everything before it
    ([chained_match]).  The notions are about [RaftLog] and the [entries] of
    an AppendEntries; the operations that keep them are in [NodeLog]. *)

From S2P Require Import Prelude Codec DurableStore Types Wal RaftLog.

Abbreviation tree := (gmap (Term * Index) (Term * Command)).

(** Every entry of the log is in the tree, after the one before it in the log. *)
Definition chained (g : tree) (l : RaftLog) : Prop :=
  ∀ i e, entry_at l i = Some e →
    ∃ pt, known_term l (i - 1) = Some pt ∧ g !! (e_term e, i) = Some (pt, e_cmd e).

(** Consecutive entries [es] from index [pi + 1] on, after one of term [pt]. *)
Fixpoint segment (g : tree) (pt : Term) (pi : Index) (es : list LogEntry) : Prop :=
  match es with
  | [] => True
  | e :: es' =>
      e_index e = pi + 1 ∧ g !! (e_term e, pi + 1) = Some (pt, e_cmd e) ∧
      segment g (e_term e) (pi + 1) es'
  end.

Lemma chained_mono g g' l : g ⊆ g' → chained g l → chained g' l.
Proof.
  intros Hg Hc i e He. destruct (Hc i e He) as (pt & Hpt & Hl). exists pt.
  split; [done|]. by eapply lookup_weaken.
Qed.

Lemma segment_mono g g' pt pi es : g ⊆ g' → segment g pt pi es → segment g' pt pi es.
Proof.
  intros Hg. revert pt pi. induction es as [|e es IH]; intros pt pi; [done|].
  intros (Hi & He & Hs). split_and!; [done|by eapply lookup_weaken|auto].
Qed.

Lemma known_term_entry l i : base_index_ l < i → known_term l i = e_term <$> entry_at l i.
Proof. intros Hi. unfold known_term. by rewrite decide_False by lia. Qed.

Lemma known_term_base l : known_term l (base_index_ l) = Some (base_term_ l).
Proof. unfold known_term. by rewrite decide_True. Qed.

Lemma known_term_Some l i t :
  log_wf l → known_term l i = Some t → base_index_ l <= i <= Log.last_index l.
Proof.
  intros Hwf. pose proof (last_index_wf l Hwf). pose proof (size_z_nonneg (entries_ l)).
  unfold known_term. case_decide; [lia|]. intros (e & He & _)%fmap_Some.
  apply entry_at_Some in He; [lia|done].
Qed.

(** Entries of the same term and index are the same entry, and the entries
    before them have the same term. *)
Lemma chained_agree g l1 l2 k e1 e2 :
  log_wf l1 → log_wf l2 → chained g l1 → chained g l2 →
  entry_at l1 k = Some e1 → entry_at l2 k = Some e2 → e_term e1 = e_term e2 →
  e1 = e2 ∧ known_term l1 (k - 1) = known_term l2 (k - 1).
Proof.
  intros W1 W2 C1 C2 E1 E2 Ht. destruct (C1 k e1 E1) as (p1 & K1 & G1), (C2 k e2 E2) as (p2 & K2 & G2).
  rewrite Ht in G1. rewrite G1 in G2. injection G2 as -> Hcmd.
  apply entry_at_Some in E1 as [_ I1]; [|done]. apply entry_at_Some in E2 as [_ I2]; [|done].
  split; [|congruence]. destruct e1, e2; simpl in *; congruence.
Qed.

Lemma chained_match g l1 l2 k e1 e2 j :
  log_wf l1 → log_wf l2 → chained g l1 → chained g l2 →
  entry_at l1 k = Some e1 → entry_at l2 k = Some e2 → e_term e1 = e_term e2 →
  base_index_ l1 < j → base_index_ l2 < j → j <= k → entry_at l1 j = entry_at l2 j.
Proof.
  intros W1 W2 C1 C2 E1 E2 Ht B1 B2 Hj.
  assert (∃ e, entry_at l1 j = Some e ∧ entry_at l2 j = Some e) as (e & -> & ->); [|done].
  remember (Z.to_nat (k - j)) as d eqn:Hd. revert j B1 B2 Hj Hd.
  induction d as [|d IH]; intros j B1 B2 Hj Hd.
  - assert (j = k) as -> by lia. destruct (chained_agree g l1 l2 k e1 e2) as [-> _]; eauto.
  - destruct (IH (j + 1)) as (e & F1 & F2); [lia..|].
    destruct (chained_agree g l1 l2 (j + 1) e e W1 W2 C1 C2 F1 F2 eq_refl) as [_ Hk].
    replace (j + 1 - 1) with j in Hk by lia. rewrite !known_term_entry in Hk by done.
    pose proof (entry_at_Some l1 _ _ W1 F1). pose proof (entry_at_Some l2 _ _ W2 F2).
    destruct (entry_at_is_Some l1 j W1 ltac:(lia)) as [a Ha].
    destruct (entry_at_is_Some l2 j W2 ltac:(lia)) as [b Hb].
    rewrite Ha, Hb in Hk. injection Hk as Hk.
    destruct (chained_agree g l1 l2 j a b) as [-> _]; eauto.
Qed.

(** A run of entries of a chained log is a segment. *)
Lemma segment_of_log g l es pt pi :
  log_wf l → chained g l → base_index_ l <= pi → known_term l pi = Some pt →
  (∀ k e, es !! k = Some e → entry_at l (pi + 1 + Z.of_nat k) = Some e) →
  segment g pt pi es.
Proof.
  intros Hwf Hc. revert pt pi. induction es as [|e es IH]; intros pt pi Hb Hpt Hes; [done|].
  assert (entry_at l (pi + 1) = Some e) as He.
  { specialize (Hes 0%nat e eq_refl). by rewrite Z.add_0_r in Hes. }
  destruct (Hc _ _ He) as (pt' & Hpt' & Hg).
  replace (pi + 1 - 1) with pi in Hpt' by lia. rewrite Hpt in Hpt'. injection Hpt' as <-.
  split_and!; [by apply (entry_at_Some l (pi + 1) e Hwf)|done|].
  apply IH; [lia|rewrite known_term_entry, He by lia; done|].
  intros k e' Hk. replace (pi + 1 + 1 + Z.of_nat k) with (pi + 1 + Z.of_nat (S k)) by lia. by apply Hes.
Qed.

Lemma slice_segment g l lo hi pt :
  log_wf l → chained g l → 0 <= lo < UINT64_MAX → 0 <= hi → known_term l lo = Some pt →
  segment g pt lo (Log.slice lo hi l).
Proof.
  intros Hwf Hc Hlo Hhi Hpt. pose proof (known_term_Some l lo pt Hwf Hpt).
  apply (segment_of_log g l); [done..|lia|done|].
  intros k e. rewrite slice_lookup by done. cbv zeta. rewrite Z.max_l by lia. by case_decide.
Qed.

(** Appending a new entry of a fresh key extends the tree and the log. *)
Lemma chained_append g l l' e :
  log_wf l → log_wf l' → chained g l →
  base_index_ l' = base_index_ l → base_term_ l' = base_term_ l →
  e_index e = Log.last_index l + 1 →
  (∀ i, entry_at l' i = if decide (i = Log.last_index l + 1) then Some e else entry_at l i) →
  ∀ pt, known_term l (Log.last_index l) = Some pt →
  g !! (e_term e, e_index e) = Some (pt, e_cmd e) → chained g l'.
Proof.
  intros Hwf Hwf' Hc Hb Hbt Hi Hent pt Hpt Hg i x. rewrite Hent.
  pose proof (known_term_Some l _ _ Hwf Hpt) as Hlast.
  assert (∀ j, j <= Log.last_index l → known_term l' j = known_term l j) as Hk.
  { intros j Hj. unfold known_term. rewrite Hb, Hbt, Hent. by rewrite (decide_False (P := j = _ + 1)) by lia. }
  case_decide as Hd.
  - intros [= <-]. exists pt. rewrite Hk by lia. subst i. split; [|by rewrite <-Hi].
    by replace (Log.last_index l + 1 - 1) with (Log.last_index l) by lia.
  - intros Hx. pose proof (entry_at_Some l _ _ Hwf Hx). rewrite Hk by lia. by apply Hc.
Qed.

(** A log cut down to its entries before [j] is still chained. *)
Lemma chained_prefix g l l' :
  chained g l → base_index_ l' = base_index_ l → base_term_ l' = base_term_ l →
  log_wf l' → (∀ i, i <= Log.last_index l' → entry_at l' i = entry_at l i) → chained g l'.
Proof.
  intros Hc Hb Hbt Hwf' Hent i e He. pose proof (entry_at_Some _ _ _ Hwf' He).
  rewrite Hent in He by lia. destruct (Hc i e He) as (pt & Hpt & Hg). exists pt. split; [|done].
  rewrite <-Hpt. unfold known_term. rewrite Hb, Hbt. by rewrite Hent by lia.
Qed.
