(* ===== verification/NodeLog.v ===== *)
(** * What a node does to its log

    The entry loop of [handle_append_entries], and the effect of every
    operation of [RaftNode] on [log_], on the log store and on the
    AppendEntries it sends, for a node that takes no snapshots
    ([snapshot_threshold = 0], the default). *)

From S2P Require Import Prelude Codec DurableStore Types Wal KvStore RaftLog Rpc Env Node.
From S2P Require Import NodeVotes NodeElection LogTree.

(** ** The entry loop of [handle_append_entries] *)

(** [for (const auto& entry : ae.entries)] on the log alone. *)
Fixpoint accept_all (es : list LogEntry) (l : RaftLog) : result RaftLog :=
  match es with
  | [] => Ok l
  | e :: es' =>
      match Node.accept_entry e l with
      | Ok l' => accept_all es' l'
      | Throw x => Throw x
      end
  end.

Lemma for_each_accept {E} es (n : RaftNode) (e : E) l' :
  accept_all es (log_ n) = Ok l' →
  for_each es Node.accept_entry_n (mkN n e) = (Ok tt, mkN (n <| log_ := l' |>) e).
Proof.
  revert n. induction es as [|x es IH]; intros n; cbn [accept_all for_each].
  - intros [= <-]. by destruct n.
  - destruct (Node.accept_entry x (log_ n)) as [l1|] eqn:Hx; [|done]. intros Hl.
    assert (Node.accept_entry_n x (mkN n e) = (Ok tt, mkN (n <| log_ := l1 |>) e)) as Hstep.
    { unfold Node.accept_entry_n. rewrite bind_rd. cbn [nd]. rewrite Hx. done. }
    rewrite (bind_ok _ _ _ _ _ Hstep), IH by done. by destruct n.
Qed.

(** The log after an entry that was not there: everything before it, and it. *)
Definition cut_at (l : RaftLog) (e : LogEntry) (l' : RaftLog) : Prop :=
  Log.last_index l' = e_index e ∧
  ∀ i, entry_at l' i = if decide (i = e_index e) then Some e
                       else if decide (i < e_index e) then entry_at l i else None.

Lemma accept_entry_spec e l :
  log_wf l → base_index_ l < e_index e <= Log.last_index l + 1 → e_index e < UINT64_MAX →
  ∃ l', Node.accept_entry e l = Ok l' ∧ log_wf l' ∧
        base_index_ l' = base_index_ l ∧ base_term_ l' = base_term_ l ∧
        ((∃ x, entry_at l (e_index e) = Some x ∧ e_term x = e_term e ∧ l' = l) ∨
         ((∀ x, entry_at l (e_index e) = Some x → e_term x ≠ e_term e) ∧ cut_at l e l')).
Proof.
  intros Hwf Hi Hmax. pose proof (wf_base _ Hwf) as Hb. unfold Node.accept_entry, Log.base_index.
  destruct (Z.leb_spec (e_index e) (Log.last_index l)) as [Hle|Hgt].
  - destruct (Z.leb_spec (e_index e) (base_index_ l)); [lia|].
    destruct (at_ok l (e_index e) Hwf) as (x & -> & Hx); [lia|].
    destruct (Z.eqb_spec (e_term x) (e_term e)) as [Heq|Hne]; cbn [negb].
    { exists l. split_and!; [done..|]. left. by exists x. }
    destruct (truncate_ok (e_index e) l Hwf) as (Hwf1 & Hb1 & Ht1 & He1).
    pose proof (truncate_last_index (e_index e) l Hwf ltac:(lia)) as Hl1.
    destruct (append_accepts e (Log.truncate_from (e_index e) l) Hwf1) as [l' Ha]; [lia..|].
    destruct (append_ok _ _ _ Hwf1 Ha ltac:(lia)) as (Hwf' & Hb' & Ht' & Hl' & _ & He').
    exists l'. split_and!; [done..|congruence|congruence|]. right. split; [naive_solver|].
    split; [lia|]. intros i. rewrite He', Hl1, He1.
    replace (e_index e - 1 + 1) with (e_index e) by lia.
    repeat case_decide; try (done || lia).
  - destruct (append_accepts e l Hwf) as [l' Ha]; [lia..|].
    destruct (append_ok _ _ _ Hwf Ha ltac:(lia)) as (Hwf' & Hb' & Ht' & Hl' & Hidx & He').
    exists l'. split_and!; [done..|]. right. split.
    { intros x Hx. apply entry_at_Some in Hx; [lia|done]. }
    split; [lia|]. intros i. rewrite He', <-Hidx. case_decide; [done|].
    case_decide; [done|]. apply entry_at_None; [done|lia].
Qed.

Lemma cut_at_last l e l' x :
  log_wf l' → cut_at l e l' → entry_at l' (e_index e + 1) = Some x → False.
Proof. intros Hwf [Hl _] Hx. apply entry_at_Some in Hx; [lia|done]. Qed.

(** The loop on entries of consecutive indices from [pi + 1], [pi] in reach
    of the log: it does not fail; every index up to [pi] keeps its entry;
    every new index has an entry of the given term, the given one unless it
    was there before; and the log is either unchanged or ends with the last
    given entry. *)
Lemma accept_all_spec es l pi :
  log_wf l → base_index_ l <= pi <= Log.last_index l → pi + size_z es < UINT64_MAX →
  (∀ k e, es !! k = Some e → e_index e = pi + 1 + Z.of_nat k) →
  ∃ l', accept_all es l = Ok l' ∧ log_wf l' ∧
        base_index_ l' = base_index_ l ∧ base_term_ l' = base_term_ l ∧
        (∀ i, i <= pi → entry_at l' i = entry_at l i) ∧
        (∀ k e, es !! k = Some e → ∃ x, entry_at l' (e_index e) = Some x ∧ e_term x = e_term e ∧
                  (x = e ∨ entry_at l (e_index e) = Some x)) ∧
        (l' = l ∨ Log.last_index l' = pi + size_z es).
Proof.
  revert l pi. induction es as [|e es IH]; intros l pi Hwf Hpi Hmax Hidx; cbn [accept_all].
  - exists l. split_and!; try done. by left.
  - assert (e_index e = pi + 1) as He by (specialize (Hidx 0%nat e eq_refl); lia).
    unfold size_z in *. simpl in Hmax |- *.
    destruct (accept_entry_spec e l Hwf) as (l1 & -> & Hwf1 & Hb1 & Ht1 & Hcase); [lia..|].
    assert (base_index_ l1 <= pi + 1 <= Log.last_index l1) as Hpi1.
    { destruct Hcase as [(x & Hx & _ & ->)|[_ [Hl _]]]; [|lia].
      apply entry_at_Some in Hx; [lia|done]. }
    destruct (IH l1 (pi + 1) Hwf1 Hpi1) as (l' & -> & Hwf' & Hb' & Ht' & Hlow & Hnew & Hend); [lia| |].
    { intros k x Hk. specialize (Hidx (S k) x Hk). lia. }
    assert (∃ x, entry_at l1 (e_index e) = Some x ∧ e_term x = e_term e ∧
                 (x = e ∨ entry_at l (e_index e) = Some x)) as (x & Hx & Hxt & Hxe).
    { destruct Hcase as [(x & Hx & Ht & ->)|[_ [_ Hc]]]; [by exists x; auto|].
      exists e. rewrite Hc, decide_True by done. auto. }
    exists l'. split_and!; [done|done|congruence|congruence| | |].
    + intros i Hi. rewrite Hlow by lia. destruct Hcase as [(y & _ & _ & ->)|[_ [_ Hc]]]; [done|].
      rewrite Hc. rewrite decide_False, decide_True by lia. done.
    + intros [|k] e' Hk; simpl in Hk.
      { injection Hk as <-. exists x. rewrite Hlow by lia. auto. }
      destruct (Hnew k e' Hk) as (y & Hy & Hyt & Hor). exists y. split_and!; [done..|].
      destruct Hor as [->|Hor]; [by left|]. destruct Hcase as [(z & _ & _ & ->)|[_ [_ Hc]]]; [by right|].
      specialize (Hidx (S k) e' Hk). rewrite Hc in Hor. rewrite !decide_False in Hor by lia. done.
    + destruct Hend as [->|Hend]; [|right; lia].
      destruct Hcase as [(z & _ & _ & ->)|[_ Hc]]; [by left|]. right. destruct es as [|e2 es2].
      { destruct Hc as [Hc _]. simpl. lia. }
      destruct (Hnew 0%nat e2 eq_refl) as (y & Hy & _). specialize (Hidx 1%nat e2 eq_refl).
      replace (e_index e2) with (e_index e + 1) in Hy by lia.
      by destruct (cut_at_last l e l1 y Hwf1 Hc).
Qed.

(** The same on paths of a tree of entries: the log stays a path and has
    exactly the given entries. *)
Lemma accept_all_chained g es l pi pt :
  log_wf l → chained g l → known_term l pi = Some pt → pi + size_z es < UINT64_MAX →
  segment g pt pi es →
  ∃ l', accept_all es l = Ok l' ∧ log_wf l' ∧ chained g l' ∧
        base_index_ l' = base_index_ l ∧ base_term_ l' = base_term_ l.
Proof.
  revert l pi pt. induction es as [|e es IH]; intros l pi pt Hwf Hc Hpt Hmax Hseg; cbn [accept_all].
  - by exists l.
  - destruct Hseg as (He & Hg & Hseg). pose proof (known_term_Some l pi pt Hwf Hpt) as Hpi.
    unfold size_z in *. simpl in Hmax.
    destruct (accept_entry_spec e l Hwf) as (l1 & -> & Hwf1 & Hb1 & Ht1 & Hcase); [lia..|].
    assert (chained g l1 ∧ known_term l1 (pi + 1) = Some (e_term e)) as [Hc1 Hk1].
    { destruct Hcase as [(x & Hx & Ht & ->)|[_ [Hl Hcut]]].
      - split; [done|]. rewrite known_term_entry by lia. rewrite <-He, Hx. simpl. by rewrite Ht.
      - assert (∀ j, j <= pi → known_term l1 j = known_term l j) as Hk.
        { intros j Hj. unfold known_term. rewrite Hb1, Ht1, Hcut.
          rewrite (decide_False (P := j = e_index e)), (decide_True (P := j < e_index e)) by lia. done. }
        split; [|rewrite known_term_entry, Hcut, decide_True by lia; done].
        intros i x. rewrite Hcut. case_decide as Hi.
        + intros [= <-]. exists pt. subst i. rewrite He. split; [|done].
          replace (pi + 1 - 1) with pi by lia. by rewrite Hk.
        + case_decide; [|done]. intros Hx. rewrite Hk by lia. by apply Hc. }
    destruct (IH l1 (pi + 1) (e_term e) Hwf1 Hc1 Hk1) as (l' & -> & Hwf' & Hc' & Hb' & Ht'); [lia|done|].
    exists l'. split_and!; [done..|congruence|congruence].
Qed.

(** ** Operations that leave the log alone *)

Lemma bind_result {S A B} (a : A) (k : A → M S B) s : (lift_result (Ok a) ≫= k) s = k a s.
Proof. done. Qed.

(** No snapshot was taken and none will be. *)
Definition plain (n : RaftNode) : Prop :=
  snapshot_threshold (cfg_ n) = 0 ∧ snap_last_index_ n = 0 ∧ snapshot_store_ n = empty_store ∧
  base_index_ (log_ n) = 0 ∧ base_term_ (log_ n) = 0.

(** The log store holds the log. *)
Definition log_saved (n : RaftNode) : Prop :=
  log_store_ n = stored (Log.encode (log_ n)) ∨ (log_store_ n = empty_store ∧ log_ n = empty_log).

(** An AppendEntries made from the log [l]: entries of [l] after one of its
    entries, whose index and term it names. *)
Definition ae_of (l : RaftLog) (ae : AppendEntries) : Prop :=
  known_term l (ae_prev_log_index ae) = Some (ae_prev_log_term ae) ∧
  ∃ hi, 0 <= hi ∧ ae_entries ae = Log.slice (ae_prev_log_index ae) hi l.

(** What a node with log [l] may send. *)
Record lmsg (l : RaftLog) (m : Message) : Prop := {
  lm_is : head (msg_payload m) ≠ Some mt_InstallSnapshot;
  lm_cr : head (msg_payload m) ≠ Some mt_ClientRequest;
  lm_ae : head (msg_payload m) = Some mt_AppendEntries →
    ∃ ae, msg_payload m = Encode.AppendEntries ae ∧ ae_of l ae;
}.

Section Tame.
Context {E : Type} `{EnvLaws E}.
Implicit Types (s : nstate E) (n : RaftNode).

Record tame_ s s' : Prop := {
  tame_log : log_ (nd s') = log_ (nd s);
  tame_plain : plain (nd s');
  tame_saved : log_saved (nd s) → log_saved (nd s');
  tame_msgs : ∃ ms, sent (env s') = sent (env s) ++ ms ∧ Forall (lmsg (log_ (nd s))) ms;
}.
Definition tame s s' : Prop := plain (nd s) → log_wf (log_ (nd s)) → tame_ s s'.

#[global] Instance tame_preorder : PreOrder tame.
Proof.
  split.
  - intros s Hp Hw. split; auto. exists []. by rewrite app_nil_r.
  - intros s1 s2 s3 T12 T23 Hp Hw. destruct (T12 Hp Hw) as [L P S (m1 & E1 & M1)].
    destruct T23 as [L' P' S' (m2 & E2 & M2)]; [done|by rewrite L|].
    split; [congruence|done|auto|]. exists (m1 ++ m2).
    rewrite E2, E1, app_assoc. split; [done|]. apply Forall_app. split; [done|]. by rewrite <-L.
Qed.

(** The fields [tame] speaks of. *)
Definition log_fields n := (cfg_ n, log_ n, log_store_ n, snap_last_index_ n, snapshot_store_ n).

Lemma tame_of_fields s s' :
  log_fields (nd s') = log_fields (nd s) → sent (env s') = sent (env s) → tame s s'.
Proof.
  intros Hf Hs Hp _. unfold log_fields in Hf. injection Hf as H1 H2 H3 H4 H5.
  split; [done| | |].
  - unfold plain in *. by rewrite H1, H2, H4, H5.
  - unfold log_saved. by rewrite H2, H3.
  - exists []. by rewrite app_nil_r.
Qed.

Lemma tame_upd f : (∀ n, log_fields (f n) = log_fields n) → keeps tame (upd f).
Proof. intros Hf s. by apply tame_of_fields; simpl. Qed.
Lemma tame_rd {A} (f : RaftNode → A) : keeps tame (rd f).
Proof. apply keeps_gets, _. Qed.
Lemma tame_result {A} (r : result A) : keeps tame (lift_result r).
Proof. intros s. reflexivity. Qed.
Lemma tame_decoder {A} (d : M bytes A) b : keeps tame (run_decoder d b).
Proof. intros s. reflexivity. Qed.

Lemma tame_env {A} (m : M E A) :
  (∀ e, ∃ a e', m e = (Ok a, e') ∧ sent e' = sent e) → keeps tame (liftE m).
Proof.
  intros Hm s. unfold liftE. destruct (Hm (env s)) as (a & e' & -> & He). by apply tame_of_fields.
Qed.

Lemma tame_env_unit (m : M E unit) :
  (∀ e, ∃ e', m e = (Ok tt, e') ∧ sent e' = sent e) → keeps tame (liftE m).
Proof. intros Hm. apply tame_env. intros e. destruct (Hm e) as (e' & ? & ?). eauto. Qed.

Lemma tame_send_at s to p :
  (plain (nd s) → log_wf (log_ (nd s)) → lmsg (log_ (nd s)) (mkMessage (id_ (nd s)) to p)) →
  tame s (Node.send to p s).2.
Proof.
  intros Hm Hp Hw. unfold Node.send. rewrite bind_rd. unfold liftE.
  destruct (net_send_sent (id_ (nd s)) to p (env s)) as (e' & -> & He).
  split; auto. exists [mkMessage (id_ (nd s)) to p]. split; [done|]. apply Forall_singleton. auto.
Qed.

(** Payloads that are neither AppendEntries, InstallSnapshot nor ClientRequest. *)
Definition other_payload (p : bytes) : bool :=
  match p with
  | [] => true
  | b :: _ => negb ((b =? mt_AppendEntries) || (b =? mt_InstallSnapshot) || (b =? mt_ClientRequest))
  end.

Lemma other_lmsg l i to p : other_payload p = true → lmsg l (mkMessage i to p).
Proof.
  unfold other_payload. destruct p as [|b p]; [done|]. intros Hb.
  apply negb_true_iff, orb_false_iff in Hb as [[H1 H2]%orb_false_iff H3].
  apply Z.eqb_neq in H1, H2, H3. split; simpl; congruence.
Qed.

Lemma tame_send to p : other_payload p = true → keeps tame (Node.send to p).
Proof. intros Hp s. apply tame_send_at. intros _ _. by apply other_lmsg. Qed.
End Tame.

Ltac tame_env_tac :=
  first [ apply tame_env; intros; first [apply schedule_sent | apply random_sent]
        | apply tame_env_unit; intros;
          first [apply cancel_sent | apply client_done_sent | apply read_done_sent
                | apply state_changed_sent | apply set_handler_sent | apply remove_handler_sent] ].

Create HintDb tame.
#[export] Hint Resolve tame_rd tame_result tame_decoder : tame.
#[export] Hint Extern 1 (keeps tame (liftE _)) => tame_env_tac : tame.
#[export] Hint Extern 1 (keeps tame (Node.send _ _)) => (apply tame_send; reflexivity) : tame.
Ltac tame_base := first [solve [eauto with tame nocore] | apply tame_upd; intros; reflexivity].
Ltac tame_auto := repeat keeps_step tame_base.

Section TameOps.
Context {E : Type} `{EnvLaws E}.
Implicit Types (s : nstate E) (n : RaftNode).

Lemma tame_persist : keeps tame Node.persist.
Proof.
  intros s Hp Hw. rewrite persist_eq. split; simpl; [done|done|by left|].
  exists []. by rewrite app_nil_r.
Qed.
Hint Resolve tame_persist : tame.

Lemma tame_this : keeps tame Node.this.
Proof. apply tame_rd. Qed.
Lemma tame_cancel_election : keeps tame Node.cancel_election_timeout.
Proof. unfold Node.cancel_election_timeout. tame_auto. Qed.
Lemma tame_schedule_election : keeps tame Node.schedule_election_timeout.
Proof. unfold Node.schedule_election_timeout. tame_auto. Qed.
Lemma tame_cancel_heartbeat : keeps tame Node.cancel_heartbeat.
Proof. unfold Node.cancel_heartbeat. tame_auto. Qed.
Lemma tame_schedule_heartbeat : keeps tame Node.schedule_heartbeat.
Proof. unfold Node.schedule_heartbeat. tame_auto. Qed.
Lemma tame_notify : keeps tame Node.notify_state_change.
Proof. unfold Node.notify_state_change. tame_auto. Qed.
Lemma tame_invoke cb r : keeps tame (Node.invoke_client cb r).
Proof. unfold Node.invoke_client. tame_auto. Qed.
Lemma tame_invoke_read t b v : keeps tame (Node.invoke_read t b v).
Proof. unfold Node.invoke_read. tame_auto. Qed.
Hint Resolve tame_invoke_read : tame.
Lemma tame_cancel_reads : keeps tame Node.cancel_pending_reads.
Proof. unfold Node.cancel_pending_reads. tame_auto. Qed.
Lemma tame_drain kept todo : keeps tame (Node.drain_loop kept todo).
Proof. revert kept. induction todo; intros; simpl; tame_auto. Qed.
Lemma tame_next_index_at p : keeps tame (Node.next_index_at p).
Proof. unfold Node.next_index_at. tame_auto. Qed.
Lemma tame_match_index_at p : keeps tame (Node.match_index_at p).
Proof. unfold Node.match_index_at. tame_auto. Qed.
Lemma tame_set_next_index p i : keeps tame (Node.set_next_index p i).
Proof. unfold Node.set_next_index. tame_auto. Qed.
Lemma tame_set_match_index p i : keeps tame (Node.set_match_index p i).
Proof. unfold Node.set_match_index. tame_auto. Qed.
Hint Resolve tame_this tame_cancel_election tame_schedule_election tame_cancel_heartbeat
  tame_schedule_heartbeat tame_notify tame_invoke tame_cancel_reads tame_drain tame_next_index_at
  tame_match_index_at tame_set_next_index tame_set_match_index : tame.
Lemma tame_drain_reads : keeps tame Node.drain_pending_reads.
Proof. unfold Node.drain_pending_reads. tame_auto. Qed.
Lemma tame_become_follower t l : keeps tame (Node.become_follower t l).
Proof. unfold Node.become_follower. tame_auto. Qed.
Hint Resolve tame_drain_reads tame_become_follower : tame.

Lemma tame_assume s s' : (plain (nd s) → log_wf (log_ (nd s)) → tame s s') → tame s s'.
Proof. intros T Hp Hw. exact (T Hp Hw Hp Hw). Qed.

Lemma tame_send_snapshot p : keeps tame (Node.send_install_snapshot p).
Proof.
  intros s Hp Hw. pose proof Hp as (_ & Hsnap & _). revert Hp Hw.
  unfold Node.send_install_snapshot, Node.this. rewrite bind_rd, Hsnap. apply (keeps_ret tame).
Qed.
Hint Resolve tame_send_snapshot : tame.

(** The term named in an AppendEntries is that of the log. *)
Lemma term_at_known l i t : log_wf l → Log.term_at i l = Ok t → known_term l i = Some t.
Proof.
  intros Hw. unfold Log.term_at, known_term. destruct (Z.eqb_spec i (base_index_ l)).
  - intros [= <-]. by rewrite decide_True.
  - rewrite decide_False by done. destruct (Log.at_ i l) as [e|] eqn:He; [|done].
    apply (at_entry_at l i e Hw) in He as ->. by intros [= <-].
Qed.

Lemma prev_term_known i s t :
  plain (nd s) → log_wf (log_ (nd s)) → 0 <= i →
  (Node.prev_term_of i s).1 = Ok t → known_term (log_ (nd s)) i = Some t.
Proof.
  intros (_ & _ & _ & Hb & Hbt) Hw Hi. unfold Node.prev_term_of.
  destruct (Z.ltb_spec 0 i) as [Hpos|Hneg].
  - rewrite bind_rd. unfold lift_result, mbind, M_bind. cbv beta iota.
    destruct (Log.term_at i (log_ (nd s))) as [t'|] eqn:Ht; [|done].
    rewrite contains_spec by done. pose proof (term_at_known _ _ _ Hw Ht) as Hk.
    rewrite bool_decide_true by auto. by intros [= <-].
  - assert (i = 0) as -> by lia. intros [= <-]. rewrite <-Hb, <-Hbt at 1. by rewrite known_term_base, Hbt.
Qed.

Lemma tame_prev_term i : keeps tame (Node.prev_term_of i).
Proof. unfold Node.prev_term_of. tame_auto. Qed.
Hint Resolve tame_prev_term : tame.

Lemma prev_term_pure i s : (Node.prev_term_of i s).2 = s.
Proof.
  unfold Node.prev_term_of. destruct (0 <? i); [|done]. rewrite bind_rd.
  unfold lift_result, mbind, M_bind. destruct (Log.term_at i _); [|done].
  destruct (Log.contains i _ _) as [[]|]; done.
Qed.

Lemma last_index_nonneg l : 0 <= Log.last_index l.
Proof. apply wrap64_range. Qed.

Lemma tame_send_entries s peer prev t :
  0 <= prev → known_term (log_ (nd s)) prev = Some t →
  tame s (((match last (Log.slice prev
              (Z.min (wrap64 (prev + max_entries_per_ae (cfg_ (nd s)))) (Log.last_index (log_ (nd s))))
              (log_ (nd s))) with
            | Some e => Node.set_next_index peer (wrap64 (e_index e + 1))
            | None => mret tt
            end);;
           Node.send peer (Encode.AppendEntries
             (mkAppendEntries (current_term_ (nd s)) (id_ (nd s)) prev t
                (Log.slice prev
                   (Z.min (wrap64 (prev + max_entries_per_ae (cfg_ (nd s)))) (Log.last_index (log_ (nd s))))
                   (log_ (nd s))) (commit_index_ (nd s))))) s).2.
Proof.
  intros Hprev Hk. set (hi := Z.min _ _).
  assert (0 <= hi) as Hhi.
  { unfold hi. apply Z.min_glb; [apply wrap64_range|apply last_index_nonneg]. }
  assert (∀ s1, log_ (nd s1) = log_ (nd s) → tame s1 (Node.send peer (Encode.AppendEntries
     (mkAppendEntries (current_term_ (nd s)) (id_ (nd s)) prev t (Log.slice prev hi (log_ (nd s)))
        (commit_index_ (nd s)))) s1).2) as Hsend.
  { intros s1 Hl. apply tame_send_at. intros _ _. rewrite Hl. split; [done..|].
    intros _. eexists. split; [done|]. split; [done|]. by exists hi. }
  destruct (last _) as [e|].
  - unfold Node.set_next_index. rewrite bind_upd. etrans; [|by apply Hsend].
    by apply tame_of_fields.
  - by apply Hsend.
Qed.

Lemma tame_replicate_to p : keeps tame (Node.replicate_to p).
Proof.
  intros s. unfold Node.replicate_to. rewrite bind_rd. destruct (negb _); [apply (keeps_ret tame)|].
  apply (keeps_bind_at tame); [apply tame_next_index_at|]. intros ni _. set (s1 := (_ s).2).
  rewrite bind_rd. destruct (_ <=? _); [apply tame_send_snapshot|].
  apply (keeps_bind_at tame); [apply tame_next_index_at|]. intros ni' _. set (s2 := (_ s1).2). cbv zeta.
  apply tame_assume. intros Hp Hw.
  apply (keeps_bind_at tame); [apply tame_prev_term|]. intros t Ht. rewrite prev_term_pure in *.
  unfold Node.this. rewrite bind_rd. apply tame_send_entries; [apply wrap64_range|].
  apply (prev_term_known _ s2); [done..|apply wrap64_range|]. by rewrite Ht.
Qed.
Hint Resolve tame_replicate_to : tame.
Lemma tame_replicate_all : keeps tame Node.replicate_all.
Proof. unfold Node.replicate_all. tame_auto. Qed.
Hint Resolve tame_replicate_all : tame.

Lemma tame_membership cmd : keeps tame (Node.apply_membership_change cmd).
Proof. unfold Node.apply_membership_change. tame_auto. Qed.
Hint Resolve tame_membership : tame.
Lemma tame_apply_one i : keeps tame (Node.apply_one i).
Proof. unfold Node.apply_one. tame_auto. Qed.
Hint Resolve tame_apply_one : tame.
Lemma tame_apply_loop fuel : keeps tame (Node.apply_loop fuel).
Proof. induction fuel; simpl; tame_auto. Qed.
Hint Resolve tame_apply_loop : tame.

(** No snapshot is taken when [snapshot_threshold] is 0. *)
Lemma tame_maybe_snapshot :
  keeps tame (n ← Node.this;
    when ((0 <? snapshot_threshold (cfg_ n)) && (snapshot_threshold (cfg_ n) <? Log.size (log_ n)))
      Node.take_snapshot : M (nstate E) unit).
Proof.
  intros s. apply tame_assume. intros (Ht & _) _. unfold Node.this. rewrite bind_rd, Ht. reflexivity.
Qed.
Hint Resolve tame_maybe_snapshot : tame.

Lemma tame_apply_committed : keeps tame Node.apply_committed_entries.
Proof.
  unfold Node.apply_committed_entries.
  do 3 (apply (keeps_bind tame); [tame_base|intros]). apply tame_maybe_snapshot.
Qed.
Hint Resolve tame_apply_committed : tame.
Lemma tame_skip_prior i : keeps tame (Node.skip_prior_term i).
Proof. unfold Node.skip_prior_term. tame_auto. Qed.
Hint Resolve tame_skip_prior : tame.
Lemma tame_advance_loop fuel i : keeps tame (Node.advance_loop fuel i).
Proof. revert i. induction fuel; intros; simpl; tame_auto. Qed.
Hint Resolve tame_advance_loop : tame.
Lemma tame_maybe_advance : keeps tame Node.maybe_advance_commit_index.
Proof. unfold Node.maybe_advance_commit_index. tame_auto. Qed.
Hint Resolve tame_maybe_advance : tame.
Lemma tame_become_leader : keeps tame Node.become_leader.
Proof. unfold Node.become_leader. tame_auto. Qed.
Hint Resolve tame_become_leader : tame.
Lemma tame_become_candidate : keeps tame Node.become_candidate.
Proof. unfold Node.become_candidate. tame_auto. Qed.
Hint Resolve tame_become_candidate : tame.

(** ** The handlers that leave the log alone *)

Lemma tame_request_vote from rv : keeps tame (Node.handle_request_vote from rv).
Proof. unfold Node.handle_request_vote. tame_auto. Qed.
Lemma tame_request_vote_reply from r : keeps tame (Node.handle_request_vote_reply from r).
Proof. unfold Node.handle_request_vote_reply. tame_auto. Qed.
Lemma tame_append_entries_reply from r : keeps tame (Node.handle_append_entries_reply from r).
Proof. unfold Node.handle_append_entries_reply. tame_auto. Qed.
Lemma tame_install_snapshot_reply from r : keeps tame (Node.handle_install_snapshot_reply from r).
Proof. unfold Node.handle_install_snapshot_reply. tame_auto. Qed.
Lemma tame_read_index_request from r : keeps tame (Node.handle_read_index_request from r).
Proof. unfold Node.handle_read_index_request. tame_auto. Qed.
Lemma tame_read_index_reply from r : keeps tame (Node.handle_read_index_reply from r).
Proof. unfold Node.handle_read_index_reply. tame_auto. Qed.
Lemma tame_read_index key cb : keeps tame (Node.read_index key cb).
Proof. unfold Node.read_index. tame_auto. Qed.
Lemma tame_timeout_loop round before after : keeps tame (Node.timeout_loop round before after).
Proof. revert before. induction after; intros; simpl; tame_auto. Qed.
Hint Resolve tame_timeout_loop : tame.
Lemma tame_on_timer t : keeps tame (Node.on_timer t).
Proof. unfold Node.on_timer, Node.on_election_timeout, Node.on_heartbeat. tame_auto. Qed.

(** ** Crash, start and restart *)

Lemma crash_stored b : DurableStore.crash (stored b) = stored b.
Proof.
  unfold stored, DurableStore.crash. simpl. unfold Mem.crash. simpl. by rewrite resize_all_alt.
Qed.

Lemma tame_crash_log :
  keeps tame (upd (λ n, n <| log_store_ := DurableStore.crash (log_store_ n) |>) : M (nstate E) unit).
Proof.
  intros s Hp Hw. split; [done|done| |by exists []; rewrite app_nil_r].
  intros [Hs|[Hs Hl]]; [left|right]; simpl; rewrite Hs; [apply crash_stored|done].
Qed.
Lemma tame_crash_snapshot :
  keeps tame (upd (λ n, n <| snapshot_store_ := DurableStore.crash (snapshot_store_ n) |>)
              : M (nstate E) unit).
Proof.
  intros s (P1 & P2 & P3 & P4 & P5) Hw. split; [done| |done|by exists []; rewrite app_nil_r].
  split_and!; [done|done|simpl; by rewrite P3|done|done].
Qed.
Hint Resolve tame_crash_log tame_crash_snapshot : tame.
Lemma tame_crash : keeps tame Node.crash.
Proof. unfold Node.crash. tame_auto. Qed.

(** Neither the log's fields nor the network change. *)
Definition still s s' : Prop :=
  log_fields (nd s') = log_fields (nd s) ∧ sent (env s') = sent (env s).

#[local] Instance still_preorder : PreOrder still.
Proof. split; [by intros s|]. intros s1 s2 s3 [] []. split; congruence. Qed.

Lemma still_upd f : (∀ n, log_fields (f n) = log_fields n) → keeps still (upd f).
Proof. intros Hf s. by split; simpl. Qed.
Lemma still_rd {A} (f : RaftNode → A) : keeps still (rd f).
Proof. by intros s. Qed.
Lemma still_decoder {A} (d : M bytes A) b : keeps still (run_decoder d b).
Proof. by intros s. Qed.
Lemma still_set_handler i (h : handler) : keeps still (liftE (set_handler i h)).
Proof.
  intros s. unfold liftE. destruct (set_handler_sent i h (env s)) as (e' & -> & He). by split.
Qed.
Lemma still_load_meta : keeps still Node.load_meta.
Proof.
  unfold Node.load_meta.
  repeat keeps_step ltac:(first [apply still_rd | apply still_decoder | apply still_upd; intros; reflexivity]).
Qed.

Lemma load_snapshot_empty s :
  snapshot_store_ (nd s) = empty_store → Node.load_snapshot s = (Ok tt, s).
Proof. intros Hs. unfold Node.load_snapshot. by rewrite bind_rd, Hs. Qed.

(** The log store holds [l]. *)
Definition log_holds (l : RaftLog) (st : DurableStore) : Prop :=
  st = stored (Log.encode l) ∨ (st = empty_store ∧ l = empty_log).

Lemma encode_log_size l : (length (Log.encode l) =? 0)%nat = false.
Proof. apply Nat.eqb_neq. unfold Log.encode. rewrite length_app, length_enc_u64. lia. Qed.

Lemma stored_nonempty b : (length b =? 0)%nat = false → stored b = empty_store → False.
Proof. intros Hb Hs. apply (f_equal flushed_end_) in Hs. apply Nat.eqb_neq in Hb. by apply Hb. Qed.

Lemma load_log_holds l s :
  log_fits l → log_holds l (log_store_ (nd s)) → (log_store_ (nd s) = empty_store → log_ (nd s) = l) →
  Node.load_log s = (Ok tt, mkN ((nd s) <| log_ := l |>) (env s)).
Proof.
  intros Hf Hst Hl. unfold Node.load_log, mbind, M_bind, rd, gets. destruct Hst as [Hst|[Hst ->]]; rewrite Hst.
  - change (durable_size (stored (Log.encode l))) with (length (Log.encode l)).
    rewrite encode_log_size, Hst. by rewrite (load_from_encoded _ l) by (done || apply stored_read).
  - cbn. specialize (Hl Hst). f_equal. destruct s as [[] e]. simpl in *. by subst.
Qed.

(** [start] finds the log of the log store. *)
Lemma start_log l s s' :
  plain (nd s) → log_fits l → log_wf l → base_index_ l = 0 → base_term_ l = 0 →
  log_holds l (log_store_ (nd s)) → log_ (nd s) = l ∨ log_ (nd s) = empty_log →
  Node.start s = (Ok tt, s') →
  log_ (nd s') = l ∧ plain (nd s') ∧ log_saved (nd s') ∧
  ∃ ms, sent (env s') = sent (env s) ++ ms ∧ Forall (lmsg l) ms.
Proof.
  intros Hp Hf Hwf Hb Hbt Hst Hl. unfold Node.start. rewrite bind_upd, bind_rd. set (s0 := mkN _ _).
  intros (u & sa & Ha & (u1 & sb & Hsb & (u2 & sc & Hc & (u3 & sd & Hd & He)%bind_inv)%bind_inv)%bind_inv)%bind_inv.
  assert (still s sa) as Ssa.
  { transitivity s0; [done|]. pose proof (still_set_handler (id_ (nd s0)) (HNode (id_ (nd s0))) s0) as K.
    by rewrite Ha in K. }
  pose proof Ssa as [Hfa _]. unfold log_fields in Hfa. injection Hfa as A1 A2 A3 A4 A5.
  destruct Hp as (P1 & P2 & P3 & P4 & P5).
  rewrite load_snapshot_empty in Hsb by congruence. injection Hsb as _ ->.
  assert (still s sc) as [Hfc Hsc].
  { etrans; [exact Ssa|]. pose proof (still_load_meta sb) as K. by rewrite Hc in K. }
  unfold log_fields in Hfc. injection Hfc as C1 C2 C3 C4 C5.
  rewrite (load_log_holds l) in Hd; [|done|congruence|].
  2: { intros Hemp. rewrite C2. destruct Hl as [|Hl]; [done|]. rewrite Hl.
       destruct Hst as [Hst|[_ ->]]; [|done]. rewrite C3, Hst in Hemp.
       by apply stored_nonempty in Hemp; [|apply encode_log_size]. }
  injection Hd as _ <-.
  set (sd := mkN _ _) in He.
  assert (keeps tame (Node.apply_committed_entries;; Node.schedule_election_timeout
    : M (nstate E) unit)) as K by tame_auto.
  destruct (K sd) as [K1 K2 K3 K4].
  { unfold plain in *. unfold sd. simpl. rewrite C1, C4, C5. auto. }
  { done. }
  rewrite He in K1, K2, K3, K4. simpl in K1, K2, K3, K4. split_and!; [done|done| |].
  - apply K3. unfold log_saved. simpl. by rewrite C3.
  - destruct K4 as (ms & Hms & HF). exists ms. by rewrite Hms, Hsc.
Qed.

(** ** The two operations that change the log *)

(** What the log of a node is between two events. *)
Record linv (g : tree) n : Prop := {
  li_plain : plain n;
  li_wf : log_wf (log_ n);
  li_saved : log_saved n;
  li_chained : chained g (log_ n);
}.

Lemma linv_tame g s s' :
  tame s s' → linv g (nd s) →
  log_ (nd s') = log_ (nd s) ∧ linv g (nd s') ∧
  ∃ ms, sent (env s') = sent (env s) ++ ms ∧ Forall (lmsg (log_ (nd s'))) ms.
Proof.
  intros T [P W S C]. destruct (T P W) as [L P' S' M]. split; [done|]. split; [|by rewrite L].
  split; [done|by rewrite L|auto|by rewrite L].
Qed.

Lemma mild_stays s s' : mild s s' → role_ (nd s) = Follower → role_ (nd s') = Follower.
Proof. intros [[_ _ _ [?|[-> _]] _ _]|[]] Hr; done. Qed.

(** The rest of [handle_append_entries] once the entries are in the log. *)
Definition accepted_tail (from : NodeId) (ae : AppendEntries) : M (nstate E) unit :=
  n ← Node.this;
  when (commit_index_ n <? ae_leader_commit ae) (
    commit_index_ ::= Z.min (ae_leader_commit ae) (Log.last_index (log_ n));;
    Node.apply_committed_entries);;
  cur ← rd current_term_;
  Node.send from (Encode.AppendEntriesReply (mkAppendEntriesReply cur true 0 0)).

Lemma tame_accepted_tail from ae : keeps tame (accepted_tail from ae).
Proof. unfold accepted_tail. tame_auto. Qed.
Lemma mild_accepted_tail from ae : keeps mild (accepted_tail from ae).
Proof.
  unfold accepted_tail.
  repeat keeps_step ltac:(first [solve [eauto with mild nocore] | apply calm_mild; calm_base]).
Qed.

(** The entries are accepted, saved, and committed as far as the leader says. *)
Lemma accept_and_save from ae s l' :
  accept_all (ae_entries ae) (log_ (nd s)) = Ok l' →
  (for_each (ae_entries ae) Node.accept_entry_n;; Node.persist;; accepted_tail from ae) s =
  accepted_tail from ae (mkN (persisted ((nd s) <| log_ := l' |>)) (env s)).
Proof.
  intros Hl. destruct s as [n e]. rewrite (bind_ok _ _ _ _ _ (for_each_accept _ n e l' Hl)).
  by rewrite (bind_ok _ _ _ _ _ (persist_eq _)).
Qed.

(** Both branches of the term test at the top of a leader's message. *)
Lemma follow_leader_spec t from s :
  ∃ s1, (if current_term_ (nd s) <? t then Node.become_follower t (Some from)
         else Node.become_follower (current_term_ (nd s)) (Some from)) s = (Ok tt, s1) ∧
        tame s s1 ∧ role_ (nd s1) = Follower.
Proof.
  assert (∀ t', ∃ s1, Node.become_follower t' (Some from) s = (Ok tt, s1) ∧
                      tame s s1 ∧ role_ (nd s1) = Follower) as K.
  { intros t'. destruct (become_follower_spec t' (Some from) s) as (s1 & H1 & _ & R1).
    exists s1. split_and!; [done| |done]. pose proof (tame_become_follower t' (Some from) s) as T.
    by rewrite H1 in T. }
  destruct (_ <? _); apply K.
Qed.

(** The log is the same or the node is a follower; it is a path of [g]; the
    messages are made from the old log or the new one. *)
Definition evolves (g : tree) s s' : Prop :=
  (log_ (nd s') = log_ (nd s) ∨ role_ (nd s') = Follower) ∧ linv g (nd s') ∧
  ∃ ms, sent (env s') = sent (env s) ++ ms ∧
        Forall (λ m, lmsg (log_ (nd s)) m ∨ lmsg (log_ (nd s')) m) ms.

Lemma tame_evolves g s s' : linv g (nd s) → tame s s' → evolves g s s'.
Proof.
  intros I T. destruct (linv_tame g s s' T I) as (L & I' & ms & Hs & HM).
  split; [by left|]. split; [done|]. exists ms. split; [done|].
  eapply Forall_impl; [done|]. by right.
Qed.

Lemma accept_evolves g from ae s l' :
  role_ (nd s) = Follower → linv g (nd s) → log_wf l' → chained g l' →
  base_index_ l' = base_index_ (log_ (nd s)) → base_term_ l' = base_term_ (log_ (nd s)) →
  evolves g s (accepted_tail from ae (mkN (persisted ((nd s) <| log_ := l' |>)) (env s))).2.
Proof.
  intros R [(P1 & P2 & P3 & P4 & P5) W S C] W' C' Hb Ht. set (s1 := mkN _ _).
  assert (linv g (nd s1)) as I1.
  { split; [|done|by left|done]. split_and!; simpl; [done..|congruence|congruence]. }
  destruct (linv_tame g s1 _ (tame_accepted_tail from ae s1) I1) as (L & I' & ms & Hs & HM).
  split; [|split; [done|]].
  - right. apply (mild_stays s1); [apply mild_accepted_tail|done].
  - exists ms. split; [done|]. eapply Forall_impl; [done|]. by right.
Qed.

Lemma evolves_after g s s1 s' :
  linv g (nd s) → tame s s1 → evolves g s1 s' → evolves g s s'.
Proof.
  intros I T. destruct (linv_tame g s s1 T I) as (L & _ & m1 & E1 & M1).
  intros (H1 & H2 & m2 & E2 & M2). split; [by rewrite <-L|]. split; [done|].
  exists (m1 ++ m2). rewrite E2, E1, app_assoc. split; [done|]. rewrite L in *.
  apply Forall_app. split; [|done]. eapply Forall_impl; [exact M1|]. by left.
Qed.

Lemma append_entries_evolves g from ae s :
  linv g (nd s) → 0 <= ae_prev_log_index ae →
  segment g (ae_prev_log_term ae) (ae_prev_log_index ae) (ae_entries ae) →
  (ae_prev_log_index ae = 0 → ae_prev_log_term ae = 0) →
  ae_prev_log_index ae + size_z (ae_entries ae) < UINT64_MAX →
  evolves g s (Node.handle_append_entries from ae s).2.
Proof.
  intros I Hpi Hseg Hz Hmax. unfold Node.handle_append_entries. rewrite bind_rd.
  destruct (ae_term ae <? current_term_ (nd s)).
  { apply tame_evolves; [done|]. by apply tame_send. }
  destruct (follow_leader_spec (ae_term ae) from s) as (s1 & H1 & T1 & R1).
  rewrite (bind_ok _ _ _ _ _ H1). apply (evolves_after g s s1); [done..|].
  destruct (linv_tame g s s1 T1 I) as (_ & I1 & _).
  pose proof I1 as [(_ & _ & _ & P4 & P5) W S C]. rewrite bind_rd.
  rewrite contains_spec by done. rewrite bind_result. case_bool_decide as Hc; cbn [negb].
  - assert (known_term (log_ (nd s1)) (ae_prev_log_index ae) = Some (ae_prev_log_term ae)) as Hk.
    { destruct Hc as [Hc|]; [|done]. rewrite (Hz Hc), Hc, <-P4, <-P5 at 1. by rewrite known_term_base, P5. }
    destruct (accept_all_chained g (ae_entries ae) (log_ (nd s1)) _ _ W C Hk Hmax Hseg)
      as (l' & Hl & W' & C' & Hb & Ht).
    change (evolves g s1 ((for_each (ae_entries ae) Node.accept_entry_n;; Node.persist;;
      accepted_tail from ae) s1).2).
    rewrite (accept_and_save from ae s1 l' Hl). by apply accept_evolves.
  - apply tame_evolves; [done|].
    match goal with |- tame _ (?m _).2 => enough (keeps tame m) as K by apply K end. tame_auto.
Qed.

(** [submit]: nothing, or one new entry of the current term at the end of a
    leader's log, on disk before it is sent to anyone. *)
Lemma submit_log client_id request_id cmd cb s :
  plain (nd s) → log_wf (log_ (nd s)) → Log.last_index (log_ (nd s)) < UINT64_MAX →
  let s' := (Node.submit client_id request_id cmd cb s).2 in
  tame s s' ∨
  ∃ l', role_ (nd s) = Leader ∧
    Log.append (mkLogEntry (current_term_ (nd s)) (Log.last_index (log_ (nd s)) + 1) cmd)
      (log_ (nd s)) = Ok l' ∧
    log_ (nd s') = l' ∧ plain (nd s') ∧ log_saved (nd s') ∧
    ∃ ms, sent (env s') = sent (env s) ++ ms ∧ Forall (lmsg l') ms.
Proof.
  intros Hp Hw Hlast. cbv zeta. unfold Node.submit, Node.this. rewrite bind_rd.
  destruct (negb (running_ (nd s)) || negb (bool_decide (role_ (nd s) = Leader))) eqn:Hrole.
  { left. reflexivity. }
  apply orb_false_iff in Hrole as [_ Hrole%negb_false_iff%bool_decide_eq_true].
  destruct (is_config cmd && config_change_pending_ (nd s)); [left; reflexivity|].
  pose proof (last_index_nonneg (log_ (nd s))) as Hnn.
  rewrite (wrap64_id (Log.last_index (log_ (nd s)) + 1)) by (unfold is_u64, UINT64_MAX in *; lia).
  set (e := mkLogEntry _ _ cmd). destruct (append_accepts e (log_ (nd s)) Hw) as [l' Hl]; [done..|].
  destruct (append_ok e (log_ (nd s)) l' Hw Hl) as (W' & Hb & Ht & _); [simpl; lia|].
  right. exists l'. split; [done|]. split; [done|].
  assert (∃ s1, (when (is_config cmd) (config_change_pending_ ::= true)) s = (Ok tt, s1) ∧
                log_fields (nd s1) = log_fields (nd s) ∧ env s1 = env s) as (s1 & H1 & F1 & E1).
  { destruct (is_config cmd); cbn [when]; by eexists. }
  rewrite (bind_ok _ _ _ _ _ H1). rewrite Hl, bind_result, bind_upd, (bind_ok _ _ _ _ _ (persist_eq _)).
  match goal with |- context [?m (mkN (persisted ?n) ?e)] =>
    set (s2 := mkN (persisted n) e); enough (keeps tame m) as K; [pose proof (K s2) as T; clear K|] end.
  2: { tame_auto. }
  unfold log_fields in F1. injection F1 as F1 F2 F3 F4 F5. destruct Hp as (P1 & P2 & P3 & P4 & P5).
  destruct T as [TL TP TS (ms & Hs & HM)].
  { split_and!; simpl; congruence. }
  { done. }
  split_and!; [done|done|apply TS; by left|]. exists ms. split; [|done]. rewrite Hs. simpl. congruence.
Qed.
End TameOps.

#[export] Hint Resolve tame_persist tame_this tame_become_follower tame_replicate_all
  tame_apply_committed tame_maybe_advance tame_request_vote tame_request_vote_reply
  tame_append_entries_reply tame_install_snapshot_reply tame_read_index_request
  tame_read_index_reply tame_read_index tame_on_timer tame_crash : tame.
