(* ===== verification/Replication.v ===== *)
(** * Replicated logs of a cluster

    The cluster of [Cluster] with clients that send well-formed requests and
    without snapshots.  There is one tree of entries ([LogTree]) such that
    every log, and the entries of every AppendEntries on the network, is a
    path of it: only the leader of a term creates entries of that term, and it
    creates each index once.  [log_matching] follows. *)

From S2P Require Import Prelude Codec DurableStore Types Wal KvStore RaftLog Rpc Env Node.
From S2P Require Import Election NodeVotes NodeElection Cluster LogTree NodeLog.

(** ** Messages and logs over a tree *)

(** The entries of the tree have indices up to [N], fit their encoding, and
    are of a term that had a leader. *)
Definition tree_ok (v : voting) (N : Z) (g : tree) : Prop :=
  ∀ t i pt cmd, g !! (t, i) = Some (pt, cmd) →
    1 <= i <= N ∧ is_u64 t ∧ record_fits cmd ∧ ∃ c, (t, c) ∈ av_elected v.

Record pmsg (g : tree) (N : Z) (m : Message) : Prop := {
  pm_is : head (msg_payload m) ≠ Some mt_InstallSnapshot;
  pm_cr cr : head (msg_payload m) = Some mt_ClientRequest →
    (Decode.ClientRequest (msg_payload m)).1 = Ok cr → record_fits (cr_cmd cr);
  pm_ae ae : head (msg_payload m) = Some mt_AppendEntries →
    (Decode.AppendEntries (msg_payload m)).1 = Ok ae →
    0 <= ae_prev_log_index ae ∧
    segment g (ae_prev_log_term ae) (ae_prev_log_index ae) (ae_entries ae) ∧
    (ae_prev_log_index ae = 0 → ae_prev_log_term ae = 0) ∧
    ae_prev_log_index ae + size_z (ae_entries ae) <= N;
}.

Lemma pmsg_mono g g' N N' m : g ⊆ g' → N <= N' → pmsg g N m → pmsg g' N' m.
Proof.
  intros Hg HN [H1 H2 H3]. split; [done..|]. intros ae Hh Hd.
  destruct (H3 ae Hh Hd) as (K1 & K2 & K3 & K4). split_and!; [done| |done|lia].
  by eapply segment_mono.
Qed.

(** A path of the tree from its root. *)
Record path (g : tree) (l : RaftLog) : Prop := {
  pa_wf : log_wf l;
  pa_base : base_index_ l = 0;
  pa_base_term : base_term_ l = 0;
  pa_chained : chained g l;
}.

Lemma linv_path g n : linv g n → path g (log_ n).
Proof. by intros [(_ & _ & _ & ? & ?) ? ? ?]. Qed.

Section Paths.
Context (v : voting) (N : Z) (g : tree) (HN : 0 <= N < 2 ^ 32) (Hg : tree_ok v N g).

Lemma path_entry l i e : path g l → entry_at l i = Some e → 1 <= i <= N ∧ entry_fits e.
Proof.
  intros [W _ _ C] He. destruct (C i e He) as (pt & _ & Hl).
  destruct (Hg _ _ _ _ Hl) as (Hi & Ht & Hc & _). pose proof (entry_at_Some l i e W He) as [_ Hidx].
  split; [done|]. split_and!; [done| |done]. rewrite Hidx. unfold is_u64. lia.
Qed.

Lemma path_last l : path g l → 0 <= Log.last_index l <= N.
Proof.
  intros P. pose proof (last_index_nonneg l). destruct (decide (Log.last_index l = 0)); [lia|].
  destruct (entry_at_is_Some l (Log.last_index l) (pa_wf _ _ P)) as [e He].
  { rewrite (pa_base _ _ P). lia. }
  pose proof (path_entry l _ e P He). lia.
Qed.

Lemma path_known l i t : path g l → known_term l i = Some t → 0 <= i <= N ∧ is_u64 t ∧ (i = 0 → t = 0).
Proof.
  intros P Hk. pose proof (known_term_Some l i t (pa_wf _ _ P) Hk) as Hi.
  pose proof (path_last l P). rewrite (pa_base _ _ P) in Hi. split; [lia|].
  destruct (decide (i = 0)) as [->|Hne].
  - rewrite <-(pa_base _ _ P), known_term_base, (pa_base_term _ _ P) in Hk. by injection Hk as <-.
  - rewrite known_term_entry in Hk by (rewrite (pa_base _ _ P); lia).
    apply fmap_Some in Hk as (e & He & ->). split; [|done].
    apply (path_entry l i e P He).
Qed.

Lemma path_fits l : path g l → log_fits l.
Proof.
  intros P. pose proof (path_last l P) as Hl. pose proof (pa_wf _ _ P) as W.
  rewrite last_index_wf, (pa_base _ _ P) in Hl by done.
  split_and!; [by rewrite (pa_base _ _ P)|by rewrite (pa_base_term _ _ P)|unfold is_u32; lia|].
  apply Forall_forall. intros e [k Hk]%list_elem_of_lookup_1.
  apply (path_entry l (Z.of_nat k + 1) e P). unfold entry_at. rewrite (pa_base _ _ P), decide_True by lia.
  rewrite <-Hk. f_equal. lia.
Qed.

(** Decoding an AppendEntries gives its previous entry and its entries back. *)
Lemma decode_ae m :
  is_u64 (ae_prev_log_index m) → is_u64 (ae_prev_log_term m) →
  is_u32 (size_z (ae_entries m)) → Forall entry_fits (ae_entries m) →
  ∃ ae, (Decode.AppendEntries (Encode.AppendEntries m)).1 = Ok ae ∧
    ae_prev_log_index ae = ae_prev_log_index m ∧ ae_prev_log_term ae = ae_prev_log_term m ∧
    ae_entries ae = ae_entries m.
Proof.
  intros H1 H2 H3 H4.
  set (m' := mkAppendEntries (wrap64 (ae_term m)) (wrap32 (ae_leader_id m)) (ae_prev_log_index m)
    (ae_prev_log_term m) (ae_entries m) (wrap64 (ae_leader_commit m))).
  assert (Encode.AppendEntries m = Encode.AppendEntries m') as ->.
  { unfold Encode.AppendEntries, m'. cbn [ae_term ae_leader_id ae_prev_log_index ae_prev_log_term
      ae_entries ae_leader_commit]. by rewrite !enc_u64_wrap, !enc_u32_wrap. }
  exists m'. split; [|done]. pose proof (reads_AppendEntries m' (conj (wrap64_range _)
    (conj (wrap32_range _) (conj H1 (conj H2 (conj (wrap64_range _) (conj H3 H4)))))) []) as Hr.
  rewrite app_nil_r in Hr. by rewrite Hr.
Qed.

(** What a node sends from its log is on the tree. *)
Lemma lmsg_pmsg l m : path g l → lmsg l m → pmsg g N m.
Proof.
  intros P [H1 H2 H3]. split; [done|done|]. intros ae Hh Hd.
  destruct (H3 Hh) as (ae0 & Hp & Hk & hi & Hhi & Hes). rewrite Hp in Hd.
  pose proof (path_known l _ _ P Hk) as (Hpi & Ht & Hz).
  pose proof (path_last l P) as Hlast. pose proof (pa_wf _ _ P) as W.
  assert (0 <= ae_prev_log_index ae0 < UINT64_MAX) as Hlo by (unfold UINT64_MAX; lia).
  assert (∀ k e, ae_entries ae0 !! k = Some e →
            entry_at l (ae_prev_log_index ae0 + 1 + Z.of_nat k) = Some e) as Hent.
  { intros k e. rewrite Hes, slice_lookup by done. cbv zeta.
    rewrite Z.max_l by (rewrite (pa_base _ _ P); lia). by case_decide. }
  assert (ae_prev_log_index ae0 + size_z (ae_entries ae0) <= N) as Hsize.
  { destruct (last (ae_entries ae0)) as [e|] eqn:Hl.
    - rewrite last_lookup in Hl. apply Hent, (path_entry l _ e P) in Hl as [Hi _].
      unfold size_z. lia.
    - apply last_None in Hl as ->. unfold size_z. simpl. lia. }
  destruct (decode_ae ae0) as (ae' & Hd' & E1 & E2 & E3).
  { unfold is_u64. lia. }
  { done. }
  { pose proof (size_z_nonneg (ae_entries ae0)). unfold is_u32. lia. }
  { apply Forall_forall. intros e [k Hk']%list_elem_of_lookup_1. apply (path_entry l _ e P (Hent k e Hk')). }
  rewrite Hd' in Hd. injection Hd as <-. rewrite E1, E2, E3. split_and!; [lia| |done|done].
  rewrite Hes. by apply slice_segment; [apply P|apply P|..].
Qed.
End Paths.

(** ** What an event does to a log *)

Section Events.
Context (v : voting) (N : Z) (g : tree) (HN : 0 <= N < 2 ^ 32) (Hg : tree_ok v N g).
Local Abbreviation st := (nstate trace_env).

(** The log stays or follows a leader, or a leader adds one entry. *)
Inductive outcome (s s' : st) : Prop :=
| OEvolves : evolves g s s' → outcome s s'
| OAppends cmd :
    role_ (nd s) = Leader → record_fits cmd →
    Log.append (mkLogEntry (current_term_ (nd s)) (Log.last_index (log_ (nd s)) + 1) cmd)
      (log_ (nd s)) = Ok (log_ (nd s')) →
    plain (nd s') → log_saved (nd s') →
    (∃ ms, sent (env s') = sent (env s) ++ ms ∧ Forall (lmsg (log_ (nd s'))) ms) →
    outcome s s'.

Lemma linv_last (s : st) : linv g (nd s) → 0 <= Log.last_index (log_ (nd s)) <= N.
Proof. intros I. apply (path_last v N g); [done..|by apply linv_path]. Qed.

Lemma tame_outcome {A} (m : M st A) s : linv g (nd s) → keeps tame m → outcome s (m s).2.
Proof. intros I T. apply OEvolves. by apply tame_evolves. Qed.

Lemma submit_outcome cid rid cmd cb (s : st) :
  linv g (nd s) → record_fits cmd → outcome s (Node.submit cid rid cmd cb s).2.
Proof.
  intros I Hc. pose proof (linv_last s I).
  destruct (submit_log cid rid cmd cb s) as [T|(l' & R & Hl & L & P & S & M)];
    [apply I..|unfold UINT64_MAX; lia| |].
  - apply OEvolves. by apply tame_evolves.
  - subst l'. by apply (OAppends s _ cmd).
Qed.

Lemma ignore_result {S A} (m : M S A) s : ((m;; mret tt) s).2 = (m s).2.
Proof. unfold mbind, M_bind. by destruct (m s) as [[] ?]. Qed.

Lemma client_request_outcome from cr (s : st) :
  linv g (nd s) → record_fits (cr_cmd cr) → outcome s (Node.handle_client_request from cr s).2.
Proof.
  intros I Hc. unfold Node.handle_client_request, Node.this. rewrite bind_rd. destruct (negb _).
  - apply (tame_outcome (Node.send _ _)); [done|]. by apply tame_send.
  - rewrite ignore_result. by apply submit_outcome.
Qed.

Lemma decoder_outcome {A} (d : M bytes A) p (k : A → M st unit) s :
  linv g (nd s) → (∀ a, (d p).1 = Ok a → outcome s (k a s).2) →
  outcome s ((run_decoder d p ≫= k) s).2.
Proof.
  intros I Hk. unfold mbind, M_bind, run_decoder. destruct (d p).1 as [a|e]; [by apply Hk|].
  apply OEvolves, tame_evolves; [done|reflexivity].
Qed.

Lemma dispatch_outcome from type rest p (s : st) m :
  linv g (nd s) → pmsg g N m → msg_payload m = p → p = type :: rest →
  outcome s (Node.dispatch from type p s).2.
Proof.
  intros I [Mis Mcr Mae] Hp Hpl. unfold Node.dispatch.
  assert (head (msg_payload m) = Some type) as Hh by (by rewrite Hp, Hpl).
  rewrite Hp in Mis, Mcr, Mae, Hh.
  repeat match goal with |- context [if type =? ?t then _ else _] =>
    destruct (Z.eqb_spec type t) as [->|_] end.
  all: try (apply decoder_outcome; [done|]; intros a Ha).
  all: try solve [apply tame_outcome; [done|eauto with tame nocore]].
  - destruct (Mae a Hh Ha) as (K1 & K2 & K3 & K4). apply OEvolves, append_entries_evolves; [done..|].
    unfold UINT64_MAX. lia.
  - apply client_request_outcome; eauto.
  - by destruct Mis.
Qed.

Lemma deliver_outcome m (s : st) :
  linv g (nd s) → pmsg g N m → outcome s (Node.on_message m s).2.
Proof.
  intros I Hm. unfold Node.on_message. rewrite bind_rd.
  destruct (negb (running_ (nd s))); [apply (tame_outcome (mret tt)); [done|apply (keeps_ret tame)]|].
  destruct (msg_payload m) as [|type rest] eqn:Hpl;
    [apply (tame_outcome (mret tt)); [done|apply (keeps_ret tame)]|].
  rewrite (try_catch_state _ (λ _, tt)). by eapply dispatch_outcome.
Qed.

Lemma started_outcome (s s0 s' : st) :
  linv g (nd s) → plain (nd s0) → log_store_ (nd s0) = log_store_ (nd s) →
  log_ (nd s0) = log_ (nd s) ∨ log_ (nd s0) = empty_log → sent (env s0) = sent (env s) →
  Node.start s0 = (Ok tt, s') → outcome s s'.
Proof.
  intros I Hp Hst Hl Hs Hrun. pose proof (linv_path g _ I) as Pa.
  destruct (start_log (log_ (nd s)) s0 s' Hp) as (L & P & S & ms & Hms & HM); try apply Pa; [|..|done|done|].
  { by apply (path_fits v N g). }
  { rewrite Hst. apply I. }
  apply OEvolves. split; [by left|]. split.
  - split; [done|rewrite L; apply I|done|rewrite L; apply I].
  - exists ms. rewrite <-Hs. split; [done|]. eapply Forall_impl; [done|]. by left.
Qed.

Lemma submit_event cid rid cmd tok :
  node_event (Submit cid rid cmd tok) = (Node.submit cid rid cmd (CbToken tok);; mret tt).
Proof. done. Qed.
Lemma read_event key tok : node_event (Read key tok) = (Node.read_index key tok;; mret tt).
Proof. done. Qed.
Lemma crash_event : node_event Crash = Node.crash.
Proof. done. Qed.

Lemma run_state {S A} (m : M S A) s r s' : m s = (r, s') → s' = (m s).2.
Proof. by intros ->. Qed.

(** The node as [restart] hands it to [start]. *)
Definition reset (n : RaftNode) : RaftNode :=
  n <| current_term_ := 0 |> <| voted_for_ := None |> <| log_ := empty_log |> <| kv_ := empty_kv |>.

Lemma restart_eq (s : st) : Node.restart s = Node.start (mkN (reset (nd s)) (env s)).
Proof. unfold Node.restart. by rewrite !bind_upd. Qed.

Lemma reset_plain n : plain n → plain (reset n).
Proof. destruct n. intros (P1 & P2 & P3 & P4 & P5). by split_and!. Qed.

Lemma restart_outcome (s s' : st) : linv g (nd s) → Node.restart s = (Ok tt, s') → outcome s s'.
Proof.
  intros I. rewrite restart_eq. apply started_outcome; [done| |by destruct (nd s)| |done].
  - apply reset_plain, I.
  - right. by destruct (nd s).
Qed.

Lemma event_outcome ev (s s' : st) :
  linv g (nd s) → (∀ m, ev = Deliver m → pmsg g N m) →
  (∀ cid rid cmd tok, ev = Submit cid rid cmd tok → record_fits cmd) →
  node_event ev s = (Ok tt, s') → outcome s s'.
Proof.
  intros I Hm Hc Hrun. destruct ev as [m|t|cid rid cmd tok|key tok| | |].
  - rewrite deliver_event in Hrun. apply run_state in Hrun as ->. apply deliver_outcome; auto.
  - rewrite fire_event in Hrun. apply run_state in Hrun as ->.
    apply tame_outcome; [done|apply tame_on_timer].
  - rewrite submit_event in Hrun. apply run_state in Hrun as ->. rewrite ignore_result.
    eapply submit_outcome; eauto.
  - rewrite read_event in Hrun. apply run_state in Hrun as ->. rewrite ignore_result.
    apply tame_outcome; [done|apply tame_read_index].
  - rewrite crash_event in Hrun. apply run_state in Hrun as ->.
    apply tame_outcome; [done|apply tame_crash].
  - rewrite restart_event in Hrun. by apply restart_outcome.
  - rewrite start_event in Hrun. eapply started_outcome; [done|apply I|done|by left|done|exact Hrun].
Qed.
End Events.

(** ** The invariant of the cluster *)

(** A leader has every entry of its term. *)
Definition leader_fresh (g : tree) (n : RaftNode) : Prop :=
  role_ n = Leader → ∀ i x, g !! (current_term_ n, i) = Some x → i <= Log.last_index (log_ n).

(** Clients submit commands that fit a log record, and send requests that fit
    their encoding; nobody else puts messages on the network. *)
Definition client_action (a : action) : Prop :=
  match a with
  | At _ (Submit _ _ cmd _) _ _ => record_fits cmd
  | At _ _ _ _ => True
  | Inject m => ∃ cr, rpc_fits (RpcClientRequest cr) ∧ msg_payload m = Encode.ClientRequest cr
  end.

Section Invariant.
Context (members : gset NodeId).

Record rinv (c : cluster) (v : voting) (g : tree) (N : Z) : Prop := {
  ri_cluster : cinv members c v;
  ri_elected : elected_inv v;
  ri_tree : tree_ok v N g;
  ri_node : ∀ i n, cl_nodes c !! i = Some n → linv g n ∧ leader_fresh g n;
  ri_net : Forall (pmsg g N) (cl_net c);
}.

Lemma tree_ok_mono v v' N N' g :
  av_elected v ⊆ av_elected v' → N <= N' → tree_ok v N g → tree_ok v' N' g.
Proof.
  intros He HN Hg t i pt cmd Hl. destruct (Hg _ _ _ _ Hl) as (? & ? & ? & c & ?).
  split_and!; [lia..|done|done|]. exists c. set_solver.
Qed.

Lemma known_term_last l : log_wf l → is_Some (known_term l (Log.last_index l)).
Proof.
  intros W. pose proof (last_index_wf l W) as Hl. pose proof (size_z_nonneg (entries_ l)).
  destruct (decide (Log.last_index l = base_index_ l)) as [->|Hne].
  - rewrite known_term_base. eauto.
  - rewrite known_term_entry by lia. destruct (entry_at_is_Some l (Log.last_index l) W) as [e ->]; [lia|].
    simpl. eauto.
Qed.

(** A leader's new entry, put on the tree. *)
Lemma grow_linv g n n' pt cmd :
  linv g n → plain n' → log_saved n' →
  g !! (current_term_ n, Log.last_index (log_ n) + 1) = None →
  Log.append (mkLogEntry (current_term_ n) (Log.last_index (log_ n) + 1) cmd) (log_ n) = Ok (log_ n') →
  known_term (log_ n) (Log.last_index (log_ n)) = Some pt →
  linv (<[(current_term_ n, Log.last_index (log_ n) + 1) := (pt, cmd)]> g) n' ∧
  Log.last_index (log_ n') = Log.last_index (log_ n) + 1.
Proof.
  intros [P W S C] P' S' Hfresh Ha Hpt. pose proof (last_index_nonneg (log_ n)).
  destruct (append_ok _ _ _ W Ha) as (W' & Hb & Ht & Hl & Hi & He); [simpl; lia|].
  split; [|done]. split; [done..|].
  eapply (chained_append _ (log_ n)); [done|done| |done|done|done|done|exact Hpt|].
  - eapply chained_mono; [|done]. by apply insert_subseteq.
  - apply lookup_insert_eq.
Qed.

(** A leader after an event led before, or its term is new. *)
Lemma leader_before c c' v v' i0 i n n' :
  cinv members c v → cinv members c' v' → elected_inv v → vsteps members i0 v v' →
  cl_nodes c !! i = Some n → cl_nodes c' !! i = Some n' → role_ n' = Leader →
  (role_ n = Leader ∧ current_term_ n = current_term_ n') ∨
  ∀ d, (current_term_ n', d) ∉ av_elected v.
Proof.
  intros C C' El V Hn Hn' Hr. destruct (ci_node _ _ _ C i n Hn) as [I _], (ci_node _ _ _ C' i n' Hn') as [I' _].
  assert ((a_role (absn n) = ALeader ∧ a_term (absn n) = a_term (absn n')) ∨
          ∀ d, (a_term (absn n'), d) ∉ av_elected v) as K.
  { assert (a_role (absn n') = ALeader) as Hr' by (unfold absn, absrole; by rewrite Hr).
    destruct (decide (i = i0)) as [->|Hne].
    - eapply (new_leader members i0 v v'); eauto; [apply C|apply I|apply I'].
    - left. destruct (vsteps_frame members i0 v v' V) as (Hf & _).
      pose proof (ni_abs _ _ _ _ I') as Ha. rewrite Hf, (ni_abs _ _ _ _ I) in Ha by done.
      injection Ha as H1 H2 H3. unfold absn in *. simpl in *. split; congruence. }
  destruct K as [[K1 K2]|K]; [left|by right]. split; [|done].
  unfold absn, absrole in K1. simpl in K1. by destruct (role_ n).
Qed.

(** Freshness at the acting node, for the old entries of the tree. *)
Lemma fresh_old c c' v v' g N i0 i n n' :
  rinv c v g N → cinv members c' v' → vsteps members i0 v v' →
  cl_nodes c !! i = Some n → cl_nodes c' !! i = Some n' →
  Log.last_index (log_ n) <= Log.last_index (log_ n') → leader_fresh g n'.
Proof.
  intros R C' V Hn Hn' Hl Hr j x Hj.
  destruct (leader_before c c' v v' i0 i n n') as [[Hr0 Ht]|Hno]; [apply R|done|apply R|done..| |].
  - destruct (ri_node _ _ _ _ R i n Hn) as [_ Hf]. etrans; [|exact Hl]. apply (Hf Hr0 j x). by rewrite Ht.
  - destruct x as [pt cmd]. destruct (ri_tree _ _ _ _ R _ _ _ _ Hj) as (_ & _ & _ & d & Hd).
    by destruct (Hno d).
Qed.

(** Freshness at the other nodes when a leader adds an entry. *)
Lemma fresh_other c v g N i j n m pt cmd :
  rinv c v g N → cl_nodes c !! i = Some n → cl_nodes c !! j = Some m → i ≠ j → role_ n = Leader →
  leader_fresh (<[(current_term_ n, Log.last_index (log_ n) + 1) := (pt, cmd)]> g) m.
Proof.
  intros R Hn Hm Hne Hr Hrm k x. destruct (decide (current_term_ m = current_term_ n)) as [Ht|Ht].
  - destruct Hne. apply (election_unique members v (current_term_ n)); [apply R|..];
      apply (leads_elected members c v); try apply R; eexists; eauto.
  - rewrite lookup_insert_ne by congruence. by apply (ri_node _ _ _ _ R j m Hm).
Qed.

(** The parts of an executed action at a node. *)
Lemma act_at_inv i ev ids rnd c c' :
  act (At i ev ids rnd) c = Some c' →
  ∃ n s', cl_nodes c !! i = Some n ∧ node_event ev (mkN n (mkTrace [] ids rnd)) = (Ok tt, s') ∧
    (∀ m, ev = Deliver m → m ∈ cl_net c) ∧
    c' = mkCluster (<[i := nd s']> (cl_nodes c)) (cl_net c ++ sent (env s')).
Proof.
  simpl. intros (n & Hi & Hact)%bind_Some.
  destruct (deliverable c i ev && (current_term_ n <? UINT64_MAX)) eqn:Hd; [|done].
  apply andb_true_iff in Hd as [Hd _]. simpl in Hact.
  destruct (node_event ev _) as [[[]|e] s'] eqn:Hrun; [|done].
  case_bool_decide; [|done]. injection Hact as <-. exists n, s'. split_and!; [done..| |done].
  intros m ->. simpl in Hd. by apply andb_true_iff in Hd as [?%bool_decide_eq_true _].
Qed.

(** All the invariant asks for after node [i] made a step from tree [g] to [g']. *)
Lemma rinv_update c v g N i n s' v' g' :
  rinv c v g N → cl_nodes c !! i = Some n → g ⊆ g' →
  let c' := mkCluster (<[i := nd s']> (cl_nodes c)) (cl_net c ++ sent (env s')) in
  cinv members c' v' → elected_inv v' → tree_ok v' (N + 1) g' →
  linv g' (nd s') → leader_fresh g' (nd s') → Forall (pmsg g' (N + 1)) (sent (env s')) →
  (∀ j m, j ≠ i → cl_nodes c !! j = Some m → leader_fresh g' m) → rinv c' v' g' (N + 1).
Proof.
  intros R Hi Hsub c' C' El' T' I' F' M' Fo. split; [done..| |].
  - intros j m. simpl. destruct (decide (j = i)) as [->|Hj].
    + rewrite lookup_insert_eq. by intros [= <-].
    + rewrite lookup_insert_ne by done. intros Hm. split; [|by eapply Fo].
      destruct (ri_node _ _ _ _ R j m Hm) as [[] _]. split; [done..|]. by eapply chained_mono.
  - apply Forall_app. split; [|done]. eapply Forall_impl; [apply (ri_net _ _ _ _ R)|]. intros m. apply pmsg_mono; [done|lia].
Qed.

Lemma evolves_step c v g N i n s s' v' i0 :
  rinv c v g N → 0 <= N < 2 ^ 32 - 1 → cl_nodes c !! i = Some n → nd s = n → sent (env s) = [] →
  let c' := mkCluster (<[i := nd s']> (cl_nodes c)) (cl_net c ++ sent (env s')) in
  cinv members c' v' → vsteps members i0 v v' → evolves g s s' → rinv c' v' g (N + 1).
Proof.
  intros R HN Hi <- Hs c' C' V (Hlog & I' & ms & Hms & HM).
  destruct (vsteps_frame members i0 v v' V) as (_ & _ & Hel).
  pose proof (ri_node _ _ _ _ R i _ Hi) as [I _].
  assert (tree_ok v' (N + 1) g) as T' by (eapply tree_ok_mono; [done| |apply R]; lia).
  apply (rinv_update c v g N i (nd s)); try done.
  - eapply vsteps_elected; [done|apply R].
  - intros Hr. destruct Hlog as [Hlog|Hf]; [|congruence]. revert Hr.
    apply (fresh_old c c' v v' g N i0 i (nd s)); try done; [simpl; by rewrite lookup_insert_eq|].
    rewrite Hlog. lia.
  - rewrite Hs, app_nil_l in Hms. rewrite Hms. eapply Forall_impl; [done|]. intros m [Hm|Hm];
      (eapply (lmsg_pmsg v'); [lia|done| |exact Hm]); by apply linv_path.
  - intros j m _ Hm. by apply (ri_node _ _ _ _ R j m Hm).
Qed.

Lemma appends_step c v g N i n s s' v' i0 cmd :
  rinv c v g N → 0 <= N < 2 ^ 32 - 1 → cl_nodes c !! i = Some n → nd s = n → sent (env s) = [] →
  let c' := mkCluster (<[i := nd s']> (cl_nodes c)) (cl_net c ++ sent (env s')) in
  cinv members c' v' → vsteps members i0 v v' →
  role_ n = Leader → record_fits cmd →
  Log.append (mkLogEntry (current_term_ n) (Log.last_index (log_ n) + 1) cmd) (log_ n) = Ok (log_ (nd s')) →
  plain (nd s') → log_saved (nd s') →
  (∃ ms, sent (env s') = sent (env s) ++ ms ∧ Forall (lmsg (log_ (nd s'))) ms) →
  ∃ g', g ⊆ g' ∧ rinv c' v' g' (N + 1).
Proof.
  intros R HN Hi Hsn Hs c' C' V Hr Hfit Ha Hp Hsv (ms & Hms & HM).
  destruct (vsteps_frame members i0 v v' V) as (_ & _ & Hel).
  pose proof (ri_node _ _ _ _ R i n Hi) as [I Hf].
  destruct (known_term_last (log_ n) (li_wf _ _ I)) as [pt Hpt].
  pose proof (path_last v N g ltac:(lia) (ri_tree _ _ _ _ R) (log_ n) (linv_path g n I)) as Hlast.
  assert (g !! (current_term_ n, Log.last_index (log_ n) + 1) = None) as Hfresh.
  { apply eq_None_not_Some. intros [x Hx]. specialize (Hf Hr _ _ Hx). lia. }
  destruct (grow_linv g n (nd s') pt cmd I Hp Hsv Hfresh Ha Hpt) as [I' Hl'].
  set (g' := <[_ := _]> g) in *. assert (g ⊆ g') as Hsub by (by apply insert_subseteq).
  exists g'. split; [done|].
  assert (tree_ok v' (N + 1) g') as T'.
  { intros t k pt' cmd'. unfold g'.
    destruct (decide ((t, k) = (current_term_ n, Log.last_index (log_ n) + 1))) as [[= -> ->]|Hne].
    - rewrite lookup_insert_eq. intros [= <- <-]. split_and!; [lia..| |done|].
      + apply (ni_meta _ _ _ _ (proj1 (ci_node _ _ _ (ri_cluster _ _ _ _ R) i n Hi))).
      + exists i. apply Hel, (leads_elected members c); [apply R|]. by exists n.
    - rewrite lookup_insert_ne by congruence. intros Hk.
      apply (tree_ok_mono v v' N (N + 1) g Hel ltac:(lia) (ri_tree _ _ _ _ R) _ _ _ _ Hk). }
  apply (rinv_update c v g N i n); try done.
  - eapply vsteps_elected; [done|apply R].
  - intros Hr' k x. unfold g'.
    destruct (decide ((current_term_ (nd s'), k) = (current_term_ n, Log.last_index (log_ n) + 1)))
      as [[= _ ->]|Hne]; [by rewrite Hl'|].
    rewrite lookup_insert_ne by congruence.
    apply (fresh_old c c' v v' g N i0 i n); try done; [simpl; by rewrite lookup_insert_eq|lia].
  - rewrite Hs, app_nil_l in Hms. rewrite Hms. eapply Forall_impl; [done|]. intros m Hm.
    eapply (lmsg_pmsg v'); [lia|done| |exact Hm]. by apply linv_path.
  - intros j m Hj Hm. by apply (fresh_other c v g N i j n m).
Qed.

Lemma client_pmsg g N m cr :
  rpc_fits (RpcClientRequest cr) → msg_payload m = Encode.ClientRequest cr → pmsg g N m.
Proof.
  intros Hf Hp. split; rewrite Hp; [done| |done]. intros cr' _ Hd.
  pose proof (reads_ClientRequest cr Hf []) as Hr. rewrite app_nil_r in Hr. rewrite Hr in Hd.
  injection Hd as <-. apply Hf.
Qed.

Lemma act_rinv a c c' v g N :
  rinv c v g N → 0 <= N < 2 ^ 32 - 1 → client_action a → act a c = Some c' →
  ∃ v' g', rinv c' v' g' (N + 1) ∧ g ⊆ g' ∧ ∃ i0, vsteps members i0 v v'.
Proof.
  intros R HN Hcl Hact. destruct (act_sim members a c c' v (ri_cluster _ _ _ _ R) Hact) as (v' & C' & i0 & V).
  destruct a as [i ev ids rnd|m].
  - apply act_at_inv in Hact as (n & s' & Hi & Hrun & Hdel & ->).
    pose proof (ri_node _ _ _ _ R i n Hi) as [I _].
    destruct (event_outcome v N g ltac:(lia) (ri_tree _ _ _ _ R) ev (mkN n (mkTrace [] ids rnd)) s')
      as [Hev|cmd Hr Hfit Ha Hp Hsv Hms]; try done.
    { intros m ->. pose proof (ri_net _ _ _ _ R) as Hnet. rewrite Forall_forall in Hnet. auto. }
    { intros cid rid cmd tok ->. done. }
    + exists v', g. split; [|by eauto]. by apply (evolves_step c v g N i n (mkN n (mkTrace [] ids rnd)) s' v' i0).
    + destruct (appends_step c v g N i n (mkN n (mkTrace [] ids rnd)) s' v' i0 cmd) as (g' & Hsub & R');
        try done. exists v', g'. eauto.
  - simpl in Hact. destruct (_ && _); [|done]. injection Hact as <-. destruct Hcl as (cr & Hfit & Hp).
    destruct (vsteps_frame members i0 v v' V) as (_ & _ & Hel).
    exists v', g. split; [|by eauto]. split; [done| | | |].
    + eapply vsteps_elected; [done|apply R].
    + eapply tree_ok_mono; [done| |apply R]. lia.
    + apply R.
    + apply Forall_app. split.
      * eapply Forall_impl; [apply (ri_net _ _ _ _ R)|]. intros x. apply pmsg_mono; [done|lia].
      * apply Forall_singleton. by eapply client_pmsg.
Qed.

Lemma run_rinv l c c' v g N :
  rinv c v g N → 0 <= N → N + Z.of_nat (length l) < 2 ^ 32 → Forall client_action l →
  run_cluster l c = Some c' →
  ∃ v' g', rinv c' v' g' (N + Z.of_nat (length l)) ∧ g ⊆ g'.
Proof.
  revert c v g N. induction l as [|a l IH]; intros c v g N R HN Hlen Hcl; simpl.
  - intros [= <-]. exists v, g. by rewrite Z.add_0_r.
  - apply Forall_cons in Hcl as [Ha Hcl]. intros (c1 & Hact & Hrun)%bind_Some. simpl in Hlen.
    destruct (act_rinv a c c1 v g N R ltac:(lia) Ha Hact) as (v1 & g1 & R1 & Hg1 & _).
    destruct (IH c1 v1 g1 (N + 1) R1 ltac:(lia) ltac:(lia) Hcl Hrun) as (v' & g' & R' & Hg').
    exists v', g'. split; [|by etrans].
    by replace (N + Z.of_nat (S (length l))) with (N + 1 + Z.of_nat (length l)) by lia.
Qed.
End Invariant.

(** ** Leaders only append *)

(** [l'] is [l] with entries of term [t] added at the end. *)
Definition grown (t : Term) (l l' : RaftLog) : Prop :=
  ∃ new, entries_ l' = entries_ l ++ new ∧ Forall (λ e, e_term e = t) new.

#[export] Instance grown_preorder t : PreOrder (grown t).
Proof.
  split.
  - intros l. exists []. by rewrite app_nil_r.
  - intros l1 l2 l3 (n1 & E1 & F1) (n2 & E2 & F2). exists (n1 ++ n2).
    rewrite E2, E1, app_assoc. split; [done|by apply Forall_app].
Qed.

Lemma append_grown e l l' : Log.append e l = Ok l' → grown (e_term e) l l'.
Proof.
  unfold Log.append. destruct (_ =? _); [|done]. intros [= <-]. exists [e]. split; [done|].
  by apply Forall_singleton.
Qed.

Section LeaderLog.
Context (members : gset NodeId) (i : NodeId) (t : Term) (old : RaftLog).

(** Node [i], leader of term [t] with log [old] at some time, later on: it
    still leads and has that log with entries of its term added, or it does not
    lead in [t] any more. *)
Definition led (v : voting) (n : RaftNode) : Prop :=
  (t, i) ∈ av_elected v ∧
  ((role_ n = Leader ∧ current_term_ n = t ∧ grown t old (log_ n)) ∨
   (t <= current_term_ n ∧ (current_term_ n = t → role_ n ≠ Leader))).

(** The log of a node that leads before and after an action only grew. *)
Lemma act_log_grown a c c' v g N n n' :
  rinv members c v g N → 0 <= N < 2 ^ 32 - 1 → client_action a → act a c = Some c' →
  cl_nodes c !! i = Some n → cl_nodes c' !! i = Some n' → role_ n' = Leader →
  grown (current_term_ n) (log_ n) (log_ n').
Proof.
  intros R HN Hcl Hact Hn Hn' Hr'. destruct a as [j ev ids rnd|m].
  - apply act_at_inv in Hact as (nj & s' & Hj & Hrun & Hdel & ->). simpl in Hn'.
    destruct (decide (j = i)) as [->|Hne]; [|rewrite lookup_insert_ne in Hn' by done; by simplify_eq].
    rewrite lookup_insert_eq in Hn'. injection Hn' as <-. assert (nj = n) as -> by congruence.
    pose proof (ri_node _ _ _ _ _ R i n Hn) as [I _].
    destruct (event_outcome v N g ltac:(lia) (ri_tree _ _ _ _ _ R) ev (mkN n (mkTrace [] ids rnd)) s')
      as [[[Hl|Hf] _]|cmd _ _ Ha _ _ _]; try done.
    + intros m ->. pose proof (ri_net _ _ _ _ _ R) as Hnet. rewrite Forall_forall in Hnet. auto.
    + by intros cid rid cmd tok ->.
    + by rewrite Hl.
    + congruence.
    + exact (append_grown _ _ _ Ha).
  - simpl in Hact. destruct (_ && _); [|done]. injection Hact as <-. simpl in Hn'. by simplify_eq.
Qed.

Lemma act_led a c c' v v' i0 g N n n' :
  rinv members c v g N → cinv members c' v' → vsteps members i0 v v' →
  0 <= N < 2 ^ 32 - 1 → client_action a → act a c = Some c' →
  cl_nodes c !! i = Some n → cl_nodes c' !! i = Some n' → led v n → led v' n'.
Proof.
  intros R C' V HN Hcl Hact Hn Hn' [Hel Hor].
  destruct (vsteps_frame members i0 v v' V) as (Hf & _ & Hsub). split; [by apply Hsub|].
  destruct (ci_node _ _ _ (ri_cluster _ _ _ _ _ R) i n Hn) as [I _], (ci_node _ _ _ C' i n' Hn') as [I' _].
  assert (current_term_ n <= current_term_ n') as Hmono.
  { destruct (decide (i = i0)) as [->|Hne].
    - destruct (vsteps_term members i0 v v' _ V (ni_abs _ _ _ _ I)) as (a' & Ha' & Hle).
      rewrite (ni_abs _ _ _ _ I') in Ha'. by injection Ha' as <-.
    - pose proof (ni_abs _ _ _ _ I') as Ha. rewrite Hf, (ni_abs _ _ _ _ I) in Ha by done.
      injection Ha as H1 _ _. lia. }
  assert (t <= current_term_ n) as Ht by (destruct Hor as [(_ & -> & _)|[? _]]; lia).
  destruct (decide (role_ n' = Leader ∧ current_term_ n' = t)) as [[Hr' Ht']|Hno].
  2: { right. split; [lia|]. naive_solver. }
  destruct (leader_before members c c' v v' i0 i n n') as [[Hr Heq]|Hnew]; [apply R|done|apply R|done..| |].
  - left. split_and!; [done..|]. destruct Hor as [(_ & _ & Hp)|[_ Hnl]]; [|naive_solver congruence].
    etrans; [exact Hp|]. replace t with (current_term_ n) by congruence. by eapply act_log_grown.
  - destruct (Hnew i). by rewrite Ht'.
Qed.

Lemma act_node a c c' n :
  cl_nodes c !! i = Some n → act a c = Some c' → ∃ n', cl_nodes c' !! i = Some n'.
Proof.
  intros Hn. destruct a as [j ev ids rnd|m].
  - intros (nj & s' & Hj & _ & _ & ->)%act_at_inv. simpl. destruct (decide (j = i)) as [->|Hne].
    + rewrite lookup_insert_eq. eauto.
    + rewrite lookup_insert_ne by done. eauto.
  - simpl. destruct (_ && _); [|done]. intros [= <-]. eauto.
Qed.

Lemma run_led l c c' v g N n n' :
  rinv members c v g N → 0 <= N → N + Z.of_nat (length l) < 2 ^ 32 → Forall client_action l →
  run_cluster l c = Some c' → cl_nodes c !! i = Some n → cl_nodes c' !! i = Some n' →
  led v n → ∃ v', led v' n'.
Proof.
  revert c v g N n. induction l as [|a l IH]; intros c v g N n R HN Hlen Hcl Hrun Hn Hn' Hled; simpl in Hrun.
  - injection Hrun as <-. simplify_eq. by exists v.
  - apply Forall_cons in Hcl as [Ha Hcl]. apply bind_Some in Hrun as (c1 & Hact & Hrun). simpl in Hlen.
    destruct (act_rinv members a c c1 v g N R ltac:(lia) Ha Hact) as (v1 & g1 & R1 & _ & i0 & V).
    destruct (act_node a c c1 n Hn Hact) as [n1 Hn1].
    assert (led v1 n1) as Hled1.
    { eapply (act_led a c c1 v v1 i0 g N n n1); try done; [apply R1|lia]. }
    eapply (IH c1 v1 g1 (N + 1) n1); try done; lia.
Qed.
End LeaderLog.

(** ** Properties *)

Lemma init_rinv ids cfg :
  NoDup ids → Forall is_u32 ids → snapshot_threshold cfg = 0 →
  ∃ v, rinv (list_to_set ids) (init_cluster ids cfg) v ∅ 0.
Proof.
  intros Hnd Hu Hcfg. eexists. split; [by apply init_cinv|apply elected_inv_init|done| |constructor].
  intros i n Hn. apply init_lookup in Hn as [_ ->]. split; [|done]. split.
  - by split_and!.
  - split; simpl; [lia|vm_compute; done|done].
  - by right.
  - intros k e He. apply entry_at_Some in He as [Hk _]; [|split; simpl; [lia|vm_compute; done|done]].
    simpl in Hk. change (Log.last_index empty_log) with 0 in Hk. lia.
Qed.

(** C3: log matching.  In a cluster with fixed membership and no snapshots,
    after any execution - with messages lost, duplicated, delayed and
    reordered, nodes crashing and restarting - if the logs of two nodes have an
    entry of the same term at the same index, the logs are identical up to
    that index. *)
Theorem log_matching (ids : list NodeId) (cfg : RaftConfig) (tr : list action) (c : cluster)
    (i j : NodeId) (n m : RaftNode) (k : Index) (e e' : LogEntry)
    (Hids : NoDup ids) (Hu32 : Forall is_u32 ids) (Hcfg : snapshot_threshold cfg = 0)
    (Hclients : Forall client_action tr) (Hlen : Z.of_nat (length tr) < 2 ^ 32)
    (Hrun : run_cluster tr (init_cluster ids cfg) = Some c)
    (Hi : cl_nodes c !! i = Some n) (Hj : cl_nodes c !! j = Some m)
    (Hn : entry_at (log_ n) k = Some e) (Hm : entry_at (log_ m) k = Some e')
    (Hterm : e_term e = e_term e') :
  ∀ k', k' <= k → entry_at (log_ n) k' = entry_at (log_ m) k'.
Proof.
  destruct (init_rinv ids cfg Hids Hu32 Hcfg) as [v0 R0].
  destruct (run_rinv _ tr _ c v0 ∅ 0 R0 ltac:(lia) ltac:(lia) Hclients Hrun) as (v & g & R & _).
  destruct (ri_node _ _ _ _ _ R i n Hi) as [In _], (ri_node _ _ _ _ _ R j m Hj) as [Im _].
  pose proof (linv_path g n In) as [Wn Bn _ Cn]. pose proof (linv_path g m Im) as [Wm Bm _ Cm].
  intros k' Hk. destruct (decide (0 < k')).
  - by apply (chained_match g (log_ n) (log_ m) k e e'); rewrite ?Bn, ?Bm.
  - unfold entry_at. by rewrite !decide_False by (rewrite ?Bn, ?Bm; lia).
Qed.

(** C4: leaders only append.  In a cluster with fixed membership and no
    snapshots: if a node leads in a term at two points of an execution, its log
    at the second point is its log at the first with entries of that term added
    at the end; while it leads it neither removes nor replaces entries, and adds
    none of another term. *)
Theorem leader_append_only (ids : list NodeId) (cfg : RaftConfig) (tr1 tr2 : list action)
    (c1 c2 : cluster) (i : NodeId) (n1 n2 : RaftNode)
    (Hids : NoDup ids) (Hu32 : Forall is_u32 ids) (Hcfg : snapshot_threshold cfg = 0)
    (Hclients : Forall client_action (tr1 ++ tr2)) (Hlen : Z.of_nat (length (tr1 ++ tr2)) < 2 ^ 32)
    (Hrun1 : run_cluster tr1 (init_cluster ids cfg) = Some c1)
    (Hrun2 : run_cluster tr2 c1 = Some c2)
    (H1 : cl_nodes c1 !! i = Some n1) (H2 : cl_nodes c2 !! i = Some n2)
    (Hlead1 : role_ n1 = Leader) (Hlead2 : role_ n2 = Leader)
    (Hterm : current_term_ n2 = current_term_ n1) :
  ∃ new, entries_ (log_ n2) = entries_ (log_ n1) ++ new ∧
    Forall (λ e, e_term e = current_term_ n1) new.
Proof.
  rewrite length_app in Hlen. apply Forall_app in Hclients as [Hcl1 Hcl2].
  destruct (init_rinv ids cfg Hids Hu32 Hcfg) as [v0 R0].
  destruct (run_rinv _ tr1 _ c1 v0 ∅ 0 R0 ltac:(lia) ltac:(lia) Hcl1 Hrun1) as (v & g & R & _).
  destruct (run_led (list_to_set ids) i (current_term_ n1) (log_ n1) tr2 c1 c2 v g
    (0 + Z.of_nat (length tr1)) n1 n2 R) as (v' & _ & Hor); try done; [lia..| |].
  - split; [|left; by split_and!]. apply (leads_elected (list_to_set ids) c1); [apply R|]. by exists n1.
  - destruct Hor as [(_ & _ & Hp)|[_ Hno]]; [done|]. by destruct (Hno Hterm).
Qed.

(** A run of three nodes: node 1 is elected in term 1, takes two commands from
    clients and replicates the first to node 2, which crashes and restarts. *)
Definition demo_entry (i : Index) (v : string) : LogEntry := mkLogEntry 1 i (CmdPut "x" v).
Definition demo_ae (to : NodeId) : Message :=
  mkMessage 1 to (Encode.AppendEntries (mkAppendEntries 1 1 0 0 [demo_entry 1 "a"] 0)).
Definition demo_submit : list action :=
  demo_election ++ [ At 1 (Submit 1000 1 (CmdPut "x" "a") 7) 5 [] ].
Definition demo_replicate : list action :=
  [ At 2 (Deliver (demo_ae 2)) 5 [230000]; At 1 (Submit 1001 1 (CmdPut "x" "b") 8) 6 [];
    At 2 Crash 7 []; At 2 Restart 8 [240000] ].

Lemma demo_fits v : (String.length v <= 1)%nat → record_fits (CmdPut "x" v).
Proof.
  intros Hv. destruct v as [|a [|b v]]; [..|simpl in Hv; lia]; (split; [split|]);
    vm_compute; split; congruence.
Qed.

Lemma demo_clients : Forall client_action (demo_submit ++ demo_replicate).
Proof.
  repeat (apply Forall_cons_2; [first [exact I | apply demo_fits; simpl; lia]|]). apply Forall_nil_2.
Qed.

Lemma log_matching_witness :
  ∃ c n m, run_cluster (demo_submit ++ demo_replicate) (init_cluster [1; 2; 3] default_config) = Some c ∧
    cl_nodes c !! 1 = Some n ∧ cl_nodes c !! 2 = Some m ∧ entry_at (log_ m) 1 = Some (demo_entry 1 "a") ∧
    ∀ k, k <= 1 → entry_at (log_ n) k = entry_at (log_ m) k.
Proof.
  assert (∃ c n m, run_cluster (demo_submit ++ demo_replicate) (init_cluster [1; 2; 3] default_config) = Some c ∧
    cl_nodes c !! 1 = Some n ∧ cl_nodes c !! 2 = Some m ∧
    entry_at (log_ n) 1 = Some (demo_entry 1 "a") ∧ entry_at (log_ m) 1 = Some (demo_entry 1 "a"))
    as (c & n & m & Hrun & Hn & Hm & En & Em).
  { eexists _, _, _. split_and!; [vm_compute; reflexivity..| |]; reflexivity. }
  exists c, n, m. split_and!; [exact Hrun|exact Hn|exact Hm|exact Em|].
  apply (log_matching [1; 2; 3] default_config _ c 1 2 n m 1 (demo_entry 1 "a") (demo_entry 1 "a")
    demo_nodup demo_u32 eq_refl demo_clients ltac:(done) Hrun Hn Hm En Em eq_refl).
Defined.

Lemma leader_append_only_witness :
  ∃ c1 c2 n1 n2, run_cluster demo_submit (init_cluster [1; 2; 3] default_config) = Some c1 ∧
    run_cluster demo_replicate c1 = Some c2 ∧ cl_nodes c1 !! 1 = Some n1 ∧ cl_nodes c2 !! 1 = Some n2 ∧
    entries_ (log_ n1) = [demo_entry 1 "a"] ∧
    ∃ new, entries_ (log_ n2) = entries_ (log_ n1) ++ new ∧ Forall (λ e, e_term e = current_term_ n1) new.
Proof.
  assert (∃ c1 c2 n1 n2, run_cluster demo_submit (init_cluster [1; 2; 3] default_config) = Some c1 ∧
    run_cluster demo_replicate c1 = Some c2 ∧ cl_nodes c1 !! 1 = Some n1 ∧ cl_nodes c2 !! 1 = Some n2 ∧
    role_ n1 = Leader ∧ role_ n2 = Leader ∧ current_term_ n2 = current_term_ n1 ∧
    entries_ (log_ n1) = [demo_entry 1 "a"])
    as (c1 & c2 & n1 & n2 & Hr1 & Hr2 & Hn1 & Hn2 & L1 & L2 & Ht & He).
  { eexists _, _, _, _. split_and!; [vm_compute; reflexivity..| | | |]; reflexivity. }
  exists c1, c2, n1, n2. split_and!; [exact Hr1|exact Hr2|exact Hn1|exact Hn2|exact He|].
  apply (leader_append_only [1; 2; 3] default_config demo_submit demo_replicate c1 c2 1 n1 n2
    demo_nodup demo_u32 eq_refl demo_clients ltac:(done) Hr1 Hr2 Hn1 Hn2 L1 L2 Ht).
Defined.
