(* ===== verification/NodeApply.v ===== *)
(** * Applying committed entries, serving reads, advancing the commit index

    [apply_committed_entries], [drain_pending_reads] and
    [maybe_advance_commit_index] of [RaftNode] as functions: the state they
    reach and the effects they have, on the tracing environment. *)

From S2P Require Import Prelude Codec DurableStore Types Wal KvStore RaftLog Rpc Env Node.
From S2P Require Import NodeVotes NodeElection LogTree NodeLog.

Definition add_effects (es : list effect) (e : trace_env) : trace_env :=
  mkTrace (tr_effects e ++ es) (tr_next_id e) (tr_random e).

Lemma add_effects_nil e : add_effects [] e = e.
Proof. destruct e. unfold add_effects. simpl. by rewrite app_nil_r. Qed.

Lemma add_effects_app es1 es2 e : add_effects es2 (add_effects es1 e) = add_effects (es1 ++ es2) e.
Proof. unfold add_effects. simpl. by rewrite app_assoc. Qed.

(** ** Serving reads *)

(** [pr.acks >= quorum() && last_applied_ >= pr.read_index] *)
Definition ready (n : RaftNode) (pr : PendingRead) : bool :=
  (Node.quorum n <=? pr_acks pr) && (pr_read_index pr <=? last_applied_ n).

(** The effects of serving a read. *)
Definition serve (n : RaftNode) (pr : PendingRead) : list effect :=
  [ECancel (pr_timeout_id pr); EReadDone (pr_cb pr) true (Kv.get (pr_key pr) (kv_ n))].

Definition served (n : RaftNode) (prs : list PendingRead) : list effect :=
  concat (serve n <$> filter (λ pr, ready n pr = true) prs).
Definition waiting (n : RaftNode) (prs : list PendingRead) : list PendingRead :=
  filter (λ pr, ready n pr = false) prs.

Definition with_reads (prs : list PendingRead) (n : RaftNode) : RaftNode := n <| pending_reads_ := prs |>.

Lemma ready_with_reads prs n pr : ready (with_reads prs n) pr = ready n pr.
Proof. done. Qed.

(** Calls into the tracing environment. *)
Lemma bind_cancel {B} i (k : unit → M (nstate trace_env) B) n e :
  (liftE (cancel (A := timer) i) ≫= k) (mkN n e) = k tt (mkN n (add_effects [ECancel i] e)).
Proof. done. Qed.
Lemma bind_read_done {B} t ok v (k : unit → M (nstate trace_env) B) n e :
  (Node.invoke_read t ok v ≫= k) (mkN n e) = k tt (mkN n (add_effects [EReadDone t ok v] e)).
Proof. done. Qed.

(** One round that serves a read, and one that leaves it. *)
Lemma drain_loop_ready kept pr rest n e :
  ready n pr = true →
  Node.drain_loop kept (pr :: rest) (mkN n e) =
  Node.drain_loop kept rest (mkN (with_reads (kept ++ rest) n) (add_effects (serve n pr) e)).
Proof.
  unfold ready. intros Hr. cbn [Node.drain_loop]. rewrite !bind_rd. cbn [nd]. rewrite Hr.
  rewrite bind_cancel, bind_rd, bind_read_done, bind_upd, add_effects_app. done.
Qed.

Lemma drain_loop_waiting kept pr rest n e :
  ready n pr = false →
  Node.drain_loop kept (pr :: rest) (mkN n e) = Node.drain_loop (kept ++ [pr]) rest (mkN n e).
Proof. unfold ready. intros Hr. cbn [Node.drain_loop]. rewrite !bind_rd. cbn [nd]. by rewrite Hr. Qed.

Lemma drain_loop_spec todo : ∀ kept n e,
  pending_reads_ n = kept ++ todo →
  Node.drain_loop kept todo (mkN n e) =
  (Ok tt, mkN (with_reads (kept ++ waiting n todo) n) (add_effects (served n todo) e)).
Proof.
  induction todo as [|pr todo IH]; intros kept n e Hn.
  - unfold waiting, served. rewrite app_nil_r in *. cbn. rewrite add_effects_nil. do 2 f_equal.
    destruct n. simpl in Hn. by subst.
  - unfold waiting, served. rewrite !filter_cons. case_decide as H1; case_decide as H2; try congruence.
    + rewrite drain_loop_waiting, IH by (by rewrite ?Hn, <-?app_assoc). by rewrite <-app_assoc.
    + rewrite drain_loop_ready, IH by done. rewrite fmap_cons, add_effects_app. done.
    + by destruct (ready n pr).
Qed.

Lemma drain_spec n e :
  Node.drain_pending_reads (mkN n e) =
  (Ok tt, mkN (with_reads (waiting n (pending_reads_ n)) n) (add_effects (served n (pending_reads_ n)) e)).
Proof. unfold Node.drain_pending_reads. rewrite bind_rd. by rewrite drain_loop_spec. Qed.

(** ** Applying committed entries *)

(** What a client callback does. *)
Definition answer (id : NodeId) (cb : ClientCallback) (r : CmdResult) : effect :=
  match cb with
  | CbToken tok => EClientDone tok r
  | CbReply from cr =>
      ESend (mkMessage id from (Encode.ClientReply
        (mkClientReply (cr_client_id cr) (cr_request_id cr) true r id)))
  end.

(** The answers to the clients waiting for the entries [es] with results [rs]. *)
Fixpoint answers (id : NodeId) (pending : gmap Index (ClientCallback * NodeId))
    (es : list LogEntry) (rs : list CmdResult) : list effect :=
  match es, rs with
  | e :: es', r :: rs' =>
      match pending !! e_index e with
      | Some (cb, _) => [answer id cb r]
      | None => []
      end ++ answers id (delete (e_index e) pending) es' rs'
  | _, _ => []
  end.

Definition still_pending (es : list LogEntry) (pending : gmap Index (ClientCallback * NodeId)) :=
  fold_left (λ m e, delete (e_index e) m) es pending.

Definition with_applied (i : Index) (kv : KvStore) (p : gmap Index (ClientCallback * NodeId))
    (n : RaftNode) : RaftNode :=
  n <| last_applied_ := i |> <| kv_ := kv |> <| pending_clients_ := p |>.

(** The node after applying [es]. *)
Definition applied (es : list LogEntry) (n : RaftNode) : RaftNode :=
  with_applied (last_applied_ n + size_z es) (apply_all (e_cmd <$> es) (kv_ n)).2
    (still_pending es (pending_clients_ n)) n.

Lemma with_applied_twice i kv p i' kv' p' n :
  with_applied i kv p (with_applied i' kv' p' n) = with_applied i kv p n.
Proof. by destruct n. Qed.
Lemma with_applied_last i kv p n : last_applied_ (with_applied i kv p n) = i.
Proof. done. Qed.
Lemma with_applied_kv i kv p n : kv_ (with_applied i kv p n) = kv.
Proof. done. Qed.
Lemma with_applied_pending i kv p n : pending_clients_ (with_applied i kv p n) = p.
Proof. done. Qed.
Lemma with_applied_id n : with_applied (last_applied_ n) (kv_ n) (pending_clients_ n) n = n.
Proof. by destruct n. Qed.

(** [es] are the entries of the log from index [i + 1] on. *)
Definition entries_from (l : RaftLog) (i : Index) (es : list LogEntry) : Prop :=
  ∀ k e, es !! k = Some e → entry_at l (i + 1 + Z.of_nat k) = Some e.

Lemma invoke_client_eq cb r n e :
  Node.invoke_client cb r (mkN n e) = (Ok tt, mkN n (add_effects [answer (id_ n) cb r] e)).
Proof. by destruct cb. Qed.

Lemma bind_mret {S A B} (a : A) (k : A → M S B) s : (mret a ≫= k) s = k a s.
Proof. done. Qed.

(** The node after applying one entry. *)
Definition apply_entry (x : LogEntry) (n : RaftNode) : RaftNode :=
  with_applied (e_index x) (Kv.apply (e_cmd x) (kv_ n)).2
    (delete (e_index x) (pending_clients_ n)) n.

Definition answer_to (x : LogEntry) (n : RaftNode) : list effect :=
  match pending_clients_ n !! e_index x with
  | Some (cb, _) => [answer (id_ n) cb (Kv.apply (e_cmd x) (kv_ n)).1]
  | None => []
  end.

Lemma apply_one_spec i x n e :
  log_wf (log_ n) → entry_at (log_ n) i = Some x → is_config (e_cmd x) = false →
  Node.apply_one i (mkN (n <| last_applied_ := i |>) e) =
  (Ok tt, mkN (apply_entry x n) (add_effects (answer_to x n) e)).
Proof.
  intros W Hx Hc. pose proof (entry_at_Some _ _ _ W Hx) as [_ Hidx].
  unfold Node.apply_one. rewrite bind_rd. cbn [nd].
  change (log_ (n <| last_applied_ := i |>)) with (log_ n).
  rewrite (proj2 (at_entry_at (log_ n) i x W) Hx), bind_result, bind_rd. cbn [nd].
  unfold apply_entry, answer_to. rewrite Hidx. change (kv_ (n <| last_applied_ := i |>)) with (kv_ n).
  destruct (Kv.apply (e_cmd x) (kv_ n)) as [r kv'].
  rewrite bind_upd, Hc. cbn [when fst snd env nd]. rewrite bind_mret, bind_rd. cbn [nd].
  change (pending_clients_ ((n <| last_applied_ := i |>) <| kv_ := kv' |>)) with (pending_clients_ n).
  destruct (pending_clients_ n !! i) as [[cb cid]|] eqn:Hp.
  - by rewrite (bind_ok _ _ _ _ _ (invoke_client_eq cb r _ e)).
  - rewrite add_effects_nil, delete_id by done. by destruct n.
Qed.

Lemma applied_cons x es n :
  e_index x = last_applied_ n + 1 → applied es (apply_entry x n) = applied (x :: es) n.
Proof.
  intros Hx. unfold applied, apply_entry.
  rewrite with_applied_last, with_applied_kv, with_applied_pending, with_applied_twice, fmap_cons, apply_all_cons.
  rewrite Hx. unfold size_z. cbn [length snd]. f_equal; [lia|by rewrite <-Hx].
Qed.

Lemma apply_loop_S fuel :
  Node.apply_loop (E := trace_env) (S fuel) =
  (n ← Node.this;
   if negb (last_applied_ n <? commit_index_ n) then mret tt
   else
     let i := wrap64 (last_applied_ n + 1) in
     last_applied_ ::= i;;
     if i <=? Log.base_index (log_ n) then Node.apply_loop fuel
     else Node.apply_one i;; Node.apply_loop fuel).
Proof. done. Qed.

Lemma apply_loop_spec es : ∀ n e,
  log_wf (log_ n) → base_index_ (log_ n) <= last_applied_ n →
  entries_from (log_ n) (last_applied_ n) es → Forall (λ x, is_config (e_cmd x) = false) es →
  commit_index_ n = last_applied_ n + size_z es →
  Node.apply_loop (S (length es)) (mkN n e) =
  (Ok tt, mkN (applied es n)
     (add_effects (answers (id_ n) (pending_clients_ n) es (apply_all (e_cmd <$> es) (kv_ n)).1) e)).
Proof.
  induction es as [|x es IH]; intros n e W Hb Hes Hc Hcommit.
  - change (length []) with 0%nat. rewrite apply_loop_S. unfold Node.this. rewrite bind_rd. cbn [nd].
    unfold size_z in Hcommit. simpl in Hcommit. rewrite (proj2 (Z.ltb_ge _ _)) by lia. cbn [negb].
    cbn [answers]. rewrite add_effects_nil. unfold applied, size_z. cbn [length].
    rewrite Z.add_0_r. by rewrite with_applied_id.
  - apply Forall_cons in Hc as [Hx Hc]. unfold size_z in Hcommit. simpl in Hcommit.
    assert (entry_at (log_ n) (last_applied_ n + 1) = Some x) as Hat.
    { specialize (Hes 0%nat x eq_refl). by rewrite Z.add_0_r in Hes. }
    pose proof (entry_at_Some _ _ _ W Hat) as [Hr Hidx]. pose proof (wf_base _ W).
    pose proof (wf_room _ W). pose proof (last_index_wf _ W).
    change (length (x :: es)) with (S (length es)). rewrite apply_loop_S. unfold Node.this.
    rewrite bind_rd. cbn [nd]. rewrite (proj2 (Z.ltb_lt _ _)) by lia. cbn [negb].
    rewrite (wrap64_id (last_applied_ n + 1)) by (log_unfold; lia).
    rewrite bind_upd. cbn [nd env].
    rewrite (proj2 (Z.leb_gt _ _)) by (unfold Log.base_index; lia).
    rewrite (bind_ok _ _ _ _ _ (apply_one_spec (last_applied_ n + 1) x n e W Hat Hx)).
    pose proof (IH (apply_entry x n) (add_effects (answer_to x n) e) W) as IHn.
    change (last_applied_ (apply_entry x n)) with (e_index x) in IHn. rewrite Hidx in IHn.
    rewrite IHn; clear IHn.
    + rewrite applied_cons, add_effects_app by done. rewrite fmap_cons, apply_all_cons. done.
    + change (base_index_ (log_ n) <= last_applied_ n + 1). lia.
    + intros k y Hy. specialize (Hes (S k) y Hy).
      replace (last_applied_ n + 1 + 1 + Z.of_nat k) with (last_applied_ n + 1 + Z.of_nat (S k)) by lia. done.
    + done.
    + change (commit_index_ n = last_applied_ n + 1 + size_z es). unfold size_z. lia.
Qed.

Lemma still_pending_lookup es : ∀ (p : gmap Index (ClientCallback * NodeId)) i j,
  (∀ k e, es !! k = Some e → e_index e = i + 1 + Z.of_nat k) →
  still_pending es p !! j = if decide (i < j <= i + size_z es) then None else p !! j.
Proof.
  induction es as [|e es IH]; intros p i j Hes.
  - unfold size_z. simpl. by rewrite decide_False by lia.
  - assert (e_index e = i + 1) as He by (specialize (Hes 0%nat e eq_refl); lia).
    unfold still_pending. rewrite fold_left_cons. fold (still_pending es (delete (e_index e) p)).
    rewrite (IH _ (i + 1)).
    + unfold size_z. cbn [length]. rewrite He. destruct (decide (j = i + 1)) as [->|Hj].
      * rewrite lookup_delete_eq. repeat case_decide; try done; lia.
      * rewrite lookup_delete_ne by done. repeat case_decide; try done; lia.
    + intros k x Hk. specialize (Hes (S k) x Hk). lia.
Qed.

(** The committed entries that are not applied yet. *)
Definition unapplied (n : RaftNode) : list LogEntry :=
  Log.slice (last_applied_ n) (commit_index_ n) (log_ n).

(** The committed part of the log is there and no membership change is in it. *)
Record can_apply (n : RaftNode) : Prop := {
  ca_wf : log_wf (log_ n);
  ca_base : base_index_ (log_ n) <= last_applied_ n;
  ca_commit : last_applied_ n <= commit_index_ n <= Log.last_index (log_ n);
  ca_data : Forall (λ x, is_config (e_cmd x) = false) (unapplied n);
}.

Lemma unapplied_spec n :
  can_apply n → last_applied_ n < UINT64_MAX →
  entries_from (log_ n) (last_applied_ n) (unapplied n) ∧
  commit_index_ n = last_applied_ n + size_z (unapplied n).
Proof.
  intros [W Hb Hc _] Hmax. pose proof (wf_base _ W).
  assert (∀ k, unapplied n !! k =
    if decide (last_applied_ n + 1 + Z.of_nat k <= commit_index_ n)
    then entry_at (log_ n) (last_applied_ n + 1 + Z.of_nat k) else None) as Hl.
  { intros k. unfold unapplied. rewrite slice_lookup by (done || lia). cbv zeta.
    by rewrite Z.max_l by lia. }
  split.
  - intros k e. rewrite Hl. by case_decide.
  - enough (length (unapplied n) = Z.to_nat (commit_index_ n - last_applied_ n)) by (unfold size_z; lia).
    apply Nat.le_antisymm.
    + apply Nat.nlt_ge. intros Hlt. apply lookup_lt_is_Some in Hlt as [e He].
      rewrite Hl, decide_False in He by lia. done.
    + apply Nat.nlt_ge. intros Hlt. pose proof (lookup_ge_None_2 (unapplied n) (length (unapplied n)) ltac:(lia)) as Hn.
      rewrite Hl, decide_True in Hn by lia.
      destruct (entry_at_is_Some (log_ n) (last_applied_ n + 1 + Z.of_nat (length (unapplied n))) W) as [e He];
        [lia|congruence].
Qed.

(** The node after [apply_committed_entries], when it takes no snapshot. *)
Definition caught_up (n : RaftNode) : RaftNode :=
  with_reads (waiting (applied (unapplied n) n) (pending_reads_ n)) (applied (unapplied n) n).

Lemma apply_committed_eq n e :
  can_apply n → last_applied_ n < UINT64_MAX → snapshot_threshold (cfg_ n) = 0 →
  Node.apply_committed_entries (mkN n e) =
  (Ok tt, mkN (caught_up n)
     (add_effects (answers (id_ n) (pending_clients_ n) (unapplied n)
                     (apply_all (e_cmd <$> unapplied n) (kv_ n)).1 ++
                   served (applied (unapplied n) n) (pending_reads_ n)) e)).
Proof.
  intros Hca Hmax Hsnap. destruct (unapplied_spec n Hca Hmax) as [Hes Hcommit].
  unfold Node.apply_committed_entries, Node.this. rewrite bind_rd. cbn [nd].
  replace (Z.to_nat (commit_index_ n - last_applied_ n)) with (length (unapplied n))
    by (unfold size_z in Hcommit; lia).
  rewrite (bind_ok _ _ _ _ _ (apply_loop_spec (unapplied n) n e (ca_wf _ Hca) (ca_base _ Hca) Hes
    (ca_data _ Hca) Hcommit)).
  rewrite (bind_ok _ _ _ _ _ (drain_spec _ _)), bind_rd, add_effects_app. cbn [nd].
  change (cfg_ (with_reads ?p (applied ?es n))) with (cfg_ n). by rewrite Hsnap.
Qed.

(** ** Advancing the commit index *)

(** The rule of Raft for committing index [k]: an entry of the leader's own
    term that a quorum of servers is known to have. *)
Definition committable (n : RaftNode) (k : Index) : Prop :=
  ∃ x, entry_at (log_ n) k = Some x ∧ e_term x = current_term_ n ∧
       Node.quorum n <= Node.match_count (match_index_ n) k.

Definition commit_at (k : Index) (n : RaftNode) : RaftNode := n <| commit_index_ := k |>.

Lemma skip_prior_spec k x n (e : trace_env) :
  log_wf (log_ n) → bug_commit_prior_term (cfg_ n) = false → entry_at (log_ n) k = Some x →
  Node.skip_prior_term k (mkN n e) = (Ok (negb (e_term x =? current_term_ n)), mkN n e).
Proof.
  intros W Hbug Hx. unfold Node.skip_prior_term. rewrite bind_rd. cbn [nd]. rewrite Hbug, bind_rd. cbn [nd].
  by rewrite (proj2 (at_entry_at (log_ n) k x W) Hx).
Qed.

Lemma advance_loop_S fuel k :
  Node.advance_loop (E := trace_env) (S fuel) k =
  (x ← Node.this;
   if k <=? commit_index_ x then mret tt
   else if k <=? Log.base_index (log_ x) then mret tt
   else
     skip ← Node.skip_prior_term k;
     if (skip : bool) then Node.advance_loop fuel (wrap64 (k - 1))
     else
       m ← rd match_index_;
       q ← rd Node.quorum;
       if q <=? Node.match_count m k then
         commit_index_ ::= k;; Node.apply_committed_entries
       else Node.advance_loop fuel (wrap64 (k - 1))).
Proof. done. Qed.

Lemma advance_loop_spec fuel : ∀ k n e,
  log_wf (log_ n) → bug_commit_prior_term (cfg_ n) = false → 0 <= commit_index_ n →
  k <= Log.last_index (log_ n) → (Z.to_nat (k - commit_index_ n) < fuel)%nat →
  (∃ k', commit_index_ n < k' <= k ∧ committable n k' ∧ (∀ j, k' < j <= k → ¬ committable n j) ∧
     Node.advance_loop fuel k (mkN n e) = Node.apply_committed_entries (mkN (commit_at k' n) e)) ∨
  ((∀ j, commit_index_ n < j <= k → ¬ committable n j) ∧
     Node.advance_loop fuel k (mkN n e) = (Ok tt, mkN n e)).
Proof.
  induction fuel as [|fuel IH]; intros k n e W Hbug H0 Hk Hf; [lia|].
  rewrite advance_loop_S. unfold Node.this. rewrite bind_rd. cbn [nd].
  destruct (Z.leb_spec k (commit_index_ n)) as [Hle|Hgt]; [right; split; [lia|done]|].
  assert (is_u64 k).
  { pose proof (wrap64_range (base_index_ (log_ n) + size_z (entries_ (log_ n)))) as [_ Hmax].
    unfold Log.last_index in Hk. unfold is_u64. lia. }
  unfold Log.base_index. destruct (Z.leb_spec k (base_index_ (log_ n))) as [Hb|Hb].
  { right. split; [|done]. intros j Hj (x & Hx & _). apply entry_at_Some in Hx; [lia|done]. }
  destruct (entry_at_is_Some (log_ n) k W) as [x Hx]; [lia|].
  rewrite (bind_ok _ _ _ _ _ (skip_prior_spec k x n e W Hbug Hx)).
  rewrite (wrap64_id (k - 1)) by (unfold is_u64 in *; lia).
  assert (¬ committable n k →
    (∃ k', commit_index_ n < k' <= k ∧ committable n k' ∧ (∀ j, k' < j <= k → ¬ committable n j) ∧
       Node.advance_loop fuel (k - 1) (mkN n e) = Node.apply_committed_entries (mkN (commit_at k' n) e)) ∨
    ((∀ j, commit_index_ n < j <= k → ¬ committable n j) ∧
       Node.advance_loop fuel (k - 1) (mkN n e) = (Ok tt, mkN n e))) as Hnext.
  { intros Hno. destruct (IH (k - 1) n e W Hbug H0) as [(k' & ? & ? & Hmax & ->)|[Hnone ->]]; [lia..| |].
    - left. exists k'. split_and!; [lia..|done| |done]. intros j Hj.
      destruct (decide (j = k)) as [->|]; [done|]. apply Hmax. lia.
    - right. split; [|done]. intros j Hj. destruct (decide (j = k)) as [->|]; [done|]. apply Hnone. lia. }
  destruct (Z.eqb_spec (e_term x) (current_term_ n)) as [Ht|Ht]; cbn [negb].
  - rewrite !bind_rd. cbn [nd].
    destruct (Z.leb_spec (Node.quorum n) (Node.match_count (match_index_ n) k)) as [Hq|Hq].
    + left. exists k. split_and!; [lia..|by exists x|lia|]. by rewrite bind_upd.
    + apply Hnext. intros (y & _ & _ & Hy). lia.
  - apply Hnext. intros (y & Hy & Hyt & _). congruence.
Qed.

Lemma maybe_advance_spec n e :
  log_wf (log_ n) → bug_commit_prior_term (cfg_ n) = false → 0 <= commit_index_ n →
  (∃ k, commit_index_ n < k <= Log.last_index (log_ n) ∧ committable n k ∧
     (∀ j, k < j <= Log.last_index (log_ n) → ¬ committable n j) ∧
     Node.maybe_advance_commit_index (mkN n e) = Node.apply_committed_entries (mkN (commit_at k n) e)) ∨
  ((∀ j, commit_index_ n < j <= Log.last_index (log_ n) → ¬ committable n j) ∧
     Node.maybe_advance_commit_index (mkN n e) = (Ok tt, mkN n e)).
Proof.
  intros W Hbug H0. unfold Node.maybe_advance_commit_index, Node.this. rewrite bind_rd.
  cbv zeta. cbn [nd]. apply advance_loop_spec; [done..|lia].
Qed.

(** ** Properties *)

(** C6: committed entries are applied once each and in log order.
    On a node that takes no snapshots and has no membership command to apply,
    [apply_committed_entries] returns; it applies exactly the entries after
    [last_applied_] up to [commit_index_] to the key-value store, in order; the
    callback registered at the index of each of them, and no other, is called
    with the result of the entry that is now there, whoever registered it, and
    is no longer registered; then exactly the pending reads that are ready are
    served.  The log and the commit index stay. *)
Theorem committed_applied_in_order (n : RaftNode) (e : trace_env)
    (Hca : can_apply n) (Hmax : last_applied_ n < UINT64_MAX)
    (Hsnap : snapshot_threshold (cfg_ n) = 0) :
  ∃ n', Node.apply_committed_entries (mkN n e) =
    (Ok tt, mkN n' (add_effects
       (answers (id_ n) (pending_clients_ n) (unapplied n)
          (apply_all (e_cmd <$> unapplied n) (kv_ n)).1 ++
        served (applied (unapplied n) n) (pending_reads_ n)) e)) ∧
    last_applied_ n' = commit_index_ n ∧ commit_index_ n' = commit_index_ n ∧ log_ n' = log_ n ∧
    kv_ n' = (apply_all (e_cmd <$> unapplied n) (kv_ n)).2 ∧
    (∀ k x, unapplied n !! k = Some x → entry_at (log_ n) (last_applied_ n + 1 + Z.of_nat k) = Some x) ∧
    (∀ i, pending_clients_ n' !! i =
       if decide (last_applied_ n < i <= commit_index_ n) then None else pending_clients_ n !! i).
Proof.
  destruct (unapplied_spec n Hca Hmax) as [Hes Hcommit]. exists (caught_up n).
  split; [by apply apply_committed_eq|]. split_and!; [by rewrite Hcommit|done..|].
  intros i. change (still_pending (unapplied n) (pending_clients_ n) !! i =
    if decide (last_applied_ n < i <= commit_index_ n) then None else pending_clients_ n !! i).
  rewrite (still_pending_lookup _ _ (last_applied_ n)); [by rewrite Hcommit|].
  intros k x Hk. apply (entry_at_Some (log_ n) _ x (ca_wf _ Hca)). by apply Hes.
Qed.

(** C7: the commit rule.  [maybe_advance_commit_index] of a node without the
    injected bug commits the greatest index beyond [commit_index_] whose entry
    is of the current term and which the [match_index_] of a quorum of servers
    reaches, and applies it; if there is none it changes nothing. *)
Theorem commit_rule (n : RaftNode) (e : trace_env)
    (Hwf : log_wf (log_ n)) (Hbug : bug_commit_prior_term (cfg_ n) = false)
    (Hcommit : 0 <= commit_index_ n) :
  (∃ k, commit_index_ n < k <= Log.last_index (log_ n) ∧ committable n k ∧
     (∀ j, k < j <= Log.last_index (log_ n) → ¬ committable n j) ∧
     Node.maybe_advance_commit_index (mkN n e) = Node.apply_committed_entries (mkN (commit_at k n) e)) ∨
  ((∀ j, commit_index_ n < j <= Log.last_index (log_ n) → ¬ committable n j) ∧
     Node.maybe_advance_commit_index (mkN n e) = (Ok tt, mkN n e)).
Proof. by apply maybe_advance_spec. Qed.

(** C37: reads.  [drain_pending_reads] answers exactly the pending reads whose
    round was acknowledged by a quorum and whose read index has been applied,
    in order and each with the current value of its key, cancels their
    timeouts, and keeps the others waiting in order. *)
Theorem reads_served (n : RaftNode) (e : trace_env) :
  Node.drain_pending_reads (mkN n e) =
  (Ok tt,
   mkN (n <| pending_reads_ := filter (λ pr, ready n pr = false) (pending_reads_ n) |>)
     (add_effects (concat (serve n <$> filter (λ pr, ready n pr = true) (pending_reads_ n))) e)).
Proof. apply drain_spec. Qed.

(** A leader with two entries, one of them acknowledged, and a client waiting
    for it. *)
Definition demo_leader : RaftNode :=
  (make_node 1 [2; 3] default_config)
    <| role_ := Leader |> <| current_term_ := 1 |>
    <| log_ := mkRaftLog [mkLogEntry 1 1 (CmdPut "x" "a"); mkLogEntry 1 2 (CmdGet "x")] 0 0 |>
    <| match_index_ := {[1 := 2; 2 := 1; 3 := 0]} |>
    <| pending_clients_ := {[1 := (CbToken 7, 1000)]} |>.

Lemma demo_leader_wf : log_wf (log_ demo_leader).
Proof.
  split; [done|vm_compute; congruence|]. intros [|[|k]] x; simpl; [intros [= <-]; done..|].
  by rewrite lookup_nil.
Qed.

Lemma committed_applied_in_order_witness :
  (∃ n', Node.apply_committed_entries (mkN (commit_at 1 demo_leader) (mkTrace [] 0 [])) =
     (Ok tt, mkN n' (mkTrace [EClientDone 7 (mkCmdResult true "" "")] 0 [])) ∧
     last_applied_ n' = 1 ∧ kv_ n' = mkKvStore {["x" := "a"]}).
Proof.
  destruct (committed_applied_in_order (commit_at 1 demo_leader) (mkTrace [] 0 [])) as (n' & H1 & H2 & _ & _ & H3 & _).
  - split; [exact demo_leader_wf|vm_compute; congruence|split; vm_compute; congruence|].
    vm_compute. repeat constructor.
  - done.
  - done.
  - exists n'. split; [exact H1|]. split; [exact H2|]. rewrite H3. vm_compute. done.
Defined.

Lemma commit_rule_witness :
  ∃ k, 0 < k <= 2 ∧ committable demo_leader k ∧ k = 1.
Proof.
  destruct (commit_rule demo_leader (mkTrace [] 0 []) demo_leader_wf eq_refl ltac:(done))
    as [(k & Hk & Hc & _)|[Hno _]].
  - exists k. split; [exact Hk|]. split; [exact Hc|].
    change (0 < k <= 2) in Hk. destruct (decide (k = 2)) as [->|]; [|lia].
    destruct Hc as (x & _ & _ & Hq). vm_compute in Hq. congruence.
  - exfalso. apply (Hno 1); [split; vm_compute; congruence|].
    exists (mkLogEntry 1 1 (CmdPut "x" "a")). split_and!; [done|done|vm_compute; congruence].
Defined.
