(* ===== verification/NodeRecovery.v ===== *)
(** * Snapshots, crashes and recovery of a node

    The snapshot format round-trips; [crash] followed by [restart] brings a
    node back with the term, vote, log and snapshot that it had on disk. *)

From S2P Require Import Prelude Codec DurableStore Types Wal KvStore RaftLog Rpc Env Node.
From S2P Require Import NodeVotes NodeElection LogTree NodeLog.

(** ** The snapshot format *)

Definition kv_fits (kv : KvStore) : Prop :=
  is_u32 (size_z (kv_iter kv)) ∧ Forall (λ p, str_fits p.1 ∧ str_fits p.2) (kv_iter kv).

Lemma reads_pair p :
  str_fits p.1 ∧ str_fits p.2 → reads Node.decode_pair (Enc.str p.1 ++ Enc.str p.2) p.
Proof.
  intros [H1 H2]. unfold Node.decode_pair. eapply reads_bind; [by apply reads_str|].
  eapply reads_bind_last; [by apply reads_str|]. destruct p. apply reads_ret.
Qed.

Lemma reads_kv kv : kv_fits kv → reads Node.decode_kv (Node.encode_kv kv) (kv_data kv).
Proof.
  intros [Hn Hp]. unfold Node.decode_kv, Node.encode_kv. rewrite wrap32_id by done.
  eapply reads_bind; [by apply reads_u32|]. unfold size_z. rewrite Nat2Z.id.
  eapply reads_bind_last.
  - apply (reads_repeat Node.decode_pair (λ p, Enc.str p.1 ++ Enc.str p.2)).
    eapply Forall_impl; [exact Hp|]. intros p. apply reads_pair.
  - rewrite map_of_kv_iter. apply reads_ret.
Qed.

Lemma encode_kv_ok kv : bytes_ok (Node.encode_kv kv).
Proof.
  unfold Node.encode_kv. apply bytes_ok_app; [apply enc_u32_ok|]. apply bytes_ok_concat.
  intros p. apply bytes_ok_app; apply enc_str_ok.
Qed.

Lemma decode_kv_encoded kv : kv_fits kv → (Node.decode_kv (Node.encode_kv kv)).1 = Ok (kv_data kv).
Proof. intros Hf. pose proof (reads_kv kv Hf []) as Hr. rewrite app_nil_r in Hr. by rewrite Hr. Qed.

Lemma bind_decoder {S A B} (d : M bytes A) b (k : A → M S B) s a :
  (d b).1 = Ok a → (run_decoder d b ≫= k) s = k a s.
Proof. intros Hd. unfold mbind, M_bind, run_decoder. by rewrite Hd. Qed.

(** The bytes [save_snapshot] writes. *)
Definition snapshot_bytes (i : Index) (t : Term) (data : bytes) : bytes :=
  Enc.u64 i ++ Enc.u64 t ++ Enc.u32 (wrap32 (size_z data)) ++ Enc.raw data.

(** The snapshot store holds the snapshot of the node: none, or the state
    [kv] of the key-value store at [snap_last_index_]. *)
Definition snapshot_holds (kv : KvStore) (n : RaftNode) : Prop :=
  (snapshot_store_ n = empty_store ∧ snap_last_index_ n = 0 ∧ snap_data_ n = [] ∧ kv = empty_kv) ∨
  (snapshot_store_ n = stored (snapshot_bytes (snap_last_index_ n) (snap_last_term_ n) (snap_data_ n)) ∧
   snap_data_ n = Node.encode_kv kv ∧ kv_fits kv ∧ is_u32 (size_z (snap_data_ n)) ∧
   is_u64 (snap_last_index_ n) ∧ is_u64 (snap_last_term_ n)).

Section Recovery.
Context {E : Type} `{EnvLaws E}.

(** The loop that reads the snapshot's data. *)
Lemma fill_snap_data_spec bs : ∀ pre old rest n (e : E),
  bytes_ok bs → length old = length bs → snap_data_ n = pre ++ old →
  Node.fill_snap_data (length pre) (length bs) (bs ++ rest) (mkN n e) =
  (Ok rest, mkN (n <| snap_data_ := pre ++ bs |>) e).
Proof.
  induction bs as [|b bs IH]; intros pre old rest n e Hb Hlen Hn.
  - destruct old; [|done]. rewrite <-Hn. by destruct n.
  - destruct old as [|o old]; [done|]. apply Forall_cons in Hb as [Hb Hbs].
    cbn [length Node.fill_snap_data app].
    assert (Dec.u8 (b :: bs ++ rest) = (Ok b, bs ++ rest)) as ->.
    { pose proof (reads_u8 b Hb (bs ++ rest)) as Hr. unfold Enc.u8 in Hr.
      rewrite wrap8_mod in Hr. rewrite Z.mod_small in Hr by done. exact Hr. }
    rewrite bind_upd. cbn [nd env]. replace (S (length pre)) with (length (pre ++ [b])) by (rewrite length_app; simpl; lia).
    rewrite (IH (pre ++ [b]) old); [|done|by injection Hlen|].
    + rewrite <-app_assoc. by destruct n.
    + simpl. rewrite Hn. change (snap_data_ (n <| snap_data_ := ?d |>)) with d.
      rewrite insert_app_r_alt by lia. rewrite Nat.sub_diag. by rewrite <-app_assoc.
Qed.

(** The node after [load_snapshot]. *)
Definition from_snapshot (kv : KvStore) (n : RaftNode) : RaftNode :=
  n <| kv_ := kv |> <| commit_index_ := snap_last_index_ n |> <| last_applied_ := snap_last_index_ n |>
    <| log_ := Log.set_snapshot (snap_last_index_ n) (snap_last_term_ n) (log_ n) |>.

Lemma snapshot_bytes_size i t d : (length (snapshot_bytes i t d) =? 0)%nat = false.
Proof. apply Nat.eqb_neq. unfold snapshot_bytes. rewrite length_app, length_enc_u64. lia. Qed.

Lemma load_snapshot_spec kv n (e : E) :
  snapshot_holds kv n → snapshot_store_ n ≠ empty_store →
  Node.load_snapshot (mkN n e) = (Ok tt, mkN (from_snapshot kv n) e).
Proof.
  intros [[Hs _]|(Hst & Hd & Hf & Hsz & Hi & Ht)] Hne; [done|].
  assert (bytes_ok (snap_data_ n)) as Hok by (rewrite Hd; apply encode_kv_ok).
  unfold Node.load_snapshot. rewrite bind_rd. cbn [nd]. rewrite Hst.
  change (durable_size (stored ?b)) with (length b). rewrite snapshot_bytes_size. cbv beta iota.
  rewrite bind_rd. cbn [nd]. rewrite Hst, stored_read. unfold snapshot_bytes.
  rewrite (reads_u64 _ Hi). cbv beta iota. rewrite bind_upd. cbn [nd env].
  rewrite (reads_u64 _ Ht). cbv beta iota. rewrite bind_upd. cbn [nd env].
  rewrite wrap32_id by done. rewrite (reads_u32 _ Hsz). cbv beta iota. rewrite bind_upd. cbn [nd env].
  rewrite enc_raw_id by done. unfold size_z. rewrite Nat2Z.id.
  set (old := resize (length (snap_data_ n)) 0 _).
  set (n1 := _ <| snap_data_ := old |>).
  pose proof (fill_snap_data_spec (snap_data_ n) [] old [] n1 e Hok (length_resize _ _ _) eq_refl) as Hfill.
  rewrite app_nil_r in Hfill. rewrite (bind_ok _ _ _ _ _ Hfill). clear Hfill. unfold n1.
  rewrite app_nil_l, bind_upd, bind_rd. cbn [nd env].
  change (snap_data_ (set_field kv_ (λ _, empty_kv) (set_field snap_data_ (λ _, ?d) ?m))) with d.
  rewrite Hd at 1. rewrite (bind_decoder _ _ _ _ _ (decode_kv_encoded kv Hf)).
  rewrite !bind_upd. unfold Kv.load. by destruct n, kv.
Qed.

(** Computations that only touch the environment, and return. *)
Definition outside (m : M (nstate E) unit) : Prop :=
  ∀ n e, ∃ e', m (mkN n e) = (Ok tt, mkN n e').

Lemma outside_env (m : M E unit) :
  (∀ e, ∃ e', m e = (Ok tt, e') ∧ sent e' = sent e) → outside (liftE m).
Proof. intros Hm n e. destruct (Hm e) as (e' & He & _). exists e'. unfold liftE. cbn [env]. by rewrite He. Qed.

Lemma outside_for_each {A} (l : list A) body : (∀ a, outside (body a)) → outside (for_each l body).
Proof.
  intros Hb. induction l as [|a l IH]; intros n e; cbn [for_each]; [by exists e|].
  destruct (Hb a n e) as [e1 H1]. rewrite (bind_ok _ _ _ _ _ H1). apply IH.
Qed.

Lemma outside_invoke cb r : outside (Node.invoke_client cb r).
Proof.
  intros n e. destruct cb as [tok|from cr].
  - apply (outside_env (client_done tok r)). intros. apply client_done_sent.
  - unfold Node.invoke_client. rewrite bind_rd. unfold Node.send. rewrite bind_rd. unfold liftE. cbn [nd env].
    match goal with |- context [net_send ?f ?t ?p e] =>
      destruct (net_send_sent f t p e) as (e' & -> & _) end. by exists e'.
Qed.

Lemma outside_cancel i : outside (liftE (cancel (A := timer) i)).
Proof. apply outside_env. intros. apply cancel_sent. Qed.

(** What else a node has in memory: who leads, the votes and the replication
    state of its terms as candidate and leader, and its timers.  The read round
    and the callback are not reset by a crash. *)
Definition volatile_view (n : RaftNode) :=
  (leader_id_ n, (votes_received_ n, vote_count_ n, election_term_ n), (next_index_ n, match_index_ n),
   heartbeat_scheduled_ n, (next_read_round_ n, state_change_cb_ n)).
Definition timer_view (n : RaftNode) := (election_scheduled_ n, election_generation_ n).

(** [volatile_view] of a node that was just constructed, apart from the two
    fields a crash keeps. *)
Definition fresh_view (n : RaftNode) :
    option NodeId * (gset NodeId * Z * Term) * (gmap NodeId Index * gmap NodeId Index) * bool * (Z * bool) :=
  (None, (∅, 0, 0), (∅, ∅), false, (next_read_round_ n, state_change_cb_ n)).

(** The node after [crash]: [n'] has the stores as a crash leaves them, the
    key-value state [kv] of the snapshot, and nothing in flight. *)
Record crashed (kv : KvStore) (n n' : RaftNode) : Prop := {
  cr_config : (id_ n', peers_ n', cfg_ n', running_ n') = (id_ n, peers_ n, cfg_ n, false);
  cr_stores : (meta_store_ n', log_store_ n', snapshot_store_ n') =
    (DurableStore.crash (meta_store_ n), DurableStore.crash (log_store_ n),
     DurableStore.crash (snapshot_store_ n));
  cr_memory : (current_term_ n', voted_for_ n', log_ n') = (current_term_ n, voted_for_ n, log_ n);
  cr_snapshot : (snap_last_index_ n', snap_last_term_ n', snap_data_ n') =
    (snap_last_index_ n, snap_last_term_ n, snap_data_ n);
  cr_volatile : (role_ n', commit_index_ n', last_applied_ n', leader_id_ n', kv_ n') =
    (Follower, snap_last_index_ n, snap_last_index_ n, None, kv);
  cr_pending : (pending_clients_ n', pending_reads_ n', config_change_pending_ n') = (∅, [], false);
  cr_rest : volatile_view n' = fresh_view n;
  cr_timer : timer_view n' = (false, election_generation_ n);
}.

(** One write, its result under a name of its own. *)
Ltac step_upd :=
  rewrite bind_upd; cbn [nd env];
  lazymatch goal with |- context [mkN ?m _] => let x := fresh "x" in set (x := m) end.

Lemma crash_spec kv n (e : E) :
  snapshot_holds kv n → ∃ n' e', Node.crash (mkN n e) = (Ok tt, mkN n' e') ∧ crashed kv n n'.
Proof.
  intros Hs. unfold Node.crash. step_upd. rewrite bind_rd. cbn [nd].
  match goal with |- context [mkN ?m e] =>
    destruct (outside_env (remove_handler (H := handler) (id_ m)) ltac:(intros; apply remove_handler_sent) m e)
      as [e1 H1] end.
  rewrite (bind_ok _ _ _ _ _ H1). clear H1. do 16 step_upd. rewrite bind_rd. cbn [nd env].
  match goal with |- context [mkN ?m e1] => set (n1 := m) end.
  change (snap_data_ n1) with (snap_data_ n).
  assert (∃ n2, n2 = (n1 <| kv_ := kv |>) ∧
    (when (negb (bool_decide (snap_data_ n = [])))
      (kv_map ← run_decoder Node.decode_kv (snap_data_ n);
       upd (λ n, n <| kv_ := Kv.load kv_map (kv_ n) |>))) (mkN n1 e1) = (Ok tt, mkN n2 e1)) as (n2 & Hn2 & H2).
  { eexists. split; [done|]. destruct Hs as [(_ & _ & Hd & ->)|(_ & Hd & Hf & _)]; rewrite Hd.
    - by rewrite bool_decide_true.
    - rewrite bool_decide_false by (intros Hnil; by apply (f_equal length) in Hnil). cbn [negb when].
      rewrite (bind_decoder _ _ _ _ _ (decode_kv_encoded kv Hf)). unfold Kv.load. by destruct kv. }
  rewrite (bind_ok _ _ _ _ _ H2), bind_rd. clear H2.
  match goal with |- context [for_each ?l ?b] =>
    destruct (outside_for_each l b ltac:(intros; apply outside_invoke) n2 e1) as [e2 H3] end.
  rewrite (bind_ok _ _ _ _ _ H3), bind_upd, bind_rd. cbn [nd env]. clear H3.
  match goal with |- context [for_each ?l ?b] =>
    match goal with |- context [mkN ?m e2] =>
    destruct (outside_for_each l b ltac:(intros; apply outside_cancel) m e2) as [e3 H4] end end.
  rewrite (bind_ok _ _ _ _ _ H4). eexists _, e3. split; [reflexivity|].
  rewrite Hn2. split; reflexivity.
Qed.

(** Nothing to apply, nothing to serve, nothing new to snapshot. *)
Lemma apply_committed_idle n (e : E) :
  commit_index_ n <= last_applied_ n → pending_reads_ n = [] →
  last_applied_ n <= snap_last_index_ n →
  Node.apply_committed_entries (mkN n e) = (Ok tt, mkN n e).
Proof.
  intros Hc Hr Hs. unfold Node.apply_committed_entries, Node.this. rewrite bind_rd. cbn [nd].
  assert (Node.apply_loop (S (Z.to_nat (commit_index_ n - last_applied_ n))) (mkN n e)
    = (Ok tt, mkN n e)) as H1.
  { cbn [Node.apply_loop]. unfold Node.this. rewrite bind_rd. cbn [nd].
    by rewrite (proj2 (Z.ltb_ge _ _)) by lia. }
  rewrite (bind_ok _ _ _ _ _ H1).
  assert (Node.drain_pending_reads (mkN n e) = (Ok tt, mkN n e)) as H2.
  { unfold Node.drain_pending_reads. rewrite bind_rd. cbn [nd]. by rewrite Hr. }
  rewrite (bind_ok _ _ _ _ _ H2), bind_rd. cbn [nd]. destruct (_ && _); [|done]. cbn [when].
  unfold Node.take_snapshot, Node.this. rewrite bind_rd. cbn [nd].
  by rewrite (proj2 (Z.leb_le _ _)) by lia.
Qed.

(** What survives a crash, and what a restarted node has in memory. *)
Definition kept_view (n : RaftNode) :=
  (id_ n, peers_ n, cfg_ n, (current_term_ n, voted_for_ n, log_ n),
   (snap_last_index_ n, snap_last_term_ n, snap_data_ n)).
Definition memory_view (n : RaftNode) :=
  (running_ n, role_ n, (commit_index_ n, last_applied_ n, kv_ n),
   (pending_clients_ n, pending_reads_ n, config_change_pending_ n)).

(** The node's stores hold its term, vote, log and snapshot. *)
Record on_disk (kv : KvStore) (n : RaftNode) : Prop := {
  od_meta : meta_ok n;
  od_log : log_saved n;
  od_fits : log_fits (log_ n);
  od_snapshot : snapshot_holds kv n;
  od_order : log_store_ n = empty_store → snapshot_store_ n = empty_store;
}.

(** Arming the election timer, when it is not armed. *)
Lemma arm_election n (e : E) :
  election_scheduled_ n = false →
  ∃ i e', Node.schedule_election_timeout (mkN n e) =
    (Ok tt, mkN (n <| election_generation_ := wrap64 (election_generation_ n + 1) |>
                   <| election_scheduled_ := true |> <| election_timeout_id_ := i |>) e').
Proof.
  intros Hs. unfold Node.schedule_election_timeout. rewrite bind_rd. cbn [nd]. rewrite Hs.
  rewrite bind_upd, bind_rd, bind_rd. cbn [nd env].
  match goal with |- context [mkN ?m e] => set (n1 := m) end.
  match goal with |- context [random_range ?lo ?hi] => destruct (random_sent lo hi e) as (x & e1 & Hx & _) end.
  erewrite bind_ok by (unfold liftE; cbn [nd env]; rewrite Hx; reflexivity).
  rewrite bind_upd, bind_rd. cbn [nd env].
  match goal with |- context [schedule x ?a] => destruct (schedule_sent x a e1) as (i & e2 & Hi & _) end.
  exists i, e2. erewrite bind_ok by (unfold liftE; cbn [nd env]; rewrite Hi; reflexivity). reflexivity.
Qed.

(** The fields that loading does not touch. *)
Definition frame_view (n : RaftNode) :=
  (id_ n, peers_ n, cfg_ n, (meta_store_ n, log_store_ n, snapshot_store_ n),
   (snap_last_index_ n, snap_last_term_ n, snap_data_ n), (running_ n, role_ n),
   (pending_clients_ n, pending_reads_ n, config_change_pending_ n)).

Lemma load_snapshot_view kv n (e : E) :
  snapshot_holds kv n → kv_ n = empty_kv → log_ n = empty_log →
  commit_index_ n = snap_last_index_ n → last_applied_ n = snap_last_index_ n →
  (log_store_ n = empty_store → snapshot_store_ n = empty_store) →
  ∃ n', Node.load_snapshot (mkN n e) = (Ok tt, mkN n' e) ∧ frame_view n' = frame_view n ∧
    (current_term_ n', voted_for_ n') = (current_term_ n, voted_for_ n) ∧
    (commit_index_ n', last_applied_ n', kv_ n') = (snap_last_index_ n, snap_last_index_ n, kv) ∧
    (log_store_ n = empty_store → log_ n' = empty_log) ∧
    volatile_view n' = volatile_view n ∧ timer_view n' = timer_view n.
Proof.
  intros Hs Hkv Hl Hc Ha Ho. pose proof Hs as [(He & _ & _ & ->)|(He & _)].
  - exists n. rewrite load_snapshot_empty by done. split_and!; [done..| |done|done|done].
    by rewrite Hc, Ha, Hkv.
  - assert (snapshot_store_ n ≠ empty_store) as Hne.
    { rewrite He. intros K. by apply stored_nonempty in K; [|apply snapshot_bytes_size]. }
    exists (from_snapshot kv n). rewrite (load_snapshot_spec kv) by done.
    split_and!; [done..| |done|done]. intros Hls. by destruct (Hne (Ho Hls)).
Qed.

Lemma load_meta_view t v n (e : E) :
  meta_holds t v (meta_store_ n) → current_term_ n = 0 → voted_for_ n = None →
  ∃ n', Node.load_meta (mkN n e) = (Ok tt, mkN n' e) ∧ frame_view n' = frame_view n ∧
    (current_term_ n', voted_for_ n') = (t, v) ∧
    (commit_index_ n', last_applied_ n', kv_ n', log_ n') =
    (commit_index_ n, last_applied_ n, kv_ n, log_ n) ∧
    volatile_view n' = volatile_view n ∧ timer_view n' = timer_view n.
Proof.
  intros (Ht & Hv & Hst) Hcur Hvote. destruct Hst as [Hst|(Hst & -> & ->)].
  - rewrite (load_meta_stored t v) by auto. eexists. split; [reflexivity|]. by split_and!.
  - exists n. rewrite load_meta_empty by done. split_and!; [done..| |done|done|done]. by rewrite Hcur, Hvote.
Qed.

Lemma start_recovers kv t v l n (e : E) :
  snapshot_holds kv n → kv_ n = empty_kv → log_ n = empty_log →
  commit_index_ n = snap_last_index_ n → last_applied_ n = snap_last_index_ n →
  (log_store_ n = empty_store → snapshot_store_ n = empty_store) →
  meta_holds t v (meta_store_ n) → current_term_ n = 0 → voted_for_ n = None →
  log_holds l (log_store_ n) → log_fits l → pending_reads_ n = [] → election_scheduled_ n = false →
  ∃ n' e', Node.start (mkN n e) = (Ok tt, mkN n' e') ∧
    kept_view n' = (id_ n, peers_ n, cfg_ n, (t, v, l), (snap_last_index_ n, snap_last_term_ n, snap_data_ n)) ∧
    memory_view n' = (true, role_ n, (snap_last_index_ n, snap_last_index_ n, kv),
                      (pending_clients_ n, [], config_change_pending_ n)) ∧
    volatile_view n' = volatile_view n ∧ timer_view n' = (true, wrap64 (election_generation_ n + 1)).
Proof.
  intros Hs Hkv Hlog Hc Ha Ho Hm Hcur Hvote Hl Hf Hr Het. unfold Node.start. rewrite bind_upd, bind_rd. cbn [nd env].
  set (na := n <| running_ := true |>).
  destruct (outside_env (set_handler (id_ na) (HNode (id_ na))) ltac:(intros; apply set_handler_sent) na e) as [e1 E1].
  rewrite (bind_ok _ _ _ _ _ E1). clear E1.
  destruct (load_snapshot_view kv na e1 Hs Hkv Hlog Hc Ha Ho) as (nb & E2 & Fb & Tb & Cb & Lb & Vb & Ub).
  rewrite (bind_ok _ _ _ _ _ E2). clear E2. unfold frame_view in Fb.
  injection Fb as B1 B2 B3 B4 B5 B6 B7 B8 B9 B10 B11 B12 B13 B14. injection Tb as B15 B16.
  injection Cb as B17 B18 B19.
  destruct (load_meta_view t v nb e1) as (nc & E3 & Fc & Tc & Cc & Vc & Uc);
    [by rewrite B4|by rewrite B15|by rewrite B16|].
  rewrite (bind_ok _ _ _ _ _ E3). clear E3. unfold frame_view in Fc.
  injection Fc as C1 C2 C3 C4 C5 C6 C7 C8 C9 C10 C11 C12 C13 C14. injection Tc as C15 C16.
  injection Cc as C17 C18 C19 C20.
  pose proof (load_log_holds l (mkN nc e1) Hf) as E4. cbn [nd env] in E4.
  rewrite (bind_ok _ _ _ _ _ (E4 ltac:(by rewrite C5, B5) ltac:(intros He; rewrite C5, B5 in He;
    rewrite C20, Lb by done; destruct Hl as [Hl|[_ ->]]; [|done]; change (log_store_ na) with (log_store_ n) in He;
    rewrite Hl in He; by apply stored_nonempty in He; [|apply encode_log_size]))). clear E4.
  set (ne := nc <| log_ := l |>).
  assert (Node.apply_committed_entries (mkN ne e1) = (Ok tt, mkN ne e1)) as E5.
  { apply apply_committed_idle; change (commit_index_ ne) with (commit_index_ nc);
      change (last_applied_ ne) with (last_applied_ nc); change (snap_last_index_ ne) with (snap_last_index_ nc);
      change (pending_reads_ ne) with (pending_reads_ nc).
    - rewrite C17, C18, B17, B18. done.
    - rewrite C13, B13. exact Hr.
    - rewrite C18, B18, C7, B7. done. }
  rewrite (bind_ok _ _ _ _ _ E5). clear E5.
  rewrite Ub in Uc. injection Uc as Us Ug. rewrite Vb in Vc.
  destruct (arm_election ne e1) as (i & e' & E6); [by rewrite (Us : election_scheduled_ ne = _)|].
  eexists _, e'. split; [exact E6|]. split; [|split; [|split]].
  - change (kept_view _) with (id_ nc, peers_ nc, cfg_ nc, (current_term_ nc, voted_for_ nc, l),
      (snap_last_index_ nc, snap_last_term_ nc, snap_data_ nc)).
    by rewrite C1, C2, C3, C15, C16, C7, C8, C9, B1, B2, B3, B7, B8, B9.
  - change (memory_view _) with (running_ nc, role_ nc, (commit_index_ nc, last_applied_ nc, kv_ nc),
      (pending_clients_ nc, pending_reads_ nc, config_change_pending_ nc)).
    rewrite C10, C11, C17, C18, C19, C12, C13, C14, B10, B11, B17, B18, B19, B12, B13, B14.
    change (pending_reads_ na) with (pending_reads_ n). by rewrite Hr.
  - exact Vc.
  - change (timer_view _) with (true, wrap64 (election_generation_ nc + 1)). by rewrite Ug.
Qed.

(** ** Crash and restart *)

Lemma snapshot_holds_crash kv n n' : snapshot_holds kv n → crashed kv n n' → snapshot_holds kv n'.
Proof.
  intros Hs [_ Hst _ Hsn _ _ _ _]. injection Hst as _ _ Hst. injection Hsn as H1 H2 H3.
  unfold snapshot_holds. rewrite Hst, H1, H2, H3.
  destruct Hs as [(-> & ? & ? & ?)|(-> & ? & ? & ? & ? & ?)]; [by left|right]. by rewrite crash_stored.
Qed.

Lemma log_holds_crash l st : log_holds l st → log_holds l (DurableStore.crash st).
Proof. intros [->|[-> ->]]; [left; apply crash_stored|by right]. Qed.

Lemma restart_after_crash kv n n' (e : E) :
  on_disk kv n → crashed kv n n' →
  ∃ n2 e2, Node.restart (mkN n' e) = (Ok tt, mkN n2 e2) ∧ kept_view n2 = kept_view n ∧
    memory_view n2 = (true, Follower, (snap_last_index_ n, snap_last_index_ n, kv), (∅, [], false)) ∧
    volatile_view n2 = fresh_view n ∧ timer_view n2 = (true, wrap64 (election_generation_ n + 1)).
Proof.
  intros [Hm Hl Hf Hs Ho] Hcr. pose proof (snapshot_holds_crash kv n n' Hs Hcr) as Hs'.
  destruct Hcr as [Hcfg Hst Hmem Hsn Hvol Hpend Hrest Htimer]. injection Htimer as T1 T2. injection Hcfg as G1 G2 G3 G4.
  injection Hst as S1 S2 S3. injection Hsn as N1 N2 N3. injection Hvol as V1 V2 V3 V4 V5.
  injection Hpend as P1 P2 P3.
  unfold Node.restart. rewrite !bind_upd. cbn [nd env].
  match goal with |- context [Node.start (mkN ?m e)] => set (nr := m) end.
  destruct (start_recovers kv (current_term_ n) (voted_for_ n) (log_ n) nr e) as (n2 & e2 & E2 & K & V & Z & T).
  - exact Hs'.
  - reflexivity.
  - reflexivity.
  - change (commit_index_ n' = snap_last_index_ n'). congruence.
  - change (last_applied_ n' = snap_last_index_ n'). congruence.
  - change (log_store_ n' = empty_store → snapshot_store_ n' = empty_store). rewrite S2, S3. intros Hemp.
    destruct Hl as [Hl|[Hl _]]; [|by rewrite (Ho Hl)]. rewrite Hl, crash_stored in Hemp.
    by apply stored_nonempty in Hemp; [|apply encode_log_size].
  - change (meta_holds (current_term_ n) (voted_for_ n) (meta_store_ n')). rewrite S1. by apply meta_crash.
  - reflexivity.
  - reflexivity.
  - change (log_holds (log_ n) (log_store_ n')). rewrite S2. by apply log_holds_crash.
  - done.
  - exact P2.
  - exact T1.
  - exists n2, e2. split; [exact E2|]. rewrite K, V, Z, T. split; [|split; [|split]].
    + by rewrite (G1 : id_ nr = _), (G2 : peers_ nr = _), (G3 : cfg_ nr = _),
        (N1 : snap_last_index_ nr = _), (N2 : snap_last_term_ nr = _), (N3 : snap_data_ nr = _).
    + by rewrite (V1 : role_ nr = _), (N1 : snap_last_index_ nr = _), (P1 : pending_clients_ nr = _),
        (P3 : config_change_pending_ nr = _).
    + exact Hrest.
    + by rewrite (T2 : election_generation_ nr = _).
Qed.

(** C5: recovery.  If the stores of a node hold its term, vote, log and
    snapshot then [crash] and a later [restart] both return, and the node is
    back as a running follower with the same term, vote, log and snapshot,
    with the key-value state of the snapshot, [commit_index_] and
    [last_applied_] at the snapshot, and nothing pending.  It knows no leader
    and no votes, has no replication state and no heartbeat, and its election
    timer is armed with the next generation; the read round goes on where it
    was. *)
Theorem crash_restart_recovers (kv : KvStore) (n : RaftNode) (e e' : E) (Hdisk : on_disk kv n) :
  ∃ n1 e1 n2 e2,
    Node.crash (mkN n e) = (Ok tt, mkN n1 e1) ∧ running_ n1 = false ∧
    Node.restart (mkN n1 e') = (Ok tt, mkN n2 e2) ∧ kept_view n2 = kept_view n ∧
    memory_view n2 = (true, Follower, (snap_last_index_ n, snap_last_index_ n, kv), (∅, [], false)) ∧
    volatile_view n2 = (None, (∅, 0, 0), (∅, ∅), false, (next_read_round_ n, state_change_cb_ n)) ∧
    timer_view n2 = (true, wrap64 (election_generation_ n + 1)).
Proof.
  destruct (crash_spec kv n e (od_snapshot _ _ Hdisk)) as (n1 & e1 & E1 & Hcr).
  destruct (restart_after_crash kv n n1 e' Hdisk Hcr) as (n2 & e2 & E2 & K & V & Z & T).
  exists n1, e1, n2, e2. split; [done|]. split; [by destruct Hcr as [[=] _ _ _ _ _ _ _]|].
  split; [done|]. split; [done|]. split; [done|]. split; [exact Z|exact T].
Qed.
End Recovery.

(** The snapshot format.  The key-value state written by [take_snapshot]
    and read by [load_snapshot], [crash] and [handle_install_snapshot] is the
    same map again. *)
Theorem kv_snapshot_roundtrip (kv : KvStore) (rest : bytes) (Hfits : kv_fits kv) :
  Node.decode_kv (Node.encode_kv kv ++ rest) = (Ok (kv_data kv), rest).
Proof. by apply reads_kv. Qed.

Lemma demo_kv_fits : kv_fits (mkKvStore {["x" := "a"; "y" := ""]}).
Proof.
  unfold kv_fits. replace (kv_iter _) with [("x", "a"); ("y", "")]%string by (vm_compute; reflexivity).
  split; [split; vm_compute; congruence|].
  repeat (apply Forall_cons_2; [split; split; vm_compute; congruence|]). apply Forall_nil_2.
Qed.

Lemma kv_snapshot_roundtrip_witness :
  Node.decode_kv (Node.encode_kv (mkKvStore {["x" := "a"; "y" := ""]}) ++ [1]) =
  (Ok {["x" := "a"; "y" := ""]}, [1]).
Proof. apply (kv_snapshot_roundtrip (mkKvStore {["x" := "a"; "y" := ""]}) [1] demo_kv_fits). Defined.

(** A follower of term 3 that voted for 2, with a snapshot at index 4 and one
    entry after it. *)
Definition demo_disk : RaftNode :=
  let data := Node.encode_kv (mkKvStore {["x" := "a"; "y" := ""]}) in
  persisted ((make_node 1 [2; 3] default_config)
    <| running_ := true |> <| current_term_ := 3 |> <| voted_for_ := Some 2 |>
    <| snap_last_index_ := 4 |> <| snap_last_term_ := 2 |> <| snap_data_ := data |>
    <| snapshot_store_ := stored (snapshot_bytes 4 2 data) |>
    <| log_ := mkRaftLog [mkLogEntry 3 5 (CmdPut "x" "b")] 4 2 |>
    <| commit_index_ := 5 |> <| last_applied_ := 5 |> <| kv_ := mkKvStore {["x" := "b"; "y" := ""]} |>).

Lemma demo_disk_ok : on_disk (mkKvStore {["x" := "a"; "y" := ""]}) demo_disk.
Proof.
  split.
  - split; [split; vm_compute; congruence|]. split; [|by left].
    intros c [= <-]. split; vm_compute; congruence.
  - by left.
  - split; [split; vm_compute; congruence|]. split; [split; vm_compute; congruence|].
    split; [split; vm_compute; congruence|]. apply Forall_singleton. fits_compute.
  - right. split; [done|]. split; [done|]. split; [apply demo_kv_fits|].
    split; [|split]; (split; vm_compute; congruence).
  - intros Hs. vm_compute in Hs. congruence.
Qed.

Lemma crash_restart_recovers_witness :
  ∃ n1 e1 n2 e2,
    Node.crash (mkN demo_disk (mkTrace [] 0 [])) = (Ok tt, mkN n1 e1) ∧ running_ n1 = false ∧
    Node.restart (mkN n1 e1) = (Ok tt, mkN n2 e2) ∧ kept_view n2 = kept_view demo_disk ∧
    memory_view n2 = (true, Follower, (4, 4, mkKvStore {["x" := "a"; "y" := ""]}), (∅, [], false)) ∧
    volatile_view n2 = (None, (∅, 0, 0), (∅, ∅), false, (next_read_round_ demo_disk, state_change_cb_ demo_disk)) ∧
    timer_view n2 = (true, wrap64 (election_generation_ demo_disk + 1)).
Proof.
  destruct (crash_restart_recovers _ demo_disk (mkTrace [] 0 []) (mkTrace [] 0 []) demo_disk_ok)
    as (n1 & e1 & _ & _ & Hc & _).
  destruct (crash_restart_recovers _ demo_disk (mkTrace [] 0 []) e1 demo_disk_ok)
    as (n1' & e1' & n2 & e2 & Hc' & Hr & Hrest). rewrite Hc in Hc'. injection Hc' as <- <-.
  exists n1, e1, n2, e2. split; [exact Hc|]. split; [exact Hr|exact Hrest].
Defined.
