(* ===== verification/NodeAppend.v ===== *)
(** * The AppendEntries handler, branch by branch

    [handle_append_entries] of [RaftNode], on a log with or without a snapshot
    before it: what it answers and what happens to the log when the message is
    of an old term, when the previous entry does not match, and when the entries
    are accepted. *)

From S2P Require Import Prelude Codec DurableStore Types Wal KvStore RaftLog Rpc Env Node.
From S2P Require Import NodeVotes NodeElection LogTree NodeLog.

(** ** The log *)

(** The answer to a message whose previous entry does not match: past the end
    of the log, the index after it; at an entry of another term, that term with
    the last index of it in the log; behind the snapshot, the first index after
    the snapshot. *)
Definition conflict_answer (prev : Index) (l : RaftLog) (ci : Index) (ct : Term) : Prop :=
  (Log.last_index l < prev ∧ ci = Log.last_index l + 1 ∧ ct = 0) ∨
  (base_index_ l < prev <= Log.last_index l ∧ known_term l prev = Some ct ∧
   known_term l ci = Some ct ∧ base_index_ l < ci ∧
   ∀ j e, entry_at l j = Some e → e_term e = ct → j <= ci) ∨
  (prev <= base_index_ l ∧ ci = base_index_ l + 1 ∧ ct = 0).

Lemma last_of_term l i x :
  log_wf l → entry_at l i = Some x →
  let ci := Log.last_index_for_term (e_term x) l in
  base_index_ l < ci ∧ known_term l ci = Some (e_term x) ∧
  ∀ j e, entry_at l j = Some e → e_term e = e_term x → j <= ci.
Proof.
  intros W Hx ci. unfold ci, Log.last_index_for_term.
  pose proof (scan_term_rev (e_term x) (entries_ l)) as Hscan.
  destruct (Log.scan_term (e_term x) (rev (entries_ l))) as [c|].
  - destruct Hscan as (k & y & Hk & Hy & <- & Hmax). pose proof (wf_index _ W k y Hk) as Hi.
    split_and!; [lia| |].
    + rewrite known_term_entry by lia. unfold entry_at. rewrite decide_True by lia.
      replace (Z.to_nat _) with k by lia. rewrite Hk. simpl. by rewrite Hy.
    + intros j e He Ht. destruct (entry_at_Some l j e W He) as [Hj _]. unfold entry_at in He. case_decide; [|done].
      pose proof (Hmax _ _ He Ht). lia.
  - unfold entry_at in Hx. case_decide; [|done]. by destruct (Hscan _ _ Hx).
Qed.

Lemma conflict_spec ae l :
  log_wf l → 0 <= ae_prev_log_index ae → Log.last_index l < UINT64_MAX →
  ∃ ci ct, Node.conflict_of ae l = Ok (ci, ct) ∧ conflict_answer (ae_prev_log_index ae) l ci ct.
Proof.
  intros W Hp Hmax. unfold Node.conflict_of, Log.base_index. pose proof (last_index_nonneg l) as Hnn.
  pose proof (wf_base _ W). pose proof (last_index_wf l W). pose proof (size_z_nonneg (entries_ l)).
  rewrite !wrap64_id by (unfold is_u64, UINT64_MAX in *; lia).
  destruct (Z.ltb_spec (Log.last_index l) (ae_prev_log_index ae)) as [Hgt|Hle].
  { exists (Log.last_index l + 1), 0. split; [done|by left]. }
  destruct (Z.ltb_spec (base_index_ l) (ae_prev_log_index ae)) as [Hb|Hb].
  2: { exists (base_index_ l + 1), 0. split; [done|]. right; right. by split_and!. }
  destruct (at_ok l (ae_prev_log_index ae) W) as (x & -> & Hx); [lia|].
  destruct (last_of_term l _ x W Hx) as (Hci & Hk & Hl). eexists _, _. split; [done|].
  rewrite (proj2 (Z.eqb_neq _ _)) by lia. right; left.
  split_and!; [done..| |done|done|done]. by rewrite known_term_entry, Hx by lia.
Qed.

(** The previous entry an AppendEntries names is in the log, or it names
    none. *)
Definition prev_matches (ae : AppendEntries) (l : RaftLog) : Prop :=
  ae_prev_log_index ae = 0 ∨ known_term l (ae_prev_log_index ae) = Some (ae_prev_log_term ae).

(** The log [l'] is [l] with the entries of [ae] in place: the snapshot before
    it is the same and nothing changes up to the previous entry; every entry of
    [ae] behind the snapshot is there, or one of the same term that was there
    before; and either nothing changed or the log ends with the last entry of
    [ae]. *)
Definition log_takes (ae : AppendEntries) (l l' : RaftLog) : Prop :=
  base_index_ l' = base_index_ l ∧ base_term_ l' = base_term_ l ∧
  (∀ i, i <= ae_prev_log_index ae → entry_at l' i = entry_at l i) ∧
  (∀ k e, ae_entries ae !! k = Some e → base_index_ l < e_index e →
     ∃ x, entry_at l' (e_index e) = Some x ∧ e_term x = e_term e ∧
       (x = e ∨ entry_at l (e_index e) = Some x)) ∧
  (l' = l ∨ Log.last_index l' = ae_prev_log_index ae + size_z (ae_entries ae)).

(** Entries that the snapshot covers are passed over. *)
Lemma accept_covered es l es' :
  log_wf l → Forall (λ e, e_index e <= base_index_ l) es → accept_all (es ++ es') l = accept_all es' l.
Proof.
  intros W. pose proof (last_index_wf l W). pose proof (size_z_nonneg (entries_ l)).
  induction 1 as [|e es He _ IH]; [done|]. cbn [app accept_all]. unfold Node.accept_entry, Log.base_index.
  rewrite (proj2 (Z.leb_le _ _)) by lia. rewrite (proj2 (Z.leb_le _ _)) by lia. done.
Qed.

Lemma accept_takes ae l :
  log_wf l → 0 <= ae_prev_log_index ae → prev_matches ae l →
  (∀ k e, ae_entries ae !! k = Some e → e_index e = ae_prev_log_index ae + 1 + Z.of_nat k) →
  ae_prev_log_index ae + size_z (ae_entries ae) < UINT64_MAX →
  ∃ l', accept_all (ae_entries ae) l = Ok l' ∧ log_wf l' ∧ log_takes ae l l'.
Proof.
  intros W Hp Hm Hidx Hmax. set (pi := ae_prev_log_index ae) in *. set (es := ae_entries ae) in *.
  pose proof (last_index_wf l W) as Hlast. pose proof (size_z_nonneg (entries_ l)). pose proof (wf_base _ W).
  set (d := Z.to_nat (base_index_ l - pi)).
  assert (pi <= Log.last_index l) as Hpl.
  { destruct Hm as [Hm|Hm]; [fold pi in Hm; lia|]. apply (known_term_Some _ _ _ W) in Hm. fold pi in Hm. lia. }
  rewrite <-(take_drop d es), accept_covered; [|done|].
  2: { apply Forall_forall. intros e [k Hk]%list_elem_of_lookup_1. apply lookup_take_Some in Hk as [Hk Hd].
       specialize (Hidx k e Hk). lia. }
  destruct (decide (drop d es = [])) as [Hnil|Hne].
  { exists l. rewrite Hnil. split; [done|]. split; [done|]. split_and!; [done..| |by left].
    intros k e Hk Hb. fold es in Hk. specialize (Hidx k e Hk). apply (f_equal length) in Hnil.
    rewrite length_drop in Hnil. simpl in Hnil. apply lookup_lt_Some in Hk. lia. }
  assert (d < length es)%nat as Hd.
  { destruct (decide (d < length es)%nat); [done|]. destruct Hne. apply drop_ge. lia. }
  destruct (accept_all_spec (drop d es) l (pi + Z.of_nat d) W) as (l' & -> & W' & Hb' & Ht' & K1 & K2 & K3).
  - lia.
  - unfold size_z in *. rewrite length_drop. lia.
  - intros k e Hk. rewrite lookup_drop in Hk. rewrite (Hidx _ _ Hk). lia.
  - exists l'. split; [done|]. split; [done|]. split_and!; [done..| | |].
    + intros i Hi. fold pi in Hi. apply K1. lia.
    + intros k e Hk Hb. fold es in Hk. pose proof (Hidx k e Hk). apply (K2 (k - d)%nat).
      rewrite lookup_drop. by replace (d + (k - d))%nat with k by lia.
    + fold pi es. destruct K3 as [?|K3]; [by left|right]. rewrite K3. unfold size_z. rewrite length_drop. lia.
Qed.

(** ** The handler *)

Section Append.
Context {E : Type} `{EnvLaws E}.
Implicit Types (s : nstate E).

(** Nothing was sent. *)
Definition unsent s s' : Prop := sent (env s') = sent (env s).
#[local] Instance unsent_preorder : PreOrder unsent.
Proof. split; [by intros s|]. intros s1 s2 s3 H1 H2. unfold unsent in *. congruence. Qed.

Lemma unsent_env {A} (m : M E A) : (∀ e, ∃ a e', m e = (Ok a, e') ∧ sent e' = sent e) → keeps unsent (liftE m).
Proof. intros Hm s. unfold liftE, unsent. by destruct (Hm (env s)) as (a & e' & -> & He). Qed.

Ltac unsent_base := first
  [ by intros ?
  | apply unsent_env; intros;
    first [ apply schedule_sent | apply random_sent
          | match goal with |- context [cancel ?i ?e] => destruct (cancel_sent i e) as (? & ? & ?) end; eauto
          | match goal with |- context [read_done ?a ?b ?c ?d ?e] =>
              destruct (read_done_sent a b c d e) as (? & ? & ?) end; eauto
          | match goal with |- context [state_changed ?a ?b ?c ?e] =>
              destruct (state_changed_sent a b c e) as (? & ? & ?) end; eauto ] ].

Lemma unsent_become_follower t l : keeps unsent (Node.become_follower t l : M (nstate E) unit).
Proof.
  unfold Node.become_follower, Node.persist, Node.cancel_pending_reads, Node.invoke_read, Node.cancel_heartbeat,
    Node.notify_state_change, Node.cancel_election_timeout, Node.schedule_election_timeout.
  repeat keeps_step unsent_base.
Qed.

(** What following a leader leaves alone. *)
Definition data_view (n : RaftNode) := (id_ n, log_ n, commit_index_ n, last_applied_ n, kv_ n).

Lemma same_become_follower t l : keeps (same data_view) (Node.become_follower t l : M (nstate E) unit).
Proof.
  unfold Node.become_follower, Node.persist, Node.cancel_pending_reads, Node.invoke_read, Node.cancel_heartbeat,
    Node.notify_state_change, Node.cancel_election_timeout, Node.schedule_election_timeout.
  repeat keeps_step ltac:(first [apply same_env | apply same_rd | apply same_upd; intros; reflexivity]).
Qed.

(** After the term test: a follower of the message's term; the log is as it
    was and nothing has been sent. *)
Lemma follow_spec t from s :
  current_term_ (nd s) <= t →
  ∃ s1, (if current_term_ (nd s) <? t then Node.become_follower t (Some from)
         else Node.become_follower (current_term_ (nd s)) (Some from)) s = (Ok tt, s1) ∧
    data_view (nd s1) = data_view (nd s) ∧ role_ (nd s1) = Follower ∧ current_term_ (nd s1) = t ∧
    sent (env s1) = sent (env s).
Proof.
  intros Ht.
  assert (∀ t', t' = t → ∃ s1, Node.become_follower t' (Some from) s = (Ok tt, s1) ∧
    data_view (nd s1) = data_view (nd s) ∧ role_ (nd s1) = Follower ∧ current_term_ (nd s1) = t ∧
    sent (env s1) = sent (env s)) as K.
  { intros t' ->. destruct (become_follower_spec t (Some from) s) as (s1 & H1 & C & R).
    pose proof (same_become_follower t (Some from) s) as D. pose proof (unsent_become_follower t (Some from) s) as U.
    rewrite H1 in D, U. exists s1. split; [done|]. split; [exact D|]. split; [done|]. split; [|exact U].
    destruct C as [_ -> _ _ _ _]. unfold bump_term.
    destruct (Z.ltb_spec (current_term_ (nd s)) t); simpl; [done|lia]. }
  destruct (Z.ltb_spec (current_term_ (nd s)) t); apply K; lia.
Qed.

Lemma send_last to p s :
  ∃ e', Node.send to p s = (Ok tt, mkN (nd s) e') ∧
        sent e' = sent (env s) ++ [mkMessage (id_ (nd s)) to p].
Proof.
  unfold Node.send. rewrite bind_rd. unfold liftE.
  destruct (net_send_sent (id_ (nd s)) to p (env s)) as (e' & -> & He). by exists e'.
Qed.

(** [send(from, reply.encode())] *)
Definition reply (from : NodeId) (r : AppendEntriesReply) : M (nstate E) unit :=
  Node.send from (Encode.AppendEntriesReply r).

(** The reply [r] to [from] is the only message sent. *)
Definition replied (from : NodeId) (r : AppendEntriesReply) s s' : Prop :=
  sent (env s') = sent (env s) ++ [mkMessage (id_ (nd s)) from (Encode.AppendEntriesReply r)].

End Append.

(** A follower whose second entry, of term 1, the leader of term 2 replaces. *)
Definition demo_follower : RaftNode :=
  (make_node 1 [2] default_config)
    <| log_ := mkRaftLog [mkLogEntry 1 1 (CmdPut "x" "a"); mkLogEntry 1 2 (CmdPut "x" "b")] 0 0 |>
    <| current_term_ := 1 |>.
Definition demo_overwrite : AppendEntries :=
  mkAppendEntries 2 2 1 1 [mkLogEntry 2 2 (CmdPut "y" "c")] 0.

