(* ===== verification/Findings.v ===== *)
(** * Executions that show defects of the implementation

    Concrete executions of the cluster, evaluated.  Each theorem exhibits what
    the code does where the protocol or a comment promises otherwise. *)

From S2P Require Import Prelude Codec DurableStore Types Wal KvStore RaftLog Rpc Env Node.
From S2P Require Import Election NodeVotes NodeElection Cluster.

(** The messages of the executions. *)
Definition ae_msg (from to : NodeId) (t : Term) (prev : Index) (prev_term : Term)
    (es : list LogEntry) (commit : Index) : Message :=
  mkMessage from to (Encode.AppendEntries (mkAppendEntries t from prev prev_term es commit)).
Definition aer_msg (from to : NodeId) (t : Term) (ok : bool) : Message :=
  mkMessage from to (Encode.AppendEntriesReply (mkAppendEntriesReply t ok 0 0)).
Definition rv_msg (from to : NodeId) (t : Term) (last : Index) (last_term : Term) : Message :=
  mkMessage from to (Encode.RequestVote (mkRequestVote t from last last_term)).
Definition rvr_msg (from to : NodeId) (t : Term) : Message :=
  mkMessage from to (Encode.RequestVoteReply (mkRequestVoteReply t true)).

Definition put_x (v : string) (t : Term) (i : Index) : LogEntry := mkLogEntry t i (CmdPut "x" v).

(** Node 1 leads in term 1 and takes a command; its AppendEntries with the
    command is lost, and node 2 answers the heartbeat sent before it. *)
Definition stale_reply_run : list action :=
  demo_election ++
  [ At 1 (Submit 1000 1 (CmdPut "x" "a") 7) 5 [];
    At 2 (Deliver (ae_msg 1 2 1 0 0 [] 0)) 5 [230000];
    At 1 (Deliver (aer_msg 2 1 1 true)) 6 [] ].

(** Then nodes 2 and 3 elect node 2 and commit another command there. *)
Definition diverge_run : list action :=
  stale_reply_run ++
  [ At 2 (Fire (TElection 2 7)) 7 [200000];
    At 3 (Deliver (rv_msg 2 3 2 0 0)) 7 [200000];
    At 2 (Deliver (rvr_msg 3 2 2)) 8 [];
    At 2 (Submit 1001 1 (CmdPut "x" "b") 8) 9 [];
    At 3 (Deliver (ae_msg 2 3 2 0 0 [put_x "b" 2 1] 0)) 10 [200000];
    At 2 (Deliver (aer_msg 3 2 2 true)) 11 [] ].

(** Node 1 leads in term 1 and takes a command that reaches nobody; nodes 2
    and 3 elect node 2, which commits another command and replicates it to
    node 1, at the index of the lost one. *)
Definition overwrite_run : list action :=
  demo_election ++
  [ At 1 (Submit 1000 1 (CmdPut "x" "a") 7) 5 [];
    At 2 (Fire (TElection 2 5)) 7 [200000];
    At 3 (Deliver (rv_msg 2 3 2 0 0)) 7 [200000];
    At 2 (Deliver (rvr_msg 3 2 2)) 8 [];
    At 2 (Submit 1001 1 (CmdPut "x" "b") 8) 9 [];
    At 3 (Deliver (ae_msg 2 3 2 0 0 [put_x "b" 2 1] 0)) 10 [200000];
    At 2 (Deliver (aer_msg 3 2 2 true)) 11 [];
    At 1 (Deliver (ae_msg 2 1 2 0 0 [put_x "b" 2 1] 0)) 12 [200000];
    At 2 (Fire (THeartbeat 2)) 13 [] ].

(** The client callbacks a node runs for an event. *)
Definition callbacks (ev : event) (n : RaftNode) : list (Z * CmdResult) :=
  omap (λ e, match e with EClientDone tok r => Some (tok, r) | _ => None end)
    (tr_effects (env (node_event ev (mkN n (mkTrace [] 0 [200000]))).2)).
Definition reads_done (ev : event) (n : RaftNode) : list (Z * bool * option string) :=
  omap (λ e, match e with EReadDone tok ok v => Some (tok, ok, v) | _ => None end)
    (tr_effects (env (node_event ev (mkN n (mkTrace [] 0 [200000]))).2)).

(** The node after an event. *)
Definition after_event (ev : event) (n : RaftNode) : RaftNode :=
  nd (node_event ev (mkN n (mkTrace [] 0 [200000]))).2.

(** ** Committing *)

(** A success reply is credited with [next_index_[from] - 1], which
    [replicate_to] has already advanced over entries the sender of the reply
    has not seen: the leader commits and applies an entry that no other node
    has. *)
Theorem commit_without_replication :
  ∃ c n1 n2 n3,
    run_cluster stale_reply_run (init_cluster [1; 2; 3] default_config) = Some c ∧
    cl_nodes c !! 1 = Some n1 ∧ cl_nodes c !! 2 = Some n2 ∧ cl_nodes c !! 3 = Some n3 ∧
    role_ n1 = Leader ∧ commit_index_ n1 = 1 ∧ last_applied_ n1 = 1 ∧
    entries_ (log_ n1) = [put_x "a" 1 1] ∧ entries_ (log_ n2) = [] ∧ entries_ (log_ n3) = [].
Proof. eexists _, _, _, _. split_and!; [vm_compute; reflexivity..| | | | | |]; reflexivity. Qed.

(** As a consequence two nodes apply different commands at the same index. *)
Theorem replicas_diverge :
  ∃ c n1 n2,
    run_cluster diverge_run (init_cluster [1; 2; 3] default_config) = Some c ∧
    cl_nodes c !! 1 = Some n1 ∧ cl_nodes c !! 2 = Some n2 ∧
    last_applied_ n1 = 1 ∧ last_applied_ n2 = 1 ∧
    Node.local_get "x" n1 = Some "a" ∧ Node.local_get "x" n2 = Some "b".
Proof. eexists _, _, _. split_and!; [vm_compute; reflexivity..| | | |]; vm_compute; reflexivity. Qed.

(** A success reply from a server that is not a peer finds no [next_index_]:
    0 - 1 wraps and the server counts as holding every entry. *)
Theorem unknown_server_counts :
  ∃ c n1 n2 n3,
    run_cluster
      (demo_election ++
       [ At 1 (Submit 1000 1 (CmdPut "x" "a") 7) 5 []; Inject (aer_msg 9 1 1 true);
         At 1 (Deliver (aer_msg 9 1 1 true)) 6 [] ]) (init_cluster [1; 2; 3] default_config) = Some c ∧
    cl_nodes c !! 1 = Some n1 ∧ cl_nodes c !! 2 = Some n2 ∧ cl_nodes c !! 3 = Some n3 ∧
    match_index_ n1 !! 9 = Some UINT64_MAX ∧ commit_index_ n1 = 1 ∧
    entries_ (log_ n2) = [] ∧ entries_ (log_ n3) = [].
Proof. eexists _, _, _, _. split_and!; [vm_compute; reflexivity..| | | |]; vm_compute; reflexivity. Qed.

(** A node over a sequence of events, with the messages it sends. *)
Definition node_trace (evs : list event) (n : RaftNode) : RaftNode * list Message :=
  fold_left (λ '(n, out) ev, let x := (node_event ev (mkN n (mkTrace [] 0 [200000]))).2 in
    (nd x, out ++ omap (λ e, match e with ESend m => Some m | _ => None end) (tr_effects (env x)))) evs (n, []).

(** Node 1 leads, takes the removals of 3 and 2, and commits both on one reply
    to a heartbeat, delivered twice; its AppendEntries are lost.  Then it
    crashes, and stands for election after its restart.  The others have heard
    of no removal, and elect node 2. *)
Definition removing_events : list event :=
  [ Start; Fire (TElection 1 1); Deliver (rvr_msg 2 1 1); Submit 1000 1 (CmdRemoveServer 3) 7;
    Deliver (aer_msg 2 1 1 true); Submit 1000 2 (CmdRemoveServer 2) 8; Deliver (aer_msg 2 1 1 true);
    Crash; Restart; Fire (TElection 1 4) ].
Definition removed_events : list event :=
  [ Start; Deliver (rv_msg 1 2 1 0 0); Deliver (ae_msg 1 2 1 0 0 [] 0); Fire (TElection 2 7); Deliver (rvr_msg 3 2 2) ].
Definition voting_events : list event := [ Start; Deliver (rv_msg 2 3 2 0 0) ].

(** With membership changes two nodes may lead in one term, so the theorems on
    elections and logs are about fixed memberships: the removals take effect
    at the leader when it counts them as committed, which the replies of above
    make it do too early. *)
Theorem removals_split_cluster :
  let '(n1, out1) := node_trace removing_events (make_node 1 [2; 3] default_config) in
  let '(n2, out2) := node_trace removed_events (make_node 2 [1; 3] default_config) in
  let '(n3, out3) := node_trace voting_events (make_node 3 [1; 2] default_config) in
  (∀ m, Deliver m ∈ removing_events ++ removed_events ++ voting_events → m ∈ out1 ++ out2 ++ out3) ∧
  role_ n1 = Leader ∧ current_term_ n1 = 2 ∧ role_ n2 = Leader ∧ current_term_ n2 = 2.
Proof.
  destruct (node_trace removing_events _) as [n1 out1] eqn:E1. destruct (node_trace removed_events _) as [n2 out2] eqn:E2.
  destruct (node_trace voting_events _) as [n3 out3] eqn:E3. vm_compute in E1, E2, E3.
  injection E1 as <- <-. injection E2 as <- <-. injection E3 as <- <-. split; [|done].
  intros m Hm. unfold removing_events, removed_events, voting_events in Hm. cbn [app] in Hm.
  repeat (apply elem_of_cons in Hm as [Hm|Hm]; [try discriminate Hm; injection Hm as ->; apply (bool_decide_eq_true_1 _); vm_compute; reflexivity|]).
  by apply elem_of_nil in Hm.
Qed.

(** ** Clients *)

(** A client whose command was overwritten gets the answer to the command
    that took its index: [pending_clients_] survives stepping down. *)
Theorem stale_client_answered :
  ∃ c n1,
    run_cluster overwrite_run (init_cluster [1; 2; 3] default_config) = Some c ∧
    cl_nodes c !! 1 = Some n1 ∧ ae_msg 2 1 2 1 2 [] 1 ∈ cl_net c ∧
    entries_ (log_ n1) = [put_x "b" 2 1] ∧
    callbacks (Deliver (ae_msg 2 1 2 1 2 [] 1)) n1 = [(7, mkCmdResult true "" "")].
Proof.
  eexists _, _. split_and!; [vm_compute; reflexivity..| | |]; [|vm_compute; reflexivity..].
  apply (bool_decide_unpack _). vm_compute. exact I.
Qed.

(** ** A follower *)

(** A node started with peers 2 and 3, after some messages. *)
Definition follower_after (cfg : RaftConfig) (ms : list Message) : RaftNode :=
  fold_left (λ n m, after_event (Deliver m) n) ms (after_event Start (make_node 1 [2; 3] cfg)).

(** A leader's commit index reaches past the entries its message brought: the
    follower commits and applies an entry the leader never had. *)
Definition old_tail : list Message :=
  [ ae_msg 2 1 1 0 0 [put_x "a" 1 1; put_x "stale" 1 2] 1;
    ae_msg 3 1 2 0 0 [put_x "a" 1 1] 2 ].

Theorem stale_tail_committed :
  let n := follower_after default_config old_tail in
  commit_index_ n = 2 ∧ Node.local_get "x" n = Some "stale".
Proof. vm_compute. done. Qed.

(** A snapshot older than what the node has applied takes the key-value store
    back, and [last_applied_] does not follow. *)
Definition late_snapshot : list Message :=
  [ ae_msg 2 1 1 0 0 [put_x "a" 1 1; put_x "b" 1 2] 2;
    mkMessage 2 1 (Encode.InstallSnapshot
      (mkInstallSnapshot 1 2 1 1 (Node.encode_kv (mkKvStore {["x" := "a"]})))) ].

Theorem late_snapshot_loses_state :
  let before := follower_after default_config (take 1 late_snapshot) in
  let after := follower_after default_config late_snapshot in
  Node.local_get "x" before = Some "b" ∧ last_applied_ before = 2 ∧
  Node.local_get "x" after = Some "a" ∧ last_applied_ after = 2.
Proof. vm_compute. done. Qed.

(** A snapshot that ends inside the log, at an entry of another term: the
    entries behind it are kept, although they belong to the entries that the
    snapshot replaced.  Afterwards this node and one that only received the
    first message hold the same entry 3 and disagree on the term of entry 2. *)
Definition inner_snapshot : list Message :=
  [ ae_msg 2 1 1 0 0 [put_x "a" 1 1; put_x "b" 1 2; put_x "c" 1 3] 0;
    mkMessage 3 1 (Encode.InstallSnapshot
      (mkInstallSnapshot 2 3 2 2 (Node.encode_kv (mkKvStore {["x" := "z"]})))) ].

Theorem snapshot_keeps_conflicting_tail :
  let other := log_ (follower_after default_config (take 1 inner_snapshot)) in
  let log := log_ (follower_after default_config inner_snapshot) in
  Log.at_ 3 other = Ok (put_x "c" 1 3) ∧ Log.at_ 3 log = Ok (put_x "c" 1 3) ∧
  Log.term_at 2 other = Ok 1 ∧ Log.term_at 2 log = Ok 2.
Proof. vm_compute. done. Qed.

(** ** Reads *)

(** The leader of five nodes serves a read on two copies of one peer's
    acknowledgement: acknowledgements are counted, not servers. *)
Definition read_ack : Message :=
  mkMessage 2 1 (Encode.ReadIndexReply (mkReadIndexReply 1 1)).
Definition leader_of_five : RaftNode :=
  fold_left (λ n ev, after_event ev n)
    [ Start; Fire (TElection 1 1); Deliver (rvr_msg 2 1 1); Deliver (rvr_msg 3 1 1); Read "x" 9 ]
    (make_node 1 [2; 3; 4; 5] default_config).

Theorem duplicate_ack_completes_read :
  role_ leader_of_five = Leader ∧ Node.quorum leader_of_five = 3 ∧
  reads_done (Deliver read_ack) (after_event (Deliver read_ack) leader_of_five) = [(9, true, None)].
Proof. vm_compute. done. Qed.
