(* ===== verification/History.v ===== *)
(** * The recorded history: [src/harness/history.hpp/.cpp]

    Invocations and responses of the simulated clients, and their JSON form.
    [out += x] on the growing string is concatenation; the characters that a
    string literal here cannot hold are written by their code. *)

From stdpp Require Import pretty.
From Stdlib Require Import Ascii.
From S2P Require Import Prelude Codec Types.
Local Open Scope string_scope.

Inductive OpKind := OpPut | OpGet | OpCas.

#[export] Instance OpKind_eq_dec : EqDecision OpKind.
Proof. solve_decision. Defined.

Record HistoryEntry := mkHistoryEntry {
  h_client_id : Z;
  h_request_id : Z;
  h_kind : OpKind;
  h_key : string;
  h_value : string;
  h_expected : string;
  h_invoke : SimTime;
  h_ret : SimTime;
  h_response : string;
  h_ok : bool;
  h_pending : bool;
}.

(** [History::entries_] *)
Abbreviation History := (list HistoryEntry).

Module Hist.

Definition record_invoke (client_id request_id : Z) (kind : OpKind) (key : string)
    (invoke_time : SimTime) (value expected : string) : M History nat := λ h,
  (Ok (length h),
   (h ++ [mkHistoryEntry client_id request_id kind key value expected invoke_time 0 "" false true])%list).

(** [entries_[handle]]: an index past the end is undefined behaviour. *)
Definition record_return (handle : nat) (ret_time : SimTime) (ok : bool) (response : string)
    : M History unit := λ h,
  match h !! handle with
  | None => (Throw undefined_behaviour, h)
  | Some e =>
      (Ok tt,
       <[handle := mkHistoryEntry (h_client_id e) (h_request_id e) (h_kind e) (h_key e) (h_value e)
                     (h_expected e) (h_invoke e) ret_time response ok false]> h)
  end.

(** ** JSON *)

Definition quote : string := String "034"%char "".
Definition backslash : string := String "092"%char "".
Definition newline : string := String "010"%char "".

Definition hex_digit (n : nat) : string :=
  match n with
  | 0 => "0" | 1 => "1" | 2 => "2" | 3 => "3" | 4 => "4" | 5 => "5" | 6 => "6" | 7 => "7"
  | 8 => "8" | 9 => "9" | 10 => "a" | 11 => "b" | 12 => "c" | 13 => "d" | 14 => "e" | _ => "f"
  end%nat.

(** ["\\u%04x"] of a character code. *)
Definition unicode_escape (n : nat) : string :=
  backslash ++ "u00" ++ hex_digit (n / 16) ++ hex_digit (n mod 16).

Definition escape_char (c : Ascii.ascii) : string :=
  let n := Ascii.nat_of_ascii c in
  if (n =? 34)%nat then backslash ++ quote
  else if (n =? 92)%nat then backslash ++ backslash
  else if (n =? 10)%nat then backslash ++ "n"
  else if (n =? 13)%nat then backslash ++ "r"
  else if (n =? 9)%nat then backslash ++ "t"
  else if (n <? 32)%nat then unicode_escape n
  else String c "".

Fixpoint escape_chars (s : string) : string :=
  match s with
  | "" => ""
  | String c s' => escape_char c ++ escape_chars s'
  end.

Definition json_escape (s : string) : string := quote ++ escape_chars s ++ quote.

Definition kind_str (k : OpKind) : string :=
  match k with OpPut => "put" | OpGet => "get" | OpCas => "cas" end.

(** [std::format("{}", n)] of an unsigned integer. *)
Definition decimal (z : Z) : string := pretty (Z.to_N z).

Definition field (name value : string) : string := quote ++ name ++ quote ++ ":" ++ value.

Definition entry_object (i : nat) (e : HistoryEntry) : string :=
  "  {" ++ field "id" (decimal (Z.of_nat i)) ++ "," ++
  field "client_id" (decimal (h_client_id e)) ++ "," ++
  field "request_id" (decimal (h_request_id e)) ++ "," ++
  field "op" (json_escape (kind_str (h_kind e))) ++ "," ++
  field "key" (json_escape (h_key e)) ++ "," ++
  field "value" (json_escape (h_value e)) ++ "," ++
  field "expected" (json_escape (h_expected e)) ++ "," ++
  field "start" (decimal (h_invoke e)) ++ "," ++
  field "end" (decimal (h_ret e)) ++ "," ++
  field "ok" (if h_ok e then "true" else "false") ++ "," ++
  field "response" (json_escape (h_response e)) ++ "}".

(** The loop of [to_json], at index [i] of [n] entries. *)
Fixpoint json_lines (i n : nat) (l : History) : string :=
  match l with
  | [] => ""
  | e :: l' =>
      (if h_pending e then ""
       else entry_object i e ++ (if (S i <? n)%nat then "," else "") ++ newline)
      ++ json_lines (S i) n l'
  end.

Definition to_json (h : History) : string :=
  "[" ++ newline ++ json_lines 0 (length h) h ++ "]" ++ newline.

End Hist.

(** ** Recording *)

Lemma record_spec h cid rid k key t v ex :
  ∃ h', Hist.record_invoke cid rid k key t v ex h = (Ok (length h), h') ∧ h `prefix_of` h' ∧
  ∀ t' ok resp, ∃ h'', Hist.record_return (length h) t' ok resp h' = (Ok tt, h'') ∧
    h `prefix_of` h'' ∧
    h'' !! length h = Some (mkHistoryEntry cid rid k key v ex t t' resp ok false).
Proof.
  eexists. split; [reflexivity|]. split; [by eexists|]. intros t' ok resp.
  unfold Hist.record_return. cbv beta. rewrite (list_lookup_middle h [] _ (length h) eq_refl).
  eexists. split; [reflexivity|]. cbn [h_client_id h_request_id h_kind h_key h_value h_expected h_invoke].
  rewrite insert_app_r_alt, Nat.sub_diag by done. split; [by eexists|].
  by rewrite lookup_app_r, Nat.sub_diag by done.
Qed.

(** ** Reading the JSON back

    [read_string] reads a JSON string literal as a parser does. *)
Definition hex_value (c : Ascii.ascii) : option nat :=
  let n := Ascii.nat_of_ascii c in
  if ((48 <=? n) && (n <=? 57))%nat then Some (n - 48)%nat
  else if ((97 <=? n) && (n <=? 102))%nat then Some (n - 87)%nat
  else None.

(** The character a two-character escape stands for. *)
Definition simple_escape (c : Ascii.ascii) : option Ascii.ascii :=
  let n := Ascii.nat_of_ascii c in
  if (n =? 34)%nat then Some c
  else if (n =? 92)%nat then Some c
  else if (n =? 110)%nat then Some "010"%char
  else if (n =? 114)%nat then Some "013"%char
  else if (n =? 116)%nat then Some "009"%char
  else None.

Definition cons_read (c : Ascii.ascii) (r : option (string * string)) : option (string * string) :=
  match r with Some (s, rest) => Some (String c s, rest) | None => None end.

(** Up to the closing quote: the content and what follows the quote. *)
Fixpoint read_chars (s : string) : option (string * string) :=
  match s with
  | "" => None
  | String c s1 =>
      if (Ascii.nat_of_ascii c =? 34)%nat then Some ("", s1)
      else if (Ascii.nat_of_ascii c =? 92)%nat then
        match s1 with
        | "" => None
        | String d s2 =>
            if (Ascii.nat_of_ascii d =? 117)%nat then
              match s2 with
              | String d1 (String d2 (String d3 (String d4 s3))) =>
                  match hex_value d1, hex_value d2, hex_value d3, hex_value d4 with
                  | Some O, Some O, Some h, Some l =>
                      cons_read (Ascii.ascii_of_nat (16 * h + l)) (read_chars s3)
                  | _, _, _, _ => None
                  end
              | _ => None
              end
            else match simple_escape d with
                 | Some x => cons_read x (read_chars s2)
                 | None => None
                 end
        end
      else if (Ascii.nat_of_ascii c <? 32)%nat then None
      else cons_read c (read_chars s1)
  end.

Definition read_string (s : string) : option (string * string) :=
  match s with
  | String c s1 => if (Ascii.nat_of_ascii c =? 34)%nat then read_chars s1 else None
  | "" => None
  end.

Lemma str_app_assoc (a b c : string) : (a ++ (b ++ c)) = ((a ++ b) ++ c).
Proof. induction a as [|x a IH]; [done|]. change (String x (a ++ (b ++ c)) = String x ((a ++ b) ++ c)). by rewrite IH. Qed.

(** One escaped character is read as that character: checked for all 256. *)
Definition escape_ok (c : Ascii.ascii) (tail : string) : Prop :=
  read_chars (Hist.escape_char c ++ tail) = cons_read c (read_chars tail).

Lemma read_escape_char c tail : escape_ok c tail.
Proof.
  unfold escape_ok. destruct c as [[] [] [] [] [] [] [] []]; reflexivity.
Qed.

Lemma read_escape_chars s tail :
  read_chars (Hist.escape_chars s ++ Hist.quote ++ tail) = Some (s, tail).
Proof.
  induction s as [|c s IH]; [reflexivity|]. cbn [Hist.escape_chars].
  rewrite <-str_app_assoc.
  rewrite read_escape_char, IH. reflexivity.
Qed.

(** ** The array *)

(** The objects of the completed entries, numbered from [i]. *)
Fixpoint objects (i : nat) (l : History) : list string :=
  match l with
  | [] => []
  | e :: l' => if h_pending e then objects (S i) l' else Hist.entry_object i e :: objects (S i) l'
  end.

(** Objects separated by commas, as JSON requires. *)
Fixpoint separated (objs : list string) : string :=
  match objs with
  | [] => ""
  | [o] => o ++ Hist.newline
  | o :: rest => o ++ "," ++ Hist.newline ++ separated rest
  end.

(** Objects each followed by a comma. *)
Fixpoint terminated (objs : list string) : string :=
  match objs with
  | [] => ""
  | o :: rest => o ++ "," ++ Hist.newline ++ terminated rest
  end.

Lemma json_lines_form i n l :
  (i + length l = n)%nat →
  Hist.json_lines i n l =
    match last l with
    | None => ""
    | Some e => if h_pending e then terminated (objects i l) else separated (objects i l)
    end.
Proof.
  revert i. induction l as [|e l IH]; intros i Hn; [done|]. cbn [length] in Hn.
  cbn [Hist.json_lines objects]. rewrite (IH (S i)) by lia. destruct l as [|e' l].
  - cbn [last objects]. destruct (h_pending e); [done|].
    assert ((S i <? n)%nat = false) as -> by (apply Nat.ltb_ge; simpl in Hn; lia).
    cbn [separated]. by rewrite <-!str_app_assoc.
  - rewrite last_cons_cons. destruct (last (e' :: l)) as [x|] eqn:Hlast; [|by apply last_None in Hlast].
    destruct (h_pending e); [done|].
    assert ((S i <? n)%nat = true) as -> by (apply Nat.ltb_lt; simpl in Hn; lia).
    destruct (h_pending x) eqn:Hx; [cbn [terminated]; by rewrite <-!str_app_assoc|].
    assert (objects (S i) (e' :: l) ≠ []) as Hne.
    { clear -Hlast Hx. revert i e' Hlast. induction l as [|e2 l IHl]; intros i e' Hlast.
      - injection Hlast as ->. cbn [objects]. by rewrite Hx.
      - rewrite last_cons_cons in Hlast. specialize (IHl (S i) e2 Hlast). cbn [objects] in *.
        by destruct (h_pending e'). }
    destruct (objects (S i) (e' :: l)) as [|o rest]; [done|]. cbn [separated].
    by rewrite <-!str_app_assoc.
Qed.

(** ** Properties *)

(** [json_escape] is lossless.  A JSON parser reads the literal written for
    any string back as that string and stops exactly behind it, for all 256
    byte values. *)
Theorem json_escape_roundtrip (s rest : string) :
  read_string (Hist.json_escape s ++ rest) = Some (s, rest).
Proof.
  unfold Hist.json_escape. rewrite <-!str_app_assoc. apply read_escape_chars.
Qed.

(** The shape of [to_json].  If the last recorded operation has completed,
    the output is an array of the completed operations' objects separated by
    commas; if the last one is still pending, every object, the last one
    included, is followed by a comma, which is not JSON. *)
Theorem to_json_form (h : History) :
  Hist.to_json h =
    "[" ++ Hist.newline ++
    match last h with
    | None => ""
    | Some e => if h_pending e then terminated (objects 0 h) else separated (objects 0 h)
    end ++ "]" ++ Hist.newline.
Proof. unfold Hist.to_json. by rewrite json_lines_form. Qed.
