(* ===== verification/Checker.v ===== *)
(** * The linearizability checker: [src/checker/own_checker.hpp/.cpp]

    The history is split by key; each key's operations are searched for a
    linearization by backtracking (Wing and Gong).  [linearizable] is the
    declarative meaning: an order of the operations that respects real time
    and that a register with compare-and-set could have answered. *)

From S2P Require Import Prelude Codec Types KvStore History.

Record KeyOp := mkKeyOp {
  k_kind : OpKind;
  k_value : string;
  k_expected : string;
  k_invoke : SimTime;
  k_ret : SimTime;
  k_response : string;
  k_ok : bool;
  k_pending : bool;
}.

#[export] Instance KeyOp_inhabited : Inhabited KeyOp :=
  populate (mkKeyOp OpPut "" "" 0 0 "" false false).

Record CheckResult := mkCheckResult { chk_ok : bool; chk_failing_key : string; chk_reason : string }.

Abbreviation KvState := (option string).

Definition apply_model (state : KvState) (op : KeyOp) : KvState * string :=
  match k_kind op with
  | OpPut => (Some (k_value op), "ok")
  | OpGet => (state, default "" state)
  | OpCas =>
      let current := default "" state in
      if String.eqb current (k_expected op) then (Some (k_value op), "ok")
      else (state, "cas_mismatch")
  end.

Definition response_matches (op : KeyOp) (expected_resp : string) : bool :=
  match k_kind op with
  | OpGet => String.eqb (k_response op) expected_resp
  | OpPut => k_ok op
  | OpCas => Bool.eqb (k_ok op) (String.eqb expected_resp "ok")
  end.

(** [ops[i]] and [linearized[i]] *)
Definition op_at (ops : list KeyOp) (i : nat) : KeyOp := ops !!! i.
Definition lin_at (linearized : list bool) (i : nat) : bool := default false (linearized !! i).

(** No operation that is still to be placed has returned before [i] was
    invoked. *)
Definition eligible (ops : list KeyOp) (linearized : list bool) (i : nat) : bool :=
  forallb (λ j,
    if (j =? i)%nat || lin_at linearized j || k_pending (op_at ops j) then true
    else negb ((0 <? k_ret (op_at ops j)) && (k_ret (op_at ops j) <? k_invoke (op_at ops i))))
    (seq 0 (length ops)).

(** [wg_check]: the loop over [i] returns at the first success; [linearized]
    is restored after a failed attempt.  Each level places one operation, so
    [ops.size() - n_done] levels are enough. *)
Fixpoint wg_search (levels : nat) (ops : list KeyOp) (linearized : list bool) (n_done : nat)
    (state : KvState) : bool :=
  if (n_done =? length ops)%nat then true
  else
    match levels with
    | O => false
    | S levels' =>
        existsb (λ i,
          if lin_at linearized i then false
          else if k_pending (op_at ops i) then false
          else if negb (eligible ops linearized i) then false
          else
            let '(new_state, expected_resp) := apply_model state (op_at ops i) in
            if negb (response_matches (op_at ops i) expected_resp) then false
            else wg_search levels' ops (<[i := true]> linearized) (S n_done) new_state)
          (seq 0 (length ops))
    end.

Definition wg_check (ops : list KeyOp) (linearized : list bool) (n_done : nat) (state : KvState)
    : bool := wg_search (length ops - n_done) ops linearized n_done state.

(** The separation at the start of [check_key_linearizable]. *)
Definition is_skipped (op : KeyOp) : bool :=
  k_pending op || String.eqb (k_response op) "timeout" || String.eqb (k_response op) "not_leader".
Definition is_crashed (op : KeyOp) : bool := String.eqb (k_response op) "node_crashed".

Definition is_certain (op : KeyOp) : bool := negb (is_skipped op) && negb (is_crashed op).
Definition is_uncertain_put (op : KeyOp) : bool :=
  negb (is_skipped op) && is_crashed op && bool_decide (k_kind op = OpPut).

Definition certain (ops : list KeyOp) : list KeyOp := List.filter is_certain ops.
Definition uncertain_puts (ops : list KeyOp) : list KeyOp := List.filter is_uncertain_put ops.

(** [opt.ok = true] *)
Definition as_ok (op : KeyOp) : KeyOp :=
  mkKeyOp (k_kind op) (k_value op) (k_expected op) (k_invoke op) (k_ret op) (k_response op)
    true (k_pending op).

Definition try_subset (combined : list KeyOp) : bool :=
  match combined with
  | [] => true
  | _ => wg_check combined (replicate (length combined) false) 0 None
  end.

(** [for (i < n_unc) if (mask & (1 << i)) combined.push_back(opt)] *)
Fixpoint selected (mask : Z) (i : Z) (puts : list KeyOp) : list KeyOp :=
  match puts with
  | [] => []
  | op :: rest =>
      if Z.testbit mask i then as_ok op :: selected mask (i + 1) rest
      else selected mask (i + 1) rest
  end.

Definition cap : nat := 15.

Definition check_key_linearizable (ops : list KeyOp) : bool :=
  let cert := certain ops in
  let unc := uncertain_puts ops in
  if bool_decide (cert = [] ∧ unc = []) then true
  else if (length unc <=? cap)%nat then
    existsb (λ mask, try_subset (cert ++ selected (Z.of_nat mask) 0 unc))
      (seq 0 (2 ^ length unc))
  else
    try_subset cert ||
    try_subset (cert ++ (as_ok <$> unc)) ||
    existsb (λ op, try_subset (cert ++ [as_ok op])) (take cap unc).

Definition key_op (e : HistoryEntry) : KeyOp :=
  mkKeyOp (h_kind e) (h_value e) (h_expected e) (h_invoke e) (h_ret e) (h_response e) (h_ok e)
    (h_pending e).

(** [per_key[e.key].push_back(...)] over the history. *)
Definition per_key (h : History) : gmap string (list KeyOp) :=
  fold_left (λ m e,
    if h_pending e then m
    else <[h_key e := default [] (m !! h_key e) ++ [key_op e]]> m) h ∅.

Definition per_key_le (a b : string * list KeyOp) : Prop := String.le a.1 b.1.
#[export] Instance per_key_le_dec : RelDecision per_key_le.
Proof. intros a b. unfold per_key_le. apply _. Defined.

(** [for (const auto& [key, ops] : per_key)]: keys in increasing order. *)
Fixpoint check_keys (l : list (string * list KeyOp)) : CheckResult :=
  match l with
  | [] => mkCheckResult true "" ""
  | (key, ops) :: rest =>
      if negb (check_key_linearizable ops)
      then mkCheckResult false key ("non-linearizable history for key " +:+ key)
      else check_keys rest
  end.

Definition check_linearizable (h : History) : CheckResult :=
  check_keys (merge_sort per_key_le (map_to_list (per_key h))).

(** ** The declarative meaning *)

(** [b] may not be placed before [a]: it returned before [a] began. *)
Definition precedes (b a : KeyOp) : Prop := 0 < k_ret b < k_invoke a.

(** A register answers the operations in this order as observed. *)
Fixpoint legal (state : KvState) (ops : list KeyOp) : Prop :=
  match ops with
  | [] => True
  | op :: rest =>
      response_matches op (apply_model state op).2 = true ∧ legal (apply_model state op).1 rest
  end.

(** No operation is placed after one that began after it returned. *)
Fixpoint in_real_time (ops : list KeyOp) : Prop :=
  match ops with
  | [] => True
  | op :: rest => Forall (λ b, ¬ precedes b op) rest ∧ in_real_time rest
  end.

Definition linearizable (ops : list KeyOp) : Prop :=
  ∃ order, order ≡ₚ ops ∧ in_real_time order ∧ legal None order.

(** ** The search is sound and complete *)

Definition todo (ops : list KeyOp) (lin : list bool) : list nat :=
  filter (λ i, lin_at lin i = false) (seq 0 (length ops)).

Lemma elem_of_todo ops lin i :
  i ∈ todo ops lin ↔ (i < length ops)%nat ∧ lin_at lin i = false.
Proof. unfold todo. rewrite list_elem_of_filter, elem_of_seq. intuition lia. Qed.

Lemma todo_NoDup ops lin : NoDup (todo ops lin).
Proof. apply NoDup_filter, NoDup_seq. Qed.

Lemma lin_at_insert lin i j :
  (i < length lin)%nat → lin_at (<[i := true]> lin) j = if decide (i = j) then true else lin_at lin j.
Proof.
  intros Hi. unfold lin_at. destruct (decide (i = j)) as [<-|Hne].
  - by rewrite list_lookup_insert_eq.
  - by rewrite list_lookup_insert_ne.
Qed.

Lemma todo_insert ops lin i :
  length lin = length ops → i ∈ todo ops lin →
  todo ops lin ≡ₚ i :: todo ops (<[i := true]> lin).
Proof.
  intros Hlen Hi. pose proof (proj1 (elem_of_todo ops lin i) Hi) as [Hlt Hf].
  apply NoDup_Permutation; [apply todo_NoDup| |].
  - constructor; [|apply todo_NoDup]. rewrite elem_of_todo, lin_at_insert by lia.
    rewrite decide_True by done. naive_solver.
  - intros j. rewrite elem_of_cons, !elem_of_todo, lin_at_insert by lia.
    destruct (decide (i = j)) as [<-|]; naive_solver.
Qed.

Lemma eligible_spec ops lin i :
  Forall (λ op, k_pending op = false) ops →
  eligible ops lin i = true ↔
  ∀ j, j ∈ todo ops lin → j ≠ i → ¬ precedes (op_at ops j) (op_at ops i).
Proof.
  intros Hp. assert (∀ j, (j < length ops)%nat → k_pending (op_at ops j) = false) as Hpend.
  { intros j [op Hj]%lookup_lt_is_Some_2. unfold op_at. rewrite (list_lookup_total_correct _ _ _ Hj).
    rewrite Forall_forall in Hp. apply Hp. by eapply list_elem_of_lookup_2. }
  unfold eligible. rewrite forallb_forall. split.
  - intros Hall j [Hlt Hf]%elem_of_todo Hne [Hr1 Hr2].
    specialize (Hall j). rewrite Hf, Hpend, orb_false_r, orb_false_r in Hall by done.
    destruct (Nat.eqb_spec j i); [done|].
    assert (In j (seq 0 (length ops))) as Hin by (apply in_seq; lia). specialize (Hall Hin).
    apply negb_true_iff, andb_false_iff in Hall as [?%Z.ltb_ge|?%Z.ltb_ge]; lia.
  - intros Hall j Hin%in_seq. destruct (Nat.eqb_spec j i); [done|].
    destruct (lin_at lin j) eqn:Hf; [done|]. rewrite Hpend by lia. simpl.
    apply negb_true_iff, andb_false_iff. destruct (Z.ltb_spec 0 (k_ret (op_at ops j))); [|by left].
    right. apply Z.ltb_ge. destruct (Z.le_gt_cases (k_invoke (op_at ops i)) (k_ret (op_at ops j))); [done|].
    exfalso. apply (Hall j); [apply elem_of_todo; split; [lia|done]|done|]. split; lia.
Qed.

(** The operations of [order], placed in this order from [state]. *)
Definition placed (ops : list KeyOp) (state : KvState) (order : list nat) : Prop :=
  in_real_time (op_at ops <$> order) ∧ legal state (op_at ops <$> order).

Lemma placed_cons ops lin state i order :
  Forall (λ op, k_pending op = false) ops → length lin = length ops → i ∈ todo ops lin →
  order ≡ₚ todo ops (<[i := true]> lin) →
  placed ops state (i :: order) ↔
  eligible ops lin i = true ∧ response_matches (op_at ops i) (apply_model state (op_at ops i)).2 = true ∧
  placed ops (apply_model state (op_at ops i)).1 order.
Proof.
  intros Hp Hlen Hi Ho. unfold placed. rewrite fmap_cons. cbn [in_real_time legal].
  rewrite eligible_spec by done.
  assert (Forall (λ b, ¬ precedes b (op_at ops i)) (op_at ops <$> order) ↔
          ∀ j, j ∈ todo ops lin → j ≠ i → ¬ precedes (op_at ops j) (op_at ops i)) as ->; [|tauto].
  rewrite Forall_fmap, Forall_forall. split.
  - intros Hall j Hj Hne. apply Hall. rewrite Ho.
    rewrite (todo_insert ops lin i Hlen Hi) in Hj. by apply elem_of_cons in Hj as [->|].
  - intros Hall j Hj. rewrite Ho in Hj. apply Hall.
    + rewrite (todo_insert ops lin i Hlen Hi). by apply list_elem_of_further.
    + intros ->. apply elem_of_todo in Hj as [Hlt Hf]. rewrite lin_at_insert, decide_True in Hf by lia. done.
Qed.

Lemma existsb_seq (f : nat → bool) n :
  existsb f (seq 0 n) = true ↔ ∃ i, (i < n)%nat ∧ f i = true.
Proof.
  rewrite existsb_exists. split; intros (i & Hi & Hf); exists i; (split; [|done]).
  - apply in_seq in Hi. lia.
  - apply in_seq. lia.
Qed.

Lemma wg_search_spec levels ops lin n_done state :
  Forall (λ op, k_pending op = false) ops → length lin = length ops →
  (n_done + length (todo ops lin) = length ops)%nat → (length (todo ops lin) <= levels)%nat →
  wg_search levels ops lin n_done state = true ↔
  ∃ order, order ≡ₚ todo ops lin ∧ placed ops state order.
Proof.
  intros Hp. revert lin n_done state.
  induction levels as [|levels IH]; intros lin n_done state Hlen Hdone Hlev; cbn [wg_search];
    destruct (Nat.eqb_spec n_done (length ops)) as [Heq|Hne]; try lia.
  1, 2: assert (todo ops lin = []) as -> by (apply length_zero_iff_nil; lia);
    split; [intros _; exists []; by split_and!|done].
  rewrite existsb_seq. split.
  - intros (i & Hi & Hf). destruct (lin_at lin i) eqn:Hl; [done|].
    destruct (k_pending (op_at ops i)); [done|]. destruct (eligible ops lin i) eqn:He; [|done].
    cbn [negb] in Hf. destruct (apply_model state (op_at ops i)) as [st' resp] eqn:Hm.
    destruct (response_matches (op_at ops i) resp) eqn:Hr; [|done]. cbn [negb] in Hf.
    assert (i ∈ todo ops lin) as Hin by (by apply elem_of_todo).
    pose proof (Permutation_length (todo_insert ops lin i Hlen Hin)) as Hl'. simpl in Hl'.
    apply IH in Hf as (order & Ho & Hpl); [|by rewrite length_insert|lia..].
    exists (i :: order). split; [by rewrite Ho, <-todo_insert|].
    apply (placed_cons ops lin); try done. by rewrite Hm.
  - intros (order & Ho & Hpl). destruct order as [|i order].
    { apply Permutation_length in Ho. simpl in Ho. lia. }
    assert (i ∈ todo ops lin) as Hin by (rewrite <-Ho; apply list_elem_of_here).
    pose proof (proj1 (elem_of_todo _ _ _) Hin) as [Hlt Hl].
    pose proof (todo_insert ops lin i Hlen Hin) as Ht. pose proof (Permutation_length Ht) as Hl'.
    simpl in Hl'. rewrite Ht in Ho. apply Permutation_cons_inv in Ho.
    apply (placed_cons ops lin) in Hpl as (He & Hr & Hpl); try done.
    exists i. split; [done|]. rewrite Hl, He.
    assert (k_pending (op_at ops i) = false) as ->.
    { apply lookup_lt_is_Some_2 in Hlt as [op Hop]. unfold op_at.
      rewrite (list_lookup_total_correct _ _ _ Hop). rewrite Forall_forall in Hp. apply Hp.
      by eapply list_elem_of_lookup_2. }
    cbn [negb]. destruct (apply_model state (op_at ops i)) as [st' resp]. cbn [fst snd] in *.
    rewrite Hr. cbn [negb]. apply IH; [by rewrite length_insert|lia..|]. by exists order.
Qed.

Lemma lin_at_replicate n i : lin_at (replicate n false) i = false.
Proof. unfold lin_at. destruct (replicate n false !! i) eqn:H; [|done]. by apply lookup_replicate in H as [-> _]. Qed.

Lemma todo_all ops : todo ops (replicate (length ops) false) = seq 0 (length ops).
Proof.
  unfold todo. generalize (seq 0 (length ops)). intros l. generalize (length ops). intros n.
  induction l as [|i l IH]; [done|]. rewrite filter_cons, decide_True by apply lin_at_replicate.
  by rewrite IH.
Qed.

Lemma op_at_seq ops : op_at ops <$> seq 0 (length ops) = ops.
Proof.
  apply list_eq. intros i. rewrite list_lookup_fmap. destruct (decide (i < length ops)%nat) as [Hi|Hi].
  - rewrite lookup_seq_lt by done. simpl. unfold op_at.
    by apply lookup_lt_is_Some_2 in Hi as [op Hop]; rewrite (list_lookup_total_correct _ _ _ Hop).
  - rewrite lookup_ge_None_2 by (rewrite length_seq; lia). symmetry. apply lookup_ge_None_2. lia.
Qed.

Lemma wg_check_spec ops :
  Forall (λ op, k_pending op = false) ops →
  wg_check ops (replicate (length ops) false) 0 None = true ↔ linearizable ops.
Proof.
  intros Hp. unfold wg_check. rewrite wg_search_spec;
    [|done|by rewrite length_replicate|rewrite todo_all, length_seq; lia..].
  rewrite todo_all. split.
  - intros (order & Ho & Hr & Hl). exists (op_at ops <$> order). split_and!; [|done..].
    by rewrite Ho, op_at_seq.
  - intros (order & Ho & Hr & Hl). rewrite <-(op_at_seq ops) in Ho.
    apply Permutation_map_inv in Ho as (l & -> & Hl'). exists l. by split_and!.
Qed.

Lemma try_subset_spec ops :
  Forall (λ op, k_pending op = false) ops → try_subset ops = true ↔ linearizable ops.
Proof.
  intros Hp. destruct ops as [|op ops].
  - split; [|done]. intros _. by exists [].
  - by apply wg_check_spec.
Qed.

(** ** Crashed puts *)

(** The observed operations can be explained if some of the puts whose
    outcome a crash hid are taken as done and the rest as lost. *)
Definition explained (ops : list KeyOp) : Prop :=
  ∃ sub, sub `sublist_of` uncertain_puts ops ∧ linearizable (certain ops ++ (as_ok <$> sub)).

Lemma selected_shift mask i puts :
  0 <= i → selected mask (i + 1) puts = selected (Z.shiftr mask 1) i puts.
Proof.
  revert i. induction puts as [|op puts IH]; intros i Hi; simpl; [done|].
  rewrite Z.shiftr_spec by lia. destruct (Z.testbit mask (i + 1)); [f_equal|]; apply IH; lia.
Qed.

Lemma selected_sublist mask i puts :
  ∃ sub, sub `sublist_of` puts ∧ selected mask i puts = as_ok <$> sub.
Proof.
  revert i. induction puts as [|op puts IH]; intros i; simpl; [by exists []|].
  destruct (IH (i + 1)) as (sub & Hs & ->). destruct (Z.testbit mask i).
  - exists (op :: sub). split; [by constructor|done].
  - exists sub. split; [by constructor|done].
Qed.

Lemma sublist_selected sub puts :
  sub `sublist_of` puts →
  ∃ mask, (mask < 2 ^ length puts)%nat ∧ selected (Z.of_nat mask) 0 puts = as_ok <$> sub.
Proof.
  induction 1 as [|op l k Hs (mask & Hm & IH)|op l k Hs (mask & Hm & IH)]; [exists 0%nat; split; [simpl; lia|done]| |].
  - exists (1 + 2 * mask)%nat. split; [simpl; lia|].
    cbn [selected]. rewrite (selected_shift _ 0) by lia.
    assert (Z.testbit (Z.of_nat (1 + 2 * mask)) 0 = true) as -> by (rewrite Z.bit0_odd; apply Z.odd_spec; exists (Z.of_nat mask); lia).
    assert (Z.shiftr (Z.of_nat (1 + 2 * mask)) 1 = Z.of_nat mask) as -> by (rewrite Z.shiftr_div_pow2 by lia; change (2 ^ 1) with 2; symmetry; apply (Z.div_unique _ _ _ 1); lia).
    by rewrite IH.
  - exists (2 * mask)%nat. split; [simpl; lia|].
    cbn [selected]. rewrite (selected_shift _ 0) by lia.
    assert (Z.testbit (Z.of_nat (2 * mask)) 0 = false) as -> by (rewrite Z.bit0_odd, <-Z.negb_even; apply negb_false_iff, Z.even_spec; exists (Z.of_nat mask); lia).
    assert (Z.shiftr (Z.of_nat (2 * mask)) 1 = Z.of_nat mask) as -> by (rewrite Z.shiftr_div_pow2 by lia; change (2 ^ 1) with 2; symmetry; apply (Z.div_unique _ _ _ 0); lia).
    by rewrite IH.
Qed.

Lemma certain_pending ops : Forall (λ op, k_pending op = false) (certain ops).
Proof.
  apply Forall_forall. intros op Hin. apply list_elem_of_In, filter_In in Hin as [_ Hc].
  unfold is_certain, is_skipped in Hc. by destruct (k_pending op).
Qed.

Lemma uncertain_pending ops : Forall (λ op, k_pending op = false) (uncertain_puts ops).
Proof.
  apply Forall_forall. intros op Hin. apply list_elem_of_In, filter_In in Hin as [_ Hc].
  unfold is_uncertain_put, is_skipped in Hc. by destruct (k_pending op).
Qed.

Lemma combined_pending ops sub :
  sub `sublist_of` uncertain_puts ops →
  Forall (λ op, k_pending op = false) (certain ops ++ (as_ok <$> sub)).
Proof.
  intros Hs. apply Forall_app. split; [apply certain_pending|]. apply Forall_fmap.
  rewrite Forall_forall. intros op Hop. simpl.
  pose proof (uncertain_pending ops) as Hu. rewrite Forall_forall in Hu.
  by apply Hu, (elem_of_sublist sub).
Qed.

Lemma check_key_sound ops : check_key_linearizable ops = true → explained ops.
Proof.
  unfold check_key_linearizable. case_bool_decide as Hemp.
  { intros _. exists []. destruct Hemp as [-> _]. split; [apply sublist_nil_l|]. by exists []. }
  destruct (_ <=? _)%nat.
  - rewrite existsb_seq. intros (mask & _ & Ht).
    destruct (selected_sublist (Z.of_nat mask) 0 (uncertain_puts ops)) as (sub & Hs & Hsel).
    rewrite Hsel, try_subset_spec in Ht by (by apply combined_pending). by exists sub.
  - rewrite !orb_true_iff. intros [[Ht|Ht]|Ht].
    + exists []. split; [apply sublist_nil_l|]. rewrite fmap_nil, app_nil_r.
      by apply try_subset_spec; [apply certain_pending|].
    + exists (uncertain_puts ops). split; [done|].
      by apply try_subset_spec; [apply combined_pending|].
    + apply existsb_exists in Ht as (op & Hin & Ht). exists [op].
      assert ([op] `sublist_of` uncertain_puts ops) as Hs.
      { apply singleton_sublist_l. apply list_elem_of_In in Hin.
        eapply elem_of_sublist; [exact Hin|apply sublist_take]. }
      split; [done|]. by apply try_subset_spec; [apply combined_pending|].
Qed.

Lemma check_key_complete ops :
  (length (uncertain_puts ops) <= cap)%nat → explained ops → check_key_linearizable ops = true.
Proof.
  intros Hcap (sub & Hs & Hl). unfold check_key_linearizable.
  case_bool_decide; [done|]. apply Nat.leb_le in Hcap as ->. apply existsb_seq.
  destruct (sublist_selected sub _ Hs) as (mask & Hm & Hsel). exists mask. split; [done|].
  rewrite Hsel. by apply try_subset_spec; [apply combined_pending|].
Qed.

(** ** The whole history *)

Definition ops_of (h : History) (key : string) : list KeyOp :=
  key_op <$> filter (λ e, h_pending e = false ∧ h_key e = key) h.

Lemma per_key_lookup h key :
  per_key h !! key = if decide (ops_of h key = []) then None else Some (ops_of h key).
Proof.
  unfold per_key, ops_of. induction h as [|e h IH] using rev_ind; [done|].
  rewrite fold_left_app. cbn [fold_left]. rewrite filter_app, fmap_app.
  set (m := fold_left _ h ∅) in *. rewrite filter_cons, filter_nil.
  destruct (decide (h_pending e = false ∧ h_key e = key)) as [[Hp <-]|Hn].
  - rewrite Hp, lookup_insert_eq, IH, fmap_cons, fmap_nil.
    destruct (decide (key_op <$> _ = [])) as [->|Hn]; [done|].
    destruct (decide _) as [[? [=]]%app_nil|]; done.
  - rewrite fmap_nil, app_nil_r, <-IH. destruct (h_pending e); [done|].
    apply lookup_insert_ne. naive_solver.
Qed.

Lemma check_keys_ok l :
  chk_ok (check_keys l) = true ↔ Forall (λ p, check_key_linearizable p.2 = true) l.
Proof.
  induction l as [|[key ops] l IH]; [done|]. cbn [check_keys]. rewrite Forall_cons. cbn [snd].
  destruct (check_key_linearizable ops); cbn [negb chk_ok]; [|naive_solver]. rewrite IH. tauto.
Qed.

Lemma check_linearizable_ok h :
  chk_ok (check_linearizable h) = true ↔ ∀ key, check_key_linearizable (ops_of h key) = true.
Proof.
  unfold check_linearizable. rewrite check_keys_ok, merge_sort_Permutation, Forall_forall. split.
  - intros Hall key. destruct (decide (ops_of h key = [])) as [->|Hne]; [done|].
    apply (Hall (key, ops_of h key)). apply elem_of_map_to_list.
    by rewrite per_key_lookup, decide_False.
  - intros Hall [key ops] Hin%elem_of_map_to_list. rewrite per_key_lookup in Hin.
    destruct (decide _); [done|]. injection Hin as <-. apply Hall.
Qed.

(** ** Histories of one key-value store

    [log] is the order in which a [KvStore] applied operations of the history:
    all with a definite response, and those of the crashed puts that were
    committed. *)
Definition entry_cmd (e : HistoryEntry) : Command :=
  match h_kind e with
  | OpPut => CmdPut (h_key e) (h_value e)
  | OpGet => CmdGet (h_key e)
  | OpCas => CmdCas (h_key e) (h_expected e) (h_value e)
  end.

Definition entry_certain (e : HistoryEntry) : Prop := is_certain (key_op e) = true.
Definition entry_uncertain (e : HistoryEntry) : Prop := is_uncertain_put (key_op e) = true.

(** The recorded response is the store's. *)
Definition answers (e : HistoryEntry) (r : CmdResult) : Prop :=
  match h_kind e with
  | OpPut => entry_uncertain e ∨ h_ok e = res_ok r
  | OpGet => h_response e = res_value r
  | OpCas => h_ok e = res_ok r
  end.

Fixpoint answered (kv : KvStore) (log : list HistoryEntry) : Prop :=
  match log with
  | [] => True
  | e :: log' =>
      answers e (Kv.apply (entry_cmd e) kv).1 ∧ answered (Kv.apply (entry_cmd e) kv).2 log'
  end.

(** The operation as the checker sees it. *)
Definition view (e : HistoryEntry) : KeyOp :=
  if is_uncertain_put (key_op e) then as_ok (key_op e) else key_op e.

Lemma model_is_store key e kv :
  h_key e = key →
  (apply_model (Kv.get key kv) (view e)).1 = Kv.get key (Kv.apply (entry_cmd e) kv).2 ∧
  (answers e (Kv.apply (entry_cmd e) kv).1 →
   response_matches (view e) (apply_model (Kv.get key kv) (view e)).2 = true).
Proof.
  intros <-. unfold answers, entry_cmd, Kv.get, Kv.apply.
  assert (k_kind (view e) = h_kind e ∧ k_value (view e) = h_value e ∧
          k_expected (view e) = h_expected e ∧ k_response (view e) = h_response e ∧
          k_ok (view e) = (is_uncertain_put (key_op e) || h_ok e)) as (H1 & H2 & H3 & H4 & H5)
    by (unfold view; destruct (is_uncertain_put (key_op e)); done).
  assert (h_kind e ≠ OpPut → is_uncertain_put (key_op e) = false) as Hput.
  { intros Hk. unfold is_uncertain_put. cbn [key_op k_kind]. rewrite bool_decide_false by done.
    apply andb_false_r. }
  unfold apply_model, response_matches. rewrite H1, H2, H3, H4, H5.
  destruct (h_kind e); cbn [fst snd res_ok res_value kv_data].
  - split; [by rewrite lookup_insert_eq|]. unfold entry_uncertain.
    intros [->| ->]; [done|apply orb_true_r].
  - split; [done|]. intros ->. apply String.eqb_refl.
  - rewrite Hput by done. unfold Kv.value_or_empty.
    destruct (String.eqb (default "" (kv_data kv !! h_key e)) (h_expected e));
      cbn [negb fst snd res_ok kv_data]; (split; [rewrite ?lookup_insert_eq; done|by intros ->]).
Qed.

Definition on (key : string) (e : HistoryEntry) : Prop := h_key e = key.

#[export] Instance on_dec key e : Decision (on key e).
Proof. unfold on. apply _. Defined.
#[export] Instance entry_certain_dec e : Decision (entry_certain e).
Proof. unfold entry_certain. apply _. Defined.
#[export] Instance entry_uncertain_dec e : Decision (entry_uncertain e).
Proof. unfold entry_uncertain. apply _. Defined.

Lemma answered_legal key log kv :
  answered kv log → legal (Kv.get key kv) (view <$> filter (on key) log).
Proof.
  revert kv. induction log as [|e log IH]; intros kv; [done|]. cbn [answered]. intros [Ha Hl].
  rewrite filter_cons. destruct (decide (on key e)) as [Hk|Hk].
  - rewrite fmap_cons. cbn [legal]. destruct (model_is_store key e kv Hk) as [Hs Hr].
    split; [auto|]. rewrite Hs. auto.
  - specialize (IH _ Hl). unfold Kv.get in *. rewrite apply_other_key in IH; [done|].
    apply bool_decide_eq_false. unfold entry_cmd, on in *. destruct (h_kind e); intros [= ?]; done.
Qed.

Lemma in_real_time_filter (P : HistoryEntry → Prop) `{∀ e, Decision (P e)} log :
  in_real_time (view <$> log) → in_real_time (view <$> filter P log).
Proof.
  induction log as [|e log IH]; [done|]. rewrite fmap_cons. intros [Hf Hr].
  rewrite filter_cons. destruct (decide (P e)); [|auto]. rewrite fmap_cons. split; [|auto].
  rewrite Forall_fmap, Forall_forall in *. intros x [_ Hx]%list_elem_of_filter. by apply Hf.
Qed.

Lemma certain_ops_of h key :
  certain (ops_of h key) = view <$> filter (on key) (filter entry_certain h).
Proof.
  unfold certain, ops_of. induction h as [|e h IH]; [done|]. rewrite !filter_cons.
  assert (entry_certain e → h_pending e = false ∧ view e = key_op e) as Hc.
  { unfold entry_certain, view, is_certain, is_uncertain_put, is_skipped. cbn [key_op k_pending].
    destruct (h_pending e); [done|]. destruct (is_crashed (key_op e)); intros Hc.
    - by apply andb_true_iff in Hc as [_ Hc].
    - by rewrite andb_false_r. }
  destruct (decide (entry_certain e)) as [He|He].
  - destruct (Hc He) as [Hp Hv]. rewrite filter_cons. unfold on at 1.
    destruct (decide (h_key e = key)) as [Hk|Hk].
    + rewrite decide_True by done. rewrite !fmap_cons. cbn [List.filter]. unfold entry_certain in He.
      by rewrite He, Hv, IH.
    + rewrite decide_False by naive_solver. done.
  - destruct (decide (h_pending e = false ∧ h_key e = key)); [|done].
    rewrite fmap_cons. cbn [List.filter]. unfold entry_certain in He. apply not_true_iff_false in He.
    by rewrite He.
Qed.

Lemma uncertain_ops_of h key :
  uncertain_puts (ops_of h key) = key_op <$> filter (on key) (filter entry_uncertain h).
Proof.
  unfold uncertain_puts, ops_of. induction h as [|e h IH]; [done|]. rewrite !filter_cons.
  assert (entry_uncertain e → h_pending e = false) as Hc.
  { unfold entry_uncertain, is_uncertain_put, is_skipped. cbn [key_op k_pending].
    by destruct (h_pending e). }
  destruct (decide (entry_uncertain e)) as [He|He].
  - rewrite filter_cons. unfold on at 1. destruct (decide (h_key e = key)) as [Hk|Hk].
    + rewrite decide_True by auto. rewrite !fmap_cons. cbn [List.filter]. unfold entry_uncertain in He.
      by rewrite He, IH.
    + rewrite decide_False by naive_solver. done.
  - destruct (decide (h_pending e = false ∧ h_key e = key)); [|done].
    rewrite fmap_cons. cbn [List.filter]. unfold entry_uncertain in He. apply not_true_iff_false in He.
    by rewrite He.
Qed.

Lemma sublist_filter_fmap {A B} (f : A → B) (P : A → Prop) `{∀ x, Decision (P x)} (l k : list A) :
  l `sublist_of` k → (f <$> filter P l) `sublist_of` (f <$> filter P k).
Proof.
  induction 1 as [|x l k Hs IH|x l k Hs IH]; [done| |]; rewrite !filter_cons.
  - destruct (decide (P x)); [|done]. rewrite !fmap_cons. by constructor.
  - destruct (decide (P x)); [|done]. rewrite fmap_cons. by constructor.
Qed.

Lemma view_done h (done : list HistoryEntry) key :
  done `sublist_of` filter entry_uncertain h →
  view <$> filter (on key) done = as_ok <$> (key_op <$> filter (on key) done).
Proof.
  intros Hs. rewrite <-list_fmap_compose. apply list_fmap_ext. intros i e He. simpl.
  apply list_elem_of_lookup_2, list_elem_of_filter in He as [_ He].
  apply (elem_of_sublist _ _ _ He), list_elem_of_filter in Hs as [Hs _].
  unfold view. unfold entry_uncertain in Hs. by rewrite Hs.
Qed.

(** ** Properties *)

(** C23: the checker decides linearizability.  It accepts a history exactly if,
    for every key, some choice of which crashed puts took effect makes the
    operations with a definite response linearizable, provided no key has
    more than 15 crashed puts; beyond that number acceptance is still sound. *)
Theorem check_linearizable_correct (h : History) :
  (chk_ok (check_linearizable h) = true → ∀ key, explained (ops_of h key)) ∧
  ((∀ key, (length (uncertain_puts (ops_of h key)) <= cap)%nat) →
   (∀ key, explained (ops_of h key)) → chk_ok (check_linearizable h) = true).
Proof.
  rewrite check_linearizable_ok. split.
  - intros Hall key. by apply check_key_sound.
  - intros Hcap Hex key. by apply check_key_complete.
Qed.

(** C24: no false alarm.  If a single [KvStore], started empty, applied the
    operations of the history in some order [log] that respects real time and
    gave the recorded responses - all operations with a definite response, any
    of the crashed puts, and nothing else, so that no operation that timed out
    took effect - and no key has more than 15 crashed puts, then the checker
    accepts the history. *)
Theorem no_false_alarm (h log effected : list HistoryEntry)
    (Hlog : log ≡ₚ filter entry_certain h ++ effected)
    (Heff : effected `sublist_of` filter entry_uncertain h)
    (Htime : in_real_time (view <$> log)) (Hresp : answered empty_kv log)
    (Hcap : ∀ key, (length (uncertain_puts (ops_of h key)) <= cap)%nat) :
  chk_ok (check_linearizable h) = true.
Proof.
  apply check_linearizable_ok. intros key. apply check_key_complete; [done|].
  exists (key_op <$> filter (on key) effected). split.
  - rewrite uncertain_ops_of. by apply sublist_filter_fmap.
  - exists (view <$> filter (on key) log). split_and!.
    + rewrite Hlog, filter_app, fmap_app, certain_ops_of. by rewrite (view_done h effected key Heff).
    + by apply in_real_time_filter.
    + by apply (answered_legal key log empty_kv).
Qed.

(** A history of two clients: a put hidden by a crash, seen by a later get. *)
Definition demo_history : History :=
  [ mkHistoryEntry 1000 1 OpPut "x" "a" "" 10 50 "ok" true false;
    mkHistoryEntry 1001 1 OpPut "x" "b" "" 60 90 "node_crashed" false false;
    mkHistoryEntry 1000 2 OpGet "x" "" "" 100 140 "b" true false;
    mkHistoryEntry 1001 2 OpCas "y" "c" "z" 100 130 "cas_mismatch" false false ].

Lemma no_false_alarm_witness : chk_ok (check_linearizable demo_history) = true.
Proof.
  apply (no_false_alarm demo_history
    (take 1 demo_history ++ take 1 (drop 1 demo_history) ++ drop 2 demo_history)
    (take 1 (drop 1 demo_history))).
  - vm_compute. apply perm_skip. apply (Permutation_cons_append [_; _]).
  - reflexivity.
  - repeat (done || apply Forall_cons_2 || apply Forall_nil_2 || split); intros [H1 H2]; vm_compute in H1, H2; congruence.
  - vm_compute. tauto.
  - intros key. rewrite uncertain_ops_of, length_fmap. etrans; [apply length_filter|]. vm_compute. lia.
Defined.

Lemma check_linearizable_correct_witness :
  chk_ok (check_linearizable demo_history) = true ∧
  explained (ops_of demo_history "x") ∧
  chk_ok (check_linearizable (take 1 demo_history ++ drop 2 demo_history)) = false.
Proof.
  assert (chk_ok (check_linearizable demo_history) = true) as H by (vm_compute; done).
  split; [done|split; [|vm_compute; done]].
  by apply (proj1 (check_linearizable_correct demo_history)).
Defined.
