(* ===== verification/NetFrame.v ===== *)
(** * Operations on the simulator and the network, framed

    Computations of a component that end in a scheduled event, a draw or a
    message: the clock stays, and nothing is scheduled in the past. *)

From S2P Require Import Prelude Types Rpc Env Prng EventQueue Simulator Network.

(** Splits the first step off a computation that returned. *)
Tactic Notation "step_in" hyp(H) simple_intropattern(s1) simple_intropattern(H1) :=
  let T := fresh in rename H into T; apply bind_Ok_inv in T as (? & s1 & H1 & T); rename T into H.

(** Delays and times far below the wrap-around of the clock. *)
Definition short (d : SimTime) : Prop := 0 <= d < 2 ^ 62.

Section Future.
Context {A : Type}.
Implicit Types (x : netsim handler A).

Definition same_clock x x' : Prop := clock_ (ns_sim x') = clock_ (ns_sim x).
#[local] Instance same_clock_pre : PreOrder same_clock.
Proof. split; [by intros ?|]. unfold same_clock. intros ??? H1 H2. congruence. Qed.

Lemma clock_on_prng {B} (m : M Prng B) : keeps same_clock (Net.on_sim (Sim.on_prng m) : M (netsim handler A) B).
Proof. intros x. unfold Net.on_sim, Sim.on_prng, same_clock. by destruct (m (prng_ (ns_sim x))). Qed.

Lemma clock_schedule d (a : A) : keeps same_clock (Net.on_sim (Sim.schedule d a) : M (netsim handler A) EventId).
Proof. done. Qed.

Lemma clock_cancel id : keeps same_clock (Net.on_sim (Sim.cancel id) : M (netsim handler A) unit).
Proof.
  intros x. unfold Net.on_sim, Sim.cancel, Sim.on_queue, same_clock. by destruct (Queue.cancel _ _).
Qed.

Lemma clock_send deliver fuel from to p :
  keeps same_clock (Net.send deliver fuel from to p : M (netsim handler A) unit).
Proof.
  assert (keeps same_clock (Net.send_copy deliver fuel from to p : M (netsim handler A) unit)) as Hc.
  { unfold Net.send_copy, Net.latency. apply keeps_bind; [apply _|apply keeps_gets; apply _|].
    intros [fn|]; [|apply keeps_ret; apply _].
    apply keeps_bind; [apply _| |].
    - apply keeps_bind; [apply _|apply keeps_gets; apply _|]. intros cfg. apply clock_on_prng.
    - intros lat. apply keeps_bind; [apply _|apply clock_schedule|]. intros. apply keeps_ret; apply _. }
  unfold Net.send. apply keeps_bind; [apply _|apply keeps_gets; apply _|]. intros n.
  case_match; [apply keeps_ret; apply _|].
  apply keeps_bind; [apply _|apply clock_on_prng|]. intros [|]; [apply keeps_ret; apply _|].
  apply keeps_bind; [apply _|done|]. intros _.
  apply keeps_bind; [apply _|apply clock_on_prng|]. intros b. by apply keeps_when; [apply _|].
Qed.

(** The generator is valid and every queued event lies ahead. *)
Record future x : Prop := {
  fu_prng : prng_ok (prng_ (ns_sim x));
  fu_clock : short (clock_ (ns_sim x));
  fu_latency : latencies_ok (ncfg_ (ns_net x)) ∧ short (max_latency (ncfg_ (ns_net x)));
  fu_events : Forall (λ e, clock_ (ns_sim x) <= ev_time e) (heap_ (queue_ (ns_sim x)));
}.

(** One step: the time stays, the future stays ahead. *)
Definition ahead x x' : Prop :=
  clock_ (ns_sim x') = clock_ (ns_sim x) ∧ (future x → future x').

#[global] Instance ahead_pre : PreOrder ahead.
Proof.
  split; [by intros x|]. intros x y z [C1 F1] [C2 F2]. split; [congruence|auto].
Qed.

Lemma ahead_schedule d (a : A) : short d → keeps ahead (Net.on_sim (Sim.schedule d a)).
Proof.
  intros Hd x. split; [done|]. intros [G C L F].
  unfold Net.on_sim, Sim.schedule, Sim.schedule_at, mbind, M_bind, gets, modify. simpl.
  split; simpl; [done..|]. constructor; [|done]. simpl.
  unfold short in *. rewrite wrap64_id by (unfold is_u64; lia). lia.
Qed.

Lemma ahead_cancel id : keeps ahead (Net.on_sim (Sim.cancel id) : M (netsim handler A) unit).
Proof. intros x. split; [done|]. by intros []. Qed.

Lemma ahead_prng {B} (m : M Prng B) :
  (∀ g, prng_ok g → prng_ok (m g).2) →
  keeps ahead (Net.on_sim (Sim.on_prng m) : M (netsim handler A) B).
Proof.
  intros Hm x. unfold Net.on_sim, Sim.on_prng. destruct (m (prng_ (ns_sim x))) as [r g] eqn:Hg.
  split; [done|]. intros [G C L F]. split; simpl; [|done..].
  specialize (Hm _ G). by rewrite Hg in Hm.
Qed.

Lemma range_prng fuel lo hi g : is_u64 lo → is_u64 hi → prng_ok g → prng_ok (Rng.range fuel lo hi g).2.
Proof.
  intros Hlo Hhi Hg. destruct (decide (lo < hi)) as [Hlt|Hge].
  - destruct (range_spec fuel lo hi g Hg Hlo Hhi Hlt) as [(k & x & g' & _ & _ & Hg' & _ & _ & _ & -> & _)|(_ & g' & Hg' & ->)];
      done.
  - unfold Rng.range. by rewrite (proj2 (Z.ltb_ge _ _)) by lia.
Qed.

Lemma ahead_range fuel lo hi :
  is_u64 lo → is_u64 hi →
  keeps ahead (Net.on_sim (Sim.random_range fuel lo hi) : M (netsim handler A) Z).
Proof. intros Hlo Hhi. apply ahead_prng. intros g. by apply range_prng. Qed.

(** What a draw returns. *)
Lemma range_result fuel lo hi g z g' :
  prng_ok g → is_u64 lo → is_u64 hi → Rng.range fuel lo hi g = (Ok z, g') → lo <= z < hi.
Proof.
  intros Hg Hlo Hhi Hr. destruct (decide (lo < hi)) as [Hlt|Hge].
  - destruct (range_spec fuel lo hi g Hg Hlo Hhi Hlt) as [(k & x & g1 & _ & _ & _ & _ & _ & _ & E & Hb)|(_ & g1 & _ & E)];
      rewrite Hr in E; [by injection E as -> _|done].
  - unfold Rng.range in Hr. by rewrite (proj2 (Z.ltb_ge _ _)) in Hr by lia.
Qed.

Lemma ahead_upd_net (f : Network handler → Network handler) :
  (∀ n, min_latency (ncfg_ (f n)) = min_latency (ncfg_ n) ∧
        max_latency (ncfg_ (f n)) = max_latency (ncfg_ n)) →
  keeps ahead (Net.upd_net f : M (netsim handler A) unit).
Proof.
  intros Hf x. split; [done|]. intros [G C [L1 L2] F]. destruct (Hf (ns_net x)) as [H1 H2].
  split; simpl; [done|done| |done]. unfold latencies_ok in *. by rewrite H1, H2.
Qed.

Lemma ahead_send deliver fuel from to p :
  keeps ahead (Net.send deliver fuel from to p : M (netsim handler A) unit).
Proof.
  intros x. split; [apply clock_send|].
  intros [G C [L1 L2] F]. unfold short in *.
  destruct (send_added deliver fuel from to p x G L1) as (r & x' & -> & [An Ac Ap _ (new & An' & _ & Af)] & _); [lia..|].
  split; cbn [snd].
  - done.
  - by rewrite Ac.
  - by rewrite An.
  - rewrite An'. apply Forall_app. split; [|by rewrite Ac].
    eapply Forall_impl; [exact Af|]. intros e (fn & _ & _ & _ & He). rewrite Ac. destruct L1. lia.
Qed.
End Future.
