(* ===== verification/SimRun.v ===== *)
(** * An invariant carried through [run_for]

    A world [W] that holds a simulator, the closures it performs and a
    property [inv] of it that every closure keeps at the time it is called:
    [run_for] keeps it too and moves the clock by exactly its argument. *)

From S2P Require Import Prelude Types Rpc Env Prng EventQueue Simulator Network NetFrame.

Section SimRun.
Context {W A : Type} (sim : W → Simulator A) (set_sim : Simulator A → W → W) (perform : A → M W unit).
Context (inv : W → Prop).
Local Abbreviation now w := (clock_ (sim w)).
Local Abbreviation queued w := (heap_ (queue_ (sim w))).

(** What the world promises of [inv]. *)
Record run_laws : Prop := {
  rl_get s w : sim (set_sim s w) = s;
  rl_set w : set_sim (sim w) w = w;
  rl_now w : inv w → short (now w);
  rl_ahead w : inv w → Forall (λ e, now w <= ev_time e) (queued w);
  rl_clock w t h q :
    inv w → now w <= t → short t → Forall (λ e, t <= ev_time e) (heap_ q) →
    inv (set_sim (mkSim t (next_seq_ (sim w)) h (prng_ (sim w)) q) w);
  rl_perform a w w' : perform a w = (Ok tt, w') → inv w → inv w' ∧ now w' = now w;
}.
Hypothesis L : run_laws.

Lemma take_one_inv w :
  inv w → queued w ≠ [] →
  ∃ e r w1, Sim.on_sim sim set_sim Sim.take_one w = (Ok r, w1) ∧
    e ∈ queued w ∧ Forall (λ x, ev_time e <= ev_time x) (queued w) ∧
    now w1 = ev_time e ∧ (short (ev_time e) → inv w1).
Proof.
  intros K Hne. destruct (pop_min_spec _ Hne) as (e & q' & Hp & Hperm & Hmin & _).
  assert (e ∈ queued w) as Hin by (rewrite <-Hperm; left).
  assert (Forall (λ x, ev_time e <= ev_time x) (queued w)) as Hle.
  { eapply Forall_impl; [exact Hmin|]. intros x [[?|[? ?]]|[= ? ?]]; simpl in *; lia. }
  unfold Sim.on_sim, Sim.take_one, Sim.on_queue, Sim.set_clock, Sim.set_hash, modify, mbind, M_bind.
  rewrite Hp. cbn [fst snd ev_time ev_seq ev_action ev_cancelled].
  set (c := bool_decide _ || _).
  exists e, (if c then None else Some (ev_action e)),
    (set_sim (mkSim (ev_time e) (next_seq_ (sim w))
       (if c then trace_hash_ (sim w)
        else fold_hash (ev_seq e) (fold_hash (ev_time e) (trace_hash_ (sim w))))
       (prng_ (sim w)) q') w).
  split_and!; [by destruct c|done|done|by rewrite (rl_get L)|]. intros Hs. apply (rl_clock L); [done| |done|].
  - pose proof (rl_ahead L w K) as F. rewrite Forall_forall in F. by apply F.
  - rewrite <-Hperm in Hle. by apply Forall_cons in Hle as [_ ?].
Qed.

Lemma process_inv d w w' :
  short d → inv w → queued w ≠ [] →
  (∀ e, e ∈ queued w → Forall (λ x, ev_time e <= ev_time x) (queued w) → ev_time e <= d) →
  Sim.process_one sim set_sim perform w = (Ok tt, w') →
  inv w' ∧ now w <= now w' <= d.
Proof.
  intros Hd K Hne Hmin H. destruct (take_one_inv w K Hne) as (e & r & w1 & Ht & Hin & Hle & Hn & Hw).
  pose proof (rl_ahead L w K) as F. rewrite Forall_forall in F. specialize (F e Hin).
  specialize (Hmin e Hin Hle). pose proof (rl_now L w K) as Hc.
  assert (short (ev_time e)) as Hs by (unfold short in *; lia).
  unfold Sim.process_one in H. rewrite (bind_ok _ _ _ _ _ Ht) in H. specialize (Hw Hs). destruct r as [a|].
  - destruct (rl_perform L a w1 w' H Hw) as [K' ->]. split; [done|lia].
  - injection H as <-. split; [done|lia].
Qed.

Lemma loop_inv n d w w' :
  short d → inv w → now w <= d → Sim.run_loop sim set_sim perform n d w = (Ok tt, w') →
  inv w' ∧ now w <= now w' <= d ∧ Forall (λ e, d < ev_time e) (queued w').
Proof.
  intros Hd. revert w. induction n as [|n IH]; intros w K Hn H; cbn [Sim.run_loop] in H;
    rewrite (bind_ok (gets _) _ _ _ _ eq_refl) in H;
    (destruct (Queue.empty (queue_ (sim w))) eqn:He;
     [apply empty_spec in He; injection H as <-; rewrite He; by split_and!; [|lia..|]|]);
    (assert (queued w ≠ []) as Hne by (rewrite <-empty_spec; congruence));
    destruct (peek_time_spec _ Hne) as (t & e & Hp & Hin & Ht & Hmin);
    (assert (Sim.on_sim sim set_sim (Sim.on_queue Queue.peek_time) w = (Ok t, w)) as Hpk
      by (unfold Sim.on_sim, Sim.on_queue; rewrite Hp;
          replace (mkSim _ _ _ _ _) with (sim w) by (by destruct (sim w)); by rewrite (rl_set L)));
    rewrite (bind_ok _ _ _ _ _ Hpk) in H;
    (destruct (Z.leb_spec t d) as [Hle|Hgt]; cbn [negb] in H;
     [|injection H as <-; split_and!; [done|lia|done|];
       eapply Forall_impl; [exact Hmin|]; simpl; intros; lia]); [done|].
  apply bind_Ok_inv in H as ([] & w1 & H1 & H).
  destruct (process_inv d w w1 Hd K Hne) as [K1 Hn1]; [|exact H1|].
  { intros x Hx Hxm. rewrite Forall_forall in Hxm. specialize (Hxm e Hin). lia. }
  destruct (IH w1 K1 ltac:(lia) H) as (K' & Hn' & HF). split_and!; [done|lia|lia|done].
Qed.

Lemma run_for_inv events d w w' :
  0 <= d → short (now w + d) → inv w → Sim.run_for sim set_sim perform events d w = (Ok tt, w') →
  inv w' ∧ now w' = now w + d.
Proof.
  intros Hd Hs K. unfold Sim.run_for. rewrite (bind_ok (gets _) _ _ _ _ eq_refl).
  pose proof (rl_now L w K) as Hc.
  cbv beta zeta. rewrite wrap64_id by (unfold short, is_u64 in *; lia). intros H.
  apply bind_Ok_inv in H as ([] & w1 & H1 & H).
  destruct (loop_inv events _ w w1 Hs K ltac:(lia) H1) as (K1 & Hn1 & HF). injection H as <-.
  rewrite (rl_get L). split; [|done]. apply (rl_clock L); [done|lia|done|].
  eapply Forall_impl; [exact HF|]. simpl. intros. lia.
Qed.
End SimRun.
