(* ===== verification/Workload.v ===== *)
(** * The simulated clients: [src/harness/workload.hpp/.cpp]

    A client has at most one operation outstanding.  The clients refer to the
    simulator, the network and the history; the operations run on all of them
    ([wstate]).  [issue ci] and [expire ci] are the closures the clients
    schedule, [deliver h m] the network's delivery.  [nodes_] is read only
    for the ids of the nodes, so it is the list of these. *)

From Corelib Require Import SpecFloat.
From S2P Require Import Prelude Codec Types Rpc Env Prng EventQueue Simulator Network History.

(** A decimal literal [n/d] as a [double]. *)
Definition dbl_ratio (n d : Z) : double := SFdiv dprec demax (double_of_u64 n) (double_of_u64 d).
Definition dadd : double → double → double := SFadd dprec demax.

Record WorkloadConfig := mkWorkloadConfig {
  num_clients : nat;
  num_keys : Z;
  total_ops : Z;
  think_time : SimTime;
  put_prob : double;
  get_prob : double;
}.

Definition default_workload : WorkloadConfig :=
  mkWorkloadConfig 4 8 200 (5 * kMsec) (dbl_ratio 4 10) (dbl_ratio 4 10).

Definition kClientIdBase : NodeId := 100.
Definition kOpTimeout : SimTime := 2 * kSec.

Record ClientState := mkClientState {
  believed_leader : NodeId;
  next_request_id : Z;
  waiting : bool;
  history_handle : nat;
  sent_at : SimTime;
  timeout_id : EventId;
}.

Record Workload := mkWorkload {
  wcfg_ : WorkloadConfig;
  wnodes_ : list NodeId;
  clients_ : list ClientState;
  ops_issued_ : Z;
  ops_completed_ : Z;
  pending_ : Z;
}.

(** The constructor; [nodes_[0]] of an empty vector is undefined behaviour if
    there is a client to initialise. *)
Definition make_workload (nodes : list NodeId) (cfg : WorkloadConfig) : result Workload :=
  match num_clients cfg, nodes with
  | O, _ => Ok (mkWorkload cfg nodes [] 0 0 0)
  | S _, [] => Throw undefined_behaviour
  | S _, n0 :: _ =>
      Ok (mkWorkload cfg nodes (replicate (num_clients cfg) (mkClientState n0 0 false 0 0 0)) 0 0 0)
  end.

(** [done()] *)
Definition workload_done (w : Workload) : bool :=
  (total_ops (wcfg_ w) <=? ops_issued_ w) && (pending_ w =? 0).

Record wstate (A : Type) := mkWs { wl : Workload; wnet : netsim handler A; whist : History }.
Arguments mkWs {A} _ _ _.
Arguments wl {A} _.
Arguments wnet {A} _.
Arguments whist {A} _.

Module Work.
Section Work.
Context {A : Type} (issue expire : nat → A) (deliver : handler → Message → A) (fuel : nat).
Local Abbreviation MW := (M (wstate A)).

Definition on_net {B} (m : M (netsim handler A) B) : MW B := λ s,
  let '(r, x) := m (wnet s) in (r, mkWs (wl s) x (whist s)).
Definition on_sim {B} (m : M (Simulator A) B) : MW B := on_net (Net.on_sim m).
Definition on_prng {B} (m : M Prng B) : MW B := on_sim (Sim.on_prng m).
Definition on_history {B} (m : M History B) : MW B := λ s,
  let '(r, x) := m (whist s) in (r, mkWs (wl s) (wnet s) x).
Definition upd_wl (f : Workload → Workload) : MW unit :=
  modify (λ s, mkWs (f (wl s)) (wnet s) (whist s)).
Definition now : MW SimTime := gets (λ s, clock_ (ns_sim (wnet s))).

(** [clients_[ci]] *)
Definition client (ci : nat) : MW ClientState := λ s,
  match clients_ (wl s) !! ci with
  | Some cs => (Ok cs, s)
  | None => (Throw undefined_behaviour, s)
  end.

(** An assignment to members of [clients_[ci]]. *)
Definition upd_client (ci : nat) (f : ClientState → ClientState) : MW unit :=
  upd_wl (λ w, mkWorkload (wcfg_ w) (wnodes_ w) (alter f ci (clients_ w)) (ops_issued_ w)
                 (ops_completed_ w) (pending_ w)).

Definition set_waiting (b : bool) (cs : ClientState) : ClientState :=
  mkClientState (believed_leader cs) (next_request_id cs) b (history_handle cs) (sent_at cs)
    (timeout_id cs).
Definition set_leader (l : NodeId) (cs : ClientState) : ClientState :=
  mkClientState l (next_request_id cs) (waiting cs) (history_handle cs) (sent_at cs) (timeout_id cs).
Definition set_timeout (id : EventId) (cs : ClientState) : ClientState :=
  mkClientState (believed_leader cs) (next_request_id cs) (waiting cs) (history_handle cs)
    (sent_at cs) id.
(** [history_handle] and [sent_at] of a new operation, after
    [next_request_id++]. *)
Definition set_op (h : nat) (t : SimTime) (cs : ClientState) : ClientState :=
  mkClientState (believed_leader cs) (wrap64 (next_request_id cs + 1)) (waiting cs) h t
    (timeout_id cs).

(** [++ops_issued_; ++pending_] *)
Definition count_issue : MW unit :=
  upd_wl (λ w, mkWorkload (wcfg_ w) (wnodes_ w) (clients_ w) (wrap64 (ops_issued_ w + 1))
                 (ops_completed_ w) (wrap64 (pending_ w + 1))).
(** [--pending_] *)
Definition count_return : MW unit :=
  upd_wl (λ w, mkWorkload (wcfg_ w) (wnodes_ w) (clients_ w) (ops_issued_ w) (ops_completed_ w)
                 (wrap64 (pending_ w - 1))).
(** [++ops_completed_] *)
Definition count_complete : MW unit :=
  upd_wl (λ w, mkWorkload (wcfg_ w) (wnodes_ w) (clients_ w) (ops_issued_ w)
                 (wrap64 (ops_completed_ w + 1)) (pending_ w)).

Definition random_key : MW string :=
  n ← gets (λ s, num_keys (wcfg_ (wl s)));
  k ← on_prng (Rng.range fuel 0 n);
  mret ("k" +:+ Hist.decimal k).

Definition random_value : MW string :=
  v ← on_prng (Rng.range fuel 0 100);
  mret ("v" +:+ Hist.decimal v).

Definition random_op_kind : MW OpKind :=
  r ← on_prng Rng.unit_;
  cfg ← gets (λ s, wcfg_ (wl s));
  if SFltb r (put_prob cfg) then mret OpPut
  else if SFltb r (dadd (put_prob cfg) (get_prob cfg)) then mret OpGet
  else mret OpCas.

(** The [switch] of [issue_op]: the command with [val] and [exp]. *)
Definition random_command (kind : OpKind) (key : string) : MW (Command * string * string) :=
  match kind with
  | OpPut => v ← random_value; mret (CmdPut key v, v, "")
  | OpGet => mret (CmdGet key, "", "")
  | OpCas => e ← random_value; v ← random_value; mret (CmdCas key e v, v, e)
  end.

Definition issue_op (ci : nat) : MW unit :=
  w ← gets wl;
  if total_ops (wcfg_ w) <=? ops_issued_ w then mret tt
  else
    cs ← client ci;
    if (waiting cs : bool) then mret tt
    else
      count_issue;;
      upd_client ci (set_waiting true);;
      kind ← random_op_kind;
      key ← random_key;
      cve ← random_command kind key;
      let '(cmd, val, exp) := (cve : Command * string * string) in
      let client_id := wrap64 (kClientIdBase + Z.of_nat ci) in
      let req_id := next_request_id cs in
      t ← now;
      h ← on_history (Hist.record_invoke client_id req_id kind key t val exp);
      upd_client ci (set_op h t);;
      on_net (Net.send deliver fuel (wrap32 (kClientIdBase + Z.of_nat ci)) (believed_leader cs)
                (Encode.ClientRequest (mkClientRequest client_id req_id cmd)));;
      id ← on_sim (Sim.schedule kOpTimeout (expire ci));
      upd_client ci (set_timeout id).

(** The first node that is not the believed leader, if any. *)
Definition rotate (nodes : list NodeId) (l : NodeId) : NodeId :=
  default l (list_find (λ n, n ≠ l) nodes ≫= λ p, Some p.2).

(** The response recorded for a reply of a leader. *)
Definition response_of (kind : OpKind) (r : CmdResult) : string :=
  match kind with
  | OpGet => res_value r
  | OpPut => if res_ok r then "ok" else res_error r
  | OpCas => if res_ok r then "ok" else "cas_mismatch"
  end.

(** [history_.entries()[handle].kind] *)
Definition kind_at (h : nat) : MW OpKind := λ s,
  match whist s !! h with
  | Some e => (Ok (h_kind e), s)
  | None => (Throw undefined_behaviour, s)
  end.

Definition take_reply (ci : nat) (cs : ClientState) (reply : ClientReply) : MW unit :=
  if negb (crp_success reply) then
    t ← now;
    on_history (Hist.record_return (history_handle cs) t false "not_leader");;
    nodes ← gets (λ s, wnodes_ (wl s));
    if negb (crp_leader_hint reply =? 0) then upd_client ci (set_leader (crp_leader_hint reply))
    else upd_client ci (set_leader (rotate nodes (believed_leader cs)))
  else
    kind ← kind_at (history_handle cs);
    t ← now;
    on_history (Hist.record_return (history_handle cs) t (res_ok (crp_result reply))
                  (response_of kind (crp_result reply)));;
    when (negb (crp_leader_hint reply =? 0)) (upd_client ci (set_leader (crp_leader_hint reply))).

Definition think (ci : nat) : MW unit :=
  d ← gets (λ s, think_time (wcfg_ (wl s)));
  on_sim (Sim.schedule d (issue ci));; mret tt.

(** [ClientReply::decode], whose exceptions nothing catches. *)
Definition decode_reply (payload : bytes) : MW ClientReply := λ s,
  ((Decode.ClientReply payload).1, s).

Definition on_reply (ci : nat) (msg : Message) : MW unit :=
  cs ← client ci;
  if negb (waiting cs) then mret tt
  else
    match msg_payload msg with
    | [] => mret tt
    | type :: _ =>
        if negb (type =? mt_ClientReply) then mret tt
        else
          reply ← decode_reply (msg_payload msg);
          if negb (crp_request_id reply =? wrap64 (next_request_id cs - 1)) then mret tt
          else
            on_sim (Sim.cancel (timeout_id cs));;
            upd_client ci (set_waiting false);;
            count_return;;
            take_reply ci cs reply;;
            count_complete;;
            think ci
    end.

Definition on_timeout (ci : nat) : MW unit :=
  cs ← client ci;
  if negb (waiting cs) then mret tt
  else
    upd_client ci (set_waiting false);;
    count_return;;
    t ← now;
    on_history (Hist.record_return (history_handle cs) t false "timeout");;
    count_complete;;
    nodes ← gets (λ s, wnodes_ (wl s));
    upd_client ci (set_leader (rotate nodes (believed_leader cs)));;
    think ci.

(** [start()], from client [i] on, [n] clients to go. *)
Fixpoint start_clients (i n : nat) : MW unit :=
  match n with
  | O => mret tt
  | S n' =>
      on_net (Net.set_handler (wrap32 (kClientIdBase + wrap32 (Z.of_nat i))) (HClient i));;
      d ← gets (λ s, think_time (wcfg_ (wl s)));
      on_sim (Sim.schedule (wrap64 (d * Z.of_nat i)) (issue i));;
      start_clients (S i) n'
  end.

Definition start : MW unit :=
  n ← gets (λ s, num_clients (wcfg_ (wl s)));
  start_clients 0 n.

End Work.
End Work.
