(* ===== verification/WorkloadInv.v ===== *)
(** * The clients are a closed loop

    What the handlers of the clients do to their own state and to the history:
    nothing, open one operation, or close one.  Hence an invariant of every
    interleaving of the clients with the rest of the system: the counters
    agree, a client has at most one operation open, and the operations of a
    client follow one another in real time. *)

From S2P Require Import Prelude Codec Types Rpc Env Prng EventQueue Simulator Network History.
From S2P Require Import KvStore Checker Workload NetFrame.

Lemma alter_insert {A} (f : A → A) (l : list A) i x :
  l !! i = Some x → alter f i l = <[i := f x]> l.
Proof.
  revert i. induction l as [|y l IH]; intros [|i] Hx; simplify_eq/=; [done..|]. by rewrite <-IH.
Qed.

Lemma alter_id {A} (l : list A) i : alter id i l = l.
Proof. revert i. induction l as [|x l IH]; intros [|i]; [done..|]. cbn. f_equal. apply IH. Qed.

Section Frame.
Context {A : Type}.
Implicit Types (s : wstate A) (x : netsim handler A).

(** The clients and the history stay, and so does the time. *)
Definition quiet s s' : Prop :=
  wl s' = wl s ∧ whist s' = whist s ∧ same_clock (wnet s) (wnet s').

Lemma quiet_on_net {B} (m : M (netsim handler A) B) s b s' :
  keeps same_clock m → Work.on_net m s = (Ok b, s') → quiet s s'.
Proof.
  intros Hm. unfold Work.on_net. specialize (Hm (wnet s)). destruct (m (wnet s)) as [r x].
  by intros [= -> <-].
Qed.

Lemma quiet_prng {B} (m : M Prng B) s b s' : Work.on_prng m s = (Ok b, s') → quiet s s'.
Proof. apply quiet_on_net, clock_on_prng. Qed.

Lemma quiet_trans s1 s2 s3 : quiet s1 s2 → quiet s2 s3 → quiet s1 s3.
Proof. unfold quiet, same_clock. intros (?&?&?) (?&?&?). split_and!; congruence. Qed.
Lemma quiet_refl s : quiet s s.
Proof. done. Qed.

Lemma quiet_key fuel s k s' : Work.random_key fuel s = (Ok k, s') → quiet s s'.
Proof.
  unfold Work.random_key. intros H. step_in H s1 H1. injection H1 as <- <-.
  step_in H s2 H2. injection H as _ <-. by eapply quiet_prng.
Qed.
Lemma quiet_value fuel s k s' : Work.random_value fuel s = (Ok k, s') → quiet s s'.
Proof. unfold Work.random_value. intros H. step_in H s2 H2. injection H as _ <-. by eapply quiet_prng. Qed.
Lemma quiet_kind s k s' : Work.random_op_kind s = (Ok k, s') → quiet s s'.
Proof.
  unfold Work.random_op_kind. intros H. step_in H s1 H1. apply quiet_prng in H1.
  step_in H s2 H2. injection H2 as _ <-.
  repeat (case_match; [by injection H as _ <-|]). by injection H as _ <-.
Qed.
Lemma quiet_command fuel kind key s c s' :
  Work.random_command fuel kind key s = (Ok c, s') → quiet s s'.
Proof.
  destruct kind; cbn [Work.random_command]; intros H.
  - step_in H s1 H1. injection H as _ <-. by eapply quiet_value.
  - by injection H as _ <-.
  - step_in H s1 H1. step_in H s2 H2. injection H as _ <-.
    apply quiet_value in H1, H2. by eapply quiet_trans.
Qed.
End Frame.

(** ** The abstract clients: open and close *)
Section Loop.
Context {A : Type}.
Implicit Types (s : wstate A).

Abbreviation clock s := (clock_ (ns_sim (wnet s))).
Definition client_id_of (ci : nat) : Z := wrap64 (kClientIdBase + Z.of_nat ci).

(** Client [ci] opens an operation now. *)
Record opened (ci : nat) s s' : Prop := {
  op_client : ∃ cs cs', clients_ (wl s) !! ci = Some cs ∧ waiting cs = false ∧
    clients_ (wl s') = <[ci := cs']> (clients_ (wl s)) ∧ waiting cs' = true ∧
    history_handle cs' = length (whist s) ∧
    next_request_id cs' = wrap64 (next_request_id cs + 1) ∧
    ∃ kind key value expected, whist s' = whist s ++
      [mkHistoryEntry (client_id_of ci) (next_request_id cs) kind key value expected (clock s)
         0 "" false true];
  op_allowed : ops_issued_ (wl s) < total_ops (wcfg_ (wl s));
  op_counts : ops_issued_ (wl s') = wrap64 (ops_issued_ (wl s) + 1) ∧
    pending_ (wl s') = wrap64 (pending_ (wl s) + 1) ∧
    ops_completed_ (wl s') = ops_completed_ (wl s);
  op_cfg : wcfg_ (wl s') = wcfg_ (wl s);
  op_clock : clock s' = clock s;
}.

(** The entry [e] with its return at [t]. *)
Definition returned (e : HistoryEntry) (t : SimTime) (ok : bool) (resp : string) : HistoryEntry :=
  mkHistoryEntry (h_client_id e) (h_request_id e) (h_kind e) (h_key e) (h_value e)
    (h_expected e) (h_invoke e) t resp ok false.

(** Client [ci] closes its operation now with a response. *)
Record closed (ci : nat) (ok : bool) (resp : string) s s' : Prop := {
  cl_client : ∃ cs cs' e, clients_ (wl s) !! ci = Some cs ∧ waiting cs = true ∧
    clients_ (wl s') = <[ci := cs']> (clients_ (wl s)) ∧ waiting cs' = false ∧
    next_request_id cs' = next_request_id cs ∧
    whist s !! history_handle cs = Some e ∧
    whist s' = <[history_handle cs := returned e (clock s) ok resp]> (whist s);
  cl_counts : ops_issued_ (wl s') = ops_issued_ (wl s) ∧
    pending_ (wl s') = wrap64 (pending_ (wl s) - 1) ∧
    ops_completed_ (wl s') = wrap64 (ops_completed_ (wl s) + 1);
  cl_cfg : wcfg_ (wl s') = wcfg_ (wl s);
  cl_clock : clock s' = clock s;
}.

Lemma client_inv ci s cs s' :
  Work.client ci s = (Ok cs, s') → s' = s ∧ clients_ (wl s) !! ci = Some cs.
Proof. unfold Work.client. destruct (clients_ (wl s) !! ci); [|done]. by intros [= -> ->]. Qed.

Lemma issue_spec expire deliver fuel ci s s' :
  Work.issue_op expire deliver fuel ci s = (Ok tt, s') → quiet s s' ∨ opened ci s s'.
Proof.
  unfold Work.issue_op. intros H. step_in H s0 H0. injection H0 as <- <-.
  destruct (Z.leb_spec (total_ops (wcfg_ (wl s))) (ops_issued_ (wl s))) as [|Hlim].
  { left. by injection H as <-. }
  step_in H s1 H1. apply client_inv in H1 as [-> Hcs].
  match type of Hcs with _ = Some ?c => rename c into cs end.
  destruct (waiting cs) eqn:Hw; [left; by injection H as <-|]. right.
  step_in H s2 H2. injection H2 as _ <-. step_in H s3 H3. injection H3 as _ <-.
  step_in H s4 H4. apply quiet_kind in H4. step_in H s5 H5. apply quiet_key in H5.
  pose proof (quiet_trans _ _ _ H4 H5) as Q5. step_in H s6 H6. apply quiet_command in H6.
  pose proof (quiet_trans _ _ _ Q5 H6) as (Ew & Eh & Ec). clear H4 H5 Q5 H6.
  match type of H with (let '(_, _) := ?x in _) _ = _ => destruct x as [[cmd val] exp] end.
  step_in H s7 H7. injection H7 as <- <-. step_in H s8 H8. injection H8 as <- <-.
  step_in H s9 H9. injection H9 as _ <-.
  step_in H s10 H10. apply quiet_on_net in H10; [|apply clock_send].
  step_in H s11 H11. apply quiet_on_net in H11; [|apply clock_schedule].
  pose proof (quiet_trans _ _ _ H10 H11) as (Ew' & Eh' & Ec'). clear H10 H11.
  injection H as <-. cbn [wl wnet whist] in *. unfold same_clock in *. cbn [ns_sim clock_] in *.
  rewrite Ew in Ew'. cbn [wl wcfg_ wnodes_ clients_ ops_issued_ ops_completed_ pending_] in Ew'.
  assert (ci < length (clients_ (wl s)))%nat as Hlt by (by eapply lookup_lt_Some).
  split; cbn [wl wnet whist]; rewrite ?Ew'; cbn [wcfg_ wnodes_ clients_ ops_issued_ ops_completed_ pending_].
  - eexists cs, _. split; [done|]. split; [done|]. split.
    { rewrite (alter_insert _ _ _ _ Hcs).
      rewrite (alter_insert _ (<[ci:=_]> _) _ (Work.set_waiting true cs))
        by (by rewrite list_lookup_insert_eq).
      rewrite list_insert_insert_eq.
      rewrite (alter_insert _ (<[ci:=_]> _) _ _ (list_lookup_insert_eq _ _ _ Hlt)).
      by rewrite list_insert_insert_eq. }
    rewrite Eh', Eh, Ec. cbn. split_and!; [done|done|done|]. by do 4 eexists.
  - done.
  - done.
  - done.
  - by rewrite Ec', Ec.
Qed.

(** [history_.record_return] on an entry that exists. *)
Lemma return_inv h t ok resp s u s' :
  Work.on_history (Hist.record_return h t ok resp) s = (Ok u, s') →
  ∃ e, whist s !! h = Some e ∧ s' = mkWs (wl s) (wnet s) (<[h := returned e t ok resp]> (whist s)).
Proof.
  unfold Work.on_history, Hist.record_return. destruct (whist s !! h) as [e|] eqn:He; [|done].
  intros [= _ <-]. by exists e.
Qed.

Lemma think_inv issue ci s u s' : Work.think issue ci s = (Ok u, s') → quiet s s'.
Proof.
  unfold Work.think. intros H. step_in H s1 H1. injection H1 as _ <-. step_in H s2 H2.
  apply quiet_on_net in H2; [|apply clock_schedule]. by injection H as _ <-.
Qed.

(** The last steps of a return, after the history entry is written. *)
Lemma close_intro ci ok resp cs cs' e s s1 s' :
  clients_ (wl s) !! ci = Some cs → waiting cs = true → whist s !! history_handle cs = Some e →
  wl s1 = mkWorkload (wcfg_ (wl s)) (wnodes_ (wl s)) (<[ci := cs']> (clients_ (wl s)))
            (ops_issued_ (wl s)) (wrap64 (ops_completed_ (wl s) + 1)) (wrap64 (pending_ (wl s) - 1)) →
  whist s1 = <[history_handle cs := returned e (clock s) ok resp]> (whist s) →
  clock s1 = clock s → waiting cs' = false → next_request_id cs' = next_request_id cs →
  quiet s1 s' → closed ci ok resp s s'.
Proof.
  intros Hcs Hw He H1 H2 H3 H4 H5 (E1 & E2 & E3). unfold same_clock in E3.
  split; rewrite ?E1, ?H1; cbn [wcfg_ clients_ ops_issued_ ops_completed_ pending_]; [|done|done|congruence].
  exists cs, cs', e. split_and!; try done. by rewrite E2.
Qed.

Lemma alter_twice {B} (f g : B → B) (l : list B) i x :
  l !! i = Some x → alter g i (alter f i l) = <[i := g (f x)]> l.
Proof.
  intros Hx. assert (i < length l)%nat by (by eapply lookup_lt_Some).
  rewrite (alter_insert f _ _ _ Hx), (alter_insert g _ _ (f x)) by (by rewrite list_lookup_insert_eq).
  by rewrite list_insert_insert_eq.
Qed.

Lemma timeout_spec issue ci s s' :
  Work.on_timeout issue ci s = (Ok tt, s') →
  (quiet s s' ∧ ∃ cs, clients_ (wl s) !! ci = Some cs ∧ waiting cs = false) ∨
  closed ci false "timeout" s s'.
Proof.
  unfold Work.on_timeout. intros H. step_in H s1 H1. apply client_inv in H1 as [-> Hcs].
  match type of Hcs with _ = Some ?c => rename c into cs end.
  destruct (waiting cs) eqn:Hw; cbn [negb] in H; [|left; injection H as <-; split; [done|by exists cs]].
  right. step_in H s2 H2. injection H2 as _ <-. step_in H s3 H3. injection H3 as _ <-.
  step_in H s4 H4. injection H4 as <- <-.
  step_in H s5 H5. apply return_inv in H5 as (e & He & ->). cbn [whist wl wnet] in *.
  step_in H s6 H6. injection H6 as _ <-. step_in H s7 H7. injection H7 as <- <-.
  step_in H s8 H8. injection H8 as _ <-. apply think_inv in H.
  eapply (close_intro ci _ _ cs (Work.set_leader (Work.rotate (wnodes_ (wl s)) (believed_leader cs))
           (Work.set_waiting false cs)) e s); [exact Hcs|exact Hw|exact He|..|exact H];
    cbn [wl wnet whist]; try done.
  f_equal. by apply alter_twice.
Qed.

(** What a reply makes the client record. *)
Definition recorded (kind : OpKind) (reply : ClientReply) : bool * string :=
  if crp_success reply then
    (res_ok (crp_result reply), Work.response_of kind (crp_result reply))
  else (false, "not_leader").

(** [m] is a reply to the open operation of [cs]. *)
Definition matching (cs : ClientState) (m : Message) (reply : ClientReply) : Prop :=
  head (msg_payload m) = Some mt_ClientReply ∧ (Decode.ClientReply (msg_payload m)).1 = Ok reply ∧
  crp_request_id reply = wrap64 (next_request_id cs - 1).

Lemma take_reply_spec ci cs reply s u s' :
  Work.take_reply ci cs reply s = (Ok u, s') →
  ∃ e f, whist s !! history_handle cs = Some e ∧
    wl s' = mkWorkload (wcfg_ (wl s)) (wnodes_ (wl s)) (alter f ci (clients_ (wl s)))
              (ops_issued_ (wl s)) (ops_completed_ (wl s)) (pending_ (wl s)) ∧
    (∀ c, waiting (f c) = waiting c ∧ next_request_id (f c) = next_request_id c) ∧
    wnet s' = wnet s ∧
    whist s' = <[history_handle cs := returned e (clock s) (recorded (h_kind e) reply).1
                  (recorded (h_kind e) reply).2]> (whist s).
Proof.
  assert (∀ w : Workload, w = mkWorkload (wcfg_ w) (wnodes_ w) (alter id ci (clients_ w))
            (ops_issued_ w) (ops_completed_ w) (pending_ w)) as Hid.
  { intros []. cbn. by rewrite alter_id. }
  unfold Work.take_reply, recorded. destruct (crp_success reply); cbn [negb]; intros H.
  - step_in H s1 H1. unfold Work.kind_at in H1.
    destruct (whist s !! history_handle cs) as [e|] eqn:He; [|done]. injection H1 as <- <-.
    step_in H s2 H2. injection H2 as <- <-. step_in H s3 H3.
    apply return_inv in H3 as (e' & He' & ->). rewrite He in He'. injection He' as <-.
    destruct (negb _); cbn [when] in H; injection H as _ <-; cbn [wl wnet whist].
    + exists e, (Work.set_leader (crp_leader_hint reply)). by split_and!.
    + exists e, id. split_and!; try done.
  - step_in H s2 H2. injection H2 as <- <-. step_in H s3 H3.
    apply return_inv in H3 as (e & He & ->). step_in H s4 H4. injection H4 as <- <-.
    destruct (negb _); injection H as _ <-; cbn [wl wnet whist]; eexists e, _; by split_and!.
Qed.

Lemma reply_spec issue ci m s s' :
  Work.on_reply issue ci m s = (Ok tt, s') →
  (quiet s s' ∧ ∀ cs reply, clients_ (wl s) !! ci = Some cs → waiting cs = true → ¬ matching cs m reply) ∨
  ∃ cs reply e, clients_ (wl s) !! ci = Some cs ∧ matching cs m reply ∧
    whist s !! history_handle cs = Some e ∧
    closed ci (recorded (h_kind e) reply).1 (recorded (h_kind e) reply).2 s s'.
Proof.
  unfold Work.on_reply. intros H. step_in H s1 H1. apply client_inv in H1 as [-> Hcs].
  match type of Hcs with _ = Some ?c => rename c into cs end.
  destruct (waiting cs) eqn:Hw; cbn [negb] in H.
  2: { left. injection H as <-. split; [done|]. intros. congruence. }
  destruct (msg_payload m) as [|ty rest] eqn:Hm.
  { left. injection H as <-. split; [done|]. intros ? ? _ _ [Hh _]. by rewrite Hm in Hh. }
  destruct (Z.eqb_spec ty mt_ClientReply) as [->|Hty]; cbn [negb] in H.
  2: { left. injection H as <-. split; [done|]. intros ? ? _ _ [Hh _]. rewrite Hm in Hh. by injection Hh. }
  rewrite <-Hm in H. step_in H s2 H2. injection H2 as Hdec <-.
  match type of Hdec with _ = Ok ?r => rename r into reply end.
  destruct (Z.eqb_spec (crp_request_id reply) (wrap64 (next_request_id cs - 1))) as [Hr|Hr]; cbn [negb] in H.
  2: { left. injection H as <-. split; [done|]. intros cs' r' Hc _ (_ & Hd & Hq).
       rewrite Hcs in Hc. injection Hc as <-. rewrite Hdec in Hd. injection Hd as <-. done. }
  right. step_in H s3 H3. apply quiet_on_net in H3 as (E1 & E2 & E3); [|apply clock_cancel].
  step_in H s4 H4. injection H4 as _ <-. step_in H s5 H5. injection H5 as _ <-.
  step_in H s6 H6. apply take_reply_spec in H6 as (e & f & He & W6 & Hf & N6 & W6').
  step_in H s7 H7. injection H7 as _ <-. apply think_inv in H.
  cbn [wl wnet whist] in *. rewrite E1, E2 in *. unfold same_clock in E3.
  cbn [wcfg_ wnodes_ clients_ ops_issued_ ops_completed_ pending_] in *.
  exists cs, reply, e. split_and!; [done|by split_and!; [rewrite Hm|..]|done|].
  eapply (close_intro ci _ _ cs (f (Work.set_waiting false cs)) e s); [exact Hcs|done|exact He|..|exact H];
    cbn [wl wnet whist].
  - rewrite W6. cbn [wcfg_ wnodes_ clients_ ops_issued_ ops_completed_ pending_]. f_equal.
    by apply alter_twice.
  - by rewrite W6', E3.
  - by rewrite N6.
  - by rewrite (proj1 (Hf _)).
  - by rewrite (proj2 (Hf _)).
Qed.
End Loop.

(** ** The invariant *)

(** Elements of a list that satisfy a test. *)
Definition count {A} (f : A → bool) (l : list A) : Z := size_z (List.filter f l).

Lemma count_app {A} (f : A → bool) l k : count f (l ++ k) = count f l + count f k.
Proof. unfold count, size_z. rewrite List.filter_app, length_app. lia. Qed.

Lemma count_insert {A} (f : A → bool) l i x y :
  l !! i = Some x → count f (<[i := y]> l) = count f l - Z.b2z (f x) + Z.b2z (f y).
Proof.
  unfold count, size_z. revert i. induction l as [|z l IH]; intros [|i] Hx; simplify_eq/=.
  - destruct (f x), (f y); simpl; lia.
  - specialize (IH i Hx). destruct (f z); simpl; lia.
Qed.

Lemma count_bound {A} (f : A → bool) l : 0 <= count f l <= size_z l.
Proof.
  unfold count, size_z. assert (length (List.filter f l) <= length l)%nat; [|lia].
  induction l as [|x l IH]; simpl; [lia|]. destruct (f x); simpl; lia.
Qed.

Section Invariant.
Context {A : Type}.
Implicit Types (s : wstate A).

(** Entry [e] belongs to a client and lies in the past. *)
Definition entry_ok s (e : HistoryEntry) : Prop :=
  (∃ ci cs, clients_ (wl s) !! ci = Some cs ∧ h_client_id e = client_id_of ci ∧
     h_request_id e < next_request_id cs) ∧
  h_invoke e <= clock_ (ns_sim (wnet s)) ∧
  (h_pending e = false → h_invoke e <= h_ret e <= clock_ (ns_sim (wnet s))).

(** Two operations of one client: the first returned before the second was
    invoked. *)
Definition in_sequence (e e' : HistoryEntry) : Prop :=
  h_client_id e = h_client_id e' →
  h_pending e = false ∧ h_ret e <= h_invoke e' ∧ h_request_id e < h_request_id e'.

(** The open operation of a waiting client. *)
Definition open_op s (ci : nat) (cs : ClientState) : Prop :=
  ∃ e, whist s !! history_handle cs = Some e ∧ h_pending e = true ∧
       h_client_id e = client_id_of ci.

(** The counters agree with the clients and with the history. *)
Record wcounts s : Prop := {
  wc_room : total_ops (wcfg_ (wl s)) < 2 ^ 64;
  wc_length : size_z (whist s) = ops_issued_ (wl s);
  wc_limit : 0 <= ops_issued_ (wl s) <= Z.max 0 (total_ops (wcfg_ (wl s)));
  wc_sum : ops_completed_ (wl s) + pending_ (wl s) = ops_issued_ (wl s);
  wc_waiting : pending_ (wl s) = count waiting (clients_ (wl s));
  wc_pending : pending_ (wl s) = count h_pending (whist s);
  wc_requests : ∀ ci cs, clients_ (wl s) !! ci = Some cs → 0 <= next_request_id cs <= ops_issued_ (wl s);
}.

(** The operations of the history are those of the clients. *)
Record wops s : Prop := {
  wo_room : kClientIdBase + size_z (clients_ (wl s)) < 2 ^ 64;
  wo_open : ∀ ci cs, clients_ (wl s) !! ci = Some cs → waiting cs = true → open_op s ci cs;
  wo_owned : ∀ e ci cs, e ∈ whist s → h_pending e = true → h_client_id e = client_id_of ci →
    clients_ (wl s) !! ci = Some cs → waiting cs = true;
  wo_entries : Forall (entry_ok s) (whist s);
  wo_sequence : ∀ i j e e', (i < j)%nat → whist s !! i = Some e → whist s !! j = Some e' →
    in_sequence e e';
}.

Definition winv s : Prop := wcounts s ∧ wops s.

Lemma client_id_inj s ci cj c c' :
  kClientIdBase + size_z (clients_ (wl s)) < 2 ^ 64 →
  clients_ (wl s) !! ci = Some c → clients_ (wl s) !! cj = Some c' →
  client_id_of ci = client_id_of cj → ci = cj.
Proof.
  intros Hr Hi%lookup_lt_Some Hj%lookup_lt_Some. unfold client_id_of, kClientIdBase, size_z in *.
  rewrite !wrap64_id by (unfold is_u64; lia). lia.
Qed.

(** Time passes; nothing else happens to the clients. *)
Lemma winv_later s s' :
  wl s' = wl s → whist s' = whist s → clock_ (ns_sim (wnet s)) <= clock_ (ns_sim (wnet s')) →
  winv s → winv s'.
Proof.
  intros Hw Hh Hc [[] [? ? ? He ?]].
  split; split; unfold open_op, entry_ok in *; rewrite ?Hw, ?Hh; try done.
  eapply Forall_impl; [done|]. cbv beta. intros e (H1 & H2 & H3). split_and!; [done|lia|].
  intros Hp. specialize (H3 Hp). lia.
Qed.

Lemma lookup_app_one {B} (l : list B) x i y :
  (l ++ [x]) !! i = Some y → l !! i = Some y ∨ (i = length l ∧ y = x).
Proof.
  intros [?|[Hi Hy]]%lookup_app_Some; [by left|].
  apply list_lookup_singleton_Some in Hy as [? ->]. right. split; [lia|done].
Qed.

Lemma lookup_insert_cases {B} (l : list B) i x y j z :
  l !! i = Some x → <[i := y]> l !! j = Some z → (j = i ∧ z = y) ∨ (j ≠ i ∧ l !! j = Some z).
Proof.
  intros Hi. destruct (decide (i = j)) as [->|].
  - rewrite list_lookup_insert_eq by (by eapply lookup_lt_Some). intros [= ->]. by left.
  - rewrite list_lookup_insert_ne by done. by right.
Qed.

(** An entry stays one when a client moves on. *)
Lemma entry_ok_client s s' ci cs cs' e :
  clients_ (wl s) !! ci = Some cs → clients_ (wl s') = <[ci := cs']> (clients_ (wl s)) →
  next_request_id cs <= next_request_id cs' →
  clock_ (ns_sim (wnet s')) = clock_ (ns_sim (wnet s)) → entry_ok s e → entry_ok s' e.
Proof.
  intros Hcs Hcl Hle Hc ((cj & c & Hj & Hid & Hr) & Ht). unfold entry_ok. rewrite Hc. split; [|done].
  rewrite Hcl. destruct (decide (ci = cj)) as [->|].
  - exists cj, cs'. rewrite list_lookup_insert_eq by (by eapply lookup_lt_Some). simplify_eq. by split_and!; [|lia..].
  - exists cj, c. by rewrite list_lookup_insert_ne.
Qed.

Lemma opened_counts ci s s' : opened ci s s' → wcounts s → wcounts s'.
Proof.
  intros [(cs & cs' & Hcs & Hw & Hcl & Hw' & _ & Hn' & kind & key & val & exp & Hhist)
          Hlim (Ci & Cp & Cc) Hcfg _] [R1 Hlen Hl Hsum Hwt Hpend Hreq].
  pose proof (count_bound waiting (clients_ (wl s))). pose proof (count_bound h_pending (whist s)).
  pose proof (Hreq _ _ Hcs) as Hrq. rewrite wrap64_id in Ci, Cp, Hn' by (unfold is_u64; lia). split.
  - by rewrite Hcfg.
  - rewrite Hhist. unfold size_z in *. rewrite length_app. simpl. lia.
  - rewrite Hcfg. lia.
  - lia.
  - rewrite Hcl, (count_insert _ _ _ _ _ Hcs), Hw, Hw'. simpl. lia.
  - rewrite Hhist, count_app. unfold count at 2, size_z. simpl. lia.
  - intros cj c Hc. rewrite Hcl in Hc.
    destruct (lookup_insert_cases _ _ _ _ _ _ Hcs Hc) as [[-> ->]|[_ Hc']]; [lia|].
    specialize (Hreq _ _ Hc'). lia.
Qed.

(** The entries of a client that is not waiting have all returned. *)
Lemma idle_returned s ci cs e :
  wops s → clients_ (wl s) !! ci = Some cs → waiting cs = false → e ∈ whist s →
  h_client_id e = client_id_of ci →
  h_pending e = false ∧ h_ret e <= clock_ (ns_sim (wnet s)) ∧ h_request_id e < next_request_id cs.
Proof.
  intros W Hcs Hw Hin Hid. pose proof (proj1 (Forall_forall _ _) (wo_entries s W) e Hin) as (Ho & _ & Ht).
  destruct Ho as (cj & c & Hc & Hcid & Hr). rewrite Hcid in Hid.
  apply (client_id_inj s _ _ c cs (wo_room s W) Hc Hcs) in Hid as ->. simplify_eq.
  destruct (h_pending e) eqn:Hp; [|split_and!; [done|apply Ht; done|done]].
  exfalso. by rewrite (wo_owned s W e ci cs) in Hw.
Qed.

Lemma opened_ops ci s s' : opened ci s s' → wcounts s → wops s → wops s'.
Proof.
  intros [(cs & cs' & Hcs & Hw & Hcl & Hw' & Hh' & Hn' & kind & key & val & exp & Hhist)
          Hlim _ _ Hclk] [R1 Hlen _ _ _ _ Hreq] W.
  pose proof W as [R2 Hopen Hown Hent Hseq].
  set (e0 := mkHistoryEntry _ _ _ _ _ _ _ _ _ _ _) in Hhist.
  pose proof (Hreq _ _ Hcs) as Hrq. rewrite wrap64_id in Hn' by (unfold is_u64; lia).
  assert (∀ cj c, clients_ (wl s') !! cj = Some c → _) as Hlook
    by (intros cj c Hc; rewrite Hcl in Hc; exact (lookup_insert_cases _ _ _ _ _ _ Hcs Hc)).
  split.
  - rewrite Hcl. unfold size_z in *. by rewrite length_insert.
  - intros cj c [[-> ->]|[Hne Hc]]%Hlook Hwc; unfold open_op; rewrite Hhist.
    + exists e0. by rewrite Hh', lookup_app_r, Nat.sub_diag by lia.
    + destruct (Hopen _ _ Hc Hwc) as (e & He & Hp & Hid). exists e.
      by rewrite lookup_app_l by (by eapply lookup_lt_Some).
  - intros e cj c Hin Hp Hid Hc. destruct (Hlook _ _ Hc) as [[-> ->]|[Hne Hc']]; [done|].
    rewrite Hhist in Hin. apply elem_of_app in Hin as [Hin|Hin]; [by eapply Hown|].
    apply list_elem_of_singleton in Hin as ->. destruct Hne. by eapply (client_id_inj s).
  - rewrite Hhist. apply Forall_app. split.
    + eapply Forall_impl; [exact Hent|]. intros e. apply (entry_ok_client s s' ci cs cs'); [done..|lia|done].
    + apply Forall_singleton. split; [|split; [simpl; lia|done]]. exists ci, cs'.
      rewrite Hcl, list_lookup_insert_eq by (by eapply lookup_lt_Some). split_and!; [done|done|simpl; lia].
  - intros i j e e' Hij Hi Hj. rewrite Hhist in Hi, Hj.
    destruct (lookup_app_one _ _ _ _ Hj) as [Hj'|[-> ->]].
    + rewrite lookup_app_l in Hi by (apply lookup_lt_Some in Hj'; lia). by eapply Hseq.
    + rewrite lookup_app_l in Hi by lia. intros Hid.
      by apply (idle_returned s ci cs e W Hcs Hw); [eapply list_elem_of_lookup_2|].
Qed.

Lemma closed_counts ci ok resp s s' : closed ci ok resp s s' → winv s → wcounts s'.
Proof.
  intros [(cs & cs' & e & Hcs & Hw & Hcl & Hw' & Hn & He & Hhist) (Ci & Cp & Cc) Hcfg _]
    [[R1 Hlen Hl Hsum Hwt Hpend Hreq] [_ Hopen _ _ _]].
  destruct (Hopen _ _ Hcs Hw) as (e' & He' & Hp & _). rewrite He in He'. injection He' as <-.
  pose proof (count_insert waiting _ _ _ cs' Hcs) as Hcw. rewrite Hw, Hw' in Hcw.
  pose proof (count_insert h_pending _ _ _ (returned e (clock_ (ns_sim (wnet s))) ok resp) He) as Hce.
  rewrite Hp in Hce. simpl in Hcw, Hce.
  pose proof (count_bound waiting (<[ci:=cs']> (clients_ (wl s)))).
  pose proof (count_bound h_pending (whist s)).
  rewrite wrap64_id in Cp, Cc by (unfold is_u64; lia). split.
  - by rewrite Hcfg.
  - rewrite Hhist. unfold size_z in *. rewrite length_insert. lia.
  - rewrite Hcfg. lia.
  - lia.
  - rewrite Hcl. lia.
  - rewrite Hhist. lia.
  - intros cj c Hc. rewrite Hcl in Hc.
    destruct (lookup_insert_cases _ _ _ _ _ _ Hcs Hc) as [[-> ->]|[_ Hc']].
    + rewrite Hn, Ci. by apply (Hreq ci).
    + rewrite Ci. by apply (Hreq cj).
Qed.

Lemma closed_ops ci ok resp s s' : closed ci ok resp s s' → wops s → wops s'.
Proof.
  intros [(cs & cs' & e & Hcs & Hw & Hcl & Hw' & Hn & He & Hhist) _ _ Hclk] W.
  pose proof W as [R2 Hopen Hown Hent Hseq].
  destruct (Hopen _ _ Hcs Hw) as (e' & He' & Hp & Hid). rewrite He in He'. injection He' as <-.
  assert (∀ cj c, clients_ (wl s') !! cj = Some c → _) as Hlook
    by (intros cj c Hc; rewrite Hcl in Hc; exact (lookup_insert_cases _ _ _ _ _ _ Hcs Hc)).
  assert (∀ k x, whist s' !! k = Some x → _) as Hlookh
    by (intros k x Hx; rewrite Hhist in Hx; exact (lookup_insert_cases _ _ _ _ _ _ He Hx)).
  set (e1 := returned _ _ _ _) in *.
  split.
  - rewrite Hcl. unfold size_z in *. by rewrite length_insert.
  - intros cj c [[-> ->]|[Hne Hc]]%Hlook Hwc; [congruence|].
    destruct (Hopen _ _ Hc Hwc) as (e2 & He2 & Hp2 & Hid2). exists e2. rewrite Hhist.
    rewrite list_lookup_insert_ne; [done|]. intros Heq. rewrite Heq in He.
    destruct Hne. apply (client_id_inj s cj ci c cs R2 Hc Hcs). congruence.
  - intros x cj c [k Hk]%list_elem_of_lookup Hpx Hidx [[-> ->]|[Hne Hc]]%Hlook.
    + exfalso. destruct (Hlookh _ _ Hk) as [[-> ->]|[Hnk Hk']]; [done|].
      destruct (Nat.lt_total k (history_handle cs)) as [Hlt|[?|Hlt]]; [| done |].
      * destruct (Hseq _ _ _ _ Hlt Hk' He) as [? _]; congruence.
      * destruct (Hseq _ _ _ _ Hlt He Hk') as [? _]; congruence.
    + destruct (Hlookh _ _ Hk) as [[-> ->]|[Hnk Hk']]; [done|].
      eapply Hown; [by eapply list_elem_of_lookup_2|done..].
  - apply Forall_lookup. intros k x Hx. pose proof (proj1 (Forall_lookup _ _) Hent) as Hent'.
    destruct (Hlookh _ _ Hx) as [[-> ->]|[_ Hk]].
    + apply (entry_ok_client s s' ci cs cs'); [done..|lia|done|].
      destruct (Hent' _ _ He) as (Ho & Hi & _). split; [done|]. simpl. split; [done|lia].
    + apply (entry_ok_client s s' ci cs cs'); [done..|lia|done|]. by eapply Hent'.
  - intros i j x y Hij Hi Hj.
    destruct (Hlookh _ _ Hi) as [[-> ->]|[Hni Hi']], (Hlookh _ _ Hj) as [[-> ->]|[Hnj Hj']]; [lia|..].
    + intros Hid'. destruct (Hseq _ _ _ _ Hij He Hj'); [done|congruence].
    + exact (Hseq _ _ _ _ Hij Hi' He).
    + exact (Hseq _ _ _ _ Hij Hi' Hj').
Qed.
End Invariant.

(** [start] schedules the first operations; no client moves yet. *)
Lemma start_quiet {A} (issue : nat → A) s u s' : Work.start issue s = (Ok u, s') → quiet s s'.
Proof.
  unfold Work.start. rewrite (bind_ok (gets _) _ _ _ _ eq_refl). generalize (num_clients (wcfg_ (wl s))).
  intros n. generalize 0%nat. revert s. induction n as [|n IH]; intros s i; cbn [Work.start_clients].
  - by intros [= _ <-].
  - intros H. step_in H s1 H1. injection H1 as _ <-. step_in H s2 H2. injection H2 as _ <-.
    step_in H s3 H3. apply quiet_on_net in H3; [|apply clock_schedule]. apply IH in H.
    by eapply quiet_trans; [|exact H].
Qed.

(** ** Every interleaving *)
Section Runs.
Context {A : Type} (issue expire : nat → A) (deliver : handler → Message → A) (fuel : nat).
Implicit Types (s : wstate A).

(** A handler of a client runs to its end, or the rest of the system takes a
    step: it touches neither the clients nor the history, and time does not
    go back. *)
Inductive wstep : wstate A → wstate A → Prop :=
| ws_issue ci s s' : Work.issue_op expire deliver fuel ci s = (Ok tt, s') → wstep s s'
| ws_reply ci m s s' : Work.on_reply issue ci m s = (Ok tt, s') → wstep s s'
| ws_timeout ci s s' : Work.on_timeout issue ci s = (Ok tt, s') → wstep s s'
| ws_other s s' : wl s' = wl s → whist s' = whist s →
    clock_ (ns_sim (wnet s)) <= clock_ (ns_sim (wnet s')) → wstep s s'.

Lemma winv_quiet s s' : quiet s s' → winv s → winv s'.
Proof. intros (Hw & Hh & Hc). apply winv_later; [done..|]. unfold same_clock in Hc. lia. Qed.

Lemma winv_opened ci s s' : opened ci s s' → winv s → winv s'.
Proof. intros O [C W]. split; [by eapply opened_counts|by eapply opened_ops]. Qed.

Lemma winv_closed ci ok resp s s' : closed ci ok resp s s' → winv s → winv s'.
Proof. intros O I. split; [by eapply closed_counts|]. destruct I. by eapply closed_ops. Qed.

Lemma wstep_winv s s' : wstep s s' → winv s → winv s'.
Proof.
  destruct 1 as [ci s s' [?|?]%issue_spec|ci m s s' [[? _]|(? & ? & ? & _ & _ & _ & ?)]%reply_spec
                |ci s s' [[? _]|?]%timeout_spec|];
    eauto using winv_quiet, winv_opened, winv_closed, winv_later.
Qed.

Lemma wsteps_winv s s' : rtc wstep s s' → winv s → winv s'.
Proof. induction 1; eauto using wstep_winv. Qed.

Lemma count_none {B} (f : B → bool) l : Forall (λ x, f x = false) l → count f l = 0.
Proof. unfold count, size_z. induction 1 as [|x l Hx _ IH]; [done|]. simpl. by rewrite Hx. Qed.

Lemma count_zero {B} (f : B → bool) l : count f l = 0 → Forall (λ x, f x = false) l.
Proof.
  unfold count, size_z. induction l as [|x l IH]; simpl; [done|].
  destruct (f x) eqn:Hx; simpl; [lia|]. intros H. constructor; auto.
Qed.

Lemma start_winv nodes cfg w (x : netsim handler A) :
  make_workload nodes cfg = Ok w → total_ops cfg < 2 ^ 64 →
  kClientIdBase + Z.of_nat (num_clients cfg) < 2 ^ 64 → winv (mkWs w x []).
Proof.
  intros Hw H1 H2.
  assert (∃ cs, w = mkWorkload cfg nodes (replicate (num_clients cfg) cs) 0 0 0 ∧
                waiting cs = false ∧ next_request_id cs = 0) as (cs & -> & Hcs & Hr).
  { unfold make_workload in Hw. destruct (num_clients cfg) as [|n] eqn:Hn.
    - injection Hw as <-. by exists (mkClientState 0 0 false 0 0 0).
    - destruct nodes as [|n0 nodes]; [done|]. injection Hw as <-. eexists; split; [done|]. done. }
  assert (count waiting (replicate (num_clients cfg) cs) = 0) as H0.
  { by apply count_none, Forall_replicate. }
  split; split; cbn [wl whist wcfg_ clients_ ops_issued_ ops_completed_ pending_]; try done; try lia.
  - intros ci c [-> _]%lookup_replicate. lia.
  - unfold size_z. by rewrite length_replicate.
  - intros ci c [-> _]%lookup_replicate. congruence.
  - by intros e ci c ?%elem_of_nil.
Qed.

(** C11: the clients are a closed loop.  However the clients' handlers
    interleave with one another and with the rest of the system, the history
    holds [ops_issued_] operations, at most [total_ops]; completed and pending
    operations add up to the issued ones; [pending_] is the number of
    operations without a response; an operation returns no earlier than it is
    invoked; and of two operations of one client the first has returned
    before the second is invoked.  When [done()] holds every operation of
    [total_ops] has a response. *)
Theorem workload_sequential (nodes : list NodeId) (cfg : WorkloadConfig) (w : Workload)
    (x : netsim handler A) (s : wstate A)
    (Hmake : make_workload nodes cfg = Ok w) (Hops : 0 <= total_ops cfg < 2 ^ 64)
    (Hclients : kClientIdBase + Z.of_nat (num_clients cfg) < 2 ^ 64)
    (Hrun : rtc wstep (mkWs w x []) s) :
  (size_z (whist s) = ops_issued_ (wl s) ∧ ops_issued_ (wl s) <= total_ops (wcfg_ (wl s)) ∧
   ops_completed_ (wl s) + pending_ (wl s) = ops_issued_ (wl s) ∧
   pending_ (wl s) = count h_pending (whist s)) ∧
  Forall (λ e, h_pending e = false → h_invoke e <= h_ret e) (whist s) ∧
  (∀ i j e e', (i < j)%nat → whist s !! i = Some e → whist s !! j = Some e' → in_sequence e e') ∧
  (workload_done (wl s) = true →
   size_z (whist s) = total_ops (wcfg_ (wl s)) ∧ Forall (λ e, h_pending e = false) (whist s)).
Proof.
  assert (winv s ∧ 0 <= total_ops (wcfg_ (wl s))) as [[C W] Ht].
  { pose proof (start_winv nodes cfg w x Hmake ltac:(lia) Hclients) as I.
    assert (wcfg_ w = cfg) as Hc.
    { unfold make_workload in Hmake. repeat case_match; by simplify_eq/=. }
    split; [by eapply wsteps_winv|].
    assert (0 <= total_ops (wcfg_ (wl (mkWs w x [])))) as H0 by (simpl; rewrite Hc; lia).
    revert H0. clear -Hrun. induction Hrun as [|s1 s2 s3 H12 _ IH]; [done|]. intros H. apply IH.
    destruct H12 as [? ? ? [(Hw & _)|[]]%issue_spec|? ? ? ? [[(Hw & _) _]|(? & ? & ? & _ & _ & _ & [])]%reply_spec
                    |? ? ? [[(Hw & _) _]|[]]%timeout_spec|? ? Hw]; congruence. }
  pose proof (wc_limit s C). pose proof (wc_length s C). pose proof (wc_pending s C).
  split_and!; [done|lia|apply C|done| |apply W|].
  - eapply Forall_impl; [apply (wo_entries s W)|]. intros e (_ & _ & He) Hp. by apply He.
  - unfold workload_done. intros [Hi%Z.leb_le Hz%Z.eqb_eq]%andb_true_iff.
    split; [lia|]. apply count_zero. lia.
Qed.

(** ** The handlers return *)

Lemma think_returns ci s : ∃ s', Work.think issue ci s = (Ok tt, s').
Proof. by eexists. Qed.

Lemma cancel_returns id s : ∃ s', Work.on_sim (Sim.cancel id) s = (Ok tt, s') ∧ quiet s s'.
Proof.
  unfold Work.on_sim, Work.on_net, Net.on_sim, Sim.cancel, Sim.on_queue, Queue.cancel.
  eexists. split; [reflexivity|]. done.
Qed.

Lemma take_reply_returns ci cs reply s e :
  whist s !! history_handle cs = Some e → ∃ s', Work.take_reply ci cs reply s = (Ok tt, s').
Proof.
  intros He. unfold Work.take_reply, Work.kind_at, Work.on_history, Hist.record_return, mbind, M_bind.
  destruct (crp_success reply); simpl; rewrite ?He; simpl; rewrite ?He; simpl; destruct (negb _); by eexists.
Qed.

Lemma reply_returns ci cs m reply e s :
  clients_ (wl s) !! ci = Some cs → waiting cs = true → matching cs m reply →
  whist s !! history_handle cs = Some e → ∃ s', Work.on_reply issue ci m s = (Ok tt, s').
Proof.
  intros Hcs Hw (Hh & Hd & Hr) He. unfold Work.on_reply.
  rewrite (bind_ok _ _ s s cs) by (unfold Work.client; by rewrite Hcs). rewrite Hw. cbn [negb].
  destruct (msg_payload m) as [|ty p] eqn:Hp; [done|]. injection Hh as ->. cbn [negb Z.eqb].
  rewrite Z.eqb_refl. cbn [negb].
  rewrite (bind_ok _ _ s s reply) by (unfold Work.decode_reply; by rewrite Hd).
  rewrite Hr, Z.eqb_refl. cbn [negb].
  destruct (cancel_returns (timeout_id cs) s) as (s1 & H1 & (_ & Hh1 & _)).
  rewrite (bind_ok _ _ _ _ _ H1). unfold Work.upd_client, Work.count_return, Work.upd_wl.
  rewrite !(bind_ok (modify _) _ _ _ tt) by reflexivity.
  destruct (take_reply_returns ci cs reply
    (mkWs (mkWorkload (wcfg_ (wl s1)) (wnodes_ (wl s1)) (alter (Work.set_waiting false) ci (clients_ (wl s1)))
       (ops_issued_ (wl s1)) (ops_completed_ (wl s1)) (wrap64 (pending_ (wl s1) - 1))) (wnet s1) (whist s1)) e)
    as [s2 H2]; [by rewrite Hh1|].
  rewrite (bind_ok _ _ _ _ _ H2). by eexists.
Qed.

(** C12: replies.  A client that waits for an operation takes a matching reply
    of a leader: it records for the operation the result of the command - if
    the reply carries what the key-value store returned for the operation's
    command, the recorded entry is an answer of the store as the checker
    understands it - and is free for its next operation. *)
Theorem reply_recorded (ci : nat) (cs : ClientState) (m : Message) (reply : ClientReply)
    (kv : KvStore) (e : HistoryEntry) (s : wstate A)
    (Hcs : clients_ (wl s) !! ci = Some cs) (Hwait : waiting cs = true) (Hm : matching cs m reply)
    (He : whist s !! history_handle cs = Some e) (Hleader : crp_success reply = true)
    (Hresult : crp_result reply = (Kv.apply (entry_cmd e) kv).1) :
  ∃ s' e', Work.on_reply issue ci m s = (Ok tt, s') ∧
    whist s' = <[history_handle cs := e']> (whist s) ∧ h_pending e' = false ∧
    h_ret e' = clock_ (ns_sim (wnet s)) ∧ entry_cmd e' = entry_cmd e ∧
    answers e' (Kv.apply (entry_cmd e) kv).1 ∧
    (∃ cs', clients_ (wl s') !! ci = Some cs' ∧ waiting cs' = false) ∧
    ops_completed_ (wl s') = wrap64 (ops_completed_ (wl s) + 1).
Proof.
  destruct (reply_returns ci cs m reply e s Hcs Hwait Hm He) as [s' Hs'].
  destruct (reply_spec _ _ _ _ _ Hs') as [[_ Hno]|(c & r & e0 & Hc & Hm' & He0 & Hcl)].
  { by destruct (Hno cs reply). }
  simplify_eq. assert (r = reply) as ->.
  { destruct Hm as (_ & H1 & _), Hm' as (_ & H2 & _). rewrite H1 in H2. by injection H2. }
  destruct Hcl as [(c & c' & e1 & Hc & _ & Hcl & Hw' & _ & He1 & Hh) (_ & _ & Hn) _ _]. simplify_eq.
  eexists s', _. split; [done|]. split; [exact Hh|]. split_and!; [done|done|done| | |done].
  - unfold recorded, answers, returned. rewrite Hleader, Hresult. cbn [fst snd h_kind h_ok h_response].
    destruct (h_kind e); simpl; auto.
  - exists c'. split; [|done]. rewrite Hcl. apply list_lookup_insert_eq. by eapply lookup_lt_Some.
Qed.

End Runs.

(** ** Examples *)

(** Two clients and ten operations; the actions are numbered closures. *)
Definition demo_cfg : WorkloadConfig :=
  mkWorkloadConfig 2 4 10 (5 * kMsec) (dbl_ratio 4 10) (dbl_ratio 4 10).
Definition demo_sim : netsim handler (nat * nat) :=
  mkNetsim (mkNetwork default_network {[1 := HNode 1]} ∅ false) (make_simulator 42).
Definition demo_wl : Workload :=
  mkWorkload demo_cfg [1; 2; 3] (replicate 2 (mkClientState 1 0 false 0 0 0)) 0 0 0.
Definition demo_issue (ci : nat) : nat * nat := (0, ci)%nat.
Definition demo_expire (ci : nat) : nat * nat := (1, ci)%nat.
Definition demo_deliver (h : handler) (m : Message) : nat * nat := (2, 0)%nat.

Definition demo_start : wstate (nat * nat) := mkWs demo_wl demo_sim [].
Definition demo_issued : wstate (nat * nat) :=
  (Work.issue_op demo_expire demo_deliver 8 0 demo_start).2.
Definition demo_closed : wstate (nat * nat) := (Work.on_timeout demo_issue 0 demo_issued).2.

Definition demo_client : ClientState :=
  default (mkClientState 0 0 false 0 0 0) (clients_ (wl demo_issued) !! 0%nat).

Lemma demo_steps : rtc (wstep demo_issue demo_expire demo_deliver 8) demo_start demo_closed.
Proof.
  eapply rtc_l; [apply (ws_issue _ _ _ _ 0 demo_start demo_issued); vm_compute; reflexivity|].
  apply rtc_once. apply (ws_timeout _ _ _ _ 0 demo_issued). vm_compute. reflexivity.
Qed.

Lemma workload_sequential_witness :
  size_z (whist demo_closed) = 1 ∧ pending_ (wl demo_closed) = count h_pending (whist demo_closed) ∧
  (∀ i j e e', (i < j)%nat → whist demo_closed !! i = Some e → whist demo_closed !! j = Some e' →
     in_sequence e e').
Proof.
  destruct (workload_sequential demo_issue demo_expire demo_deliver 8 [1; 2; 3] demo_cfg demo_wl
    demo_sim demo_closed eq_refl) as ((H1 & _ & _ & H2) & _ & H3 & _).
  - split; [vm_compute; congruence|vm_compute; reflexivity].
  - vm_compute. reflexivity.
  - exact demo_steps.
  - split; [exact H1|]. split; [exact H2|exact H3].
Defined.


Definition demo_entry_0 : HistoryEntry := default (mkHistoryEntry 0 0 OpPut "" "" "" 0 0 "" false false)
  (whist demo_issued !! 0%nat).
Definition demo_reply : ClientReply :=
  mkClientReply 100 0 true (Kv.apply (entry_cmd demo_entry_0) empty_kv).1 1.
Definition demo_msg : Message := mkMessage 1 100 (Encode.ClientReply demo_reply).

Lemma reply_recorded_witness :
  ∃ s' e', Work.on_reply demo_issue 0 demo_msg demo_issued = (Ok tt, s') ∧
    whist s' = [e'] ∧ answers e' (crp_result demo_reply).
Proof.
  destruct (reply_recorded demo_issue 0 demo_client demo_msg demo_reply
    empty_kv demo_entry_0 demo_issued) as (s' & e' & H1 & H2 & _ & _ & _ & H3 & _).
  - vm_compute. reflexivity.
  - vm_compute. reflexivity.
  - split_and!; vm_compute; reflexivity.
  - vm_compute. reflexivity.
  - reflexivity.
  - reflexivity.
  - exists s', e'. split; [exact H1|]. split; [|exact H3]. rewrite H2. vm_compute. reflexivity.
Defined.
