(* ===== verification/SimEnv.v ===== *)
(** * The simulated environment of a node

    In a simulation the [IClock] of a node is the [Simulator], its
    [ITransport] the [Network]: the interfaces of [Env] over the two.  [A] is
    the type of the scheduled closures, [timer_action] the closures of a node's
    timers.  Simulated nodes have no callbacks from outside: the clients talk
    to them by messages. *)

From S2P Require Import Prelude Types Rpc Env Prng EventQueue Simulator Network Node.

Section SimEnv.
Context {A : Type} (timer_action : timer → A) (deliver : handler → Message → A) (fuel : nat).

Definition sim_NodeEnv : NodeEnv (netsim handler A) := {|
  env_clock := {|
    schedule delay t := Net.on_sim (Sim.schedule delay (timer_action t));
    cancel id := Net.on_sim (Sim.cancel id);
    random_range lo hi := Net.on_sim (Sim.random_range fuel lo hi)
  |};
  env_net := {|
    net_send from to payload := Net.send deliver fuel from to payload;
    set_handler id h := Net.set_handler id h;
    remove_handler id := Net.remove_handler id
  |};
  env_callbacks := {|
    client_done _ _ := mret tt;
    read_done _ _ _ _ := mret tt;
    state_changed _ _ _ := mret tt
  |};
|}.

End SimEnv.
