(* ===== verification/SimFrame.v ===== *)
(** * What a simulated node does to the simulator

    A node touches its environment only through [IClock] and [ITransport]:
    whatever it does, the clock stays, the generator stays valid and nothing
    is scheduled in the past.  [framed] says so of one run of an operation;
    it holds of every operation of [RaftNode]. *)

From S2P Require Import Prelude Codec DurableStore Types Wal KvStore RaftLog Rpc Env Prng EventQueue Simulator Network Node.
From S2P Require Import NodeVotes NetFrame SimEnv.

(** The delays of a configuration are short. *)
Definition short_config (c : RaftConfig) : Prop :=
  0 <= election_timeout_lo c < 2 ^ 60 ∧ short (heartbeat_interval c) ∧ short (read_timeout c).

(** ** Environments backed by a simulator and a network

    What the frame needs of an environment: every call leaves the simulator
    and the network behind [sim_view] ahead, and draws are in range. *)
Class SimView (E A : Type) := sim_view : E → netsim handler A.

Definition seen `{SimView E A} (e e' : E) : Prop := ahead (sim_view e) (sim_view e').

Class SimBacked (E A : Type) `{SimView E A} `{NodeEnv E} := {
  sb_schedule d (t : timer) : short d → keeps seen (schedule d t : M E EventId);
  sb_cancel id : keeps seen (cancel (A := timer) id : M E unit);
  sb_random lo hi : is_u64 lo → is_u64 hi → keeps seen (random_range (A := timer) lo hi : M E Z);
  sb_range lo hi e z e' :
    is_u64 lo → is_u64 hi → prng_ok (prng_ (ns_sim (sim_view e))) →
    random_range (A := timer) lo hi e = (Ok z, e') → lo <= z < hi;
  sb_send from to p : keeps seen (net_send (H := handler) from to p : M E unit);
  sb_set_handler id (h : handler) : keeps seen (set_handler id h : M E unit);
  sb_remove_handler id : keeps seen (remove_handler (H := handler) id : M E unit);
  sb_client t r : keeps seen (client_done t r : M E unit);
  sb_read t l b v : keeps seen (read_done t l b v : M E unit);
  sb_state id r t : keeps seen (state_changed id r t : M E unit);
}.

(** The simulated environment is one. *)
#[export] Instance netsim_view {A} : SimView (netsim handler A) A := λ x, x.

Lemma netsim_range {A} fuel lo hi (x : netsim handler A) z x' :
  is_u64 lo → is_u64 hi → prng_ok (prng_ (ns_sim x)) →
  Net.on_sim (Sim.random_range fuel lo hi) x = (Ok z, x') → lo <= z < hi.
Proof.
  intros U1 U2 Hg H. unfold Net.on_sim, Sim.random_range, Sim.on_prng in H.
  destruct (Rng.range fuel lo hi _) as [r g'] eqn:Hr. cbn in H. injection H as -> _.
  by eapply range_result.
Qed.

#[export] Instance sim_backed {A} (timer_action : timer → A) deliver fuel :
  @SimBacked (netsim handler A) A _ (sim_NodeEnv timer_action deliver fuel).
Proof.
  split; cbn; intros.
  - by apply ahead_schedule.
  - apply ahead_cancel.
  - by apply ahead_range.
  - by eapply netsim_range.
  - apply ahead_send.
  - by apply ahead_upd_net.
  - by apply ahead_upd_net.
  - intros x. unfold seen. reflexivity.
  - intros x. unfold seen. reflexivity.
  - intros x. unfold seen. reflexivity.
Qed.

(** ** Framed operations *)
Section Framed.
Context {E A : Type} `{SimView E A}.
Implicit Types (s : nstate E) (n : RaftNode).

Record framed_ s s' : Prop := {
  fr_cfg : cfg_ (nd s') = cfg_ (nd s);
  fr_clock : clock_ (ns_sim (sim_view (env s'))) = clock_ (ns_sim (sim_view (env s)));
  fr_future : future (sim_view (env s'));
}.
Definition framed s s' : Prop := short_config (cfg_ (nd s)) → future (sim_view (env s)) → framed_ s s'.

#[local] Instance framed_pre : PreOrder framed.
Proof.
  split; [by intros s Hc Hf|]. intros s1 s2 s3 F12 F23 Hc Hf. destruct (F12 Hc Hf) as [C T F].
  destruct F23 as [C' T' F']; [by rewrite C|done|]. split; congruence || done.
Qed.

Lemma framed_assume s s' :
  (short_config (cfg_ (nd s)) → future (sim_view (env s)) → framed s s') → framed s s'.
Proof. intros F Hc Hf. exact (F Hc Hf Hc Hf). Qed.

Lemma framed_upd f : (∀ n, cfg_ (f n) = cfg_ n) → keeps framed (upd f : M (nstate E) unit).
Proof. intros Hf s Hc F. by split; [apply Hf|..]. Qed.
Lemma framed_rd {B} (f : RaftNode → B) : keeps framed (rd f : M (nstate E) B).
Proof. intros s. reflexivity. Qed.
Lemma framed_result {B} (r : result B) : keeps framed (lift_result r : M (nstate E) B).
Proof. intros s. reflexivity. Qed.
Lemma framed_decoder {B} (d : M bytes B) b : keeps framed (run_decoder d b : M (nstate E) B).
Proof. intros s. reflexivity. Qed.
Lemma framed_env {B} (m : M E B) : keeps seen m → keeps framed (liftE m).
Proof.
  intros Hm s Hc Hf. unfold liftE. destruct (Hm (env s)) as [C F]. destruct (m (env s)) as [r e].
  split; [done|done|auto].
Qed.
Lemma framed_try {B} (m : M (nstate E) B) h :
  keeps framed m → (∀ e, keeps framed (h e)) → keeps framed (try_catch m h).
Proof. apply keeps_try, _. Qed.

Context `{!NodeEnv E, !SimBacked E A}.

Lemma framed_send to p : keeps framed (Node.send to p : M (nstate E) unit).
Proof.
  unfold Node.send. apply keeps_bind; [apply _|apply framed_rd|]. intros id.
  apply framed_env, sb_send.
Qed.
Lemma framed_cancel id : keeps framed (liftE (cancel (A := timer) id) : M (nstate E) unit).
Proof. apply framed_env, sb_cancel. Qed.
Lemma framed_handler id h : keeps framed (liftE (set_handler (H := handler) id h) : M (nstate E) unit).
Proof. apply framed_env, sb_set_handler. Qed.
Lemma framed_unhandler id : keeps framed (liftE (remove_handler (H := handler) id) : M (nstate E) unit).
Proof. apply framed_env, sb_remove_handler. Qed.
Lemma framed_client t r : keeps framed (liftE (client_done t r) : M (nstate E) unit).
Proof. apply framed_env, sb_client. Qed.
Lemma framed_read t l b v : keeps framed (liftE (read_done t l b v) : M (nstate E) unit).
Proof. apply framed_env, sb_read. Qed.
Lemma framed_state id r t : keeps framed (liftE (state_changed id r t) : M (nstate E) unit).
Proof. apply framed_env, sb_state. Qed.
Lemma framed_schedule d t : short d → keeps framed (liftE (schedule (A := timer) d t) : M (nstate E) EventId).
Proof. intros Hd. by apply framed_env, sb_schedule. Qed.
End Framed.

#[export] Existing Instance framed_pre.
Create HintDb framed.
#[export] Hint Resolve framed_rd framed_result framed_decoder framed_send framed_cancel framed_handler framed_unhandler framed_client framed_read framed_state framed_try : framed.
Ltac framed_base :=
  first [ solve [eauto with framed nocore]
        | apply framed_upd; intros; reflexivity ].
Ltac framed_auto := repeat keeps_step framed_base.

Section FramedOps.
Context {E A : Type} `{SimView E A} {ne : NodeEnv E} `{!SimBacked E A}.
Local Abbreviation fr := (framed (E := E) (A := A)).
Implicit Types (s : nstate E).

Lemma framed_schedule_election : keeps fr (@Node.schedule_election_timeout E ne).
Proof.
  intros s. unfold Node.schedule_election_timeout. rewrite bind_rd.
  destruct (election_scheduled_ (nd s)); [reflexivity|]. rewrite bind_upd. cbn [nd env].
  rewrite !bind_rd. cbn [nd env].
  set (s1 := mkN ((nd s) <| election_generation_ := _ |>) (env s)).
  transitivity s1; [by split|]. apply framed_assume. intros (Hlo & _ & _) Hf.
  change (cfg_ (nd s1)) with (cfg_ (nd s)) in Hlo. set (lo := election_timeout_lo _) in *.
  assert (is_u64 lo ∧ is_u64 (wrap64 (2 * lo + 1))) as [U1 U2].
  { split; [unfold is_u64; lia|apply wrap64_range]. }
  apply (keeps_bind_at framed); [by apply framed_env, sb_random|]. intros delay Hd.
  assert (short delay) as Hs.
  { unfold liftE in Hd. destruct (random_range lo _ _) as [r e'] eqn:Hr.
    injection Hd as ->. apply sb_range in Hr; [|done|done|apply Hf].
    rewrite wrap64_id in Hr by (unfold is_u64; lia). unfold short. lia. }
  match goal with |- framed ?x _ => generalize x end. intros s2.
  match goal with |- framed _ (?m _).2 => enough (keeps fr m) as K by apply K end.
  repeat keeps_step ltac:(first [framed_base | by apply framed_schedule]).
Qed.

Lemma framed_schedule_heartbeat : keeps fr (@Node.schedule_heartbeat E ne).
Proof.
  intros s. unfold Node.schedule_heartbeat. rewrite bind_rd.
  destruct (heartbeat_scheduled_ (nd s)); [reflexivity|]. rewrite bind_upd. cbn [nd env].
  rewrite !bind_rd. cbn [nd env]. set (s1 := mkN ((nd s) <| heartbeat_scheduled_ := _ |>) (env s)).
  transitivity s1; [by split|]. apply framed_assume. intros (_ & Hh & _) _.
  change (cfg_ (nd s1)) with (cfg_ (nd s)) in Hh.
  match goal with |- framed _ (?m _).2 => enough (keeps fr m) as K by apply K end.
  repeat keeps_step ltac:(first [framed_base | by apply framed_schedule]).
Qed.
Hint Resolve framed_schedule_election framed_schedule_heartbeat : framed.

Local Tactic Notation "walk" constr(f) := unfold f; framed_auto.

Lemma framed_this : keeps fr (@Node.this E).
Proof. apply framed_rd. Qed.
Lemma framed_persist : keeps fr (@Node.persist E).
Proof. walk @Node.persist. Qed.
Lemma framed_cancel_election : keeps fr (@Node.cancel_election_timeout E ne).
Proof. walk @Node.cancel_election_timeout. Qed.
Lemma framed_cancel_heartbeat : keeps fr (@Node.cancel_heartbeat E ne).
Proof. walk @Node.cancel_heartbeat. Qed.
Lemma framed_notify : keeps fr (@Node.notify_state_change E ne).
Proof. walk @Node.notify_state_change. Qed.
Lemma framed_invoke cb r : keeps fr (@Node.invoke_client E ne cb r).
Proof. walk @Node.invoke_client. Qed.
Lemma framed_invoke_read t b v : keeps fr (@Node.invoke_read E ne t b v).
Proof. walk @Node.invoke_read. Qed.
Hint Resolve framed_invoke_read : framed.
Lemma framed_cancel_reads : keeps fr (@Node.cancel_pending_reads E ne).
Proof. walk @Node.cancel_pending_reads. Qed.
Lemma framed_drain kept todo : keeps fr (@Node.drain_loop E ne kept todo).
Proof. revert kept. induction todo; intros; cbn [Node.drain_loop]; framed_auto. Qed.
Lemma framed_next_index_at p : keeps fr (@Node.next_index_at E p).
Proof. walk @Node.next_index_at. Qed.
Lemma framed_match_index_at p : keeps fr (@Node.match_index_at E p).
Proof. walk @Node.match_index_at. Qed.
Lemma framed_set_next_index p i : keeps fr (@Node.set_next_index E p i).
Proof. walk @Node.set_next_index. Qed.
Lemma framed_set_match_index p i : keeps fr (@Node.set_match_index E p i).
Proof. walk @Node.set_match_index. Qed.
Hint Resolve framed_this framed_persist framed_cancel_election framed_cancel_heartbeat framed_notify
  framed_invoke framed_cancel_reads framed_drain framed_next_index_at framed_match_index_at
  framed_set_next_index framed_set_match_index : framed.
Lemma framed_drain_reads : keeps fr (@Node.drain_pending_reads E ne).
Proof. walk @Node.drain_pending_reads. Qed.
Lemma framed_become_follower t l : keeps fr (@Node.become_follower E ne t l).
Proof. walk @Node.become_follower. Qed.
Lemma framed_send_snapshot p : keeps fr (@Node.send_install_snapshot E ne p).
Proof. walk @Node.send_install_snapshot. Qed.
Lemma framed_prev_term p : keeps fr (@Node.prev_term_of E p).
Proof. walk @Node.prev_term_of. Qed.
Hint Resolve framed_drain_reads framed_become_follower framed_send_snapshot framed_prev_term : framed.
Lemma framed_replicate_to p : keeps fr (@Node.replicate_to E ne p).
Proof. walk @Node.replicate_to. Qed.
Hint Resolve framed_replicate_to : framed.
Lemma framed_replicate_all : keeps fr (@Node.replicate_all E ne).
Proof. walk @Node.replicate_all. Qed.
Hint Resolve framed_replicate_all : framed.
Lemma framed_become_leader : keeps fr (@Node.become_leader E ne).
Proof. walk @Node.become_leader. Qed.
Hint Resolve framed_become_leader : framed.
Lemma framed_become_candidate : keeps fr (@Node.become_candidate E ne).
Proof. walk @Node.become_candidate. Qed.
Lemma framed_save_snapshot : keeps fr (@Node.save_snapshot E).
Proof. walk @Node.save_snapshot. Qed.
Hint Resolve framed_become_candidate framed_save_snapshot : framed.
Lemma framed_take_snapshot : keeps fr (@Node.take_snapshot E).
Proof. walk @Node.take_snapshot. Qed.
Lemma framed_fill i n dec : keeps fr (@Node.fill_snap_data E i n dec).
Proof. revert i dec. induction n; intros; cbn [Node.fill_snap_data]; framed_auto. Qed.
Hint Resolve framed_take_snapshot framed_fill : framed.
Lemma framed_load_snapshot : keeps fr (@Node.load_snapshot E).
Proof. walk @Node.load_snapshot. Qed.
Lemma framed_membership cmd : keeps fr (@Node.apply_membership_change E ne cmd).
Proof. walk @Node.apply_membership_change. Qed.
Hint Resolve framed_load_snapshot framed_membership : framed.
Lemma framed_apply_one i : keeps fr (@Node.apply_one E ne i).
Proof. walk @Node.apply_one. Qed.
Hint Resolve framed_apply_one : framed.
Lemma framed_apply_loop k : keeps fr (@Node.apply_loop E ne k).
Proof. induction k; cbn [Node.apply_loop]; framed_auto. Qed.
Hint Resolve framed_apply_loop : framed.
Lemma framed_apply_committed : keeps fr (@Node.apply_committed_entries E ne).
Proof. walk @Node.apply_committed_entries. Qed.
Lemma framed_skip i : keeps fr (@Node.skip_prior_term E i).
Proof. walk @Node.skip_prior_term. Qed.
Hint Resolve framed_apply_committed framed_skip : framed.
Lemma framed_advance_loop k i : keeps fr (@Node.advance_loop E ne k i).
Proof. revert i. induction k; intros; cbn [Node.advance_loop]; framed_auto. Qed.
Hint Resolve framed_advance_loop : framed.
Lemma framed_advance : keeps fr (@Node.maybe_advance_commit_index E ne).
Proof. walk @Node.maybe_advance_commit_index. Qed.
Hint Resolve framed_advance : framed.
Lemma framed_accept_entry e : keeps fr (@Node.accept_entry_n E e).
Proof. walk @Node.accept_entry_n. Qed.
Hint Resolve framed_accept_entry : framed.
Lemma framed_submit c r cmd cb : keeps fr (@Node.submit E ne c r cmd cb).
Proof. walk @Node.submit. Qed.
Hint Resolve framed_submit : framed.

Lemma framed_rv from m : keeps fr (@Node.handle_request_vote E ne from m).
Proof. walk @Node.handle_request_vote. Qed.
Lemma framed_rvr from m : keeps fr (@Node.handle_request_vote_reply E ne from m).
Proof. walk @Node.handle_request_vote_reply. Qed.
Lemma framed_ae from m : keeps fr (@Node.handle_append_entries E ne from m).
Proof. walk @Node.handle_append_entries. Qed.
Lemma framed_aer from m : keeps fr (@Node.handle_append_entries_reply E ne from m).
Proof. walk @Node.handle_append_entries_reply. Qed.
Lemma framed_is from m : keeps fr (@Node.handle_install_snapshot E ne from m).
Proof. walk @Node.handle_install_snapshot. Qed.
Lemma framed_isr from m : keeps fr (@Node.handle_install_snapshot_reply E ne from m).
Proof. walk @Node.handle_install_snapshot_reply. Qed.
Lemma framed_rir from m : keeps fr (@Node.handle_read_index_request E ne from m).
Proof. walk @Node.handle_read_index_request. Qed.
Lemma framed_rirr from m : keeps fr (@Node.handle_read_index_reply E ne from m).
Proof. walk @Node.handle_read_index_reply. Qed.
Lemma framed_cr from m : keeps fr (@Node.handle_client_request E ne from m).
Proof. walk @Node.handle_client_request. Qed.
Hint Resolve framed_rv framed_rvr framed_ae framed_aer framed_is framed_isr framed_rir framed_rirr
  framed_cr : framed.
Lemma framed_timeout_loop round b a : keeps fr (@Node.timeout_loop E ne round b a).
Proof. revert b. induction a; intros; cbn [Node.timeout_loop]; framed_auto. Qed.
Lemma framed_load_log : keeps fr (@Node.load_log E).
Proof.
  unfold Node.load_log. apply keeps_bind; [apply _|apply framed_rd|]. intros sz.
  destruct (sz =? 0)%nat; [apply keeps_ret, _|]. intros s.
  destruct (Log.load_from _ _) as [r l]. by split.
Qed.
Lemma framed_load_meta : keeps fr (@Node.load_meta E).
Proof. walk @Node.load_meta. Qed.
Hint Resolve framed_timeout_loop framed_load_log framed_load_meta : framed.

(** ** The entry points *)
Lemma framed_on_message m : keeps fr (@Node.on_message E ne m).
Proof.
  unfold Node.on_message. apply keeps_bind; [apply _|apply framed_rd|]. intros run.
  destruct (negb run); [apply keeps_ret, _|]. destruct (msg_payload m) as [|ty p]; [apply keeps_ret, _|].
  apply framed_try; [|intros; apply keeps_ret, _]. walk @Node.dispatch.
Qed.
Lemma framed_on_timer t : keeps fr (@Node.on_timer E ne t).
Proof. unfold Node.on_timer, Node.on_election_timeout, Node.on_heartbeat. framed_auto. Qed.
Lemma framed_start : keeps fr (@Node.start E ne).
Proof. walk @Node.start. Qed.
Hint Resolve framed_start : framed.
Lemma framed_restart : keeps fr (@Node.restart E ne).
Proof. walk @Node.restart. Qed.
Lemma framed_crash : keeps fr (@Node.crash E ne).
Proof. walk @Node.crash. Qed.
End FramedOps.
