(* ===== verification/FaultInjector.v ===== *)
(** * The fault injector: [src/harness/fault_injector.hpp/.cpp]

    Every [check_interval] it draws whether to inject a fault and which.  It
    refers to the simulator, the network and the nodes; [nodes_] is a list of
    pointers, the ids of the nodes in [fnodes].  The closures it schedules are
    the parameters [tick_action], [heal_action], [restart_action],
    [drop_action] and [dup_action]. *)

From Corelib Require Import SpecFloat.
From S2P Require Import Prelude Codec DurableStore Types Wal KvStore RaftLog Rpc Env Prng EventQueue Simulator Network Node SimEnv.
From S2P Require Import Workload.

Record FaultConfig := mkFaultConfig {
  fault_rate : double;
  check_interval : SimTime;
  partition_duration : SimTime;
  crash_min_down : SimTime;
  crash_max_down : SimTime;
  partition_prob : double;
  drop_raise_prob : double;
  dup_raise_prob : double;
}.

Definition default_faults : FaultConfig :=
  mkFaultConfig (dbl_ratio 5 100) (200 * kMsec) (800 * kMsec) (300 * kMsec) (1 * kSec)
    (dbl_ratio 4 10) (dbl_ratio 2 10) (dbl_ratio 1 10).

Record FaultInjector := mkFaultInjector {
  fcfg_ : FaultConfig;
  fnodes_ : list NodeId;
  frunning_ : bool;
  tick_id_ : EventId;
}.

Definition make_injector (nodes : list NodeId) (cfg : FaultConfig) : FaultInjector :=
  mkFaultInjector cfg nodes false 0.

Record fstate (A : Type) := mkFs {
  fi : FaultInjector;
  fnet : netsim handler A;
  fnodes : gmap NodeId RaftNode;
}.
Arguments mkFs {A} _ _ _.
Arguments fi {A} _.
Arguments fnet {A} _.
Arguments fnodes {A} _.

(** [std::min(a, b)] *)
Definition dmin (a b : double) : double := if SFltb b a then b else a.

Module Fault.
Section Fault.
Context {A : Type} (timer_action : timer → A) (deliver : handler → Message → A) (fuel : nat).
Context (tick_action heal_action : A) (restart_action : NodeId → A) (drop_action dup_action : double → A).
Local Abbreviation MF := (M (fstate A)).
#[local] Existing Instance sim_NodeEnv.
Local Abbreviation sim_env := (sim_NodeEnv timer_action deliver fuel).

Definition on_net {B} (m : M (netsim handler A) B) : MF B := λ s,
  let '(r, x) := m (fnet s) in (r, mkFs (fi s) x (fnodes s)).
Definition on_sim {B} (m : M (Simulator A) B) : MF B := on_net (Net.on_sim m).
Definition on_prng {B} (m : M Prng B) : MF B := on_sim (Sim.on_prng m).
Definition draw (lo hi : Z) : MF Z := on_prng (Rng.range fuel lo hi).

(** A method of the node behind a pointer. *)
Definition on_node {B} (id : NodeId) (m : M (nstate (netsim handler A)) B) : MF B := λ s,
  match fnodes s !! id with
  | None => (Throw undefined_behaviour, s)
  | Some n =>
      let '(r, x) := m (mkN n (fnet s)) in (r, mkFs (fi s) (env x) (<[id := nd x]> (fnodes s)))
  end.

Definition set_running (b : bool) : MF unit :=
  modify (λ s, mkFs (mkFaultInjector (fcfg_ (fi s)) (fnodes_ (fi s)) b (tick_id_ (fi s))) (fnet s)
                 (fnodes s)).
Definition set_tick_id (id : EventId) : MF unit :=
  modify (λ s, mkFs (mkFaultInjector (fcfg_ (fi s)) (fnodes_ (fi s)) (frunning_ (fi s)) id) (fnet s)
                 (fnodes s)).
Definition cfg : MF FaultConfig := gets (λ s, fcfg_ (fi s)).

(** [tick_id_ = sim_.schedule(check_interval, tick)] *)
Definition schedule_tick : MF unit :=
  c ← cfg;
  id ← on_sim (Sim.schedule (check_interval c) tick_action);
  set_tick_id id.

Definition start : MF unit := set_running true;; schedule_tick.

Definition stop : MF unit :=
  set_running false;;
  id ← gets (λ s, tick_id_ (fi s));
  on_sim (Sim.cancel id).

Definition inject_partition : MF unit :=
  nodes ← gets (λ s, fnodes_ (fi s));
  if (length nodes <? 2)%nat then mret tt
  else
    ids ← on_prng (Rng.shuffle fuel nodes);
    split ← draw 1 (size_z ids);
    on_net (Net.partition [take (Z.to_nat split) ids; drop (Z.to_nat split) ids]);;
    c ← cfg;
    dur ← draw (partition_duration c / 2) (wrap64 (partition_duration c * 2));
    on_sim (Sim.schedule dur heal_action);; mret tt.

Definition inject_crash_restart : MF unit :=
  nodes ← gets (λ s, fnodes_ (fi s));
  if bool_decide (nodes = []) then mret tt
  else
    idx ← draw 0 (size_z nodes);
    match nodes !! Z.to_nat idx with
    | None => throw undefined_behaviour
    | Some node =>
        run ← on_node node (rd running_);
        if negb run then mret tt
        else
          on_node node (@Node.crash _ sim_env);;
          c ← cfg;
          down_time ← draw (crash_min_down c) (crash_max_down c);
          on_sim (Sim.schedule down_time (restart_action node));; mret tt
    end.

Definition inject_drop_spike : MF unit :=
  old_drop ← gets (λ s, drop_prob (ncfg_ (ns_net (fnet s))));
  on_net (Net.set_drop_prob (dmin (dadd old_drop (dbl_ratio 3 10)) (dbl_ratio 6 10)));;
  dur ← draw (100 * kMsec) (400 * kMsec);
  on_sim (Sim.schedule dur (drop_action old_drop));; mret tt.

Definition inject_dup_spike : MF unit :=
  old_dup ← gets (λ s, dup_prob (ncfg_ (ns_net (fnet s))));
  on_net (Net.set_dup_prob (dmin (dadd old_dup (dbl_ratio 2 10)) (dbl_ratio 4 10)));;
  dur ← draw (100 * kMsec) (400 * kMsec);
  on_sim (Sim.schedule dur (dup_action old_dup));; mret tt.

Definition inject : MF unit :=
  c ← cfg;
  r ← on_prng Rng.unit_;
  if SFltb r (partition_prob c) then inject_partition
  else if SFltb r (dadd (partition_prob c) (drop_raise_prob c)) then inject_drop_spike
  else if SFltb r (dadd (dadd (partition_prob c) (drop_raise_prob c)) (dup_raise_prob c))
  then inject_dup_spike
  else inject_crash_restart.

Definition tick : MF unit :=
  run ← gets (λ s, frunning_ (fi s));
  if negb run then mret tt
  else
    c ← cfg;
    fault ← on_prng (Rng.bernoulli (fault_rate c));
    when fault inject;;
    schedule_tick.

End Fault.
End Fault.
