(* ===== verification/HarnessFrame.v ===== *)
(** * What the clients and the fault injector do to the simulator

    The counterpart of [SimFrame] for [Workload] and [FaultInjector]: their
    handlers leave the clock alone and schedule nothing in the past. *)

From S2P Require Import Prelude Codec DurableStore Types Wal KvStore RaftLog Rpc Env Prng EventQueue Simulator Network Node.
From S2P Require Import NodeVotes NetFrame History Workload SimEnv SimFrame FaultInjector.

Lemma unit_prng g : prng_ok g → prng_ok (Rng.unit_ g).2.
Proof. intros Hg. unfold Rng.unit_. destruct (next_u64_ok g Hg) as (x & g' & H & _ & Hg'). by rewrite (bind_ok _ _ _ _ _ H). Qed.
Lemma bernoulli_prng p g : prng_ok g → prng_ok (Rng.bernoulli p g).2.
Proof.
  intros Hg. unfold Rng.bernoulli. repeat (case_match; [done|]).
  destruct (next_u64_ok g Hg) as (x & g' & H' & _ & Hg'). by rewrite (bind_ok _ _ _ _ _ H').
Qed.
Lemma shuffle_prng {T} fuel (v : list T) g :
  Z.of_nat (length v) < 2 ^ 64 → prng_ok g → prng_ok (Rng.shuffle fuel v g).2.
Proof.
  intros Hl Hg. destruct (shuffle_loop_permutes fuel (length v) v g Hg Hl) as (g' & Hg' & [(v' & Hs & _)|Hs]); [lia|..];
    unfold Rng.shuffle; by rewrite Hs.
Qed.

Lemma shuffle_perm {T} fuel (v v' : list T) g g' :
  Rng.shuffle fuel v g = (Ok v', g') → Z.of_nat (length v) < 2 ^ 64 → prng_ok g → v' ≡ₚ v.
Proof.
  intros Hs Hl Hg. destruct (shuffle_loop_permutes fuel (length v) v g Hg Hl) as (g1 & _ & [(v1 & H1 & Hp)|H1]); [lia|..];
    unfold Rng.shuffle in Hs; rewrite Hs in H1; [by injection H1 as -> _|done].
Qed.

(** ** The clients *)
Definition work_config (c : WorkloadConfig) : Prop :=
  short (think_time c) ∧ short (think_time c * Z.of_nat (num_clients c)) ∧ is_u64 (num_keys c).

Section WorkFrame.
Context {A : Type} (issue expire : nat → A) (deliver : handler → Message → A) (fuel : nat).
Implicit Types (s : wstate A).

Record wframed_ s s' : Prop := {
  wf_cfg : wcfg_ (wl s') = wcfg_ (wl s);
  wf_clock : clock_ (ns_sim (wnet s')) = clock_ (ns_sim (wnet s));
  wf_future : future (wnet s');
}.
Definition wframed s s' : Prop := work_config (wcfg_ (wl s)) → future (wnet s) → wframed_ s s'.

#[local] Instance wframed_pre : PreOrder wframed.
Proof.
  split; [by intros s Hc Hf|]. intros s1 s2 s3 F12 F23 Hc Hf. destruct (F12 Hc Hf) as [C T F].
  destruct F23 as [C' T' F']; [by rewrite C|done|]. split; congruence || done.
Qed.

Lemma wframed_assume s s' : (work_config (wcfg_ (wl s)) → future (wnet s) → wframed s s') → wframed s s'.
Proof. intros F Hc Hf. exact (F Hc Hf Hc Hf). Qed.

Lemma wframed_net {B} (m : M (netsim handler A) B) : keeps ahead m → keeps wframed (Work.on_net m).
Proof.
  intros Hm s Hc Hf. unfold Work.on_net. destruct (Hm (wnet s)) as [C F]. destruct (m (wnet s)) as [r x].
  split; [done|done|auto].
Qed.
Lemma wframed_prng {B} (m : M Prng B) :
  (∀ g, prng_ok g → prng_ok (m g).2) → keeps wframed (Work.on_prng m).
Proof. intros Hm. by apply wframed_net, ahead_prng. Qed.
Lemma wframed_hist {B} (m : M History B) : keeps wframed (Work.on_history m : M (wstate A) B).
Proof. intros s Hc Hf. unfold Work.on_history. by destruct (m (whist s)). Qed.
Lemma wframed_wl f : (∀ w, wcfg_ (f w) = wcfg_ w) → keeps wframed (Work.upd_wl f : M (wstate A) unit).
Proof. intros Hf s Hc F. by split; [apply Hf|..]. Qed.
Lemma wframed_gets {B} (f : wstate A → B) : keeps wframed (gets f).
Proof. apply keeps_gets, _. Qed.
Lemma wframed_client ci : keeps wframed (Work.client ci : M (wstate A) _).
Proof. intros s. unfold Work.client. by destruct (_ !! ci). Qed.
Lemma wframed_kind h : keeps wframed (Work.kind_at h : M (wstate A) _).
Proof. intros s. unfold Work.kind_at. by destruct (_ !! h). Qed.
Lemma wframed_decode p : keeps wframed (Work.decode_reply p : M (wstate A) _).
Proof. intros s. reflexivity. Qed.

Lemma wframed_value : keeps wframed (Work.random_value fuel : M (wstate A) _).
Proof.
  unfold Work.random_value. apply keeps_bind; [apply _| |intros; apply keeps_ret, _].
  apply wframed_prng. intros g. apply range_prng; unfold is_u64; lia.
Qed.

(** An operation that starts by reading the configuration. *)
Lemma wframed_cfg {B C} (f : WorkloadConfig → B) (k : B → M (wstate A) C) :
  (∀ c, work_config c → keeps wframed (k (f c))) → keeps wframed (gets (λ s, f (wcfg_ (wl s))) ≫= k).
Proof. intros Hk s Hc Hf. by apply (Hk _ Hc s Hc Hf). Qed.

Lemma wframed_key : keeps wframed (Work.random_key fuel : M (wstate A) _).
Proof.
  unfold Work.random_key. apply (wframed_cfg num_keys). intros c (_ & _ & Hk).
  apply keeps_bind; [apply _| |intros; apply keeps_ret, _].
  apply wframed_prng. intros g. apply range_prng; [unfold is_u64; lia|done].
Qed.

Lemma wframed_think ci : keeps wframed (Work.think issue ci : M (wstate A) _).
Proof.
  unfold Work.think. apply (wframed_cfg think_time). intros c (Ht & _).
  apply keeps_bind; [apply _| |intros; apply keeps_ret, _]. by apply wframed_net, ahead_schedule.
Qed.

Lemma wframed_expire ci : keeps wframed (Work.on_sim (Sim.schedule kOpTimeout (expire ci)) : M (wstate A) _).
Proof. apply wframed_net, ahead_schedule. vm_compute. split; congruence. Qed.
Lemma wframed_cancel id : keeps wframed (Work.on_sim (Sim.cancel id) : M (wstate A) _).
Proof. apply wframed_net, ahead_cancel. Qed.
Lemma wframed_send from to p : keeps wframed (Work.on_net (Net.send deliver fuel from to p) : M (wstate A) _).
Proof. apply wframed_net, ahead_send. Qed.
Lemma wframed_unit : keeps wframed (Work.on_prng Rng.unit_ : M (wstate A) _).
Proof. apply wframed_prng, unit_prng. Qed.

Ltac wframed_base :=
  first [ solve [eauto using wframed_hist, wframed_gets, wframed_client, wframed_kind, wframed_decode,
                   wframed_value, wframed_key, wframed_think, wframed_expire, wframed_cancel,
                   wframed_send, wframed_unit with nocore]
        | apply wframed_wl; reflexivity ].
Ltac wframed_auto := repeat keeps_step wframed_base.

Lemma wframed_op_kind : keeps wframed (Work.random_op_kind : M (wstate A) _).
Proof. unfold Work.random_op_kind. wframed_auto. Qed.
Lemma wframed_command kind key : keeps wframed (Work.random_command fuel kind key : M (wstate A) _).
Proof. unfold Work.random_command. wframed_auto. Qed.
Lemma wframed_issue ci : keeps wframed (Work.issue_op expire deliver fuel ci).
Proof.
  unfold Work.issue_op, Work.count_issue, Work.upd_client, Work.now.
  repeat keeps_step ltac:(first [wframed_base | apply wframed_op_kind | apply wframed_command]).
Qed.
Lemma wframed_reply ci m : keeps wframed (Work.on_reply issue ci m).
Proof.
  unfold Work.on_reply, Work.take_reply, Work.count_return, Work.count_complete, Work.upd_client, Work.now.
  wframed_auto.
Qed.
Lemma wframed_timeout ci : keeps wframed (Work.on_timeout issue ci).
Proof.
  unfold Work.on_timeout, Work.count_return, Work.count_complete, Work.upd_client, Work.now. wframed_auto.
Qed.

Lemma wframed_start : keeps wframed (Work.start issue).
Proof.
  assert (∀ n i s, (i + n <= num_clients (wcfg_ (wl s)))%nat → wframed s (Work.start_clients issue i n s).2) as K.
  { induction n as [|n IH]; intros i s Hi; [reflexivity|]. apply wframed_assume.
    intros (Hs1 & Hs2 & _) _. unfold short in Hs1, Hs2. cbn [Work.start_clients].
    apply (keeps_bind_at wframed); [by apply wframed_net, ahead_upd_net|]. intros _ _.
    set (s1 := (Work.on_net _ s).2). rewrite (bind_ok (gets _) _ _ _ _ eq_refl).
    change (wl s1) with (wl s).
    apply (keeps_bind_at wframed); [|intros _ _; by apply IH; change (wl _) with (wl s); lia].
    apply wframed_net, ahead_schedule. rewrite wrap64_id; unfold short, is_u64; nia. }
  intros s. unfold Work.start. rewrite (bind_ok (gets _) _ _ _ _ eq_refl). apply K. lia.
Qed.
End WorkFrame.

(** ** The fault injector *)
Definition fault_config (c : FaultConfig) : Prop :=
  short (check_interval c) ∧ 0 <= partition_duration c < 2 ^ 60 ∧ is_u64 (crash_min_down c) ∧
  short (crash_max_down c).

Section FaultFrame.
Context {A : Type} (timer_action : timer → A) (deliver : handler → Message → A) (fuel : nat).
Context (tick_action heal_action : A) (restart_action : NodeId → A) (drop_action dup_action : double → A).
Implicit Types (s : fstate A).

Definition fault_ok s : Prop :=
  fault_config (fcfg_ (fi s)) ∧ size_z (fnodes_ (fi s)) < 2 ^ 62 ∧
  (∀ id n, fnodes s !! id = Some n → short_config (cfg_ n)).

Record fframed_ s s' : Prop := {
  ff_ok : fault_ok s';
  ff_clock : clock_ (ns_sim (fnet s')) = clock_ (ns_sim (fnet s));
  ff_future : future (fnet s');
}.
Definition fframed s s' : Prop := fault_ok s → future (fnet s) → fframed_ s s'.

#[local] Instance fframed_pre : PreOrder fframed.
Proof.
  split; [by intros s Hc Hf|]. intros s1 s2 s3 F12 F23 Hc Hf. destruct (F12 Hc Hf) as [C T F].
  destruct F23 as [C' T' F']; [done..|]. split; congruence || done.
Qed.

Lemma fframed_assume s s' : (fault_ok s → future (fnet s) → fframed s s') → fframed s s'.
Proof. intros F Hc Hf. exact (F Hc Hf Hc Hf). Qed.

Lemma fframed_net {B} (m : M (netsim handler A) B) : keeps ahead m → keeps fframed (Fault.on_net m).
Proof.
  intros Hm s Hc Hf. unfold Fault.on_net. destruct (Hm (fnet s)) as [C F]. destruct (m (fnet s)) as [r x].
  split; [done|done|auto].
Qed.
Lemma fframed_prng {B} (m : M Prng B) :
  (∀ g, prng_ok g → prng_ok (m g).2) → keeps fframed (Fault.on_prng m).
Proof. intros Hm. by apply fframed_net, ahead_prng. Qed.
Lemma fframed_gets {B} (f : fstate A → B) : keeps fframed (gets f).
Proof. apply keeps_gets, _. Qed.

(** An operation that reads the configuration. *)
Lemma fframed_cfg {C} (k : FaultConfig → M (fstate A) C) :
  (∀ c, fault_config c → keeps fframed (k c)) → keeps fframed (Fault.cfg ≫= k).
Proof. intros Hk s Hc Hf. by apply (Hk _ (proj1 Hc) s Hc Hf). Qed.

Lemma fframed_node {B} id (m : M (nstate (netsim handler A)) B) :
  keeps framed m → keeps fframed (Fault.on_node id m).
Proof.
  intros Hm s Hc Hf. unfold Fault.on_node. destruct (fnodes s !! id) as [n|] eqn:Hn; [|by split].
  pose proof (Hm (mkN n (fnet s))) as Hm'. destruct (m (mkN n (fnet s))) as [r x].
  pose proof Hc as (H1 & H2 & H3). destruct Hm' as [C T F]; [by eapply H3|done|].
  split; [|done|done]. split_and!; [done|done|]. intros j n' Hj. cbn [snd fnodes] in Hj.
  cbn [snd nd] in C. apply lookup_insert_Some in Hj as [[<- <-]|[_ Hj]]; [|by eapply H3]. rewrite C. by eapply H3.
Qed.

Lemma fframed_tick_id id : keeps fframed (Fault.set_tick_id id : M (fstate A) _).
Proof. by intros s Hc Hf. Qed.
Lemma fframed_running b : keeps fframed (Fault.set_running b : M (fstate A) _).
Proof. by intros s Hc Hf. Qed.

(** [sim_.schedule(sim_.prng().range(lo, hi), a)] *)
Lemma fframed_later lo hi a :
  is_u64 lo → 0 <= lo → 0 <= hi <= 2 ^ 62 →
  keeps fframed (dur ← Fault.draw fuel lo hi; Fault.on_sim (Sim.schedule dur a);; mret tt).
Proof.
  intros Hlo Hlo0 Hhi s. apply fframed_assume. intros _ Hf.
  assert (is_u64 hi) as Hu by (unfold is_u64; lia).
  apply (keeps_bind_at fframed); [apply fframed_prng; intros; by apply range_prng|]. intros dur Hd.
  assert (short dur) as Hs.
  { unfold Fault.draw, Fault.on_prng, Fault.on_sim, Fault.on_net, Net.on_sim, Sim.on_prng in Hd.
    destruct (Rng.range fuel lo hi (prng_ (ns_sim (fnet s)))) as [r g] eqn:Hr. cbn in Hd. injection Hd as ->.
    apply range_result in Hr; [unfold short; lia|apply Hf|done..]. }
  match goal with |- fframed ?x _ => generalize x end. intros s1.
  match goal with |- fframed _ (?m _).2 => enough (keeps fframed m) as K by apply K end.
  apply keeps_bind; [apply _|by apply fframed_net, ahead_schedule|]. intros. apply keeps_ret, _.
Qed.

Lemma fframed_schedule_tick : keeps fframed (Fault.schedule_tick tick_action).
Proof.
  unfold Fault.schedule_tick. apply fframed_cfg. intros c (Hc & _).
  apply keeps_bind; [apply _|by apply fframed_net, ahead_schedule|]. intros. apply fframed_tick_id.
Qed.
Lemma fframed_start : keeps fframed (Fault.start tick_action).
Proof.
  unfold Fault.start. apply keeps_bind; [apply _|apply fframed_running|]. intros. apply fframed_schedule_tick.
Qed.
Lemma fframed_stop : keeps fframed (Fault.stop : M (fstate A) _).
Proof.
  unfold Fault.stop. apply keeps_bind; [apply _|apply fframed_running|]. intros _.
  apply keeps_bind; [apply _|apply fframed_gets|]. intros. apply fframed_net, ahead_cancel.
Qed.

Lemma fframed_partition : keeps fframed (Fault.inject_partition fuel heal_action).
Proof.
  intros s. apply fframed_assume. intros (_ & Hn & _) Hf. unfold Fault.inject_partition.
  rewrite (bind_ok (gets _) _ _ _ _ eq_refl). destruct (_ <? 2)%nat; [reflexivity|].
  unfold size_z in Hn. apply (keeps_bind_at fframed).
  { apply fframed_prng. intros g. apply shuffle_prng. lia. }
  intros ids Hids.
  assert (Z.of_nat (length ids) < 2 ^ 62) as Hlen.
  { unfold Fault.on_prng, Fault.on_sim, Fault.on_net, Net.on_sim, Sim.on_prng in Hids.
    destruct (Rng.shuffle fuel _ (prng_ (ns_sim (fnet s)))) as [r g] eqn:Hr. cbn in Hids. injection Hids as ->.
    apply shuffle_perm in Hr; [|lia|apply Hf]. rewrite Hr. lia. }
  match goal with |- fframed ?x _ => generalize x end. intros s1.
  match goal with |- fframed _ (?m _).2 => enough (keeps fframed m) as K by apply K end.
  apply keeps_bind; [apply _|apply fframed_prng; intros; apply range_prng; [unfold is_u64, size_z; lia..|done]|].
  intros split. apply keeps_bind; [apply _|by apply fframed_net, ahead_upd_net|]. intros _.
  apply fframed_cfg. intros c (_ & Hp & _). apply fframed_later.
  - unfold is_u64. split; [apply Z.div_pos; lia|]. apply Z.div_lt_upper_bound; lia.
  - apply Z.div_pos; lia.
  - rewrite wrap64_id by (unfold is_u64; lia). lia.
Qed.

Lemma fframed_crash : keeps fframed (Fault.inject_crash_restart timer_action deliver fuel restart_action).
Proof.
  intros s. apply fframed_assume. intros (_ & Hn & _) Hf. unfold Fault.inject_crash_restart.
  rewrite (bind_ok (gets _) _ _ _ _ eq_refl). cbv beta. case_bool_decide; [reflexivity|].
  match goal with |- fframed _ (?m _).2 => enough (keeps fframed m) as K by apply K end.
  apply keeps_bind; [apply _|apply fframed_prng; intros; apply range_prng; [unfold is_u64, size_z in *; lia..|done]|].
  intros idx. destruct (_ !! Z.to_nat idx) as [node|]; [|apply keeps_throw, _].
  apply keeps_bind; [apply _|apply fframed_node, framed_rd|]. intros run.
  destruct (negb run); [apply keeps_ret, _|].
  apply keeps_bind; [apply _|apply fframed_node, framed_crash|]. intros _.
  apply fframed_cfg. intros c (_ & _ & H1 & H2). unfold short in H2.
  apply fframed_later; [done|apply H1|lia].
Qed.

Lemma fframed_spikes :
  keeps fframed (Fault.inject_drop_spike fuel drop_action) ∧ keeps fframed (Fault.inject_dup_spike fuel dup_action).
Proof.
  split; (apply keeps_bind; [apply _|apply fframed_gets|]; intros old;
    apply keeps_bind; [apply _|by apply fframed_net, ahead_upd_net|]; intros _;
    apply fframed_later; unfold is_u64, kMsec; lia).
Qed.

Lemma fframed_tick :
  keeps fframed (Fault.tick timer_action deliver fuel tick_action heal_action restart_action drop_action dup_action).
Proof.
  destruct fframed_spikes as [Hdrop Hdup]. unfold Fault.tick, Fault.inject, Fault.cfg.
  repeat keeps_step ltac:(first [ apply fframed_gets | apply fframed_prng, bernoulli_prng
    | apply fframed_prng, unit_prng | apply fframed_partition | apply fframed_crash | exact Hdrop | exact Hdup
    | apply fframed_schedule_tick ]).
Qed.
End FaultFrame.
