(* ===== verification/FaultFacts.v ===== *)
(** * What the injected faults do

    A partition splits the nodes into two non-empty sides and is healed later;
    a crash takes a running node down and restarts it later; the injector
    keeps ticking until it is stopped. *)

From S2P Require Import Prelude Codec DurableStore Types Wal KvStore RaftLog Rpc Env Prng EventQueue Simulator Network Node.
From S2P Require Import NodeVotes NodeElection NetFrame Workload SimEnv SimFrame FaultInjector HarnessFrame.

Section Faults.
Context {A : Type} (fuel : nat).
Context (heal_action : A).
Implicit Types (s : fstate A).
Abbreviation heap s := (heap_ (queue_ (ns_sim (fnet s)))).
Abbreviation clock s := (clock_ (ns_sim (fnet s))).
Abbreviation network s := (ns_net (fnet s)).

(** The state with another generator. *)
Definition redrawn (g : Prng) s : fstate A :=
  mkFs (fi s) (mkNetsim (ns_net (fnet s)) (mkSim (clock_ (ns_sim (fnet s))) (next_seq_ (ns_sim (fnet s)))
    (trace_hash_ (ns_sim (fnet s))) g (queue_ (ns_sim (fnet s))))) (fnodes s).

Lemma on_prng_eq {B} (m : M Prng B) s :
  Fault.on_prng m s = ((m (prng_ (ns_sim (fnet s)))).1, redrawn (m (prng_ (ns_sim (fnet s)))).2 s).
Proof.
  unfold Fault.on_prng, Fault.on_sim, Fault.on_net, Net.on_sim, Sim.on_prng, redrawn.
  by destruct (m _) as [r g].
Qed.

(** A draw returns a number of the range, or the fuel runs out. *)
Lemma draw_cases lo hi s :
  prng_ok (prng_ (ns_sim (fnet s))) → is_u64 lo → is_u64 hi → lo < hi →
  ∃ g, prng_ok g ∧ ((∃ z, lo <= z < hi ∧ Fault.draw fuel lo hi s = (Ok z, redrawn g s)) ∨
                    Fault.draw fuel lo hi s = (Throw out_of_fuel, redrawn g s)).
Proof.
  intros Hg Hlo Hhi Hlt. unfold Fault.draw. rewrite on_prng_eq.
  destruct (range_spec fuel lo hi _ Hg Hlo Hhi Hlt) as [(k & x & g' & _ & _ & Hg' & _ & _ & _ & -> & Hb)|(_ & g' & Hg' & ->)].
  - exists g'. split; [done|]. left. by eexists.
  - exists g'. split; [done|]. by right.
Qed.

(** The event that a draw and [schedule] add. *)
Definition scheduled_within (a : A) (lo hi : SimTime) s s' : Prop :=
  ∃ t id, heap s' = mkEvent t id a false :: heap s ∧ clock s + lo <= t < clock s + hi.

Lemma later_cases lo hi a s :
  prng_ok (prng_ (ns_sim (fnet s))) → 0 <= lo < hi → hi <= 2 ^ 62 → short (clock s) →
  ∃ r s', (dur ← Fault.draw fuel lo hi; Fault.on_sim (Sim.schedule dur a);; mret tt) s = (r, s') ∧
    (r = Throw out_of_fuel ∨ r = Ok tt ∧ scheduled_within a lo hi s s') ∧
    network s' = network s ∧ fnodes s' = fnodes s ∧ fi s' = fi s.
Proof.
  intros Hg Hlo Hhi Hc. unfold short in Hc.
  destruct (draw_cases lo hi s Hg) as (g & _ & [(z & Hz & Hd)|Hd]); [unfold is_u64; lia..| |].
  - rewrite (bind_ok _ _ _ _ _ Hd). eexists _, _. split; [reflexivity|]. split_and!; [|done..].
    right. split; [done|]. eexists _, _. split; [reflexivity|]. cbn. rewrite wrap64_id by (unfold is_u64; lia). lia.
  - rewrite (bind_throw _ _ _ _ _ Hd). eexists _, _. split; [reflexivity|]. split_and!; [by left|done..].
Qed.

(** C14: partitions.  [inject_partition] on at least two nodes splits them into
    two sides, neither empty, that together are all the nodes: from then on
    two parties can exchange messages exactly if they are on the same side -
    so the clients, which are on no side, reach nobody - and a heal is
    scheduled between half and twice the configured duration ahead.  (It may
    only fail to return by rejected draws.) *)
Theorem partition_injected (s : fstate A)
    (Hg : prng_ok (prng_ (ns_sim (fnet s)))) (Hc : short (clock s)) (Hnd : NoDup (fnodes_ (fi s)))
    (Hlen : 2 <= size_z (fnodes_ (fi s)) < 2 ^ 62) (Hdur : 0 < partition_duration (fcfg_ (fi s)) < 2 ^ 60) :
  ∃ r s', Fault.inject_partition fuel heal_action s = (r, s') ∧
    (r = Throw out_of_fuel ∨
     r = Ok tt ∧ ∃ g0 g1, g0 ≠ [] ∧ g1 ≠ [] ∧ g0 ++ g1 ≡ₚ fnodes_ (fi s) ∧
       (∀ a b, Net.partitioned (network s') a b = false ↔ (a ∈ g0 ∧ b ∈ g0) ∨ (a ∈ g1 ∧ b ∈ g1)) ∧
       scheduled_within heal_action (partition_duration (fcfg_ (fi s)) / 2)
         (partition_duration (fcfg_ (fi s)) * 2) s s').
Proof.
  set (d := partition_duration (fcfg_ (fi s))) in *. unfold size_z in Hlen.
  unfold Fault.inject_partition. rewrite (bind_ok (gets _) _ _ _ _ eq_refl). cbv beta.
  destruct (Nat.ltb_spec (length (fnodes_ (fi s))) 2); [lia|].
  destruct (shuffle_loop_permutes fuel (length (fnodes_ (fi s))) (fnodes_ (fi s)) _ Hg) as (g1 & Hg1 & [(ids & Hs & Hp)|Hs]);
    [lia..| |].
  2: { eexists _, _. split; [|by left]. apply bind_throw. rewrite on_prng_eq. unfold Rng.shuffle. by rewrite Hs. }
  rewrite (bind_ok _ _ s (redrawn g1 s) ids) by (rewrite on_prng_eq; unfold Rng.shuffle; by rewrite Hs).
  assert (size_z ids = Z.of_nat (length (fnodes_ (fi s)))) as Hl by (unfold size_z; by rewrite Hp).
  destruct (draw_cases 1 (size_z ids) (redrawn g1 s) Hg1) as (g2 & Hg2 & [(k & Hk & Hd)|Hd]); [unfold is_u64; lia..| |].
  2: { eexists _, _. split; [|by left]. by apply bind_throw. }
  rewrite (bind_ok _ _ _ _ _ Hd). set (k' := Z.to_nat k).
  set (s1 := mkFs (fi s) (Net.partition [take k' ids; drop k' ids] (fnet (redrawn g2 s))).2 (fnodes s)).
  rewrite (bind_ok (Fault.on_net _) _ _ s1 tt) by reflexivity.
  rewrite (bind_ok Fault.cfg _ s1 s1 (fcfg_ (fi s))) by reflexivity.
  change (partition_duration _) with d. rewrite wrap64_id by (unfold is_u64; lia).
  destruct (later_cases (d / 2) (d * 2) heal_action s1) as (r & s' & E & Hr & Hn & _);
    [done|split; [apply Z.div_pos; lia|apply Z.div_lt_upper_bound; lia]|lia|done|].
  exists r, s'. split; [exact E|]. destruct Hr as [->|[-> Hsch]]; [by left|right]. split; [done|].
  exists (take k' ids), (drop k' ids). split_and!.
  - intros Hx%(f_equal length). rewrite length_take in Hx. subst k'. unfold size_z in *. simpl in Hx. lia.
  - intros Hx%(f_equal length). rewrite length_drop in Hx. subst k'. unfold size_z in *. simpl in Hx. lia.
  - by rewrite take_drop.
  - intros a b. rewrite Hn.
    change (network s1) with (mkNetwork (ncfg_ (network s)) (handlers_ (network s))
      (Net.assign_groups 0 [take k' ids; drop k' ids] ∅) true).
    rewrite can_talk by (simpl; rewrite app_nil_r, take_drop, Hp; done). set_solver.
  - exact Hsch.
Qed.

(** ** Crashes *)
Context (timer_action : timer → A) (deliver : handler → Message → A) (restart_action : NodeId → A).
Local Abbreviation sim_env := (sim_NodeEnv timer_action deliver fuel).

Lemma crash_stops (x : nstate (netsim handler A)) : running_ (nd (@Node.crash _ sim_env x).2) = false.
Proof.
  unfold Node.crash. rewrite bind_upd.
  match goal with |- running_ (nd (?m ?y).2) = _ =>
    enough (keeps (same running_) m) as K by (rewrite (K y); reflexivity) end.
  unfold Node.invoke_client, Node.send.
  repeat keeps_step ltac:(first [apply same_env | apply same_rd | apply same_upd; intros; reflexivity | by intros ?]).
Qed.

Lemma on_node_rd {B} id (f : RaftNode → B) s n :
  fnodes s !! id = Some n → Fault.on_node id (rd f) s = (Ok (f n), s).
Proof.
  intros Hn. unfold Fault.on_node. rewrite Hn. cbn. rewrite insert_id by done. by destruct s as [? [] ?].
Qed.

(** The node [id] is gone; the others are as they were. *)
Definition crashed_node (id : NodeId) s s' : Prop :=
  (∃ n', fnodes s' !! id = Some n' ∧ running_ n' = false) ∧
  (∀ j, j ≠ id → fnodes s' !! j = fnodes s !! j).

Lemma crash_on_node id n s :
  fault_ok s → future (fnet s) → fnodes s !! id = Some n →
  ∃ rc s1, Fault.on_node id (@Node.crash _ sim_env) s = (rc, s1) ∧ crashed_node id s s1 ∧ fi s1 = fi s ∧
    future (fnet s1) ∧ clock s1 = clock s ∧
    (rc = Ok tt ∨ ∃ x e, nd x = n ∧ rc = Throw e ∧ (@Node.crash _ sim_env x).1 = Throw e).
Proof.
  intros Hok Hf Hn. set (x := mkN n (fnet s)).
  pose proof (framed_crash (ne := sim_env) x) as Hfr. pose proof (crash_stops x) as Hstop.
  destruct (@Node.crash _ sim_env x) as [rc y] eqn:Hy.
  destruct Hfr as [_ Hclk Hf1]; [by apply (proj2 (proj2 Hok) id)|exact Hf|].
  change (clock_ (ns_sim (env y)) = clock s) in Hclk. change (future (env y)) in Hf1.
  exists rc, (mkFs (fi s) (env y) (<[id := nd y]> (fnodes s))). split_and!; [|split|done|done|done|].
  - unfold Fault.on_node. rewrite Hn. fold x. by rewrite Hy.
  - exists (nd y). cbn [fnodes]. by rewrite lookup_insert_eq.
  - intros j Hj. by apply lookup_insert_ne.
  - destruct rc as [[]|e]; [by left|]. right. exists x, e. by rewrite Hy.
Qed.

(** C15: crashes.  [inject_crash_restart] picks one of the nodes.  If it is
    running it is down afterwards, the other nodes untouched, and its restart
    is scheduled within the configured bounds; if it is down already nothing
    happens.  (It fails to return only by rejected draws, or with an exception
    of the node's own [crash].) *)
Theorem crash_injected (s : fstate A)
    (Hok : fault_ok s) (Hf : future (fnet s)) (Hne : fnodes_ (fi s) ≠ [])
    (Hnodes : Forall (λ id, is_Some (fnodes s !! id)) (fnodes_ (fi s)))
    (Hdown : crash_min_down (fcfg_ (fi s)) < crash_max_down (fcfg_ (fi s))) :
  ∃ r s', Fault.inject_crash_restart timer_action deliver fuel restart_action s = (r, s') ∧
    (r = Throw out_of_fuel ∨
     ∃ id n, id ∈ fnodes_ (fi s) ∧ fnodes s !! id = Some n ∧
       if running_ n then
         crashed_node id s s' ∧
         ((∃ x e, nd x = n ∧ r = Throw e ∧ (@Node.crash _ sim_env x).1 = Throw e) ∨
          r = Ok tt ∧ ∃ s1, heap s1 `suffix_of` heap s' ∧
            scheduled_within (restart_action id) (crash_min_down (fcfg_ (fi s)))
              (crash_max_down (fcfg_ (fi s))) s1 s' ∧ clock s1 = clock s)
       else r = Ok tt ∧ fnodes s' = fnodes s ∧ heap s' = heap s).
Proof.
  pose proof Hok as ((_ & _ & Hmin & Hmax) & Hlen & _). unfold short in Hmax.
  unfold Fault.inject_crash_restart. rewrite (bind_ok (gets _) _ _ _ _ eq_refl). cbv beta.
  rewrite bool_decide_false by done.
  assert (0 < size_z (fnodes_ (fi s))) as Hpos.
  { unfold size_z. destruct (fnodes_ (fi s)); [done|simpl; lia]. }
  destruct (draw_cases 0 (size_z (fnodes_ (fi s))) s (fu_prng _ Hf)) as (g & Hg & [(k & Hk & Hd)|Hd]); [unfold is_u64; lia..| |].
  2: { eexists _, _. split; [by apply bind_throw|by left]. }
  rewrite (bind_ok _ _ _ _ _ Hd). unfold size_z in Hk.
  destruct (lookup_lt_is_Some_2 (fnodes_ (fi s)) (Z.to_nat k)) as [id Hid]; [lia|]. rewrite Hid.
  pose proof (proj1 (Forall_lookup _ _) Hnodes _ _ Hid) as [n Hn].
  rewrite (bind_ok _ _ _ _ _ (on_node_rd id running_ (redrawn g s) n Hn)).
  destruct (running_ n) eqn:Hrun; cbn [negb].
  2: { eexists _, _. split; [reflexivity|]. right. exists id, n. rewrite Hrun.
       by split_and!; [eapply list_elem_of_lookup_2|..]. }
  assert (future (fnet (redrawn g s))) as Hf' by (by destruct Hf).
  destruct (crash_on_node id n (redrawn g s)) as (rc & s1 & Hc & Hcr & Hfi & Hf1 & Hclk & Hrc); [done..|].
  destruct Hrc as [->|(x & e & Hx & -> & Hth)].
  2: { eexists _, _. split; [by apply bind_throw|]. right. exists id, n. rewrite Hrun.
       split_and!; [by eapply list_elem_of_lookup_2|done|done|]. left. by exists x, e. }
  rewrite (bind_ok _ _ _ _ _ Hc), (bind_ok Fault.cfg _ s1 s1 (fcfg_ (fi s))) by (unfold Fault.cfg, gets; by rewrite Hfi).
  destruct (later_cases (crash_min_down (fcfg_ (fi s))) (crash_max_down (fcfg_ (fi s))) (restart_action id) s1)
    as (r & s' & E & Hr & _ & Hns & _); [apply Hf1|unfold is_u64 in Hmin; lia|lia|apply Hf1|].
  exists r, s'. split; [exact E|]. destruct Hr as [->|[-> Hsch]]; [by left|]. right. exists id, n. rewrite Hrun.
  split_and!; [by eapply list_elem_of_lookup_2|done| |].
  - unfold crashed_node. rewrite Hns. exact Hcr.
  - right. split; [done|]. exists s1. split_and!; [|done|exact Hclk].
    destruct Hsch as (t & i & -> & _). by apply suffix_cons_r.
Qed.
End Faults.
