(* ===== verification/Runner.v ===== *)
(** * A simulation run: [run_once] of [src/harness/runner.hpp/.cpp]

    The world of one run: the simulator and the network, the nodes, the
    clients with their history and the fault injector.  An [action] is a
    closure that some component has scheduled; [perform] calls it. *)

From Corelib Require Import SpecFloat.
From stdpp Require Import pretty.
From S2P Require Import Prelude Codec DurableStore Types Wal KvStore RaftLog Rpc Env Prng EventQueue Simulator Network Node.
From S2P Require Import History Workload SimEnv FaultInjector.

Inductive action :=
| ATimer (t : timer)
| ADeliver (h : handler) (m : Message)
| AIssue (client : nat)
| AExpire (client : nat)
| ATick
| AHeal
| ARestart (node : NodeId)
| ASetDrop (p : double)
| ASetDup (p : double).

(** The node whose closure a timer is. *)
Definition timer_node (t : timer) : NodeId :=
  match t with TElection n _ | THeartbeat n | TReadTimeout n _ => n end.

Record RunConfig := mkRunConfig {
  rc_seed : Z;
  rc_num_nodes : nat;
  rc_total_ops : Z;
  rc_fault_rate : double;
  rc_dump_trace : bool;
  rc_inject_commit_bug : bool;
  rc_inject_vote_bug : bool;
  rc_net_cfg : NetworkConfig;
  rc_workload_cfg : WorkloadConfig;
  rc_fault_cfg : FaultConfig;
}.

Definition default_run : RunConfig :=
  mkRunConfig 42 3 200 (dbl_ratio 5 100) false false false default_network default_workload
    default_faults.

Record RunResult := mkRunResult {
  rr_seed : Z;
  rr_trace_hash : Z;
  rr_history : History;
  rr_ops_completed : Z;
  rr_linearizable : bool;
  rr_failure_seed_msg : string;
}.

(** The network and the simulator with the nodes. *)
Record cluster_state := mkCs { cs_net : netsim handler action; cs_nodes : gmap NodeId RaftNode }.

Record world := mkWorld {
  w_cluster : cluster_state;
  w_work : Workload;
  w_hist : History;
  w_inj : FaultInjector;
}.

Module Run.
Section Run.

(** The bounds on rejected draws and on events per [run_for]. *)
Context (fuel events : nat).
Local Abbreviation env_ := (sim_NodeEnv ATimer ADeliver fuel).

(** ** The nodes *)

Definition on_node (id : NodeId) (m : M (nstate (netsim handler action)) unit) : M cluster_state unit := λ s,
  match cs_nodes s !! id with
  | None => (Throw undefined_behaviour, s)
  | Some n =>
      let '(r, x) := m (mkN n (cs_net s)) in (r, mkCs (env x) (<[id := nd x]> (cs_nodes s)))
  end.

(** [1 .. num_nodes] *)
Definition all_ids (n : nat) : list NodeId := (λ i, wrap32 (Z.of_nat i + 1)) <$> seq 0 n.

Definition raft_config (cfg : RunConfig) : RaftConfig :=
  mkRaftConfig (election_timeout_lo default_config) (heartbeat_interval default_config)
    (client_timeout default_config) (max_entries_per_ae default_config)
    (snapshot_threshold default_config) (read_timeout default_config)
    (rc_inject_commit_bug cfg) (rc_inject_vote_bug cfg).

Definition build_node (cfg : RunConfig) (ids : list NodeId) (id : NodeId) : RaftNode :=
  make_node id (filter (λ p, p ≠ id) ids) (raft_config cfg).

Definition build_cluster (cfg : RunConfig) : cluster_state :=
  let ids := all_ids (rc_num_nodes cfg) in
  mkCs (mkNetsim (make_network (rc_net_cfg cfg)) (make_simulator (rc_seed cfg)))
    (list_to_map ((λ id, (id, build_node cfg ids id)) <$> ids)).

(** [for (n : nodes) n->start()] *)
Definition start_nodes (ids : list NodeId) : M cluster_state unit :=
  for_each ids (λ id, on_node id (@Node.start _ env_)).

(** ** Lenses of the world *)

Definition on_cluster {B} (m : M cluster_state B) : M world B := λ w,
  let '(r, x) := m (w_cluster w) in (r, mkWorld x (w_work w) (w_hist w) (w_inj w)).
Definition on_net {B} (m : M (netsim handler action) B) : M world B := λ w,
  let '(r, x) := m (cs_net (w_cluster w)) in
  (r, mkWorld (mkCs x (cs_nodes (w_cluster w))) (w_work w) (w_hist w) (w_inj w)).
Definition on_work {B} (m : M (wstate action) B) : M world B := λ w,
  let '(r, x) := m (mkWs (w_work w) (cs_net (w_cluster w)) (w_hist w)) in
  (r, mkWorld (mkCs (wnet x) (cs_nodes (w_cluster w))) (wl x) (whist x) (w_inj w)).
Definition on_inj {B} (m : M (fstate action) B) : M world B := λ w,
  let '(r, x) := m (mkFs (w_inj w) (cs_net (w_cluster w)) (cs_nodes (w_cluster w))) in
  (r, mkWorld (mkCs (fnet x) (fnodes x)) (w_work w) (w_hist w) (fi x)).

(** ** The closures *)

Definition perform (a : action) : M world unit :=
  match a with
  | ATimer t => on_cluster (on_node (timer_node t) (@Node.on_timer _ env_ t))
  | ADeliver (HNode id) m => on_cluster (on_node id (@Node.on_message _ env_ m))
  | ADeliver (HClient ci) m => on_work (Work.on_reply AIssue ci m)
  | AIssue ci => on_work (Work.issue_op AExpire ADeliver fuel ci)
  | AExpire ci => on_work (Work.on_timeout AIssue ci)
  | ATick => on_inj (Fault.tick ATimer ADeliver fuel ATick AHeal ARestart ASetDrop ASetDup)
  | AHeal => on_net Net.heal
  | ARestart id => on_cluster (on_node id (@Node.restart _ env_))
  | ASetDrop p => on_net (Net.set_drop_prob p)
  | ASetDup p => on_net (Net.set_dup_prob p)
  end.

Definition w_sim (w : world) : Simulator action := ns_sim (cs_net (w_cluster w)).
Definition set_sim (s : Simulator action) (w : world) : world :=
  mkWorld (mkCs (mkNetsim (ns_net (cs_net (w_cluster w))) s) (cs_nodes (w_cluster w)))
    (w_work w) (w_hist w) (w_inj w).

Definition run_for (d : SimTime) : M world unit := Sim.run_for w_sim set_sim perform events d.

(** ** The run *)

Definition kMaxRunTime : SimTime := 120 * kSec.
Definition kRound : SimTime := 100 * kMsec.

(** [while (!workload.done() && sim.now() < deadline)], at most [rounds]
    rounds. *)
Fixpoint main_loop (rounds : nat) (deadline : SimTime) : M world unit :=
  w ← get;
  if negb (workload_done (w_work w)) && (clock_ (w_sim w) <? deadline) then
    match rounds with
    | O => throw out_of_fuel
    | S rounds' => run_for kRound;; main_loop rounds' deadline
    end
  else mret tt.

(** From the first [run_for] to [nemesis.stop()]. *)
Definition drive (rounds : nat) : M world unit :=
  run_for (1 * kSec);;
  on_work (Work.start AIssue);;
  on_inj (Fault.start ATick);;
  now ← gets (λ w, clock_ (w_sim w));
  main_loop rounds (wrap64 (now + kMaxRunTime));;
  on_inj Fault.stop.

(** [wcfg] with [total_ops], [fcfg] with [fault_rate]. *)
Definition with_total_ops (n : Z) (c : WorkloadConfig) : WorkloadConfig :=
  mkWorkloadConfig (num_clients c) (num_keys c) n (think_time c) (put_prob c) (get_prob c).
Definition with_fault_rate (r : double) (c : FaultConfig) : FaultConfig :=
  mkFaultConfig r (check_interval c) (partition_duration c) (crash_min_down c) (crash_max_down c)
    (partition_prob c) (drop_raise_prob c) (dup_raise_prob c).

(** The world after the nodes have started and the clients and the injector
    are built. *)
Definition build_world (cfg : RunConfig) : result world :=
  let ids := all_ids (rc_num_nodes cfg) in
  match start_nodes ids (build_cluster cfg) with
  | (Throw e, _) => Throw e
  | (Ok _, c) =>
      match make_workload ids (with_total_ops (rc_total_ops cfg) (rc_workload_cfg cfg)) with
      | Throw e => Throw e
      | Ok wl =>
          Ok (mkWorld c wl [] (make_injector ids (with_fault_rate (rc_fault_rate cfg) (rc_fault_cfg cfg))))
      end
  end.

Definition result_of (cfg : RunConfig) (w : world) : RunResult :=
  mkRunResult (rc_seed cfg) (trace_hash_ (w_sim w)) (w_hist w) (ops_completed_ (w_work w)) true "".

Definition run_once (rounds : nat) (cfg : RunConfig) : result RunResult :=
  match build_world cfg with
  | Throw e => Throw e
  | Ok w =>
      match drive rounds w with
      | (Throw e, _) => Throw e
      | (Ok _, w') => Ok (result_of cfg w')
      end
  end.

End Run.
End Run.
