(* ===== verification/RunnerInv.v ===== *)
(** * Invariants of a simulation run

    The whole world of [run_once]: in every state of a run the events lie in
    the future, time does not go back, and the clients keep the closed loop of
    [WorkloadInv].  The components meet here: each action belongs to one of
    them, and the others' parts of the world stay as they are. *)

From S2P Require Import Prelude Codec DurableStore Types Wal KvStore RaftLog Rpc Env Prng EventQueue Simulator Network Node.
From S2P Require Import NetFrame SimRun History Checker Workload WorkloadInv SimEnv SimFrame FaultInjector HarnessFrame FaultFacts Runner.

Section World.
Context (wc : WorkloadConfig) (fuel events : nat).
Implicit Types (w : world).

(** The clients' part of the world. *)
Definition wview w : wstate action := mkWs (w_work w) (cs_net (w_cluster w)) (w_hist w).
Abbreviation now w := (clock_ (Run.w_sim w)).

Record wok w : Prop := {
  wk_future : future (cs_net (w_cluster w));
  wk_nodes : ∀ id n, cs_nodes (w_cluster w) !! id = Some n → short_config (cfg_ n);
  wk_cfg : wcfg_ (w_work w) = wc;
  wk_work : work_config wc;
  wk_fault : fault_config (fcfg_ (w_inj w)) ∧ size_z (fnodes_ (w_inj w)) < 2 ^ 62;
  wk_loop : winv (wview w);
}.

(** Another component moves: the clients' part is untouched. *)
Lemma wok_other w c i :
  wok w → future (cs_net c) → clock_ (ns_sim (cs_net c)) = now w →
  (∀ id n, cs_nodes c !! id = Some n → short_config (cfg_ n)) →
  fault_config (fcfg_ i) ∧ size_z (fnodes_ i) < 2 ^ 62 →
  wok (mkWorld c (w_work w) (w_hist w) i).
Proof.
  intros [F N Wc W Fc L] F' C' N' Fc'. split; [done..|]. eapply winv_later; [| | |exact L]; [done..|].
  simpl. unfold Run.w_sim in C'. lia.
Qed.

Definition advances w w' : Prop := wok w' ∧ now w' = now w.

(** A step of the cluster alone. *)
Definition nodes_short (c : cluster_state) : Prop := ∀ id n, cs_nodes c !! id = Some n → short_config (cfg_ n).
Record cframed_ (c c' : cluster_state) : Prop := {
  cf_future : future (cs_net c');
  cf_nodes : nodes_short c';
  cf_clock : clock_ (ns_sim (cs_net c')) = clock_ (ns_sim (cs_net c));
}.
Definition cframed (c c' : cluster_state) : Prop := future (cs_net c) → nodes_short c → cframed_ c c'.

#[global] Instance cframed_pre : PreOrder cframed.
Proof.
  split; [by intros c Hf Hn|]. intros c1 c2 c3 F12 F23 Hf Hn. destruct (F12 Hf Hn) as [F N C].
  destruct F23 as [F' N' C']; [done..|]. split; congruence || done.
Qed.

Lemma cframed_node id (m : M (nstate (netsim handler action)) unit) :
  keeps framed m → keeps cframed (Run.on_node id m).
Proof.
  intros Hm c Hf Hn. unfold Run.on_node. destruct (cs_nodes c !! id) as [n|] eqn:Hid; [|by split].
  pose proof (Hm (mkN n (cs_net c))) as Hx. destruct (m (mkN n (cs_net c))) as [r x].
  destruct Hx as [C T F]; [by eapply Hn|done|]. cbn [snd nd env] in *. split; [done| |done].
  intros j n' Hj. cbn [cs_nodes] in Hj. apply lookup_insert_Some in Hj as [[<- <-]|[_ Hj]].
  - rewrite C. by eapply Hn.
  - by eapply Hn.
Qed.

Lemma on_node_wok id (m : M (nstate (netsim handler action)) unit) w r w' :
  keeps framed m → Run.on_cluster (Run.on_node id m) w = (r, w') → wok w → advances w w'.
Proof.
  intros Hm. unfold Run.on_cluster. pose proof (cframed_node id m Hm (w_cluster w)) as Hf.
  destruct (Run.on_node id m (w_cluster w)) as [r0 c]. intros [= <- <-] K.
  destruct Hf as [F N C]; [apply K|exact (wk_nodes w K)|]. split; [|done].
  by apply wok_other; try apply K.
Qed.

Lemma on_net_wok (m : M (netsim handler action) unit) w r w' :
  keeps ahead m → Run.on_net m w = (r, w') → wok w → advances w w'.
Proof.
  intros Hm. unfold Run.on_net. destruct (Hm (cs_net (w_cluster w))) as [C F].
  destruct (m (cs_net (w_cluster w))) as [r0 x]. intros [= <- <-] K. cbn [snd] in *.
  split; [|done]. apply wok_other; [done|apply F, K|done|apply K|apply K].
Qed.

Lemma on_inj_wok (m : M (fstate action) unit) w r w' :
  keeps fframed m → Run.on_inj m w = (r, w') → wok w → advances w w'.
Proof.
  intros Hm. unfold Run.on_inj. set (s := mkFs _ _ _). pose proof (Hm s) as Hf.
  destruct (m s) as [r0 x]. intros [= <- <-] K.
  destruct Hf as [(O1 & O2 & O3) T F]; [split_and!; apply K|apply K|]. cbn [snd] in *.
  split; [|done]. by apply wok_other.
Qed.

Lemma on_work_wok (m : M (wstate action) unit) w w' :
  keeps wframed m → (∀ s s', m s = (Ok tt, s') → winv s → winv s') →
  Run.on_work m w = (Ok tt, w') → wok w → advances w w'.
Proof.
  intros Hm Hi. unfold Run.on_work. fold (wview w). pose proof (Hm (wview w)) as Hf. specialize (Hi (wview w)).
  destruct (m (wview w)) as [r0 x]. intros [= -> <-] K.
  destruct Hf as [C T F]; [cbn; rewrite (wk_cfg w K); apply K|apply K|].
  cbn [snd] in *. split; [|exact T]. split; cbn [w_work w_cluster w_hist w_inj cs_net cs_nodes]; try apply K.
  - done.
  - rewrite C. apply K.
  - specialize (Hi x eq_refl (wk_loop w K)). by destruct x.
Qed.

Lemma perform_wok a w w' : Run.perform fuel a w = (Ok tt, w') → wok w → advances w w'.
Proof.
  destruct a as [t|[id|ci] m|ci|ci| | |id|p|p]; cbn [Run.perform]; intros H.
  - revert H. apply on_node_wok, framed_on_timer.
  - revert H. apply on_node_wok, framed_on_message.
  - revert H. apply on_work_wok; [apply wframed_reply|]. intros s s' Hs. by eapply (wstep_winv AIssue AExpire ADeliver fuel), ws_reply.
  - revert H. apply on_work_wok; [apply wframed_issue|]. intros s s' Hs. by eapply (wstep_winv AIssue AExpire ADeliver fuel), ws_issue.
  - revert H. apply on_work_wok; [apply wframed_timeout|]. intros s s' Hs. by eapply (wstep_winv AIssue AExpire ADeliver fuel), ws_timeout.
  - revert H. apply on_inj_wok, fframed_tick.
  - revert H. by apply on_net_wok, ahead_upd_net.
  - revert H. apply on_node_wok, framed_restart.
  - revert H. by apply on_net_wok, ahead_upd_net.
  - revert H. by apply on_net_wok, ahead_upd_net.
Qed.

(** ** Events *)

(** The clock set to [t], between now and the next event. *)
Lemma wok_clock w q h t :
  wok w → now w <= t → short t → Forall (λ e, t <= ev_time e) (heap_ q) →
  wok (Run.set_sim (mkSim t (next_seq_ (Run.w_sim w)) h (prng_ (Run.w_sim w)) q) w).
Proof.
  intros [[G C L F] N Wc W Fc Lo] Hle Ht Hq. split; [|done..|].
  - by split.
  - eapply winv_later; [| | |exact Lo]; done.
Qed.

(** [wok] is carried through [run_for]. *)
Lemma wok_laws : run_laws Run.w_sim Run.set_sim (Run.perform fuel) wok.
Proof.
  split.
  - done.
  - by intros [[[? ?] ?] ? ? ?].
  - intros w K. apply (wk_future w K).
  - intros w K. apply (wk_future w K).
  - intros w t h q. apply wok_clock.
  - intros a w w'. apply perform_wok.
Qed.

(** [run_for] advances the clock by exactly its argument. *)
Lemma run_for_wok d w w' :
  0 <= d → short (now w + d) → wok w → Run.run_for fuel events d w = (Ok tt, w') →
  wok w' ∧ now w' = now w + d.
Proof. apply (run_for_inv _ _ _ _ wok_laws). Qed.

(** ** The main loop *)

Lemma kRound_pos : 0 < Run.kRound.
Proof. reflexivity. Qed.

Lemma main_loop_unfold rounds d w :
  Run.main_loop fuel events rounds d w =
  if negb (workload_done (w_work w)) && (now w <? d) then
    match rounds with
    | O => (Throw out_of_fuel, w)
    | S rounds' => (Run.run_for fuel events Run.kRound;; Run.main_loop fuel events rounds' d) w
    end
  else (Ok tt, w).
Proof. destruct rounds; cbn [Run.main_loop]; unfold get, mbind at 1, M_bind at 1; by destruct (_ && _). Qed.

Lemma main_loop_wok rounds d w w' :
  wok w → short (d + Run.kRound) → now w <= d + Run.kRound →
  Run.main_loop fuel events rounds d w = (Ok tt, w') → wok w' ∧ now w' <= d + Run.kRound.
Proof.
  intros K Hd. revert w K. induction rounds as [|rounds IH]; intros w K Hn; rewrite main_loop_unfold;
    (destruct (negb (workload_done (w_work w)) && (now w <? d)) eqn:Hc; [|by intros [= <-]]); [done|].
  apply andb_true_iff in Hc as [_ Hc%Z.ltb_lt]. intros H. apply bind_Ok_inv in H as ([] & w1 & H1 & H).
  pose proof (fu_clock _ (wk_future w K)) as Hs.
  change (clock_ (ns_sim (cs_net (w_cluster w)))) with (now w) in Hs.
  pose proof kRound_pos. destruct (run_for_wok Run.kRound w w1) as [K1 N1]; [lia|unfold short in *; lia|done|done|].
  apply (IH w1); [done|lia|done].
Qed.

Lemma main_loop_spec rounds d w :
  wok w → short (d + Run.kRound) → d <= now w + Z.of_nat rounds * Run.kRound →
  (∃ w' k, Run.main_loop fuel events rounds d w = (Ok tt, w') ∧ (k <= rounds)%nat ∧
     now w' = now w + Z.of_nat k * Run.kRound ∧ (workload_done (w_work w') = true ∨ d <= now w') ∧
     (k = 0%nat ∨ now w' < d + Run.kRound)) ∨
  (∃ w1 w2 e, Run.run_for fuel events Run.kRound w1 = (Throw e, w2) ∧
     Run.main_loop fuel events rounds d w = (Throw e, w2)).
Proof.
  intros K Hd. revert w K. induction rounds as [|rounds IH]; intros w K Hr; rewrite main_loop_unfold;
    (destruct (negb (workload_done (w_work w)) && (now w <? d)) eqn:Hc;
     [|left; exists w, 0%nat; split_and!; [done|lia|lia| |by left];
       apply andb_false_iff in Hc as [?%negb_false_iff|?%Z.ltb_ge]; [by left|by right]]).
  - apply andb_true_iff in Hc as [_ Hc%Z.ltb_lt]. lia.
  - apply andb_true_iff in Hc as [_ Hc%Z.ltb_lt].
    destruct (Run.run_for fuel events Run.kRound w) as [[[]|e] w1] eqn:H1.
    2: { right. exists w, w1, e. split; [done|]. by apply bind_throw. }
    rewrite (bind_ok _ _ _ _ _ H1). pose proof (fu_clock _ (wk_future w K)) as Hs.
    change (clock_ (ns_sim (cs_net (w_cluster w)))) with (now w) in Hs.
    pose proof kRound_pos. destruct (run_for_wok Run.kRound w w1) as [K1 N1]; [lia|unfold short in *; lia|done|done|].
    destruct (IH w1 K1) as [(w' & k & E & Hk & Hn & Hend & Hlast)|Hth]; [lia| |by right].
    left. exists w', (S k). split_and!; [done|lia|lia|done|]. right. destruct Hlast as [->|?]; lia.
Qed.

(** C10: a run ends.  From any state of a run the main loop of [run_once] stops
    within 1200 rounds of 100 ms, with the clients done or exactly at the
    deadline 120 s later, unless one of its calls of [run_for] throws. *)
Theorem main_loop_ends (w : world) (rounds : nat)
    (Hw : wok w) (Hnow : now w + Run.kMaxRunTime < 2 ^ 60) (Hrounds : (1200 <= rounds)%nat) :
  let d := now w + Run.kMaxRunTime in
  (∃ w' k, Run.main_loop fuel events rounds d w = (Ok tt, w') ∧ (k <= 1200)%nat ∧
     now w' = now w + Z.of_nat k * Run.kRound ∧ (workload_done (w_work w') = true ∨ now w' = d)) ∨
  (∃ w1 w2 e, Run.run_for fuel events Run.kRound w1 = (Throw e, w2) ∧
     Run.main_loop fuel events rounds d w = (Throw e, w2)).
Proof.
  cbv zeta. pose proof (fu_clock _ (wk_future w Hw)) as Hs.
  change (clock_ (ns_sim (cs_net (w_cluster w)))) with (now w) in Hs.
  change Run.kMaxRunTime with 120000000 in *. unfold short in Hs.
  destruct (main_loop_spec rounds (now w + 120000000) w Hw) as [(w' & k & E & _ & Hn & Hend & Hlast)|Hth].
  - unfold short. change Run.kRound with 100000. lia.
  - change Run.kRound with 100000. lia.
  - left. exists w', k. change Run.kRound with 100000 in *. split_and!; [done|lia|done|].
    destruct Hend as [?|?]; [by left|right; lia].
  - by right.
Qed.

End World.

(** ** The run *)
Section Runs.
Context (fuel events : nat).

(** A configuration whose delays and sizes are far below 2^64. *)
Record run_ok (cfg : RunConfig) : Prop := {
  ro_latency : latencies_ok (rc_net_cfg cfg) ∧ short (max_latency (rc_net_cfg cfg));
  ro_work : work_config (rc_workload_cfg cfg);
  ro_fault : fault_config (rc_fault_cfg cfg);
  ro_ops : 0 <= rc_total_ops cfg < 2 ^ 64;
  ro_clients : kClientIdBase + Z.of_nat (num_clients (rc_workload_cfg cfg)) < 2 ^ 64;
  ro_nodes : Z.of_nat (rc_num_nodes cfg) < 2 ^ 62;
}.

Lemma build_cluster_ok cfg :
  run_ok cfg → future (cs_net (Run.build_cluster cfg)) ∧ nodes_short (Run.build_cluster cfg).
Proof.
  intros R. split.
  - split; simpl; [apply make_prng_ok|done|apply R|constructor].
  - intros id n Hn. simpl in Hn. apply elem_of_list_to_map_2 in Hn.
    apply list_elem_of_fmap in Hn as (i & [= -> ->] & _). vm_compute. repeat split; congruence.
Qed.

Lemma make_workload_cfg ids c wl : make_workload ids c = Ok wl → wcfg_ wl = c.
Proof. unfold make_workload. repeat case_match; intros [= <-]; done. Qed.

(** The clients' configuration of a run. *)
Definition run_work (cfg : RunConfig) : WorkloadConfig :=
  Run.with_total_ops (rc_total_ops cfg) (rc_workload_cfg cfg).

Lemma build_world_wok cfg w :
  run_ok cfg → Run.build_world fuel cfg = Ok w → wok (run_work cfg) w ∧ clock_ (Run.w_sim w) = 0.
Proof.
  intros R. unfold Run.build_world. destruct (build_cluster_ok cfg R) as [F N].
  assert (keeps cframed (Run.start_nodes fuel (Run.all_ids (rc_num_nodes cfg)))) as K.
  { apply keeps_for_each; [apply _|]. intros id. apply cframed_node, framed_start. }
  specialize (K (Run.build_cluster cfg) F N).
  destruct (Run.start_nodes _ _ _) as [[[]|e] c]; [|done]. destruct K as [F' N' C'].
  destruct (make_workload _ _) as [wl|e] eqn:Hwl; [|done]. intros [= <-].
  pose proof (make_workload_cfg _ _ _ Hwl) as Hcfg. cbn [snd] in *. split; [|done].
  split; cbn [w_cluster w_work w_inj w_hist]; [done|done|done|apply R| |].
  - split; [apply R|]. unfold size_z. cbn [fnodes_ make_injector].
    unfold Run.all_ids. rewrite length_fmap, length_seq. apply R.
  - eapply start_winv; [exact Hwl|apply R|apply R].
Qed.

Lemma drive_wok wc rounds w w' :
  wok wc w → clock_ (Run.w_sim w) = 0 → Run.drive fuel events rounds w = (Ok tt, w') → wok wc w'.
Proof.
  intros K N0. unfold Run.drive. intros H. apply bind_Ok_inv in H as ([] & w1 & H1 & H).
  change (1 * kSec) with 1000000 in H1.
  destruct (run_for_wok wc fuel events 1000000 w w1) as [K1 N1]; [lia|rewrite N0; unfold short; lia|done|done|].
  apply bind_Ok_inv in H as ([] & w2 & H2 & H).
  apply (on_work_wok wc) in H2 as [K2 N2]; [|apply wframed_start| |done].
  2: { intros s s' Hs. apply winv_quiet. by eapply start_quiet. }
  apply bind_Ok_inv in H as ([] & w3 & H3 & H). apply (on_inj_wok wc) in H3 as [K3 N3]; [|apply fframed_start|done].
  rewrite (bind_ok (gets _) _ _ _ _ eq_refl) in H. apply bind_Ok_inv in H as ([] & w4 & H4 & H).
  cbv beta in H4. rewrite N3, N2, N1, N0 in H4. rewrite wrap64_id in H4 by (vm_compute; split; congruence).
  apply (main_loop_wok wc) in H4 as [K4 _]; [|done|vm_compute; split; congruence|rewrite N3, N2, N1, N0; vm_compute; congruence].
  by apply (on_inj_wok wc) in H as [K5 _]; [|apply fframed_stop|].
Qed.

(** C9: recorded histories.  Whatever the seed, the faults and the injected
    bugs, the history that [run_once] returns is one of sequential clients: at
    most [total_ops] operations; every response no earlier than its
    invocation; of two operations of one client the first has returned before
    the second is invoked; [ops_completed] operations have a response. *)
Theorem run_history_sequential (rounds : nat) (cfg : RunConfig) (r : RunResult)
    (Hcfg : run_ok cfg) (Hrun : Run.run_once fuel events rounds cfg = Ok r) :
  size_z (rr_history r) <= rc_total_ops cfg ∧
  rr_ops_completed r = size_z (rr_history r) - count h_pending (rr_history r) ∧
  Forall (λ e, h_pending e = false → h_invoke e <= h_ret e) (rr_history r) ∧
  (∀ i j e e', (i < j)%nat → rr_history r !! i = Some e → rr_history r !! j = Some e' → in_sequence e e').
Proof.
  unfold Run.run_once in Hrun. destruct (Run.build_world fuel cfg) as [w|e] eqn:Hb; [|done].
  pose proof (build_world_wok cfg w Hcfg Hb) as [K N].
  destruct (Run.drive fuel events rounds w) as [[[]|e] w'] eqn:Hd; [|done]. injection Hrun as <-.
  pose proof (drive_wok _ rounds w w' K N Hd) as K'. destruct (wk_loop _ w' K') as [C W].
  assert (total_ops (wcfg_ (w_work w')) = rc_total_ops cfg) as Ht by (by rewrite (wk_cfg _ w' K')).
  pose proof (wc_limit _ C) as Hl. pose proof (wc_length _ C). pose proof (wc_sum _ C).
  pose proof (wc_pending _ C). pose proof (ro_ops cfg Hcfg). cbn [wview wl whist] in *.
  cbn [Run.result_of rr_history rr_ops_completed]. split_and!; [lia|lia| |apply W].
  eapply Forall_impl; [apply (wo_entries _ W)|]. intros x (_ & _ & Hx) Hp. by apply Hx.
Qed.
End Runs.

(** ** An executed run

    Three nodes, two clients, four operations, a fault at every second tick:
    the simulation of seed 7, evaluated. *)
Definition demo_run : RunConfig :=
  mkRunConfig 7 3 4 (dbl_ratio 1 2) false false false default_network
    (mkWorkloadConfig 2 2 4 (5 * kMsec) (dbl_ratio 4 10) (dbl_ratio 4 10)) default_faults.

Lemma demo_run_ok : run_ok demo_run.
Proof. split; vm_compute; repeat split; congruence. Qed.

Definition demo_result : RunResult :=
  match Run.run_once 64 2000 1200 demo_run with
  | Ok r => r
  | Throw _ => mkRunResult 0 0 [] 0 false ""
  end.

Lemma run_history_sequential_witness :
  size_z (rr_history demo_result) <= 4 ∧
  (∀ i j e e', (i < j)%nat → rr_history demo_result !! i = Some e → rr_history demo_result !! j = Some e' →
     in_sequence e e') ∧
  rr_ops_completed demo_result = 4 ∧ chk_ok (check_linearizable (rr_history demo_result)) = true.
Proof.
  destruct (run_history_sequential 64 2000 1200 demo_run demo_result demo_run_ok) as (H1 & _ & _ & H2).
  - vm_compute. reflexivity.
  - split; [exact H1|]. split; [exact H2|]. vm_compute. split; reflexivity.
Defined.

Definition demo_world : world :=
  match Run.build_world 64 demo_run with
  | Ok w => w
  | Throw _ => mkWorld (Run.build_cluster demo_run) (mkWorkload default_workload [] [] 0 0 0) []
                 (make_injector [] default_faults)
  end.

Lemma main_loop_ends_witness :
  (∃ w' k, Run.main_loop 64 2000 1200 Run.kMaxRunTime demo_world = (Ok tt, w') ∧ (k <= 1200)%nat ∧
     (workload_done (w_work w') = true ∨ clock_ (Run.w_sim w') = Run.kMaxRunTime)) ∨
  (∃ w1 w2 e, Run.run_for 64 2000 Run.kRound w1 = (Throw e, w2) ∧
     Run.main_loop 64 2000 1200 Run.kMaxRunTime demo_world = (Throw e, w2)).
Proof.
  destruct (build_world_wok 64 demo_run demo_world demo_run_ok) as [K N]; [vm_compute; reflexivity|].
  destruct (main_loop_ends _ 64 2000 demo_world 1200 K) as [(w' & k & H1 & H2 & _ & H3)|H].
  - rewrite N. vm_compute. reflexivity.
  - lia.
  - left. exists w', k. rewrite N in H1, H3. change (0 + Run.kMaxRunTime) with Run.kMaxRunTime in H1, H3.
    split; [exact H1|]. split; [exact H2|exact H3].
  - right. rewrite N in H. exact H.
Defined.

(** The injector's view of that world, just before the run. *)
Definition demo_faults : fstate action :=
  mkFs (w_inj demo_world) (cs_net (w_cluster demo_world)) (cs_nodes (w_cluster demo_world)).

Lemma demo_faults_ok : fault_ok demo_faults ∧ future (fnet demo_faults).
Proof.
  destruct (build_world_wok 64 demo_run demo_world demo_run_ok) as [K _]; [vm_compute; reflexivity|].
  destruct K. split; [|exact wk_future0]. split; [apply wk_fault0|]. split; [apply wk_fault0|exact wk_nodes0].
Qed.

Lemma partition_injected_witness :
  ∃ s', Fault.inject_partition 64 AHeal demo_faults = (Ok tt, s') ∧
    ∃ g0 g1, g0 ≠ [] ∧ g1 ≠ [] ∧ g0 ++ g1 ≡ₚ [1; 2; 3].
Proof.
  assert (fnodes_ (fi demo_faults) = [1; 2; 3]) as Hids by (vm_compute; reflexivity).
  destruct demo_faults_ok as [Hok Hf].
  destruct (partition_injected 64 AHeal demo_faults) as (r & s' & E & [->|(-> & g0 & g1 & H0 & H1 & Hp & _)]).
  - apply Hf.
  - apply Hf.
  - rewrite Hids. clear. repeat constructor; set_solver.
  - vm_compute. split; congruence.
  - vm_compute. split; congruence.
  - exfalso. apply (f_equal fst) in E. vm_compute in E. discriminate.
  - rewrite Hids in Hp. exists s'. split; [exact E|]. exists g0, g1. split_and!; [exact H0|exact H1|exact Hp].
Defined.

Lemma crash_injected_witness :
  ∃ s' id, Fault.inject_crash_restart ATimer ADeliver 64 ARestart demo_faults = (Ok tt, s') ∧ id ∈ [1; 2; 3] ∧
    ∃ n', fnodes s' !! id = Some n' ∧ running_ n' = false.
Proof.
  destruct demo_faults_ok as [Hok Hf].
  destruct (crash_injected 64 ATimer ADeliver ARestart demo_faults) as (r & s' & E & Hr).
  - exact Hok.
  - exact Hf.
  - vm_compute. discriminate.
  - vm_compute. repeat constructor; eexists; reflexivity.
  - vm_compute. reflexivity.
  - assert (r = Ok tt) as -> by (apply (f_equal fst) in E; vm_compute in E; congruence).
    destruct Hr as [Hr|(id & n & Hid & Hn & Hx)]; [discriminate Hr|].
    assert (fnodes_ (fi demo_faults) = [1; 2; 3]) as Hids by (vm_compute; reflexivity). rewrite Hids in Hid.
    exists s', id. split; [exact E|]. split; [exact Hid|].
    assert (running_ n = true) as Hrun.
    { apply list_elem_of_In in Hid. clear -Hid Hn.
      repeat (destruct Hid as [<-|Hid]; [vm_compute in Hn; injection Hn as <-; reflexivity|]). destruct Hid. }
    rewrite Hrun in Hx. apply Hx.
Defined.
