(* ===== verification/NodeCallbacks.v ===== *)
(** * Callbacks are called at most once

    A client of a node hands over a callback with [submit] or [read_index];
    the node keeps it in [pending_clients_] or [pending_reads_] until it calls
    it.  The tokens of the callbacks that are kept and of those that have been
    called are together what the node [owed]: no operation adds to them except
    [submit] and [read_index], which add their own token when they return true. *)

From S2P Require Import Prelude Codec DurableStore Types Wal KvStore RaftLog Rpc Env Node NodeVotes.

(** What the argument needs of an environment: which callbacks were called. *)
Class AnswerLaws (E : Type) `{NodeEnv E} := {
  answered : E → list Z;
  ans_send from to p e : ∃ e', net_send from to p e = (Ok tt, e') ∧ answered e' = answered e;
  ans_schedule d (t : timer) e : ∃ i e', schedule d t e = (Ok i, e') ∧ answered e' = answered e;
  ans_cancel i e : ∃ e', cancel (A := timer) i e = (Ok tt, e') ∧ answered e' = answered e;
  ans_random lo hi e : ∃ x e', random_range (A := timer) lo hi e = (Ok x, e') ∧ answered e' = answered e;
  ans_set_handler i (h : handler) e : ∃ e', set_handler i h e = (Ok tt, e') ∧ answered e' = answered e;
  ans_remove_handler i e : ∃ e', remove_handler (H := handler) i e = (Ok tt, e') ∧ answered e' = answered e;
  ans_state_changed i r t e : ∃ e', state_changed i r t e = (Ok tt, e') ∧ answered e' = answered e;
  ans_client_done t r e : ∃ e', client_done t r e = (Ok tt, e') ∧ answered e' = answered e ++ [t];
  ans_read_done t l b v e : ∃ e', read_done t l b v e = (Ok tt, e') ∧ answered e' = answered e ++ [t];
}.

(** The tokens a node keeps. *)
Definition cb_token (cb : ClientCallback) : list Z :=
  match cb with CbToken t => [t] | CbReply _ _ => [] end.
Definition client_tokens (m : gmap Index (ClientCallback * NodeId)) : list Z :=
  map_to_list m ≫= λ x, cb_token x.2.1.
Definition read_tokens (l : list PendingRead) : list Z := pr_cb <$> l.
Definition kept_tokens (n : RaftNode) : list Z :=
  client_tokens (pending_clients_ n) ++ read_tokens (pending_reads_ n).

Lemma client_tokens_insert i x m :
  client_tokens (<[i := x]> m) ≡ₚ cb_token x.1 ++ client_tokens (delete i m).
Proof.
  unfold client_tokens. rewrite <-insert_delete_eq. rewrite map_to_list_insert by apply lookup_delete_eq. done.
Qed.

Lemma client_tokens_delete i m : client_tokens (delete i m) ⊆+ client_tokens m.
Proof.
  destruct (m !! i) as [x|] eqn:Hi; [|by rewrite delete_id].
  rewrite <-(insert_id m i x Hi) at 2. rewrite client_tokens_insert. apply submseteq_inserts_l. done.
Qed.

Lemma client_tokens_lookup i x m :
  m !! i = Some x → client_tokens m ≡ₚ cb_token x.1 ++ client_tokens (delete i m).
Proof. intros Hi. rewrite <-(insert_id m i x Hi) at 1. apply client_tokens_insert. Qed.

Lemma kept_with_reads l n :
  kept_tokens (n <| pending_reads_ := l |>) = client_tokens (pending_clients_ n) ++ read_tokens l.
Proof. reflexivity. Qed.
Lemma kept_with_clients m n :
  kept_tokens (n <| pending_clients_ := m |>) = client_tokens m ++ read_tokens (pending_reads_ n).
Proof. reflexivity. Qed.

Section Owed.
Context {E : Type} `{AnswerLaws E}.
Implicit Types (s : nstate E) (n : RaftNode).

Definition owed s : list Z := kept_tokens (nd s) ++ answered (env s).

(** Nothing is added to what is owed. *)
Definition settles s s' : Prop := owed s' ⊆+ owed s.

#[local] Instance settles_pre : PreOrder settles.
Proof. split; [by intros s; unfold settles|]. unfold settles. intros s1 s2 s3 H1 H2. by etrans. Qed.

Lemma settles_upd f :
  (∀ n, pending_clients_ (f n) = pending_clients_ n) → (∀ n, pending_reads_ (f n) = pending_reads_ n) →
  keeps settles (upd f : M (nstate E) unit).
Proof. intros Hc Hr s. unfold settles, owed, kept_tokens. cbn. by rewrite Hc, Hr. Qed.
Lemma settles_rd {B} (f : RaftNode → B) : keeps settles (rd f : M (nstate E) B).
Proof. intros s. reflexivity. Qed.
Lemma settles_result {B} (r : result B) : keeps settles (lift_result r : M (nstate E) B).
Proof. intros s. reflexivity. Qed.
Lemma settles_decoder {B} (d : M bytes B) b : keeps settles (run_decoder d b : M (nstate E) B).
Proof. intros s. reflexivity. Qed.
Lemma settles_try {B} (m : M (nstate E) B) h :
  keeps settles m → (∀ e, keeps settles (h e)) → keeps settles (try_catch m h).
Proof. apply keeps_try, _. Qed.
Lemma settles_env {B} (m : M E B) :
  (∀ e, ∃ b e', m e = (Ok b, e') ∧ answered e' = answered e) → keeps settles (liftE m).
Proof.
  intros Hm s. unfold liftE. destruct (Hm (env s)) as (b & e' & -> & Ha). unfold settles, owed. cbn. by rewrite Ha.
Qed.
Lemma settles_env_unit (m : M E unit) :
  (∀ e, ∃ e', m e = (Ok tt, e') ∧ answered e' = answered e) → keeps settles (liftE m).
Proof. intros Hm. apply settles_env. intros e. exists tt. apply Hm. Qed.

Lemma settles_send to p : keeps settles (Node.send to p : M (nstate E) unit).
Proof.
  unfold Node.send. apply keeps_bind; [apply _|apply settles_rd|]. intros id. apply settles_env_unit. apply ans_send.
Qed.

(** ** The operations that call *)

(** What the environment of a call looks like afterwards. *)
Definition calls (ts : list Z) s s' : Prop := nd s' = nd s ∧ answered (env s') = answered (env s) ++ ts.

Lemma calls_trans ts us s1 s2 s3 : calls ts s1 s2 → calls us s2 s3 → calls (ts ++ us) s1 s3.
Proof. intros [N1 A1] [N2 A2]. split; [congruence|]. by rewrite A2, A1, app_assoc. Qed.

Lemma invoke_calls cb r s : ∃ s', Node.invoke_client cb r s = (Ok tt, s') ∧ calls (cb_token cb) s s'.
Proof.
  destruct cb as [t|from cr]; cbn [Node.invoke_client cb_token].
  - unfold liftE. destruct (ans_client_done t r (env s)) as (e' & -> & Ha). eexists. split; [reflexivity|]. by split.
  - rewrite bind_rd. unfold Node.send. rewrite bind_rd. unfold liftE.
    match goal with |- context [net_send ?a ?b ?c ?e] => destruct (ans_send a b c e) as (e' & -> & Ha) end.
    eexists. split; [reflexivity|]. split; [done|]. by rewrite app_nil_r.
Qed.

Lemma cancel_calls i s : ∃ s', (liftE (cancel (A := timer) i) : M (nstate E) unit) s = (Ok tt, s') ∧ calls [] s s'.
Proof.
  unfold liftE. destruct (ans_cancel i (env s)) as (e' & -> & Ha). eexists. split; [reflexivity|].
  split; [done|]. by rewrite app_nil_r.
Qed.

Lemma read_calls t b v s : ∃ s', (Node.invoke_read t b v : M (nstate E) unit) s = (Ok tt, s') ∧ calls [t] s s'.
Proof.
  unfold Node.invoke_read. rewrite bind_rd. unfold liftE. destruct (ans_read_done t (leader_id_ (nd s)) b v (env s)) as (e' & -> & Ha). eexists. by split; [reflexivity|].
Qed.

Lemma for_each_calls {A} (l : list A) (body : A → M (nstate E) unit) (ts : A → list Z) s :
  (∀ a s, ∃ s', body a s = (Ok tt, s') ∧ calls (ts a) s s') →
  ∃ s', for_each l body s = (Ok tt, s') ∧ calls (l ≫= ts) s s'.
Proof.
  intros Hb. revert s. induction l as [|a l IH]; intros s; cbn [for_each].
  - eexists. split; [reflexivity|]. split; [done|]. by rewrite app_nil_r.
  - destruct (Hb a s) as (s1 & E1 & C1). rewrite (bind_ok _ _ _ _ _ E1).
    destruct (IH s1) as (s2 & E2 & C2). exists s2. split; [done|]. by eapply calls_trans.
Qed.

(** A call and the removal of what was called. *)
Lemma settles_called ts f s s1 :
  calls ts s s1 → kept_tokens (f (nd s)) ++ ts ⊆+ kept_tokens (nd s) →
  settles s (mkN (f (nd s1)) (env s1)).
Proof.
  intros [N A] Hk. unfold settles, owed. cbn [nd env]. rewrite N, A, (Permutation_app_comm (answered _) ts), app_assoc.
  by apply submseteq_app.
Qed.

Lemma settles_cancel_reads : keeps settles Node.cancel_pending_reads.
Proof.
  intros s. unfold Node.cancel_pending_reads. rewrite bind_rd.
  destruct (for_each_calls (pending_reads_ (nd s))
    (λ pr, liftE (cancel (pr_timeout_id pr));; Node.invoke_read (pr_cb pr) false None) (λ pr, [pr_cb pr]) s)
    as (s1 & E1 & C1).
  { intros pr x. destruct (cancel_calls (pr_timeout_id pr) x) as (x1 & Ex & C1). rewrite (bind_ok _ _ _ _ _ Ex).
    destruct (read_calls (pr_cb pr) false None x1) as (x2 & Ex2 & C2). exists x2. split; [done|].
    exact (calls_trans [] _ _ _ _ C1 C2). }
  rewrite (bind_ok _ _ _ _ _ E1). cbn [upd modify snd].
  apply (settles_called _ (λ n, n <| pending_reads_ := [] |>) s s1 C1).
  rewrite kept_with_reads. unfold kept_tokens, read_tokens. rewrite app_nil_r. apply submseteq_app; [done|].
  apply Permutation_submseteq. clear. induction (pending_reads_ (nd s)) as [|pr l IH]; [done|]. cbn. by constructor.
Qed.

Lemma settles_drain_loop todo : ∀ kept s,
  pending_reads_ (nd s) = kept ++ todo → settles s (Node.drain_loop kept todo s).2.
Proof.
  induction todo as [|pr rest IH]; intros kept s Hs; cbn [Node.drain_loop]; [reflexivity|].
  rewrite !bind_rd. destruct (_ && _).
  - destruct (cancel_calls (pr_timeout_id pr) s) as (s1 & E1 & C1). rewrite (bind_ok _ _ _ _ _ E1), bind_rd.
    destruct (read_calls (pr_cb pr) true (Kv.get (pr_key pr) (kv_ (nd s1))) s1) as (s2 & E2 & C2).
    rewrite (bind_ok _ _ _ _ _ E2), bind_upd. pose proof (calls_trans _ _ _ _ _ C1 C2) as C.
    transitivity (mkN ((nd s2) <| pending_reads_ := kept ++ rest |>) (env s2)); [|by apply IH].
    apply (settles_called _ (λ n, n <| pending_reads_ := kept ++ rest |>) s s2 C).
    rewrite kept_with_reads. unfold kept_tokens, read_tokens. rewrite Hs, <-app_assoc. apply submseteq_app; [done|]. rewrite !fmap_app. cbn [fmap list_fmap app].
    apply Permutation_submseteq. by rewrite <-app_assoc, (Permutation_app_comm (pr_cb <$> rest)).
  - apply IH. by rewrite Hs, <-app_assoc.
Qed.

Lemma settles_drain : keeps settles Node.drain_pending_reads.
Proof. intros s. unfold Node.drain_pending_reads. rewrite bind_rd. by apply settles_drain_loop. Qed.

Lemma settles_timeout_loop round after : ∀ before s,
  pending_reads_ (nd s) = before ++ after → settles s (Node.timeout_loop round before after s).2.
Proof.
  induction after as [|pr rest IH]; intros before s Hs; cbn [Node.timeout_loop]; [reflexivity|].
  destruct (pr_round pr =? round); [|apply IH; by rewrite Hs, <-app_assoc].
  destruct (read_calls (pr_cb pr) false None s) as (s1 & E1 & C1). rewrite (bind_ok _ _ _ _ _ E1). cbn [upd modify snd].
  apply (settles_called _ (λ n, n <| pending_reads_ := before ++ rest |>) s s1 C1).
  rewrite kept_with_reads. unfold kept_tokens, read_tokens. rewrite Hs, <-app_assoc. apply submseteq_app; [done|].
  rewrite !fmap_app. cbn [fmap list_fmap]. apply Permutation_submseteq.
  by rewrite <-app_assoc, (Permutation_app_comm (pr_cb <$> rest)).
Qed.

(** The end of [apply_one]: the waiting client is answered and forgotten. *)
Lemma settles_answer i r :
  keeps settles (pending ← rd (λ n, pending_clients_ n !! i);
    match (pending : option (ClientCallback * NodeId)) with
    | Some (cb, _) =>
        Node.invoke_client cb r;; upd (λ n, n <| pending_clients_ := delete i (pending_clients_ n) |>)
    | None => mret tt
    end).
Proof.
  intros s. rewrite bind_rd. destruct (pending_clients_ (nd s) !! i) as [[cb c]|] eqn:Hi; [|reflexivity].
  destruct (invoke_calls cb r s) as (s1 & E1 & C1). rewrite (bind_ok _ _ _ _ _ E1). cbn [upd modify snd].
  apply (settles_called _ (λ n, n <| pending_clients_ := delete i (pending_clients_ n) |>) s s1 C1).
  rewrite kept_with_clients. unfold kept_tokens. rewrite (client_tokens_lookup _ _ _ Hi). cbn [fst].
  apply Permutation_submseteq. rewrite (Permutation_app_comm _ (cb_token cb)). by rewrite !app_assoc.
Qed.

(** The part of [crash] that answers all waiting clients. *)
Lemma settles_crash_clients {B} r (k : M (nstate E) B) :
  keeps settles k →
  keeps settles (pending ← rd (λ n, @merge_sort _ Node.index_le Node.index_le_dec (map_to_list (pending_clients_ n)));
    for_each pending (λ p, Node.invoke_client p.2.1 r);;
    upd (λ n, n <| pending_clients_ := ∅ |>);; k).
Proof.
  intros Hk s. rewrite bind_rd. set (l := merge_sort _ _).
  destruct (for_each_calls l (λ p, Node.invoke_client p.2.1 r) (λ p, cb_token p.2.1) s) as (s1 & E1 & C1).
  { intros p x. apply invoke_calls. }
  rewrite (bind_ok _ _ _ _ _ E1), bind_upd. etransitivity; [|apply Hk].
  apply (settles_called _ (λ n, n <| pending_clients_ := ∅ |>) s s1 C1).
  rewrite kept_with_clients. unfold kept_tokens, client_tokens. rewrite map_to_list_empty. cbn [app mbind list_bind].
  rewrite (Permutation_app_comm (read_tokens _)). apply submseteq_app; [|done].
  apply Permutation_submseteq. subst l. by rewrite merge_sort_Permutation.
Qed.

Lemma settles_shrink f :
  (∀ n, kept_tokens (f n) ⊆+ kept_tokens n) → keeps settles (upd f : M (nstate E) unit).
Proof. intros Hf s. unfold settles, owed. cbn [upd modify snd nd env]. by apply submseteq_app. Qed.
End Owed.

#[export] Existing Instance settles_pre.
Create HintDb settles.
#[export] Hint Resolve settles_rd settles_result settles_decoder settles_send settles_try settles_cancel_reads
  settles_drain : settles.
Ltac settles_env_tac :=
  first [ apply settles_env; intros; first [apply ans_schedule | apply ans_random]
        | apply settles_env_unit; intros;
          first [apply ans_cancel | apply ans_state_changed | apply ans_set_handler | apply ans_remove_handler] ].
#[export] Hint Extern 1 (keeps settles (liftE _)) => settles_env_tac : settles.
Ltac settles_base :=
  first [ solve [eauto with settles nocore]
        | apply settles_upd; intros; reflexivity ].
Ltac settles_auto := repeat keeps_step settles_base.

Section Operations.
Context {E : Type} `{AnswerLaws E}.
Implicit Types (s : nstate E).
Local Abbreviation st := (settles (E := E)).
Local Tactic Notation "walk" constr(f) := unfold f; settles_auto.

Lemma settles_this : keeps st Node.this.
Proof. apply settles_rd. Qed.
Lemma settles_persist : keeps st Node.persist.
Proof. walk @Node.persist. Qed.
Lemma settles_schedule_election : keeps st Node.schedule_election_timeout.
Proof. walk @Node.schedule_election_timeout. Qed.
Lemma settles_schedule_heartbeat : keeps st Node.schedule_heartbeat.
Proof. walk @Node.schedule_heartbeat. Qed.
Lemma settles_cancel_election : keeps st Node.cancel_election_timeout.
Proof. walk @Node.cancel_election_timeout. Qed.
Lemma settles_cancel_heartbeat : keeps st Node.cancel_heartbeat.
Proof. walk @Node.cancel_heartbeat. Qed.
Lemma settles_notify : keeps st Node.notify_state_change.
Proof. walk @Node.notify_state_change. Qed.
Lemma settles_next_index_at p : keeps st (Node.next_index_at p).
Proof. walk @Node.next_index_at. Qed.
Lemma settles_match_index_at p : keeps st (Node.match_index_at p).
Proof. walk @Node.match_index_at. Qed.
Lemma settles_set_next_index p i : keeps st (Node.set_next_index p i).
Proof. walk @Node.set_next_index. Qed.
Lemma settles_set_match_index p i : keeps st (Node.set_match_index p i).
Proof. walk @Node.set_match_index. Qed.
Hint Resolve settles_this settles_persist settles_schedule_election settles_schedule_heartbeat settles_cancel_election
  settles_cancel_heartbeat settles_notify settles_next_index_at settles_match_index_at settles_set_next_index
  settles_set_match_index : settles.
Lemma settles_become_follower t l : keeps st (Node.become_follower t l).
Proof. walk @Node.become_follower. Qed.
Lemma settles_send_snapshot p : keeps st (Node.send_install_snapshot p).
Proof. walk @Node.send_install_snapshot. Qed.
Lemma settles_prev_term p : keeps st (Node.prev_term_of p).
Proof. walk @Node.prev_term_of. Qed.
Hint Resolve settles_become_follower settles_send_snapshot settles_prev_term : settles.
Lemma settles_replicate_to p : keeps st (Node.replicate_to p).
Proof. walk @Node.replicate_to. Qed.
Hint Resolve settles_replicate_to : settles.
Lemma settles_replicate_all : keeps st Node.replicate_all.
Proof. walk @Node.replicate_all. Qed.
Hint Resolve settles_replicate_all : settles.
Lemma settles_become_leader : keeps st Node.become_leader.
Proof. walk @Node.become_leader. Qed.
Hint Resolve settles_become_leader : settles.
Lemma settles_become_candidate : keeps st Node.become_candidate.
Proof. walk @Node.become_candidate. Qed.
Lemma settles_save_snapshot : keeps st Node.save_snapshot.
Proof. walk @Node.save_snapshot. Qed.
Hint Resolve settles_become_candidate settles_save_snapshot : settles.
Lemma settles_take_snapshot : keeps st Node.take_snapshot.
Proof. walk @Node.take_snapshot. Qed.
Lemma settles_fill i n dec : keeps st (Node.fill_snap_data i n dec).
Proof. revert i dec. induction n; intros; cbn [Node.fill_snap_data]; settles_auto. Qed.
Hint Resolve settles_take_snapshot settles_fill : settles.
Lemma settles_load_snapshot : keeps st Node.load_snapshot.
Proof. walk @Node.load_snapshot. Qed.
Lemma settles_membership cmd : keeps st (Node.apply_membership_change cmd).
Proof. walk @Node.apply_membership_change. Qed.
Hint Resolve settles_load_snapshot settles_membership : settles.
Lemma settles_apply_one i : keeps st (Node.apply_one i).
Proof. unfold Node.apply_one. repeat first [apply settles_answer | keeps_step settles_base]. Qed.
Hint Resolve settles_apply_one : settles.
Lemma settles_apply_loop k : keeps st (Node.apply_loop k).
Proof. induction k; cbn [Node.apply_loop]; settles_auto. Qed.
Hint Resolve settles_apply_loop : settles.
Lemma settles_apply_committed : keeps st Node.apply_committed_entries.
Proof. walk @Node.apply_committed_entries. Qed.
Lemma settles_skip i : keeps st (Node.skip_prior_term i).
Proof. walk @Node.skip_prior_term. Qed.
Hint Resolve settles_apply_committed settles_skip : settles.
Lemma settles_advance_loop k i : keeps st (Node.advance_loop k i).
Proof. revert i. induction k; intros; cbn [Node.advance_loop]; settles_auto. Qed.
Hint Resolve settles_advance_loop : settles.
Lemma settles_advance : keeps st Node.maybe_advance_commit_index.
Proof. walk @Node.maybe_advance_commit_index. Qed.
Hint Resolve settles_advance : settles.
Lemma settles_accept_entry e : keeps st (Node.accept_entry_n e).
Proof. walk @Node.accept_entry_n. Qed.
Hint Resolve settles_accept_entry : settles.

(** ** The operations that take a callback *)

(** At most [ts] is added to what is owed. *)
Definition owes (ts : list Z) s s' : Prop := owed s' ⊆+ ts ++ owed s.

Lemma owes_settles ts s s' : settles s s' → owes ts s s'.
Proof. unfold owes, settles. intros Hs. etrans; [exact Hs|]. by apply submseteq_inserts_l. Qed.

Lemma owes_none s s' : owes [] s s' → settles s s'.
Proof. done. Qed.

Lemma owes_after {A B} ts (m : M (nstate E) A) (f : A → M (nstate E) B) :
  keeps st m → (∀ a, keeps (owes ts) (f a)) → keeps (owes ts) (m ≫= f).
Proof.
  intros Hm Hf s. unfold mbind, M_bind. specialize (Hm s). destruct (m s) as [[a|e] s1]; cbn [snd] in *.
  - unfold owes, settles in *. etrans; [apply Hf|]. by apply submseteq_app.
  - by apply owes_settles.
Qed.

Lemma owes_before {A B} ts (m : M (nstate E) A) (f : A → M (nstate E) B) :
  keeps (owes ts) m → (∀ a, keeps st (f a)) → keeps (owes ts) (m ≫= f).
Proof.
  intros Hm Hf s. unfold mbind, M_bind. specialize (Hm s). destruct (m s) as [[a|e] s1]; cbn [snd] in *; [|done].
  unfold owes, settles in *. etrans; [apply Hf|done].
Qed.

Lemma owes_quiet {A} ts (m : M (nstate E) A) : keeps st m → keeps (owes ts) m.
Proof. intros Hm s. apply owes_settles, Hm. Qed.

Lemma owes_insert_client i cb c :
  keeps (owes (cb_token cb)) (upd (λ n, n <| pending_clients_ := <[i := (cb, c)]> (pending_clients_ n) |>) : M (nstate E) unit).
Proof.
  intros s. unfold owes, owed. cbn [upd modify snd nd env]. rewrite kept_with_clients. unfold kept_tokens.
  rewrite client_tokens_insert. cbn [fst]. rewrite <-!app_assoc. repeat (apply submseteq_app; [|done] || apply submseteq_app; [done|]).
  apply submseteq_app; [apply client_tokens_delete|done].
Qed.

Lemma owes_submit c r cmd cb : keeps (owes (cb_token cb)) (Node.submit c r cmd cb).
Proof.
  unfold Node.submit. apply owes_after; [apply settles_this|]. intros n.
  destruct (_ || _); [apply owes_quiet, keeps_ret, _|]. destruct (_ && _); [apply owes_quiet, keeps_ret, _|].
  repeat (apply owes_after; [solve [settles_auto]|]; intros). cbv zeta.
  repeat (apply owes_after; [solve [settles_auto]|]; intros).
  apply owes_before; [apply owes_insert_client|]. intros. settles_auto.
Qed.

Lemma set_last_timeout_tokens tid l : read_tokens (Node.set_last_timeout tid l) = read_tokens l.
Proof.
  unfold Node.set_last_timeout, read_tokens. destruct (rev l) as [|pr rest] eqn:Hl.
  - apply (f_equal (@rev _)) in Hl. rewrite rev_involutive in Hl. by subst l.
  - apply (f_equal (@rev _)) in Hl. rewrite rev_involutive in Hl. subst l. cbn [rev]. by rewrite !fmap_app.
Qed.

Lemma owes_add_read (f : RaftNode → PendingRead) t :
  (∀ n, pr_cb (f n) = t) →
  keeps (owes [t]) (upd (λ n, n <| pending_reads_ := pending_reads_ n ++ [f n] |>) : M (nstate E) unit).
Proof.
  intros Hf s. unfold owes, owed. cbn [upd modify snd nd env]. rewrite kept_with_reads. unfold kept_tokens, read_tokens.
  rewrite fmap_app. cbn [fmap list_fmap]. rewrite Hf. apply Permutation_submseteq.
  rewrite (app_assoc (client_tokens _)). rewrite (Permutation_app_comm _ [t]). by rewrite <-!app_assoc.
Qed.

Lemma owes_read_index key t : keeps (owes [t]) (Node.read_index key t).
Proof.
  unfold Node.read_index. apply owes_after; [apply settles_this|]. intros n.
  destruct (_ || _); [apply owes_quiet, keeps_ret, _|]. destruct (bool_decide _).
  - apply owes_before; [|intros; apply keeps_ret, _]. intros s.
    destruct (read_calls t true (Kv.get key (kv_ n)) s) as (s1 & -> & N & A). unfold owes, owed. cbn [snd].
    rewrite N, A. apply Permutation_submseteq. by rewrite (app_assoc (kept_tokens _)), (Permutation_app_comm _ [t]).
  - cbv zeta. apply owes_after; [settles_auto|]. intros _. apply owes_before; [by apply owes_add_read|]. intros _.
    repeat keeps_step ltac:(first [settles_base | apply settles_shrink]).
    intros x. rewrite kept_with_reads, set_last_timeout_tokens. done.
Qed.

Lemma settles_submit_reply c r cmd from cr : keeps st (Node.submit c r cmd (CbReply from cr)).
Proof. intros s. apply owes_none, (owes_submit c r cmd (CbReply from cr)). Qed.
Hint Resolve settles_submit_reply : settles.

Lemma ack_round_tokens round l : read_tokens (Node.ack_round round l) = read_tokens l.
Proof.
  unfold read_tokens. induction l as [|pr l IH]; [done|]. cbn [Node.ack_round]. destruct (pr_round pr =? round); [done|].
  cbn. by f_equal.
Qed.

(** ** The handlers and the entry points *)

Lemma settles_rv from m : keeps st (Node.handle_request_vote from m).
Proof. walk @Node.handle_request_vote. Qed.
Lemma settles_rvr from m : keeps st (Node.handle_request_vote_reply from m).
Proof. walk @Node.handle_request_vote_reply. Qed.
Lemma settles_ae from m : keeps st (Node.handle_append_entries from m).
Proof. walk @Node.handle_append_entries. Qed.
Lemma settles_aer from m : keeps st (Node.handle_append_entries_reply from m).
Proof. walk @Node.handle_append_entries_reply. Qed.
Lemma settles_is from m : keeps st (Node.handle_install_snapshot from m).
Proof. walk @Node.handle_install_snapshot. Qed.
Lemma settles_isr from m : keeps st (Node.handle_install_snapshot_reply from m).
Proof. walk @Node.handle_install_snapshot_reply. Qed.
Lemma settles_rir from m : keeps st (Node.handle_read_index_request from m).
Proof. walk @Node.handle_read_index_request. Qed.
Lemma settles_rirr from m : keeps st (Node.handle_read_index_reply from m).
Proof.
  unfold Node.handle_read_index_reply. repeat keeps_step ltac:(first [settles_base | apply settles_shrink]).
  intros n. rewrite kept_with_reads, ack_round_tokens. done.
Qed.
Lemma settles_cr from m : keeps st (Node.handle_client_request from m).
Proof. walk @Node.handle_client_request. Qed.
Hint Resolve settles_rv settles_rvr settles_ae settles_aer settles_is settles_isr settles_rir settles_rirr
  settles_cr : settles.
Lemma settles_load_log : keeps st Node.load_log.
Proof.
  unfold Node.load_log. apply keeps_bind; [apply _|apply settles_rd|]. intros sz.
  destruct (sz =? 0)%nat; [apply keeps_ret, _|]. intros s. destruct (Log.load_from _ _) as [r l]. by change (owed s ⊆+ owed s).
Qed.
Lemma settles_load_meta : keeps st Node.load_meta.
Proof. walk @Node.load_meta. Qed.
Hint Resolve settles_load_log settles_load_meta : settles.

Lemma settles_on_message m : keeps st (Node.on_message m).
Proof.
  unfold Node.on_message. apply keeps_bind; [apply _|apply settles_rd|]. intros run.
  destruct (negb run); [apply keeps_ret, _|]. destruct (msg_payload m) as [|ty p]; [apply keeps_ret, _|].
  apply settles_try; [|intros; apply keeps_ret, _]. walk @Node.dispatch.
Qed.
Lemma settles_on_timer t : keeps st (Node.on_timer t).
Proof.
  unfold Node.on_timer, Node.on_election_timeout, Node.on_heartbeat. destruct t as [|n|n round]; [settles_auto..|].
  intros s. rewrite bind_rd. by apply settles_timeout_loop.
Qed.
Lemma settles_start : keeps st Node.start.
Proof. walk @Node.start. Qed.
Hint Resolve settles_start : settles.
Lemma settles_restart : keeps st Node.restart.
Proof. walk @Node.restart. Qed.
Lemma settles_crash : keeps st Node.crash.
Proof.
  unfold Node.crash.
  repeat lazymatch goal with
    | |- keeps _ (mbind _ (rd (λ n, merge_sort _ _))) => apply settles_crash_clients
    | |- _ => keeps_step ltac:(first [settles_base | apply settles_shrink])
    end.
  intros n. rewrite kept_with_reads. apply submseteq_app; [done|apply submseteq_nil_l].
Qed.
End Operations.
