(* ===== verification/EnvFrame.v ===== *)
(** * What a node does to its environment

    A node touches its environment only through the operations of [NodeEnv]:
    a preorder that each of them keeps is kept by every operation of
    [RaftNode], whatever the node's state. *)

From S2P Require Import Prelude Codec DurableStore Types Wal KvStore RaftLog Rpc Env Node NodeVotes.

Class EnvKeeps (E : Type) `{NodeEnv E} (R : relation E) := {
  ek_pre :: PreOrder R;
  ek_schedule d (t : timer) : keeps R (schedule d t : M E EventId);
  ek_cancel id : keeps R (cancel (A := timer) id : M E unit);
  ek_random lo hi : keeps R (random_range (A := timer) lo hi : M E Z);
  ek_send from to p : keeps R (net_send (H := handler) from to p : M E unit);
  ek_set_handler id (h : handler) : keeps R (set_handler id h : M E unit);
  ek_remove_handler id : keeps R (remove_handler (H := handler) id : M E unit);
  ek_client t r : keeps R (client_done t r : M E unit);
  ek_read t l b v : keeps R (read_done t l b v : M E unit);
  ek_state id r t : keeps R (state_changed id r t : M E unit);
}.

Section Around.
Context {E : Type} (R : relation E) `{!PreOrder R}.
Implicit Types (s : nstate E) (n : RaftNode).

Definition around s s' : Prop := R (env s) (env s').

#[local] Instance around_pre : PreOrder around.
Proof. split; unfold around; [by intros s|]. intros s1 s2 s3. by etrans. Qed.

Lemma env_upd f : keeps around (upd f : M (nstate E) unit).
Proof. intros s. unfold around, upd, modify. reflexivity. Qed.
Lemma env_rd {B} (f : RaftNode → B) : keeps around (rd f : M (nstate E) B).
Proof. intros s. reflexivity. Qed.
Lemma env_result {B} (r : result B) : keeps around (lift_result r : M (nstate E) B).
Proof. intros s. reflexivity. Qed.
Lemma env_decoder {B} (d : M bytes B) b : keeps around (run_decoder d b : M (nstate E) B).
Proof. intros s. reflexivity. Qed.
Lemma env_lift {B} (m : M E B) : keeps R m → keeps around (liftE m).
Proof. intros Hm s. unfold liftE, around. pose proof (Hm (env s)) as K. by destruct (m (env s)). Qed.
Lemma env_try {B} (m : M (nstate E) B) h :
  keeps around m → (∀ e, keeps around (h e)) → keeps around (try_catch m h).
Proof. apply keeps_try, _. Qed.

Context {ne : NodeEnv E} `{!EnvKeeps E R}.
Lemma env_send to p : keeps around (Node.send to p : M (nstate E) unit).
Proof. unfold Node.send. apply keeps_bind; [apply _|apply env_rd|]. intros id. apply env_lift, ek_send. Qed.
End Around.

#[export] Existing Instance around_pre.
Create HintDb around.
#[export] Hint Resolve env_rd env_upd env_result env_decoder env_send env_try : around.
#[export] Hint Extern 0 (PreOrder _) => apply _ : around.
#[export] Hint Extern 1 (keeps (around _) (liftE _)) =>
  (apply env_lift; first [apply ek_schedule | apply ek_cancel | apply ek_random | apply ek_send | apply ek_set_handler
                         | apply ek_remove_handler | apply ek_client | apply ek_read | apply ek_state]) : around.
Ltac around_base := solve [eauto with around nocore].
Ltac around_auto := repeat keeps_step around_base.

Section AroundOps.
Context {E : Type} {ne : NodeEnv E} (R : relation E) `{!EnvKeeps E R}.
Local Abbreviation ar := (around (E := E) R).
Implicit Types (s : nstate E).

Lemma env_schedule_election : keeps ar (@Node.schedule_election_timeout E ne).
Proof. unfold Node.schedule_election_timeout. around_auto. Qed.
Lemma env_schedule_heartbeat : keeps ar (@Node.schedule_heartbeat E ne).
Proof. unfold Node.schedule_heartbeat. around_auto. Qed.
Hint Resolve env_schedule_election env_schedule_heartbeat : around.

Local Tactic Notation "walk" constr(f) := unfold f; around_auto.

Lemma env_this : keeps ar (@Node.this E).
Proof. around_base. Qed.
Lemma env_persist : keeps ar (@Node.persist E).
Proof. walk @Node.persist. Qed.
Lemma env_cancel_election : keeps ar (@Node.cancel_election_timeout E ne).
Proof. walk @Node.cancel_election_timeout. Qed.
Lemma env_cancel_heartbeat : keeps ar (@Node.cancel_heartbeat E ne).
Proof. walk @Node.cancel_heartbeat. Qed.
Lemma env_notify : keeps ar (@Node.notify_state_change E ne).
Proof. walk @Node.notify_state_change. Qed.
Lemma env_invoke cb r : keeps ar (@Node.invoke_client E ne cb r).
Proof. walk @Node.invoke_client. Qed.
Lemma env_invoke_read t b v : keeps ar (@Node.invoke_read E ne t b v).
Proof. walk @Node.invoke_read. Qed.
Hint Resolve env_invoke_read : around.
Lemma env_cancel_reads : keeps ar (@Node.cancel_pending_reads E ne).
Proof. walk @Node.cancel_pending_reads. Qed.
Lemma env_drain kept todo : keeps ar (@Node.drain_loop E ne kept todo).
Proof. revert kept. induction todo; intros; cbn [Node.drain_loop]; around_auto. Qed.
Lemma env_next_index_at p : keeps ar (@Node.next_index_at E p).
Proof. walk @Node.next_index_at. Qed.
Lemma env_match_index_at p : keeps ar (@Node.match_index_at E p).
Proof. walk @Node.match_index_at. Qed.
Lemma env_set_next_index p i : keeps ar (@Node.set_next_index E p i).
Proof. walk @Node.set_next_index. Qed.
Lemma env_set_match_index p i : keeps ar (@Node.set_match_index E p i).
Proof. walk @Node.set_match_index. Qed.
Hint Resolve env_this env_persist env_cancel_election env_cancel_heartbeat env_notify
  env_invoke env_cancel_reads env_drain env_next_index_at env_match_index_at
  env_set_next_index env_set_match_index : around.
Lemma env_drain_reads : keeps ar (@Node.drain_pending_reads E ne).
Proof. walk @Node.drain_pending_reads. Qed.
Lemma env_become_follower t l : keeps ar (@Node.become_follower E ne t l).
Proof. walk @Node.become_follower. Qed.
Lemma env_send_snapshot p : keeps ar (@Node.send_install_snapshot E ne p).
Proof. walk @Node.send_install_snapshot. Qed.
Lemma env_prev_term p : keeps ar (@Node.prev_term_of E p).
Proof. walk @Node.prev_term_of. Qed.
Hint Resolve env_drain_reads env_become_follower env_send_snapshot env_prev_term : around.
Lemma env_replicate_to p : keeps ar (@Node.replicate_to E ne p).
Proof. walk @Node.replicate_to. Qed.
Hint Resolve env_replicate_to : around.
Lemma env_replicate_all : keeps ar (@Node.replicate_all E ne).
Proof. walk @Node.replicate_all. Qed.
Hint Resolve env_replicate_all : around.
Lemma env_become_leader : keeps ar (@Node.become_leader E ne).
Proof. walk @Node.become_leader. Qed.
Hint Resolve env_become_leader : around.
Lemma env_become_candidate : keeps ar (@Node.become_candidate E ne).
Proof. walk @Node.become_candidate. Qed.
Lemma env_save_snapshot : keeps ar (@Node.save_snapshot E).
Proof. walk @Node.save_snapshot. Qed.
Hint Resolve env_become_candidate env_save_snapshot : around.
Lemma env_take_snapshot : keeps ar (@Node.take_snapshot E).
Proof. walk @Node.take_snapshot. Qed.
Lemma env_fill i n dec : keeps ar (@Node.fill_snap_data E i n dec).
Proof. revert i dec. induction n; intros; cbn [Node.fill_snap_data]; around_auto. Qed.
Hint Resolve env_take_snapshot env_fill : around.
Lemma env_load_snapshot : keeps ar (@Node.load_snapshot E).
Proof. walk @Node.load_snapshot. Qed.
Lemma env_membership cmd : keeps ar (@Node.apply_membership_change E ne cmd).
Proof. walk @Node.apply_membership_change. Qed.
Hint Resolve env_load_snapshot env_membership : around.
Lemma env_apply_one i : keeps ar (@Node.apply_one E ne i).
Proof. walk @Node.apply_one. Qed.
Hint Resolve env_apply_one : around.
Lemma env_apply_loop k : keeps ar (@Node.apply_loop E ne k).
Proof. induction k; cbn [Node.apply_loop]; around_auto. Qed.
Hint Resolve env_apply_loop : around.
Lemma env_apply_committed : keeps ar (@Node.apply_committed_entries E ne).
Proof. walk @Node.apply_committed_entries. Qed.
Lemma env_skip i : keeps ar (@Node.skip_prior_term E i).
Proof. walk @Node.skip_prior_term. Qed.
Hint Resolve env_apply_committed env_skip : around.
Lemma env_advance_loop k i : keeps ar (@Node.advance_loop E ne k i).
Proof. revert i. induction k; intros; cbn [Node.advance_loop]; around_auto. Qed.
Hint Resolve env_advance_loop : around.
Lemma env_advance : keeps ar (@Node.maybe_advance_commit_index E ne).
Proof. walk @Node.maybe_advance_commit_index. Qed.
Hint Resolve env_advance : around.
Lemma env_accept_entry e : keeps ar (@Node.accept_entry_n E e).
Proof. walk @Node.accept_entry_n. Qed.
Hint Resolve env_accept_entry : around.
Lemma env_submit c r cmd cb : keeps ar (@Node.submit E ne c r cmd cb).
Proof. walk @Node.submit. Qed.
Hint Resolve env_submit : around.

Lemma env_rv from m : keeps ar (@Node.handle_request_vote E ne from m).
Proof. walk @Node.handle_request_vote. Qed.
Lemma env_rvr from m : keeps ar (@Node.handle_request_vote_reply E ne from m).
Proof. walk @Node.handle_request_vote_reply. Qed.
Lemma env_ae from m : keeps ar (@Node.handle_append_entries E ne from m).
Proof. walk @Node.handle_append_entries. Qed.
Lemma env_aer from m : keeps ar (@Node.handle_append_entries_reply E ne from m).
Proof. walk @Node.handle_append_entries_reply. Qed.
Lemma env_is from m : keeps ar (@Node.handle_install_snapshot E ne from m).
Proof. walk @Node.handle_install_snapshot. Qed.
Lemma env_isr from m : keeps ar (@Node.handle_install_snapshot_reply E ne from m).
Proof. walk @Node.handle_install_snapshot_reply. Qed.
Lemma env_rir from m : keeps ar (@Node.handle_read_index_request E ne from m).
Proof. walk @Node.handle_read_index_request. Qed.
Lemma env_rirr from m : keeps ar (@Node.handle_read_index_reply E ne from m).
Proof. walk @Node.handle_read_index_reply. Qed.
Lemma env_cr from m : keeps ar (@Node.handle_client_request E ne from m).
Proof. walk @Node.handle_client_request. Qed.
Hint Resolve env_rv env_rvr env_ae env_aer env_is env_isr env_rir env_rirr
  env_cr : around.
Lemma env_timeout_loop round b a : keeps ar (@Node.timeout_loop E ne round b a).
Proof. revert b. induction a; intros; cbn [Node.timeout_loop]; around_auto. Qed.
Lemma env_load_log : keeps ar (@Node.load_log E).
Proof.
  unfold Node.load_log. apply keeps_bind; [apply _|around_base|]. intros sz.
  destruct (sz =? 0)%nat; [apply keeps_ret, _|]. intros s.
  destruct (Log.load_from _ _) as [r l]. unfold around; cbn [snd env]; reflexivity.
Qed.
Lemma env_load_meta : keeps ar (@Node.load_meta E).
Proof. walk @Node.load_meta. Qed.
Hint Resolve env_timeout_loop env_load_log env_load_meta : around.

(** ** The entry points *)
Lemma env_on_message m : keeps ar (@Node.on_message E ne m).
Proof.
  unfold Node.on_message. apply keeps_bind; [apply _|around_base|]. intros run.
  destruct (negb run); [apply keeps_ret, _|]. destruct (msg_payload m) as [|ty p]; [apply keeps_ret, _|].
  apply env_try; [apply _| |intros; apply keeps_ret, _]. walk @Node.dispatch.
Qed.
Lemma env_on_timer t : keeps ar (@Node.on_timer E ne t).
Proof. unfold Node.on_timer, Node.on_election_timeout, Node.on_heartbeat. around_auto. Qed.
Lemma env_start : keeps ar (@Node.start E ne).
Proof. walk @Node.start. Qed.
Hint Resolve env_start : around.
Lemma env_restart : keeps ar (@Node.restart E ne).
Proof. walk @Node.restart. Qed.
Lemma env_crash : keeps ar (@Node.crash E ne).
Proof. walk @Node.crash. Qed.
Lemma env_read_index key t : keeps ar (@Node.read_index E ne key t).
Proof. walk @Node.read_index. Qed.
End AroundOps.
