(* ===== verification/Text.v ===== *)
(** * Text: what the program uses of the C and C++ string library

    [isspace] and extraction with [>>], [std::getline] with a delimiter,
    [std::stoul] and [std::stoull], streams of [stdio] and C strings.  A
    [std::string] is a [string]; the locale is the default one. *)

From Stdlib Require Import Ascii.
From stdpp Require Import pretty.
From S2P Require Import Prelude Codec.
Open Scope string_scope.
Open Scope Z_scope.

(** A character as its code. *)
Definition code (c : ascii) : Z := byte_of_ascii c.

(** [isspace]: space, \t, \n, \v, \f and \r *)
Definition isspace (c : ascii) : bool := (code c =? 32) || ((9 <=? code c) && (code c <=? 13)).

Definition is_digit (c : ascii) : bool := (48 <=? code c) && (code c <=? 57).

Fixpoint skip_ws (s : string) : string :=
  match s with
  | String c s' => if isspace c then skip_ws s' else s
  | EmptyString => EmptyString
  end.

(** The characters up to the first one for which [stop] holds, and the rest. *)
Fixpoint break_at (stop : ascii → bool) (s : string) : string * string :=
  match s with
  | String c s' => if stop c then (EmptyString, s) else let '(w, r) := break_at stop s' in (String c w, r)
  | EmptyString => (EmptyString, EmptyString)
  end.

(** [is >> word]: nothing if the stream holds no word. *)
Definition extract (s : string) : option (string * string) :=
  match skip_ws s with
  | EmptyString => None
  | s' => Some (break_at isspace s')
  end.

(** ** [std::getline(is, token, delim)] until it fails *)
Fixpoint getlines (fuel : nat) (delim : ascii) (s : string) : list string :=
  match fuel, s with
  | S fuel', String _ _ =>
      let '(w, r) := break_at (λ c, bool_decide (c = delim)) s in
      w :: match r with
           | String _ r' => getlines fuel' delim r'
           | EmptyString => []
           end
  | _, _ => []
  end.

(** Every token but the last takes its delimiter from the stream. *)
Definition tokens (delim : ascii) (s : string) : list string := getlines (S (String.length s)) delim s.

(** ** [s.find(c)] and [s.rfind(c)], as the parts before and after *)

(** At the first [c]. *)
Definition split_first (c : ascii) (s : string) : option (string * string) :=
  match break_at (λ x, bool_decide (x = c)) s with
  | (w, String _ r) => Some (w, r)
  | (_, EmptyString) => None
  end.

(** At the last [c]. *)
Fixpoint split_last (c : ascii) (s : string) : option (string * string) :=
  match s with
  | EmptyString => None
  | String x s' =>
      match split_last c s' with
      | Some (w, r) => Some (String x w, r)
      | None => if bool_decide (x = c) then Some (EmptyString, s') else None
      end
  end.

(** ** [std::stoul], [std::stoull] *)

Fixpoint digits_value (s : string) (acc : Z) : Z :=
  match s with
  | String c s' => if is_digit c then digits_value s' (10 * acc + (code c - 48)) else acc
  | EmptyString => acc
  end.

(** [strtoul] on the text after the sign. *)
Definition stoul_digits (neg : bool) (s : string) : result Z :=
  match s with
  | String c _ =>
      if is_digit c then
        let v := digits_value s 0 in
        if UINT64_MAX <? v then Throw (out_of_range "stoul")
        else Ok (if neg then wrap64 (- v) else v)
      else Throw (logic_error "stoul")
  | EmptyString => Throw (logic_error "stoul")
  end.

Definition stoul (s : string) : result Z :=
  match skip_ws s with
  | String c s' =>
      if code c =? 45 then stoul_digits true s'
      else if code c =? 43 then stoul_digits false s'
      else stoul_digits false (String c s')
  | EmptyString => Throw (logic_error "stoul")
  end.

(** ** C strings *)

Definition newline : ascii := ascii_of_byte 10.
Definition eol : string := String newline EmptyString.
Definition carriage_return : ascii := ascii_of_byte 13.

(** [fgets] with room for [n] characters: the line and the rest of the input;
    the line is empty at the end of the input only. *)
Fixpoint fgets (n : nat) (s : string) : string * string :=
  match n, s with
  | S n', String c s' =>
      if bool_decide (c = newline) then (String c EmptyString, s')
      else let '(l, r) := fgets n' s' in (String c l, r)
  | _, _ => (EmptyString, s)
  end.

(** ** A stream opened for reading and writing

    [fdopen(fd, "r+")] on a socket gives one stream with one buffer for both
    directions.  [fi_buf] is the input it has buffered and not handed out,
    [fi_reads] what the next calls of [read] return (an empty piece is the end
    of the input), [fi_out] what it has written to the socket.  ISO C leaves
    output directly after input undefined on such a stream; what follows is
    the GNU C library.  It takes the stream to be positioned after the unread
    input and seeks back before it writes.  A socket has no position, so the
    seek fails where there is unread input: the output stays in the buffer,
    over the input, and every later call fails too ([fi_stuck]).  An output
    as long as the buffer does not go through it: it is lost, and the input
    stays.  A [write] to the socket is taken to succeed. *)
Record FILE := mkFILE {
  fi_buf : string;
  fi_reads : list string;
  fi_out : string;
  fi_stuck : bool;
}.

(** The buffer of a stream over a socket has the size of its blocks. *)
Definition io_buffer : nat := 4096.

Definition fdopen (reads : list string) : FILE := mkFILE EmptyString reads EmptyString false.

(** No more characters go to the line [l]: it ends with a newline, or has no
    room left of [n]. *)
Fixpoint ends_line (n : nat) (l : string) : bool :=
  match n, l with
  | O, _ => true
  | S _, EmptyString => false
  | S n', String c l' => bool_decide (c = newline) || ends_line n' l'
  end.

(** [fgets] on what is buffered, and on further pieces until the line ends:
    the line, the unread rest of the last piece and the pieces left. *)
Fixpoint gets_line (n : nat) (buf : string) (reads : list string) : string * (string * list string) :=
  let '(l, rest) := fgets n buf in
  if ends_line n l then (l, (rest, reads))
  else
    match reads with
    | [] => (l, (EmptyString, []))
    | EmptyString :: _ => (l, (EmptyString, reads))
    | piece :: reads' =>
        let '(l', k) := gets_line (n - String.length l) piece reads' in (l +:+ l', k)
    end.

(** [fgets(line, n + 1, f)]; an empty line is [NULL]. *)
Definition fgets_file (n : nat) (f : FILE) : string * FILE :=
  if fi_stuck f then (EmptyString, f)
  else
    let '(l, (rest, reads)) := gets_line n (fi_buf f) (fi_reads f) in
    (l, mkFILE rest reads (fi_out f) false).

(** [fputs(text, f)] with the [fflush(f)] after it. *)
Definition fputs (text : string) (f : FILE) : FILE :=
  match text with
  | EmptyString => f
  | _ =>
      if fi_stuck f then f
      else
        match fi_buf f with
        | EmptyString => mkFILE EmptyString (fi_reads f) (fi_out f +:+ text) false
        | _ =>
            if (io_buffer <=? String.length text)%nat then f
            else mkFILE EmptyString (fi_reads f) (fi_out f) true
        end
  end.

(** The text up to the first NUL. *)
Definition c_str (s : string) : string := (break_at (λ c, code c =? 0) s).1.

(** [while (len > 0 && (line[len-1] == '\n' || line[len-1] == '\r')) line[--len] = 0] *)
Fixpoint chomp (s : string) : string :=
  match s with
  | EmptyString => EmptyString
  | String c s' =>
      match chomp s' with
      | EmptyString =>
          if bool_decide (c = newline) || bool_decide (c = carriage_return) then EmptyString else String c EmptyString
      | t => String c t
      end
  end.

(** ** Words *)

Lemma text_app_cons c s t : String c s +:+ t = String c (s +:+ t).
Proof. reflexivity. Qed.

Lemma text_app_nil s : s +:+ "" = s.
Proof. induction s as [|c s IH]; [done|]. by rewrite text_app_cons, IH. Qed.

Lemma text_app_assoc s t u : (s +:+ t) +:+ u = s +:+ (t +:+ u).
Proof. induction s as [|c s IH]; [done|]. by rewrite !text_app_cons, IH. Qed.

Fixpoint all_chars (P : ascii → bool) (s : string) : bool :=
  match s with
  | EmptyString => true
  | String c s' => P c && all_chars P s'
  end.

Lemma all_chars_app P s t : all_chars P (s +:+ t) = all_chars P s && all_chars P t.
Proof. induction s as [|c s IH]; [done|]. rewrite text_app_cons. simpl. by rewrite IH, andb_assoc. Qed.

Lemma all_chars_impl (P Q : ascii → bool) s : (∀ c, P c = true → Q c = true) → all_chars P s = true → all_chars Q s = true.
Proof.
  intros HPQ. induction s as [|c s IH]; [done|]. simpl. intros [? ?]%andb_prop. by rewrite HPQ, IH.
Qed.

(** The part before the stop is what it is. *)
Lemma break_at_app stop s t :
  all_chars (λ c, negb (stop c)) s = true →
  break_at stop (s +:+ t) = let '(w, r) := break_at stop t in (s +:+ w, r).
Proof.
  induction s as [|c s IH]; [by intros _; change ("" +:+ t) with t; destruct (break_at stop t)|]. intros [Hc Hs]%andb_prop. rewrite text_app_cons. simpl.
  destruct (stop c); [done|]. rewrite IH by done. by destruct (break_at stop t).
Qed.

Lemma break_at_all stop s : all_chars (λ c, negb (stop c)) s = true → break_at stop s = (s, "").
Proof.
  intros Hs. rewrite <-(text_app_nil s) at 1. rewrite break_at_app by done. simpl. by rewrite text_app_nil.
Qed.

(** A word: characters that are not white space, at least one. *)
Definition is_word (s : string) : bool := negb (bool_decide (s = "")) && all_chars (λ c, negb (isspace c)) s.

Lemma is_word_inv s : is_word s = true → s ≠ "" ∧ all_chars (λ c, negb (isspace c)) s = true.
Proof. unfold is_word. intros [H1 H2]%andb_prop. by rewrite negb_true_iff, bool_decide_eq_false in H1. Qed.

Lemma skip_ws_word s t : is_word s = true → skip_ws (s +:+ t) = s +:+ t.
Proof.
  intros [Hne Hs]%is_word_inv. destruct s as [|c s]; [done|]. rewrite text_app_cons. simpl in *. apply andb_prop in Hs as [Hc _].
  by destruct (isspace c).
Qed.

Lemma extract_word s c t : is_word s = true → isspace c = true → extract (s +:+ String c t) = Some (s, String c t).
Proof.
  intros Hs Hc. unfold extract. rewrite skip_ws_word by done. pose proof (is_word_inv s Hs) as [Hne Ha].
  destruct s as [|x s]; [done|]. rewrite text_app_cons. cbv beta iota. rewrite <-text_app_cons, break_at_app by done.
  cbn [break_at]. by rewrite Hc, text_app_nil.
Qed.

Lemma extract_last s : is_word s = true → extract s = Some (s, "").
Proof.
  intros Hs. pose proof (is_word_inv s Hs) as [Hne Ha]. unfold extract.
  pose proof (skip_ws_word s "" Hs) as Hk. rewrite text_app_nil in Hk. rewrite Hk.
  destruct s as [|x s]; [done|]. by rewrite break_at_all.
Qed.

Lemma extract_space c s : isspace c = true → extract (String c s) = extract s.
Proof. intros Hc. unfold extract. simpl. by rewrite Hc. Qed.
