(* ===== verification/Format.v ===== *)
(** * [std::format]: the conversions the program uses

    Padding to a width, unsigned integers, and a [double] in fixed notation
    with [k] decimals: the exact binary value, rounded to the nearest decimal,
    ties to even. *)

From Corelib Require Import SpecFloat.
From Stdlib Require Import Ascii.
From stdpp Require Import pretty.
From S2P Require Import Prelude Codec Prng Text.
Open Scope list_scope.
Open Scope Z_scope.

Definition quote : string := String (ascii_of_byte 34) EmptyString.
Definition concat (l : list string) : string := foldr (λ a b, a +:+ b) "" l.
Definition fill (c : string) (n : nat) : string := concat (replicate n c).

(** [{}] of an unsigned integer *)
Definition dec (z : Z) : string := pretty (Z.to_N z).

(** [{:>n}] and [{:<n}] *)
Definition pad_left (n : nat) (s : string) : string := fill " " (n - String.length s) +:+ s.
Definition pad_right (n : nat) (s : string) : string := s +:+ fill " " (n - String.length s).

(** The quotient [a / b], to the nearest, ties to even. *)
Definition div_nearest (a b : Z) : Z :=
  let q := a / b in
  let r := a mod b in
  match 2 * r ?= b with
  | Lt => q
  | Gt => q + 1
  | Eq => if Z.even q then q else q + 1
  end.

(** [m * 2^e] in units of [10^-k]. *)
Definition scaled (k : nat) (m : positive) (e : Z) : Z :=
  if 0 <=? e then Z.pos m * 2 ^ e * 10 ^ Z.of_nat k
  else div_nearest (Z.pos m * 10 ^ Z.of_nat k) (2 ^ (- e)).

(** [u] units of [10^-k], with the point. *)
Definition decimals (k : nat) (u : Z) : string :=
  let p := 10 ^ Z.of_nat k in
  match k with
  | O => dec u
  | _ => let f := dec (u mod p) in dec (u / p) +:+ "." +:+ fill "0" (k - String.length f) +:+ f
  end.

(** [{:.kf}] *)
Definition fixed (k : nat) (d : double) : string :=
  match d with
  | S754_zero s => (if s then "-" else "") +:+ decimals k 0
  | S754_infinity s => (if s then "-" else "") +:+ "inf"
  | S754_nan => "nan"
  | S754_finite s m e => (if s then "-" else "") +:+ decimals k (scaled k m e)
  end.

(** [{}] of a [bool] *)
Definition bool_str (b : bool) : string := if b then "true" else "false".

(** [{:#018x}] of a [uint64_t]: the prefix and sixteen digits *)
Definition hex_digit (d : Z) : string := String (ascii_of_byte (if d <? 10 then 48 + d else 87 + d)) EmptyString.
Fixpoint hex_digits (n : nat) (z : Z) : string :=
  match n with
  | O => ""
  | S n' => hex_digits n' (Z.shiftr z 4) +:+ hex_digit (Z.land z 0xF)
  end.
Definition hex16 (z : Z) : string := "0x" +:+ hex_digits 16 z.

(** [{:#x}]: without leading zeros *)
Fixpoint drop_zeros (s : string) : string :=
  match s with
  | String c (String _ _ as s') => if code c =? 48 then drop_zeros s' else s
  | _ => s
  end.
Definition hex (z : Z) : string := "0x" +:+ drop_zeros (hex_digits 16 z).
