(* ===== verification/DispatchQueue.v ===== *)
(** * The dispatch queue of the server: [src/server/dispatch_queue.hpp/.cpp]

    Timer callbacks, received messages and client requests are posted from
    several threads and called by one.  The mutex [mu_] makes every critical
    section atomic, so the threads are a sequence of steps: a [post] or a
    [stop] of any thread, or one critical section of the dispatch thread.  A
    posted closure is a value of the type [T]; it is called between two
    critical sections of the dispatch thread, while other threads may post. *)

From S2P Require Import Prelude.

Record DispatchQueue (T : Type) := mkDispatchQueue { q_ : list T; stopped_ : bool }.
Arguments mkDispatchQueue {T} _ _.
Arguments q_ {T} _.
Arguments stopped_ {T} _.

Definition empty_queue {T} : DispatchQueue T := mkDispatchQueue [] false.

(** Where the dispatch thread is: not in [run_once], calling a closure in the
    first or in the second loop, or in [wait_until]. *)
Inductive loop := First | Second.
Inductive pc (T : Type) :=
| Outside
| Running (l : loop) (f : T)
| Waiting.
Arguments Outside {T}.
Arguments Running {T} l f.
Arguments Waiting {T}.

Module Dispatch.
Section Dispatch.
Context {T : Type}.

Definition post (f : T) : M (DispatchQueue T) unit :=
  d ← get;
  if stopped_ d then mret tt else modify (λ d, mkDispatchQueue (q_ d ++ [f]) (stopped_ d)).

Definition stop : M (DispatchQueue T) unit := modify (λ d, mkDispatchQueue (q_ d) true).

Definition stopped : M (DispatchQueue T) bool := gets stopped_.

(** The dispatch thread holds the lock at the head of a loop: it takes the
    front closure, or leaves the loop - after the first loop it returns if the
    queue is stopped and waits otherwise, after the second it returns. *)
Definition loop_head (l : loop) : M (DispatchQueue T) (pc T) :=
  d ← get;
  match q_ d with
  | f :: q => modify (λ d, mkDispatchQueue q (stopped_ d));; mret (Running l f)
  | [] =>
      match l with
      | First => mret (if stopped_ d then Outside else Waiting)
      | Second => mret Outside
      end
  end.

(** One critical section of [run_once]: entered by the call, after a closure
    has returned, or when [wait_until] ends - with work, with [stopped_] or
    at the time limit. *)
Definition run_once (c : pc T) : M (DispatchQueue T) (pc T) :=
  match c with
  | Outside => loop_head First
  | Running l _ => loop_head l
  | Waiting => loop_head Second
  end.

End Dispatch.
End Dispatch.

(** ** The threads

    [started] lists the closures the dispatch thread has begun to call. *)
Section Threads.
Context {T : Type}.

Inductive dlabel := LPost (f : T) | LStop | LDispatch.

Record dsys := mkDsys { ds_queue : DispatchQueue T; ds_pc : pc T; started : list T }.

Definition dsys0 : dsys := mkDsys empty_queue Outside [].

Definition called (c : pc T) : list T := match c with Running _ f => [f] | _ => [] end.

Definition dstep (l : dlabel) (s : dsys) : dsys :=
  match l with
  | LPost f => mkDsys (Dispatch.post f (ds_queue s)).2 (ds_pc s) (started s)
  | LStop => mkDsys (Dispatch.stop (ds_queue s)).2 (ds_pc s) (started s)
  | LDispatch =>
      match Dispatch.run_once (ds_pc s) (ds_queue s) with
      | (Ok c, q) => mkDsys q c (started s ++ called c)
      | (Throw _, q) => mkDsys q (ds_pc s) (started s)
      end
  end.

Definition drun (ls : list dlabel) (s : dsys) : dsys := fold_left (λ s l, dstep l s) ls s.

(** ** What the threads may rely on *)

(** The closures posted before the queue is stopped. *)
Fixpoint accepted (ls : list dlabel) : list T :=
  match ls with
  | [] => []
  | LPost f :: ls' => f :: accepted ls'
  | LStop :: _ => []
  | LDispatch :: ls' => accepted ls'
  end.

Fixpoint dispatches (ls : list dlabel) : nat :=
  match ls with
  | [] => 0
  | LDispatch :: ls' => S (dispatches ls')
  | _ :: ls' => dispatches ls'
  end.

Lemma loop_head_eq l (d : DispatchQueue T) :
  ∃ c, Dispatch.loop_head l d = (Ok c, mkDispatchQueue (tail (q_ d)) (stopped_ d)) ∧
    called c = take 1 (q_ d).
Proof. destruct d as [[|f q] b], l; cbn; (eexists; split; [reflexivity|]); [by destruct b|done..]. Qed.

(** A critical section calls the front closure, if there is one. *)
Lemma dispatch_eq s :
  ∃ c, dstep LDispatch s =
    mkDsys (mkDispatchQueue (tail (q_ (ds_queue s))) (stopped_ (ds_queue s))) c
      (started s ++ take 1 (q_ (ds_queue s))).
Proof.
  cbn [dstep]. destruct (ds_pc s) as [|l f|]; cbn [Dispatch.run_once].
  all: match goal with |- context [Dispatch.loop_head ?l ?d] =>
         destruct (loop_head_eq l d) as (c & -> & <-) end; by eexists.
Qed.

(** Everything taken from the front and everything still queued. *)
Definition known (s : dsys) : list T := started s ++ q_ (ds_queue s).

Lemma dstep_known l s :
  known (dstep l s) =
    known s ++ (if stopped_ (ds_queue s) then [] else match l with LPost f => [f] | _ => [] end) ∧
  stopped_ (ds_queue (dstep l s)) =
    match l with LStop => true | _ => stopped_ (ds_queue s) end.
Proof.
  destruct s as [[q b] c st]. destruct l as [f| |].
  - unfold known. destruct b; cbn; [by rewrite app_nil_r|]. split; [apply (app_assoc st q [f])|done].
  - unfold known. destruct b; cbn; by rewrite app_nil_r.
  - destruct (dispatch_eq (mkDsys (mkDispatchQueue q b) c st)) as (c' & ->). unfold known. cbn.
    split; [|done]. rewrite <-app_assoc. destruct b, q; simpl; by rewrite ?app_nil_r.
Qed.

Lemma drun_known ls s :
  known (drun ls s) = known s ++ (if stopped_ (ds_queue s) then [] else accepted ls).
Proof.
  revert s. induction ls as [|l ls IH]; intros s; [by destruct (stopped_ _); rewrite app_nil_r|].
  unfold drun in *. cbn [fold_left]. rewrite IH. destruct (dstep_known l s) as [-> ->].
  rewrite <-app_assoc. f_equal. destruct (stopped_ (ds_queue s)), l; done.
Qed.

Lemma drun_started ls s :
  (length (known s) `min` (length (started s) + dispatches ls) <= length (started (drun ls s)))%nat.
Proof.
  revert s. induction ls as [|l ls IH]; intros s; [unfold drun; simpl; lia|].
  unfold drun in *. cbn [fold_left]. specialize (IH (dstep l s)). etrans; [|exact IH].
  destruct (dstep_known l s) as [-> _]. rewrite length_app. destruct l as [f| |]; [simpl; lia..|].
  destruct (dispatch_eq s) as (c & ->). cbn [started dispatches]. unfold known.
  rewrite !length_app, length_take. lia.
Qed.

(** C30: the dispatch queue.  However the threads interleave, the dispatch
    thread calls the closures one after the other in the order they were
    posted: what it has called and what is queued are together exactly the
    closures posted before [stop].  None is lost or starved: each critical
    section of the dispatch thread calls one more of those that were known
    when it was needed, so that [n] further sections reach at least the first
    [n] of the waiting ones, whatever other threads post meanwhile. *)
Theorem dispatch_in_order (ls ls' : list dlabel) :
  let s := drun ls dsys0 in
  started s ++ q_ (ds_queue s) = accepted ls ∧
  started s `prefix_of` started (drun ls' s) ∧
  (length (accepted ls) `min` (length (started s) + dispatches ls') <= length (started (drun ls' s)))%nat.
Proof.
  cbv zeta. set (s := drun ls dsys0). assert (known s = accepted ls) as Hk by apply (drun_known ls dsys0).
  split; [exact Hk|]. split; [|rewrite <-Hk; apply drun_started].
  clearbody s. clear Hk. revert s. unfold drun. induction ls' as [|l ls' IH]; intros s; [done|].
  cbn [fold_left]. etrans; [|apply IH]. destruct l; [done..|]. destruct (dispatch_eq s) as (c & ->).
  by apply prefix_app_r.
Qed.

End Threads.
