(* ===== verification/RealClock.v ===== *)
(** * The timers of the server: [src/server/real_clock.hpp/.cpp]

    The implementation of [IClock] for real time.  The mutex [mu_] makes the
    critical sections of [schedule], [cancel] and of the timer thread's loop
    atomic; the threads are sequences of such steps with the steady clock
    (nanoseconds) advancing in between.  [std::priority_queue] is specified
    only up to the order of equal deadlines, so its [top] and [pop] are a
    parameter with that specification.  A call of [schedule] is one step: the
    id and the deadline, which the code takes before it locks [mu_], are taken
    together with the push.  A deadline is a [Z]: the conversion of a delay to
    64-bit nanoseconds, undefined beyond 292 years, does not overflow for the
    delays of a node, which are below a second. *)

From S2P Require Import Prelude Types.

Record Entry (T : Type) := mkEntry { en_deadline : Z; en_id : EventId; en_action : T }.
Arguments mkEntry {T} _ _ _.
Arguments en_deadline {T} _.
Arguments en_id {T} _.
Arguments en_action {T} _.

Record RealClock (T : Type) := mkRealClock {
  rc_heap_ : list (Entry T);
  rc_cancelled_ : gset EventId;
  rc_next_id_ : EventId;
  rc_running_ : bool;
}.
Arguments mkRealClock {T} _ _ _ _.
Arguments rc_heap_ {T} _.
Arguments rc_cancelled_ {T} _.
Arguments rc_next_id_ {T} _.
Arguments rc_running_ {T} _.

Definition make_clock {T} : RealClock T := mkRealClock [] ∅ 1 true.

(** What one round of the timer thread's loop does: leave the loop, wait,
    drop a cancelled entry, or post the action of an entry. *)
Inductive round (T : Type) := Leave | Wait | Drop | Post (e : Entry T).
Arguments Leave {T}.
Arguments Wait {T}.
Arguments Drop {T}.
Arguments Post {T} e.

(** [heap_.top()] and [heap_.pop()]: the queue's first entry and the others. *)
Definition heap_top_spec {T} (pop_top : list (Entry T) → option (Entry T * list (Entry T))) : Prop :=
  ∀ h, match pop_top h with
       | None => h = []
       | Some (e, h') => h ≡ₚ e :: h' ∧ Forall (λ x, en_deadline e <= en_deadline x) h'
       end.

Module Clock.
Section Clock.
Context {T : Type} (pop_top : list (Entry T) → option (Entry T * list (Entry T))).

(** [~RealClock] up to the [join]. *)
Definition quit : M (RealClock T) unit :=
  modify (λ c, mkRealClock (rc_heap_ c) (rc_cancelled_ c) (rc_next_id_ c) false).

Definition schedule (now : Z) (delay_us : SimTime) (action : T) : M (RealClock T) EventId :=
  c ← get;
  let id := rc_next_id_ c in
  let deadline := now + 1000 * delay_us in
  modify (λ c, mkRealClock (mkEntry deadline id action :: rc_heap_ c) (rc_cancelled_ c)
                 (wrap64 (id + 1)) (rc_running_ c));;
  mret id.

Definition cancel (id : EventId) : M (RealClock T) unit :=
  modify (λ c, mkRealClock (rc_heap_ c) ({[id]} ∪ rc_cancelled_ c) (rc_next_id_ c) (rc_running_ c)).

(** One round of the loop of [run], from the test of [running_] to the next
    one, at the time [now]. *)
Definition run (now : Z) : M (RealClock T) (round T) :=
  c ← get;
  if negb (rc_running_ c) then mret Leave
  else
    match pop_top (rc_heap_ c) with
    | None => mret Wait
    | Some (e, rest) =>
        if now <? en_deadline e then mret Wait
        else
          modify (λ c, mkRealClock rest (rc_cancelled_ c) (rc_next_id_ c) (rc_running_ c));;
          if bool_decide (en_id e ∈ rc_cancelled_ c) then
            modify (λ c, mkRealClock (rc_heap_ c) (rc_cancelled_ c ∖ {[en_id e]}) (rc_next_id_ c) (rc_running_ c));;
            mret Drop
          else mret (Post e)
    end.

(** [random_range], over the generator [dist], which draws from [lo, hi]. *)
Definition random_range {G} (dist : Z → Z → M G Z) (lo hi : Z) : M G Z :=
  if hi <=? lo then mret lo else dist lo (wrap64 (hi - 1)).

End Clock.
End Clock.

(** ** The threads *)
Section Threads.
Context {T : Type} (pop_top : list (Entry T) → option (Entry T * list (Entry T))).
Context (Htop : heap_top_spec pop_top).

Inductive clabel :=
| CSchedule (delay : SimTime) (a : T)
| CCancel (id : EventId)
| CTime (d : nat)
| CRun
| CQuit.

(** [cs_scheduled] and [cs_fired] list what has been scheduled and what has
    been posted, with the time. *)
Record csys := mkCsys {
  cs_clock : RealClock T;
  cs_now : Z;
  cs_scheduled : list (Entry T);
  cs_fired : list (Entry T * Z);
}.

Definition csys0 : csys := mkCsys make_clock 0 [] [].

Definition cstep (l : clabel) (s : csys) : csys :=
  match l with
  | CSchedule d a =>
      let c := (Clock.schedule (cs_now s) d a (cs_clock s)).2 in
      mkCsys c (cs_now s) (take 1 (rc_heap_ c) ++ cs_scheduled s) (cs_fired s)
  | CCancel id => mkCsys (Clock.cancel id (cs_clock s)).2 (cs_now s) (cs_scheduled s) (cs_fired s)
  | CTime d => mkCsys (cs_clock s) (cs_now s + Z.of_nat d) (cs_scheduled s) (cs_fired s)
  | CRun =>
      match Clock.run pop_top (cs_now s) (cs_clock s) with
      | (Ok (Post e), c) => mkCsys c (cs_now s) (cs_scheduled s) ((e, cs_now s) :: cs_fired s)
      | (_, c) => mkCsys c (cs_now s) (cs_scheduled s) (cs_fired s)
      end
  | CQuit => mkCsys (Clock.quit (cs_clock s)).2 (cs_now s) (cs_scheduled s) (cs_fired s)
  end.

Definition crun (ls : list clabel) (s : csys) : csys := fold_left (λ s l, cstep l s) ls s.

Definition fired_ids (s : csys) : list EventId := (λ x, en_id x.1) <$> cs_fired s.
Definition queued_ids (s : csys) : list EventId := en_id <$> rc_heap_ (cs_clock s).
Abbreviation heap s := (rc_heap_ (cs_clock s)).
Abbreviation next_id s := (rc_next_id_ (cs_clock s)).
Abbreviation cancelled s := (rc_cancelled_ (cs_clock s)).

(** The entry that [schedule] makes. *)
Definition new_entry (d : SimTime) (a : T) (s : csys) : Entry T :=
  mkEntry (cs_now s + 1000 * d) (next_id s) a.

Lemma clock_schedule_eq d a s :
  cstep (CSchedule d a) s =
    mkCsys (mkRealClock (new_entry d a s :: heap s) (cancelled s) (wrap64 (next_id s + 1)) (rc_running_ (cs_clock s)))
      (cs_now s) (new_entry d a s :: cs_scheduled s) (cs_fired s).
Proof. reflexivity. Qed.

(** The three outcomes of a round. *)
Variant run_cases (s : csys) : csys → Prop :=
| run_idle : run_cases s s
| run_drop e rest :
    heap s ≡ₚ e :: rest → en_id e ∈ cancelled s →
    run_cases s (mkCsys (mkRealClock rest (cancelled s ∖ {[en_id e]}) (next_id s) true)
                   (cs_now s) (cs_scheduled s) (cs_fired s))
| run_post e rest :
    heap s ≡ₚ e :: rest → en_id e ∉ cancelled s → en_deadline e <= cs_now s →
    run_cases s (mkCsys (mkRealClock rest (cancelled s) (next_id s) true)
                   (cs_now s) (cs_scheduled s) ((e, cs_now s) :: cs_fired s)).

Lemma run_spec s :
  run_cases s (cstep CRun s) ∧
  (rc_running_ (cs_clock s) = true → (∃ e, e ∈ heap s ∧ en_deadline e <= cs_now s) →
   length (heap s) = S (length (heap (cstep CRun s)))).
Proof.
  destruct s as [[h cn nx rn] now sch fi]. cbn [cstep]. unfold Clock.run, get, modify, mbind, M_bind, mret, M_ret. cbn.
  destruct rn; cbn; [|split; [apply run_idle|done]].
  pose proof (Htop h) as Hh. destruct (pop_top h) as [[e rest]|]; cbn.
  2: { subst h. split; [apply run_idle|]. intros _ (e & He%elem_of_nil & _). done. }
  destruct Hh as [Hp Hmin]. destruct (Z.ltb_spec now (en_deadline e)) as [Hlt|Hge]; cbn.
  - split; [apply run_idle|]. intros _ (x & Hx & Hd). exfalso. cbn in Hx, Hd. rewrite Hp in Hx.
    apply elem_of_cons in Hx as [->|Hx]; [lia|]. rewrite Forall_forall in Hmin. specialize (Hmin x Hx). lia.
  - assert (length h = S (length rest)) as Hl by (by rewrite Hp).
    case_bool_decide as Hc; cbn; (split; [|done]).
    + by apply (run_drop (mkCsys (mkRealClock h cn nx true) now sch fi) e rest).
    + by apply (run_post (mkCsys (mkRealClock h cn nx true) now sch fi) e rest).
Qed.

(** ** The invariant *)

Record cinv (n : Z) (s : csys) : Prop := {
  ci_next : 1 <= next_id s <= n + 1;
  ci_ids : NoDup (queued_ids s ++ fired_ids s);
  ci_old : Forall (λ i, i < next_id s) (queued_ids s ++ fired_ids s);
  ci_heap : Forall (λ e, e ∈ cs_scheduled s) (heap s);
  ci_fired : Forall (λ x, x.1 ∈ cs_scheduled s ∧ en_deadline x.1 <= x.2 <= cs_now s) (cs_fired s);
}.

Lemma cinv0 : cinv 0 csys0.
Proof. split; simpl; try constructor; lia. Qed.

Lemma cinv_weaken n m s : n <= m → cinv n s → cinv m s.
Proof. intros H []. split; [lia|done..]. Qed.

(** Taking an entry from the heap, posted or not. *)
Lemma cinv_pop n s e rest cn fi :
  heap s ≡ₚ e :: rest → cinv n s →
  fi = cs_fired s ∨ fi = (e, cs_now s) :: cs_fired s ∧ en_deadline e <= cs_now s →
  cinv n (mkCsys (mkRealClock rest cn (next_id s) true) (cs_now s) (cs_scheduled s) fi).
Proof.
  intros Hp [N D O Hh Hf] Hfi. unfold queued_ids, fired_ids in *.
  rewrite Hp in D, O, Hh. apply Forall_cons in Hh as [He Hh].
  destruct Hfi as [->|[-> Hd]]; cbn [fmap list_fmap] in D, O; split; cbn [cs_clock cs_now cs_scheduled cs_fired
    rc_heap_ rc_next_id_ queued_ids fired_ids]; unfold queued_ids, fired_ids; cbn [cs_clock rc_heap_ cs_fired];
    try done.
  - by apply NoDup_cons_1_2 in D.
  - by apply Forall_cons in O as [_ O].
  - cbn [fmap list_fmap fst]. by rewrite <-Permutation_middle.
  - cbn [fmap list_fmap fst]. by rewrite <-Permutation_middle.
  - constructor; [|done]. simpl. split; [done|lia].
Qed.

Lemma cstep_cinv n l s : n < 2 ^ 64 - 2 → cinv n s → cinv (n + 1) (cstep l s).
Proof.
  intros Hn K. pose proof K as [N D O Hh Hf]. destruct l as [d a|id|d| |].
  - rewrite clock_schedule_eq, wrap64_id by (unfold is_u64; lia). unfold queued_ids, fired_ids in *.
    split; unfold queued_ids, fired_ids; cbn -[Z.mul].
    + lia.
    + apply NoDup_cons. split; [|done]. intros Hin. rewrite Forall_forall in O. specialize (O _ Hin). cbn in O. lia.
    + constructor; [lia|]. eapply Forall_impl; [exact O|]. simpl. lia.
    + constructor; [by left|]. eapply Forall_impl; [exact Hh|]. simpl. by right.
    + eapply Forall_impl; [exact Hf|]. simpl. intros x [? ?]. split; [by right|done].
  - apply (cinv_weaken n); [lia|]. by split.
  - apply (cinv_weaken n); [lia|]. split; try done. eapply Forall_impl; [exact Hf|]. simpl. intros x [? ?]. split; [done|lia].
  - apply (cinv_weaken n); [lia|]. destruct (run_spec s) as [[|e rest Hp Hc|e rest Hp Hc Hd] _]; [done|..].
    + apply (cinv_pop n s e rest); auto.
    + apply (cinv_pop n s e rest); auto.
  - apply (cinv_weaken n); [lia|]. by split.
Qed.

Lemma crun_cinv ls n s :
  n + Z.of_nat (length ls) < 2 ^ 64 - 1 → cinv n s → cinv (n + Z.of_nat (length ls)) (crun ls s).
Proof.
  revert n s. induction ls as [|l ls IH]; intros n s Hn K; [by rewrite Z.add_0_r|].
  unfold crun in *. cbn [fold_left length] in *.
  replace (n + Z.of_nat (S (length ls))) with (n + 1 + Z.of_nat (length ls)) by lia.
  apply IH; [lia|]. apply cstep_cinv; [lia|done].
Qed.

(** ** Cancelled timers *)

(** [id] will not fire: it is marked, or gone for good. *)
Definition silenced (id : EventId) (s : csys) : Prop :=
  id ∉ fired_ids s ∧ (id ∈ cancelled s ∨ id ∉ queued_ids s ∧ id < next_id s).

Lemma queued_pop id s e rest :
  heap s ≡ₚ e :: rest → NoDup (queued_ids s) →
  en_id e ∉ en_id <$> rest ∧ (id ∉ queued_ids s → id ∉ en_id <$> rest).
Proof.
  intros Hp D. unfold queued_ids in *. rewrite Hp in D |- *. cbn [fmap list_fmap] in *.
  apply NoDup_cons in D as [? _]. split; [done|]. set_solver.
Qed.

Lemma cstep_silenced id n l s :
  n < 2 ^ 64 - 2 → cinv n s → silenced id s → silenced id (cstep l s).
Proof.
  intros Hn K [Hf Hs]. pose proof (ci_next n s K) as N.
  assert (NoDup (queued_ids s)) as D by (by pose proof (ci_ids n s K) as [? _]%NoDup_app).
  assert (∀ e rest, heap s ≡ₚ e :: rest → en_id e ∈ queued_ids s) as Hq.
  { intros e rest Hp. unfold queued_ids. rewrite Hp. cbn. by left. }
  destruct l as [d a|i|d| |]; [| | done | | done].
  - rewrite clock_schedule_eq, wrap64_id by (unfold is_u64; lia). split; [done|].
    destruct Hs as [Hc|[Hq' Hlt]]; [by left|right]. unfold queued_ids in *. cbn -[Z.mul] in *. split; [|lia].
    apply not_elem_of_cons. split; [lia|done].
  - split; [done|]. destruct Hs as [Hc|Hs]; [left; cbn; set_solver|by right].
  - destruct (run_spec s) as [[|e rest Hp Hc|e rest Hp Hc Hd] _]; [by split|..].
    + destruct (queued_pop id s e rest Hp D) as [He Hr]. split; [done|]. unfold queued_ids. cbn in *.
      destruct Hs as [Hs|[Hs Hlt]]; [|right; auto]. destruct (decide (id = en_id e)) as [->|]; [|left; set_solver].
      right. split; [done|]. pose proof (ci_old n s K) as [O _]%Forall_app. rewrite Forall_forall in O.
      by eapply O, Hq.
    + destruct (queued_pop id s e rest Hp D) as [He Hr]. assert (id ≠ en_id e) as Hne.
      { intros ->. destruct Hs as [?|[Hs _]]; [done|]. by eapply Hs, Hq. }
      split; [unfold fired_ids in *; cbn; set_solver|]. unfold queued_ids. cbn in *.
      destruct Hs as [?|[? ?]]; [by left|right; auto].
Qed.

Lemma crun_silenced id ls n s :
  n + Z.of_nat (length ls) < 2 ^ 64 - 1 → cinv n s → silenced id s → silenced id (crun ls s).
Proof.
  revert n s. induction ls as [|l ls IH]; intros n s Hn K Hs; [done|].
  unfold crun in *. cbn [fold_left length] in *. apply (IH (n + 1)); [lia|apply cstep_cinv; [lia|done]|].
  apply (cstep_silenced id n); [lia|done..].
Qed.

(** ** Timers that are due *)

Lemma fired_stays x ls s : x ∈ cs_fired s → x ∈ cs_fired (crun ls s).
Proof.
  revert s. induction ls as [|l ls IH]; intros s Hx; [done|]. apply IH. destruct l; [done..| |done].
  destruct (run_spec s) as [[] _]; [done|done|by right].
Qed.

Lemma due_fires e k : ∀ s,
  rc_running_ (cs_clock s) = true → en_deadline e <= cs_now s → (length (heap s) <= k)%nat →
  e ∈ heap s → NoDup (queued_ids s) → en_id e ∉ cancelled s →
  ∃ t, (e, t) ∈ cs_fired (crun (replicate k CRun) s).
Proof.
  induction k as [|k IH]; intros s Hr Hd Hk He D Hc.
  { destruct (heap s); [by apply elem_of_nil in He|simpl in Hk; lia]. }
  change (crun (replicate (S k) CRun) s) with (crun (replicate k CRun) (cstep CRun s)).
  destruct (run_spec s) as [Hcase Hlen]. specialize (Hlen Hr (ex_intro _ e (conj He Hd))).
  assert (∀ e' rest, heap s ≡ₚ e' :: rest → NoDup (en_id <$> rest) ∧ (e = e' ∨ e ∈ rest)) as Hpop.
  { intros e' rest Hp. unfold queued_ids in D. rewrite Hp in D, He. apply NoDup_cons in D as [_ D].
    by apply elem_of_cons in He. }
  destruct Hcase as [|e' rest Hp Hc'|e' rest Hp Hc' Hd']; [lia|..];
    destruct (Hpop _ _ Hp) as [D' [->|He']]; [done| | |].
  - apply IH; cbn in *; [done..|lia|done|done|set_solver].
  - exists (cs_now s). apply fired_stays. by left.
  - apply IH; cbn in *; [done..|lia|done|done|done].
Qed.

(** C31: real-time timers.  In any interleaving of [schedule], [cancel], the
    passing of time and the rounds of the timer thread: an action is posted
    only for a timer that was scheduled and not before its deadline; no timer
    is posted twice; a timer that has not been posted when it is cancelled
    never is; and while the thread runs, a timer that is due and not cancelled
    is posted after at most as many rounds as there are timers. *)
Theorem clock_contract (ls : list clabel) (Hls : Z.of_nat (length ls) < 2 ^ 63) :
  let s := crun ls csys0 in
  Forall (λ x, x.1 ∈ cs_scheduled s ∧ en_deadline x.1 <= x.2 <= cs_now s) (cs_fired s) ∧
  NoDup (fired_ids s) ∧
  (∀ id ls', id ∉ fired_ids s → Z.of_nat (length ls') < 2 ^ 63 - 2 → id ∉ fired_ids (crun (CCancel id :: ls') s)) ∧
  (∀ e k, e ∈ heap s → en_id e ∉ cancelled s → en_deadline e <= cs_now s → rc_running_ (cs_clock s) = true →
     (length (heap s) <= k)%nat → ∃ t, (e, t) ∈ cs_fired (crun (replicate k CRun) s)).
Proof.
  cbv zeta. assert (cinv (Z.of_nat (length ls)) (crun ls csys0)) as K by (apply (crun_cinv ls 0 csys0); [lia|apply cinv0]).
  generalize dependent (crun ls csys0). intros s K. pose proof (ci_ids _ _ K) as (D & _ & D')%NoDup_app.
  split_and!; [by eapply ci_fired|done| |].
  - intros id ls' Hf Hl. unfold crun. cbn [fold_left].
    eapply (crun_silenced id ls' (Z.of_nat (length ls) + 1)); [lia|apply cstep_cinv; [lia|done]|].
    split; [done|]. left. cbn. set_solver.
  - intros e k He Hc Hd Hr Hk. by apply due_fires.
Qed.
End Threads.

(** ** An execution *)

(** A queue that scans for the first least deadline. *)
Fixpoint scan_top {T} (h : list (Entry T)) : option (Entry T * list (Entry T)) :=
  match h with
  | [] => None
  | e :: h' =>
      match scan_top h' with
      | None => Some (e, [])
      | Some (m, r) => if en_deadline m <? en_deadline e then Some (m, e :: r) else Some (e, h')
      end
  end.

Lemma scan_top_ok {T} : heap_top_spec (@scan_top T).
Proof.
  intros h. induction h as [|e h IH]; [done|]. cbn [scan_top].
  destruct (scan_top h) as [[m r]|]; [|subst h; by split].
  destruct IH as [Hp Hm]. destruct (Z.ltb_spec (en_deadline m) (en_deadline e)).
  - split; [rewrite Hp; apply Permutation_swap|]. constructor; [lia|done].
  - split; [done|]. rewrite Hp. constructor; [lia|]. eapply Forall_impl; [exact Hm|]. simpl. lia.
Qed.

Lemma clock_contract_witness :
  let s := crun scan_top [CSchedule 5 10; CSchedule 3 20; CTime 4000; CRun; CTime 2000] csys0 in
  fired_ids s = [2] ∧ 1 ∉ fired_ids (crun scan_top [CCancel 1; CRun; CRun] s) ∧
  ∃ t, (mkEntry 5000 1 10, t) ∈ cs_fired (crun scan_top (replicate 1 CRun) s).
Proof.
  destruct (clock_contract scan_top scan_top_ok [CSchedule 5 10; CSchedule 3 20; CTime 4000; CRun; CTime 2000])
    as (_ & _ & H3 & H4); [vm_compute; reflexivity|].
  split; [vm_compute; reflexivity|]. split.
  - apply (H3 1 [CRun; CRun]); [|vm_compute; reflexivity]. apply (bool_decide_eq_true_1 _). vm_compute. reflexivity.
  - apply (H4 (mkEntry 5000 1 10) 1%nat).
    + vm_compute. left.
    + vm_compute. intros H. inversion H.
    + vm_compute. congruence.
    + vm_compute. reflexivity.
    + vm_compute. lia.
Defined.
