(* ===== verification/TcpTransport.v ===== *)
(** * The TCP transport: [src/server/tcp_transport.hpp/.cpp]

    The implementation of [ITransport] over sockets.  The system calls are a
    class of operations on the state [OS] of the operating system; what the
    code relies on is [SocketLaws]: [send] accepts a first part of the bytes,
    [read] returns the next bytes of the stream, both in pieces of any size.
    Diagnostics on stderr, [setsockopt] and [freeaddrinfo] are left out, and
    so are the joins of finished threads.  Received messages are posted to the
    dispatch queue as closures of the type [T]. *)

From stdpp Require Import pretty.
From S2P Require Import Prelude Codec Types Rpc Env DispatchQueue.

Record PeerAddr := mkPeerAddr { pa_host : string; pa_port : Z }.

#[export] Instance PeerAddr_eq_dec : EqDecision PeerAddr.
Proof. solve_decision. Defined.

(** ** The system calls *)
Class Sockets (OS : Type) := {
  addrinfo : Type;
  os_getaddrinfo : string → string → M OS (option addrinfo);
  os_socket : M OS Z;
  os_connect : Z → addrinfo → M OS Z;
  os_bind : Z → Z → M OS Z;
  os_listen : Z → M OS unit;
  os_accept : Z → M OS Z;
  os_send : Z → bytes → M OS Z;
  os_read : Z → Z → M OS (Z * bytes);
  os_shutdown : Z → M OS unit;
  os_close : Z → M OS unit;
}.

(** ** Big-endian integers *)

(** The bytes in memory of [htonl(v)]. *)
Definition to_be32 (v : Z) : bytes :=
  [ wrap8 (Z.shiftr v 24); wrap8 (Z.shiftr v 16); wrap8 (Z.shiftr v 8); wrap8 v ].

(** [ntohl] of the integer whose bytes in memory are [l]. *)
Definition from_be32 (l : bytes) : Z :=
  match l with
  | [a; b; c; d] => Z.lor d (Z.lor (Z.shiftl c 8) (Z.lor (Z.shiftl b 16) (Z.shiftl a 24)))
  | _ => 0
  end.

(** [64 * 1024 * 1024] *)
Definition max_payload : Z := 64 * 1024 * 1024.

(** A thread that receives from [re_fd]; [re_done] is set when it has left
    [recv_loop]. *)
Record RecvEntry := mkRecvEntry { re_fd : Z; re_done : bool }.

Record TcpTransport := mkTcpTransport {
  tp_my_id_ : NodeId;
  tp_listen_port_ : Z;
  tp_peers_ : gmap NodeId PeerAddr;
  tp_server_fd_ : Z;
  tp_send_fds_ : gmap NodeId Z;
  tp_recv_threads_ : list RecvEntry;
  tp_active_recv_fds_ : gset Z;
  tp_handler_ : option handler;
  tp_running_ : bool;
}.

Definition with_server_fd (fd : Z) (t : TcpTransport) : TcpTransport :=
  mkTcpTransport (tp_my_id_ t) (tp_listen_port_ t) (tp_peers_ t) fd (tp_send_fds_ t)
    (tp_recv_threads_ t) (tp_active_recv_fds_ t) (tp_handler_ t) (tp_running_ t).
Definition with_send_fds (f : gmap NodeId Z) (t : TcpTransport) : TcpTransport :=
  mkTcpTransport (tp_my_id_ t) (tp_listen_port_ t) (tp_peers_ t) (tp_server_fd_ t) f
    (tp_recv_threads_ t) (tp_active_recv_fds_ t) (tp_handler_ t) (tp_running_ t).
Definition with_recv (l : list RecvEntry) (a : gset Z) (t : TcpTransport) : TcpTransport :=
  mkTcpTransport (tp_my_id_ t) (tp_listen_port_ t) (tp_peers_ t) (tp_server_fd_ t) (tp_send_fds_ t)
    l a (tp_handler_ t) (tp_running_ t).
Definition with_handler (h : option handler) (t : TcpTransport) : TcpTransport :=
  mkTcpTransport (tp_my_id_ t) (tp_listen_port_ t) (tp_peers_ t) (tp_server_fd_ t) (tp_send_fds_ t)
    (tp_recv_threads_ t) (tp_active_recv_fds_ t) h (tp_running_ t).
Definition with_running (b : bool) (t : TcpTransport) : TcpTransport :=
  mkTcpTransport (tp_my_id_ t) (tp_listen_port_ t) (tp_peers_ t) (tp_server_fd_ t) (tp_send_fds_ t)
    (tp_recv_threads_ t) (tp_active_recv_fds_ t) (tp_handler_ t) b.

(** The transport, the dispatch queue it posts to and the operating system. *)
Record tstate (T OS : Type) := mkTs { tcp : TcpTransport; tdq : DispatchQueue T; tos : OS }.
Arguments mkTs {T OS} _ _ _.
Arguments tcp {T OS} _.
Arguments tdq {T OS} _.
Arguments tos {T OS} _.

Module Tcp.
Section Tcp.
Context {T OS : Type} `{Sockets OS} (deliver : handler → Message → T).
Local Abbreviation MT := (M (tstate T OS)).

Definition on_os {B} (m : M OS B) : MT B := λ s,
  let '(r, o) := m (tos s) in (r, mkTs (tcp s) (tdq s) o).
Definition on_queue {B} (m : M (DispatchQueue T) B) : MT B := λ s,
  let '(r, q) := m (tdq s) in (r, mkTs (tcp s) q (tos s)).
Definition rd_tcp {B} (f : TcpTransport → B) : MT B := gets (λ s, f (tcp s)).
Definition upd_tcp (f : TcpTransport → TcpTransport) : MT unit :=
  modify (λ s, mkTs (f (tcp s)) (tdq s) (tos s)).

(** ** Whole buffers *)

(** The loop of [write_all]: [rest] starts at [buf + written]. *)
Fixpoint write_loop (fuel : nat) (fd : Z) (rest : bytes) : M OS bool :=
  match rest, fuel with
  | [], _ => mret true
  | _, O => throw out_of_fuel
  | _, S fuel' =>
      n ← os_send fd rest;
      if n <=? 0 then mret false else write_loop fuel' fd (drop (Z.to_nat n) rest)
  end.

(** Every round writes at least a byte. *)
Definition write_all (fd : Z) (buf : bytes) : M OS bool := write_loop (length buf) fd buf.

(** The loop of [read_all]: [got] has been read; the buffer, or nothing if
    [read] fails or the stream ends. *)
Fixpoint read_loop (fuel : nat) (fd : Z) (len : nat) (got : bytes) : M OS (option bytes) :=
  if (len <=? length got)%nat then mret (Some got)
  else
    match fuel with
    | O => throw out_of_fuel
    | S fuel' =>
        '(n, data) ← os_read fd (Z.of_nat (len - length got));
        if n <=? 0 then mret None else read_loop fuel' fd len (got ++ take (Z.to_nat n) data)
    end.

Definition read_all (fd : Z) (len : nat) : M OS (option bytes) := read_loop len fd len [].

(** ** Sending *)

(** [connect] on a new socket. *)
Definition open_to (ai : addrinfo) : M OS Z :=
  fd ← os_socket;
  if fd <? 0 then mret (-1)
  else
    r ← os_connect fd ai;
    if r <? 0 then os_close fd;; mret (-1) else mret fd.

Definition connect_to (peer : NodeId) : MT Z :=
  peers ← rd_tcp tp_peers_;
  match peers !! peer with
  | None => mret (-1)
  | Some pa =>
      res ← on_os (os_getaddrinfo (pa_host pa) (pretty (pa_port pa)));
      match res with
      | None => mret (-1)
      | Some ai => on_os (open_to ai)
      end
  end.

(** The lambda [do_write]. *)
Definition do_write (from : NodeId) (payload : bytes) (wfd : Z) : M OS bool :=
  b ← write_all wfd (to_be32 (wrap32 from));
  if negb b then mret false
  else
    b ← write_all wfd (to_be32 (wrap32 (size_z payload)));
    if negb b then mret false else write_all wfd payload.

Definition send (from to : NodeId) (payload : bytes) : MT unit :=
  running ← rd_tcp tp_running_;
  if negb running then mret tt
  else
    fds ← rd_tcp tp_send_fds_;
    fd ← (match fds !! to with
         | Some fd => mret fd
         | None => connect_to to
         end : MT Z);
    if bool_decide (fds !! to = None) && (fd <? 0) then mret tt
    else
      when (bool_decide (fds !! to = None)) (upd_tcp (λ t, with_send_fds (<[to := fd]> (tp_send_fds_ t)) t));;
      ok ← on_os (do_write from payload fd);
      if negb ok then
        on_os (os_close fd);;
        upd_tcp (λ t, with_send_fds (delete to (tp_send_fds_ t)) t);;
        fd' ← connect_to to;
        if 0 <=? fd' then
          upd_tcp (λ t, with_send_fds (<[to := fd']> (tp_send_fds_ t)) t);;
          on_os (do_write from payload fd');; mret tt
        else mret tt
      else mret tt.

Definition set_handler (id : NodeId) (h : handler) : MT unit := upd_tcp (with_handler (Some h)).
Definition remove_handler (id : NodeId) : MT unit := upd_tcp (with_handler None).

(** ** Receiving *)

(** One round of the loop of [recv_loop]: whether it goes on. *)
Definition recv_round (fd : Z) : MT bool :=
  hdr ← on_os (read_all fd 8);
  match hdr with
  | None => mret false
  | Some hdr =>
      let sender_id := from_be32 (take 4 hdr) in
      let payload_len := from_be32 (drop 4 hdr) in
      if max_payload <? payload_len then mret false
      else
        payload ← on_os (read_all fd (Z.to_nat payload_len));
        match payload with
        | None => mret false
        | Some payload =>
            me ← rd_tcp tp_my_id_;
            h ← rd_tcp tp_handler_;
            match h with
            | None => mret tt
            | Some h => on_queue (Dispatch.post (deliver h (mkMessage sender_id me payload)))
            end;;
            mret true
        end
  end.

Fixpoint recv_rounds (fuel : nat) (fd : Z) : MT unit :=
  running ← rd_tcp tp_running_;
  if negb running then mret tt
  else
    match fuel with
    | O => throw out_of_fuel
    | S fuel' => b ← recv_round fd; if negb b then mret tt else recv_rounds fuel' fd
    end.

Definition recv_loop (fuel : nat) (fd : Z) : MT unit :=
  recv_rounds fuel fd;;
  upd_tcp (λ t, with_recv (tp_recv_threads_ t) (tp_active_recv_fds_ t ∖ {[fd]}) t);;
  on_os (os_close fd).

(** [ep->done.store(true)] at the end of the thread that reads [fd]. *)
Definition mark_done (fd : Z) : MT unit :=
  upd_tcp (λ t, with_recv ((λ e, if re_fd e =? fd then mkRecvEntry fd true else e) <$> tp_recv_threads_ t)
                  (tp_active_recv_fds_ t) t).

(** One round of the loop of [accept_loop]: whether it goes on. *)
Definition accept_round : MT bool :=
  srv ← rd_tcp tp_server_fd_;
  cfd ← on_os (os_accept srv);
  if cfd <? 0 then rd_tcp tp_running_
  else
    upd_tcp (λ t, with_recv (filter (λ e, re_done e = false) (tp_recv_threads_ t) ++ [mkRecvEntry cfd false])
                    ({[cfd]} ∪ tp_active_recv_fds_ t) t);;
    rd_tcp tp_running_.

(** ** Construction and destruction *)

(** The constructor: whether the accept thread is started. *)
Definition start : MT bool :=
  fd ← on_os os_socket;
  upd_tcp (with_server_fd fd);;
  if fd <? 0 then mret false
  else
    port ← rd_tcp tp_listen_port_;
    r ← on_os (os_bind fd port);
    if r <? 0 then
      on_os (os_close fd);; upd_tcp (with_server_fd (-1));; mret false
    else on_os (os_listen fd);; mret true.

Definition make (my_id : NodeId) (listen_port : Z) (peers : gmap NodeId PeerAddr) : TcpTransport :=
  mkTcpTransport my_id listen_port peers (-1) ∅ [] ∅ None true.

(** The destructor up to the last joins. *)
Definition destroy : MT unit :=
  upd_tcp (with_running false);;
  srv ← rd_tcp tp_server_fd_;
  when (0 <=? srv) (on_os (os_shutdown srv);; on_os (os_close srv);; upd_tcp (with_server_fd (-1)));;
  fds ← rd_tcp tp_send_fds_;
  for_each (merge_sort Z.le (map_to_list fds).*1) (λ id,
    match fds !! id with
    | Some fd => on_os (os_shutdown fd);; on_os (os_close fd)
    | None => mret tt
    end);;
  upd_tcp (with_send_fds ∅);;
  active ← rd_tcp tp_active_recv_fds_;
  for_each (merge_sort Z.le (elements active)) (λ fd, on_os (os_shutdown fd));;
  upd_tcp (λ t, with_recv [] (tp_active_recv_fds_ t) t).

End Tcp.
End Tcp.
