(* ===== verification/TcpFacts.v ===== *)
(** * Messages over TCP

    What [TcpTransport] guarantees over sockets that accept and return bytes
    in pieces of any size and may fail at any time: a connection carries whole
    frames, in the order they were sent, up to the first one cut off by a
    failure; and the receiver posts exactly the whole frames of the bytes that
    reach it.  What follows a frame that was cut off is another matter: if a
    failed [send] need not be the end of a connection, the transport writes the
    next frame behind the torn one ([torn_frame_misread]). *)

From S2P Require Import Prelude Codec Types Rpc Env DispatchQueue TcpTransport.

(** ** Frames *)

(** [[4: sender NodeId BE] [4: payload_len BE] [payload]] *)
Definition frame (m : NodeId * bytes) : bytes :=
  to_be32 (wrap32 m.1) ++ to_be32 (wrap32 (size_z m.2)) ++ m.2.

Lemma from_to_be32 v : is_u32 v → from_be32 (to_be32 v) = v.
Proof.
  unfold is_u32. intros Hv. cbn [to_be32 from_be32].
  rewrite !Z.shiftr_div_pow2 by lia. rewrite !wrap8_mod.
  pose proof (Z.mod_pos_bound v (2 ^ 8)). pose proof (Z.mod_pos_bound (v / 2 ^ 8) (2 ^ 8)).
  pose proof (Z.mod_pos_bound (v / 2 ^ 16) (2 ^ 8)). pose proof (Z.mod_pos_bound (v / 2 ^ 24) (2 ^ 8)).
  rewrite !Z.shiftl_mul_pow2 by lia.
  set (a := v mod 2 ^ 8) in *. set (b := (v / 2 ^ 8) mod 2 ^ 8) in *.
  set (c := (v / 2 ^ 16) mod 2 ^ 8) in *. set (d := (v / 2 ^ 24) mod 2 ^ 8) in *.
  replace (Z.lor a (Z.lor (b * 2 ^ 8) (Z.lor (c * 2 ^ 16) (d * 2 ^ 24)))) with (a + b * 2 ^ 8 + c * 2 ^ 16 + d * 2 ^ 24).
  - subst a b c d. change (2 ^ 24) with (256 * (256 * 256)). change (2 ^ 16) with (256 * 256).
    change (2 ^ 8) with 256. change (2 ^ 32) with 4294967296 in Hv. rewrite <-!Z.div_div by lia.
    pose proof (Z.div_mod v 256). pose proof (Z.div_mod (v / 256) 256). pose proof (Z.div_mod (v / 256 / 256) 256).
    rewrite (Z.mod_small (v / 256 / 256 / 256)); [lia|].
    rewrite !Z.div_div by lia. split; [apply Z.div_pos; lia|apply Z.div_lt_upper_bound; lia].
  - rewrite <-!Z.shiftl_mul_pow2 by lia.
    replace (Z.shiftl d 24) with (Z.shiftl (Z.shiftl (Z.shiftl d 8) 8) 8) by (by rewrite !Z.shiftl_shiftl by lia).
    replace (Z.shiftl c 16) with (Z.shiftl (Z.shiftl c 8) 8) by (by rewrite !Z.shiftl_shiftl by lia).
    rewrite <-!Z.shiftl_lor, !lor_shiftl_add, ?Z.shiftl_mul_pow2 by lia.
    change (2 ^ 24) with 16777216. change (2 ^ 16) with 65536. change (2 ^ 8) with 256. lia.
Qed.

Lemma length_frame m : length (frame m) = (8 + length m.2)%nat.
Proof. reflexivity. Qed.

(** ** What the code relies on *)

(** [out] is what a connection has accepted, [inc] what it has still to
    return, [fds] the open descriptors.  A connection that is [broken] stays
    so and accepts nothing more; which connections are, if any, is up to the
    system, and a [send] may fail on one that is not.  Every call returns;
    nothing is said about the sizes of the pieces, nor about when the calls
    fail. *)
Class SocketLaws (OS : Type) `{Sockets OS} := {
  out : OS → Z → bytes;
  inc : OS → Z → bytes;
  fds : OS → gset Z;
  broken : OS → Z → Prop;
  fds_nonneg fd o : fd ∈ fds o → fd < 0 → False;
  others fd o o' :=
    ∀ g, g ≠ fd → out o' g = out o g ∧ inc o' g = inc o g ∧ (broken o g → broken o' g);
  send_law fd buf o :
    buf ≠ [] → ∃ n o', os_send fd buf o = (Ok n, o') ∧ n <= size_z buf ∧
      fds o' = fds o ∧ others fd o o' ∧ inc o' fd = inc o fd ∧
      out o' fd = out o fd ++ take (Z.to_nat n) buf ∧ (broken o fd → n <= 0);
  read_law fd len o :
    0 < len → ∃ n data o', os_read fd len o = (Ok (n, data), o') ∧ n <= len ∧
      fds o' = fds o ∧ others fd o o' ∧ out o' fd = out o fd ∧ (broken o fd → broken o' fd) ∧
      (0 < n → size_z data = n ∧ inc o fd = data ++ inc o' fd);
  socket_law o :
    ∃ fd o', os_socket o = (Ok fd, o') ∧ others fd o o' ∧
      (fd < 0 → fds o' = fds o) ∧
      (0 <= fd → fd ∉ fds o ∧ fds o' = {[fd]} ∪ fds o ∧ out o' fd = []);
  connect_law fd ai o :
    ∃ r o', os_connect fd ai o = (Ok r, o') ∧ fds o' = fds o ∧ others fd o o' ∧ out o' fd = out o fd;
  close_law fd o :
    ∃ o', os_close fd o = (Ok tt, o') ∧ fds o' = fds o ∖ {[fd]} ∧ others fd o o';
  getaddrinfo_law host port o :
    ∃ r o', os_getaddrinfo host port o = (Ok r, o') ∧ fds o' = fds o ∧
      ∀ g, out o' g = out o g ∧ inc o' g = inc o g ∧ (broken o g → broken o' g);
}.

(** A failed [send] breaks its connection, as a reset by the peer does; an
    interrupted call or a lack of buffers would not. *)
Definition failures_last `{SocketLaws OS} : Prop :=
  ∀ fd buf (o : OS) n o', buf ≠ [] → os_send fd buf o = (Ok n, o') → n <= 0 → broken o' fd.

Section Buffers.
Context `{SocketLaws OS}.
Implicit Types (o : OS).

#[local] Instance others_pre fd : PreOrder (others fd).
Proof.
  split; [by intros o g|]. intros o1 o2 o3 H1 H2 g Hg.
  destruct (H2 g Hg) as (-> & -> & ?), (H1 g Hg) as (-> & -> & ?). auto.
Qed.

(** What a write does to its connection: all of it, or a part of it up to a
    failure. *)
Record written (fd : Z) (buf : bytes) (ok : bool) o o' : Prop := {
  wr_fds : fds o' = fds o;
  wr_others : others fd o o';
  wr_out : if ok then out o' fd = out o fd ++ buf
           else (failures_last → broken o' fd) ∧
                ∃ part, part `prefix_of` buf ∧ part ≠ buf ∧ out o' fd = out o fd ++ part;
  wr_broken : broken o fd → buf ≠ [] → ok = false ∧ out o' fd = out o fd;
}.

Lemma write_loop_spec fd k : ∀ buf o, (length buf <= k)%nat →
  ∃ ok o', Tcp.write_loop k fd buf o = (Ok ok, o') ∧ written fd buf ok o o'.
Proof.
  induction k as [|k IH]; intros [|b buf] o Hk; try (simpl in Hk; lia).
  1,2: eexists _, _; split; [reflexivity|]; split; [done|done|by rewrite app_nil_r|done].
  cbn [Tcp.write_loop]. set (rest := b :: buf) in *.
  destruct (send_law fd rest o) as (n & o1 & E & Hn & Hf & Ho & _ & Hout & Hb'); [done|].
  rewrite (bind_ok _ _ _ _ _ E). destruct (Z.leb_spec n 0) as [Hle|Hgt].
  - rewrite (Z2Nat.nonpos n), take_0, app_nil_r in Hout by done.
    eexists _, _. split; [reflexivity|]. split; [done|done| |done].
    split; [by intros Hfl; eapply (Hfl fd rest)|]. exists []. split_and!; [apply prefix_nil|done|by rewrite app_nil_r].
  - destruct (IH (drop (Z.to_nat n) rest) o1) as (ok & o' & E' & W).
    { rewrite length_drop. lia. }
    exists ok, o'. split; [done|]. destruct W as [Wf Wo Wout _]. split; [congruence|by etrans| |].
    + destruct ok; [rewrite Wout, Hout, <-app_assoc; by rewrite take_drop|].
      destruct Wout as [Wb (part & Hp & Hne & Wout)]. split; [done|]. exists (take (Z.to_nat n) rest ++ part).
      rewrite Wout, Hout, app_assoc. split_and!; [| |done].
      * rewrite <-(take_drop (Z.to_nat n) rest) at 2. by apply prefix_app.
      * intros Hall. apply Hne. rewrite <-(take_drop (Z.to_nat n) rest) in Hall at 2. by simplify_list_eq.
    + intros Hbr _. specialize (Hb' Hbr). lia.
Qed.

Lemma write_all_spec fd buf o :
  ∃ ok o', Tcp.write_all fd buf o = (Ok ok, o') ∧ written fd buf ok o o'.
Proof. by apply write_loop_spec. Qed.

Lemma written_app fd b1 b2 ok o o1 o2 :
  b1 ≠ [] → written fd b1 true o o1 → written fd b2 ok o1 o2 → written fd (b1 ++ b2) ok o o2.
Proof.
  intros Hne [F1 O1 W1 B1] [F2 O2 W2 B2]. split; [congruence|by etrans| |].
  - destruct ok; [by rewrite W2, W1, app_assoc|]. destruct W2 as [? (part & ? & Hp & W2)]. split; [done|].
    exists (b1 ++ part). rewrite W2, W1, app_assoc. split_and!; [by apply prefix_app| |done].
    intros Heq. by simplify_list_eq.
  - intros Hb _. by destruct (B1 Hb Hne).
Qed.

Lemma written_cut fd b1 b2 o o' : b1 ≠ [] → written fd b1 false o o' → written fd (b1 ++ b2) false o o'.
Proof.
  intros Hne [F O [? (part & Hp & Hpn & W)] B]. split; [done|done| |by intros Hb _; apply B].
  split; [done|]. exists part. split_and!; [by apply prefix_app_r| |done].
  intros ->. apply prefix_length in Hp as Hl. rewrite length_app in Hl. destruct b2 as [|x b2]; [|simpl in Hl; lia].
  by rewrite app_nil_r in Hpn.
Qed.

Lemma do_write_spec from payload fd o :
  ∃ ok o', Tcp.do_write from payload fd o = (Ok ok, o') ∧ written fd (frame (from, payload)) ok o o'.
Proof.
  unfold Tcp.do_write, frame. cbn [fst snd].
  destruct (write_all_spec fd (to_be32 (wrap32 from)) o) as (ok1 & o1 & E1 & W1).
  rewrite (bind_ok _ _ _ _ _ E1). destruct ok1; cbn [negb].
  2: { eexists _, _. split; [reflexivity|]. by apply written_cut. }
  destruct (write_all_spec fd (to_be32 (wrap32 (size_z payload))) o1) as (ok2 & o2 & E2 & W2).
  rewrite (bind_ok _ _ _ _ _ E2). destruct ok2; cbn [negb].
  2: { eexists _, _. split; [reflexivity|]. eapply written_app; [done|done|]. by apply written_cut. }
  destruct (write_all_spec fd payload o2) as (ok3 & o3 & E3 & W3).
  eexists _, _. split; [exact E3|]. eapply written_app; [done|done|]. by eapply written_app.
Qed.

(** A read returns the next bytes of the stream. *)
Lemma read_loop_spec fd len k : ∀ got o, (len <= length got + k)%nat → (length got <= len)%nat →
  ∃ r o', Tcp.read_loop k fd len got o = (Ok r, o') ∧ fds o' = fds o ∧ others fd o o' ∧
    match r with
    | Some buf => length buf = len ∧ ∃ new, buf = got ++ new ∧ inc o fd = new ++ inc o' fd
    | None => ∃ o1 n data o2, os_read fd (Z.of_nat n) o1 = (Ok data, o2) ∧ data.1 <= 0 ∧ (0 < n)%nat ∧
        ∃ new, inc o fd = new ++ inc o1 fd ∧ (length got + length new < len)%nat
    end.
Proof.
  induction k as [|k IH]; intros got o Hk Hg; cbn [Tcp.read_loop].
  { rewrite (proj2 (Nat.leb_le _ _)) by lia. eexists _, _. split_and!; [reflexivity|done|done|].
    split; [lia|]. exists []. by rewrite app_nil_r. }
  destruct (Nat.leb_spec len (length got)).
  { eexists _, _. split_and!; [reflexivity|done|done|].
    split; [lia|]. exists []. by rewrite app_nil_r. }
  destruct (read_law fd (Z.of_nat (len - length got)) o) as (n & data & o1 & E & Hn & Hf & Ho & _ & _ & Hd); [lia|].
  rewrite (bind_ok _ _ _ _ _ E). destruct (Z.leb_spec n 0) as [Hle|Hgt].
  { eexists _, _. split_and!; [reflexivity|done|done|]. eexists o, _, _, _.
    split_and!; [exact E|done|lia|]. exists []. split; [done|simpl; lia]. }
  destruct (Hd Hgt) as [Hl Hi]. unfold size_z in Hl. rewrite take_ge by lia.
  destruct (IH (got ++ data) o1) as (r & o2 & E2 & F2 & O2 & R); [rewrite length_app; lia..|].
  exists r, o2. split_and!; [done|congruence|by etrans|]. destruct r as [buf|].
  - destruct R as [Hb (new & -> & Hi2)]. split; [done|]. exists (data ++ new).
    rewrite Hi, Hi2, !app_assoc. done.
  - destruct R as (oa & m & da & ob & Ea & Hda & Hm & new & Hi2 & Hlt).
    exists oa, m, da, ob. split_and!; [done..|]. exists (data ++ new). rewrite Hi, Hi2, app_assoc. split; [done|].
    rewrite length_app in *. lia.
Qed.

Lemma read_all_spec fd len o :
  ∃ r o', Tcp.read_all fd len o = (Ok r, o') ∧ fds o' = fds o ∧ others fd o o' ∧
    match r with
    | Some buf => length buf = len ∧ inc o fd = buf ++ inc o' fd
    | None => ∃ o1 n data o2, os_read fd (Z.of_nat n) o1 = (Ok data, o2) ∧ data.1 <= 0 ∧ (0 < n)%nat ∧
        ∃ new, inc o fd = new ++ inc o1 fd ∧ (length new < len)%nat
    end.
Proof.
  destruct (read_loop_spec fd len len [] o) as (r & o' & E & F & O & R); [simpl; lia..|].
  exists r, o'. split_and!; [done..|]. destruct r as [buf|]; [|exact R].
  destruct R as [? (new & -> & ?)]. done.
Qed.

(** The calls of [read] fail only at the end of the stream. *)
Definition reads_all_there_is (fd : Z) : Prop :=
  ∀ o n data o', (0 < n)%nat → os_read fd (Z.of_nat n) o = (Ok data, o') → data.1 <= 0 → inc o fd = [].

(** Then an incomplete buffer means that the stream has ended. *)
Lemma read_all_none fd len o o' :
  reads_all_there_is fd → Tcp.read_all fd len o = (Ok None, o') → (length (inc o fd) < len)%nat.
Proof.
  intros Hr E. destruct (read_all_spec fd len o) as (r & o2 & E' & _ & _ & R). rewrite E in E'.
  injection E' as <- <-. destruct R as (o1 & n & data & o3 & Hread & Hd & Hn & new & Hi & Hlt).
  rewrite (Hr _ _ _ _ Hn Hread Hd), app_nil_r in Hi. by rewrite Hi.
Qed.
End Buffers.

(** ** Receiving *)
Section Receive.
Context {T : Type} `{SocketLaws OS} (deliver : handler → Message → T) (h : handler).
Implicit Types (s : tstate T OS) (m : NodeId * bytes).

(** What the receiver accepts. *)
Definition fits m : Prop := is_u32 m.1 ∧ size_z m.2 <= max_payload.

Definition delivery (me : NodeId) m : T := deliver h (mkMessage m.1 me m.2).

Definition listening s : Prop :=
  tp_running_ (tcp s) = true ∧ tp_handler_ (tcp s) = Some h ∧ stopped_ (tdq s) = false.

Abbreviation stream fd s := (inc (tos s) fd).

Lemma frame_header m :
  fits m → from_be32 (take 4 (take 8 (frame m))) = m.1 ∧ from_be32 (drop 4 (take 8 (frame m))) = size_z m.2.
Proof.
  intros [Hid Hlen]. unfold max_payload, size_z in *.
  change (take 4 (take 8 (frame m))) with (to_be32 (wrap32 m.1)).
  change (drop 4 (take 8 (frame m))) with (to_be32 (wrap32 (size_z m.2))). unfold size_z.
  rewrite !wrap32_id by (unfold is_u32 in *; lia). rewrite !from_to_be32 by (unfold is_u32 in *; lia). done.
Qed.

(** Two ways to cut one list at the same place. *)
Lemma app_cut {A} (a b c d : list A) : length a = length b → a ++ c `prefix_of` b ++ d → a = b ∧ c `prefix_of` d.
Proof.
  intros Hl [k Hk]. rewrite <-app_assoc in Hk. apply app_inj_1 in Hk as [-> ->]; [|done].
  split; [done|]. by eexists.
Qed.

(** A round takes one whole frame and posts it, or ends the loop. *)
Lemma recv_round_spec fd ms s :
  listening s → Forall fits ms → stream fd s `prefix_of` concat (frame <$> ms) →
  ∃ b s', Tcp.recv_round deliver fd s = (Ok b, s') ∧ tcp s' = tcp s ∧
    if b then ∃ m ms', ms = m :: ms' ∧ stream fd s = frame m ++ stream fd s' ∧
      tdq s' = mkDispatchQueue (q_ (tdq s) ++ [delivery (tp_my_id_ (tcp s)) m]) false
    else tdq s' = tdq s ∧
      (reads_all_there_is fd → ∀ m ms', ms = m :: ms' → (length (stream fd s) < length (frame m))%nat).
Proof.
  intros (Hrun & Hh & Hst) Hms Hp. destruct s as [t q o]. cbn [tcp tdq tos] in *. unfold Tcp.recv_round.
  destruct (read_all_spec fd 8 o) as (r & o1 & E & _ & _ & R).
  rewrite (bind_ok _ _ _ (mkTs t q o1) r) by (unfold Tcp.on_os; cbn [tos]; by rewrite E).
  destruct r as [hdr|].
  2: { eexists _, _. split_and!; [reflexivity|done|]. split; [done|]. intros Hr m ms' ->. cbn [tos].
       pose proof (read_all_none _ _ _ _ Hr E). rewrite length_frame. lia. }
  destruct R as [Hl Hi]. rewrite Hi in Hp |- *. destruct ms as [|m ms].
  { apply prefix_nil_inv in Hp. destruct hdr; [done|discriminate]. }
  cbn [fmap list_fmap concat] in Hp. apply Forall_cons in Hms as [Hm _].
  destruct (frame_header m Hm) as [Hid Hlen].
  assert (hdr = take 8 (frame m) ∧ inc o1 fd `prefix_of` m.2 ++ concat (frame <$> ms)) as [-> Hp1].
  { apply app_cut; [by rewrite length_take, length_frame, Hl; lia|]. rewrite app_assoc.
    change (take 8 (frame m) ++ m.2) with (frame m). exact Hp. }
  rewrite Hid, Hlen. destruct (Z.ltb_spec max_payload (size_z m.2)) as [Hbad|_]; [destruct Hm; lia|].
  unfold size_z. rewrite Nat2Z.id.
  destruct (read_all_spec fd (length m.2) o1) as (r & o2 & E2 & _ & _ & R2).
  rewrite (bind_ok _ _ _ (mkTs t q o2) r) by (unfold Tcp.on_os; cbn [tos]; by rewrite E2).
  destruct r as [pl|].
  2: { eexists _, _. split_and!; [reflexivity|done|]. split; [done|]. intros Hr m' ms' [= <- <-]. cbn [tos].
       pose proof (read_all_none _ _ _ _ Hr E2). rewrite length_app, Hl, length_frame. lia. }
  destruct R2 as [Hl2 Hi2]. rewrite Hi2 in Hp1. apply app_cut in Hp1 as [-> Hp2]; [|done].
  unfold Tcp.rd_tcp. rewrite !(bind_ok (gets _) _ _ _ _ eq_refl). cbn [tcp]. rewrite Hh.
  rewrite (bind_ok _ _ _ (mkTs t (mkDispatchQueue (q_ q ++ [delivery (tp_my_id_ t) m]) false) o2) tt).
  2: { unfold Tcp.on_queue, Dispatch.post. cbn [tdq]. rewrite (bind_ok get _ _ _ _ eq_refl).
       rewrite Hst. unfold modify. by rewrite Hst. }
  eexists _, _. split_and!; [reflexivity|done|]. exists m, ms. split_and!; [done| |done].
  cbn [tos]. rewrite Hi2, app_assoc. done.
Qed.

Lemma recv_rounds_spec fd fuel : ∀ ms s,
  listening s → Forall fits ms → stream fd s `prefix_of` concat (frame <$> ms) → (length ms < fuel)%nat →
  ∃ k rest s', Tcp.recv_rounds deliver fuel fd s = (Ok tt, s') ∧ tcp s' = tcp s ∧
    tdq s' = mkDispatchQueue (q_ (tdq s) ++ (delivery (tp_my_id_ (tcp s)) <$> take k ms)) false ∧
    stream fd s = concat (frame <$> take k ms) ++ rest ∧
    (reads_all_there_is fd → ∀ m, ms !! k = Some m → (length rest < length (frame m))%nat).
Proof.
  induction fuel as [|fuel IH]; intros ms s Hl Hms Hp Hf; [lia|]. cbn [Tcp.recv_rounds].
  pose proof Hl as (Hrun & _ & Hst).
  unfold Tcp.rd_tcp at 1. rewrite (bind_ok (gets _) _ _ _ _ eq_refl), Hrun. cbn [negb].
  destruct (recv_round_spec fd ms s Hl Hms Hp) as (b & s1 & E & Ht & R). rewrite (bind_ok _ _ _ _ _ E).
  destruct b; cbn [negb].
  - destruct R as (m & ms' & -> & Hs & Hq). cbn [fmap list_fmap concat] in Hp. rewrite Hs in Hp.
    apply app_cut in Hp as [_ Hp]; [|done]. apply Forall_cons in Hms as [Hm Hms].
    destruct (IH ms' s1) as (k & rest & s' & E' & Ht' & Hq' & Hs' & Hr').
    { unfold listening in *. rewrite Ht, Hq. naive_solver. }
    { done. } { done. } { simpl in Hf. lia. }
    exists (S k), rest, s'. split_and!; [done|congruence| | |done].
    + rewrite Hq', Hq, Ht. cbn [q_ take fmap list_fmap]. by rewrite <-app_assoc.
    + cbn [take fmap list_fmap concat]. by rewrite Hs, Hs', app_assoc.
  - destruct R as [Hq Hr]. exists 0%nat, (stream fd s), s1. split_and!; [done|done| |done|].
    + cbn. rewrite app_nil_r, Hq. destruct (tdq s); simpl in *. by rewrite Hst.
    + intros Hre m Hm. destruct ms as [|m' ms']; [done|]. injection Hm as ->. by eapply Hr.
Qed.

(** C27: receiving.  If the bytes that arrive on a connection are a first part
    of a sequence of frames, [recv_loop] posts the messages of the first [k]
    frames, unchanged and in order, whatever the sizes of the pieces [read]
    returns, and closes the connection; if [read] fails only at the end of the
    stream these are all the frames that arrived completely. *)
Theorem tcp_receives (fd : Z) (ms : list (NodeId * bytes)) (fuel : nat) (s : tstate T OS)
    (Hl : listening s) (Hfits : Forall fits ms)
    (Hstream : stream fd s `prefix_of` concat (frame <$> ms)) (Hfuel : (length ms < fuel)%nat) :
  ∃ k rest s', Tcp.recv_loop deliver fuel fd s = (Ok tt, s') ∧
    q_ (tdq s') = q_ (tdq s) ++ (delivery (tp_my_id_ (tcp s)) <$> take k ms) ∧
    stream fd s = concat (frame <$> take k ms) ++ rest ∧
    (reads_all_there_is fd → ∀ m, ms !! k = Some m → (length rest < length (frame m))%nat) ∧
    fd ∉ fds (tos s') ∧ fd ∉ tp_active_recv_fds_ (tcp s').
Proof.
  destruct (recv_rounds_spec fd fuel ms s Hl Hfits Hstream Hfuel) as (k & rest & s1 & E & Ht & Hq & Hs & Hr).
  unfold Tcp.recv_loop. rewrite (bind_ok _ _ _ _ _ E). unfold Tcp.upd_tcp.
  rewrite (bind_ok (modify _) _ _ _ tt eq_refl). unfold Tcp.on_os. cbn [tos tcp tdq].
  destruct (close_law fd (tos s1)) as (o' & -> & Hf & _).
  exists k, rest, (mkTs (with_recv (tp_recv_threads_ (tcp s1)) (tp_active_recv_fds_ (tcp s1) ∖ {[fd]}) (tcp s1)) (tdq s1) o').
  split_and!; [reflexivity|cbn [tdq]; by rewrite Hq|done|done| |].
  - cbn [tos]. rewrite Hf. set_solver.
  - cbn. set_solver.
Qed.
End Receive.

(** ** Sending *)
Section Send.
Context {T : Type} `{SocketLaws OS}.
Implicit Types (s : tstate T OS) (o : OS) (hist : list (NodeId * NodeId * bytes)).
Abbreviation conns s := (tp_send_fds_ (tcp s)).

(** The messages of [hist] to [p]: sender and payload. *)
Definition sent_to (p : NodeId) hist : list (NodeId * bytes) :=
  omap (λ x, if x.1.2 =? p then Some (x.1.1, x.2) else None) hist.

(** The connection [fd] carries messages of [hist] to [p], in order, up to the
    first one that was cut off, of which it carries the part [part]; [junk] is
    what was written after that: nothing, if a failed [send] breaks its
    connection. *)
Definition carries (p : NodeId) (fd : Z) hist o : Prop :=
  fd ∈ fds o ∧ ∃ ms part junk, out o fd = concat (frame <$> ms) ++ part ++ junk ∧ ms `sublist_of` sent_to p hist ∧
    (part = [] ∧ junk = [] ∨
     part ≠ [] ∧ (failures_last → broken o fd ∧ junk = []) ∧
     ∃ m, ms ++ [m] `sublist_of` sent_to p hist ∧ part `prefix_of` frame m ∧ part ≠ frame m).

Record wires hist s : Prop := {
  wi_carries p fd : conns s !! p = Some fd → carries p fd hist (tos s);
  wi_apart p q fd : conns s !! p = Some fd → conns s !! q = Some fd → p = q;
}.

Lemma sent_to_app p hist hist' : sent_to p (hist ++ hist') = sent_to p hist ++ sent_to p hist'.
Proof. apply omap_app. Qed.

Lemma sent_to_last p hist from payload :
  sent_to p (hist ++ [(from, p, payload)]) = sent_to p hist ++ [(from, payload)].
Proof. rewrite sent_to_app. unfold sent_to at 2. cbn. by rewrite Z.eqb_refl. Qed.

(** Nothing has happened on the open connections [X]. *)
Definition quiet (X : gset Z) o o' : Prop :=
  ∀ g, g ∈ X → g ∈ fds o' ∧ out o' g = out o g ∧ (broken o g → broken o' g).

Lemma carries_quiet p fd hist hist' o o' :
  carries p fd hist o → quiet {[fd]} o o' → carries p fd (hist ++ hist') o'.
Proof.
  intros [Hf (ms & part & junk & Ho & Hms & Hp)] Hq. destruct (Hq fd) as (Hf' & Ho' & Hb); [set_solver|].
  split; [done|]. exists ms, part, junk. rewrite Ho', sent_to_app. split_and!; [done|by apply sublist_inserts_r|].
  destruct Hp as [?|(Hne & Hfl & m & Hm & ?)]; [by left|right]. split; [done|].
  split; [naive_solver|]. exists m. split; [by apply sublist_inserts_r|done].
Qed.

Lemma carries_written p fd hist from payload o o' :
  carries p fd hist o → written fd (frame (from, payload)) true o o' →
  carries p fd (hist ++ [(from, p, payload)]) o'.
Proof.
  intros [Hf (ms & part & junk & Ho & Hms & Hp)] [Wf _ Wo Wb]. split; [by rewrite Wf|].
  rewrite sent_to_last. destruct Hp as [[-> ->]|(Hne & Hfl & m & Hm & Hpart & Hcut)].
  - exists (ms ++ [(from, payload)]), [], []. rewrite !app_nil_r in *. split_and!; [|by apply sublist_app|by left].
    rewrite Wo, Ho, fmap_app, concat_app. cbn [fmap list_fmap concat]. by rewrite (app_nil_r (frame _)).
  - exists ms, part, (junk ++ frame (from, payload)). split_and!.
    + by rewrite Wo, Ho, !app_assoc.
    + by apply sublist_inserts_r.
    + right. split; [done|]. split; [intros Hl; destruct (Hfl Hl) as [Hb _]; by destruct (Wb Hb ltac:(done))|].
      exists m. split; [by apply sublist_inserts_r|done].
Qed.

Lemma carries_fresh p fd hist from payload ok o o' :
  fd ∈ fds o → out o fd = [] → written fd (frame (from, payload)) ok o o' →
  carries p fd (hist ++ [(from, p, payload)]) o'.
Proof.
  intros Hf Ho [Wf _ Wo _]. split; [by rewrite Wf|]. rewrite Ho in Wo. rewrite sent_to_last. destruct ok.
  - exists [(from, payload)], [], []. split_and!; [cbn [fmap list_fmap concat]; by rewrite Wo, !app_nil_r| |by left].
    by apply sublist_inserts_l.
  - destruct Wo as [Hb (part & Hp & Hne & Wo)]. exists [], part, []. split_and!; [by rewrite Wo, !app_nil_r|apply sublist_nil_l|].
    destruct (decide (part = [])) as [->|Hpart]; [by left|right]. split; [done|]. split; [auto|].
    exists (from, payload). split; [by apply sublist_inserts_l|done].
Qed.

Lemma open_to_spec ai o :
  ∃ fd o', Tcp.open_to ai o = (Ok fd, o') ∧ quiet (fds o) o o' ∧
    (0 <= fd → fd ∉ fds o ∧ fd ∈ fds o' ∧ out o' fd = []).
Proof.
  unfold Tcp.open_to. destruct (socket_law o) as (fd & o1 & E1 & O1 & Hneg & Hpos).
  rewrite (bind_ok _ _ _ _ _ E1). destruct (Z.ltb_spec fd 0) as [Hlt|Hge].
  { exists (-1), o1. split_and!; [done| |lia]. intros g Hg. rewrite (Hneg Hlt). split; [done|].
    destruct (decide (g = fd)) as [->|Hne]; [|by destruct (O1 g Hne) as (-> & _ & ?)].
    exfalso. exact (fds_nonneg fd o Hg Hlt). }
  destruct (Hpos Hge) as (Hnew & Hf1 & Hout).
  destruct (connect_law fd ai o1) as (r & o2 & E2 & F2 & O2 & Out2). rewrite (bind_ok _ _ _ _ _ E2).
  assert (quiet (fds o) o o2) as Hq2.
  { intros g Hg. assert (g ≠ fd) as Hne by (by intros ->). rewrite F2, Hf1. split; [set_solver|].
    destruct (O1 g Hne) as (Ha & _ & ?), (O2 g Hne) as (Hb & _ & ?). split; [congruence|auto]. }
  destruct (Z.ltb_spec r 0).
  - destruct (close_law fd o2) as (o3 & E3 & F3 & O3). rewrite (bind_ok _ _ _ _ _ E3).
    exists (-1), o3. split_and!; [done| |lia]. intros g Hg. assert (g ≠ fd) as Hne by (by intros ->).
    destruct (Hq2 g Hg) as (? & Ha & ?), (O3 g Hne) as (Hb & _ & ?). rewrite F3. split; [set_solver|]. split; [congruence|auto].
  - exists fd, o2. split_and!; [done|done|]. intros _. rewrite F2, Hf1, Out2. split_and!; [done|set_solver|done].
Qed.

Lemma quiet_os_refl o : quiet (fds o) o o.
Proof. by intros g Hg. Qed.

Lemma quiet_os_trans X o o1 o2 : quiet X o o1 → quiet X o1 o2 → quiet X o o2.
Proof.
  intros Hq1 Hq2 g Hg. destruct (Hq2 g Hg) as (? & -> & ?), (Hq1 g Hg) as (_ & -> & ?). auto.
Qed.

Lemma connect_to_spec peer s :
  ∃ fd o', Tcp.connect_to peer s = (Ok fd, mkTs (tcp s) (tdq s) o') ∧ quiet (fds (tos s)) (tos s) o' ∧
    (0 <= fd → fd ∉ fds (tos s) ∧ fd ∈ fds o' ∧ out o' fd = []).
Proof.
  destruct s as [t q o]. unfold Tcp.connect_to, Tcp.rd_tcp. rewrite (bind_ok (gets _) _ _ _ _ eq_refl). cbn [tcp tdq tos].
  destruct (tp_peers_ t !! peer) as [pa|]; [|exists (-1), o; split_and!; [done|apply quiet_os_refl|lia]].
  destruct (getaddrinfo_law (pa_host pa) (pretty.pretty (pa_port pa)) o) as (r & o1 & E1 & F1 & V1).
  rewrite (bind_ok _ _ _ (mkTs t q o1) r) by (unfold Tcp.on_os; cbn [tos]; by rewrite E1).
  assert (quiet (fds o) o o1) as Hq1.
  { intros g Hg. rewrite F1. split; [done|]. by destruct (V1 g) as (-> & _ & ?). }
  destruct r as [ai|]; [|exists (-1), o1; split_and!; [done|done|lia]].
  destruct (open_to_spec ai o1) as (fd & o2 & E2 & Hq2 & Hfd). rewrite F1 in Hq2, Hfd.
  exists fd, o2. split_and!; [by unfold Tcp.on_os; cbn [tos]; rewrite E2|by eapply quiet_os_trans|done].
Qed.

(** The connections in use are among the open descriptors. *)
Lemma wires_open hist s p fd : wires hist s → conns s !! p = Some fd → fd ∈ fds (tos s).
Proof. intros W Hp. by destruct (wi_carries _ _ W p fd Hp). Qed.

(** Some connections are dropped, nothing happens on the others. *)
Lemma wires_quiet hist hist' s s' :
  wires hist s → conns s' ⊆ conns s →
  (∀ p fd, conns s' !! p = Some fd → quiet {[fd]} (tos s) (tos s')) → wires (hist ++ hist') s'.
Proof.
  intros W Hsub Hq. split.
  - intros p fd Hp. eapply carries_quiet; [|by eapply Hq]. apply W. by eapply lookup_weaken.
  - intros p q fd Hp Hq'. eapply (wi_apart _ _ W); by eapply lookup_weaken.
Qed.

(** A connection is added. *)
Lemma wires_insert hist hist' s t' q' o' to fd :
  wires hist s → tp_send_fds_ t' = <[to := fd]> (conns s) →
  (∀ p g, p ≠ to → conns s !! p = Some g → g ≠ fd ∧ quiet {[g]} (tos s) o') →
  carries to fd (hist ++ hist') o' → wires (hist ++ hist') (mkTs t' q' o').
Proof.
  intros W Ht Hq Hc. split; cbn [tcp tos]; rewrite Ht.
  - intros p g Hp. apply lookup_insert_Some in Hp as [[<- <-]|[Hne Hp]]; [done|].
    eapply carries_quiet; [by apply W|]. by eapply Hq.
  - intros p q g Hp Hp'. apply lookup_insert_Some in Hp as [[<- <-]|[Hne Hp]], Hp' as [[<- Hg]|[Hne' Hp']]; [done| | |].
    + by destruct (Hq q fd) as [? _].
    + subst g. by destruct (Hq p fd) as [? _].
    + by eapply (wi_apart _ _ W).
Qed.

Lemma quiet_sub X Y o o' : X ⊆ Y → quiet Y o o' → quiet X o o'.
Proof. intros Hs Hq g Hg. apply Hq. set_solver. Qed.

Lemma quiet_written fd buf ok o o' g : written fd buf ok o o' → g ∈ fds o → g ≠ fd → quiet {[g]} o o'.
Proof.
  intros [Wf Wo _ _] Hg Hne g' ->%elem_of_singleton. rewrite Wf. destruct (Wo g Hne) as (-> & _ & ?). done.
Qed.

(** The part of [send] after the connection is found: write, and after a
    failure close, reconnect and write once more. *)
Definition send_on (from to : NodeId) (payload : bytes) (fd : Z) : M (tstate T OS) unit :=
  ok ← Tcp.on_os (Tcp.do_write from payload fd);
  if negb ok then
    Tcp.on_os (os_close fd);;
    Tcp.upd_tcp (λ t, with_send_fds (delete to (tp_send_fds_ t)) t);;
    fd' ← Tcp.connect_to to;
    if 0 <=? fd' then
      Tcp.upd_tcp (λ t, with_send_fds (<[to := fd']> (tp_send_fds_ t)) t);;
      Tcp.on_os (Tcp.do_write from payload fd');; mret tt
    else mret tt
  else mret tt.

Lemma on_os_ok {B} (m : M OS B) s b o' : m (tos s) = (Ok b, o') → Tcp.on_os m s = (Ok b, mkTs (tcp s) (tdq s) o').
Proof. unfold Tcp.on_os. by intros ->. Qed.

Lemma send_on_wires hist from to payload fd s :
  wires hist s → conns s !! to = Some fd →
  ∃ s', send_on from to payload fd s = (Ok tt, s') ∧ wires (hist ++ [(from, to, payload)]) s' ∧
    tp_running_ (tcp s') = tp_running_ (tcp s).
Proof.
  intros W Hto. unfold send_on. pose proof (λ p g, wires_open _ _ p g W) as Hopen.
  assert (∀ p g, p ≠ to → conns s !! p = Some g → g ≠ fd) as Hne.
  { intros p g Hp Hg ->. apply Hp. by eapply (wi_apart _ _ W). }
  destruct (do_write_spec from payload fd (tos s)) as (ok & o1 & E1 & W1).
  rewrite (bind_ok _ _ _ _ _ (on_os_ok _ _ _ _ E1)). destruct ok; cbn [negb].
  { eexists. split_and!; [reflexivity| |done]. apply (wires_insert hist _ s _ _ _ to fd); [done|cbn [tcp]; by rewrite insert_id| |].
    - intros p g Hp Hg. split; [by eapply Hne|]. eapply quiet_written; [done|by eapply Hopen|by eapply Hne].
    - eapply carries_written; [by apply W|done]. }
  destruct (close_law fd o1) as (o2 & E2 & F2 & O2).
  rewrite (bind_ok _ _ _ _ _ (on_os_ok _ (mkTs (tcp s) (tdq s) o1) _ _ E2)).
  unfold Tcp.upd_tcp. rewrite (bind_ok (modify _) _ _ _ tt eq_refl). cbn [tcp tdq tos].
  set (s2 := mkTs (with_send_fds (delete to (conns s)) (tcp s)) (tdq s) o2).
  assert (∀ p g, p ≠ to → conns s !! p = Some g → quiet {[g]} (tos s) o2) as Hq2.
  { intros p g Hp Hg. specialize (Hne p g Hp Hg). eapply quiet_os_trans; [by eapply quiet_written, Hne; eauto|].
    intros g' ->%elem_of_singleton. rewrite F2, (wr_fds _ _ _ _ _ W1). destruct (O2 g Hne) as (-> & _ & ?).
    split; [|done]. specialize (Hopen p g Hg). set_solver. }
  assert (wires hist s2) as W2.
  { rewrite <-(app_nil_r hist). apply (wires_quiet hist [] s); [done|apply delete_subseteq|].
    intros p g Hp. change (delete to (conns s) !! p = Some g) in Hp. apply lookup_delete_Some in Hp as [Hp Hg]. by eapply Hq2. }
  destruct (connect_to_spec to s2) as (fd' & o3 & E3 & Hq3 & Hfd').
  rewrite (bind_ok _ _ _ _ _ E3). destruct (Z.leb_spec 0 fd') as [Hge|Hlt].
  2: { eexists. split_and!; [reflexivity| |done]. apply (wires_quiet hist _ s2); [done|done|].
       intros p g Hp. eapply quiet_sub; [|exact Hq3]. pose proof (wires_open _ _ p g W2 Hp). set_solver. }
  destruct (Hfd' Hge) as (Hnew & Hf3 & Hout). rewrite (bind_ok (modify _) _ _ _ tt eq_refl).
  cbn [tcp tdq tos].
  set (s3 := mkTs (with_send_fds (<[to := fd']> (tp_send_fds_ (tcp s2))) (tcp s2)) (tdq s2) o3).
  destruct (do_write_spec from payload fd' o3) as (ok & o4 & E4 & W4).
  rewrite (bind_ok _ _ s3 (mkTs (tcp s3) (tdq s3) o4) ok) by (by apply on_os_ok).
  eexists. split_and!; [reflexivity| |done]. apply (wires_insert hist _ s2 _ _ _ to fd'); [done|done| |].
  - intros p g Hp Hg. pose proof (wires_open _ _ p g W2 Hg) as Hop. assert (g ≠ fd') as Hg' by (by intros ->).
    split; [done|]. assert (quiet {[g]} (tos s2) o3) as Hqg by (eapply quiet_sub; [|exact Hq3]; set_solver).
    eapply quiet_os_trans; [exact Hqg|]. eapply quiet_written; [exact W4| |done]. by apply Hqg, elem_of_singleton.
  - by eapply carries_fresh.
Qed.

(** [send] is: find or open the connection, then [send_on]. *)
Lemma send_wires hist from to payload s :
  wires hist s → ∃ s', Tcp.send from to payload s = (Ok tt, s') ∧ wires (hist ++ [(from, to, payload)]) s'.
Proof.
  intros W. unfold Tcp.send, Tcp.rd_tcp. rewrite (bind_ok (gets _) _ _ _ _ eq_refl). cbv beta.
  assert (∀ o', quiet (fds (tos s)) (tos s) o' → wires (hist ++ [(from, to, payload)]) (mkTs (tcp s) (tdq s) o')) as Hidle.
  { intros o' Hq. apply (wires_quiet hist _ s); [done|done|]. intros p g Hp. eapply quiet_sub; [|exact Hq].
    pose proof (wires_open _ _ p g W Hp). set_solver. }
  destruct (tp_running_ (tcp s)); cbn [negb].
  2: { eexists. split; [reflexivity|]. destruct s as [t q o]. apply Hidle, quiet_os_refl. }
  rewrite (bind_ok (gets _) _ _ _ _ eq_refl). cbv beta. destruct (conns s !! to) as [fd|] eqn:Hto.
  - rewrite (bind_ok (mret fd) _ _ _ _ eq_refl), bool_decide_false by done. cbn [andb when].
    rewrite (bind_ok (mret tt) _ _ _ _ eq_refl).
    destruct (send_on_wires hist from to payload fd s W Hto) as (s' & E & W' & _). by exists s'.
  - destruct (connect_to_spec to s) as (fd & o1 & E1 & Hq & Hfd). rewrite (bind_ok _ _ _ _ _ E1).
    rewrite bool_decide_true by done. cbn [andb when]. destruct (Z.ltb_spec fd 0) as [Hlt|Hge].
    { eexists. split; [reflexivity|]. by apply Hidle. }
    destruct (Hfd Hge) as (Hnew & Hf1 & Hout). unfold Tcp.upd_tcp.
    rewrite (bind_ok (modify _) _ _ _ tt eq_refl). cbn [tcp tdq tos].
    match goal with |- context [mkTs ?t ?q ?o] => set (s1 := mkTs t q o) end.
    assert (wires hist s1) as W1.
    { rewrite <-(app_nil_r hist). apply (wires_insert hist [] s _ _ _ to fd); [done|done| |].
      - intros p g Hp Hg. pose proof (wires_open _ _ p g W Hg) as Hop. split; [by intros ->|].
        eapply quiet_sub; [|exact Hq]. set_solver.
      - split; [done|]. exists [], [], []. split_and!; [done|apply sublist_nil_l|by left]. }
    destruct (send_on_wires hist from to payload fd s1 W1) as (s' & E & W' & _); [apply lookup_insert_eq|]. by exists s'.
Qed.

Lemma sends_wires msgs hist s :
  wires hist s →
  ∃ s', for_each msgs (λ x, Tcp.send x.1.1 x.1.2 x.2) s = (Ok tt, s') ∧ wires (hist ++ msgs) s'.
Proof.
  revert hist s. induction msgs as [|[[from to] payload] msgs IH]; intros hist s W.
  { eexists. split; [reflexivity|]. by rewrite app_nil_r. }
  cbn [for_each fst snd]. destruct (send_wires hist from to payload s W) as (s1 & E & W1).
  rewrite (bind_ok _ _ _ _ _ E). destruct (IH _ _ W1) as (s' & E' & W'). exists s'. split; [done|].
  by rewrite <-app_assoc in W'.
Qed.

(** The bytes end inside a frame. *)
Definition cut_off (l : bytes) : Prop :=
  ∃ ms m part, l = concat (frame <$> ms) ++ part ∧ part ≠ [] ∧ part `prefix_of` frame m ∧ part ≠ frame m.

Lemma carries_clean p fd hist o :
  carries p fd hist o →
  ∃ clean ms, clean `prefix_of` out o fd ∧ (failures_last → clean = out o fd) ∧
    (clean = out o fd ∨ cut_off clean) ∧
    clean `prefix_of` concat (frame <$> ms) ∧ ms `sublist_of` sent_to p hist.
Proof.
  intros [_ (ms & part & junk & -> & Hms & Hp)]. exists (concat (frame <$> ms) ++ part).
  destruct Hp as [[-> ->]|(Hne & Hfl & m & Hm & Hp & Hcut)].
  - exists ms. rewrite !app_nil_r. split_and!; [done..|by left|done|done].
  - exists (ms ++ [m]). rewrite app_assoc. split_and!; [by eexists|..|done].
    + intros Hl. destruct (Hfl Hl) as [_ ->]. by rewrite app_nil_r.
    + right. by exists ms, m, part.
    + rewrite fmap_app, concat_app. apply prefix_app. cbn [fmap list_fmap concat]. by rewrite app_nil_r.
Qed.

End Send.

(** ** A small operating system

    Descriptors are numbered; [send] and [read] move at most [ty_chunk] + 1
    bytes; after [ty_budget] calls of [send] every connection breaks. *)
Record toy := mkToy {
  ty_next : nat;
  ty_closed : gset Z;
  ty_out : gmap Z bytes;
  ty_inc : gmap Z bytes;
  ty_dead : gset Z;
  ty_chunk : nat;
  ty_budget : nat;
}.

Definition toy_bytes (m : gmap Z bytes) (fd : Z) : bytes := default [] (m !! fd).
Definition toy_fds (o : toy) : gset Z := list_to_set (Z.of_nat <$> seq 0 (ty_next o)) ∖ ty_closed o.

Definition toy_send (fd : Z) (buf : bytes) : M toy Z := λ o,
  if bool_decide (fd ∈ ty_dead o) || (ty_budget o =? 0)%nat then
    (Ok (-1), mkToy (ty_next o) (ty_closed o) (ty_out o) (ty_inc o) ({[fd]} ∪ ty_dead o) (ty_chunk o) (ty_budget o))
  else
    let n := (S (ty_chunk o) `min` length buf)%nat in
    (Ok (Z.of_nat n),
     mkToy (ty_next o) (ty_closed o) (<[fd := toy_bytes (ty_out o) fd ++ take n buf]> (ty_out o)) (ty_inc o)
       (ty_dead o) (ty_chunk o) (ty_budget o - 1)).

Definition toy_read (fd : Z) (len : Z) : M toy (Z * bytes) := λ o,
  let n := (S (ty_chunk o) `min` Z.to_nat len `min` length (toy_bytes (ty_inc o) fd))%nat in
  (Ok (Z.of_nat n, take n (toy_bytes (ty_inc o) fd)),
   mkToy (ty_next o) (ty_closed o) (ty_out o) (<[fd := drop n (toy_bytes (ty_inc o) fd)]> (ty_inc o))
     (ty_dead o) (ty_chunk o) (ty_budget o)).

Definition toy_socket : M toy Z := λ o,
  (Ok (Z.of_nat (ty_next o)),
   mkToy (S (ty_next o)) (ty_closed o ∖ {[Z.of_nat (ty_next o)]}) (delete (Z.of_nat (ty_next o)) (ty_out o))
     (ty_inc o) (ty_dead o) (ty_chunk o) (ty_budget o)).

Definition toy_close (fd : Z) : M toy unit := λ o,
  (Ok tt, mkToy (ty_next o) ({[fd]} ∪ ty_closed o) (ty_out o) (ty_inc o) (ty_dead o) (ty_chunk o) (ty_budget o)).

#[local] Instance toy_Sockets : Sockets toy := {|
  addrinfo := unit;
  os_getaddrinfo _ _ := mret (Some tt);
  os_socket := toy_socket;
  os_connect _ _ := mret 0;
  os_bind _ _ := mret 0;
  os_listen _ := mret tt;
  os_accept _ := mret 9;
  os_send := toy_send;
  os_read := toy_read;
  os_shutdown _ := mret tt;
  os_close := toy_close;
|}.

Lemma toy_bytes_insert m fd b : toy_bytes (<[fd := b]> m) fd = b.
Proof. unfold toy_bytes. by rewrite lookup_insert_eq. Qed.

Lemma toy_bytes_insert_ne m fd g b : g ≠ fd → toy_bytes (<[fd := b]> m) g = toy_bytes m g.
Proof. intros. unfold toy_bytes. by rewrite lookup_insert_ne. Qed.

#[local] Instance toy_laws : SocketLaws toy.
Proof.
  refine {| out o := toy_bytes (ty_out o); inc o := toy_bytes (ty_inc o); fds := toy_fds;
            broken o fd := fd ∈ ty_dead o |}.
  - intros fd o Hfd Hneg. unfold toy_fds in Hfd. apply elem_of_difference in Hfd as [Hfd _].
    apply elem_of_list_to_set, list_elem_of_fmap in Hfd as (k & -> & _). lia.
  - intros fd buf o Hbuf. unfold os_send. cbn. unfold toy_send.
    destruct (bool_decide (fd ∈ ty_dead o) || (ty_budget o =? 0)%nat) eqn:Hd.
    + eexists _, _. split; [reflexivity|]. cbn. unfold size_z. split_and!; [lia|done| |done|by rewrite app_nil_r|lia].
      intros g Hg. split_and!; [done|done|set_solver].
    + eexists _, _. split; [reflexivity|]. cbn -[take Nat.min]. unfold size_z. apply orb_false_elim in Hd as [Hd _].
      apply bool_decide_eq_false in Hd. rewrite Nat2Z.id, toy_bytes_insert.
      assert (length buf ≠ 0)%nat by (destruct buf; [done|simpl; lia]).
      split_and!; [lia|done| |done|done|done].
      intros g Hg. split_and!; [by apply toy_bytes_insert_ne|done|done].
  - intros fd len o Hlen. unfold os_read. cbn. unfold toy_read. eexists _, _, _. split; [reflexivity|].
    cbn -[take drop Nat.min]. rewrite toy_bytes_insert. unfold size_z. rewrite length_take.
    split_and!; [lia|done| |done|done|].
    + intros g Hg. split_and!; [done|by apply toy_bytes_insert_ne|done].
    + intros _. split; [lia|]. by rewrite take_drop.
  - intros o. unfold os_socket. cbn. unfold toy_socket. eexists _, _. split; [reflexivity|]. cbn -[seq].
    split_and!; [|lia|].
    + intros g Hg. unfold toy_bytes. rewrite lookup_delete_ne by done. split_and!; [done|done|done].
    + intros _. unfold toy_fds. cbn -[seq]. split_and!.
      * rewrite elem_of_difference, elem_of_list_to_set, list_elem_of_fmap. intros [(k & Hk & Hin) _].
        apply elem_of_seq in Hin. lia.
      * rewrite seq_S, fmap_app, list_to_set_app_L. cbn -[seq].
        apply set_eq. intros x. rewrite !elem_of_union, !elem_of_difference, elem_of_union.
        destruct (decide (x = Z.of_nat (ty_next o))); set_solver.
      * unfold toy_bytes. by rewrite lookup_delete_eq.
  - intros fd ai o. eexists _, _. split; [reflexivity|]. split_and!; [done| |done]. by intros g.
  - intros fd o. eexists. split; [reflexivity|]. split_and!; [unfold toy_fds; cbn; set_solver|]. by intros g.
  - intros host port o. eexists _, _. split; [reflexivity|]. split; [done|]. by intros g.
Defined.

(** Two messages, sent in pieces of three bytes; the receiver gets all but the
    last byte, in pieces of two. *)
Definition toy_msgs : list (NodeId * NodeId * bytes) := [(1, 2, [10; 20; 30]); (1, 2, [40])].
Definition toy_sender : tstate Message toy :=
  mkTs (Tcp.make 1 7001 {[2 := mkPeerAddr "127.0.0.1" 7002]}) empty_queue (mkToy 3 ∅ ∅ ∅ ∅ 2 100).
Definition toy_receiver : tstate Message toy :=
  mkTs (with_handler (Some (HNode 2)) (Tcp.make 2 7002 ∅)) empty_queue
    (mkToy 9 ∅ ∅ {[8 := take 19 (concat (frame <$> [(1, [10; 20; 30]); (1, [40])]))]} ∅ 1 100).
Definition toy_deliver (h : handler) (m : Message) : Message := m.

Lemma tcp_receives_witness :
  ∃ k rest s', Tcp.recv_loop toy_deliver 3 8 toy_receiver = (Ok tt, s') ∧
    q_ (tdq s') = delivery toy_deliver (HNode 2) 2 <$> take k [(1, [10; 20; 30]); (1, [40])] ∧
    toy_bytes (ty_inc (tos toy_receiver)) 8 = concat (frame <$> take k [(1, [10; 20; 30]); (1, [40])]) ++ rest ∧
    q_ (tdq s') = [mkMessage 1 2 [10; 20; 30]].
Proof.
  destruct (tcp_receives toy_deliver (HNode 2) 8 [(1, [10; 20; 30]); (1, [40])] 3 toy_receiver)
    as (k & rest & s' & E & Hq & Hs & _).
  - split_and!; reflexivity.
  - repeat constructor; vm_compute; congruence.
  - exists [40]. vm_compute. reflexivity.
  - simpl. lia.
  - exists k, rest, s'. split_and!; [exact E|exact Hq|exact Hs|].
    apply (f_equal snd) in E. cbn [snd] in E. rewrite <-E. vm_compute. reflexivity.
Defined.

Lemma toy_failures_last : failures_last (OS := toy).
Proof.
  intros fd buf o n o' Hbuf. cbn. unfold toy_send. case_match; intros [= <- <-] Hn; [cbn; set_solver|].
  destruct buf; [done|]. simpl in Hn. lia.
Qed.


(** ** A failure that does not last

    The same system, in which the calls of [send] numbered in [fails] are
    interrupted: they fail and leave the connection as it is. *)
Definition flaky_send (fails : list nat) (fd : Z) (buf : bytes) : M toy Z := λ o,
  if bool_decide (ty_budget o ∈ fails) then
    (Ok (-1), mkToy (ty_next o) (ty_closed o) (ty_out o) (ty_inc o) (ty_dead o) (ty_chunk o) (ty_budget o - 1))
  else toy_send fd buf o.

Definition flaky_Sockets (fails : list nat) : Sockets toy := {|
  addrinfo := unit;
  os_getaddrinfo _ _ := mret (Some tt);
  os_socket := toy_socket;
  os_connect _ _ := mret 0;
  os_bind _ _ := mret 0;
  os_listen _ := mret tt;
  os_accept _ := mret 9;
  os_send := flaky_send fails;
  os_read := toy_read;
  os_shutdown _ := mret tt;
  os_close := toy_close;
|}.

(** The first [send] on the first connection fails, and the second one on the
    connection that replaces it: four bytes of a frame stay there, the
    connection stays in [send_fds_], and the next message goes behind them.  The
    receiver posts a message that nobody sent. *)
Definition flaky_sender : tstate Message toy :=
  mkTs (Tcp.make 1 7001 {[2 := mkPeerAddr "127.0.0.1" 7002]}) empty_queue (mkToy 3 ∅ ∅ ∅ ∅ 9 100).
Definition flaky_bytes : bytes :=
  out (tos (for_each toy_msgs (λ x, Tcp.send (H := flaky_Sockets [100; 98]%nat) x.1.1 x.1.2 x.2) flaky_sender).2) 4.

Theorem torn_frame_misread :
  let r := mkTs (with_handler (Some (HNode 2)) (Tcp.make 2 7002 ∅)) empty_queue
             (mkToy 9 ∅ ∅ {[8 := flaky_bytes]} ∅ 9 100) in
  q_ (tdq (Tcp.recv_loop toy_deliver 3 8 r).2) = [mkMessage 1 2 [0]] ∧
  (1, [0]) ∉ sent_to 2 toy_msgs.
Proof. split; [vm_compute; reflexivity|]. apply (bool_decide_eq_true_1 _). vm_compute. reflexivity. Qed.
