(* ===== verification/Server.v ===== *)
(** * The server process: [src/server/server.cpp]

    Argument parsing, the line protocol of the client port, the closures a
    request posts to the dispatch thread and what [main] derives from its
    arguments.  A connection's thread blocks on the future of each request;
    its view of the dispatch thread is a function that gives the text the
    promise is set to.  Sockets of the listener, signals and the messages on
    stderr are left out. *)

From Stdlib Require Import Ascii.
From stdpp Require Import pretty.
From S2P Require Import Prelude Codec DurableStore Types Wal KvStore RaftLog Rpc Env Node Text TcpTransport.
Open Scope string_scope.
Open Scope Z_scope.

(** ** Arguments *)

Record Args := mkArgs {
  a_id : NodeId;
  a_raft_port : Z;
  a_client_port : Z;
  a_peers : gmap NodeId PeerAddr;
  a_client_peers : gmap NodeId PeerAddr;
  a_data_dir : string;
}.

Definition no_args : Args := mkArgs 0 0 0 ∅ ∅ "".

Definition wrap16 (z : Z) : Z := z mod 2 ^ 16.
Definition colon : ascii := ascii_of_byte 58.
Definition comma : ascii := ascii_of_byte 44.

(** A token [ID:HOST:PORT], cut at its first and last colon; nothing where the
    code prints the usage and exits. *)
Definition parse_peer (token : string) : result (option (NodeId * PeerAddr)) :=
  match split_first colon token with
  | None => Ok None
  | Some (nid, rest) =>
      match split_last colon rest with
      | None => Ok None
      | Some (host, port) =>
          match stoul nid with
          | Throw e => Throw e
          | Ok i =>
              match stoul port with
              | Throw e => Throw e
              | Ok p => Ok (Some (wrap32 i, mkPeerAddr host (wrap16 p)))
              end
          end
      end
  end.

Fixpoint parse_peer_tokens (ts : list string) (m : gmap NodeId PeerAddr) : result (option (gmap NodeId PeerAddr)) :=
  match ts with
  | [] => Ok (Some m)
  | t :: ts' =>
      match parse_peer t with
      | Throw e => Throw e
      | Ok None => Ok None
      | Ok (Some (i, pa)) => parse_peer_tokens ts' (<[i := pa]> m)
      end
  end.

Definition parse_peers (val : string) (m : gmap NodeId PeerAddr) : result (option (gmap NodeId PeerAddr)) :=
  parse_peer_tokens (tokens comma val) m.

(** What an option does to the arguments. *)
Definition parse_option (key val : string) (a : Args) : result (option Args) :=
  if bool_decide (key = "--id") then
    match stoul val with
    | Throw e => Throw e
    | Ok v => Ok (Some (mkArgs (wrap32 v) (a_raft_port a) (a_client_port a) (a_peers a) (a_client_peers a) (a_data_dir a)))
    end
  else if bool_decide (key = "--raft-port") then
    match stoul val with
    | Throw e => Throw e
    | Ok v => Ok (Some (mkArgs (a_id a) (wrap16 v) (a_client_port a) (a_peers a) (a_client_peers a) (a_data_dir a)))
    end
  else if bool_decide (key = "--client-port") then
    match stoul val with
    | Throw e => Throw e
    | Ok v => Ok (Some (mkArgs (a_id a) (a_raft_port a) (wrap16 v) (a_peers a) (a_client_peers a) (a_data_dir a)))
    end
  else if bool_decide (key = "--peers") then
    match parse_peers val (a_peers a) with
    | Throw e => Throw e
    | Ok None => Ok None
    | Ok (Some m) => Ok (Some (mkArgs (a_id a) (a_raft_port a) (a_client_port a) m (a_client_peers a) (a_data_dir a)))
    end
  else if bool_decide (key = "--client-peers") then
    match parse_peers val (a_client_peers a) with
    | Throw e => Throw e
    | Ok None => Ok None
    | Ok (Some m) => Ok (Some (mkArgs (a_id a) (a_raft_port a) (a_client_port a) (a_peers a) m (a_data_dir a)))
    end
  else if bool_decide (key = "--data-dir") then
    Ok (Some (mkArgs (a_id a) (a_raft_port a) (a_client_port a) (a_peers a) (a_client_peers a) val))
  else Ok None.

(** The loop over [argv[1] ..]. *)
Fixpoint parse_loop (argv : list string) (a : Args) : result (option Args) :=
  match argv with
  | [] =>
      if (a_id a =? 0) || (a_raft_port a =? 0) || (a_client_port a =? 0) then Ok None else Ok (Some a)
  | [_] => Ok None
  | key :: val :: rest =>
      match parse_option key val a with
      | Throw e => Throw e
      | Ok None => Ok None
      | Ok (Some a') => parse_loop rest a'
      end
  end.

(** [Ok None] is [usage], which exits with 1. *)
Definition parse_args (argv : list string) : result (option Args) := parse_loop argv no_args.

(** What [main] gives to the clock and, without [--data-dir], to the node. *)
Definition peer_ids (a : Args) : list NodeId := merge_sort Z.le (map_to_list (a_peers a)).*1.
Definition clock_seed (a : Args) : Z := wrap64 (a_id a * 6364136223846793005).
Definition server_node (a : Args) : RaftNode := make_node (a_id a) (peer_ids a) default_config.

(** ** Client requests *)

Inductive request :=
| RPut (key val : string)
| RDel (key : string)
| RGet (key : string).

#[export] Instance request_eq_dec : EqDecision request.
Proof. solve_decision. Defined.


Definition not_leader_response (leader : option NodeId) (client_peers : gmap NodeId PeerAddr) : string :=
  match leader with
  | Some l =>
      match client_peers !! l with
      | Some pa => "-REDIRECT " +:+ pa_host pa +:+ ":" +:+ pretty (pa_port pa) +:+ eol
      | None => "-ERR not_leader" +:+ eol
      end
  | None => "-ERR not_leader" +:+ eol
  end.

(** The client callback given to [submit], for the text it sets. *)
Definition command_callback (r : CmdResult) : string :=
  if res_ok r then "+OK" +:+ eol else "-ERR " +:+ res_error r +:+ eol.

(** The callback given to [read_index]; [leader] is [node->leader_id()] when
    it is called. *)
Definition read_callback (leader : option NodeId) (client_peers : gmap NodeId PeerAddr)
    (success : bool) (val : option string) : string :=
  if negb success then not_leader_response leader client_peers
  else
    match val with
    | Some v => "+" +:+ v +:+ eol
    | None => "-NOT_FOUND" +:+ eol
    end.

(** The closure a request posts, with the promise [p]: the text it sets, if it
    sets the promise itself. *)
Definition serve `{NodeEnv E} (client_peers : gmap NodeId PeerAddr) (p : Z) (r : request) :
    M (nstate E) (option string) :=
  ok ← match r with
       | RPut key val => Node.submit 0 0 (CmdPut key val) (CbToken p)
       | RDel key => Node.submit 0 0 (CmdDelete key) (CbToken p)
       | RGet key => Node.read_index key p
       end;
  if negb ok then l ← rd leader_id_; mret (Some (not_leader_response l client_peers)) else mret None.

(** ** Lines *)

(** [char line[4096]] leaves room for 4095 characters. *)
Definition line_room : nat := 4095.

Definition bad_command : string := "-ERR bad_command" +:+ eol.
Definition unknown_command : string := "-ERR unknown_command" +:+ eol.

(** A line as a request, or the response to a line that is none. *)
Definition parse_line (line : string) : request + string :=
  match extract (chomp (c_str line)) with
  | None => inr unknown_command
  | Some (cmd, iss) =>
      if bool_decide (cmd = "PUT") then
        match extract iss with
        | Some (key, iss') =>
            match extract iss' with
            | Some (val, _) => inl (RPut key val)
            | None => inr bad_command
            end
        | None => inr bad_command
        end
      else if bool_decide (cmd = "DEL") then
        match extract iss with Some (key, _) => inl (RDel key) | None => inr bad_command end
      else if bool_decide (cmd = "GET") then
        match extract iss with Some (key, _) => inl (RGet key) | None => inr bad_command end
      else inr unknown_command
  end.

(** The loop of [handle_client] on the stream [f]: the requests it posts and
    what it has written to the socket at its end.  [answer n r] is the value
    of the future of its [n]-th request. *)
Fixpoint handle_client (answer : nat → request → string) (fuel : nat) (n : nat) (f : FILE) :
    result (list request * string) :=
  match fgets_file line_room f with
  | (EmptyString, f) => Ok ([], fi_out f)
  | (line, f) =>
      match fuel with
      | O => Throw out_of_fuel
      | S fuel' =>
          match parse_line line with
          | inl r =>
              match handle_client answer fuel' (S n) (fputs (c_str (answer n r)) f) with
              | Ok (rs, output) => Ok (r :: rs, output)
              | Throw e => Throw e
              end
          | inr response => handle_client answer fuel' n (fputs (c_str response) f)
          end
      end
  end.
