(* ===== verification/ServerFacts.v ===== *)
(** * The client port

    Requests written as lines are read back as the same requests and answered
    in order, as long as the client waits for each answer; lists of peers are read back as the same map; a node that does
    not lead refuses without a change of its state. *)

From Stdlib Require Import Ascii.
From stdpp Require Import pretty.
From S2P Require Import Prelude Codec DurableStore Types Wal KvStore RaftLog Rpc Env Node NodeVotes Text TcpTransport Server.
Open Scope string_scope.
Open Scope list_scope.
Open Scope Z_scope.

(** ** Lines *)

(** What a client writes, with either line end. *)
Definition line_end (crlf : bool) : string := (if crlf then String carriage_return "" else "") +:+ eol.

Definition render (crlf : bool) (r : request) : string :=
  match r with
  | RPut key val => "PUT " +:+ key +:+ " " +:+ val +:+ line_end crlf
  | RDel key => "DEL " +:+ key +:+ line_end crlf
  | RGet key => "GET " +:+ key +:+ line_end crlf
  end.

Definition not_nul (c : ascii) : bool := negb (code c =? 0).
Definition is_text (s : string) : bool := is_word s && all_chars not_nul s.

(** Keys and values are words, and the line fits the buffer. *)
Definition writable (r : request) : bool :=
  match r with
  | RPut key val => is_text key && is_text val && (String.length key + String.length val <=? 4088)%nat
  | RDel key | RGet key => is_text key && (String.length key <=? 4089)%nat
  end.

Lemma is_text_inv s : is_text s = true → is_word s = true ∧ all_chars not_nul s = true.
Proof. apply andb_prop. Qed.

Lemma text_length s t : String.length (s +:+ t) = (String.length s + String.length t)%nat.
Proof. induction s as [|c s IH]; [done|]. rewrite text_app_cons. simpl. lia. Qed.

Lemma chomp_app s t : chomp t ≠ "" → chomp (s +:+ t) = s +:+ chomp t.
Proof.
  intros Ht. induction s as [|c s IH]; [done|]. rewrite !text_app_cons. simpl. rewrite IH.
  destruct s as [|c' s]; [|done]. change ("" +:+ chomp t) with (chomp t). by destruct (chomp t).
Qed.

Lemma chomp_word crlf w : all_chars (λ c, negb (isspace c)) w = true → chomp (w +:+ line_end crlf) = w.
Proof.
  induction w as [|c w IH]; [by destruct crlf|]. rewrite text_app_cons. cbn [chomp all_chars]. intros [Hc Hw]%andb_prop.
  rewrite IH by done. destruct w; [|done].
  rewrite !bool_decide_false; [done|intros ->; vm_compute in Hc; discriminate..].
Qed.

Lemma fgets_line n s t :
  all_chars (λ c, negb (bool_decide (c = newline))) s = true → (String.length s < n)%nat →
  fgets n (s +:+ String newline t) = (s +:+ eol, t).
Proof.
  revert n. induction s as [|c s IH]; intros [|n] Hs Hn; try (simpl in Hn; lia).
  - change ("" +:+ String newline t) with (String newline t). done.
  - rewrite text_app_cons. cbn [fgets all_chars String.length] in *. apply andb_prop in Hs as [Hc Hs].
    apply negb_true_iff in Hc. rewrite Hc.
    rewrite IH by (done || lia). done.
Qed.

(** What the parts of a line are made of. *)
Lemma word_no_newline s : is_word s = true → all_chars (λ c, negb (bool_decide (c = newline))) s = true.
Proof.
  intros [_ Hs]%is_word_inv. revert Hs. apply all_chars_impl. intros c Hc. case_bool_decide as E; [|done].
  subst c. by vm_compute in Hc.
Qed.

Lemma c_str_id s : all_chars not_nul s = true → c_str s = s.
Proof. intros Hs. unfold c_str. by rewrite break_at_all. Qed.

Lemma word_line w crlf : is_word w = true → chomp (w +:+ line_end crlf) = w ∧ w ≠ "".
Proof. intros [Hne Hs]%is_word_inv. split; [by apply chomp_word|done]. Qed.

(** A line before its end, without newline. *)
Definition body (crlf : bool) (r : request) : string :=
  let e := if crlf then String carriage_return "" else "" in
  match r with
  | RPut key val => "PUT " +:+ key +:+ " " +:+ val +:+ e
  | RDel key => "DEL " +:+ key +:+ e
  | RGet key => "GET " +:+ key +:+ e
  end.

Lemma render_body crlf r t : render crlf r +:+ t = body crlf r +:+ String newline t.
Proof. destruct r, crlf; unfold render, body, line_end, eol; by rewrite !text_app_assoc. Qed.

Lemma body_eol crlf r : body crlf r +:+ eol = render crlf r.
Proof. pose proof (render_body crlf r "") as H. rewrite text_app_nil in H. by rewrite H. Qed.

Lemma body_ok crlf r :
  writable r = true →
  all_chars (λ c, negb (bool_decide (c = newline))) (body crlf r) = true ∧ (String.length (body crlf r) < line_room)%nat ∧
  all_chars not_nul (render crlf r) = true.
Proof.
  assert (∀ s, is_text s = true → all_chars (λ c, negb (bool_decide (c = newline))) s = true ∧ all_chars not_nul s = true) as Ht.
  { intros s [Hw Hn]%is_text_inv. split; [by apply word_no_newline|done]. }
  assert (String.length (if crlf then String carriage_return "" else "") <= 1)%nat by (destruct crlf; simpl; lia).
  unfold line_room. destruct r as [key val|key|key]; cbn [writable]; intros Hw.
  1: apply andb_prop in Hw as [[Hk Hv]%andb_prop Hl].
  2,3: apply andb_prop in Hw as [Hk Hl].
  all: apply Nat.leb_le in Hl; destruct (Ht key Hk) as [Hk1 Hk2].
  1: destruct (Ht val Hv) as [Hv1 Hv2].
  all: unfold body, render, line_end; rewrite !all_chars_app, ?text_length, ?Hk1, ?Hk2, ?Hv1, ?Hv2.
  all: split_and!; [destruct crlf; vm_compute; reflexivity|cbn [String.length]; lia|destruct crlf; vm_compute; reflexivity].
Qed.

Lemma parse_render crlf r : writable r = true → parse_line (render crlf r) = inl r.
Proof.
  intros Hw. destruct (body_ok crlf r Hw) as (_ & _ & Hn). unfold parse_line. rewrite c_str_id by done. clear Hn.
  assert (isspace " " = true) as Hsp by done.
  assert (∀ a b : string, a +:+ " " +:+ b = a +:+ String " " b) as Hcons by done.
  destruct r as [key val|key|key]; cbn [writable] in Hw; unfold render.
  - apply andb_prop in Hw as [[[Hk _]%is_text_inv [Hv _]%is_text_inv]%andb_prop _].
    destruct (word_line val crlf Hv) as [Hc Hne].
    assert (chomp (" " +:+ val +:+ line_end crlf) = " " +:+ val) as Hc1 by (rewrite chomp_app; by rewrite Hc).
    assert (chomp (key +:+ " " +:+ val +:+ line_end crlf) = key +:+ " " +:+ val) as Hc2 by (rewrite chomp_app; by rewrite Hc1).
    rewrite chomp_app, Hc2 by (rewrite Hc2; by destruct key).
    change ("PUT " +:+ key +:+ " " +:+ val) with ("PUT" +:+ String " " (key +:+ " " +:+ val)).
    rewrite (extract_word "PUT") by done. cbv beta iota. rewrite bool_decide_true by done.
    rewrite extract_space, Hcons, extract_word, extract_space, extract_last by done. done.
  - apply andb_prop in Hw as [[Hk _]%is_text_inv _]. destruct (word_line key crlf Hk) as [Hc Hne].
    rewrite chomp_app, Hc by (by rewrite Hc). change ("DEL " +:+ key) with ("DEL" +:+ String " " key).
    rewrite (extract_word "DEL") by done. cbv beta iota. rewrite bool_decide_false, bool_decide_true by done.
    by rewrite extract_space, extract_last.
  - apply andb_prop in Hw as [[Hk _]%is_text_inv _]. destruct (word_line key crlf Hk) as [Hc Hne].
    rewrite chomp_app, Hc by (by rewrite Hc). change ("GET " +:+ key) with ("GET" +:+ String " " key).
    rewrite (extract_word "GET") by done. cbv beta iota. rewrite !bool_decide_false, bool_decide_true by done.
    by rewrite extract_space, extract_last.
Qed.

(** The texts one after the other. *)
Fixpoint join (l : list string) : string :=
  match l with
  | [] => ""
  | s :: l' => s +:+ join l'
  end.

(** ** The stream of a connection *)

Lemma ends_eol n s : (String.length s < n)%nat → ends_line n (s +:+ eol) = true.
Proof.
  revert n. induction s as [|c s IH]; intros [|n] Hn; simpl in Hn; try lia; [done|].
  rewrite text_app_cons. cbn [ends_line]. rewrite IH by lia. apply orb_true_r.
Qed.

Lemma fgets_part n s :
  all_chars (λ c, negb (bool_decide (c = newline))) s = true → (String.length s < n)%nat →
  fgets n s = (s, "") ∧ ends_line n s = false.
Proof.
  revert n. induction s as [|c s IH]; intros [|n] Hs Hn; simpl in Hn; try lia; [done|].
  cbn [fgets ends_line all_chars] in *. apply andb_prop in Hs as [Hc%negb_true_iff Hs]. rewrite Hc.
  by destruct (IH n Hs ltac:(lia)) as [-> ->].
Qed.

Lemma line_suffix a t s : a +:+ t = s +:+ eol → t ≠ "" → ∃ s', s = a +:+ s' ∧ t = s' +:+ eol.
Proof.
  intros E Ht. revert s E. induction a as [|c a IH]; intros s E; [by exists s|]. rewrite text_app_cons in E.
  destruct s as [|c' s].
  - change ("" +:+ eol) with eol in E. injection E as _ E. exfalso. apply Ht. by destruct a.
  - rewrite text_app_cons in E. injection E as -> E. destruct (IH s E) as (s' & -> & ->). by exists s'.
Qed.

Lemma gets_whole n s t reads :
  all_chars (λ c, negb (bool_decide (c = newline))) s = true → (String.length s < n)%nat →
  gets_line n (s +:+ String newline t) reads = (s +:+ eol, (t, reads)).
Proof.
  intros Hs Hn. destruct reads; cbn [gets_line]; rewrite fgets_line by done; by rewrite ends_eol.
Qed.

(** A line that arrives in pieces, the last of which ends with the line. *)
Definition arrives (pieces : list string) (text : string) : Prop :=
  Forall (λ s, s ≠ "") pieces ∧ join pieces = text.

Lemma gets_pieces n buf pieces more s :
  all_chars (λ c, negb (bool_decide (c = newline))) s = true → (String.length s < n)%nat →
  Forall (λ s, s ≠ "") pieces → buf +:+ join pieces = s +:+ eol →
  gets_line n buf (pieces ++ more) = (s +:+ eol, ("", more)).
Proof.
  intros Hs Hn Hp. revert n buf s Hs Hn. induction Hp as [|x pieces Hx Hp IH]; intros n buf s Hs Hn E.
  - cbn [join] in E. rewrite text_app_nil in E. subst buf. cbn [app].
    by apply (gets_whole n s "" more).
  - cbn [join] in E. destruct (line_suffix buf _ s E) as (s' & -> & E'); [by destruct x|].
    rewrite all_chars_app in Hs. apply andb_prop in Hs as [Hb Hs']. rewrite text_length in Hn.
    cbn [app gets_line]. destruct (fgets_part n buf Hb ltac:(lia)) as [-> ->].
    destruct x as [|c x]; [done|]. rewrite (IH _ _ s') by (done || lia). by rewrite text_app_assoc.
Qed.

Lemma fgets_pieces crlf r pieces more out :
  writable r = true → arrives pieces (render crlf r) →
  fgets_file line_room (mkFILE "" (pieces ++ more) out false) = (render crlf r, mkFILE "" more out false).
Proof.
  intros Hr [Hp Hj]. destruct (body_ok crlf r Hr) as (Hnl & Hlen & _). unfold fgets_file. cbn [fi_stuck fi_buf fi_reads fi_out].
  rewrite (gets_pieces _ _ _ _ (body crlf r)); [by rewrite body_eol|done..|]. by rewrite body_eol.
Qed.

(** A line that is read together with what follows it. *)
Lemma fgets_ahead crlf r more reads out :
  writable r = true →
  fgets_file line_room (mkFILE "" ((render crlf r +:+ more) :: reads) out false) =
    (render crlf r, mkFILE more reads out false).
Proof.
  intros Hr. destruct (body_ok crlf r Hr) as (Hnl & Hlen & _). unfold fgets_file. cbn [fi_stuck fi_buf fi_reads fi_out].
  rewrite render_body. destruct (body crlf r +:+ String newline more) as [|c x] eqn:E; [by destruct (body crlf r)|].
  cbn [gets_line]. destruct (fgets_part line_room "" eq_refl ltac:(cbn [String.length]; lia)) as [-> ->]. rewrite Nat.sub_0_r, <-E.
  rewrite gets_whole by done. cbv beta iota. by rewrite body_eol.
Qed.

Lemma fputs_unread t more reads out :
  (0 < String.length t < io_buffer)%nat → more ≠ "" →
  fputs t (mkFILE more reads out false) = mkFILE "" reads out true.
Proof.
  intros Ht Hm. unfold fputs. destruct t as [|c t]; [simpl in Ht; lia|]. cbn [fi_stuck fi_buf fi_reads fi_out].
  destruct more; [done|]. by destruct (Nat.leb_spec io_buffer (String.length (String c t))); [lia|].
Qed.

(** Lines that arrive one by one are served and answered one by one, and leave
    the stream as it was. *)
Lemma handle_lines answer crlf rs pieces reads n fuel out :
  Forall (λ r, writable r = true) rs → Forall2 (λ ps r, arrives ps (render crlf r)) pieces rs →
  handle_client answer (length rs + fuel) n (mkFILE "" (mjoin pieces ++ reads) out false) =
    match handle_client answer fuel (n + length rs) (mkFILE "" reads
            (out +:+ join (imap (λ i r, c_str (answer (n + i)%nat r)) rs)) false) with
    | Ok (rs', output) => Ok (rs ++ rs', output)
    | Throw e => Throw e
    end.
Proof.
  intros Hrs Hps. revert n out. induction Hps as [|ps r pieces rs Hp Hps IH]; intros n out.
  - cbn [length imap join mjoin]. rewrite Nat.add_0_r, text_app_nil. by destruct (handle_client _ _ _ _) as [[? ?]|?].
  - apply Forall_cons in Hrs as [Hr Hrs]. cbn [length Nat.add handle_client mjoin list_join]. rewrite <-app_assoc.
    rewrite (fgets_pieces crlf r) by done. destruct (render crlf r) as [|c l] eqn:El; [by destruct r|]. rewrite <-El.
    rewrite parse_render by done.
    assert (∀ t, fputs t (mkFILE "" (mjoin pieces ++ reads) out false) = mkFILE "" (mjoin pieces ++ reads) (out +:+ t) false) as Hput.
    { intros [|c' t]; [|done]. by rewrite text_app_nil. }
    rewrite Hput, IH by done. rewrite Nat.add_succ_r. cbn [imap join]. rewrite Nat.add_0_r, text_app_assoc.
    replace (imap ((λ i r0, c_str (answer (n + i)%nat r0)) ∘ S) rs) with (imap (λ i r0, c_str (answer (S n + i)%nat r0)) rs).
    2: { apply imap_ext. intros i x _. simpl. by rewrite Nat.add_succ_r. }
    cbn [Nat.add]. by destruct (handle_client _ _ _ _) as [[? ?]|?].
Qed.

(** C35: a client's session.  A client that writes requests, one per line with
    either line end, and sends the next line only after the answer to the last
    (so that no [read] of the server returns more than the end of one line,
    however the lines are cut into pieces), gets them served one by one in the
    order written, each exactly as written, and the server writes the answers
    in the same order and nothing else. *)
Theorem client_session (answer : nat → request → string) (crlf : bool) (rs : list request)
    (pieces : list (list string)) (n fuel : nat)
    (Hrs : Forall (λ r, writable r = true) rs) (Hpieces : Forall2 (λ ps r, arrives ps (render crlf r)) pieces rs)
    (Hfuel : (length rs <= fuel)%nat) :
  handle_client answer fuel n (fdopen (mjoin pieces)) =
    Ok (rs, join (imap (λ i r, c_str (answer (n + i)%nat r)) rs)).
Proof.
  replace fuel with (length rs + (fuel - length rs))%nat by lia. unfold fdopen.
  rewrite <-(app_nil_r (mjoin pieces)), handle_lines with (crlf := crlf) by done.
  assert (∀ k m out, handle_client answer k m (mkFILE "" [] out false) = Ok ([], out)) as -> by by intros [].
  by rewrite app_nil_r.
Qed.

Lemma client_session_witness :
  handle_client (λ i r, if bool_decide (r = RGet "a") then "+7" +:+ eol else "+OK" +:+ eol) 5 0
    (fdopen ["PU"; "T a 7" +:+ line_end true; "GET a" +:+ line_end true; "DEL a"; line_end true]) =
    Ok ([RPut "a" "7"; RGet "a"; RDel "a"], "+OK" +:+ eol +:+ "+7" +:+ eol +:+ "+OK" +:+ eol).
Proof.
  pose proof (client_session (λ i r, if bool_decide (r = RGet "a") then "+7" +:+ eol else "+OK" +:+ eol) true
    [RPut "a" "7"; RGet "a"; RDel "a"]
    [["PU"; "T a 7" +:+ line_end true]; ["GET a" +:+ line_end true]; ["DEL a"; line_end true]] 0 5) as H.
  cbn [mjoin list_join app] in H. rewrite H.
  - vm_compute. reflexivity.
  - repeat constructor.
  - repeat constructor; done.
  - simpl. lia.
Defined.



(** ** Numbers *)

Lemma pretty_go_value x : ∀ s, digits_value (pretty_N_go x s) 0 = digits_value s (Z.of_N x) ∧
  all_chars is_digit (pretty_N_go x s) = all_chars is_digit s.
Proof.
  induction (N.lt_wf_0 x) as [x _ IH]; intros s. assert (x = 0 ∨ 0 < x)%N as [->|Hx] by lia; [by rewrite pretty_N_go_0|].
  rewrite pretty_N_go_step by done. destruct (IH (x `div` 10)%N (N.div_lt x 10 Hx eq_refl) (String (pretty_N_char (x `mod` 10)) s)) as [-> ->].
  assert (is_digit (pretty_N_char (x `mod` 10)) = true ∧ code (pretty_N_char (x `mod` 10)) = 48 + Z.of_N (x `mod` 10)) as [Hd Hc].
  { pose proof (N.mod_lt x 10 ltac:(done)) as Hlt. set (d := (x `mod` 10)%N) in *. clearbody d.
    assert (d ∈ (N.of_nat <$> seq 0 10)) as Hin.
    { apply list_elem_of_fmap. exists (N.to_nat d). rewrite N2Nat.id. split; [done|]. apply elem_of_seq. lia. }
    cbn in Hin. repeat (apply elem_of_cons in Hin as [->|Hin]; [vm_compute; split; reflexivity|]). by apply elem_of_nil in Hin. }
  cbn [digits_value all_chars]. rewrite Hd, Hc. split; [|done]. f_equal. rewrite N2Z.inj_div, N2Z.inj_mod.
  pose proof (Z.div_mod (Z.of_N x) 10 ltac:(lia)). lia.
Qed.

Lemma pretty_Z_value z :
  0 <= z → digits_value (pretty z) 0 = z ∧ all_chars is_digit (pretty z) = true ∧ pretty z ≠ "".
Proof.
  intros Hz. destruct z as [|p|p]; [done| |lia]. change (pretty (Z.pos p)) with (pretty_N_go (N.pos p) "").
  destruct (pretty_go_value (N.pos p) "") as [Hv Hd]. split_and!; [done|done|]. intros E. rewrite E in Hv. done.
Qed.

(** A digit is no white space, sign, colon or comma. *)
Lemma digit_plain c : is_digit c = true →
  isspace c = false ∧ code c =? 45 = false ∧ code c =? 43 = false ∧ c ≠ colon ∧ c ≠ comma.
Proof.
  unfold is_digit, isspace. intros [?%Z.leb_le ?%Z.leb_le]%andb_prop.
  split_and!; [|apply Z.eqb_neq; lia|apply Z.eqb_neq; lia|by intros ->|by intros ->].
  apply orb_false_intro; [apply Z.eqb_neq; lia|]. apply andb_false_intro2, Z.leb_gt. lia.
Qed.

Lemma stoul_pretty z : is_u64 z → stoul (pretty z) = Ok z.
Proof.
  intros Hz. destruct (pretty_Z_value z) as (Hv & Hd & Hne); [apply Hz|]. unfold stoul.
  destruct (pretty z) as [|c s]; [done|]. cbn [all_chars] in Hd. apply andb_prop in Hd as [Hc _].
  destruct (digit_plain c Hc) as (H1 & H2 & H3 & _). cbn [skip_ws]. rewrite H1, H2, H3.
  unfold stoul_digits. rewrite Hc, Hv. unfold is_u64, UINT64_MAX in *.
  destruct (Z.ltb_spec (2 ^ 64 - 1) z); [lia|done].
Qed.

(** ** Lists of peers *)

Definition render_peer (x : NodeId * PeerAddr) : string :=
  pretty x.1 +:+ String colon (pa_host x.2 +:+ String colon (pretty (pa_port x.2))).

Fixpoint render_peers (l : list (NodeId * PeerAddr)) : string :=
  match l with
  | [] => ""
  | [x] => render_peer x
  | x :: l' => render_peer x +:+ String comma (render_peers l')
  end.

Definition avoids (c : ascii) (s : string) : bool := all_chars (λ x, negb (bool_decide (x = c))) s.

(** What can be written as an option's value: the host may hold colons. *)
Definition peer_ok (x : NodeId * PeerAddr) : Prop :=
  is_u32 x.1 ∧ 0 <= pa_port x.2 < 2 ^ 16 ∧ avoids comma (pa_host x.2) = true.

Lemma digits_avoid c s : c = colon ∨ c = comma → all_chars is_digit s = true → avoids c s = true.
Proof.
  intros Hc. apply all_chars_impl. intros x Hx. destruct (digit_plain x Hx) as (_ & _ & _ & ? & ?).
  rewrite bool_decide_false; [done|]. destruct Hc as [->| ->]; congruence.
Qed.

Lemma split_first_app c s t : avoids c s = true → split_first c (s +:+ String c t) = Some (s, t).
Proof.
  intros Hs. unfold split_first. rewrite break_at_app by done. cbn [break_at]. rewrite bool_decide_true by done.
  by rewrite text_app_nil.
Qed.

Lemma split_last_none c t : avoids c t = true → split_last c t = None.
Proof.
  unfold avoids. induction t as [|x t IH]; [done|]. cbn [split_last all_chars]. intros [Hx Ht]%andb_prop. rewrite IH by done.
  apply negb_true_iff in Hx. by rewrite Hx.
Qed.

Lemma split_last_app c s t : avoids c t = true → split_last c (s +:+ String c t) = Some (s, t).
Proof.
  intros Ht. induction s as [|x s IH].
  - change ("" +:+ String c t) with (String c t). cbn [split_last]. by rewrite split_last_none, bool_decide_true.
  - rewrite text_app_cons. cbn [split_last]. by rewrite IH.
Qed.

Lemma parse_render_peer x : peer_ok x → parse_peer (render_peer x) = Ok (Some x).
Proof.
  intros (Hid & Hport & _). destruct x as [i [host port]]. cbn [fst snd pa_host pa_port] in *. unfold is_u32 in Hid.
  destruct (pretty_Z_value i) as (_ & Hi & _); [lia|]. destruct (pretty_Z_value port) as (_ & Hp & _); [lia|].
  unfold parse_peer, render_peer. cbn [fst snd pa_host pa_port].
  rewrite split_first_app by (apply digits_avoid; auto). rewrite split_last_app by (apply digits_avoid; auto).
  rewrite !stoul_pretty by (unfold is_u64; lia). rewrite wrap32_id by done. unfold wrap16. by rewrite Z.mod_small.
Qed.

Lemma render_peer_avoids x : peer_ok x → avoids comma (render_peer x) = true ∧ render_peer x ≠ "".
Proof.
  intros (Hid & Hport & Hh). destruct x as [i [host port]]. cbn [fst snd pa_host pa_port] in *. unfold is_u32 in Hid.
  destruct (pretty_Z_value i) as (_ & Hi & Hne); [lia|]. destruct (pretty_Z_value port) as (_ & Hp & _); [lia|].
  unfold render_peer. cbn [fst snd pa_host pa_port]. split.
  - pose proof (digits_avoid comma _ (or_intror eq_refl) Hi) as A1. pose proof (digits_avoid comma _ (or_intror eq_refl) Hp) as A2.
    unfold avoids in *. rewrite all_chars_app. cbn [all_chars]. rewrite all_chars_app. cbn [all_chars]. by rewrite A1, A2, Hh.
  - by destruct (pretty i).
Qed.

Lemma tokens_peers l k : Forall peer_ok l → (length l <= k)%nat → getlines k comma (render_peers l) = render_peer <$> l.
Proof.
  intros Hl. revert k. induction Hl as [|x l Hx Hl IH]; intros k Hk; [by destruct k|].
  destruct k as [|k]; [simpl in Hk; lia|]. destruct (render_peer_avoids x Hx) as [Ha Hne]. destruct l as [|y l].
  - cbn [render_peers fmap list_fmap getlines]. rewrite break_at_all by done. by destruct (render_peer x).
  - change (render_peers (x :: y :: l)) with (render_peer x +:+ String comma (render_peers (y :: l))).
    change (render_peer <$> x :: y :: l) with (render_peer x :: (render_peer <$> y :: l)).
    rewrite <-(IH k) by (simpl in *; lia).
    destruct (render_peer x) as [|c s] eqn:E; [done|]. rewrite text_app_cons. cbn [getlines]. rewrite <-text_app_cons.
    rewrite break_at_app by done. cbn [break_at]. rewrite bool_decide_true by done. by rewrite text_app_nil.
Qed.

Lemma render_peers_length l : Forall peer_ok l → (length l <= String.length (render_peers l))%nat.
Proof.
  induction 1 as [|x l Hx Hl IH]; [done|]. destruct (render_peer_avoids x Hx) as [_ Hne].
  assert (0 < String.length (render_peer x))%nat by (destruct (render_peer x); [done|simpl; lia]).
  destruct l as [|y l]; [cbn [render_peers length]; lia|].
  change (render_peers (x :: y :: l)) with (render_peer x +:+ String comma (render_peers (y :: l))).
  rewrite text_length. cbn [String.length length] in *. lia.
Qed.

Lemma parse_tokens_fold l m :
  Forall peer_ok l → parse_peer_tokens (render_peer <$> l) m = Ok (Some (foldl (λ m x, <[x.1 := x.2]> m) m l)).
Proof.
  intros Hl. revert m. induction Hl as [|x l Hx Hl IH]; intros m; [done|]. cbn [fmap list_fmap parse_peer_tokens foldl].
  rewrite parse_render_peer by done. destruct x as [i pa]. apply IH.
Qed.

(** Peers on the command line.  A map of peers written as the value of
    [--peers] ([ID:HOST:PORT] separated by commas) is parsed back to the same
    map; the host may be any text without comma, colons included. *)
Theorem peers_roundtrip (m : gmap NodeId PeerAddr) (Hm : Forall peer_ok (map_to_list m)) :
  parse_peers (render_peers (map_to_list m)) ∅ = Ok (Some m).
Proof.
  unfold parse_peers, tokens. rewrite tokens_peers by (done || (pose proof (render_peers_length _ Hm); lia)).
  rewrite parse_tokens_fold by done. do 2 f_equal. rewrite <-(list_to_map_to_list m) at 2.
  assert (∀ l : list (NodeId * PeerAddr), foldl (λ m x, <[x.1 := x.2]> m) ∅ l = list_to_map (reverse l)) as ->.
  { intros l. induction l as [|x l IH] using rev_ind; [done|].
    rewrite foldl_app, IH, reverse_app. cbn. by destruct x. }
  symmetry. apply list_to_map_proper; [apply NoDup_fst_map_to_list|]. by rewrite reverse_Permutation.
Qed.

Lemma peers_roundtrip_witness :
  parse_peers "3:fe80::1:7003,2:127.0.0.1:7002" ∅ =
    Ok (Some (<[2 := mkPeerAddr "127.0.0.1" 7002]> (<[3 := mkPeerAddr "fe80::1" 7003]> ∅))).
Proof.
  set (m := <[2 := mkPeerAddr "127.0.0.1" 7002]> (<[3 := mkPeerAddr "fe80::1" 7003]> (∅ : gmap NodeId PeerAddr))).
  pose proof (peers_roundtrip m) as H.
  assert (map_to_list m = [(3, mkPeerAddr "fe80::1" 7003); (2, mkPeerAddr "127.0.0.1" 7002)]) as E by (vm_compute; reflexivity).
  rewrite E in H. apply H.
  apply Forall_cons; split; [|apply Forall_cons; split; [|apply Forall_nil; exact I]].
  all: unfold peer_ok, is_u32; cbn [fst snd pa_port pa_host]; split; [lia|split; [lia|reflexivity]].
Defined.

(** ** Requests at a node that does not lead *)

(** The promise is set at once, with the leader's address if it is known, and
    nothing else happens. *)
Lemma serve_refused `{NodeEnv E} client_peers p r (x : nstate E) :
  running_ (nd x) = false ∨ role_ (nd x) ≠ Leader →
  serve client_peers p r x = (Ok (Some (not_leader_response (leader_id_ (nd x)) client_peers)), x).
Proof.
  intros Hn. unfold serve.
  assert (∀ cmd, Node.submit 0 0 cmd (CbToken p) x = (Ok false, x)) as Hs.
  { intros cmd. unfold Node.submit, Node.this. rewrite bind_rd.
    replace (negb (running_ (nd x)) || negb (bool_decide (role_ (nd x) = Leader))) with true; [done|].
    destruct Hn as [->|Hn]; [done|]. by rewrite bool_decide_false, orb_true_r. }
  assert (∀ key, Node.read_index key p x = (Ok false, x)) as Hg.
  { intros key. unfold Node.read_index, Node.this. rewrite bind_rd.
    replace (negb (running_ (nd x)) || negb (bool_decide (role_ (nd x) = Leader))) with true; [done|].
    destruct Hn as [->|Hn]; [done|]. by rewrite bool_decide_false, orb_true_r. }
  destruct r; rewrite (bind_ok _ _ _ _ _ (Hs _)) || rewrite (bind_ok _ _ _ _ _ (Hg _)); cbn [negb]; by rewrite bind_rd.
Qed.
