(* ===== verification/ServerPromises.v ===== *)
(** * The promises of the server

    Every request of a client waits on a promise of its own, which is set by
    the closure it posts or by the callback that closure hands to the node.
    Setting a promise twice throws in the dispatch thread and ends the server;
    it does not happen, whatever tasks the dispatch thread runs in between. *)

From S2P Require Import Prelude Codec DurableStore Types Wal KvStore RaftLog Rpc Env Node NodeVotes NodeCallbacks.
From S2P Require Import TcpTransport Server.
Open Scope list_scope.
Open Scope Z_scope.

(** ** Refused requests change nothing *)

Definition never_false {S} (m : M S bool) : Prop := ∀ s s', m s ≠ (Ok false, s').

Lemma never_false_bind {S A} (m : M S A) (f : A → M S bool) : (∀ a, never_false (f a)) → never_false (m ≫= f).
Proof. intros Hf s s'. unfold mbind, M_bind. destruct (m s) as [[a|e] s1]; [apply Hf|done]. Qed.

Lemma never_false_true {S} : never_false (mret true : M S bool).
Proof. by intros s s'. Qed.

Lemma submit_refused `{NodeEnv E} c r cmd cb (x x' : nstate E) :
  Node.submit c r cmd cb x = (Ok false, x') → x' = x.
Proof.
  unfold Node.submit, Node.this. rewrite bind_rd. destruct (_ || _); [by intros [= <-]|].
  destruct (_ && _); [by intros [= <-]|]. intros Hx. exfalso. revert Hx.
  match goal with |- ?m x = _ → _ => enough (never_false m) as N by apply N end.
  repeat (apply never_false_bind; intros); apply never_false_true.
Qed.

Lemma read_refused `{NodeEnv E} key cb (x x' : nstate E) : Node.read_index key cb x = (Ok false, x') → x' = x.
Proof.
  unfold Node.read_index, Node.this. rewrite bind_rd. destruct (_ || _); [by intros [= <-]|].
  destruct (bool_decide _); intros Hx; exfalso; revert Hx;
    match goal with |- ?m x = _ → _ => enough (never_false m) as N by apply N end.
  all: repeat (apply never_false_bind; intros); apply never_false_true.
Qed.

(** ** The dispatch thread *)

(** What is posted: the node's start, received messages, timers, requests. *)
Inductive task :=
| TStart
| TMessage (m : Message)
| TTimer (t : timer)
| TRequest (p : Z) (r : request).

Definition task_promise (t : task) : option Z := match t with TRequest p _ => Some p | _ => None end.

Section Promises.
Context {E : Type} `{AnswerLaws E} (client_peers : gmap NodeId PeerAddr).

(** A task, and the promise it sets by itself. *)
Definition run_task (t : task) : M (nstate E) (list Z) :=
  match t with
  | TStart => Node.start;; mret []
  | TMessage m => Node.on_message m;; mret []
  | TTimer t => Node.on_timer t;; mret []
  | TRequest p r =>
      text ← serve client_peers p r;
      mret (match text : option string with Some _ => [p] | None => [] end)
  end.

(** The node with its environment, and the promises set by tasks. *)
Definition run_tasks (ts : list task) (x : nstate E) (own : list Z) : nstate E * list Z :=
  fold_left (λ '(x, own) t,
    match run_task t x with
    | (Ok l, x') => (x', own ++ l)
    | (Throw _, x') => (x', own)
    end) ts (x, own).

Lemma serve_owes p r (x : nstate E) :
  match serve client_peers p r x with
  | (Ok (Some _), x') => x' = x
  | (_, x') => owes [p] x x'
  end.
Proof.
  unfold serve. set (m := match r with RPut _ _ => _ | _ => _ end).
  assert (keeps (owes [p]) m ∧ ∀ x', m x = (Ok false, x') → x' = x) as [Ho Hf].
  { destruct r as [key val|key|key]; subst m; split; try (apply (owes_submit 0 0 _ (CbToken p))).
    - intros x'. apply submit_refused.
    - intros x'. apply submit_refused.
    - apply owes_read_index.
    - intros x'. apply read_refused. }
  specialize (Ho x). destruct (m x) as [[[]|e] x1] eqn:Hm; cbn [snd] in Ho.
  - rewrite (bind_ok _ _ _ _ _ Hm). exact Ho.
  - rewrite (bind_ok _ _ _ _ _ Hm). cbn [negb]. rewrite bind_rd. by apply Hf.
  - rewrite (bind_throw _ _ _ _ _ Hm). exact Ho.
Qed.

(** One task adds at most its own promise. *)
Lemma run_task_owes t (x : nstate E) own :
  let '(x', own') := match run_task t x with (Ok l, x') => (x', own ++ l) | (Throw _, x') => (x', own) end in
  owed x' ++ own' ⊆+ option_list (task_promise t) ++ owed x ++ own.
Proof.
  assert (∀ m : M (nstate E) unit, keeps settles m →
    let '(x', own') := match (m;; mret ([] : list Z)) x with (Ok l, x') => (x', own ++ l) | (Throw _, x') => (x', own) end in
    owed x' ++ own' ⊆+ owed x ++ own) as Hn.
  { intros m Hm. specialize (Hm x). unfold mbind, M_bind, mret, M_ret. destruct (m x) as [[[]|e] x1]; cbn [snd] in Hm.
    - rewrite app_nil_r. by apply submseteq_app.
    - by apply submseteq_app. }
  destruct t as [|m|t|p r]; cbn [run_task task_promise option_list app].
  - apply Hn, settles_start.
  - apply Hn, settles_on_message.
  - apply Hn, settles_on_timer.
  - pose proof (serve_owes p r x) as Hs. unfold mbind, M_bind, mret, M_ret.
    destruct (serve client_peers p r x) as [[[text|]|e] x1].
    + subst x1. apply Permutation_submseteq. by rewrite app_assoc, (Permutation_app_comm _ [p]).
    + rewrite app_nil_r. by apply (submseteq_app _ (p :: owed x)).
    + by apply (submseteq_app _ (p :: owed x)).
Qed.

Lemma run_tasks_owes ts : ∀ (x : nstate E) own,
  let '(x', own') := run_tasks ts x own in owed x' ++ own' ⊆+ omap task_promise ts ++ owed x ++ own.
Proof.
  induction ts as [|t ts IH]; intros x own; unfold run_tasks; cbn [fold_left]; [reflexivity|].
  pose proof (run_task_owes t x own) as Ht. destruct (match run_task t x with (Ok l, x') => _ | (Throw _, x') => _ end) as [x1 own1].
  specialize (IH x1 own1). unfold run_tasks in IH. destruct (fold_left _ ts (x1, own1)) as [x2 own2].
  etrans; [exact IH|]. etrans; [apply submseteq_app; [reflexivity|exact Ht]|]. apply Permutation_submseteq.
  rewrite app_assoc, (Permutation_app_comm (omap _ ts)), <-!app_assoc. cbn [omap list_omap].
  by destruct (task_promise t).
Qed.

(** Promises.  The dispatch thread runs any sequence of tasks - the start
    of the node, received messages, timers and client requests, each request
    with a promise of its own.  No promise is set twice, by the request's
    closure or by the callbacks it leaves with the node, and only promises of
    requests are set; a request that the node refuses is answered at once and
    never again. *)
Theorem promise_set_once (ts : list task) (id : NodeId) (peers : list NodeId) (cfg : RaftConfig) (e : E)
    (Hnew : answered e = []) (Hdistinct : NoDup (omap task_promise ts)) :
  let '(x, own) := run_tasks ts (mkN (make_node id peers cfg) e) [] in
  NoDup (answered (env x) ++ own) ∧ answered (env x) ++ own ⊆ omap task_promise ts.
Proof.
  pose proof (run_tasks_owes ts (mkN (make_node id peers cfg) e) []) as Ho.
  destruct (run_tasks ts _ []) as [x own].
  assert (owed (mkN (make_node id peers cfg) e) = []) as Hz by (unfold owed; cbn [nd env]; by rewrite Hnew).
  rewrite Hz, !app_nil_r in Ho. assert (answered (env x) ++ own ⊆+ omap task_promise ts) as Hs.
  { etrans; [|exact Ho]. unfold owed. rewrite <-app_assoc. by apply submseteq_inserts_l. }
  split.
  { apply submseteq_Permutation in Hs as [k Hk]. rewrite Hk in Hdistinct. by apply NoDup_app in Hdistinct as [? _]. }
  intros p Hp. by eapply elem_of_submseteq.
Qed.
End Promises.

(** ** The tracing environment *)

Definition effect_token (f : effect) : option Z :=
  match f with EClientDone t _ | EReadDone t _ _ => Some t | _ => None end.

#[export] Instance trace_answers : AnswerLaws trace_env.
Proof.
  refine {| answered e := omap effect_token (tr_effects e) |}; intros.
  all: try (eexists; split; [reflexivity|]; cbn; rewrite omap_app; cbn; by rewrite ?app_nil_r).
  - eexists _, _. split; [reflexivity|]. cbn. by rewrite omap_app, app_nil_r.
  - destruct e as [es i [|x xs]]; by eexists _, _.
Defined.

(** A cluster of one node: the request before its election is refused, the two
    after it are served. *)
Definition promise_tasks : list task :=
  [ TStart; TRequest 1 (RGet "k"); TTimer (TElection 1 1); TRequest 2 (RPut "k" "v"); TRequest 3 (RGet "k") ].

Lemma promise_set_once_witness :
  let '(x, own) := run_tasks ∅ promise_tasks (mkN (make_node 1 [] default_config) (mkTrace [] 0 [])) [] in
  answered (env x) = [2; 3] ∧ own = [1] ∧ NoDup (answered (env x) ++ own).
Proof.
  pose proof (promise_set_once ∅ promise_tasks 1 [] default_config (mkTrace [] 0 [])) as H.
  destruct (run_tasks ∅ promise_tasks (mkN (make_node 1 [] default_config) (mkTrace [] 0 [])) []) as [x own] eqn:Hx.
  assert (answered (env x) = [2; 3] ∧ own = [1]) as [Ha Ho].
  { pose proof (f_equal (λ y, answered (env y.1)) Hx) as H1. pose proof (f_equal snd Hx) as H2.
    cbv beta in H1. cbn [fst snd] in H1, H2. rewrite <-H1, <-H2. split; vm_compute; reflexivity. }
  split; [exact Ha|]. split; [exact Ho|]. apply H.
  - reflexivity.
  - apply (bool_decide_eq_true_1 _). vm_compute. reflexivity.
Defined.
