(* ===== verification/ServerProcess.v ===== *)
(** * The running server: [main], [client_listener] and the threads of [src/server/server.cpp]

    The node with the dispatch queue, the clock and the transport it is built
    on ([senv] is its environment), the main thread, the listener of the
    client port and a thread per connection.  The threads meet only at
    mutexes, atomics and promises, so a run is a sequence of their steps
    ([label]); a step of a thread that is blocked changes nothing.  A closure
    is called in the step that takes it from the queue.

    With [--data-dir] the node's stores are files: [files] gives what they
    hold at the start, and a [FileDurableStore] is replaced by the store in
    memory that it refines as long as no system call fails ([Stores]); the
    exceptions of a write or a flush that fails are left out here.  The random engine of the clock is a parameter: [seed_gen]
    seeds it, [dist] draws from it. *)

From Stdlib Require Import Ascii.
From S2P Require Import Prelude Codec DurableStore Types Wal KvStore RaftLog Rpc Env Node.
From S2P Require Import Text Format DispatchQueue RealClock TcpTransport Server ServerPromises.
Open Scope string_scope.
Open Scope list_scope.
Open Scope Z_scope.

(** ** The environment of the node

    [se_set] lists the promises that have been set with their values; a
    second [set_value] of one promise would throw. *)
Record senv (G OS : Type) := mkSenv {
  se_net : tstate task OS;
  se_clock : RealClock timer;
  se_now : Z;
  se_gen : G;
  se_set : list (Z * string);
}.
Arguments mkSenv {G OS} _ _ _ _ _.
Arguments se_net {G OS} _.
Arguments se_clock {G OS} _.
Arguments se_now {G OS} _.
Arguments se_gen {G OS} _.
Arguments se_set {G OS} _.

(** The closure that a received message posts. *)
Definition deliver (h : handler) (m : Message) : task := TMessage m.

Module Proc.
Section Env.
Context {G OS : Type} `{Sockets OS} (dist : Z → Z → M G Z) (client_peers : gmap NodeId PeerAddr).
Local Abbreviation E := (senv G OS).

Definition on_net {B} (m : M (tstate task OS) B) : M E B := λ e,
  let '(r, x) := m (se_net e) in (r, mkSenv x (se_clock e) (se_now e) (se_gen e) (se_set e)).
Definition on_clock {B} (m : M (RealClock timer) B) : M E B := λ e,
  let '(r, x) := m (se_clock e) in (r, mkSenv (se_net e) x (se_now e) (se_gen e) (se_set e)).
Definition on_gen {B} (m : M G B) : M E B := λ e,
  let '(r, x) := m (se_gen e) in (r, mkSenv (se_net e) (se_clock e) (se_now e) x (se_set e)).

(** [p->set_value(text)] *)
Definition set_promise (p : Z) (text : string) : M E unit :=
  modify (λ e, mkSenv (se_net e) (se_clock e) (se_now e) (se_gen e) (se_set e ++ [(p, text)])).

#[export] Instance server_NodeEnv : NodeEnv E := {|
  env_clock := {|
    schedule delay t := λ e, on_clock (Clock.schedule (se_now e) delay t) e;
    cancel id := on_clock (Clock.cancel id);
    random_range lo hi := on_gen (Clock.random_range dist lo hi)
  |};
  env_net := {|
    net_send from to payload := on_net (Tcp.send from to payload);
    set_handler id h := on_net (Tcp.set_handler id h);
    remove_handler id := on_net (Tcp.remove_handler id)
  |};
  env_callbacks := {|
    client_done p r := set_promise p (command_callback r);
    read_done p leader ok v := set_promise p (read_callback leader client_peers ok v);
    state_changed _ _ _ := mret tt
  |};
|}.

(** Calling a posted closure. *)
Definition exec (t : task) : M (nstate E) unit :=
  match t with
  | TStart => Node.start
  | TMessage m => Node.on_message m
  | TTimer t => Node.on_timer t
  | TRequest p r =>
      text ← serve client_peers p r;
      match (text : option string) with
      | Some text => liftE (set_promise p text)
      | None => mret tt
      end
  end.
End Env.
End Proc.

(** ** The process *)

(** The main thread: in its loop, waiting for the listener, at its end. *)
Inductive main_pc := MLoop | MJoin | MExit (code : Z) | MAbort (e : exn).

(** The listener: before the test of [done], in [accept], returned. *)
Inductive listener_pc := LTest (srv : Z) | LAccept (srv : Z) | LDone.

(** A connection: the pieces in which the text of its client arrives, its
    stream, the promise the thread waits for, and whether it still runs. *)
Record conn := mkConn {
  cn_input : list string;
  cn_file : FILE;
  cn_wait : option Z;
  cn_open : bool;
}.

(** [ps_made] lists the requests of all connections, each with the number of
    its connection: a promise is named by the position of its request. *)
Record process (G OS : Type) := mkProcess {
  ps_node : RaftNode;
  ps_env : senv G OS;
  ps_pc : pc task;
  ps_main : main_pc;
  ps_done : bool;
  ps_listener : listener_pc;
  ps_conns : list conn;
  ps_made : list (nat * request);
  ps_err : string;
}.
Arguments mkProcess {G OS} _ _ _ _ _ _ _ _ _.
Arguments ps_node {G OS} _.
Arguments ps_env {G OS} _.
Arguments ps_pc {G OS} _.
Arguments ps_main {G OS} _.
Arguments ps_done {G OS} _.
Arguments ps_listener {G OS} _.
Arguments ps_conns {G OS} _.
Arguments ps_made {G OS} _.
Arguments ps_err {G OS} _.

(** The steps: a signal, the main thread, time, a round of the timer thread,
    of the thread that receives from [fd] and of the transport's accept
    thread, the listener (with what the client that connects sends) and the
    thread of the [i]-th connection. *)
Inductive label :=
| PSignal
| PMain
| PTime (d : N)
| PTimer
| PRecv (fd : Z)
| PPeer
| PListener (input : list string)
| PConn (i : nat).

Module Process.
Section Process.
Context {G OS : Type} `{Sockets OS} (dist : Z → Z → M G Z)
  (pop_top : list (Entry timer) → option (Entry timer * list (Entry timer)))
  (client_peers : gmap NodeId PeerAddr) (seed_gen : Z → G).
Local Abbreviation P := (process G OS).
Implicit Types (p : P).

Definition with_env (e : senv G OS) (p : P) : P :=
  mkProcess (ps_node p) e (ps_pc p) (ps_main p) (ps_done p) (ps_listener p) (ps_conns p) (ps_made p) (ps_err p).
Definition with_net (t : tstate task OS) (p : P) : P :=
  let e := ps_env p in with_env (mkSenv t (se_clock e) (se_now e) (se_gen e) (se_set e)) p.
Definition with_main (m : main_pc) (p : P) : P :=
  mkProcess (ps_node p) (ps_env p) (ps_pc p) m (ps_done p) (ps_listener p) (ps_conns p) (ps_made p) (ps_err p).
Definition with_listener (l : listener_pc) (p : P) : P :=
  mkProcess (ps_node p) (ps_env p) (ps_pc p) (ps_main p) (ps_done p) l (ps_conns p) (ps_made p) (ps_err p).
Definition with_conns (l : list conn) (p : P) : P :=
  mkProcess (ps_node p) (ps_env p) (ps_pc p) (ps_main p) (ps_done p) (ps_listener p) l (ps_made p) (ps_err p).
Definition log (s : string) (p : P) : P :=
  mkProcess (ps_node p) (ps_env p) (ps_pc p) (ps_main p) (ps_done p) (ps_listener p) (ps_conns p) (ps_made p)
    (ps_err p +:+ s).

Definition queue (p : P) : DispatchQueue task := tdq (se_net (ps_env p)).
Definition with_queue (q : DispatchQueue task) (p : P) : P :=
  let t := se_net (ps_env p) in with_net (mkTs (tcp t) q (tos t)) p.

(** [dispatch.post(f)] *)
Definition post (f : task) (p : P) : P := with_queue (Dispatch.post f (queue p)).2 p.

(** ** The main thread *)

(** The closure [f] runs; an exception that leaves it ends the process. *)
Definition call (f : task) (p : P) : P :=
  let '(r, x) := Proc.exec dist client_peers f (mkN (ps_node p) (ps_env p)) in
  let p' := mkProcess (nd x) (env x) (ps_pc p) (ps_main p) (ps_done p) (ps_listener p) (ps_conns p)
              (ps_made p) (ps_err p) in
  match r with
  | Ok _ => p'
  | Throw e => with_main (MAbort e) p'
  end.

(** One critical section of [run_once], and the closure it takes. *)
Definition dispatch (p : P) : P :=
  match Dispatch.run_once (ps_pc p) (queue p) with
  | (Ok c, q) =>
      let p1 := with_queue q p in
      let p2 := mkProcess (ps_node p1) (ps_env p1) c (ps_main p1) (ps_done p1) (ps_listener p1) (ps_conns p1)
                  (ps_made p1) (ps_err p1) in
      match c with
      | Running _ f => call f p2
      | _ => p2
      end
  | (Throw _, _) => p
  end.

(** The destructors that [return 0] runs: of the transport, then of the clock.
    Both end by joining threads that they have told to stop. *)
Definition quit (p : P) : P :=
  let e := ps_env p in
  with_env (mkSenv (Tcp.destroy (se_net e)).2 (Clock.quit (se_clock e)).2 (se_now e) (se_gen e) (se_set e)) p.

Definition main_step (p : P) : P :=
  match ps_main p with
  | MLoop =>
      match ps_pc p with
      | Outside =>
          if ps_done p then with_main MJoin (with_queue (Dispatch.stop (queue p)).2 p) else dispatch p
      | _ => dispatch p
      end
  | MJoin =>
      match ps_listener p with
      | LDone => with_main (MExit 0) (quit (log (concat ["[node "; dec (id_ (ps_node p)); "] shut down"; eol]) p))
      | _ => p
      end
  | _ => p
  end.

(** ** The other threads *)

(** [handle_signal] *)
Definition signal_step (p : P) : P :=
  mkProcess (ps_node p) (ps_env p) (ps_pc p) (ps_main p) true (ps_listener p) (ps_conns p) (ps_made p) (ps_err p).

Definition time_step (d : N) (p : P) : P :=
  let e := ps_env p in with_env (mkSenv (se_net e) (se_clock e) (se_now e + Z.of_N d) (se_gen e) (se_set e)) p.

(** A round of [RealClock::run]; what it posts calls the node's timer. *)
Definition timer_step (p : P) : P :=
  let e := ps_env p in
  match Clock.run pop_top (se_now e) (se_clock e) with
  | (r, c) =>
      let p' := with_env (mkSenv (se_net e) c (se_now e) (se_gen e) (se_set e)) p in
      match r with
      | Ok (Post t) => post (TTimer (en_action t)) p'
      | _ => p'
      end
  end.

Definition recv_step (fd : Z) (p : P) : P :=
  with_net (Tcp.recv_round deliver fd (se_net (ps_env p))).2 p.
Definition peer_step (p : P) : P := with_net (Tcp.accept_round (se_net (ps_env p))).2 p.

(** [client_listener] up to its loop: nothing if there is no socket. *)
Definition listener_open (port : Z) : M OS (option Z) :=
  srv ← os_socket;
  if srv <? 0 then mret None
  else os_bind srv port;; os_listen srv;; mret (Some srv).

Definition on_os {B} (m : M OS B) (p : P) : result B * P :=
  let t := se_net (ps_env p) in
  let '(r, o) := m (tos t) in (r, with_net (mkTs (tcp t) (tdq t) o) p).

(** A step of the loop of [client_listener]: the test of [done], or the return
    of [accept]. *)
Definition listener_step (input : list string) (p : P) : P :=
  match ps_listener p with
  | LTest srv =>
      if ps_done p then with_listener LDone (on_os (os_close srv) p).2 else with_listener (LAccept srv) p
  | LAccept srv =>
      match on_os (os_accept srv) p with
      | (Ok cfd, p') =>
          let p' := with_listener (LTest srv) p' in
          if cfd <? 0 then p' else with_conns (ps_conns p' ++ [mkConn input (fdopen input) None true]) p'
      | (Throw _, p') => p'
      end
  | LDone => p
  end.

(** The value of the promise [q], once it is set. *)
Definition value_of (q : Z) (p : P) : option string :=
  snd <$> (list_find (λ x, x.1 = q) (se_set (ps_env p)) ≫= λ y, Some y.2).

(** A step of [handle_client]: the next line up to [fut.get()], or the return
    of [fut.get()] with the write of the response. *)
Definition conn_step (i : nat) (p : P) : P :=
  match ps_conns p !! i with
  | None => p
  | Some c =>
      let put (c' : conn) (p : P) := with_conns (<[i := c']> (ps_conns p)) p in
      if negb (cn_open c) then p
      else
        match cn_wait c with
        | Some q =>
            match value_of q p with
            | Some text => put (mkConn (cn_input c) (fputs (c_str text) (cn_file c)) None true) p
            | None => p
            end
        | None =>
            match fgets_file line_room (cn_file c) with
            | (EmptyString, _) => put (mkConn (cn_input c) (cn_file c) None false) p
            | (line, f) =>
                match parse_line line with
                | inl r =>
                    let q := size_z (ps_made p) in
                    let p' := post (TRequest q r) (put (mkConn (cn_input c) f (Some q) true) p) in
                    mkProcess (ps_node p') (ps_env p') (ps_pc p') (ps_main p') (ps_done p') (ps_listener p')
                      (ps_conns p') (ps_made p' ++ [(i, r)]) (ps_err p')
                | inr response => put (mkConn (cn_input c) (fputs (c_str response) f) None true) p
                end
            end
        end
  end.

Definition step (l : label) (p : P) : P :=
  match l with
  | PSignal => signal_step p
  | PMain => main_step p
  | PTime d => time_step d p
  | PTimer => timer_step p
  | PRecv fd => recv_step fd p
  | PPeer => peer_step p
  | PListener input => listener_step input p
  | PConn i => conn_step i p
  end.

Definition run (ls : list label) (p : P) : P := fold_left (λ p l, step l p) ls p.

(** ** [main] up to its loop *)

Definition usage (prog : string) : string :=
  concat ["Usage: "; prog; " --id ID --raft-port PORT --client-port PORT"; eol;
          "          --peers ID:HOST:PORT[,ID:HOST:PORT,...]"; eol;
          "          --data-dir DIR"; eol].

Definition started_line (a : Args) : string :=
  concat ["[node "; dec (a_id a); "] started — raft-port="; dec (a_raft_port a); " client-port=";
          dec (a_client_port a); " peers="; dec (Z.of_nat (size (a_peers a))); eol].

(** A store over a file that holds [b]. *)
Definition opened (b : bytes) : DurableStore := mkDurableStore b (length b).

Definition build_node (a : Args) (files : string → bytes) : RaftNode :=
  let dir := a_data_dir a in
  if bool_decide (dir = "") then server_node a
  else (server_node a)
         <| meta_store_ := opened (files (dir +:+ "/meta")) |>
         <| log_store_ := opened (files (dir +:+ "/log")) |>
         <| snapshot_store_ := opened (files (dir +:+ "/snapshot")) |>.

(** The dispatch queue, the clock, the transport and the node; the start of
    the node is posted and the listener started. *)
Definition boot (a : Args) (files : string → bytes) (o : OS) (now : Z) : P :=
  let t := (Tcp.start (mkTs (Tcp.make (a_id a) (a_raft_port a) (a_peers a)) empty_queue o)).2 in
  let q := (Dispatch.post TStart (tdq t)).2 in
  let '(r, o') := listener_open (a_client_port a) (tos t) in
  mkProcess (build_node a files) (mkSenv (mkTs (tcp t) q o') make_clock now (seed_gen (clock_seed a)) []) Outside MLoop false
    (match r with Ok (Some srv) => LTest srv | _ => LDone end) [] [] (started_line a).

(** [main(argc, argv)]: the running process, or the usage and exit 1. *)
Definition main (argv : list string) (files : string → bytes) (o : OS) (now : Z) : result (P + string) :=
  match argv with
  | [] => Throw undefined_behaviour
  | prog :: args =>
      match parse_args args with
      | Throw e => Throw e
      | Ok None => Ok (inr (usage prog))
      | Ok (Some a) => Ok (inl (boot a files o now))
      end
  end.
End Process.
End Process.
