(* ===== verification/ServerRun.v ===== *)
(** * Facts about the running server

    Whatever the order in which the threads of the server move, no promise is
    set twice, and every connection sees the sequential line protocol: each
    response is the value of the promise of its own request. *)

From Stdlib Require Import Ascii.
From S2P Require Import Prelude Codec DurableStore Types Wal KvStore RaftLog Rpc Env Node NodeVotes NodeCallbacks EnvFrame.
From S2P Require Import Text Format DispatchQueue RealClock TcpTransport TcpFacts Server ServerPromises ServerProcess.
Open Scope string_scope.
Open Scope list_scope.
Open Scope Z_scope.

Section Env.
Context {G OS : Type} `{SocketLaws OS} (dist : Z → Z → M G Z) (client_peers : gmap NodeId PeerAddr).
(** The distribution returns a number. *)
Context (Hdist : ∀ lo hi g, ∃ x g', dist lo hi g = (Ok x, g')).
Local Abbreviation E := (senv G OS).
#[local] Instance proc_env : NodeEnv E := Proc.server_NodeEnv dist client_peers.

(** [send] returns and leaves the dispatch queue alone. *)
Lemma do_write_returns from payload fd (s : tstate task OS) :
  ∃ ok o', Tcp.on_os (Tcp.do_write from payload fd) s = (Ok ok, mkTs (tcp s) (tdq s) o').
Proof.
  destruct (do_write_spec from payload fd (tos s)) as (ok & o' & E1 & _). exists ok, o'. by apply on_os_ok.
Qed.

Lemma send_on_returns from to payload fd (s : tstate task OS) :
  ∃ s', (ok ← Tcp.on_os (Tcp.do_write from payload fd);
         if negb ok then
           Tcp.on_os (os_close fd);;
           Tcp.upd_tcp (λ t, with_send_fds (delete to (tp_send_fds_ t)) t);;
           fd' ← Tcp.connect_to to;
           if 0 <=? fd' then
             Tcp.upd_tcp (λ t, with_send_fds (<[to := fd']> (tp_send_fds_ t)) t);;
             Tcp.on_os (Tcp.do_write from payload fd');; mret tt
           else mret tt
         else mret tt) s = (Ok tt, s') ∧ tdq s' = tdq s.
Proof.
  destruct (do_write_returns from payload fd s) as (ok & o1 & E1). rewrite (bind_ok _ _ _ _ _ E1).
  destruct ok; cbn [negb]; [by eexists|]. destruct (close_law fd o1) as (o2 & E2 & _).
  rewrite (bind_ok _ _ _ _ _ (on_os_ok _ (mkTs (tcp s) (tdq s) o1) _ _ E2)).
  unfold Tcp.upd_tcp. rewrite (bind_ok (modify _) _ _ _ tt eq_refl). cbn [tcp tdq tos].
  destruct (connect_to_spec to (mkTs (with_send_fds (delete to (tp_send_fds_ (tcp s))) (tcp s)) (tdq s) o2))
    as (fd' & o3 & E3 & _). rewrite (bind_ok _ _ _ _ _ E3). destruct (0 <=? fd'); [|by eexists].
  rewrite (bind_ok (modify _) _ _ _ tt eq_refl).
  match goal with |- context [(Tcp.on_os (Tcp.do_write from payload fd') ≫= _) ?x] =>
    destruct (do_write_returns from payload fd' x) as (ok & o4 & E4) end.
  rewrite (bind_ok _ _ _ _ _ E4). by eexists.
Qed.

Lemma send_returns from to payload (s : tstate task OS) :
  ∃ s', Tcp.send from to payload s = (Ok tt, s') ∧ tdq s' = tdq s.
Proof.
  unfold Tcp.send, Tcp.rd_tcp. rewrite (bind_ok (gets _) _ _ _ _ eq_refl).
  destruct (negb _); [by eexists|]. rewrite (bind_ok (gets _) _ _ _ _ eq_refl).
  destruct (tp_send_fds_ (tcp s) !! to) as [fd|] eqn:Hfd.
  - rewrite (bind_ok (mret fd) _ _ _ _ eq_refl). rewrite (bool_decide_eq_false_2 (Some fd = None)) by done. cbn [andb when].
    rewrite (bind_ok (mret tt) _ _ _ _ eq_refl). apply send_on_returns.
  - destruct (connect_to_spec to s) as (fd & o1 & E1 & _). rewrite (bind_ok _ _ _ _ _ E1).
    rewrite bool_decide_eq_true_2 by done. cbn [andb]. destruct (fd <? 0); [by eexists|]. cbn [when].
    rewrite (bind_ok (Tcp.upd_tcp _) _ _ _ tt eq_refl). cbn [tcp tdq tos].
    match goal with |- context [(Tcp.on_os _ ≫= _) ?x] => apply (send_on_returns from to payload fd x) end.
Qed.

(** What is owed by the environment: the promises of the queued requests, then
    those that have been set. *)
Definition settled (e : E) : list Z := omap task_promise (q_ (tdq (se_net e))) ++ (se_set e).*1.

#[export] Instance server_answers : AnswerLaws E.
Proof.
  refine {| answered := settled |}; cbn; intros; unfold settled.
  - destruct (send_returns from to p (se_net e)) as (s' & E1 & Hq). unfold Proc.on_net. rewrite E1.
    eexists. split; [done|]. cbn. by rewrite Hq.
  - by eexists _, _.
  - by eexists.
  - unfold Proc.on_gen, Clock.random_range. destruct (hi <=? lo); [by eexists _, _|].
    destruct (Hdist lo (wrap64 (hi - 1)) (se_gen e)) as (x & g' & E1). rewrite E1. by eexists _, _.
  - by eexists.
  - by eexists.
  - by eexists.
  - eexists. split; [done|]. cbn. by rewrite fmap_app, app_assoc.
  - eexists. split; [done|]. cbn. by rewrite fmap_app, app_assoc.
Defined.

(** Promises stay set. *)
Definition grows (e e' : E) : Prop := se_set e `prefix_of` se_set e'.

#[export] Instance server_grows : EnvKeeps E grows.
Proof.
  split; [split; unfold grows; [by intros e|intros ???; apply transitivity]|..]; cbn; intros; intros e; unfold grows.
  - done.
  - done.
  - unfold Proc.on_gen. by destruct (Clock.random_range dist lo hi (se_gen e)).
  - unfold Proc.on_net. by destruct (Tcp.send from to p (se_net e)).
  - done.
  - done.
  - by apply prefix_app_r.
  - by apply prefix_app_r.
  - done.
Qed.

Lemma exec_grows t (x : nstate E) : grows (env x) (env (Proc.exec dist client_peers t x).2).
Proof.
  assert (keeps (around grows) (Proc.exec dist client_peers t)) as K; [|apply K].
  destruct t as [|m|t|p r]; cbn [Proc.exec].
  - apply env_start, _.
  - apply env_on_message, _.
  - apply env_on_timer, _.
  - unfold serve. destruct r; repeat keeps_step ltac:(first
      [ apply env_submit, _ | apply env_read_index, _ | around_base | by apply env_lift; intros e; apply prefix_app_r ]).
Qed.

(** A closure of the queue adds at most its own promise to what is owed. *)
Lemma exec_owes t (x : nstate E) :
  owed (Proc.exec dist client_peers t x).2 ⊆+ option_list (task_promise t) ++ owed x.
Proof.
  destruct t as [|m|t|p r]; cbn [Proc.exec task_promise option_list app].
  - apply settles_start.
  - apply settles_on_message.
  - apply settles_on_timer.
  - pose proof (serve_owes client_peers p r x) as Hs. unfold mbind, M_bind.
    destruct (serve client_peers p r x) as [[[text|]|e] x1]; [|exact Hs..]. subst x1.
    unfold owed, liftE, Proc.set_promise, modify. cbn. unfold settled. cbn. rewrite fmap_app.
    apply Permutation_submseteq. rewrite !app_assoc. by rewrite (Permutation_app_comm _ [p]).
Qed.
End Env.

(** ** Steps of the process *)
Lemma submseteq_NoDup {T} (l k : list T) : l ⊆+ k → NoDup k → NoDup l.
Proof. intros (r & Hr)%submseteq_Permutation Hk. rewrite Hr in Hk. by apply NoDup_app in Hk as [? _]. Qed.

Section Run.
Context {G OS : Type} `{SocketLaws OS} (dist : Z → Z → M G Z)
  (pop_top : list (Entry timer) → option (Entry timer * list (Entry timer)))
  (client_peers : gmap NodeId PeerAddr) (seed_gen : Z → G).
Context (Hdist : ∀ lo hi g, ∃ x g', dist lo hi g = (Ok x, g')).
Local Abbreviation P := (process G OS).
Implicit Types (p : P) (c : conn).
#[local] Instance node_env : NodeEnv (senv G OS) := proc_env dist client_peers.
#[local] Instance answers : AnswerLaws (senv G OS) := server_answers dist client_peers Hdist.

Definition owed_by p : list Z := owed (mkN (ps_node p) (ps_env p)).
Definition requests (t : tstate task OS) : list Z := omap task_promise (q_ (tdq t)).

Lemma owed_by_eq p :
  owed_by p = kept_tokens (ps_node p) ++ requests (se_net (ps_env p)) ++ (se_set (ps_env p)).*1.
Proof. reflexivity. Qed.

(** Every promise belongs to a request, and is owed at most once. *)
Record pinv p : Prop := {
  pi_distinct : NoDup (owed_by p);
  pi_made : Forall (λ q, 0 <= q < size_z (ps_made p)) (owed_by p);
}.

Lemma pinv_sub p p' : owed_by p' ⊆+ owed_by p → ps_made p' = ps_made p → pinv p → pinv p'.
Proof.
  intros Hs Hn [D O]. split; [by eapply submseteq_NoDup|]. rewrite Hn.
  apply Forall_forall. intros q Hq. rewrite Forall_forall in O. apply O. by eapply elem_of_submseteq.
Qed.

(** A thread that posts no request changes nothing that is owed. *)
Lemma pinv_net p t : requests t = requests (se_net (ps_env p)) → pinv p → pinv (Process.with_net t p).
Proof. intros Ht. apply pinv_sub; [|done]. rewrite !owed_by_eq. cbn. by rewrite Ht. Qed.

Lemma post_requests f (q : DispatchQueue task) :
  omap task_promise (q_ (Dispatch.post f q).2) =
    omap task_promise (q_ q) ++ (if stopped_ q then [] else option_list (task_promise f)).
Proof.
  unfold Dispatch.post, get, mbind, M_bind. cbn. destruct (stopped_ q); cbn; [by rewrite app_nil_r|].
  rewrite omap_app. cbn. by destruct (task_promise f).
Qed.

Definition same_requests (t t' : tstate task OS) : Prop := requests t' = requests t.
#[local] Instance same_requests_pre : PreOrder same_requests.
Proof. split; [by intros t|]. unfold same_requests. intros ???. congruence. Qed.

Lemma requests_os {B} (m : M OS B) : keeps same_requests (Tcp.on_os m : M (tstate task OS) B).
Proof. intros t. unfold Tcp.on_os, same_requests. by destruct (m (tos t)). Qed.
Lemma requests_rd {B} (f : TcpTransport → B) : keeps same_requests (Tcp.rd_tcp f : M (tstate task OS) B).
Proof. by intros t. Qed.
Lemma requests_upd f : keeps same_requests (Tcp.upd_tcp f : M (tstate task OS) unit).
Proof. by intros t. Qed.
Lemma requests_deliver h m : keeps same_requests (Tcp.on_queue (Dispatch.post (deliver h m)) : M (tstate task OS) unit).
Proof.
  intros t. unfold Tcp.on_queue, same_requests, requests.
  pose proof (post_requests (deliver h m) (tdq t)) as Hp. destruct (Dispatch.post _ (tdq t)) as [r q].
  cbn [snd tdq] in *. rewrite Hp. destruct (stopped_ (tdq t)); by rewrite app_nil_r.
Qed.
Ltac requests_auto := repeat keeps_step ltac:(first [apply requests_os | apply requests_rd | apply requests_upd | apply requests_deliver]).

Lemma requests_recv fd : keeps same_requests (Tcp.recv_round deliver fd : M (tstate task OS) bool).
Proof. unfold Tcp.recv_round. requests_auto. Qed.
Lemma requests_accept : keeps same_requests (Tcp.accept_round : M (tstate task OS) bool).
Proof. unfold Tcp.accept_round. requests_auto. Qed.
Lemma requests_destroy : keeps same_requests (Tcp.destroy : M (tstate task OS) unit).
Proof. unfold Tcp.destroy. requests_auto. Qed.
Lemma requests_start : keeps same_requests (Tcp.start : M (tstate task OS) bool).
Proof. unfold Tcp.start. requests_auto. Qed.

(** *** The main thread *)
Lemma run_once_eq (c : pc task) (d : DispatchQueue task) :
  ∃ x : pc task, Dispatch.run_once c d = (Ok x, mkDispatchQueue (tail (q_ d)) (stopped_ d)) ∧ called x = take 1 (q_ d).
Proof. destruct c; apply loop_head_eq. Qed.

Local Abbreviation call := (Process.call dist client_peers).
Local Abbreviation step := (Process.step dist pop_top client_peers).
Local Abbreviation run := (Process.run dist pop_top client_peers).

(** What a step leaves alone, and what it may add to. *)
Record calm_step p p' : Prop := {
  cs_made : ps_made p' = ps_made p;
  cs_conns : ps_conns p' = ps_conns p;
  cs_set : grows (ps_env p) (ps_env p');
}.

Lemma call_spec f p :
  owed_by (call f p) ⊆+ option_list (task_promise f) ++ owed_by p ∧ calm_step p (call f p).
Proof.
  pose proof (exec_owes dist client_peers Hdist f (mkN (ps_node p) (ps_env p))) as Ho.
  pose proof (exec_grows dist client_peers f (mkN (ps_node p) (ps_env p))) as Hg.
  unfold Process.call. destruct (Proc.exec dist client_peers f _) as [[[]|e] [n e']]; by split; [|split].
Qed.

Lemma dispatch_spec p :
  owed_by (Process.dispatch dist client_peers p) ⊆+ owed_by p ∧
  calm_step p (Process.dispatch dist client_peers p).
Proof.
  unfold Process.dispatch. destruct (run_once_eq (ps_pc p) (Process.queue p)) as (c & -> & Hc).
  set (p2 := mkProcess _ _ c _ _ _ _ _ _).
  assert (owed_by p ≡ₚ omap task_promise (take 1 (q_ (Process.queue p))) ++ owed_by p2) as Hp.
  { assert (requests (se_net (ps_env p)) =
            omap task_promise (take 1 (q_ (Process.queue p))) ++ requests (se_net (ps_env p2))) as Hr.
    { unfold requests, p2. cbn [ps_env se_net tdq Process.with_queue Process.with_net Process.with_env q_].
      fold (Process.queue p). destruct (q_ (Process.queue p)) as [|f q]; [done|]. cbn. by destruct (task_promise f). }
    rewrite !owed_by_eq, Hr, <-!app_assoc. apply Permutation_app_swap_app. }
  assert (calm_step p p2) as Hk by (split; [done|done|by unfold grows]).
  assert (owed_by p2 ⊆+ owed_by p) as Hs by (rewrite Hp; by apply submseteq_inserts_l).
  destruct c as [|l f|]; [done| |done]. destruct (call_spec f p2) as [Ho [M C S]]. split; [|by split].
  rewrite Hp, <-Hc. cbn [called omap list_omap]. by destruct (task_promise f).
Qed.

Lemma calm_pinv p p' : owed_by p' ⊆+ owed_by p → calm_step p p' → pinv p → pinv p'.
Proof. intros Ho [M _ _]. by apply pinv_sub. Qed.

(** A step that moves neither the node nor the promises. *)
Lemma quiet_step p p' :
  ps_node p' = ps_node p → requests (se_net (ps_env p')) = requests (se_net (ps_env p)) →
  se_set (ps_env p') = se_set (ps_env p) → ps_made p' = ps_made p → ps_conns p' = ps_conns p →
  owed_by p' ⊆+ owed_by p ∧ calm_step p p'.
Proof.
  intros Hn Hr Hs Hm Hc. split; [by rewrite !owed_by_eq, Hn, Hr, Hs|]. split; [done|done|].
  unfold grows. by rewrite Hs.
Qed.

Lemma main_spec p :
  owed_by (Process.main_step dist client_peers p) ⊆+ owed_by p ∧
  calm_step p (Process.main_step dist client_peers p).
Proof.
  unfold Process.main_step.
  destruct (ps_main p); [|destruct (ps_listener p); [by apply quiet_step..|]|by apply quiet_step..].
  2: { apply quiet_step; [done|apply requests_destroy|done..]. }
  destruct (ps_pc p); [destruct (ps_done p); [by apply quiet_step|]|..]; apply dispatch_spec.
Qed.

Lemma post_none f p : task_promise f = None → requests (se_net (ps_env (Process.post f p))) = requests (se_net (ps_env p)).
Proof.
  intros Hf. unfold requests, Process.post. cbn. unfold Process.queue. rewrite post_requests, Hf.
  destruct (stopped_ _); by rewrite app_nil_r.
Qed.

Lemma timer_spec p :
  owed_by (Process.timer_step pop_top p) ⊆+ owed_by p ∧ calm_step p (Process.timer_step pop_top p).
Proof.
  unfold Process.timer_step. destruct (Clock.run pop_top _ _) as [[[| | |t]|e] c]; try by apply quiet_step.
  apply quiet_step; [done|by rewrite post_none|done..].
Qed.

Lemma recv_spec fd p :
  owed_by (Process.recv_step fd p) ⊆+ owed_by p ∧ calm_step p (Process.recv_step fd p).
Proof. apply quiet_step; [done|apply requests_recv|done..]. Qed.
Lemma peer_spec p :
  owed_by (Process.peer_step p) ⊆+ owed_by p ∧ calm_step p (Process.peer_step p).
Proof. apply quiet_step; [done|apply requests_accept|done..]. Qed.

(** *** The connections *)

(** The first value of a promise. *)
Definition set_value (l : list (Z * string)) (q : Z) : option string :=
  snd <$> (list_find (λ x, x.1 = q) l ≫= λ y, Some y.2).

Lemma set_value_grows l l' q t : l `prefix_of` l' → set_value l q = Some t → set_value l' q = Some t.
Proof.
  intros (k & ->) Hv. unfold set_value in *. destruct (list_find _ l) as [[i x]|] eqn:Hf; [|done].
  by rewrite (list_find_app_l _ _ _ _ _ Hf).
Qed.

Lemma handle_request answer fuel n f ch line f' r res :
  fgets_file line_room f = (String ch line, f') → parse_line (String ch line) = inl r →
  handle_client answer fuel (S n) (fputs (c_str (answer n r)) f') = Ok res →
  handle_client answer (S fuel) n f = Ok (r :: res.1, res.2).
Proof. intros Hl Hp Hh. cbn [handle_client]. rewrite Hl, Hp, Hh. by destruct res. Qed.

Lemma handle_other answer fuel n f ch line f' text res :
  fgets_file line_room f = (String ch line, f') → parse_line (String ch line) = inr text →
  handle_client answer fuel n (fputs (c_str text) f') = Ok res →
  handle_client answer (S fuel) n f = Ok res.
Proof. intros Hl Hp Hh. cbn [handle_client]. by rewrite Hl, Hp, Hh. Qed.

Lemma handle_end answer n f : (fgets_file line_room f).1 = "" → handle_client answer 0 n f = Ok ([], fi_out f).
Proof.
  intros Hl. cbn [handle_client]. destruct (fgets_file line_room f) as [l f'] eqn:E. cbn in Hl. subst l.
  do 2 f_equal. revert E. unfold fgets_file. destruct (fi_stuck f); [by intros [= <-]|].
  destruct (gets_line _ _ _) as [l [rest reads]]. by intros [= _ <-].
Qed.

(** The requests of the connection [i], with their promises. *)
Definition made_by (i : nat) (made : list (nat * request)) : list (Z * request) :=
  omap id (imap (λ q x, if decide (x.1 = i) then Some (Z.of_nat q, x.2) else None) made).

Lemma made_by_snoc i made j r :
  made_by i (made ++ [(j, r)]) = made_by i made ++ (if decide (j = i) then [(size_z made, r)] else []).
Proof.
  unfold made_by. rewrite imap_app, omap_app. f_equal. cbn [imap omap list_omap fst snd]. unfold compose.
  rewrite Nat.add_0_r. by destruct (decide (j = i)).
Qed.

Lemma made_by_none i made : Forall (λ x, (x.1 < i)%nat) made → made_by i made = [].
Proof.
  induction made as [|[j r] made IH] using rev_ind; [done|]. intros [H1 H2]%Forall_app.
  apply Forall_cons in H2 as [H2 _]. cbn in H2. rewrite made_by_snoc, IH, decide_False by (done || lia). done.
Qed.

(** [answer] gives the texts received so far. *)
Definition agrees (texts : list string) (answer : nat → request → string) : Prop :=
  ∀ k t r, texts !! k = Some t → answer k r = t.

(** Whatever [handle_client] does with the stream from the next request on, it
    does with the whole input what the connection has done so far and then
    that. *)
Definition reached c (rs : list request) (texts : list string) (f : FILE) : Prop :=
  ∀ answer fuel rs' out, agrees texts answer →
    handle_client answer fuel (length texts) f = Ok (rs', out) →
    ∃ fuel', handle_client answer fuel' 0 (fdopen (cn_input c)) = Ok (rs ++ rs', out).

(** Its answered requests [rs] have the promises [qs] with the values [texts],
    and it has made no other than the one it waits for. *)
Record conn_inv (i : nat) (made : list (nat * request)) (set : list (Z * string)) c
    (rs : list request) (qs : list Z) (texts : list string) : Prop := {
  co_length : length qs = length rs;
  co_values : Forall2 (λ q t, set_value set q = Some t) qs texts;
  co_reached :
    match cn_wait c with
    | None => made_by i made = zip qs rs ∧ reached c rs texts (cn_file c)
    | Some q => ∃ r, made_by i made = zip qs rs ++ [(q, r)] ∧
                  ∀ t, reached c (rs ++ [r]) (texts ++ [t]) (fputs (c_str t) (cn_file c))
    end;
  co_end : cn_open c = false → cn_wait c = None ∧ (fgets_file line_room (cn_file c)).1 = "";
}.

Definition conn_ok p (i : nat) c : Prop := ∃ rs qs texts, conn_inv i (ps_made p) (se_set (ps_env p)) c rs qs texts.
Definition owners_ok p : Prop := Forall (λ x, (x.1 < length (ps_conns p))%nat) (ps_made p).
Definition conns_ok p : Prop := owners_ok p ∧ ∀ i c, ps_conns p !! i = Some c → conn_ok p i c.

Lemma conn_inv_later i made made' set set' c rs qs texts :
  made_by i made' = made_by i made → set `prefix_of` set' →
  conn_inv i made set c rs qs texts → conn_inv i made' set' c rs qs texts.
Proof.
  intros Hm Hs [L V R N]. split; [done| |by rewrite Hm|done].
  eapply Forall2_impl; [exact V|]. intros q t. by apply set_value_grows.
Qed.

Lemma conn_later p p' i c :
  made_by i (ps_made p') = made_by i (ps_made p) → grows (ps_env p) (ps_env p') → conn_ok p i c → conn_ok p' i c.
Proof. intros Hm Hs (rs & qs & texts & Hc). exists rs, qs, texts. by eapply conn_inv_later. Qed.

Lemma calm_conns p p' : calm_step p p' → conns_ok p → conns_ok p'.
Proof.
  intros [M C S] [O K]. split; [unfold owners_ok; by rewrite M, C|].
  intros i c. rewrite C. intros Hi. eapply conn_later; [by rewrite M|done|by apply K].
Qed.

(** The connection [i] is replaced, and has perhaps made a request. *)
Lemma put_conns p p' i c c' new :
  conns_ok p → ps_conns p !! i = Some c → ps_conns p' = <[i := c']> (ps_conns p) →
  ps_made p' = ps_made p ++ ((i,.) <$> new) → (length new <= 1)%nat → grows (ps_env p) (ps_env p') →
  conn_ok p' i c' → conns_ok p'.
Proof.
  intros [O K] Hi Hc Hm Hn Hg Hc'. apply lookup_lt_Some in Hi as Hlt. split.
  - unfold owners_ok. rewrite Hc, Hm, length_insert. apply Forall_app. split; [done|].
    apply Forall_fmap, Forall_true. intros x. exact Hlt.
  - intros j cj. rewrite Hc. intros [(<- & <- & _)|[Hne Hj]]%list_lookup_insert_Some; [done|].
    apply (conn_later p); [|done|by apply K]. rewrite Hm. destruct new as [|r [|]]; [by rewrite app_nil_r| |simpl in Hn; lia].
    cbn [fmap list_fmap]. by rewrite made_by_snoc, decide_False, app_nil_r.
Qed.

Lemma new_conn_ok p i input : made_by i (ps_made p) = [] → conn_ok p i (mkConn input (fdopen input) None true).
Proof.
  intros Hm. exists [], [], []. split; [done|constructor| |done]. split; [done|]. intros answer fuel rs' out _ Hh.
  by exists fuel.
Qed.

(** The four things a connection's thread can do. *)
Lemma conn_answered i made set c rs qs texts q t :
  cn_wait c = Some q → set_value set q = Some t → conn_inv i made set c rs qs texts →
  ∃ r, conn_inv i made set (mkConn (cn_input c) (fputs (c_str t) (cn_file c)) None true)
         (rs ++ [r]) (qs ++ [q]) (texts ++ [t]).
Proof.
  intros Hw Hv [L V R N]. rewrite Hw in R. destruct R as (r & Hr & R). exists r.
  split; [by rewrite !length_app, L|by apply Forall2_app; [|constructor]| |done]. cbn [cn_wait].
  split; [by rewrite zip_with_app by done|]. apply R.
Qed.

Lemma conn_closes i made set c rs qs texts :
  cn_wait c = None → (fgets_file line_room (cn_file c)).1 = "" → conn_inv i made set c rs qs texts →
  conn_inv i made set (mkConn (cn_input c) (cn_file c) None false) rs qs texts.
Proof. intros Hw Hl [L V R N]. rewrite Hw in R. by split. Qed.

Lemma conn_responds i made set c rs qs texts ch line f text :
  cn_wait c = None → fgets_file line_room (cn_file c) = (String ch line, f) →
  parse_line (String ch line) = inr text → conn_inv i made set c rs qs texts →
  conn_inv i made set (mkConn (cn_input c) (fputs (c_str text) f) None true) rs qs texts.
Proof.
  intros Hw Hl Hp [L V R N]. rewrite Hw in R. destruct R as [Hm R]. split; [done|done| |done]. split; [done|].
  intros answer fuel rs' out Ha Hh. eapply (R answer (S fuel)); [done|]. by eapply handle_other.
Qed.

Lemma conn_requests i made set c rs qs texts ch line f r :
  cn_wait c = None → fgets_file line_room (cn_file c) = (String ch line, f) →
  parse_line (String ch line) = inl r → conn_inv i made set c rs qs texts →
  conn_inv i (made ++ [(i, r)]) set (mkConn (cn_input c) f (Some (size_z made)) true) rs qs texts.
Proof.
  intros Hw Hl Hp [L V R N]. rewrite Hw in R. destruct R as [Hm R]. split; [done|done| |done]. cbn [cn_wait]. exists r.
  split; [by rewrite made_by_snoc, decide_True, Hm|].
  intros t answer fuel rs' out Ha Hh. rewrite length_app, Nat.add_1_r in Hh.
  assert (answer (length texts) r = t) as Ht.
  { apply Ha. by rewrite lookup_app_r, Nat.sub_diag by lia. }
  destruct (R answer (S fuel) (r :: rs') out) as (fuel' & E).
  { intros k x y Hk. apply Ha. by apply lookup_app_l_Some. }
  { rewrite <-Ht in Hh. exact (handle_request _ _ _ _ _ _ _ _ (rs', out) Hl Hp Hh). }
  exists fuel'. cbn [cn_input]. by rewrite E, <-app_assoc.
Qed.

Lemma conn_step_owed i p :
  pinv p → pinv (Process.conn_step i p) ∧ grows (ps_env p) (ps_env (Process.conn_step i p)) ∧
  ps_made p `prefix_of` ps_made (Process.conn_step i p).
Proof.
  intros K. assert (pinv p ∧ grows (ps_env p) (ps_env p) ∧ ps_made p `prefix_of` ps_made p) as Hsame
    by (unfold grows; split_and!; [done|reflexivity..]).
  assert (∀ l, let p' := Process.with_conns l p in
    pinv p' ∧ grows (ps_env p) (ps_env p') ∧ ps_made p `prefix_of` ps_made p') as Hput.
  { intros l. destruct Hsame as ([D O] & Hg & Hm). by split_and!; [split|..]. }
  unfold Process.conn_step. destruct (ps_conns p !! i) as [c|]; [|done]. cbv zeta.
  destruct (negb (cn_open c)); [done|]. destruct (cn_wait c) as [q|]; [destruct (Process.value_of q p); [apply Hput|done]|].
  destruct (fgets_file line_room (cn_file c)) as [[|ch line] f]; [apply Hput|].
  destruct (parse_line (String ch line)) as [r|text]; [|apply Hput]. cbn [ps_env ps_made]. split_and!.
  - destruct K as [D O]. set (q := size_z (ps_made p)) in *.
    match goal with |- pinv ?x => set (p' := x) end.
    assert (owed_by p' ⊆+ q :: owed_by p) as Hs.
    { rewrite !owed_by_eq. unfold p', requests. cbn. unfold Process.queue. cbn. rewrite post_requests.
      fold (requests (se_net (ps_env p))). destruct (stopped_ _); cbn [task_promise option_list].
      - rewrite app_nil_r. by apply submseteq_cons.
      - apply Permutation_submseteq. rewrite <-!app_assoc. cbn [app]. symmetry.
        rewrite (app_assoc (kept_tokens _)), (app_assoc (kept_tokens _)). apply Permutation_middle. }
    assert (NoDup (q :: owed_by p)) as Hd.
    { constructor; [|done]. intros Hq. rewrite Forall_forall in O. specialize (O q Hq). unfold q in O. lia. }
    split; [by eapply submseteq_NoDup|]. apply Forall_forall. intros x Hx. apply (elem_of_submseteq _ _ x Hx) in Hs.
    assert (size_z (ps_made p') = q + 1) as ->.
    { unfold p', q, size_z. cbn. rewrite length_app. cbn. lia. }
    apply elem_of_cons in Hs as [->|Hs]; [unfold q, size_z; lia|].
    rewrite Forall_forall in O. specialize (O x Hs). lia.
  - unfold grows. reflexivity.
  - cbn. by apply prefix_app_r.
Qed.

Lemma conn_step_conns i p : conns_ok p → conns_ok (Process.conn_step i p).
Proof.
  intros K. unfold Process.conn_step. destruct (ps_conns p !! i) as [c|] eqn:Hi; [|done]. cbv zeta.
  destruct K as [O K]. destruct (K i c Hi) as (rs & qs & texts & Hc).
  assert (∀ c', conn_ok p i c' → conns_ok (Process.with_conns (<[i := c']> (ps_conns p)) p)) as Hput.
  { intros c' Hc'. eapply (put_conns p _ i c c' []); [by split|done|done|by rewrite app_nil_r|simpl; lia|by unfold grows|done]. }
  destruct (negb (cn_open c)); [by split|]. destruct (cn_wait c) as [q|] eqn:Hw.
  - destruct (Process.value_of q p) as [text|] eqn:Hv; [|by split]. apply Hput.
    destruct (conn_answered _ _ _ _ _ _ _ q text Hw Hv Hc) as (r & Hc'). by eexists _, _, _.
  - destruct (fgets_file line_room (cn_file c)) as [[|ch line] f] eqn:Hl.
    { apply Hput. exists rs, qs, texts. apply conn_closes; [done|by rewrite Hl|done]. }
    destruct (parse_line (String ch line)) as [r|text] eqn:Hp.
    2: { apply Hput. exists rs, qs, texts. by eapply conn_responds. }
    eapply (put_conns p _ i c _ [r]); [by split|done|done|done|simpl; lia|by unfold grows|].
    exists rs, qs, texts. by eapply conn_requests.
Qed.

Lemma listener_spec input p :
  owed_by (Process.listener_step input p) ⊆+ owed_by p ∧
  ps_made (Process.listener_step input p) = ps_made p ∧
  grows (ps_env p) (ps_env (Process.listener_step input p)) ∧
  (ps_conns (Process.listener_step input p) = ps_conns p ∨
   ps_conns (Process.listener_step input p) = ps_conns p ++ [mkConn input (fdopen input) None true]).
Proof.
  unfold Process.listener_step, Process.on_os, grows.
  destruct (ps_listener p) as [srv|srv|]; [| |split_and!; [done|done|reflexivity|by left]].
  - destruct (ps_done p); [|split_and!; [done|done|reflexivity|by left]].
    destruct (os_close srv _) as [r o]. split_and!; [done|done|reflexivity|by left].
  - destruct (os_accept srv _) as [[cfd|e] o]; [destruct (cfd <? 0)|]; split_and!;
      try done; try reflexivity; first [by left|by right].
Qed.

(** Every step keeps both invariants. *)
Lemma step_inv l p : pinv p → conns_ok p → pinv (step l p) ∧ conns_ok (step l p).
Proof.
  intros I K. assert (∀ p', owed_by p' ⊆+ owed_by p ∧ calm_step p p' → pinv p' ∧ conns_ok p') as Hcalm.
  { intros p' [Ho Hc]. split; [by eapply calm_pinv|by eapply calm_conns]. }
  destruct l as [| |d| |fd| |input|i]; cbn [Process.step].
  - apply Hcalm. by apply quiet_step.
  - apply Hcalm, main_spec.
  - apply Hcalm. by apply quiet_step.
  - apply Hcalm, timer_spec.
  - apply Hcalm, recv_spec.
  - apply Hcalm, peer_spec.
  - destruct (listener_spec input p) as (Ho & Hm & Hg & Hc). split; [by eapply pinv_sub|].
    destruct K as [O K]. assert (∀ i c, ps_conns p !! i = Some c → conn_ok (Process.listener_step input p) i c) as L.
    { intros i c Hi. apply (conn_later p); [by rewrite Hm|done|by apply K]. }
    unfold conns_ok, owners_ok. rewrite Hm. destruct Hc as [->| ->]; [done|]. split.
    + rewrite length_app. eapply Forall_impl; [exact O|]. intros x. cbn. lia.
    + intros i c [Hi|(Hlen & Hi)]%lookup_app_Some; [by apply L|].
      apply list_lookup_singleton_Some in Hi as [Hlen' <-]. assert (i = length (ps_conns p)) as -> by lia.
      apply new_conn_ok. rewrite Hm. by apply made_by_none.
  - split; [by apply conn_step_owed|by apply conn_step_conns].
Qed.

Lemma run_inv ls p : pinv p → conns_ok p → pinv (run ls p) ∧ conns_ok (run ls p).
Proof.
  revert p. induction ls as [|l ls IH]; intros p I K; [done|]. cbn [Process.run fold_left].
  destruct (step_inv l p I K) as [I' K']. by apply IH.
Qed.

Lemma boot_inv a files o now :
  pinv (Process.boot seed_gen a files o now) ∧ conns_ok (Process.boot seed_gen a files o now).
Proof.
  unfold Process.boot. set (s0 := mkTs _ empty_queue o). pose proof (requests_start s0) as Hr.
  unfold same_requests in Hr. destruct (Process.listener_open _ _) as [r o']. split; [|by split; [constructor|]].
  assert (∀ p, kept_tokens (ps_node p) = [] → requests (se_net (ps_env p)) = [] → se_set (ps_env p) = [] → pinv p) as Hn.
  { intros p Hn Hq Hs. split; rewrite owed_by_eq, Hn, Hq, Hs; constructor. }
  apply Hn; [by cbn; unfold Process.build_node; destruct (bool_decide _)| |done]. unfold requests. cbn [ps_env se_net tdq]. rewrite post_requests.
  unfold requests in Hr. rewrite Hr. by destruct (stopped_ _).
Qed.

Lemma set_value_in l q t : set_value l q = Some t → (q, t) ∈ l.
Proof.
  unfold set_value. destruct (list_find _ l) as [[i [q' t']]|] eqn:Hf; [|done]. intros [= ->].
  apply list_find_Some in Hf as (Hi & Hq & _). cbn in Hq. subst q'. by eapply list_elem_of_lookup_2.
Qed.

(** C28: the server seen by its clients.  Let the threads of a server that
    [main] has started - main, timers, transport, listener, connections - move
    in any order, signals included, and let the clients' text arrive in any
    pieces.  No promise is set twice, so no [set_value] throws.  And take a
    connection whose thread has ended: [rs] being the requests it has made, in
    order, each has a promise of its own ([qs]), that promise was set (to
    [texts]), and what the thread has written is exactly what the sequential
    protocol [handle_client] writes for the client's text when the answer to
    its [k]-th request is the value of the promise made for that request. *)
Theorem server_sessions (ls : list label) (a : Args) (files : string → bytes) (o : OS) (now : Z) :
  let p := run ls (Process.boot seed_gen a files o now) in
  NoDup (se_set (ps_env p)).*1 ∧
  ∀ i c, ps_conns p !! i = Some c → cn_open c = false →
    ∃ rs qs texts,
      made_by i (ps_made p) = zip qs rs ∧ length qs = length rs ∧
      Forall2 (λ q t, (q, t) ∈ se_set (ps_env p)) qs texts ∧
      ∀ answer, agrees texts answer →
        ∃ fuel, handle_client answer fuel 0 (fdopen (cn_input c)) = Ok (rs, fi_out (cn_file c)).
Proof.
  cbv zeta. destruct (boot_inv a files o now) as [I0 K0]. destruct (run_inv ls _ I0 K0) as [[D _] [_ K]]. split.
  { rewrite owed_by_eq in D. by apply NoDup_app in D as (_ & _ & (_ & _ & ?)%NoDup_app). }
  intros i c Hi Hopen. destruct (K i c Hi) as (rs & qs & texts & [L V R N]). destruct (N Hopen) as [Hw Hl].
  rewrite Hw in R. destruct R as [Hm R]. exists rs, qs, texts. split_and!; [done|done| |].
  - eapply Forall2_impl; [exact V|]. intros q t. apply set_value_in.
  - intros answer Ha. destruct (R answer 0%nat [] (fi_out (cn_file c)) Ha) as (fuel & E); [by apply handle_end|].
    exists fuel. by rewrite E, app_nil_r.
Qed.

(** ** Shutting down *)

Lemma call_listener f p : ps_listener (call f p) = ps_listener p ∧
  (ps_main (call f p) = ps_main p ∨ ∃ e, ps_main (call f p) = MAbort e).
Proof.
  unfold Process.call. destruct (Proc.exec _ _ f _) as [[?|e] x]; (split; [done|]); [by left|right; by exists e].
Qed.

Lemma dispatch_listener p : ps_listener (Process.dispatch dist client_peers p) = ps_listener p ∧
  (ps_main (Process.dispatch dist client_peers p) = ps_main p ∨
   ∃ e, ps_main (Process.dispatch dist client_peers p) = MAbort e).
Proof.
  unfold Process.dispatch. destruct (run_once_eq (ps_pc p) (Process.queue p)) as (x & -> & _).
  destruct x as [|l f|]; [by split; [|left]| |by split; [|left]].
  match goal with |- context [call f ?y] => exact (call_listener f y) end.
Qed.

(** While the listener is in [accept] the main thread does not exit. *)
Lemma waiting_step l p srv :
  (∀ input, l ≠ PListener input) → ps_listener p = LAccept srv → (∀ k, ps_main p ≠ MExit k) →
  ps_listener (step l p) = LAccept srv ∧ ∀ k, ps_main (step l p) ≠ MExit k.
Proof.
  intros Hl Hs Hm. destruct l as [| |d| |fd| |input|i]; cbn [Process.step]; try (by split).
  - unfold Process.main_step. rewrite Hs. destruct (ps_main p) eqn:Hmain; try (by rewrite Hmain).
    assert (ps_listener (Process.dispatch dist client_peers p) = LAccept srv ∧
            ∀ k, ps_main (Process.dispatch dist client_peers p) ≠ MExit k) as Hd.
    { destruct (dispatch_listener p) as [-> [->|[e ->]]]; by rewrite ?Hmain. }
    destruct (ps_pc p); [destruct (ps_done p); [by split|exact Hd]|exact Hd..].
  - unfold Process.timer_step. by destruct (Clock.run pop_top _ _) as [[[| | |t]|e] x].
  - by destruct (Hl input).
  - unfold Process.conn_step. destruct (ps_conns p !! i) as [c|]; [|done]. cbv zeta.
    destruct (negb _); [done|]. destruct (cn_wait c); [by destruct (Process.value_of _ p)|].
    destruct (fgets_file _ _) as [[|ch line] f]; [done|]. by destruct (parse_line _).
Qed.

Lemma waiting_run ls p srv :
  Forall (λ l, ∀ input, l ≠ PListener input) ls → ps_listener p = LAccept srv → (∀ k, ps_main p ≠ MExit k) →
  ∀ k, ps_main (run ls p) ≠ MExit k.
Proof.
  intros Hls. revert p. induction Hls as [|l ls Hl _ IH]; intros p Hs Hm; [done|].
  destruct (waiting_step l p srv Hl Hs Hm) as [Hs' Hm']. by apply (IH (step l p)).
Qed.

End Run.

(** ** A run of a server

    One node, whose client puts a key, reads it back and sends a word that is
    no command; then the process is told to stop, and stops when another
    client connects. *)
#[local] Existing Instance toy_Sockets.
#[local] Existing Instance toy_laws.

Definition toy_dist (lo hi : Z) : M unit Z := mret lo.
Lemma toy_dist_ok lo hi g : ∃ x g', toy_dist lo hi g = (Ok x, g').
Proof. by eexists _, _. Qed.

Definition toy_argv : list string := ["simkv_server"; "--id"; "1"; "--raft-port"; "7001"; "--client-port"; "8001"].
Definition toy_args : Args := mkArgs 1 7001 8001 ∅ ∅ "".
Definition toy_input : list string := [concat ["PUT k v"; eol]; "GET"; concat [" k"; eol]; concat ["HELLO"; eol]].
Definition toy_output : string := concat ["+OK"; eol; "+v"; eol; "-ERR unknown_command"; eol].

(** The client connects; the node starts and its election timer fires; the
    requests are posted, served and answered in turn. *)
Definition toy_labels : list label :=
  [ PListener []; PListener toy_input; PMain; PTime 300000000; PTimer; PMain; PMain;
    PConn 0; PMain; PMain; PConn 0; PConn 0; PMain; PMain; PConn 0; PConn 0; PConn 0 ].

Definition toy_seed (z : Z) : unit := tt.
Definition toy_files (name : string) : bytes := [].
Definition toy_os : toy := mkToy 3 ∅ ∅ ∅ ∅ 2 100.
Local Abbreviation toy_process := (Process.boot toy_seed toy_args toy_files toy_os 0).
Local Abbreviation toy_run := (Process.run toy_dist scan_top ∅).

Lemma server_sessions_witness :
  Process.main toy_seed toy_argv toy_files toy_os 0 = Ok (inl toy_process) ∧
  let p := toy_run toy_labels toy_process in
  ∃ c, ps_conns p !! 0%nat = Some c ∧ cn_open c = false ∧ fi_out (cn_file c) = toy_output ∧
    ps_made p = [(0%nat, RPut "k" "v"); (0%nat, RGet "k")] ∧ NoDup (se_set (ps_env p)).*1 ∧
    ∃ rs qs texts, zip qs rs = [(0, RPut "k" "v"); (1, RGet "k")] ∧
      Forall2 (λ q t, (q, t) ∈ se_set (ps_env p)) qs texts ∧
      ∀ answer, agrees texts answer → ∃ fuel, handle_client answer fuel 0 (fdopen toy_input) = Ok (rs, toy_output).
Proof.
  split; [vm_compute; reflexivity|]. cbv zeta.
  pose proof (server_sessions toy_dist scan_top ∅ toy_seed toy_dist_ok toy_labels toy_args toy_files toy_os 0) as H.
  cbv zeta in H. destruct H as [D K].
  assert (ps_conns (toy_run toy_labels toy_process) !! 0%nat =
    Some (mkConn toy_input (mkFILE "" [] toy_output false) None false)) as Hc
    by (vm_compute; reflexivity).
  assert (ps_made (toy_run toy_labels toy_process) = [(0%nat, RPut "k" "v"); (0%nat, RGet "k")]) as Hm
    by (vm_compute; reflexivity).
  eexists. split; [exact Hc|]. split; [reflexivity|]. split; [reflexivity|]. split; [exact Hm|].
  split; [exact D|]. destruct (K _ _ Hc eq_refl) as (rs & qs & texts & Hz & _ & Hset & R). exists rs, qs, texts.
  split; [rewrite <-Hz, Hm; reflexivity|]. split; [exact Hset|exact R].
Defined.

(** The server of the run above, with its listener back in [accept], after a
    signal. *)
Definition toy_stopping : process unit toy := toy_run [PMain; PListener []; PSignal] (toy_run toy_labels toy_process).

