(* ===== verification/Cli.v ===== *)
(** * The command line tool: [src/cli/main.cpp]

    [simkv run] and [simkv replay]: options to a [RunConfig], one simulated
    run, the check of its history, the exit code, the history file and the text
    on [std::cout] and [std::cerr]. *)

From Corelib Require Import SpecFloat.
From Stdlib Require Import Ascii.
From stdpp Require Import pretty.
From S2P Require Import Prelude Codec Types Rpc Env Prng EventQueue Simulator Network Node.
From S2P Require Import History Checker Text Format Workload FaultInjector Runner.
Open Scope string_scope.
Open Scope list_scope.
Open Scope Z_scope.

(** ** [std::stod] *)

(** [m * 10^e] and [m * 2^e], rounded to nearest. *)
Definition dbl_decimal (m e : Z) : double :=
  match m with
  | Zpos p =>
      if 0 <=? e then binary_normalize dprec demax (m * 10 ^ e) 0 false
      else SFdiv dprec demax (S754_finite false p 0) (S754_finite false (Z.to_pos (10 ^ - e)) 0)
  | _ => S754_zero false
  end.
Definition dbl_binary (m e : Z) : double := binary_normalize dprec demax m e false.

Definition lower (c : ascii) : Z := if (65 <=? code c) && (code c <=? 90) then code c + 32 else code c.

(** The value of a digit in base 16. *)
Definition hex_value (c : ascii) : option Z :=
  if is_digit c then Some (code c - 48)
  else if (97 <=? lower c) && (lower c <=? 102) then Some (lower c - 87) else None.
Definition dec_value (c : ascii) : option Z := if is_digit c then Some (code c - 48) else None.

(** Digits of a base: their value, their number and the rest. *)
Fixpoint digits (base : Z) (value : ascii → option Z) (s : string) (acc n : Z) : Z * Z * string :=
  match s with
  | String c s' =>
      match value c with
      | Some d => digits base value s' (base * acc + d) (n + 1)
      | None => (acc, n, s)
      end
  | EmptyString => (acc, n, s)
  end.

(** [digits [. digits]]: the value without the point, the number of digits,
    of digits after the point, and the rest. *)
Definition mantissa (base : Z) (value : ascii → option Z) (s : string) : Z * Z * Z * string :=
  let '(m, n, r) := digits base value s 0 0 in
  match r with
  | String c r' =>
      if code c =? 46 then
        let '(m', k, r'') := digits base value r' m 0 in (m', n + k, k, r'')
      else (m, n, 0, r)
  | EmptyString => (m, n, 0, r)
  end.

(** An exponent [e +-ddd], 0 if there is none. *)
Definition exponent (mark : Z) (s : string) : Z :=
  match s with
  | String c r =>
      if lower c =? mark then
        let '(neg, r') :=
          match r with
          | String c' r'' => if code c' =? 45 then (true, r'') else if code c' =? 43 then (false, r'') else (false, r)
          | EmptyString => (false, r)
          end in
        let '(v, _, _) := digits 10 dec_value r' 0 0 in if neg then - v else v
      else 0
  | EmptyString => 0
  end.

Definition dbl_abs_small (d : double) : bool :=
  match d with
  | S754_zero _ => true
  | S754_finite _ m e => (Z.pos m <? 2 ^ 52) && (e =? -1074)
  | _ => false
  end.

(** Whether [d] is [m * b^e] exactly. *)
Definition dbl_exact (d : double) (m b e : Z) : bool :=
  match d with
  | S754_zero _ => m =? 0
  | S754_finite _ p q =>
      Z.pos p * 2 ^ Z.max 0 q * b ^ Z.max 0 (- e) =? m * b ^ Z.max 0 e * 2 ^ Z.max 0 (- q)
  | _ => false
  end.

(** Results out of range raise: infinite ones, and subnormal ones that are not
    exact. *)
Definition checked (d : double) (m b e : Z) : result double :=
  match d with
  | S754_infinity _ => Throw (out_of_range "stod")
  | _ => if dbl_abs_small d && negb (dbl_exact d m b e) then Throw (out_of_range "stod") else Ok d
  end.

Definition starts_with (p s : string) : bool :=
  (fix go (p s : string) : bool :=
     match p, s with
     | EmptyString, _ => true
     | String a p', String b s' => (code a =? lower b) && go p' s'
     | String _ _, EmptyString => false
     end) p s.

(** The text after the sign. *)
Definition stod_unsigned (s : string) : result double :=
  if starts_with "inf" s then Ok (S754_infinity false)
  else if starts_with "nan" s then Ok S754_nan
  else
    let hex :=
      match s with
      | String c (String x r) =>
          if (code c =? 48) && (lower x =? 120) then
            let '(m, n, k, r') := mantissa 16 hex_value r in
            if 0 <? n then
              let e := exponent 112 r' - 4 * k in Some (checked (dbl_binary m e) m 2 e)
            else None
          else None
      | _ => None
      end in
    match hex with
    | Some v => v
    | None =>
        let '(m, n, k, r) := mantissa 10 dec_value s in
        if 0 <? n then
          let e := exponent 101 r - k in checked (dbl_decimal m e) m 10 e
        else Throw (logic_error "stod")
    end.

Definition stod (s : string) : result double :=
  match skip_ws s with
  | String c s' =>
      if code c =? 45 then
        match stod_unsigned s' with Ok d => Ok (SFopp d) | Throw e => Throw e end
      else if code c =? 43 then stod_unsigned s'
      else stod_unsigned (String c s')
  | EmptyString => Throw (logic_error "stod")
  end.

(** ** Options *)

Definition with_seed (v : Z) (c : RunConfig) : RunConfig :=
  mkRunConfig v (rc_num_nodes c) (rc_total_ops c) (rc_fault_rate c) (rc_dump_trace c) (rc_inject_commit_bug c)
    (rc_inject_vote_bug c) (rc_net_cfg c) (rc_workload_cfg c) (rc_fault_cfg c).
Definition with_nodes (v : Z) (c : RunConfig) : RunConfig :=
  mkRunConfig (rc_seed c) (Z.to_nat v) (rc_total_ops c) (rc_fault_rate c) (rc_dump_trace c) (rc_inject_commit_bug c)
    (rc_inject_vote_bug c) (rc_net_cfg c) (rc_workload_cfg c) (rc_fault_cfg c).
Definition with_ops (v : Z) (c : RunConfig) : RunConfig :=
  mkRunConfig (rc_seed c) (rc_num_nodes c) v (rc_fault_rate c) (rc_dump_trace c) (rc_inject_commit_bug c)
    (rc_inject_vote_bug c) (rc_net_cfg c) (rc_workload_cfg c) (rc_fault_cfg c).
Definition with_rate (v : double) (c : RunConfig) : RunConfig :=
  mkRunConfig (rc_seed c) (rc_num_nodes c) (rc_total_ops c) v (rc_dump_trace c) (rc_inject_commit_bug c)
    (rc_inject_vote_bug c) (rc_net_cfg c) (rc_workload_cfg c) (rc_fault_cfg c).
Definition with_flags (trace commit vote : bool) (c : RunConfig) : RunConfig :=
  mkRunConfig (rc_seed c) (rc_num_nodes c) (rc_total_ops c) (rc_fault_rate c) trace commit
    vote (rc_net_cfg c) (rc_workload_cfg c) (rc_fault_cfg c).
Definition with_workload (w : WorkloadConfig) (c : RunConfig) : RunConfig :=
  mkRunConfig (rc_seed c) (rc_num_nodes c) (rc_total_ops c) (rc_fault_rate c) (rc_dump_trace c) (rc_inject_commit_bug c)
    (rc_inject_vote_bug c) (rc_net_cfg c) w (rc_fault_cfg c).

(** The configuration and [emit_history_path]. *)
Record options := mkOptions { o_cfg : RunConfig; o_emit : string }.

Definition on_cfg (f : RunConfig → RunConfig) (o : options) : options := mkOptions (f (o_cfg o)) (o_emit o).

(** The loop over [argv[2] ..]; [inr arg] is the unknown option [arg]. *)
Fixpoint parse_run (argv : list string) (o : options) : result (options + string) :=
  match argv with
  | [] => Ok (inl o)
  | arg :: rest =>
      let c := o_cfg o in
      if bool_decide (arg = "--dump-trace") then
        parse_run rest (on_cfg (with_flags true (rc_inject_commit_bug c) (rc_inject_vote_bug c)) o)
      else if bool_decide (arg = "--inject-commit-bug") then
        parse_run rest (on_cfg (with_flags (rc_dump_trace c) true (rc_inject_vote_bug c)) o)
      else if bool_decide (arg = "--inject-vote-bug") then
        parse_run rest (on_cfg (with_flags (rc_dump_trace c) (rc_inject_commit_bug c) true) o)
      else
        match rest with
        | [] => Ok (inr arg)
        | val :: rest' =>
            if bool_decide (arg = "--seed") then
              match stoul val with Ok v => parse_run rest' (on_cfg (with_seed v) o) | Throw e => Throw e end
            else if bool_decide (arg = "--nodes") then
              match stoul val with Ok v => parse_run rest' (on_cfg (with_nodes v) o) | Throw e => Throw e end
            else if bool_decide (arg = "--ops") then
              match stoul val with Ok v => parse_run rest' (on_cfg (with_ops v) o) | Throw e => Throw e end
            else if bool_decide (arg = "--fault-rate") then
              match stod val with Ok v => parse_run rest' (on_cfg (with_rate v) o) | Throw e => Throw e end
            else if bool_decide (arg = "--emit-history") then
              parse_run rest' (mkOptions c val)
            else Ok (inr arg)
        end
  end.

(** [cfg.workload_cfg] from the options. *)
Definition finish_cfg (c : RunConfig) : RunConfig :=
  let w := rc_workload_cfg c in
  with_workload
    (mkWorkloadConfig (Z.to_nat (Z.max 2 (wrap64 (Z.of_nat (rc_num_nodes c) - 1)))) (num_keys w) (rc_total_ops c)
       (think_time w) (put_prob w) (get_prob w)) c.

(** ** [main] *)

(** What [main] leaves: the exit code, the file that is written with its
    content, and the texts on [std::cout] and [std::cerr]. *)
Record verdict := mkVerdict {
  v_code : Z;
  v_file : option (string * string);
  v_out : string;
  v_err : string;
}.

Definition print_usage (prog : string) : string :=
  concat ["Usage: "; prog; " <command> [options]"; eol;
          eol;
          "Commands:"; eol;
          "  run       Run a single simulation and check linearizability"; eol;
          "  replay    Re-run a simulation with a known seed (same as run --seed N)"; eol;
          eol;
          "Options for 'run':"; eol;
          "  --seed N           Seed (default: random from wall clock)"; eol;
          "  --nodes N          Number of Raft nodes (default: 3)"; eol;
          "  --ops N            Total client operations (default: 200)"; eol;
          "  --fault-rate F     Fault injection probability per interval (default: 0.05)"; eol;
          "  --dump-trace       Print event trace summary on completion"; eol;
          "  --emit-history F   Write history JSON to file F"; eol;
          "  --inject-commit-bug  Enable prior-term commit bug (correctness test)"; eol;
          "  --inject-vote-bug    Enable skip-uptodate-check bug (correctness test)"; eol].

(** A refusal: [msg], the usage and exit 1. *)
Definition refuse (prog msg : string) : verdict := mkVerdict 1 None "" (msg +:+ print_usage prog).

(** The lines before the run. *)
Definition announce (c : RunConfig) : string :=
  concat ["simkv: seed="; dec (rc_seed c); " nodes="; dec (Z.of_nat (rc_num_nodes c));
          " ops="; dec (rc_total_ops c); " fault_rate="; fixed 2 (rc_fault_rate c); eol] +:+
  (if rc_inject_commit_bug c || rc_inject_vote_bug c then
     concat ["  [BUG INJECTION] commit_bug="; bool_str (rc_inject_commit_bug c);
             " vote_bug="; bool_str (rc_inject_vote_bug c); eol]
   else "").

(** The line that [run_once] prints at its end with [--dump-trace]. *)
Definition dump_trace (c : RunConfig) (r : RunResult) : string :=
  if rc_dump_trace c then
    concat ["seed="; dec (rr_seed r); " trace_hash="; hex (rr_trace_hash r); " ops="; dec (rr_ops_completed r); eol]
  else "".

(** The lines after it. *)
Definition written (path : string) : string :=
  if bool_decide (path = "") then "" else concat ["  history written to "; path; eol].
Definition trace_line (r : RunResult) : string :=
  concat ["  trace_hash="; hex16 (rr_trace_hash r); "  ops_completed="; dec (rr_ops_completed r); eol].

(** The command of the failure report. *)
Definition reproduce (c : RunConfig) : string :=
  "simkv run --seed " +:+ dec (rc_seed c) +:+
  (if rc_inject_commit_bug c then " --inject-commit-bug" else "") +:+
  (if rc_inject_vote_bug c then " --inject-vote-bug" else "").

Definition failure (c : RunConfig) (k : CheckResult) : string :=
  concat [eol; "  FAIL: non-linearizable history!"; eol; "  Failing key: "; chk_failing_key k; eol;
          "  Reason: "; chk_reason k; eol; eol; "  To reproduce: "; reproduce c; eol].

(** From the line "Check linearizability" on.  [can_open] tells which files the
    [std::ofstream] can open: writing to a stream that is not open does
    nothing. *)
Definition report (can_open : string → bool) (o : options) (c : RunConfig) (r : RunResult) : verdict :=
  let check := check_linearizable (rr_history r) in
  let file :=
    if bool_decide (o_emit o = "") then None
    else if can_open (o_emit o) then Some (o_emit o, Hist.to_json (rr_history r)) else None in
  let out := announce c +:+ dump_trace c r +:+ written (o_emit o) +:+ trace_line r in
  if chk_ok check then mkVerdict 0 file (out +:+ "  PASS: history is linearizable" +:+ eol) ""
  else mkVerdict 1 file out (failure c check).

(** [clock] is the default seed from the wall clock; without [argv[0]] the
    usage message would format a null pointer. *)
Definition main (fuel events rounds : nat) (can_open : string → bool) (clock : Z) (argv : list string) : result verdict :=
  match argv with
  | [] => Throw undefined_behaviour
  | [prog] => Ok (refuse prog "")
  | prog :: cmd :: rest =>
      if negb (bool_decide (cmd = "run")) && negb (bool_decide (cmd = "replay")) then
        Ok (refuse prog (concat ["Unknown command: "; cmd; eol]))
      else
        match parse_run rest (mkOptions (with_seed clock default_run) "") with
        | Throw e => Throw e
        | Ok (inr arg) => Ok (refuse prog (concat ["Unknown option: "; arg; eol]))
        | Ok (inl o) =>
            let c := finish_cfg (o_cfg o) in
            match Run.run_once fuel events rounds c with
            | Throw e => Throw e
            | Ok r => Ok (report can_open o c r)
            end
        end
  end.
