(* ===== verification/CliFacts.v ===== *)
(** * The verdict of the command line tool *)

From S2P Require Import Prelude Codec Types Rpc Env Prng EventQueue Simulator Network Node.
From S2P Require Import History Checker Text Workload FaultInjector Runner Cli.
Open Scope string_scope.
Open Scope Z_scope.

Definition run_options (clock : Z) (rest : list string) : result (options + string) :=
  parse_run rest (mkOptions (with_seed clock default_run) "").

(** The file that a run leaves. *)
Definition history_file (can_open : string → bool) (o : options) (r : RunResult) : option (string * string) :=
  if negb (bool_decide (o_emit o = "")) && can_open (o_emit o) then Some (o_emit o, Hist.to_json (rr_history r))
  else None.

(** What the report says. *)
Lemma report_code can_open o c r :
  (v_code (report can_open o c r) = 0 ↔ chk_ok (check_linearizable (rr_history r)) = true) ∧
  v_file (report can_open o c r) = history_file can_open o r.
Proof.
  unfold report, history_file.
  by destruct (chk_ok (check_linearizable (rr_history r))), (bool_decide (o_emit o = "")), (can_open (o_emit o)).
Qed.

(** C32: the verdict.  [simkv run] exits with 0 only if its options were
    understood, the simulation of the configuration they describe returned,
    and every key of the recorded history is linearizable for some choice of
    the crashed puts; if so, and no key has more than 15 crashed puts, it does
    exit with 0.  Whatever the verdict, the history file, if one is asked for
    and can be opened, holds what [to_json] makes of that history (its
    completed operations); otherwise no file is written. *)
Theorem cli_verdict (fuel events rounds : nat) (can_open : string → bool) (clock : Z) (prog cmd : string) (rest : list string) (v : verdict)
    (Hmain : main fuel events rounds can_open clock (prog :: cmd :: rest) = Ok v) :
  (v_code v = 0 → (cmd = "run" ∨ cmd = "replay") ∧
     ∃ o r, run_options clock rest = Ok (inl o) ∧ Run.run_once fuel events rounds (finish_cfg (o_cfg o)) = Ok r ∧
       ∀ key, explained (ops_of (rr_history r) key)) ∧
  (∀ o r, cmd = "run" ∨ cmd = "replay" → run_options clock rest = Ok (inl o) →
     Run.run_once fuel events rounds (finish_cfg (o_cfg o)) = Ok r →
     ((∀ key, (length (uncertain_puts (ops_of (rr_history r) key)) <= cap)%nat) →
      (∀ key, explained (ops_of (rr_history r) key)) → v_code v = 0) ∧
     v_file v = history_file can_open o r).
Proof.
  unfold main in Hmain. fold (run_options clock rest) in Hmain.
  destruct (negb (bool_decide (cmd = "run")) && negb (bool_decide (cmd = "replay"))) eqn:Hcmd.
  { injection Hmain as <-. apply andb_prop in Hcmd as [?%negb_true_iff%bool_decide_eq_false ?%negb_true_iff%bool_decide_eq_false].
    split; [discriminate|]. intros o r [?|?]; contradiction. }
  assert (cmd = "run" ∨ cmd = "replay") as Hc.
  { apply andb_false_iff in Hcmd as [?%negb_false_iff%bool_decide_eq_true|?%negb_false_iff%bool_decide_eq_true]; auto. }
  destruct (run_options clock rest) as [[o|]|]; [| |discriminate].
  2: { injection Hmain as <-. split; discriminate. }
  cbv zeta in Hmain. destruct (Run.run_once fuel events rounds (finish_cfg (o_cfg o))) as [r|] eqn:Hr; [|discriminate].
  assert (v = report can_open o (finish_cfg (o_cfg o)) r) as -> by congruence. clear Hmain.
  destruct (report_code can_open o (finish_cfg (o_cfg o)) r) as [Hcode ->]. split.
  - intros Hk%Hcode. split; [done|]. exists o, r. split_and!; [done|done|]. intros key. apply check_key_sound.
    by apply check_linearizable_ok.
  - intros o' r' _ [= <-] Hr'. rewrite Hr in Hr'. injection Hr' as <-. split; [|done]. intros Hcap Hex.
    apply Hcode, check_linearizable_ok. intros key. by apply check_key_complete.
Qed.

Definition demo_argv : list string := ["--seed"; "7"; "--ops"; "2"; "--fault-rate"; "0.5"; "--emit-history"; "h.json"].

Lemma cli_verdict_witness :
  ∃ v o r, main 64 2000 1200 (λ _, true) 0 ("simkv" :: "run" :: demo_argv) = Ok v ∧ v_code v = 0 ∧ run_options 0 demo_argv = Ok (inl o) ∧
    Run.run_once 64 2000 1200 (finish_cfg (o_cfg o)) = Ok r ∧ (∀ key, explained (ops_of (rr_history r) key)) ∧
    v_file v = Some ("h.json", Hist.to_json (rr_history r)).
Proof.
  assert (∃ v, main 64 2000 1200 (λ _, true) 0 ("simkv" :: "run" :: demo_argv) = Ok v ∧ v_code v = 0) as (v & Hv & Hc).
  { eexists. split; vm_compute; reflexivity. }
  destruct (cli_verdict 64 2000 1200 (λ _, true) 0 "simkv" "run" demo_argv v Hv) as [H Hf].
  destruct (H Hc) as (_ & o & r & Ho & Hr & Hex). exists v, o, r.
  destruct (Hf o r (or_introl eq_refl) Ho Hr) as [_ Hfile].
  split; [exact Hv|]. split; [exact Hc|]. split; [exact Ho|]. split; [exact Hr|]. split; [exact Hex|].
  rewrite Hfile. unfold history_file. assert (o_emit o = "h.json") as -> by (vm_compute in Ho; by injection Ho as <-). reflexivity.
Defined.
