(* ===== verification/HarnessFindings.v ===== *)
(** * Executions that show defects of the harness and the server

    As in [Findings]: concrete inputs, evaluated, on which the code does
    something else than its comments or its output say. *)

From Stdlib Require Import Ascii.
From S2P Require Import Prelude Codec DurableStore Types Wal KvStore RaftLog Rpc Env Node.
From S2P Require Import History Checker Workload Text TcpTransport Server Runner Cli.
Open Scope string_scope.
Open Scope Z_scope.

(** ** The checker's view of unanswered operations *)

Definition entry (req : Z) (kind : OpKind) (value : string) (inv ret : SimTime) (resp : string) (ok : bool) : HistoryEntry :=
  mkHistoryEntry 100 req kind "k0" value "" inv ret resp ok false.

(** The answer of a node that crashes, as the client records it. *)
Definition crash_result : CmdResult := mkCmdResult false "" "node_crashed".

(** A [Get] answered by a crashing node is recorded as a read of the empty
    value, which contradicts the completed [Put] before it. *)
Theorem crashed_get_is_a_read :
  Work.response_of OpGet crash_result = "" ∧
  chk_ok (check_linearizable
    [ entry 0 OpPut "v1" 0 1 "ok" true;
      entry 1 OpGet "" 2 3 (Work.response_of OpGet crash_result) (res_ok crash_result) ]) = false.
Proof. vm_compute. done. Qed.

(** A [Put] that timed out at the client and took effect is left out, so the
    [Get] that sees it has nothing to explain it. *)
Theorem timed_out_put_is_forgotten :
  chk_ok (check_linearizable
    [ entry 0 OpPut "v1" 0 10 "timeout" false; entry 1 OpGet "" 11 12 "v1" true ]) = false ∧
  chk_ok (check_linearizable
    [ entry 0 OpPut "v1" 0 10 "node_crashed" false; entry 1 OpGet "" 11 12 "v1" true ]) = true.
Proof. vm_compute. done. Qed.

(** ** The tools *)

(** The command that a failure report prints does not carry the number of
    nodes, of operations, or the fault rate. *)
Theorem reproduce_forgets_options :
  reproduce (with_ops 40 (with_nodes 5 (with_rate (dbl_ratio 1 2) default_run))) = reproduce default_run.
Proof. reflexivity. Qed.

(** With [--nodes 0] the number of clients wraps around. *)
Theorem zero_nodes_wrap :
  Z.of_nat (num_clients (rc_workload_cfg (finish_cfg (with_nodes 0 default_run)))) = 2 ^ 64 - 1.
Proof. unfold finish_cfg. cbn [rc_workload_cfg with_workload num_clients]. rewrite Z2Nat.id; [reflexivity|]. vm_compute. discriminate. Qed.

(** A history file that cannot be opened is reported as written. *)
Theorem unopened_file_reported (o : options) (c : RunConfig) (r : RunResult) :
  o_emit o ≠ "" → v_file (report (λ _, false) o c r) = None ∧
  ∃ before after, v_out (report (λ _, false) o c r) = before +:+ "  history written to " +:+ o_emit o +:+ after.
Proof.
  intros Ho. unfold report, written. rewrite bool_decide_false by done.
  destruct (chk_ok _); (split; [done|]); eexists (announce c +:+ dump_trace c r), _; cbn [v_out Format.concat foldr];
    by rewrite !text_app_assoc.
Qed.

(** ** The client port *)

Fixpoint repeat_char (n : nat) (c : ascii) : string :=
  match n with O => "" | S n' => String c (repeat_char n' c) end.

(** A line longer than the buffer is two lines to the server: a [PUT] stores a
    cut-off value, and what is left of the value is a command of its own.  When
    the rest of the line arrives later both are answered; when it arrives with
    the first part, neither is. *)
Theorem long_line_is_cut :
  let answer := λ (_ : nat) (_ : request), "+OK" +:+ eol in
  let first := "PUT k " +:+ repeat_char 4089 "v" in
  handle_client answer 5 0 (fdopen [first; "GET k" +:+ eol]) =
    Ok ([RPut "k" (repeat_char 4089 "v"); RGet "k"], "+OK" +:+ eol +:+ "+OK" +:+ eol) ∧
  handle_client answer 5 0 (fdopen [first +:+ "GET k" +:+ eol]) = Ok ([RPut "k" (repeat_char 4089 "v")], "").
Proof. vm_compute. split; reflexivity. Qed.
