(* ===== verification/HostEnv.v ===== *)
(** * Nodes inside a simulation program: [src/demo/demo.cpp], [src/bench/bench_recovery.cpp]

    A program that builds a simulator, a network and nodes, and calls the
    nodes directly.  The callbacks it hands to a node are closures that write
    to its local variables: a [Host] is the type [F] of these variables with
    what each closure does to them.  [hosted F] is the environment of such a
    node, [cluster F] the environment with the nodes. *)

From S2P Require Import Prelude Codec DurableStore Types Wal KvStore RaftLog Rpc Env Prng EventQueue Simulator Network Node.
From S2P Require Import Workload FaultInjector Runner.

(** The closures a program passes to [submit], [read_index] and
    [set_state_change_cb]; the last is given the time [sim.now()]. *)
Class Host (F : Type) := {
  host_client : Z → CmdResult → M F unit;
  host_read : Z → bool → option string → M F unit;
  host_state : SimTime → NodeId → Role → Term → M F unit;
}.

(** What the event queue of such a program holds. *)
Inductive closure :=
| CTimer (t : timer)
| CDeliver (h : handler) (m : Message).

(** [h_sent] is not part of the program: the messages given to the network
    so far, the last one first, for statements about a run. *)
Record hosted (F : Type) := mkHosted {
  h_net : netsim handler closure;
  h_sent : list Message;
  h_locals : F;
}.
Arguments mkHosted {F} _ _ _.
Arguments h_net {F} _.
Arguments h_sent {F} _.
Arguments h_locals {F} _.

Record cluster (F : Type) := mkCluster { c_env : hosted F; c_nodes : gmap NodeId RaftNode }.
Arguments mkCluster {F} _ _.
Arguments c_env {F} _.
Arguments c_nodes {F} _.

Module Hosted.
Section Hosted.
Context {F : Type} `{Host F} (fuel : nat).

Definition on_net {B} (m : M (netsim handler closure) B) : M (hosted F) B := λ s,
  let '(r, x) := m (h_net s) in (r, mkHosted x (h_sent s) (h_locals s)).
Definition on_locals {B} (m : M F B) : M (hosted F) B := λ s,
  let '(r, x) := m (h_locals s) in (r, mkHosted (h_net s) (h_sent s) x).

Definition note_sent (m : Message) : M (hosted F) unit :=
  modify (λ s, mkHosted (h_net s) (m :: h_sent s) (h_locals s)).

#[export] Instance hosted_NodeEnv : NodeEnv (hosted F) := {|
  env_clock := {|
    schedule delay t := on_net (Net.on_sim (Sim.schedule delay (CTimer t)));
    cancel id := on_net (Net.on_sim (Sim.cancel id));
    random_range lo hi := on_net (Net.on_sim (Sim.random_range fuel lo hi))
  |};
  env_net := {|
    net_send from to payload := note_sent (mkMessage from to payload);; on_net (Net.send CDeliver fuel from to payload);
    set_handler id h := on_net (Net.set_handler id h);
    remove_handler id := on_net (Net.remove_handler id)
  |};
  env_callbacks := {|
    client_done t r := on_locals (host_client t r);
    read_done t _ b v := on_locals (host_read t b v);
    state_changed id r t := λ s, on_locals (host_state (clock_ (ns_sim (h_net s))) id r t) s
  |};
|}.

(** ** The cluster *)

Definition net {B} (m : M (netsim handler closure) B) : M (cluster F) B := λ s,
  let '(r, x) := on_net m (c_env s) in (r, mkCluster x (c_nodes s)).
Definition locals {B} (m : M F B) : M (cluster F) B := λ s,
  let '(r, x) := on_locals m (c_env s) in (r, mkCluster x (c_nodes s)).

(** A method of the node [id]. *)
Definition on_node {B} (id : NodeId) (m : M (nstate (hosted F)) B) : M (cluster F) B := λ s,
  match c_nodes s !! id with
  | None => (Throw undefined_behaviour, s)
  | Some n =>
      let '(r, x) := m (mkN n (c_env s)) in (r, mkCluster (env x) (<[id := nd x]> (c_nodes s)))
  end.

Definition clu_sim (s : cluster F) : Simulator closure := ns_sim (h_net (c_env s)).
Definition set_sim (x : Simulator closure) (s : cluster F) : cluster F :=
  mkCluster (mkHosted (mkNetsim (ns_net (h_net (c_env s))) x) (h_sent (c_env s)) (h_locals (c_env s))) (c_nodes s).

(** [sim.now()] *)
Definition now : M (cluster F) SimTime := gets (λ s, clock_ (clu_sim s)).

(** Calling a closure; no client of the network is part of the program. *)
Definition perform (c : closure) : M (cluster F) unit :=
  match c with
  | CTimer t => on_node (timer_node t) (Node.on_timer t)
  | CDeliver (HNode id) m => on_node id (Node.on_message m)
  | CDeliver (HClient _) _ => mret tt
  end.

(** [sim.run_for(d)], at most [events] events. *)
Definition run_for (events : nat) (d : SimTime) : M (cluster F) unit :=
  Sim.run_for clu_sim set_sim perform events d.

(** A simulator and a network, and a node per id; [observed] nodes have a
    state-change callback. *)
Definition build (seed : Z) (ids : list NodeId) (cfg : RaftConfig) (observed : bool) (x : F) : cluster F :=
  mkCluster (mkHosted (mkNetsim (make_network default_network) (make_simulator seed)) [] x)
    (list_to_map ((λ id,
       (id, (make_node id (filter (λ p, p ≠ id) ids) cfg) <| state_change_cb_ := observed |>)) <$> ids)).

(** [for (n : nodes) n->start()] *)
Definition start_nodes (ids : list NodeId) : M (cluster F) unit :=
  for_each ids (λ id, on_node id Node.start).

(** The first of [ids] whose node satisfies [ok]. *)
Definition first_node (ok : RaftNode → bool) (ids : list NodeId) (s : cluster F) : option NodeId :=
  match list_find (λ id, from_option ok false (c_nodes s !! id) = true) ids with
  | Some (_, id) => Some id
  | None => None
  end.

End Hosted.
End Hosted.
