(* ===== verification/HostFrame.v ===== *)
(** * Hosted clusters, framed

    A hosted environment is backed by its simulator and network, whatever the
    host's closures do to the program's variables; so nothing a node of a
    program does moves the clock or schedules into the past, and [run_for]
    advances the clock by exactly its argument. *)

From S2P Require Import Prelude Codec DurableStore Types Wal KvStore RaftLog Rpc Env Prng EventQueue Simulator Network Node.
From S2P Require Import NetFrame SimRun SimEnv SimFrame Workload FaultInjector Runner HostEnv.

Section HostFrame.
Context {F : Type} `{Host F} (fuel : nat).
#[local] Instance host_env : NodeEnv (hosted F) := Hosted.hosted_NodeEnv fuel.
Implicit Types (s : cluster F) (e : hosted F).

#[export] Instance hosted_view : SimView (hosted F) closure := h_net.

Lemma seen_net {B} (m : M (netsim handler closure) B) : keeps ahead m → keeps seen (Hosted.on_net m : M (hosted F) B).
Proof.
  intros Hm e. unfold Hosted.on_net, seen. pose proof (Hm (h_net e)) as K. by destruct (m (h_net e)).
Qed.
Lemma seen_locals {B} (m : M F B) : keeps seen (Hosted.on_locals m : M (hosted F) B).
Proof. intros e. unfold Hosted.on_locals, seen. destruct (m (h_locals e)). reflexivity. Qed.

#[export] Instance hosted_backed : SimBacked (hosted F) closure.
Proof.
  split; cbn; intros.
  - by apply seen_net, ahead_schedule.
  - apply seen_net, ahead_cancel.
  - by apply seen_net, ahead_range.
  - match goal with Hx : Hosted.on_net _ _ = _ |- _ => unfold Hosted.on_net in Hx;
      destruct (Net.on_sim _ _) as [r x] eqn:Hr in Hx; injection Hx as -> _ end. by eapply netsim_range.
  - intros e. unfold mbind, M_bind, Hosted.note_sent, modify.
    apply (seen_net _ (ahead_send _ _ _ _ _) (mkHosted (h_net e) (_ :: h_sent e) (h_locals e))).
  - by apply seen_net, ahead_upd_net.
  - by apply seen_net, ahead_upd_net.
  - apply seen_locals.
  - apply seen_locals.
  - intros e. apply (seen_locals _ e).
Qed.

(** ** The invariant of a cluster *)
Local Abbreviation now s := (clock_ (Hosted.clu_sim s)).

Record sound s : Prop := {
  so_future : future (h_net (c_env s));
  so_nodes : ∀ id n, c_nodes s !! id = Some n → short_config (cfg_ n);
}.

(** One step at the same time. *)
Definition steady s s' : Prop := sound s → sound s' ∧ now s' = now s.

#[export] Instance steady_pre : PreOrder steady.
Proof.
  split; [by intros s|]. intros s1 s2 s3 H12 H23 K. destruct (H12 K) as [K' E].
  destruct (H23 K') as [K'' E']. split; [done|congruence].
Qed.

Lemma steady_node {B} id (m : M (nstate (hosted F)) B) : keeps framed m → keeps steady (Hosted.on_node id m).
Proof.
  intros Hm s [Hf Hn]. unfold Hosted.on_node. destruct (c_nodes s !! id) as [n|] eqn:Hid; [|done].
  pose proof (Hm (mkN n (c_env s))) as Hx. destruct (m (mkN n (c_env s))) as [r x].
  destruct Hx as [C T Fu]; [by eapply Hn|done|]. cbn [snd nd env] in *. split; [|done]. split; [done|].
  intros j n' Hj. cbn [c_nodes] in Hj. apply lookup_insert_Some in Hj as [[<- <-]|[_ Hj]]; [rewrite C|]; by eapply Hn.
Qed.
Lemma steady_net {B} (m : M (netsim handler closure) B) : keeps ahead m → keeps steady (Hosted.net m : M (cluster F) B).
Proof.
  intros Hm s [Hf Hn]. unfold Hosted.net. pose proof (seen_net m Hm (c_env s)) as [C T].
  destruct (Hosted.on_net m (c_env s)) as [r x]. split; [split; [by apply T|done]|done].
Qed.
Lemma steady_locals {B} (m : M F B) : keeps steady (Hosted.locals m : M (cluster F) B).
Proof.
  intros s [Hf Hn]. unfold Hosted.locals. pose proof (seen_locals m (c_env s)) as [C T].
  destruct (Hosted.on_locals m (c_env s)) as [r x]. split; [split; [by apply T|done]|done].
Qed.
Lemma steady_gets {B} (f : cluster F → B) : keeps steady (gets f).
Proof. intros s. reflexivity. Qed.

Lemma steady_perform c : keeps steady (Hosted.perform fuel c : M (cluster F) unit).
Proof.
  destruct c as [t|[id|ci] m]; cbn [Hosted.perform].
  - apply steady_node, framed_on_timer.
  - apply steady_node, framed_on_message.
  - apply keeps_ret, _.
Qed.

Lemma sound_laws : run_laws Hosted.clu_sim Hosted.set_sim (Hosted.perform fuel) sound.
Proof.
  split.
  - done.
  - by intros [[[? ?] ? ?] ?].
  - intros s K. apply (so_future s K).
  - intros s K. apply (so_future s K).
  - intros s t h q [[G C L E] N] Hle Ht Hq. by split.
  - intros c s s' Hp K. pose proof (steady_perform c s K) as Hs. by rewrite Hp in Hs.
Qed.

Lemma run_for_sound events d s s' :
  0 <= d → short (now s + d) → sound s → Hosted.run_for fuel events d s = (Ok tt, s') →
  sound s' ∧ now s' = now s + d.
Proof. apply (run_for_inv _ _ _ _ sound_laws). Qed.

Lemma build_sound seed ids cfg b x : short_config cfg → sound (Hosted.build seed ids cfg b x : cluster F).
Proof.
  intros Hc. split.
  - split; simpl; [apply make_prng_ok|done|vm_compute; repeat split; congruence|constructor].
  - intros id n Hn. simpl in Hn. apply elem_of_list_to_map_2 in Hn.
    by apply list_elem_of_fmap in Hn as (i & [= -> ->] & _).
Qed.

Lemma steady_start ids : keeps steady (Hosted.start_nodes fuel ids : M (cluster F) unit).
Proof. apply keeps_for_each; [apply _|]. intros id. apply steady_node, framed_start. Qed.
End HostFrame.

(** What a steady computation leaves. *)
Lemma steady_at {F} {B} (m : M (cluster F) B) r s s' :
  keeps steady m → m s = (r, s') → sound s →
  sound s' ∧ clock_ (Hosted.clu_sim s') = clock_ (Hosted.clu_sim s).
Proof. intros Hm E K. pose proof (Hm s K) as Hs. by rewrite E in Hs. Qed.
