(* ===== verification/Demo.v ===== *)
(** * The demonstration: [src/demo/demo.cpp]

    One scripted simulation of three nodes.  The local variables of [main]
    that its closures write are the host's; the locals [done] and [ok] of a
    call of [write_key] exist only while the call runs, so a callback that
    comes later writes through a dangling reference.  What the program prints
    is the text [d_out] and [d_err]; [pause] only waits in real time. *)

From Stdlib Require Import Ascii.
From stdpp Require Import pretty.
From S2P Require Import Prelude Codec DurableStore Types Wal KvStore RaftLog Rpc Env Prng EventQueue Simulator Network Node.
From S2P Require Import History Workload FaultInjector Runner Text Format Server HostEnv.
Open Scope list_scope.
Open Scope Z_scope.

(** ** Text *)

(** An ANSI colour sequence. *)
Definition ansi (body : string) : string := String (ascii_of_byte 27) ("[" +:+ body +:+ "m").
Definition RESET : string := ansi "0".
Definition BOLD : string := ansi "1".
Definition DIM : string := ansi "2".
Definition GREEN : string := ansi "32".
Definition YELLOW : string := ansi "33".
Definition RED : string := ansi "31".
Definition CYAN : string := ansi "36".
Definition BLUE : string := ansi "34".
Definition MAGENTA : string := ansi "35".

Definition role_str (r : Role) : string :=
  match r with
  | Leader => GREEN +:+ "leader" +:+ RESET
  | Candidate => YELLOW +:+ "candidate" +:+ RESET
  | Follower => BLUE +:+ "follower" +:+ RESET
  end.

Definition ts (t : SimTime) : string := CYAN +:+ pad_left 5 (dec (t / kMsec)) +:+ "ms" +:+ RESET.

(** ** The locals of [main] *)

Record Event := mkEvent_ { ev_t : SimTime; ev_id : NodeId; ev_role : Role; ev_term : Term }.

Record demo_locals := mkDemo {
  d_events : list Event;
  d_op_seq : Z;
  d_committed : gmap string string;
  d_writes : gmap Z (bool * bool);
  d_read : bool * bool * option string;
  d_out : string;
  d_err : string;
}.

Definition no_locals : demo_locals := mkDemo [] 0 ∅ ∅ (false, false, None) "" "".

Definition set_events (l : list Event) (d : demo_locals) : demo_locals :=
  mkDemo l (d_op_seq d) (d_committed d) (d_writes d) (d_read d) (d_out d) (d_err d).
Definition set_op_seq (n : Z) (d : demo_locals) : demo_locals :=
  mkDemo (d_events d) n (d_committed d) (d_writes d) (d_read d) (d_out d) (d_err d).
Definition set_committed (m : gmap string string) (d : demo_locals) : demo_locals :=
  mkDemo (d_events d) (d_op_seq d) m (d_writes d) (d_read d) (d_out d) (d_err d).
Definition set_writes (m : gmap Z (bool * bool)) (d : demo_locals) : demo_locals :=
  mkDemo (d_events d) (d_op_seq d) (d_committed d) m (d_read d) (d_out d) (d_err d).
Definition set_read (x : bool * bool * option string) (d : demo_locals) : demo_locals :=
  mkDemo (d_events d) (d_op_seq d) (d_committed d) (d_writes d) x (d_out d) (d_err d).
Definition print_out (s : string) (d : demo_locals) : demo_locals :=
  mkDemo (d_events d) (d_op_seq d) (d_committed d) (d_writes d) (d_read d) (d_out d +:+ s) (d_err d).
Definition print_err (s : string) (d : demo_locals) : demo_locals :=
  mkDemo (d_events d) (d_op_seq d) (d_committed d) (d_writes d) (d_read d) (d_out d) (d_err d +:+ s).

(** The closure of [write_key]: [done] and [ok] of the call it was made in. *)
Definition write_closure (t : Z) (r : CmdResult) : M demo_locals unit := λ d,
  match d_writes d !! t with
  | Some _ => (Ok tt, set_writes (<[t := (true, res_ok r)]> (d_writes d)) d)
  | None => (Throw undefined_behaviour, d)
  end.

(** The closures of [read_index] and of [set_state_change_cb]. *)
Definition read_closure (ok : bool) (v : option string) : M demo_locals unit :=
  modify (set_read (true, ok, v)).
Definition state_closure (now : SimTime) (id : NodeId) (r : Role) (t : Term) : M demo_locals unit :=
  modify (λ d, set_events (d_events d ++ [mkEvent_ now id r t]) d).

#[export] Instance demo_host : Host demo_locals := {|
  host_client := write_closure;
  host_read _ := read_closure;
  host_state := state_closure
|}.

Module Demo.
Section Demo.
(** The bounds on rejected draws and on events per [run_for]. *)
Context (fuel events : nat).
#[local] Instance demo_NodeEnv : NodeEnv (hosted demo_locals) := Hosted.hosted_NodeEnv fuel.
Local Abbreviation MD := (M (cluster demo_locals)).
Local Abbreviation run_for := (Hosted.run_for (F := demo_locals) fuel events).

Definition upd (f : demo_locals → demo_locals) : MD unit := Hosted.locals (modify f).
Definition rd {B} (f : demo_locals → B) : MD B := gets (λ s, f (h_locals (c_env s))).
Definition cout (l : list string) : MD unit := upd (print_out (concat l)).
Definition cerr (s : string) : MD unit := upd (print_err s).

Definition header (phase title : string) : MD unit :=
  cout [eol; BOLD; "▶ Phase "; phase; "  "; title; RESET; eol].
Definition line (t : SimTime) (msg : list string) : MD unit :=
  cout ["  ["; ts t; "] "; concat msg; eol].

Definition rule : string := "══════════════════════════════════════════════════════".

Definition banner : MD unit :=
  cout [eol];;
  cout [BOLD; "╔"; rule; "╗"; eol];;
  cout ["║       SimKV  ·  deterministic-simulation KV          ║"; eol];;
  cout ["╚"; rule; "╝"; eol; RESET];;
  cout [DIM; "  seed=42  ·  3 nodes  ·  Raft consensus"; eol; RESET].

(** ** Setup *)

Definition all_ids : list NodeId := [1; 2; 3].

Definition demo_config : RaftConfig :=
  mkRaftConfig (election_timeout_lo default_config) (heartbeat_interval default_config)
    (client_timeout default_config) (max_entries_per_ae default_config) 6 (1000 * kMsec)
    (bug_commit_prior_term default_config) (bug_skip_vote_uptodate default_config).

Definition setup (seed : Z) : cluster demo_locals :=
  Hosted.build seed all_ids demo_config true no_locals.

Definition leads (n : RaftNode) : bool := running_ n && bool_decide (role_ n = Leader).
Definition find_leader : MD (option NodeId) := gets (Hosted.first_node leads all_ids).

(** A field of the node [id]. *)
Definition node {B} (id : NodeId) (f : RaftNode → B) : MD B := λ s,
  match c_nodes s !! id with
  | Some n => (Ok (f n), s)
  | None => (Throw undefined_behaviour, s)
  end.

Definition write_key (k v : string) : MD bool :=
  l ← find_leader;
  match (l : option NodeId) with
  | None => mret false
  | Some l =>
      seq ← rd d_op_seq;
      upd (set_op_seq (seq + 1));;
      upd (λ d, set_writes (<[seq := (false, false)]> (d_writes d)) d);;
      Hosted.on_node l (Node.submit (wrap64 seq) (wrap64 seq) (CmdPut k v) (CbToken seq));;
      run_for (400 * kMsec);;
      w ← rd (λ d, default (false, false) (d_writes d !! seq));
      upd (λ d, set_writes (delete seq (d_writes d)) d);;
      when (w.1 && w.2) (upd (λ d, set_committed (<[k := v]> (d_committed d)) d));;
      mret (w.1 && w.2)
  end.

(** ** The phases *)

Definition event_line (e : Event) : MD unit :=
  line (ev_t e) ["node-"; dec (ev_id e); "  "; role_str (ev_role e);
                 "  "; DIM; "(term "; dec (ev_term e); ")"; RESET;
                 if bool_decide (ev_role e = Leader)
                 then "  " +:+ GREEN +:+ BOLD +:+ "✓ quorum reached" +:+ RESET else ""].

Definition phase_1 : MD unit :=
  header "1" "Leader Election";;
  before ← rd (λ d, length (d_events d));
  run_for (600 * kMsec);;
  es ← rd d_events;
  for_each (drop before es) event_line.

Definition key_of (i : nat) : string := "k" +:+ dec (Z.of_nat i).
Definition val_of (i : nat) : string := "val-" +:+ dec (Z.of_nat i).

Definition N_WRITES : nat := 8.

Definition write_line (i : nat) : MD unit :=
  before ← Hosted.now;
  ok ← write_key (key_of i) (val_of i);
  t ← Hosted.now;
  line t ["PUT "; pad_left 4 (key_of i); "="; pad_right 8 (val_of i); "  ";
          if (ok : bool) then GREEN +:+ "✓" +:+ RESET +:+ "  committed"
          else RED +:+ "✗" +:+ RESET +:+ "  failed";
          "  "; DIM; "("; dec (wrap64 (t - before) / kMsec); "ms)"; RESET].

Definition phase_2 : MD unit :=
  header "2" "Write Traffic";;
  for_each (seq 0 N_WRITES) write_line.

(** The first node that is not the leader, and the first that is neither. *)
Definition isolated (leader : NodeId) : NodeId :=
  default 0 (snd <$> list_find (λ id, id ≠ leader) all_ids).
Definition other (leader iso : NodeId) : NodeId :=
  default 0 (snd <$> list_find (λ id, id ≠ leader ∧ id ≠ iso) all_ids).

Definition majority_line (i : nat) : MD unit :=
  ok ← write_key (key_of i) (val_of i);
  t ← Hosted.now;
  line t ["PUT "; pad_left 4 (key_of i); "="; pad_right 8 (val_of i); "  ";
          if (ok : bool) then GREEN +:+ "✓" +:+ RESET +:+ "  committed  " +:+ DIM +:+
                                "(majority still reachable)" +:+ RESET
          else RED +:+ "✗" +:+ RESET].

Definition phase_3 (leader : NodeId) : MD unit :=
  let iso := isolated leader in
  let oth := other leader iso in
  Hosted.net (Net.partition [[leader; oth]; [iso]]);;
  t ← Hosted.now;
  line t [YELLOW; "partition:"; RESET; " {node-"; dec leader; ", node-"; dec oth;
          "} | {node-"; dec iso; "}  "; DIM; "(node-"; dec iso; " isolated)"; RESET];;
  for_each (seq N_WRITES 2) majority_line.

Definition phase_4 (iso : NodeId) : MD unit :=
  header "4" "Log Compaction  +  InstallSnapshot";;
  run_for (300 * kMsec);;
  l ← find_leader;
  t ← Hosted.now;
  match (l : option NodeId) with
  | Some l =>
      snap ← node l snap_last_index_;
      when (0 <? snap) (line t [MAGENTA; "snapshot"; RESET; " on node-"; dec l; "  last_applied=";
                                dec snap; "  "; DIM; "log compacted"; RESET])
  | None => mret tt
  end;;
  Hosted.net Net.heal;;
  line t [GREEN; "heal partition"; RESET; "  — node-"; dec iso; " rejoins"];;
  run_for (800 * kMsec);;
  t ← Hosted.now;
  applied ← node iso last_applied_;
  snap ← node iso snap_last_index_;
  line t ["node-"; dec iso; "  caught up  last_applied="; dec applied; "  "; DIM;
          "snap_index="; dec snap; RESET].

Definition read_key : string := "k5".

Definition phase_5 (leader : NodeId) : MD unit :=
  t ← Hosted.now;
  line t [CYAN; "read_index("; quote; read_key; quote; ")"; RESET;
          " — broadcasting heartbeat to confirm leadership"];;
  submitted ← Hosted.on_node leader (Node.read_index read_key 0);
  if negb submitted then line t [RED; "✗  not leader"; RESET]
  else
    run_for (400 * kMsec);;
    r ← rd d_read;
    t ← Hosted.now;
    match (r : bool * bool * option string) with
    | (true, true, v) =>
        line t [GREEN; "✓"; RESET; "  key="; quote; read_key; quote; "  value=";
                match v with Some x => quote +:+ x +:+ quote | None => "(absent)" end;
                "  "; DIM; "(quorum confirmed leadership)"; RESET]
    | _ => line t [RED; "✗  timed out"; RESET]
    end.

Definition summary : MD unit :=
  cout [eol];;
  cout [BOLD; rule; eol; RESET];;
  l ← find_leader;
  cout ["  "; DIM; "seed=42"; RESET; "  ·  3 nodes  ·  leader=node-"; dec (default 0 l); eol];;
  t ← Hosted.now;
  n ← rd (λ d, size (d_committed d));
  cout ["  "; DIM; "sim-time="; dec (t / kMsec); " ms"; RESET; "  ·  "; DIM; "ops committed: ";
        dec (Z.of_nat n); RESET; eol];;
  cout ["  "; DIM; "features:"; RESET; " leader election  ·  replication  ·  crash recovery"; eol];;
  cout ["  "; DIM; "         "; RESET; " partition tolerance  ·  log compaction  ·  read-index"; eol];;
  cout [BOLD; rule; eol; RESET];;
  cout [eol].

(** [main] after the cluster is built: the exit status. *)
Definition script : MD Z :=
  Hosted.start_nodes fuel all_ids;;
  phase_1;;
  l ← find_leader;
  match (l : option NodeId) with
  | None => cerr ("no leader elected" +:+ eol);; mret 1
  | Some _ =>
      phase_2;;
      header "3" "Network Partition";;
      l ← find_leader;
      match (l : option NodeId) with
      | None => cerr ("leader lost before partition" +:+ eol);; mret 1
      | Some l =>
          phase_3 l;;
          phase_4 (isolated l);;
          header "5" "Linearizable Read  (read-index)";;
          l ← find_leader;
          match (l : option NodeId) with
          | None => cerr ("no leader for read" +:+ eol);; mret 1
          | Some l => phase_5 l;; summary;; mret 0
          end
      end
  end.

(** [int main()]; the generator is seeded with 42. *)
Definition main (seed : Z) : result Z * cluster demo_locals := (banner;; script) (setup seed).

End Demo.
End Demo.
