(* ===== verification/DemoFacts.v ===== *)
(** * What the demonstration shows

    The run of seed 42, evaluated: its transcript, the state it leaves and the
    kinds of messages it sends. *)

From Stdlib Require Import Ascii.
From S2P Require Import Prelude Codec DurableStore Types Wal KvStore RaftLog Rpc Env Prng EventQueue Simulator Network Node.
From S2P Require Import History Workload FaultInjector Runner Text Format Server HostEnv Demo.
Open Scope string_scope.
Open Scope list_scope.
Open Scope Z_scope.

(** Text without its colour sequences: from ESC to the next [m]. *)
Fixpoint plain (inside : bool) (s : string) : string :=
  match s with
  | EmptyString => EmptyString
  | String c s' =>
      if inside then plain (negb (bool_decide (c = ascii_of_byte 109))) s'
      else if bool_decide (c = ascii_of_byte 27) then plain true s'
      else String c (plain false s')
  end.

(** What one node knows at the end: its role and term, how far it has applied,
    where its snapshot ends, and whether it holds all ten keys. *)
Definition holds_all (n : RaftNode) : bool :=
  forallb (λ i, bool_decide (Kv.get (Demo.key_of i) (kv_ n) = Some (Demo.val_of i))) (seq 0 10).
Definition standing (n : RaftNode) : Role * Term * Index * Index * bool :=
  (role_ n, current_term_ n, last_applied_ n, snap_last_index_ n, holds_all n).

(** The message is an [InstallSnapshot]. *)
Definition is_snapshot (m : Message) : bool :=
  match msg_payload m with
  | t :: _ => t =? mt_InstallSnapshot
  | [] => false
  end.

(** The lines from the partition on. *)
Definition transcript (s : string) : list string := drop 22 (tokens newline (plain false s)).

(** The demonstration.  The run of [demo] exits with 0: a leader is
    elected, all ten writes commit, the two during the partition included, no
    callback outlives the call it was made in, and the linearizable read
    returns the value written.  At the end the three nodes agree on the term
    and hold all ten keys, with a snapshot up to entry 7 and everything
    applied.  No node ever sends an [InstallSnapshot]: the node that rejoins
    has a snapshot of its own and catches up by [AppendEntries]. *)
Theorem demo_story :
  let '(r, c) := Demo.main 64 2000 42 in
  let d := h_locals (c_env c) in
  r = Ok 0 ∧ d_err d = "" ∧ d_writes d = ∅ ∧
  d_committed d = list_to_map ((λ i, (Demo.key_of i, Demo.val_of i)) <$> seq 0 10) ∧
  d_read d = (true, true, Some "val-5") ∧
  (λ id, standing <$> c_nodes c !! id) <$> Demo.all_ids =
    [Some (Leader, 7, 10, 7, true); Some (Follower, 7, 10, 7, true); Some (Follower, 7, 10, 7, true)] ∧
  forallb (λ m, negb (is_snapshot m)) (h_sent (c_env c)) = true ∧
  transcript (d_out d) = [
    "▶ Phase 3  Network Partition";
    "  [ 3800ms] partition: {node-1, node-3} | {node-2}  (node-2 isolated)";
    "  [ 4200ms] PUT   k8=val-8     ✓  committed  (majority still reachable)";
    "  [ 4600ms] PUT   k9=val-9     ✓  committed  (majority still reachable)";
    "";
    "▶ Phase 4  Log Compaction  +  InstallSnapshot";
    "  [ 4900ms] snapshot on node-1  last_applied=7  log compacted";
    "  [ 4900ms] heal partition  — node-2 rejoins";
    "  [ 5700ms] node-2  caught up  last_applied=10  snap_index=7";
    "";
    "▶ Phase 5  Linearizable Read  (read-index)";
    "  [ 5700ms] read_index(" +:+ quote +:+ "k5" +:+ quote +:+ ") — broadcasting heartbeat to confirm leadership";
    "  [ 6100ms] ✓  key=" +:+ quote +:+ "k5" +:+ quote +:+ "  value=" +:+ quote +:+ "val-5" +:+ quote +:+
      "  (quorum confirmed leadership)";
    "";
    "══════════════════════════════════════════════════════";
    "  seed=42  ·  3 nodes  ·  leader=node-1";
    "  sim-time=6100 ms  ·  ops committed: 10";
    "  features: leader election  ·  replication  ·  crash recovery";
    "            partition tolerance  ·  log compaction  ·  read-index";
    "══════════════════════════════════════════════════════";
    ""].
Proof. vm_compute. do 7 refine (conj eq_refl _). reflexivity. Qed.

(** ** A write that is answered late

    The leader alone in its part of the network: its write does not commit
    within the 400 ms of [write_key].  When the partition has healed and the
    next write commits at the same index, the old leader calls the closure of
    the first call, whose [done] and [ok] are gone. *)
Definition minority_write (fuel events : nat) : M (cluster demo_locals) (bool * bool) :=
  Hosted.start_nodes fuel Demo.all_ids;;
  Demo.phase_1 fuel events;;
  Hosted.net (Net.partition [[1]; [2; 3]]);;
  b1 ← Demo.write_key fuel events "k" "v";
  Hosted.net Net.heal;;
  Hosted.run_for fuel events (800 * kMsec);;
  b2 ← Demo.write_key fuel events "k" "w";
  mret (b1, b2).

Theorem late_answer_dangles : (minority_write 64 2000 (Demo.setup 42)).1 = Throw undefined_behaviour.
Proof. vm_compute. reflexivity. Qed.
