(* ===== verification/Bench.v ===== *)
(** * The benchmarks: [src/bench/bench_recovery.cpp], [src/bench/bench_throughput.cpp]

    [measure_recovery] drives a cluster of its own through a crash of the
    leader.  Its closures write [init_done] and, for a write to a new leader,
    the [done] of one iteration of the polling loop, which is gone when the
    iteration ends.  [compute_latency] reads percentiles off a history.  The
    readings of the wall clock are arguments. *)

From Corelib Require Import SpecFloat.
From S2P Require Import Prelude Codec DurableStore Types Wal KvStore RaftLog Rpc Env Prng EventQueue Simulator Network Node.
From S2P Require Import History Workload FaultInjector Runner Text Format Server HostEnv.
Open Scope list_scope.
Open Scope Z_scope.

Definition ddiv : double → double → double := SFdiv dprec demax.

(** ** Recovery *)

(** [init_done], and the [done] of the running iterations by the number of
    their closure. *)
Record recovery_locals := mkRecovery {
  r_init_done : bool;
  r_next : Z;
  r_done : gmap Z bool;
}.

Definition init_token : Z := 0.

(** The closures: [init_done = true] and [if (r.ok) done = true]. *)
Definition recovery_closure (t : Z) (r : CmdResult) : M recovery_locals unit := λ x,
  if t =? init_token then (Ok tt, mkRecovery true (r_next x) (r_done x))
  else
    match r_done x !! t with
    | Some d => (Ok tt, mkRecovery (r_init_done x) (r_next x) (<[t := d || res_ok r]> (r_done x)))
    | None => if res_ok r then (Throw undefined_behaviour, x) else (Ok tt, x)
    end.

#[export] Instance recovery_host : Host recovery_locals := {|
  host_client := recovery_closure;
  host_read _ _ _ := mret tt;
  host_state _ _ _ _ := mret tt
|}.

Module Recovery.
Section Recovery.
(** The bounds on rejected draws and on events per [run_for]. *)
Context (fuel events : nat).
#[local] Instance recovery_NodeEnv : NodeEnv (hosted recovery_locals) := Hosted.hosted_NodeEnv fuel.
Local Abbreviation MR := (M (cluster recovery_locals)).
Local Abbreviation run_for := (Hosted.run_for (F := recovery_locals) fuel events).

Definition upd (f : recovery_locals → recovery_locals) : MR unit := Hosted.locals (modify f).
Definition rd {B} (f : recovery_locals → B) : MR B := gets (λ s, f (h_locals (c_env s))).

(** A field of the node [id]. *)
Definition node {B} (id : NodeId) (f : RaftNode → B) : MR B := λ s,
  match c_nodes s !! id with
  | Some n => (Ok (f n), s)
  | None => (Throw undefined_behaviour, s)
  end.

Definition leads (n : RaftNode) : bool := running_ n && bool_decide (role_ n = Leader).

(** One write to the node [id]: the body of the inner loop after its test. *)
Definition try_write (id : NodeId) : MR bool :=
  t ← rd r_next;
  upd (λ x, mkRecovery (r_init_done x) (t + 1) (<[t := false]> (r_done x)));;
  Hosted.on_node id (Node.submit 1 2 (CmdPut "after_crash" "yes") (CbToken t));;
  run_for (500 * kMsec);;
  d ← rd (λ x, default false (r_done x !! t));
  upd (λ x, mkRecovery (r_init_done x) (r_next x) (delete t (r_done x)));;
  mret d.

(** The inner loop: [recover_at], 0 until a write has succeeded. *)
Fixpoint try_nodes (ids : list NodeId) : MR SimTime :=
  match ids with
  | [] => mret 0
  | id :: ids' =>
      l ← node id leads;
      if negb l then try_nodes ids'
      else
        d ← try_write id;
        if (d : bool) then Hosted.now else try_nodes ids'
  end.

(** [for (i = 0; i < 1000 && recover_at == 0; ++i)] *)
Fixpoint poll (ids : list NodeId) (rounds : nat) : MR SimTime :=
  match rounds with
  | O => mret 0
  | S rounds' =>
      run_for (10 * kMsec);;
      t ← try_nodes ids;
      if t =? 0 then poll ids rounds' else mret t
  end.

Definition setup (seed : Z) (n : nat) : cluster recovery_locals :=
  Hosted.build seed (Run.all_ids n) default_config false (mkRecovery false 1 ∅).

Definition measure (ids : list NodeId) : MR Z :=
  Hosted.start_nodes fuel ids;;
  run_for (2 * kSec);;
  leader ← gets (Hosted.first_node (λ n, bool_decide (role_ n = Leader)) ids);
  match (leader : option NodeId) with
  | None => mret 0
  | Some leader =>
      Hosted.on_node leader (Node.submit 1 1 (CmdPut "init" "done") (CbToken init_token));;
      run_for (2 * kSec);;
      init_done ← rd r_init_done;
      if negb init_done then mret 0
      else
        crash_at ← Hosted.now;
        Hosted.on_node leader Node.crash;;
        recover_at ← poll ids 1000;
        mret (if crash_at <? recover_at then wrap64 (recover_at - crash_at) else 0)
  end.

Definition measure_recovery (seed : Z) (n : nat) : result Z :=
  (measure (Run.all_ids n) (setup seed n)).1.

(** *** [main] *)

Definition csv_header : string := "nodes,election_timeout_lo_ms,trials,mean_recovery_ms,min_ms,max_ms" +:+ eol.

(** [std::accumulate(.., uint64_t(0))] *)
Definition accumulate (l : list Z) : Z := foldl (λ a b, wrap64 (a + b)) 0 l.

(** [*std::min_element] and [*std::max_element] of a list that is not empty *)
Definition min_element (x : Z) (l : list Z) : Z := foldl (λ m y, if y <? m then y else m) x l.
Definition max_element (x : Z) (l : list Z) : Z := foldl (λ m y, if m <? y then y else m) x l.

Definition thousandth (d : double) : double := ddiv d (double_of_u64 1000).

(** The line of a cluster size. *)
Definition recovery_line (n : nat) (samples : list Z) : string :=
  match samples with
  | [] => dec (Z.of_nat n) +:+ ",150,0,n/a,n/a,n/a" +:+ eol
  | x :: l =>
      let mean := ddiv (double_of_u64 (accumulate samples)) (double_of_u64 (size_z samples)) in
      concat [dec (Z.of_nat n); ",150,"; dec (size_z samples); ",";
              fixed 1 (thousandth mean); ",";
              fixed 1 (thousandth (double_of_u64 (min_element x l))); ",";
              fixed 1 (thousandth (double_of_u64 (max_element x l))); eol]
  end.

(** The samples of a cluster size: the seeds [1 .. 20] that recovered. *)
Fixpoint sample (n : nat) (seeds : list Z) : result (list Z) :=
  match seeds with
  | [] => Ok []
  | s :: seeds' =>
      match measure_recovery s n with
      | Throw e => Throw e
      | Ok r =>
          match sample n seeds' with
          | Throw e => Throw e
          | Ok l => Ok (if 0 <? r then r :: l else l)
          end
      end
  end.

Definition seeds : list Z := (λ i, Z.of_nat i) <$> seq 1 20.

(** What [main] prints. *)
Definition main : result string :=
  match sample 3 seeds, sample 5 seeds with
  | Ok l3, Ok l5 => Ok (csv_header +:+ recovery_line 3 l3 +:+ recovery_line 5 l5)
  | Throw e, _ | _, Throw e => Throw e
  end.

End Recovery.
End Recovery.

(** ** Throughput and latency *)

Record LatencyStats := mkStats { p50_us : double; p99_us : double; mean_us : double }.

(** The latencies of the operations that returned with an answer. *)
Definition counted (e : HistoryEntry) : bool :=
  negb (h_pending e) && (h_invoke e <? h_ret e) && negb (bool_decide (h_response e = "timeout"))
    && negb (bool_decide (h_response e = "not_leader")).
Definition latencies (h : History) : list Z :=
  (λ e, wrap64 (h_ret e - h_invoke e)) <$> filter (λ e, counted e = true) h.

(** [v[i]] *)
Definition at_index (v : list Z) (i : Z) : result Z :=
  match v !! Z.to_nat i with
  | Some x => Ok x
  | None => Throw undefined_behaviour
  end.

Definition p50_index (n : Z) : Z := wrap64 (n * 50) / 100.
Definition p99_index (n : Z) : Z := Z.min (wrap64 (n - 1)) (wrap64 (n * 99) / 100).

Definition compute_latency (h : History) : result LatencyStats :=
  let l := latencies h in
  match l with
  | [] => Ok (mkStats (double_of_u64 0) (double_of_u64 0) (double_of_u64 0))
  | _ =>
      let v := merge_sort Z.le l in
      let n := size_z v in
      let mean := ddiv (double_of_u64 (Recovery.accumulate v)) (double_of_u64 n) in
      match at_index v (p50_index n), at_index v (p99_index n) with
      | Ok p50, Ok p99 => Ok (mkStats (double_of_u64 p50) (double_of_u64 p99) mean)
      | _, _ => Throw undefined_behaviour
      end
  end.

Module Throughput.
Section Throughput.
(** The bounds of a run, and the milliseconds each trial takes on the wall. *)
Context (fuel events rounds : nat) (wall_ms : nat → double → nat → double).

Definition csv_header : string := "nodes,fault_rate,ops_completed,wall_ms,ops_per_sec,p50_us,p99_us" +:+ eol.

Definition TRIALS : nat := 5.

Definition trial_config (nodes : nat) (rate : double) (trial : nat) : RunConfig :=
  let d := default_run in
  let w := rc_workload_cfg d in
  mkRunConfig (wrap64 (wrap64 ((Z.of_nat trial + 1) * 100) + Z.of_nat nodes)) nodes 300 rate
    (rc_dump_trace d) (rc_inject_commit_bug d) (rc_inject_vote_bug d) (rc_net_cfg d)
    (mkWorkloadConfig 4 (num_keys w) (total_ops w) (think_time w) (put_prob w) (get_prob w))
    (rc_fault_cfg d).

(** [(wall_ms > 0) ? (result.ops_completed * 1000.0 / wall_ms) : 0] *)
Definition ops_per_sec (completed : Z) (ms : double) : double :=
  if SFltb (double_of_u64 0) ms then ddiv (dmul (double_of_u64 completed) (double_of_u64 1000)) ms
  else double_of_u64 0.

Record totals := mkTotals { total_ops_per_sec : double; total_p50 : double; total_p99 : double }.

Definition no_totals : totals := mkTotals (double_of_u64 0) (double_of_u64 0) (double_of_u64 0).

(** The body of the loop over the trials. *)
Definition trial (nodes : nat) (rate : double) (t : totals) (i : nat) : result totals :=
  match Run.run_once fuel events rounds (trial_config nodes rate i) with
  | Throw e => Throw e
  | Ok r =>
      match compute_latency (rr_history r) with
      | Throw e => Throw e
      | Ok st =>
          Ok (mkTotals (dadd (total_ops_per_sec t) (ops_per_sec (rr_ops_completed r) (wall_ms nodes rate i)))
                (dadd (total_p50 t) (p50_us st)) (dadd (total_p99 t) (p99_us st)))
      end
  end.

Fixpoint trials (nodes : nat) (rate : double) (t : totals) (todo : list nat) : result totals :=
  match todo with
  | [] => Ok t
  | i :: todo' =>
      match trial nodes rate t i with
      | Throw e => Throw e
      | Ok t' => trials nodes rate t' todo'
      end
  end.

Definition average (d : double) : double := ddiv d (double_of_u64 (Z.of_nat TRIALS)).

(** The line of a configuration. *)
Definition throughput_line (nodes : nat) (rate : double) (t : totals) : string :=
  concat [dec (Z.of_nat nodes); ","; fixed 2 rate; ","; dec 300; ",";
          fixed 1 (average (total_p50 t)); ",";
          fixed 1 (average (total_ops_per_sec t)); ",";
          fixed 0 (average (total_p50 t)); ",";
          fixed 0 (average (total_p99 t)); eol].

Fixpoint lines (configs : list (nat * double)) : result string :=
  match configs with
  | [] => Ok ""
  | (nodes, rate) :: configs' =>
      match trials nodes rate no_totals (seq 0 TRIALS) with
      | Throw e => Throw e
      | Ok t =>
          match lines configs' with
          | Throw e => Throw e
          | Ok s => Ok (throughput_line nodes rate t +:+ s)
          end
      end
  end.

Definition configs : list (nat * double) :=
  nodes ← [3; 5]%nat;
  (λ rate, (nodes, rate)) <$> [double_of_u64 0; dbl_ratio 5 100; dbl_ratio 20 100].

(** What [main] prints. *)
Definition main : result string :=
  match lines configs with
  | Ok s => Ok (csv_header +:+ s)
  | Throw e => Throw e
  end.

End Throughput.
End Throughput.
