(* ===== verification/BenchFacts.v ===== *)
(** * What the benchmarks measure

    The recovery time is a sum of the polling loop's waits; the percentiles
    of a history are order statistics of its latencies. *)

From S2P Require Import Prelude Codec DurableStore Types Wal KvStore RaftLog Rpc Env Prng EventQueue Simulator Network Node.
From S2P Require Import NetFrame SimRun SimEnv SimFrame History Workload FaultInjector Runner Text Format HostEnv HostFrame Bench.
Open Scope list_scope.
Open Scope Z_scope.

Section Recovery.
Context (fuel events : nat).
#[local] Existing Instance Recovery.recovery_NodeEnv.
Implicit Types (s : cluster recovery_locals).
Local Abbreviation now s := (clock_ (Hosted.clu_sim s)).
Local Abbreviation wait := 500000.
Local Abbreviation tick := 10000.

Lemma steady_submit id c r cmd cb :
  keeps steady (Hosted.on_node id (Node.submit (H := Recovery.recovery_NodeEnv fuel) c r cmd cb)).
Proof. apply steady_node, framed_submit. Qed.

(** One write takes the wait. *)
Lemma try_write_time id s d s' :
  Recovery.try_write fuel events id s = (Ok d, s') → sound s → short (now s + wait) →
  sound s' ∧ now s' = now s + wait.
Proof.
  unfold Recovery.try_write. intros H K Hs.
  apply bind_Ok_inv in H as (t & s0 & [= <- <-] & H).
  apply bind_Ok_inv in H as ([] & s1 & H1 & H). apply steady_at in H1 as [K1 N1]; [|apply steady_locals|done].
  apply bind_Ok_inv in H as (b & s2 & H2 & H). apply steady_at in H2 as [K2 N2]; [|apply steady_submit|done].
  apply bind_Ok_inv in H as ([] & s3 & H3 & H). change (500 * kMsec) with wait in H3.
  apply run_for_sound in H3 as [K3 N3]; [|lia|congruence|done].
  apply bind_Ok_inv in H as (x & s4 & [= <- <-] & H).
  apply bind_Ok_inv in H as ([] & s5 & H5 & H). apply steady_at in H5 as [K5 N5]; [|apply steady_locals|done].
  injection H as _ <-. split; [done|]. lia.
Qed.

Lemma try_nodes_time ids : ∀ s t s',
  Recovery.try_nodes fuel events ids s = (Ok t, s') → sound s → short (now s + size_z ids * wait) →
  sound s' ∧ ∃ b, now s' = now s + b * wait ∧ 0 <= b <= size_z ids ∧ (t = 0 ∨ (t = now s' ∧ 1 <= b)).
Proof.
  induction ids as [|id ids IH]; intros s t s' H K Hs; cbn [Recovery.try_nodes] in H.
  { injection H as <- <-. split; [done|]. exists 0. split_and!; [lia|done..|by left]. }
  unfold size_z in *. cbn [length] in *. pose proof (rl_now _ _ _ _ (sound_laws fuel) s K) as Hnow.
  apply bind_Ok_inv in H as (l & s0 & H0 & H).
  assert (s0 = s) as -> by (unfold Recovery.node in H0; by destruct (c_nodes s !! id); injection H0).
  destruct l; cbn [negb] in H.
  - apply bind_Ok_inv in H as (d & s1 & H1 & H).
    apply try_write_time in H1 as [K1 N1]; [|done|unfold short in *; lia]. destruct d.
    + injection H as <- <-. split; [done|]. exists 1. split_and!; [lia..|]. right. split; [done|lia].
    + destruct (IH s1 t s' H K1) as (K' & b & N' & Hb & Ht); [rewrite N1; unfold short in *; lia|].
      split; [done|]. exists (b + 1). split_and!; [lia..|]. destruct Ht as [?|[? ?]]; [by left|right; split; [done|lia]].
  - destruct (IH s t s' H K) as (K' & b & N' & Hb & Ht); [unfold short in *; lia|].
    split; [done|]. exists b. split_and!; [lia..|done].
Qed.

Lemma poll_time ids rounds : ∀ s t s',
  Recovery.poll fuel events ids rounds s = (Ok t, s') → sound s →
  short (now s + Z.of_nat rounds * (tick + size_z ids * wait)) →
  t = 0 ∨ ∃ a b, t = now s + a * tick + b * wait ∧ 1 <= a <= Z.of_nat rounds ∧ 1 <= b <= a * size_z ids.
Proof.
  induction rounds as [|rounds IH]; intros s t s' H K Hs; cbn [Recovery.poll] in H; [injection H as <- _; by left|].
  pose proof (rl_now _ _ _ _ (sound_laws fuel) s K) as Hnow.
  assert (0 <= size_z ids) as Hsz by (unfold size_z; lia).
  apply bind_Ok_inv in H as ([] & s1 & H1 & H). change (10 * kMsec) with tick in H1.
  apply run_for_sound in H1 as [K1 N1]; [|lia|unfold short in *; nia|done].
  apply bind_Ok_inv in H as (t1 & s2 & H2 & H).
  apply try_nodes_time in H2 as (K2 & b & N2 & Hb & Ht); [|done|rewrite N1; unfold short in *; nia].
  destruct (Z.eqb_spec t1 0) as [->|Hne].
  - destruct (IH s2 t s' H K2) as [->|(a' & b' & -> & Ha' & Hb')]; [rewrite N2, N1; unfold short in *; nia|by left|].
    right. exists (a' + 1), (b' + b). split_and!; nia.
  - injection H as <- _. destruct Ht as [?|[-> ?]]; [done|]. right. exists 1, b. split_and!; nia.
Qed.

(** C33: what [measure_recovery] measures.  A recovery time that is not 0 is a
    sum of the polling loop's own waits: at least one and at most 1000 rounds
    of 10 ms, and 500 ms for every write to a leader, the successful one
    included.  So no reported time is below 510 ms, however fast the cluster
    elects a leader and commits. *)
Theorem recovery_is_waits (seed : Z) (n : nat) (r : Z)
    (Hn : Z.of_nat n < 2 ^ 32) (Hrun : Recovery.measure_recovery fuel events seed n = Ok r) :
  r = 0 ∨ (510 * kMsec <= r ∧
           ∃ rounds writes, r = rounds * (10 * kMsec) + writes * (500 * kMsec) ∧
             1 <= rounds <= 1000 ∧ 1 <= writes <= rounds * Z.of_nat n).
Proof.
  unfold Recovery.measure_recovery in Hrun.
  destruct (Recovery.measure fuel events (Run.all_ids n) (Recovery.setup seed n)) as [r' s'] eqn:H.
  cbn [fst] in Hrun. subst r'. unfold Recovery.measure in H.
  assert (sound (Recovery.setup seed n)) as K by (apply build_sound; vm_compute; repeat split; congruence).
  assert (size_z (Run.all_ids n) = Z.of_nat n) as Hids by (unfold size_z, Run.all_ids; by rewrite length_fmap, length_seq).
  apply bind_Ok_inv in H as ([] & s1 & H1 & H). apply steady_at in H1 as [K1 N1]; [|apply steady_start|done].
  change (now (Recovery.setup seed n)) with 0 in N1. change (2 * kSec) with 2000000 in H.
  apply bind_Ok_inv in H as ([] & s2 & H2 & H). apply run_for_sound in H2 as [K2 N2]; [|lia|unfold short; lia|done].
  apply bind_Ok_inv in H as (l & s3 & [= <- <-] & H).
  destruct (Hosted.first_node _ _ s2) as [leader|]; [|injection H as <- _; by left].
  apply bind_Ok_inv in H as (b & s4 & H4 & H). apply steady_at in H4 as [K4 N4]; [|apply steady_submit|done].
  apply bind_Ok_inv in H as ([] & s5 & H5 & H). apply run_for_sound in H5 as [K5 N5]; [|lia|unfold short; lia|done].
  apply bind_Ok_inv in H as (done_ & s6 & [= <- <-] & H).
  destruct (r_init_done _); cbn [negb] in H; [|injection H as <- _; by left].
  apply bind_Ok_inv in H as (at_ & s7 & [= <- <-] & H).
  apply bind_Ok_inv in H as ([] & s8 & H8 & H).
  apply steady_at in H8 as [K8 N8]; [|apply steady_node, framed_crash|done].
  apply bind_Ok_inv in H as (t & s9 & H9 & H). injection H as <- _.
  apply poll_time in H9 as [->|(x & y & -> & Hx & Hy)]; [left|right|done|rewrite Hids; unfold short; lia].
  - rewrite (proj2 (Z.ltb_ge _ _)) by lia. done.
  - rewrite Hids in Hy. rewrite (proj2 (Z.ltb_lt _ _)) by nia. unfold kMsec.
    rewrite wrap64_id by (unfold is_u64; nia). split; [nia|]. exists x, y. split_and!; nia.
Qed.
End Recovery.

(** ** Percentiles *)

(** The order statistics of a list. *)
Definition at_most (x : Z) (l : list Z) : Z := size_z (filter (λ y, y <= x) l).
Definition at_least (x : Z) (l : list Z) : Z := size_z (filter (λ y, x <= y) l).

#[export] Instance size_perm : Proper ((≡ₚ) ==> eq) (@size_z Z).
Proof. intros l l' Hl. unfold size_z. by rewrite Hl. Qed.
#[export] Instance at_most_perm x : Proper ((≡ₚ) ==> eq) (at_most x).
Proof. intros l l' Hl. unfold at_most. by rewrite Hl. Qed.
#[export] Instance at_least_perm x : Proper ((≡ₚ) ==> eq) (at_least x).
Proof. intros l l' Hl. unfold at_least. by rewrite Hl. Qed.

Lemma filter_all {T} (P : T → Prop) `{∀ x, Decision (P x)} l : Forall P l → filter P l = l.
Proof. induction 1; [done|]. rewrite filter_cons_True by done. by f_equal. Qed.

(** In a sorted list the element at [i] has [i + 1] elements at or below it and
    all from [i] on at or above it. *)
Lemma sorted_rank v i x :
  StronglySorted Z.le v → v !! i = Some x →
  Z.of_nat i + 1 <= at_most x v ∧ size_z v - Z.of_nat i <= at_least x v.
Proof.
  intros Hs Hi. rewrite <-(take_drop_middle v i x Hi) in Hs |- *.
  pose proof (lookup_lt_Some v i x Hi) as Hlt. apply StronglySorted_app in Hs as (Hc & _ & Hs).
  apply StronglySorted_inv in Hs as [_ Hge]. unfold at_most, at_least, size_z.
  rewrite !filter_app, !filter_cons_True, !length_app by lia. cbn [length].
  rewrite length_take, length_drop. split.
  - rewrite (filter_all _ (take i v)); [rewrite length_take; lia|].
    apply Forall_forall. intros y Hy. apply Hc; [done|left].
  - rewrite (filter_all _ (drop (S i) v)); [rewrite length_drop; lia|done].
Qed.

Lemma sorted_le v i j x y :
  StronglySorted Z.le v → v !! i = Some x → v !! j = Some y → (i <= j)%nat → x <= y.
Proof.
  intros Hs Hi Hj Hij. destruct (decide (i = j)) as [<-|Hne]; [rewrite Hi in Hj; by injection Hj as ->|].
  rewrite <-(take_drop_middle v i x Hi) in Hs. apply StronglySorted_app in Hs as (_ & _ & Hs).
  apply StronglySorted_inv in Hs as [_ Hge]. rewrite Forall_forall in Hge. apply Hge.
  apply list_elem_of_lookup. exists (j - S i)%nat. rewrite lookup_drop. by replace (S i + (j - S i))%nat with j by lia.
Qed.

(** The percentile indices are in range, and in order. *)
Lemma percentile_indices n :
  1 <= n < 2 ^ 57 →
  p50_index n = n / 2 ∧ p99_index n = n * 99 / 100 ∧ 0 <= n / 2 <= n * 99 / 100 ∧ n * 99 / 100 < n.
Proof.
  intros Hn. unfold p50_index, p99_index. rewrite !wrap64_id by (unfold is_u64; lia).
  assert (n * 50 / 100 = n / 2) as ->.
  { replace 100 with (2 * 50) by lia. rewrite <-Z.div_div, Z.mul_comm by lia.
    rewrite Z.div_div by lia. rewrite (Z.mul_comm 2 50). by rewrite Z.div_mul_cancel_l by lia. }
  split; [done|]. assert (n * 99 / 100 < n) by (apply Z.div_lt_upper_bound; lia).
  split; [lia|]. split; [|lia]. split; [apply Z.div_pos; lia|].
  apply Z.div_le_lower_bound; [lia|]. pose proof (Z.mul_div_le n 2). lia.
Qed.

(** A percentile at index [i] of the sorted latencies. *)
Lemma percentile_at (l : list Z) i :
  0 <= i < size_z l →
  ∃ x, at_index (merge_sort Z.le l) i = Ok x ∧ x ∈ l ∧ i + 1 <= at_most x l ∧ size_z l - i <= at_least x l.
Proof.
  intros Hi. pose proof (merge_sort_Permutation Z.le l) as Hp.
  pose proof (StronglySorted_merge_sort Z.le l) as Hs.
  destruct (lookup_lt_is_Some_2 (merge_sort Z.le l) (Z.to_nat i)) as [x Hx].
  { rewrite (Permutation_length Hp). unfold size_z in Hi. lia. }
  exists x. unfold at_index. rewrite Hx. destruct (sorted_rank _ _ _ Hs Hx) as [H1 H2].
  rewrite Hp in H1, H2.
  split_and!; [done|rewrite <-Hp; by eapply list_elem_of_lookup_2|lia|lia].
Qed.

(** C34: the latency figures.  [compute_latency] never reads past its vector;
    with no answered operation all figures are 0.  Otherwise [p50] and [p99]
    are latencies of the history: more than half of them are at most [p50] and
    at least half are no less; more than 99% are at most [p99] and at least 1%
    are no less; and [p50 <= p99]. *)
Theorem latency_percentiles (h : History) (Hsize : size_z (latencies h) < 2 ^ 57) :
  let l := latencies h in
  ∃ st, compute_latency h = Ok st ∧
    ((l = [] ∧ st = mkStats (double_of_u64 0) (double_of_u64 0) (double_of_u64 0)) ∨
     ∃ p50 p99, p50_us st = double_of_u64 p50 ∧ p99_us st = double_of_u64 p99 ∧
       p50 ∈ l ∧ p99 ∈ l ∧ p50 <= p99 ∧
       size_z l < 2 * at_most p50 l ∧ size_z l <= 2 * at_least p50 l ∧
       99 * size_z l < 100 * at_most p99 l ∧ size_z l <= 100 * at_least p99 l).
Proof.
  cbv zeta. unfold compute_latency. destruct (latencies h) as [|x0 l0] eqn:Hl.
  { eexists. split; [done|]. by left. }
  set (l := x0 :: l0) in *. assert (size_z (merge_sort Z.le l) = size_z l) as -> by by rewrite merge_sort_Permutation.
  destruct (percentile_indices (size_z l)) as (-> & -> & Hle & Hlt); [unfold size_z, l in *; cbn [length] in *; lia|].
  destruct (percentile_at l (size_z l / 2)) as (p50 & E50 & I50 & M50 & L50); [lia|].
  destruct (percentile_at l (size_z l * 99 / 100)) as (p99 & E99 & I99 & M99 & L99); [lia|].
  rewrite E50, E99. eexists. split; [done|]. right. exists p50, p99. cbn [p50_us p99_us].
  pose proof (Z.div_mod (size_z l) 2). pose proof (Z.mod_pos_bound (size_z l) 2).
  pose proof (Z.div_mod (size_z l * 99) 100). pose proof (Z.mod_pos_bound (size_z l * 99) 100).
  split_and!; [done..| |lia|lia|lia|lia].
  unfold at_index in E50, E99. destruct (merge_sort Z.le l !! Z.to_nat (size_z l / 2)) eqn:H50; [|done].
  destruct (merge_sort Z.le l !! Z.to_nat (size_z l * 99 / 100)) eqn:H99; [|done].
  injection E50 as <-. injection E99 as <-. eapply (sorted_le (merge_sort Z.le l)); [apply StronglySorted_merge_sort; apply _|done|done|]. lia.
Qed.

(** A history of five operations, of which one timed out. *)
Definition bench_history : History :=
  (λ x : Z * string, mkHistoryEntry 100 0 OpGet "k" "" "" 10 (10 + x.1) x.2 true false) <$>
    [(30, "a"); (2000000, "timeout"); (10, "b"); (40, "c"); (20, "d")].

Lemma latency_percentiles_witness :
  latencies bench_history = [30; 10; 40; 20] ∧
  ∃ st, compute_latency bench_history = Ok st ∧ p50_us st = double_of_u64 30 ∧ p99_us st = double_of_u64 40 ∧
    ∃ p50, p50 ∈ latencies bench_history ∧ size_z (latencies bench_history) < 2 * at_most p50 (latencies bench_history).
Proof.
  split; [reflexivity|].
  destruct (latency_percentiles bench_history) as (st & E & [[H _]|(p50 & p99 & E50 & E99 & I50 & _ & _ & M50 & _)]);
    [vm_compute; reflexivity|discriminate H|].
  exists st. split; [exact E|]. vm_compute in E. injection E as <-.
  split; [vm_compute; reflexivity|]. split; [vm_compute; reflexivity|]. exists p50. by split.
Defined.

(** A recovery on three nodes: seed 13, whose time is the shortest of the
    twenty measured. *)
Lemma recovery_is_waits_witness :
  Recovery.measure_recovery 64 3000 13 3 = Ok (640 * kMsec) ∧ 510 * kMsec <= 640 * kMsec ∧
  ∃ rounds writes, 640 * kMsec = rounds * (10 * kMsec) + writes * (500 * kMsec) ∧
    1 <= rounds <= 1000 ∧ 1 <= writes <= rounds * 3.
Proof.
  assert (Recovery.measure_recovery 64 3000 13 3 = Ok (640 * kMsec)) as E by (vm_compute; reflexivity).
  split; [exact E|]. destruct (recovery_is_waits 64 3000 13 3 (640 * kMsec)) as [H|H]; [reflexivity|exact E|discriminate H|].
  exact H.
Defined.
