(* ===== verification/Published.v ===== *)
(** * The runs the repository publishes

    The README prints what [simkv run] says for two seeds, with the
    fingerprint of every event that fired.  The model runs the same command
    lines and prints the same text: a check of the model against the program. *)

From S2P Require Import Prelude Codec Types Rpc Env Prng EventQueue Simulator Network Node.
From S2P Require Import History Checker Text Format Workload FaultInjector Runner Cli.
Open Scope string_scope.
Open Scope list_scope.
Open Scope Z_scope.

Definition replay_argv : list string :=
  ["simkv"; "run"; "--seed"; "42"; "--nodes"; "3"; "--ops"; "300"; "--fault-rate"; "0.15"].

Definition bug_argv : list string :=
  ["simkv"; "run"; "--seed"; "13"; "--inject-commit-bug"; "--fault-rate"; "0.2"].

Definition replay_text : string :=
  concat ["simkv: seed=42 nodes=3 ops=300 fault_rate=0.15"; eol;
          "  trace_hash=0xe60456dfc449ba6c  ops_completed=300"; eol;
          "  PASS: history is linearizable"; eol].
Definition bug_text : string :=
  concat ["simkv: seed=13 nodes=3 ops=200 fault_rate=0.20"; eol;
          "  [BUG INJECTION] commit_bug=true vote_bug=false"; eol;
          "  trace_hash=0x19d5d2a41bc16b8f  ops_completed=200"; eol].
Definition bug_report : string :=
  concat [eol;
          "  FAIL: non-linearizable history!"; eol;
          "  Failing key: k6"; eol;
          "  Reason: non-linearizable history for key k6"; eol;
          eol;
          "  To reproduce: simkv run --seed 13 --inject-commit-bug"; eol].

Lemma replay_run can_open clock : main 64 2000 1200 can_open clock replay_argv = Ok (mkVerdict 0 None replay_text "").
Proof. vm_compute. reflexivity. Qed.

Lemma bug_run can_open clock : main 64 2000 1200 can_open clock bug_argv = Ok (mkVerdict 1 None bug_text bug_report).
Proof. vm_compute. reflexivity. Qed.

(** The runs the README publishes.  Whatever the wall clock says:
    [simkv run --seed 42 --nodes 3 --ops 300 --fault-rate 0.15] completes its
    300 operations, finds the history linearizable, exits with 0 and prints the
    published text, the 64-bit fingerprint of the event trace included; and with
    commits of prior terms counted by replicas alone, the run of seed 13 ends
    with a history that the checker refuses: the tool exits with 1 and prints
    the published report. *)
Theorem published_runs (can_open : string → bool) (clock : Z) :
  main 64 2000 1200 can_open clock replay_argv = Ok (mkVerdict 0 None replay_text "") ∧
  main 64 2000 1200 can_open clock bug_argv = Ok (mkVerdict 1 None bug_text bug_report).
Proof. split; [apply replay_run|apply bug_run]. Qed.
